(* ===== verification/_CoqProject ===== *)
-Q . S2P
Prelude.v
GoStd.v
GoText.v
Bits.v
Api.v
HitIter.v
MatchIter.v
Query.v
Parse.v
Section.v
IndexBuilder.v
IndexData.v
Shard.v
IndexSearch.v
Content.v
MatchTree.v
Eval.v
Decide.v
Gather.v
Lines.v
Walk.v
Offsets.v
Meaning.v
Shards.v
Aggregate.v
Corpus.v
Heap.v
Queue.v
Ctags.v
Build.v
Web.v
Rpc.v
Git.v
RepoIndex.v
Files.v
Mirror.v
IndexServer.v
Commands.v
Frontends.v
