(* ===== verification/Prelude.v ===== *)
(** * Zoekt: a verification development

    Zoekt is a search engine for source code. It cuts documents into trigrams, writes posting lists of trigrams into index files
    called shards, and answers queries (substrings, regular expressions, boolean combinations) by intersecting posting
    lists and checking the candidates in the contents. This library models its Go code as Rocq functions and step relations, and proves what makes it correct.

    ** The parts of the program

    Indexing. The mirroring commands (cmd/zoekt-mirror-*, gitindex/clone.go) clone the repositories of a host. A front end collects documents:
    gitindex/ from the branches of a git repository, cmd/zoekt-repo-index from the repositories of a manifest, cmd/zoekt-index from a directory,
    cmd/zoekt-archive-index from a tar file. build/builder.go cuts the documents into shards, has ctags find their symbols (build/ctags.go, ctags/), builds each shard with an IndexBuilder
    (indexbuilder.go), writes it (write.go, section.go) to a temporary file, and renames the files when all shards are done. The index servers
    (cmd/zoekt-sourcegraph-indexserver, cmd/zoekt-indexserver) decide what to index next and delete the shards of repositories that are gone.

    Searching. shards/ watches the index directory, loads (read.go, indexdata.go) and serves the shards, and searches them concurrently. A query
    is parsed and simplified (query/), turned into a match tree (matchtree.go) whose leaves iterate over documents by way of hit iterators (hititer.go,
    matchiter.go); eval.go walks the documents, decides each with growing cost, and collects and scores its matches with a content provider
    (contentprovider.go). web/ shows the results.

    ** Files

    - Prelude: machine integers, outcomes, the state monad, slices, lists, automation. GoStd: UTF-8, varints, binary, sort, strings, CRC. GoText: strings, strconv,
      net/url, path.
    - Bits (bits.go): trigrams, case folding, delta codes. Api (api.go): data exchanged with clients.
    - HitIter (hititer.go), MatchIter (matchiter.go): iterators over hits and over documents, behind the classes HitIterator and MatchIterator, whose laws are
      what the clients' proofs use.
    - Query (query/query.go, query/regexp.go, query/bits.go), Parse (query/parse.go): queries and their parser.
    - Section (section.go, toc.go, indexfile*.go, read.go), IndexBuilder (indexbuilder.go), IndexData (read.go, indexdata.go), Shard (write.go and the round
      trip), IndexSearch (from a written index to the candidates).
    - Content (contentprovider.go), MatchTree (matchtree.go), Eval (eval.go); and their theorems: Decide (the decision of one document), Gather
      (its matches), Lines (its lines), Walk (the walk over all documents), Offsets (from runes to bytes),
      Meaning (what a query means for a document, and that searching finds it).
    - Shards (shards/shards.go with the weighted semaphore of golang.org/x/sync): the searcher as a step relation. Aggregate (shards/shards.go, shards/watcher.go):
      results, listings and the watcher. Corpus: from the query to the documents of all shards.
    - Heap (container/heap, over a class with its laws), Queue (cmd/zoekt-sourcegraph-indexserver/queue.go).
    - Ctags (ctags/, build/ctags.go), Build (build/builder.go): symbols, and shards in a directory.
    - Web (web/server.go, web/snippets.go, web/api.go): the handlers, over a class Searcher.
    - Rpc (rpc/rpc.go, rpc/internal/srv/srv.go): remote searches. Frontends (cmd/zoekt, cmd/zoekt-webserver, cmd/zoekt-sourcegraph-indexserver/sem.go).
    - Git (gitindex/, with the tree walker of go-git): from trees to documents, over a class GitRepo.
    - RepoIndex (cmd/zoekt-repo-index, with the manifests of slothfs), Files (cmd/zoekt-index, and the walks of the file system of gitindex, over a model of
      directories and filepath.Walk), Mirror (gitindex/clone.go, cmd/zoekt-mirror-github, -gitiles and -gerrit).
    - IndexServer (cmd/zoekt-sourcegraph-indexserver/main.go, cmd/zoekt-indexserver/main.go, cmd/zoekt-archive-index): the sync loop, stale shards, archives. Commands (the same, with
      cmd/zoekt-indexserver/config.go, cmd/zoekt-git-index and package flag): the command lines with which the servers start the other commands, and what these read from them.

    A definition has the name of the function, type or constant it translates, as far as names are not taken; loops and branches of
    long functions are definitions of their own. State that the code changes in place is passed and returned.

    ** Conventions

    Integers are [Z]; arithmetic that can wrap is written with [u32], [u64] or [i64]. Byte slices and strings are lists of byte values. Code that can fail returns
    a [res]: [Ok], a returned error [Err], a [Panic], or [OutOfFuel]. Theorems that a function returns exclude the last two; an [Err] carries only the
    beginning of the message, except where the program stores the message (CheckText). Slices are taken to have no capacity beyond their length, except where the code reads it (Section). Maps are [gmap]s; a range over a map visits its
    pairs in the order of [map_to_list], and no theorem depends on which order that is. Goroutines are steps of a relation, in any interleaving.

    Fuel: loops that are not structural take a bound on their iterations, computed from the input where the code calls them, and the theorems show that it is
    enough: the parser takes twice the length of the query, Search one step per document, the loops of an iterator the number of its postings, the cost rounds
    the number of costs, findOffset and lines the length of the document, deletion of shards one more than the files of the directory. The
    listing of a user's repositories ends after as many answers as there are (getRepos_answers). Only the walk of a git tree has no bound in the code: [walkable] states one, and [deep_tree_diverges] shows that without it the loop does not end.

    Parameters stand for code that is not in the repository, and for parts of the standard library whose outcome does not matter: the regular expression
    engine (class RegexpEngine) and regexp/syntax's parser, Unicode case tables (UnicodeCase), the sorting algorithm (SortAlg: a sorted
    permutation, not stable), encoding/json (that decoding undoes encoding, where it is needed), html/template, url.Parse, filepath.Match and filepath.Rel, SHA-1,
    names of temporary files, the clock, the output of ctags, tar archives, failures of the file system, and what git repositories store. Each hypothesis about one has an
    instance in a witness.

    ** What is proved

    - The index: builder_invariant and postings_exact (what the builder records is what the documents hold), write_load_roundtrip (a written
      shard is loaded again), index_search_complete (no occurrence of a pattern is missed), delta_codec_roundtrip, mmap_Read_bounds.
    - Iterators: distance_drain, next_keeps_hits, ngram_candidates_exact, trim_exact; also merging_drain, compressed_drain, nextDoc_skips_nothing.
    - Queries: Parse_total, Parse_grammar (parsing printed expressions), Simplify_correct, RegexpToQuery_sound, with RegexpToQuery_foldcase_unsound and
      Parse_quoted_paren on where they go wrong.
    - Searching a shard: Search_finds (the documents found are exactly those that satisfy the query, as a predicate on their names, contents, symbols, branches, languages and
      repository; up to the document where the search was cancelled or had found enough; for documents of valid UTF-8 that findOffset reads far enough, and
      queries whose patterns are valid text and whose regular expressions are distilled soundly), decideDoc_exact (the rounds of growing cost compute the boolean meaning), Search_exact (the walk visits exactly the documents that match),
      gatherMatches_spec, fillContentMatches_spec, findOffset_exact, wide_runes_missed.
    - Many shards: no_search_of_closed and searcher_progress (safety and liveness of the searcher under concurrency), error_return_unsafe,
      SearchShards_spec, ListShards_spec, scan_spec (over loading shards from the contents of files), and search_corpus (the same as Search_finds for the documents of all shards together).
    - Building: Finish_publishes (where the documents are cut into shards, and which old shards go), Finish_atomic, tagsToSections_spec; also the ctags parser.
    - Git and archives: TreeToFiles_exact, IndexGitRepo_documents, deep_tree_diverges (a tree nested too deep, anywhere); repoIndex_documents (a manifest); do_archive_documents, api_github_misnamed.
    - Directories: indexArg_documents, FindGitRepos_spec, RepoModTime_spec.
    - Mirroring: mirrorGithub_mirrors.
    - Index servers: Queue_refines, no_commit_lost, deleteStaleIndexes_spec, short_file_panics; runIndexCommand_runs, Server_Index_archives and
      periodicMirror_runs (which commands are started, and what they read from their flags); indexserver_never_indexes (what -require_ctags leads to).
    - Web: formatResults_spec, highlights_exact (from matches to the page), print_link_roundtrip (from the link of a file to the search it makes and the page), limits_spec, huge_num_finds_nothing, serveListRepos_spec.
    - Remote searches and front ends: client_connections (one connection at a time, under concurrency), rpc_Search_same, resolve_bounded (the semaphore), templates_roundtrip,
      hostCustomization_roundtrip, watchdog_needs_html.

    ** Not modelled

    String and gob methods, tracing, logging, profiles and wall-clock statistics; the system calls that open, map and close files; tickers; net/rpc and the bytes of gob; the texts
    of web/templates.go; flags and profiles of cmd/zoekt and cmd/zoekt-webserver; cmd/zoekt-test, which measures. Shards.Close and the goroutine around fsnotify are left out as well. These consist of input and
    output, or of third-party code. *)

From stdpp Require Export base numbers list gmap strings sorting.

Declare Scope go_scope.
Delimit Scope go_scope with go.
#[global] Open Scope Z_scope.

(** ** Machine integers

    A Go [uint32] is a [Z] kept in [[0, 2^32)]; every arithmetic operation of
    the source that can wrap is written with [u32] (or [u64]) around it. *)

Definition two32 : Z := 4294967296.
Definition two64 : Z := 18446744073709551616.
Definition u8 (x : Z) : Z := x mod 256.
Definition u32 (x : Z) : Z := x mod two32.
Definition u64 (x : Z) : Z := x mod two64.
Definition is_u8 (x : Z) : Prop := 0 <= x < 256.
Definition is_u32 (x : Z) : Prop := 0 <= x < two32.
Definition is_u64 (x : Z) : Prop := 0 <= x < two64.

(** [maxUInt32] of indexdata.go. *)
Definition maxUInt32 : Z := 4294967295.

Notation "x ⊕ y" := (u32 (x + y)) (at level 50, left associativity) : go_scope.
Notation "x ⊖ y" := (u32 (x - y)) (at level 50, left associativity) : go_scope.
#[global] Open Scope go_scope.

(** Byte strings: Go's [[]byte] and [string] are both lists of byte values. *)
Abbreviation bytes := (list Z).
Definition lenZ {A} (l : list A) : Z := Z.of_nat (length l).
Definition str (s : string) : bytes :=
  (λ a, Z.of_nat (Ascii.nat_of_ascii a)) <$> String.list_ascii_of_string s.

(** ** Outcomes of Go code

    [Err] is a returned [error], [Panic] a run-time or [log.Panicf] panic, and
    [OutOfFuel] a loop that used up the iterations the model grants it. *)

Inductive res (A : Type) : Type :=
| Ok (a : A)
| Err (e : string)
| Panic (why : string)
| OutOfFuel.
Arguments Ok {A} _.
Arguments Err {A} _.
Arguments Panic {A} _.
Arguments OutOfFuel {A}.

#[global] Instance res_ret : MRet res := λ A a, Ok a.
#[global] Instance res_bind : MBind res := λ A B f m,
  match m with
  | Ok a => f a
  | Err e => Err e
  | Panic w => Panic w
  | OutOfFuel => OutOfFuel
  end.
#[global] Instance res_fmap : FMap res := λ A B f m,
  match m with
  | Ok a => Ok (f a)
  | Err e => Err e
  | Panic w => Panic w
  | OutOfFuel => OutOfFuel
  end.

(** Code that may fail and works on a state, which it leaves changed even when it fails. *)
Definition M (S A : Type) : Type := S → res A * S.
#[global] Instance M_ret {S} : MRet (M S) := λ A a s, (Ok a, s).
#[global] Instance M_bind {S} : MBind (M S) := λ A B f m s,
  match m s with
  | (Ok a, s) => f a s
  | (Err e, s) => (Err e, s)
  | (Panic w, s) => (Panic w, s)
  | (OutOfFuel, s) => (OutOfFuel, s)
  end.
Definition lift {S A} (r : res A) : M S A := λ s, (r, s).
Definition modify {S} (f : S → S) : M S () := λ s, (Ok (), f s).
Definition gets {S A} (f : S → A) : M S A := λ s, (Ok (f s), s).
(** An error becomes the value [a]; the state stays changed. *)
Definition recover {S A} (m : M S A) (a : A) : M S A := λ s,
  match m s with (Err _, s) => (Ok a, s) | r => r end.

Definition is_Ok {A} (m : res A) : Prop := ∃ a, m = Ok a.

(** [l[i]], [l[i:]] and [l[i:j]], with Go's bounds checks. *)
Definition index {A} (l : list A) (i : Z) : res A :=
  if decide (0 <= i) then
    match l !! Z.to_nat i with
    | Some a => Ok a
    | None => Panic "index out of range"
    end
  else Panic "index out of range".

Definition slice_from {A} (l : list A) (i : Z) : res (list A) :=
  if decide (0 <= i <= lenZ l) then Ok (drop (Z.to_nat i) l)
  else Panic "slice bounds out of range".

Definition slice {A} (l : list A) (i j : Z) : res (list A) :=
  if decide (0 <= i <= j ∧ j <= lenZ l)
  then Ok (take (Z.to_nat (j - i)) (drop (Z.to_nat i) l))
  else Panic "slice bounds out of range".

(** ** Automation *)

Create HintDb go.
Create HintDb go_len.

Ltac u32_unfold :=
  unfold u8, u32, u64, is_u8, is_u32, is_u64, maxUInt32, two32, two64 in *.
(** Linear arithmetic over wrapped integers. *)
Ltac u32_lia := u32_unfold; Z.div_mod_to_equations; lia.

(** Inversion of a successful monadic computation. *)
Lemma bind_Ok {A B} (m : res A) (f : A → res B) (b : B) :
  m ≫= f = Ok b ↔ ∃ a, m = Ok a ∧ f a = Ok b.
Proof. destruct m; simpl; naive_solver. Qed.

Lemma fmap_Ok {A B} (m : res A) (f : A → B) (b : B) :
  f <$> m = Ok b ↔ ∃ a, m = Ok a ∧ b = f a.
Proof. destruct m; simpl; naive_solver. Qed.

Ltac res_inv :=
  repeat match goal with
  | H : _ ≫= _ = Ok _ |- _ =>
      apply bind_Ok in H; destruct H as (?&?&H)
  | H : _ <$> _ = Ok _ |- _ => apply fmap_Ok in H; destruct H as (?&?&H)
  | H : Ok _ = Ok _ |- _ => injection H as H; try subst
  | H : Err _ = Ok _ |- _ => discriminate H
  | H : Panic _ = Ok _ |- _ => discriminate H
  | H : OutOfFuel = Ok _ |- _ => discriminate H
  end.

(** A computation that returns a value or an error: it neither panics nor runs
    out of fuel. *)
Definition settled {A} (m : res A) : Prop :=
  match m with Ok _ | Err _ => True | Panic _ | OutOfFuel => False end.

Lemma settled_Ok {A} (m : res A) : is_Ok m → settled m.
Proof. by intros [a ->]. Qed.
Lemma settled_bind {A B} (m : res A) (f : A → res B) :
  settled m → (∀ a, m = Ok a → settled (f a)) → settled (m ≫= f).
Proof. destruct m; simpl; auto. Qed.
Lemma settled_fmap {A B} (m : res A) (f : A → B) : settled m → settled (f <$> m).
Proof. by destruct m. Qed.
#[export] Hint Resolve @settled_fmap : go.

Lemma slice_from_Ok {A} (l : list A) i :
  0 <= i <= lenZ l → slice_from l i = Ok (drop (Z.to_nat i) l).
Proof. intros. unfold slice_from. by rewrite decide_True by lia. Qed.
Lemma slice_from_inv {A} (l k : list A) i :
  slice_from l i = Ok k → 0 <= i <= lenZ l ∧ k = drop (Z.to_nat i) l.
Proof. unfold slice_from. case_decide; intros [=]; auto. Qed.

Lemma u32_id x : is_u32 x → u32 x = x.
Proof. intros. apply Z.mod_small. u32_unfold. lia. Qed.
Lemma u32_range x : is_u32 (u32 x).
Proof. u32_lia. Qed.
Lemma u64_id x : is_u64 x → u64 x = x.
Proof. intros. apply Z.mod_small. u32_unfold. lia. Qed.
Lemma u64_range x : is_u64 (u64 x).
Proof. u32_lia. Qed.
#[export] Hint Resolve u32_id u32_range u64_id u64_range : go.

(** A wrapped difference undoes a wrapped sum. *)
Lemma u32_add_sub x y : is_u32 x → y ⊕ (x ⊖ y) = x.
Proof. u32_lia. Qed.

(** ** Lists *)

Lemma lenZ_nil {A} : lenZ (@nil A) = 0.
Proof. done. Qed.
Lemma lenZ_cons {A} (a : A) l : lenZ (a :: l) = 1 + lenZ l.
Proof. unfold lenZ. cbn [length]. lia. Qed.
Lemma lenZ_app {A} (l k : list A) : lenZ (l ++ k) = lenZ l + lenZ k.
Proof. unfold lenZ. rewrite length_app. lia. Qed.
Lemma lenZ_nonneg {A} (l : list A) : 0 <= lenZ l.
Proof. unfold lenZ. lia. Qed.
Lemma lenZ_drop {A} n (l : list A) : lenZ (drop n l) = Z.max 0 (lenZ l - Z.of_nat n).
Proof. unfold lenZ. rewrite length_drop. lia. Qed.
Lemma lenZ_take {A} n (l : list A) : lenZ (take n l) = Z.min (lenZ l) (Z.of_nat n).
Proof. unfold lenZ. rewrite length_take. lia. Qed.
Lemma lenZ_fmap {A B} (f : A → B) (l : list A) : lenZ (f <$> l) = lenZ l.
Proof. unfold lenZ. by rewrite length_fmap. Qed.
#[export] Hint Rewrite @lenZ_nil @lenZ_cons @lenZ_app @lenZ_drop @lenZ_take @lenZ_fmap : go_len.
#[export] Hint Resolve lenZ_nonneg : go.

Lemma mjoin_cons {A} (a : list A) l : mjoin (a :: l) = a ++ mjoin l.
Proof. done. Qed.
Lemma slice_from_app {A} (l k : list A) : slice_from (l ++ k) (lenZ l) = Ok k.
Proof.
  unfold slice_from. rewrite decide_True.
  - unfold lenZ. by rewrite Nat2Z.id, drop_app_length.
  - rewrite lenZ_app. pose proof (lenZ_nonneg l). pose proof (lenZ_nonneg k). lia.
Qed.

Lemma slice_app {A} (l k m : list A) :
  slice (l ++ k ++ m) (lenZ l) (lenZ l + lenZ k) = Ok k.
Proof.
  unfold slice. rewrite decide_True.
  - replace (lenZ l + lenZ k - lenZ l) with (lenZ k) by lia.
    unfold lenZ. by rewrite !Nat2Z.id, drop_app_length, take_app_length.
  - rewrite !lenZ_app. pose proof (lenZ_nonneg l). pose proof (lenZ_nonneg k).
    pose proof (lenZ_nonneg m). lia.
Qed.

Lemma index_lookup {A} (l : list A) (i : Z) (a : A) :
  index l i = Ok a ↔ 0 <= i ∧ l !! Z.to_nat i = Some a.
Proof.
  unfold index. case_decide; [|naive_solver].
  destruct (l !! Z.to_nat i); naive_solver.
Qed.

Lemma last_cons_default {A} (a d : A) l : List.last (a :: l) d = List.last l a.
Proof.
  revert a. induction l as [|b l IH]; intros a; [done|].
  change (List.last (a :: b :: l) d) with (List.last (b :: l) d).
  rewrite IH. symmetry. destruct l as [|c l]; [done|].
  change (List.last (b :: c :: l) a) with (List.last (c :: l) a).
  clear IH. revert b c. induction l as [|e l IH]; intros b c; [done|]. apply (IH b e).
Qed.

(** ** Bit fields *)

(** [x << n | y] is a sum when [y] fits below bit [n]. *)
Lemma lor_shiftl_add x y n : 0 <= n → 0 <= y < 2 ^ n → Z.lor (Z.shiftl x n) y = x * 2 ^ n + y.
Proof.
  intros Hn Hy. rewrite <- Z.add_nocarry_lor.
  - by rewrite Z.shiftl_mul_pow2.
  - apply Z.bits_inj'. intros k Hk. rewrite Z.land_spec, Z.bits_0.
    destruct (decide (k < n)).
    + by rewrite Z.shiftl_spec_low.
    + replace y with (y mod 2 ^ n) by (by apply Z.mod_small).
      rewrite Z.mod_pow2_bits_high by lia. apply andb_false_r.
Qed.

Lemma lor_u64 x y : is_u64 x → is_u64 y → is_u64 (Z.lor x y).
Proof.
  intros [Hx Hx'] [Hy Hy']. split; [by apply Z.lor_nonneg|].
  destruct (Z.eq_dec (Z.lor x y) 0) as [->|Hne]; [u32_unfold; lia|].
  assert (0 <= Z.lor x y) by (by apply Z.lor_nonneg).
  change two64 with (2 ^ 64) in *. apply Z.log2_lt_pow2; [lia|]. rewrite Z.log2_lor by done.
  assert (∀ z, 0 <= z → z < 2 ^ 64 → Z.log2 z < 64) as Hlog.
  { intros z Hz Hz'. destruct (Z.eq_dec z 0) as [->|]; [done|]. apply Z.log2_lt_pow2; lia. }
  pose proof (Hlog x Hx Hx'). pose proof (Hlog y Hy Hy'). lia.
Qed.

(** ** Traversals in the outcome monad *)

Lemma mapM_Ok {A B} (f : A → res B) l k :
  mapM f l = Ok k ↔ Forall2 (λ x y, f x = Ok y) l k.
Proof.
  revert k. induction l as [|x l IH]; intros k; simpl.
  - split; [intros [= <-]; constructor|by inversion 1].
  - rewrite bind_Ok. setoid_rewrite bind_Ok. split.
    + intros (y & Hy & k' & Hk & [= <-]). constructor; [done|]. by apply IH.
    + inversion 1 as [|? y ? k' Hy Hk]; subst. exists y. split; [done|].
      exists k'. split; [by apply IH|done].
Qed.

Lemma mapM_app {A B} (f : A → res B) l k : mapM f (l ++ k) = l' ← mapM f l; k' ← mapM f k; Ok (l' ++ k').
Proof.
  induction l as [|x l IH]; simpl; [by destruct (mapM f k)|]. destruct (f x); simpl; try done. rewrite IH. destruct (mapM f l); simpl; try done.
  by destruct (mapM f k).
Qed.
Lemma mapM_total {A B} (f : A → res B) l :
  Forall (λ x, is_Ok (f x)) l → is_Ok (mapM f l).
Proof.
  induction 1 as [|x l [y Hy] _ [k Hk]]; [by exists []|].
  exists (y :: k). simpl. by rewrite Hy, Hk.
Qed.

(** ** Sorted and filtered lists *)

Lemma StronglySorted_impl {A} (R S : A → A → Prop) l :
  (∀ x y, R x y → S x y) → StronglySorted R l → StronglySorted S l.
Proof.
  intros HRS. induction 1 as [|x l _ IH Hx]; constructor; [done|].
  eapply Forall_impl; [exact Hx|auto].
Qed.

Lemma filter_all {A} (P : A → Prop) `{∀ x, Decision (P x)} (l : list A) : (∀ x, x ∈ l → P x) → filter P l = l.
Proof.
  induction l as [|x l IH]; intros Hl; [done|].
  rewrite filter_cons_True by (apply Hl; constructor). f_equal. apply IH. intros y Hy.
  apply Hl. by constructor.
Qed.
Lemma filter_none {A} (P : A → Prop) `{∀ x, Decision (P x)} (l : list A) : (∀ x, x ∈ l → ¬ P x) → filter P l = [].
Proof.
  induction l as [|x l IH]; intros Hl; [done|].
  rewrite filter_cons_False by (apply Hl; constructor). apply IH. intros y Hy.
  apply Hl. by constructor.
Qed.
Lemma filter_ext_elem {A} (P Q : A → Prop) `{∀ x, Decision (P x)} `{∀ x, Decision (Q x)} (l : list A) :
  (∀ x, x ∈ l → P x ↔ Q x) → filter P l = filter Q l.
Proof.
  induction l as [|x l IH]; intros Hl; [done|]. rewrite !filter_cons.
  rewrite IH by (intros y Hy; apply Hl; by constructor).
  specialize (Hl x ltac:(constructor)). repeat case_decide; tauto || done.
Qed.
