(* ===== verification/GoStd.v ===== *)
(** * The parts of Go's standard library the sources use

    unicode/utf8 (decoding and encoding of runes), encoding/binary (uvarints
    and big-endian words), bytes/strings searches, sort.Search, and two
    interfaces: [SortAlg] for sort.Sort/sort.Slice (any algorithm that returns
    a sorted permutation: Go's is not stable) and [UnicodeCase] for the case
    tables of package unicode. *)

From S2P Require Import Prelude.

Module utf8.

Definition RuneError : Z := 65533.
Definition MaxRune : Z := 1114111.

(** A continuation byte within [lo, hi]. *)
Definition within (lo hi b : Z) : bool := (lo <=? b) && (b <=? hi).
Definition cont (b : Z) : bool := within 128 191 b.

(** The range of the second byte of a three- or four-byte sequence: the first
    byte rules out overlong forms, surrogates and runes above MaxRune. *)
Definition second3 (b0 b1 : Z) : bool :=
  if b0 =? 224 then within 160 191 b1
  else if b0 =? 237 then within 128 159 b1
  else cont b1.
Definition second4 (b0 b1 : Z) : bool :=
  if b0 =? 240 then within 144 191 b1
  else if b0 =? 244 then within 128 143 b1
  else cont b1.

(** utf8.DecodeRune: the rune and its width; (RuneError, 0) on empty input and
    (RuneError, 1) on an invalid encoding. *)
Definition DecodeRune (p : bytes) : Z * Z :=
  match p with
  | [] => (RuneError, 0)
  | b0 :: t =>
    if b0 <? 128 then (b0, 1)
    else if within 194 223 b0 then
      match t with
      | b1 :: _ => if cont b1 then ((b0 - 192) * 64 + (b1 - 128), 2) else (RuneError, 1)
      | _ => (RuneError, 1)
      end
    else if within 224 239 b0 then
      match t with
      | b1 :: b2 :: _ =>
        if second3 b0 b1 && cont b2
        then ((b0 - 224) * 4096 + (b1 - 128) * 64 + (b2 - 128), 3) else (RuneError, 1)
      | _ => (RuneError, 1)
      end
    else if within 240 244 b0 then
      match t with
      | b1 :: b2 :: b3 :: _ =>
        if second4 b0 b1 && cont b2 && cont b3
        then ((b0 - 240) * 262144 + (b1 - 128) * 4096 + (b2 - 128) * 64 + (b3 - 128), 4)
        else (RuneError, 1)
      | _ => (RuneError, 1)
      end
    else (RuneError, 1)
  end.

Definition valid_rune (r : Z) : Prop :=
  0 <= r < 55296 ∨ 57343 < r <= MaxRune.
#[global] Instance valid_rune_dec r : Decision (valid_rune r) := _.

Definition enc1 (r : Z) : bytes := [r].
Definition enc2 (r : Z) : bytes := [192 + r / 64; 128 + r mod 64].
Definition enc3 (r : Z) : bytes := [224 + r / 4096; 128 + r / 64 mod 64; 128 + r mod 64].
Definition enc4 (r : Z) : bytes :=
  [240 + r / 262144; 128 + r / 4096 mod 64; 128 + r / 64 mod 64; 128 + r mod 64].

(** The bytes utf8.EncodeRune writes; an invalid rune is written as RuneError. *)
Definition EncodeRune (r : Z) : bytes :=
  if decide (valid_rune r) then
    if r <? 128 then enc1 r else if r <? 2048 then enc2 r
    else if r <? 65536 then enc3 r else enc4 r
  else enc3 RuneError.

(** [for len(p) > 0 { r, sz := utf8.DecodeRune(p); p = p[sz:] }]: the runes of
    [p] with their widths. [skip] counts the bytes of the current rune that are
    still to be passed over. *)
Fixpoint decode_aux (skip : nat) (p : bytes) : list (Z * Z) :=
  match p with
  | [] => []
  | _ :: t =>
    match skip with
    | S k => decode_aux k t
    | O => DecodeRune p :: decode_aux (Z.to_nat (snd (DecodeRune p)) - 1) t
    end
  end.
Definition decode_all (p : bytes) : list (Z * Z) := decode_aux 0 p.
(** The runes of a string, [[]rune(s)]. *)
Definition runes (p : bytes) : list Z := fst <$> decode_all p.
(** utf8.RuneCount / utf8.RuneCountInString. *)
Definition RuneCount (p : bytes) : Z := lenZ (decode_all p).
(** [string(rs)] for a rune slice. *)
Definition encode_all (rs : list Z) : bytes := mjoin (EncodeRune <$> rs).

(** The byte offset of each rune, paired with rune and width. *)
Fixpoint with_offsets (off : Z) (ds : list (Z * Z)) : list (Z * (Z * Z)) :=
  match ds with
  | [] => []
  | (r, sz) :: ds => (off, (r, sz)) :: with_offsets (off + sz) ds
  end.
Definition total_size (ds : list (Z * Z)) : Z := foldr (λ d acc, snd d + acc) 0 ds.

Lemma total_size_cons d ds : total_size (d :: ds) = snd d + total_size ds.
Proof. done. Qed.

Ltac utf8_unfold := unfold second3, second4, cont, within in *.

Lemma DecodeRune_size p : p ≠ [] → 1 <= snd (DecodeRune p) <= 4 ∧ snd (DecodeRune p) <= lenZ p.
Proof.
  destruct p as [|b0 [|b1 [|b2 [|b3 t]]]]; [done|..]; intros _; simpl;
    repeat case_match; simpl; unfold lenZ; simpl; lia.
Qed.

Lemma DecodeRune_range p : Forall is_u8 p → 0 <= fst (DecodeRune p) < 2097152.
Proof.
  unfold is_u8, RuneError. intros Hp.
  destruct p as [|b0 [|b1 [|b2 [|b3 t]]]]; simpl;
    repeat (apply Forall_cons in Hp as [? Hp]);
    utf8_unfold; repeat case_match; unfold RuneError; simpl in *; rewrite ?andb_true_iff in *; lia.
Qed.

Lemma decode_aux_skip k p : decode_aux k p = decode_aux 0 (drop k p).
Proof.
  revert p. induction k as [|k IH]; intros [|b p]; try done. simpl. apply IH.
Qed.

Lemma decode_all_nil : decode_all [] = [].
Proof. done. Qed.

Lemma decode_all_cons p :
  p ≠ [] →
  decode_all p = DecodeRune p :: decode_all (drop (Z.to_nat (snd (DecodeRune p))) p).
Proof.
  intros Hp. pose proof (DecodeRune_size p Hp) as [? ?].
  destruct p as [|b p]; [done|]. unfold decode_all. cbn [decode_aux]. f_equal.
  rewrite decode_aux_skip. f_equal.
  destruct (Z.to_nat (snd (DecodeRune (b :: p)))) as [|n] eqn:E; [lia|].
  simpl. f_equal. lia.
Qed.

(** Induction along the decoding loop. *)
Lemma decode_ind (P : bytes → Prop) :
  P [] →
  (∀ p, p ≠ [] → P (drop (Z.to_nat (snd (DecodeRune p))) p) → P p) →
  ∀ p, P p.
Proof.
  intros H0 HS p. remember (length p) as n eqn:Hn. revert p Hn.
  induction n as [n IH] using lt_wf_ind. intros p ->.
  destruct (decide (p = [])) as [->|Hp]; [done|].
  apply HS; [done|]. eapply IH; [|done]. rewrite length_drop.
  pose proof (DecodeRune_size p Hp). unfold lenZ in *.
  destruct p; [done|]. simpl length in *. lia.
Qed.

Lemma total_size_decode p : total_size (decode_all p) = lenZ p.
Proof.
  induction p as [|p Hp IH] using decode_ind; [done|].
  rewrite decode_all_cons by done. rewrite total_size_cons, IH, lenZ_drop.
  pose proof (DecodeRune_size p Hp). lia.
Qed.

Lemma decode_sizes p : Forall (λ d, 1 <= snd d <= 4) (decode_all p).
Proof.
  induction p as [|p Hp IH] using decode_ind; [constructor|].
  rewrite decode_all_cons by done. constructor; [|done].
  pose proof (DecodeRune_size p Hp). lia.
Qed.

Lemma decode_range p : Forall is_u8 p → Forall (λ d, 0 <= fst d < 2097152) (decode_all p).
Proof.
  induction p as [|p Hp IH] using decode_ind; intros H; [constructor|].
  rewrite decode_all_cons by done. constructor; [by apply DecodeRune_range|].
  apply IH. by apply Forall_drop.
Qed.

(** Decoding inverts encoding on valid runes, whatever follows. *)
Lemma Decode_Encode r rest :
  valid_rune r →
  DecodeRune (EncodeRune r ++ rest) = (r, lenZ (EncodeRune r)).
Proof.
  intros Hr. unfold EncodeRune. rewrite decide_True by done.
  unfold valid_rune, MaxRune in Hr.
  destruct (r <? 128) eqn:E1; [unfold enc1; simpl; by rewrite E1|].
  destruct (r <? 2048) eqn:E2.
  { unfold enc2. simpl. utf8_unfold.
    repeat case_match; rewrite ?andb_true_iff, ?andb_false_iff in *; try (exfalso; Z.div_mod_to_equations; lia).
    f_equal; Z.div_mod_to_equations; lia. }
  destruct (r <? 65536) eqn:E3.
  { unfold enc3. simpl. utf8_unfold.
    repeat case_match; rewrite ?andb_true_iff, ?andb_false_iff in *; try (exfalso; Z.div_mod_to_equations; lia);
    f_equal; Z.div_mod_to_equations; lia. }
  unfold enc4. simpl. utf8_unfold.
  repeat case_match; rewrite ?andb_true_iff, ?andb_false_iff in *; try (exfalso; Z.div_mod_to_equations; lia);
    f_equal; Z.div_mod_to_equations; lia.
Qed.

Lemma EncodeRune_nonempty r : EncodeRune r ≠ [].
Proof. unfold EncodeRune, enc1, enc2, enc3, enc4. repeat case_match; done. Qed.

Lemma decode_all_encode rs rest :
  Forall valid_rune rs →
  decode_all (encode_all rs ++ rest)
  = ((λ r, (r, lenZ (EncodeRune r))) <$> rs) ++ decode_all rest.
Proof.
  induction 1 as [|r rs Hr _ IH]; [done|].
  change (encode_all (r :: rs)) with (EncodeRune r ++ encode_all rs).
  rewrite <- app_assoc, decode_all_cons.
  2:{ pose proof (EncodeRune_nonempty r). by destruct (EncodeRune r). }
  rewrite Decode_Encode by done. cbn [snd fmap list_fmap app]. f_equal.
  unfold lenZ at 1. rewrite Nat2Z.id, drop_app_length. apply IH.
Qed.

End utf8.

Module binary.

(** binary.PutUvarint: seven bits per byte, least significant group first, the
    high bit set on every byte but the last. Ten bytes hold any uint64. *)
Fixpoint PutUvarint_aux (fuel : nat) (x : Z) : bytes :=
  match fuel with
  | O => []
  | S k => if 128 <=? x then (x mod 128 + 128) :: PutUvarint_aux k (x / 128) else [x]
  end.
Definition PutUvarint (x : Z) : bytes := PutUvarint_aux 10 x.

(** binary.Uvarint: (value, n) with n > 0 bytes read, n = 0 when the buffer ends
    inside the varint, n < 0 on overflow of 64 bits. *)
Fixpoint Uvarint_aux (i x : Z) (buf : bytes) : Z * Z :=
  match buf with
  | [] => (0, 0)
  | b :: t =>
    if b <? 128 then
      if (9 <? i) || ((i =? 9) && (1 <? b)) then (0, - (i + 1))
      else (x + b * 2 ^ (7 * i), i + 1)
    else Uvarint_aux (i + 1) (x + (b mod 128) * 2 ^ (7 * i)) t
  end.
Definition Uvarint (buf : bytes) : Z * Z := Uvarint_aux 0 0 buf.

(** Big-endian words of [n] bytes. *)
Fixpoint be_split (n : nat) (x : Z) : bytes :=
  match n with
  | O => []
  | S k => be_split k (x / 256) ++ [x mod 256]
  end.
Definition be_combine (bs : bytes) : Z := foldl (λ acc b, acc * 256 + b) 0 bs.
Definition PutUint32 (x : Z) : bytes := be_split 4 x.
Definition PutUint64 (x : Z) : bytes := be_split 8 x.
(** BigEndian.Uint32/Uint64 read the first bytes and panic on a short buffer. *)
Definition be_read (n : nat) (bs : bytes) : res Z :=
  if decide (n <= length bs)%nat then Ok (be_combine (take n bs))
  else Panic "index out of range".
Definition Uint32 (bs : bytes) : res Z := be_read 4 bs.
Definition Uint64 (bs : bytes) : res Z := be_read 8 bs.

Lemma PutUvarint_aux_nonempty k x : PutUvarint_aux (S k) x ≠ [].
Proof. simpl. by case_match. Qed.

Lemma PutUvarint_aux_bytes k x : 0 <= x → Forall is_u8 (PutUvarint_aux k x).
Proof.
  revert x. induction k as [|k IH]; intros x Hx; simpl; [constructor|].
  destruct (Z.leb_spec 128 x).
  - constructor; [u32_lia|]. apply IH. by apply Z.div_pos.
  - repeat constructor; lia.
Qed.

Lemma PutUvarint_aux_len k n x :
  (n <= k)%nat → (0 < n)%nat → 0 <= x < 2 ^ (7 * Z.of_nat n) →
  (length (PutUvarint_aux k x) <= n)%nat.
Proof.
  revert n x. induction k as [|k IH]; intros n x Hn H0 Hx; [simpl; lia|].
  simpl. destruct (Z.leb_spec 128 x); simpl; [|lia].
  destruct n as [|[|n]]; [lia|simpl in Hx; lia|].
  enough (length (PutUvarint_aux k (x / 128)) <= S n)%nat by lia.
  apply IH; [lia|lia|]. split; [apply Z.div_pos; lia|].
  apply Z.div_lt_upper_bound; [lia|].
  replace (7 * Z.of_nat (S (S n))) with (7 + 7 * Z.of_nat (S n)) in Hx by lia.
  rewrite Z.pow_add_r in Hx by lia. lia.
Qed.

(** A uint32 takes at most five bytes, so the 8-byte buffers of the source are
    large enough. *)
Lemma PutUvarint_u32_len x : is_u32 x → (1 <= length (PutUvarint x) <= 5)%nat.
Proof.
  intros Hx. split.
  - unfold PutUvarint. pose proof (PutUvarint_aux_nonempty 9 x).
    destruct (PutUvarint_aux 10 x); simpl; [done|lia].
  - unfold PutUvarint. apply PutUvarint_aux_len; [lia|lia|].
    change (2 ^ (7 * Z.of_nat 5)) with 34359738368. u32_unfold. lia.
Qed.

Lemma Uvarint_aux_Put k i acc x rest :
  0 <= i → i + Z.of_nat k = 10 → (0 < k)%nat → 0 <= x < 2 ^ (64 - 7 * i) →
  Uvarint_aux i acc (PutUvarint_aux k x ++ rest)
  = (acc + x * 2 ^ (7 * i), i + lenZ (PutUvarint_aux k x)).
Proof.
  revert i acc x. induction k as [|k IH]; intros i acc x Hi Hk H0 Hx; [lia|].
  simpl. destruct (Z.leb_spec 128 x) as [Hge|Hlt]; simpl.
  - destruct (Z.ltb_spec (x mod 128 + 128) 128); [Z.div_mod_to_equations; lia|].
    destruct k as [|k].
    { replace i with 9 in * by lia. change (2 ^ (64 - 7 * 9)) with 2 in Hx. lia. }
    rewrite IH; [|lia|lia|lia|].
    + rewrite lenZ_cons. f_equal; [|lia].
      replace (7 * (i + 1)) with (7 * i + 7) by lia.
      rewrite Z.pow_add_r by lia.
      replace ((x mod 128 + 128) mod 128) with (x mod 128)
        by (Z.div_mod_to_equations; lia).
      pose proof (Z.div_mod x 128 ltac:(lia)). change (2 ^ 7) with 128. nia.
    + split; [apply Z.div_pos; lia|]. apply Z.div_lt_upper_bound; [lia|].
      replace (64 - 7 * i) with (7 + (64 - 7 * (i + 1))) in Hx by lia.
      rewrite Z.pow_add_r in Hx by lia. change (2 ^ 7) with 128 in Hx. lia.
  - destruct (Z.ltb_spec x 128); [|lia].
    destruct (Z.ltb_spec 9 i); [lia|].
    destruct (Z.eqb_spec i 9) as [->|]; simpl.
    + change (2 ^ (64 - 7 * 9)) with 2 in Hx.
      destruct (Z.ltb_spec 1 x); [lia|]. rewrite lenZ_cons, lenZ_nil. f_equal; lia.
    + rewrite lenZ_cons, lenZ_nil. f_equal; lia.
Qed.

(** Reading back a varint that was written, whatever follows it. *)
Lemma Uvarint_Put x rest :
  is_u64 x → Uvarint (PutUvarint x ++ rest) = (x, lenZ (PutUvarint x)).
Proof.
  intros Hx. unfold Uvarint, PutUvarint. rewrite Uvarint_aux_Put; [f_equal; lia|lia|lia|lia|].
  change (2 ^ (64 - 7 * 0)) with two64. done.
Qed.

(** A positive width never exceeds the buffer. *)
Lemma Uvarint_aux_width i x buf : 0 <= i → snd (Uvarint_aux i x buf) <= i + lenZ buf.
Proof.
  revert i x. induction buf as [|b t IH]; intros i x Hi; simpl; [unfold lenZ; simpl; lia|].
  rewrite lenZ_cons. pose proof (lenZ_nonneg t).
  destruct (b <? 128); [case_match; simpl; lia|].
  specialize (IH (i + 1) (x + b mod 128 * 2 ^ (7 * i)) ltac:(lia)). lia.
Qed.

Lemma length_be_split n x : length (be_split n x) = n.
Proof.
  revert x. induction n as [|n IH]; intros x; simpl; [done|].
  rewrite length_app, IH. simpl. lia.
Qed.

Lemma be_split_bytes n x : Forall is_u8 (be_split n x).
Proof.
  revert x. induction n as [|n IH]; intros x; simpl; [constructor|].
  apply Forall_app_2; [apply IH|]. repeat constructor; u32_lia.
Qed.

Lemma be_combine_split n x : be_combine (be_split n x) = x mod 2 ^ (8 * Z.of_nat n).
Proof.
  revert x. induction n as [|n IH]; intros x.
  { simpl. unfold be_combine. simpl. by rewrite Z.mod_1_r. }
  cbn [be_split]. unfold be_combine in *. rewrite foldl_app. simpl. rewrite IH.
  replace (8 * Z.of_nat (S n)) with (8 + 8 * Z.of_nat n) by lia.
  rewrite Z.pow_add_r by lia. change (2 ^ 8) with 256.
  rewrite (Z.rem_mul_r x 256) by lia. lia.
Qed.

Lemma be_read_split n x rest :
  0 <= x < 2 ^ (8 * Z.of_nat n) → be_read n (be_split n x ++ rest) = Ok x.
Proof.
  intros Hx. unfold be_read. rewrite decide_True.
  - rewrite take_app_length' by (by rewrite length_be_split).
    rewrite be_combine_split, Z.mod_small by done. done.
  - rewrite length_app, length_be_split. lia.
Qed.

Lemma Uint32_Put x rest : is_u32 x → Uint32 (PutUint32 x ++ rest) = Ok x.
Proof. intros. apply (be_read_split 4). exact H. Qed.
Lemma Uint64_Put x rest : is_u64 x → Uint64 (PutUint64 x ++ rest) = Ok x.
Proof. intros. apply (be_read_split 8). exact H. Qed.

End binary.

(** ** bytes and strings *)

(** bytes.HasPrefix / strings.HasPrefix. *)
Fixpoint HasPrefix (s pref : bytes) : bool :=
  match pref, s with
  | [], _ => true
  | p :: pref, c :: s => (c =? p) && HasPrefix s pref
  | _ :: _, [] => false
  end.

(** bytes.Index: the first position of [sep], or -1. *)
Fixpoint Index (s sep : bytes) : Z :=
  if HasPrefix s sep then 0
  else match s with
       | [] => -1
       | _ :: t => let i := Index t sep in if i =? -1 then -1 else i + 1
       end.
Definition Contains (s sep : bytes) : bool := negb (Index s sep =? -1).
(** bytes.IndexByte. *)
Definition IndexByte (s : bytes) (c : Z) : Z := Index s [c].

Lemma HasPrefix_spec s pref : HasPrefix s pref = true ↔ ∃ t, s = pref ++ t.
Proof.
  revert s. induction pref as [|p pref IH]; intros s.
  - destruct s; simpl; split; eauto.
  - destruct s as [|c s]; simpl; [split; [done|by intros [t ?]]|].
    rewrite andb_true_iff, Z.eqb_eq, IH. split.
    + intros [-> [t ->]]. by exists t.
    + intros [t [= -> ->]]. eauto.
Qed.

Lemma Index_bounds s sep : -1 <= Index s sep <= lenZ s.
Proof.
  induction s as [|c s IH]; cbn [Index]; [unfold lenZ; simpl; case_match; lia|].
  rewrite lenZ_cons. pose proof (lenZ_nonneg s). repeat case_match; lia.
Qed.

(** Where [Index] succeeds, the string splits around the separator, and no
    earlier position holds it. *)
Lemma Index_Some s sep i :
  Index s sep = i → 0 <= i →
  ∃ t, drop (Z.to_nat i) s = sep ++ t ∧
       ∀ k, (k < Z.to_nat i)%nat → HasPrefix (drop k s) sep = false.
Proof.
  revert i. induction s as [|c s IH]; intros i; cbn [Index].
  - destruct (HasPrefix [] sep) eqn:E; intros <- Hi; [|lia].
    apply HasPrefix_spec in E as [t Ht]. exists t. split; [done|]. intros; lia.
  - destruct (HasPrefix (c :: s) sep) eqn:E.
    + intros <- _. apply HasPrefix_spec in E as [t Ht]. exists t. split; [done|]. intros; lia.
    + destruct (Z.eqb_spec (Index s sep) (-1)); intros <- Hi; [lia|].
      pose proof (Index_bounds s sep).
      destruct (IH (Index s sep) eq_refl ltac:(lia)) as (t & Ht & Hk).
      exists t. replace (Z.to_nat (Index s sep + 1)) with (S (Z.to_nat (Index s sep))) by lia.
      split; [done|]. intros [|k] ?; [done|]. apply Hk. lia.
Qed.

Lemma Index_None s sep :
  Index s sep = -1 ↔ ∀ k, (k <= length s)%nat → HasPrefix (drop k s) sep = false.
Proof.
  induction s as [|c s IH]; cbn [Index].
  - destruct (HasPrefix [] sep) eqn:E; split; try done.
    + intros H. specialize (H 0%nat ltac:(simpl; lia)). by rewrite drop_0, E in H.
    + intros _ k ?. by rewrite drop_nil.
  - destruct (HasPrefix (c :: s) sep) eqn:E.
    { split; [done|]. intros H. specialize (H 0%nat ltac:(simpl; lia)). by rewrite drop_0, E in H. }
    pose proof (Index_bounds s sep).
    destruct (Z.eqb_spec (Index s sep) (-1)) as [Hi|Hi].
    + split; [|done]. intros _ [|k] Hk; [done|]. apply IH; [done|]. simpl in Hk. lia.
    + split; [lia|]. intros H'. destruct Hi. apply IH. intros k Hk.
      apply (H' (S k)). simpl. lia.
Qed.

(** ** package sort *)

(** sort.Search: binary search over [[0, n)] for the first index where [f]
    holds. [n] halvings are more than enough. *)
Fixpoint Search_loop (fuel : nat) (f : Z → bool) (i j : Z) : Z :=
  match fuel with
  | O => i
  | S k =>
    if i <? j then
      let h := (i + j) / 2 in
      if f h then Search_loop k f i h else Search_loop k f (h + 1) j
    else i
  end.
Definition Search (n : Z) (f : Z → bool) : Z := Search_loop (Z.to_nat n) f 0 n.

Lemma Search_loop_spec fuel f i j :
  0 <= i <= j → j - i <= Z.of_nat fuel →
  (∀ a b, i <= a <= b → b < j → f a = true → f b = true) →
  let r := Search_loop fuel f i j in
  i <= r <= j ∧ (∀ a, i <= a < r → f a = false) ∧ (∀ a, r <= a < j → f a = true).
Proof.
  revert i j. induction fuel as [|k IH]; intros i j Hij Hf Hm; cbn [Search_loop].
  { split_and!; intros; lia. }
  destruct (Z.ltb_spec i j); [|split_and!; intros; lia].
  assert (i <= (i + j) / 2 < j) as [Hh1 Hh2] by (Z.div_mod_to_equations; lia).
  destruct (f ((i + j) / 2)) eqn:E.
  - destruct (IH i ((i + j) / 2)) as (? & H1 & H2); [lia|lia|intros; eapply Hm; eauto; lia|].
    split_and!; [lia|lia|done|]. intros a Ha.
    destruct (decide (a < (i + j) / 2)); [apply H2; lia|]. apply (Hm ((i + j) / 2)); [lia|lia|done].
  - destruct (IH ((i + j) / 2 + 1) j) as (? & H1 & H2); [lia|lia|intros; eapply Hm; eauto; lia|].
    split_and!; [lia|lia| |done]. intros a Ha.
    destruct (decide (a <= (i + j) / 2)); [|apply H1; lia].
    destruct (f a) eqn:Ea; [|done].
    rewrite (Hm a ((i + j) / 2)) in E; [done|lia|lia|done].
Qed.

(** On a monotone predicate sort.Search returns the boundary. *)
Lemma Search_spec n f :
  0 <= n →
  (∀ a b, 0 <= a <= b → b < n → f a = true → f b = true) →
  let r := Search n f in
  0 <= r <= n ∧ (∀ a, 0 <= a < r → f a = false) ∧ (∀ a, r <= a < n → f a = true).
Proof. intros. apply Search_loop_spec; [lia|lia|done]. Qed.

(** Searching a slice for the first element with a property that, once true,
    stays true splits it in two. *)
Lemma Search_split {A} (P : A → bool) (l : list A) (d : A) :
  StronglySorted (λ a b, P a = true → P b = true) l →
  ∃ l1 l2, l = l1 ++ l2 ∧ Search (lenZ l) (λ n, P (nth (Z.to_nat n) l d)) = lenZ l1 ∧
    Forall (λ a, P a = false) l1 ∧ Forall (λ a, P a = true) l2.
Proof.
  intros Hs.
  assert (Hmono : ∀ i j, (i <= j < length l)%nat → P (nth i l d) = true → P (nth j l d) = true).
  { induction Hs as [|x l Hs IH Hx]; intros i j Hij Hi; simpl in *; [lia|].
    rewrite Forall_forall in Hx. destruct i as [|i], j as [|j]; [done| |lia|apply (IH i j); [lia|done]].
    apply Hx; [|done]. apply list_elem_of_In, nth_In. lia. }
  destruct (Search_spec (lenZ l) (λ n, P (nth (Z.to_nat n) l d))) as (Hr & Hlo & Hhi).
  { unfold lenZ. lia. }
  { intros a b Hab Hb. apply Hmono. unfold lenZ in Hb. lia. }
  set (r := Search _ _) in *. unfold lenZ in *.
  exists (take (Z.to_nat r) l), (drop (Z.to_nat r) l).
  split_and!; [by rewrite take_drop|rewrite length_take; lia| |]; apply Forall_lookup; intros i x Hi.
  - apply lookup_take_Some in Hi as [Hi Hlt]. specialize (Hlo (Z.of_nat i) ltac:(lia)).
    rewrite Nat2Z.id in Hlo. by rewrite (nth_lookup_Some _ _ _ _ Hi) in Hlo.
  - rewrite lookup_drop in Hi. pose proof (lookup_lt_Some _ _ _ Hi).
    specialize (Hhi (Z.of_nat (Z.to_nat r + i)) ltac:(lia)).
    rewrite Nat2Z.id in Hhi. by rewrite (nth_lookup_Some _ _ _ _ Hi) in Hhi.
Qed.

(** Without monotonicity the result is still a position of the slice. *)
Lemma Search_loop_range fuel f i j : i <= j → i <= Search_loop fuel f i j <= j.
Proof.
  revert i j. induction fuel as [|k IH]; intros i j Hij; cbn [Search_loop]; [lia|].
  destruct (Z.ltb_spec i j); [|lia].
  assert (i <= (i + j) / 2 < j) by (Z.div_mod_to_equations; lia).
  case_match; [specialize (IH i ((i + j) / 2))|specialize (IH ((i + j) / 2 + 1) j)]; lia.
Qed.
Lemma Search_range n f : 0 <= n → 0 <= Search n f <= n.
Proof. apply Search_loop_range. Qed.

(** What callers of sort.Sort and sort.Slice rely on: the result is a
    permutation in which no element is less than an earlier one. The source's
    orderings are strict weak orders; Go's algorithm is not stable, so clients
    are proved against this interface only. *)
Definition weak_order {A} (less : A → A → bool) : Prop :=
  (∀ x, less x x = false) ∧
  (∀ x y z, less y x = false → less z y = false → less z x = false) ∧
  (∀ x y, less x y = true → less y x = false).

Class SortAlg := {
  go_sort : ∀ {A : Type} (less : A → A → bool), list A → list A;
  go_sort_perm : ∀ {A : Type} (less : A → A → bool) l, go_sort less l ≡ₚ l;
  go_sort_sorted : ∀ {A : Type} (less : A → A → bool) l,
    weak_order less → Sorted (λ x y, less y x = false) (go_sort less l) }.

(** Merge sort is one such algorithm; witnesses compute with it. *)
Definition not_less {A} (less : A → A → bool) (x y : A) : Prop := less y x = false.
#[global] Instance not_less_dec {A} (less : A → A → bool) : RelDecision (not_less less).
Proof. intros x y. unfold not_less. destruct (less y x); [right|left]; done. Defined.
Definition merge_sort_less {A} (less : A → A → bool) (l : list A) : list A :=
  merge_sort (not_less less) l.

Lemma merge_sort_less_perm {A} (less : A → A → bool) l : merge_sort_less less l ≡ₚ l.
Proof. unfold merge_sort_less. apply merge_sort_Permutation. Qed.

Lemma merge_sort_less_sorted {A} (less : A → A → bool) l :
  weak_order less → Sorted (not_less less) (merge_sort_less less l).
Proof.
  intros (_ & _ & Hasym). unfold merge_sort_less. apply Sorted_merge_sort.
  intros x y. unfold not_less. destruct (less y x) eqn:E; [right; eauto|by left].
Qed.

Definition merge_sort_alg : SortAlg := {|
  go_sort := @merge_sort_less;
  go_sort_perm := @merge_sort_less_perm;
  go_sort_sorted := @merge_sort_less_sorted |}.

Lemma go_sort_strongly `{SortAlg} {A} (less : A → A → bool) l :
  weak_order less → StronglySorted (not_less less) (go_sort less l).
Proof.
  intros Hw. apply Sorted_StronglySorted.
  - intros x y z. destruct Hw as (_ & Ht & _). unfold not_less. eauto.
  - by apply go_sort_sorted.
Qed.

(** Ordering by an integer key is a strict weak order. *)
Lemma weak_order_key {A} (key : A → Z) : weak_order (λ x y, key x <? key y).
Proof.
  unfold weak_order. split_and!; intros; rewrite ?Z.ltb_ge, ?Z.ltb_lt in *; lia.
Qed.
#[export] Hint Resolve @weak_order_key : go.

(** The order of Go strings, byte by byte. *)
Fixpoint string_less (a b : bytes) : bool :=
  match a, b with
  | _, [] => false
  | [], _ :: _ => true
  | x :: a, y :: b => (x <? y) || ((x =? y) && string_less a b)
  end.

Lemma string_less_weak : weak_order string_less.
Proof.
  split_and!.
  - intros x. induction x as [|c x IH]; simpl; [done|]. rewrite IH.
    rewrite Z.ltb_irrefl, andb_false_r. done.
  - intros x y. revert x. induction y as [|b y IH]; intros [|a x] [|c z]; simpl; try done.
    rewrite !orb_false_iff, !andb_false_iff, !Z.ltb_ge, !Z.eqb_neq. intros [H1 H2] [H3 H4].
    split; [lia|]. destruct (decide (c = a)) as [->|]; [right|by left]. assert (b = a) as -> by lia.
    apply IH; [by destruct H2|by destruct H4].
  - intros x. induction x as [|a x IH]; intros [|b y]; simpl; try done.
    rewrite orb_true_iff, andb_true_iff, orb_false_iff, andb_false_iff, Z.ltb_lt, Z.eqb_eq, Z.ltb_ge, Z.eqb_neq.
    intros [?|[-> Hl]]; [split; [lia|left; lia]|]. split; [lia|]. right. by apply IH.
Qed.
#[export] Hint Resolve string_less_weak : go.

(** ** hash/crc64, polynomial ISO *)

Module crc64.
Definition ISO : Z := 15564440312192434176.
Definition shift1 (crc : Z) : Z :=
  if Z.odd crc then Z.lxor (Z.shiftr crc 1) ISO else Z.shiftr crc 1.
(** Entry [i] of the table. *)
Definition table (i : Z) : Z := Nat.iter 8 shift1 i.
Definition update (crc : Z) (p : bytes) : Z :=
  Z.lxor (foldl (λ crc v, Z.lxor (table (Z.lxor (u8 crc) v)) (Z.shiftr crc 8)) (Z.lxor crc (two64 - 1)) p)
    (two64 - 1).
(** hasher.Sum(nil) of a fresh hasher that was given [p]. *)
Definition Sum (p : bytes) : bytes := binary.PutUint64 (update 0 p).

Lemma length_Sum p : length (Sum p) = 8%nat.
Proof. apply binary.length_be_split. Qed.
End crc64.

(** ** package unicode *)

(** unicode.ToLower and unicode.SimpleFold. SimpleFold cycles through the runes
    that are equivalent under simple case folding; no class has more than four
    members. *)
Class UnicodeCase := {
  ToLower : Z → Z;
  SimpleFold : Z → Z;
  ToLower_range : ∀ r, 0 <= r < 2097152 → 0 <= ToLower r < 2097152;
  SimpleFold_range : ∀ r, 0 <= r < 2097152 → 0 <= SimpleFold r < 2097152;
  SimpleFold_cycle : ∀ r, ∃ n, (1 <= n <= 4)%nat ∧ Nat.iter n SimpleFold r = r }.

(** The tables restricted to ASCII, the Kelvin sign and the long s: the folding
    classes of the 26 Latin letters. *)
Definition latin_lower (r : Z) : Z :=
  if (65 <=? r) && (r <=? 90) then r + 32 else if r =? 8490 then 107 else r.
Definition latin_fold (r : Z) : Z :=
  if r =? 107 then 8490 else if r =? 8490 then 75
  else if r =? 115 then 383 else if r =? 383 then 83
  else if (65 <=? r) && (r <=? 90) then r + 32
  else if (97 <=? r) && (r <=? 122) then r - 32 else r.

Lemma latin_fold_cycle r : ∃ n, (1 <= n <= 4)%nat ∧ Nat.iter n latin_fold r = r.
Proof.
  destruct (decide (r ∈ [75; 83; 107; 115; 383; 8490])) as [Hr|Hr].
  { exists 3%nat. split; [lia|].
    repeat (apply elem_of_cons in Hr as [->|Hr]; [reflexivity|]). by apply elem_of_nil in Hr. }
  exists 2%nat. split; [lia|]. rewrite !not_elem_of_cons in Hr.
  simpl. unfold latin_fold. repeat case_match; lia.
Qed.

Lemma latin_lower_range r : 0 <= r < 2097152 → 0 <= latin_lower r < 2097152.
Proof. intros Hr. unfold latin_lower. repeat case_match; lia. Qed.
Lemma latin_fold_range r : 0 <= r < 2097152 → 0 <= latin_fold r < 2097152.
Proof. intros Hr. unfold latin_fold. repeat case_match; lia. Qed.

Definition unicode_latin : UnicodeCase := {|
  ToLower := latin_lower;
  SimpleFold := latin_fold;
  ToLower_range := latin_lower_range;
  SimpleFold_range := latin_fold_range;
  SimpleFold_cycle := latin_fold_cycle |}.

(** Executable instances of the two interfaces, for evaluation. *)
Module GoConcrete.
#[export] Existing Instance merge_sort_alg.
#[export] Existing Instance unicode_latin.
End GoConcrete.
