(* ===== verification/GoText.v ===== *)
(** * Text functions of Go's standard library

    What the program uses of strings, strconv, net/url, path and path/filepath, with the
    facts about them that several components need. *)

From S2P Require Import Prelude GoStd.

(** ** strings *)

(** The pieces of [s] between the bytes that satisfy [p]. *)
Fixpoint SplitFunc (p : Z → bool) (s : bytes) : list bytes :=
  match s with
  | [] => [[]]
  | c :: s =>
    if p c then [] :: SplitFunc p s
    else match SplitFunc p s with f :: fs => (c :: f) :: fs | [] => [[c]] end
  end.
(** strings.Split(s, sep) for a separator of one byte. *)
Definition SplitByte (sep : Z) : bytes → list bytes := SplitFunc (λ c, c =? sep).

(** strings.Join *)
Fixpoint Join (sep : bytes) (l : list bytes) : bytes :=
  match l with
  | [] => []
  | [a] => a
  | a :: l => a ++ sep ++ Join sep l
  end.

Definition TrimPrefix (s pref : bytes) : bytes := if HasPrefix s pref then drop (length pref) s else s.
Definition HasSuffix (s suf : bytes) : bool := HasPrefix (reverse s) (reverse suf).
Definition TrimSuffix (s suf : bytes) : bytes := if HasSuffix s suf then take (length s - length suf) s else s.
(** strings.ToLower, on ASCII letters. *)
Definition ToLower (s : bytes) : bytes := (λ c, if (65 <=? c) && (c <=? 90) then c + 32 else c) <$> s.

(** The part before the first byte [c], and the part after it. *)
Fixpoint CutByte (c : Z) (s : bytes) : bytes * option bytes :=
  match s with
  | [] => ([], None)
  | x :: s => if x =? c then ([], Some s) else let '(a, b) := CutByte c s in (x :: a, b)
  end.

(** strings.TrimRight of one byte, and path.Base. *)
Fixpoint dropByte (c : Z) (s : bytes) : bytes := match s with x :: s' => if x =? c then dropByte c s' else s | [] => [] end.
Definition PathBase (p : bytes) : bytes :=
  if bool_decide (p = []) then [46]
  else let b := reverse (fst (CutByte 47 (dropByte 47 (reverse p)))) in if bool_decide (b = []) then [47] else b.

(** strings.TrimSpace, of ASCII white space. *)
Definition isSpaceByte (c : Z) : bool := (c =? 32) || (9 <=? c) && (c <=? 13).
Fixpoint dropSpace (s : bytes) : bytes := match s with c :: s' => if isSpaceByte c then dropSpace s' else s | [] => [] end.
Definition TrimSpace (s : bytes) : bytes := reverse (dropSpace (reverse (dropSpace s))).

(** ** strconv *)

Fixpoint digits (acc : Z) (s : bytes) : option Z :=
  match s with
  | [] => Some acc
  | c :: s => if (48 <=? c) && (c <=? 57) then digits (acc * 10 + (c - 48)) s else None
  end.
(** strconv.ParseInt(s, 10, 64), and strconv.Atoi where an int has 64 bits. *)
Definition ParseInt (s : bytes) : res Z :=
  let '(neg, ds) := match s with 43 :: ds => (false, ds) | 45 :: ds => (true, ds) | _ => (false, s) end in
  match ds with
  | [] => Err "invalid syntax"
  | _ =>
    match digits 0 ds with
    | None => Err "invalid syntax"
    | Some un =>
      if (negb neg && (2 ^ 63 <=? un)) || (neg && (2 ^ 63 <? un)) then Err "value out of range"
      else Ok (if (neg : bool) then - un else un)
    end
  end.

(** %d for a number that is not negative. *)
Fixpoint decimal_loop (fuel : nat) (n : Z) : bytes :=
  match fuel with
  | O => []
  | S fuel => if n <? 10 then [48 + n] else decimal_loop fuel (n / 10) ++ [48 + n mod 10]
  end.
Definition decimal (n : Z) : bytes := decimal_loop (S (Z.to_nat (Z.log2 n))) n.
(** %05d *)
Definition decimal5 (n : Z) : bytes := replicate (5 - length (decimal n)) 48 ++ decimal n.
(** strconv.Itoa *)
Definition Itoa (n : Z) : bytes := if n <? 0 then 45 :: decimal (- n) else decimal n.

(** ** net/url *)

Definition hexDigit (x : Z) : Z := if x <? 10 then 48 + x else 55 + x.
Definition unreserved (c : Z) : bool :=
  ((97 <=? c) && (c <=? 122)) || ((65 <=? c) && (c <=? 90)) || ((48 <=? c) && (c <=? 57))
  || (c =? 45) || (c =? 95) || (c =? 46) || (c =? 126).
Definition escapeByte (c : Z) : bytes :=
  if unreserved c then [c] else if c =? 32 then [43] else [37; hexDigit (c / 16); hexDigit (c mod 16)].
Definition QueryEscape (s : bytes) : bytes := mjoin (escapeByte <$> s).

Definition unhex (c : Z) : option Z :=
  if (48 <=? c) && (c <=? 57) then Some (c - 48)
  else if (97 <=? c) && (c <=? 102) then Some (c - 87)
  else if (65 <=? c) && (c <=? 70) then Some (c - 55) else None.
(** None for an error. *)
Fixpoint QueryUnescape (s : bytes) : option bytes :=
  match s with
  | [] => Some []
  | 37 :: a :: b :: s => x ← unhex a; y ← unhex b; (λ t, x * 16 + y :: t) <$> QueryUnescape s
  | 37 :: _ => None
  | c :: s => cons (if c =? 43 then 32 else c) <$> QueryUnescape s
  end.

(** url.Values: all values of each key, in order. *)
Abbreviation Values := (gmap bytes (list bytes)).
Definition Values_Add (k x : bytes) (v : Values) : Values := <[k := default [] (v !! k) ++ [x]]> v.
Definition Values_Get (v : Values) (k : bytes) : bytes := default [] (head (default [] (v !! k))).

Definition encodePair (kx : bytes * bytes) : bytes := QueryEscape (fst kx) ++ 61 :: QueryEscape (snd kx).
Definition Encode `{SortAlg} (v : Values) : bytes :=
  Join [38] (mjoin ((λ k, (λ x, encodePair (k, x)) <$> default [] (v !! k)) <$> go_sort string_less (fst <$> map_to_list v))).

(** A field of the query; one that cannot be unescaped is skipped. *)
Definition parsePair (v : Values) (s : bytes) : Values :=
  match s with
  | [] => v
  | _ =>
    let '(key, x) := CutByte 61 s in
    match QueryUnescape key, QueryUnescape (default [] x) with
    | Some key, Some x => Values_Add key x v
    | _, _ => v
    end
  end.
(** URL.Query: ParseQuery without its error. *)
Definition ParseQuery (s : bytes) : Values := foldl parsePair ∅ (SplitFunc (λ c, (c =? 38) || (c =? 59)) s).

(** ** path and path/filepath *)

(** One component of a path: the stack of the components before it, last first. *)
Definition cleanStep (rooted : bool) (st : list bytes) (c : bytes) : list bytes :=
  if bool_decide (c = [] ∨ c = [46]) then st
  else if bool_decide (c = [46; 46]) then
    match st with
    | [] => if rooted then [] else [c]
    | d :: st' => if bool_decide (d = [46; 46]) then c :: st else st'
    end
  else c :: st.
Definition Clean (p : bytes) : bytes :=
  match p with
  | [] => [46]
  | c :: _ =>
    let rooted := c =? 47 in
    let st := foldl (cleanStep rooted) [] (SplitByte 47 p) in
    let out := Join [47] (reverse st) in
    if rooted then 47 :: out else match out with [] => [46] | _ => out end
  end.
(** path.Join and, on Unix, filepath.Join. *)
Definition PathJoin (l : list bytes) : bytes :=
  match filter (λ e, e ≠ []) l with
  | [] => []
  | l => Clean (Join [47] l)
  end.

(** ** Facts *)

Lemma SplitFunc_none p a : (∀ c, c ∈ a → p c = false) → SplitFunc p a = [a].
Proof.
  induction a as [|c a IH]; intros Ha; [done|]. simpl. rewrite IH by (intros; apply Ha; by constructor).
  by rewrite Ha by constructor.
Qed.
Lemma SplitFunc_app p a c b : (∀ c, c ∈ a → p c = false) → p c = true → SplitFunc p (a ++ c :: b) = a :: SplitFunc p b.
Proof.
  intros Ha Hc. induction a as [|x a IH]; simpl; [by rewrite Hc|].
  rewrite Ha by constructor. rewrite IH; [done|]. intros; apply Ha; by constructor.
Qed.
Lemma SplitByte_none sep a : sep ∉ a → SplitByte sep a = [a].
Proof. intros Ha. apply SplitFunc_none. intros c Hc. apply Z.eqb_neq. by intros ->. Qed.
Lemma SplitByte_app sep a b : sep ∉ a → SplitByte sep (a ++ sep :: b) = a :: SplitByte sep b.
Proof. intros Ha. apply SplitFunc_app; [|apply Z.eqb_refl]. intros c Hc. apply Z.eqb_neq. by intros ->. Qed.

Lemma SplitFunc_nonempty p s : SplitFunc p s ≠ [].
Proof. destruct s as [|c s]; [done|]. simpl. destruct (p c); [done|]. by destruct (SplitFunc p s). Qed.
Lemma Join_cons sep a l : l ≠ [] → Join sep (a :: l) = a ++ sep ++ Join sep l.
Proof. by destruct l. Qed.
(** Joining undoes splitting, and the other way round for pieces without the separator. *)
Lemma Join_Split sep s : Join [sep] (SplitByte sep s) = s.
Proof.
  unfold SplitByte. induction s as [|c s IH]; [done|]. simpl. pose proof (SplitFunc_nonempty (λ c, c =? sep) s).
  destruct (Z.eqb_spec c sep) as [->|Hc].
  - rewrite Join_cons by done. by rewrite IH.
  - destruct (SplitFunc _ s) as [|f [|g fs]] eqn:E; [done|by rewrite <- IH|]. rewrite <- IH. done.
Qed.
Lemma SplitFunc_Join p sep l : l ≠ [] → p sep = true → Forall (λ a, ∀ c, c ∈ a → p c = false) l → SplitFunc p (Join [sep] l) = l.
Proof.
  intros Hl Hs H. induction H as [|a l Ha Hall IH]; [done|]. destruct l as [|b l]; [by apply SplitFunc_none|].
  rewrite Join_cons by done. simpl app. rewrite SplitFunc_app by done. f_equal. by apply IH.
Qed.

Lemma CutByte_none c s : c ∉ s → CutByte c s = (s, None).
Proof.
  induction s as [|x s IH]; [done|]. intros [Hx Hs]%not_elem_of_cons. simpl. rewrite IH by done.
  by replace (x =? c) with false by (symmetry; apply Z.eqb_neq; done).
Qed.
Lemma CutByte_app c a b : c ∉ a → CutByte c (a ++ c :: b) = (a, Some b).
Proof.
  induction a as [|x a IH]; simpl; [by rewrite Z.eqb_refl|]. intros [Hx Ha]%not_elem_of_cons. rewrite IH by done.
  by replace (x =? c) with false by (symmetry; apply Z.eqb_neq; done).
Qed.

Lemma digits_app acc a b : digits acc (a ++ b) = digits acc a ≫= λ x, digits x b.
Proof. revert acc. induction a as [|c a IH]; intros acc; [done|]. simpl. destruct (_ && _); [apply IH|done]. Qed.
Lemma digits_zeros k s : digits 0 (replicate k 48 ++ s) = digits 0 s.
Proof. by induction k. Qed.
Lemma decimal_digits n : 0 <= n → digits 0 (decimal n) = Some n.
Proof.
  intros Hn. unfold decimal.
  assert (∀ fuel n, 0 <= n → n < 2 ^ Z.of_nat fuel → digits 0 (decimal_loop fuel n) = Some n) as Hd.
  { induction fuel as [|fuel IH]; intros m Hm Hf; [change (2 ^ Z.of_nat 0) with 1 in Hf; simpl; f_equal; lia|].
    cbn [decimal_loop]. destruct (Z.ltb_spec m 10).
    - simpl. replace ((48 <=? 48 + m) && (48 + m <=? 57)) with true by lia. f_equal. lia.
    - pose proof (Z.div_mod m 10 ltac:(lia)). pose proof (Z.mod_pos_bound m 10 ltac:(lia)).
      rewrite digits_app, IH.
      + simpl. replace ((48 <=? 48 + m mod 10) && (48 + m mod 10 <=? 57)) with true by lia. f_equal. lia.
      + lia.
      + rewrite Nat2Z.inj_succ, Z.pow_succ_r in Hf by lia. lia. }
  apply Hd; [done|]. rewrite Nat2Z.inj_succ, Z2Nat.id by apply Z.log2_nonneg.
  destruct (decide (n = 0)) as [->|]; [done|]. by apply Z.log2_spec; lia.
Qed.
Lemma decimal5_inj n m : 0 <= n → 0 <= m → decimal5 n = decimal5 m → n = m.
Proof.
  intros Hn Hm E. apply (f_equal (digits 0)) in E. unfold decimal5 in E. rewrite !digits_zeros, !decimal_digits in E by done. by simplify_eq.
Qed.
Lemma decimal_last n : ∃ a d, decimal n = a ++ [d] ∧ (0 <= n → 48 <= d <= 57).
Proof.
  unfold decimal. cbn [decimal_loop]. destruct (Z.ltb_spec n 10).
  - exists [], (48 + n). split; [done|]. lia.
  - eexists _, _. split; [done|]. pose proof (Z.mod_pos_bound n 10 ltac:(lia)). lia.
Qed.

(** *** Queries of URLs *)

Lemma hexDigit_range x : 0 <= x < 16 → 48 <= hexDigit x <= 57 ∨ 65 <= hexDigit x <= 70.
Proof. intros. unfold hexDigit. destruct (Z.ltb_spec x 10); lia. Qed.
Lemma unhex_hexDigit x : 0 <= x < 16 → unhex (hexDigit x) = Some x.
Proof.
  intros. unfold unhex, hexDigit. destruct (Z.ltb_spec x 10).
  - replace ((48 <=? 48 + x) && (48 + x <=? 57)) with true by lia. f_equal. lia.
  - replace ((48 <=? 55 + x) && (55 + x <=? 57)) with false by lia.
    replace ((97 <=? 55 + x) && (55 + x <=? 102)) with false by lia.
    replace ((65 <=? 55 + x) && (55 + x <=? 70)) with true by lia. f_equal. lia.
Qed.

(** An escaped byte is a letter, a digit or one of - _ . ~ + %. *)
Definition queryByte (c : Z) : bool := unreserved c || (c =? 43) || (c =? 37).
Lemma escapeByte_safe c d : is_u8 c → d ∈ escapeByte c → queryByte d = true.
Proof.
  intros Hc. unfold escapeByte, queryByte. destruct (unreserved c) eqn:E.
  - intros ->%list_elem_of_singleton. by rewrite E.
  - destruct (c =? 32); [by intros ->%list_elem_of_singleton|].
    assert (∀ x, 0 <= x < 16 → unreserved (hexDigit x) = true) as Hx.
    { intros x Hx. unfold unreserved. pose proof (hexDigit_range x Hx). lia. }
    unfold is_u8 in Hc. intros [->|[->|[->|H]%elem_of_cons]%elem_of_cons]%elem_of_cons; [done| | |by apply not_elem_of_nil in H].
    + rewrite Hx; [done|]. Z.div_mod_to_equations. lia.
    + rewrite Hx; [done|]. Z.div_mod_to_equations. lia.
Qed.
Lemma QueryEscape_safe s d : Forall is_u8 s → d ∈ QueryEscape s → queryByte d = true.
Proof.
  intros Hs Hd. unfold QueryEscape in Hd. apply list_elem_of_join in Hd as (l & Hd & Hl).
  apply list_elem_of_fmap in Hl as (c & -> & Hc). rewrite Forall_forall in Hs. eapply escapeByte_safe; eauto.
Qed.

Lemma QueryUnescape_cons c s : c ≠ 37 → QueryUnescape (c :: s) = cons (if c =? 43 then 32 else c) <$> QueryUnescape s.
Proof.
  intros Hc. destruct c as [|p|p]; try done. do 6 (destruct p as [p|p|]; try done).
Qed.
Lemma QueryUnescape_escapeByte c s : is_u8 c → QueryUnescape (escapeByte c ++ s) = cons c <$> QueryUnescape s.
Proof.
  intros Hc. unfold escapeByte. destruct (unreserved c) eqn:E; [|destruct (Z.eqb_spec c 32) as [->|]].
  - simpl app. rewrite QueryUnescape_cons by (intros ->; done).
    by replace (c =? 43) with false by (symmetry; apply Z.eqb_neq; intros ->; done).
  - done.
  - unfold is_u8 in Hc. simpl. rewrite !unhex_hexDigit by (Z.div_mod_to_equations; lia). simpl.
    by replace (c / 16 * 16 + c mod 16) with c by (Z.div_mod_to_equations; lia).
Qed.
Lemma QueryUnescape_QueryEscape s : Forall is_u8 s → QueryUnescape (QueryEscape s) = Some s.
Proof.
  unfold QueryEscape. induction 1 as [|c s Hc _ IH]; [done|]. rewrite fmap_cons, mjoin_cons. by rewrite QueryUnescape_escapeByte, IH.
Qed.

Definition byteValues (v : Values) : Prop := map_Forall (λ k xs, Forall is_u8 k ∧ Forall (Forall is_u8) xs) v.
(** The pairs of a query, in the order of Encode. *)
Definition pairs `{SortAlg} (v : Values) : list (bytes * bytes) :=
  mjoin ((λ k, (λ x, (k, x)) <$> default [] (v !! k)) <$> go_sort string_less (fst <$> map_to_list v)).

Section Query.
Context `{SortAlg}.

Lemma Encode_pairs v : Encode v = Join [38] (encodePair <$> pairs v).
Proof.
  unfold Encode, pairs. f_equal. induction (go_sort _ _) as [|k ks IH]; [done|].
  rewrite !fmap_cons, !mjoin_cons, fmap_app, IH. f_equal. by rewrite <- list_fmap_compose.
Qed.

Lemma parsePair_encode v k x : Forall is_u8 k → Forall is_u8 x → parsePair v (encodePair (k, x)) = Values_Add k x v.
Proof.
  intros Hk Hx. unfold encodePair. simpl.
  assert (61 ∉ QueryEscape k) as Hn by (intros H1%QueryEscape_safe; done).
  unfold parsePair. destruct (_ ++ _) eqn:E; [by destruct (QueryEscape k)|]. rewrite <- E, CutByte_app by done. simpl.
  by rewrite !QueryUnescape_QueryEscape.
Qed.

Definition addPairs (v : Values) (l : list (bytes * bytes)) : Values := foldl (λ v kx, Values_Add (fst kx) (snd kx) v) v l.
Lemma parse_pairs l v : Forall (λ kx, Forall is_u8 (fst kx) ∧ Forall is_u8 (snd kx)) l →
  foldl parsePair v (encodePair <$> l) = addPairs v l.
Proof.
  intros Hl. revert v. induction Hl as [|[k x] l [Hk Hx] _ IH]; intros v; [done|]. simpl in *. by rewrite parsePair_encode, IH.
Qed.
Lemma addPairs_key v k xs : addPairs v ((λ x, (k, x)) <$> xs) !! k = if decide (xs = []) then v !! k else Some (default [] (v !! k) ++ xs).
Proof.
  revert v. induction xs as [|x xs IH]; intros v; [done|]. simpl. unfold addPairs in IH. rewrite IH. unfold Values_Add.
  rewrite lookup_insert_eq. case_decide as Hxs; [by subst|]. simpl. by rewrite <- app_assoc.
Qed.
Lemma addPairs_other v k l : (∀ kx, kx ∈ l → fst kx ≠ k) → addPairs v l !! k = v !! k.
Proof.
  revert v. induction l as [|[k' x] l IH]; intros v Hl; [done|]. simpl. unfold addPairs in IH.
  rewrite IH by (intros; apply Hl; by constructor). unfold Values_Add. rewrite lookup_insert_ne; [done|]. apply (Hl (k', x)). constructor.
Qed.
Lemma addPairs_app v l l' : addPairs v (l ++ l') = addPairs (addPairs v l) l'.
Proof. apply foldl_app. Qed.
Lemma addPairs_keys (v m : Values) ks k : NoDup ks → m !! k = None →
  addPairs m (mjoin ((λ k, (λ x, (k, x)) <$> default [] (v !! k)) <$> ks)) !! k =
    if decide (k ∈ ks ∧ default [] (v !! k) ≠ []) then v !! k else None.
Proof.
  intros Hnd. revert m. induction Hnd as [|k' ks Hk' _ IH]; intros m Hm.
  { rewrite decide_False by (intros [?%not_elem_of_nil _]; done). done. }
  rewrite fmap_cons, mjoin_cons, addPairs_app. destruct (decide (k = k')) as [->|Hne].
  - rewrite addPairs_other.
    2: { intros [k x] (l & Hx & (k2 & -> & Hk2)%list_elem_of_fmap)%list_elem_of_join.
         apply list_elem_of_fmap in Hx as (? & [= -> ->] & _). simpl. by intros ->. }
    rewrite addPairs_key, Hm. simpl. destruct (v !! k') as [xs|] eqn:E; simpl.
    + destruct (decide (xs = [])) as [->|Hx]; [rewrite decide_False by tauto; done|].
      rewrite decide_True by (split; [constructor|done]). done.
    + by rewrite decide_False by tauto.
  - rewrite IH.
    2: { rewrite addPairs_other; [done|]. intros [k2 x] (? & [= -> ->] & _)%list_elem_of_fmap. done. }
    apply decide_ext. rewrite elem_of_cons. tauto.
Qed.

Lemma value_keys (v : Values) k : k ∈ go_sort string_less (fst <$> map_to_list v) ↔ is_Some (v !! k).
Proof.
  rewrite go_sort_perm, list_elem_of_fmap. split.
  - intros ([k' xs] & -> & Hk%elem_of_map_to_list). by exists xs.
  - intros [xs Hk]. exists (k, xs). split; [done|]. by apply elem_of_map_to_list.
Qed.
Lemma value_keys_NoDup v : NoDup (go_sort string_less (fst <$> map_to_list (v : Values))).
Proof. rewrite go_sort_perm. apply NoDup_fst_map_to_list. Qed.
Lemma pairs_bytes v : byteValues v → Forall (λ kx, Forall is_u8 (fst kx) ∧ Forall is_u8 (snd kx)) (pairs v).
Proof.
  intros Hv. apply Forall_forall. intros [k x] (l & Hx & (k' & -> & Hk)%list_elem_of_fmap)%list_elem_of_join.
  apply list_elem_of_fmap in Hx as (x' & [= -> ->] & Hx). apply value_keys in Hk as [xs Hk]. rewrite Hk in Hx.
  destruct (Hv _ _ Hk) as [Hk1 Hxs]. rewrite Forall_forall in Hxs. simpl. auto.
Qed.

(** What is encoded in a URL is what a handler gets. *)
Lemma Encode_ParseQuery v k : byteValues v → Values_Get (ParseQuery (Encode v)) k = Values_Get v k.
Proof.
  intros Hv. unfold ParseQuery. rewrite Encode_pairs. pose proof (pairs_bytes v Hv) as Hb.
  destruct (decide (pairs v = [])) as [E|Hne].
  - rewrite E. change (foldl parsePair ∅ (SplitFunc _ (Join [38] (encodePair <$> [])))) with (∅ : Values).
    unfold Values_Get. rewrite lookup_empty. simpl. destruct (v !! k) as [[|x xs]|] eqn:Ek; [done| |done].
    exfalso. assert ((k, x) ∈ pairs v) as Hin.
    { apply list_elem_of_join. exists ((λ x, (k, x)) <$> (x :: xs)). split; [constructor|]. apply list_elem_of_fmap. exists k.
      rewrite Ek. split; [done|]. apply value_keys. by exists (x :: xs). }
    rewrite E in Hin. by apply not_elem_of_nil in Hin.
  - rewrite SplitFunc_Join.
    + rewrite parse_pairs by done. unfold Values_Get, pairs. rewrite addPairs_keys by first [apply value_keys_NoDup|apply lookup_empty].
      case_decide as Hd; [done|]. destruct (v !! k) as [[|x xs]|] eqn:Ek; [done| |done]. destruct Hd. split; [|done].
      apply value_keys. by exists (x :: xs).
    + by intros ?%fmap_nil_inv.
    + done.
    + apply Forall_fmap. eapply Forall_impl; [exact Hb|]. intros [k' x] [Hk' Hx] c. simpl in *.
      intros [Hc|[->|Hc]%elem_of_cons]%elem_of_app; [| done |].
      all: apply QueryEscape_safe in Hc; [|done]; destruct (Z.eqb_spec c 38) as [->|]; [done|];
        destruct (Z.eqb_spec c 59) as [->|]; done.
Qed.
End Query.

Lemma SplitFunc_pieces p s : Forall (λ a, ∀ c, c ∈ a → p c = false) (SplitFunc p s).
Proof.
  induction s as [|c s IH]; simpl; [by repeat constructor; intros ? ?%not_elem_of_nil|].
  destruct (p c) eqn:E; [constructor; [by intros ? ?%not_elem_of_nil|done]|].
  destruct (SplitFunc p s) as [|f fs]; [repeat constructor; by intros ? ->%list_elem_of_singleton|].
  apply Forall_cons in IH as [Hf Hfs]. constructor; [|done]. intros c' [->|Hc']%elem_of_cons; auto.
Qed.
Lemma SplitByte_pieces sep s : Forall (λ a, sep ∉ a) (SplitByte sep s).
Proof.
  eapply Forall_impl; [apply SplitFunc_pieces|]. intros a Ha Hin%Ha. by rewrite Z.eqb_refl in Hin.
Qed.

(** *** Paths *)

(** The directory part of path.Split: up to and with the last slash. *)
Definition SplitDir (p : bytes) : bytes :=
  match CutByte 47 (reverse p) with (_, Some rest) => reverse (47 :: rest) | (_, None) => [] end.

(** A component that names a file or directory. *)
Definition isName (c : bytes) : Prop := c ≠ [] ∧ c ≠ [46] ∧ c ≠ [46; 46] ∧ 47 ∉ c.
#[global] Instance isName_dec c : Decision (isName c).
Proof. unfold isName. apply _. Defined.

Lemma cleanStep_normal rooted st cs : Forall isName cs → foldl (cleanStep rooted) st cs = reverse cs ++ st.
Proof.
  intros Hcs. revert st. induction Hcs as [|c cs (H1 & H2 & H3 & _) _ IH]; intros st; [done|].
  cbn [foldl]. rewrite IH, reverse_cons, <- app_assoc. f_equal. unfold cleanStep.
  rewrite bool_decide_false by naive_solver. by rewrite bool_decide_false.
Qed.
Lemma Join_snoc sep cs c : cs ≠ [] → Join sep (cs ++ [c]) = Join sep cs ++ sep ++ c.
Proof.
  induction cs as [|a cs IH]; intros Hc; [done|]. destruct cs as [|b cs]; [done|]. simpl app in *.
  rewrite !(Join_cons sep a) by done. rewrite IH by done. by rewrite <- !app_assoc.
Qed.
Lemma Join_app sep cs ds : cs ≠ [] → ds ≠ [] → Join sep (cs ++ ds) = Join sep cs ++ sep ++ Join sep ds.
Proof.
  intros Hcs Hds. induction cs as [|c cs IH]; [done|]. destruct cs as [|c' cs]; [by destruct ds|]. simpl app in *.
  rewrite !(Join_cons _ c) by done. rewrite IH by done. by rewrite <- !app_assoc.
Qed.
Lemma Split_normal cs : cs ≠ [] → Forall isName cs → SplitByte 47 (Join [47] cs) = cs.
Proof.
  intros Hne Hcs. apply SplitFunc_Join; [done|done|]. eapply Forall_impl; [exact Hcs|]. intros c (_ & _ & _ & Hn) d Hd.
  apply Z.eqb_neq. by intros ->.
Qed.
Lemma Join_normal_head cs : cs ≠ [] → Forall isName cs → ∃ d s, Join [47] cs = d :: s ∧ d ≠ 47.
Proof.
  intros Hne Hcs. destruct Hcs as [|c cs (Hc & _ & _ & Hs) _]; [done|]. destruct c as [|d c]; [done|].
  apply not_elem_of_cons in Hs as [Hd _]. destruct cs; [by exists d, c|]. rewrite Join_cons by done. by eexists d, _.
Qed.

(** Clean of a path whose components are names and some to be skipped. *)
Lemma Clean_components p cs : SplitByte 47 p = cs → (∀ c s, p = c :: s → c ≠ 47) → p ≠ [] →
  filter isName cs ≠ [] → Forall (λ c, isName c ∨ c = [] ∨ c = [46]) cs → Clean p = Join [47] (filter isName cs).
Proof.
  intros Hs Hh Hp Hne Hcs. destruct p as [|d p]; [done|]. unfold Clean. rewrite (proj2 (Z.eqb_neq _ _)) by (by apply (Hh d p)). rewrite Hs.
  assert (∀ st, foldl (cleanStep false) st cs = reverse (filter isName cs) ++ st) as E.
  { clear -Hcs. induction Hcs as [|c cs Hc _ IH]; intros st; [done|]. cbn [foldl]. rewrite filter_cons. destruct Hc as [Hn|Hc].
    - rewrite decide_True by done. rewrite IH, reverse_cons, <- app_assoc. f_equal. apply (cleanStep_normal false st [c]). by constructor.
    - rewrite decide_False by (intros (? & ? & _); tauto). rewrite IH. unfold cleanStep. by rewrite bool_decide_true. }
  rewrite E, app_nil_r, reverse_involutive.
  destruct (Join_normal_head (filter isName cs)) as (x & s & -> & _); [done| |done]. apply Forall_forall. by intros c [? _]%list_elem_of_filter.
Qed.

Lemma filter_normal cs : Forall isName cs → filter isName cs = cs.
Proof. intros Hcs. apply filter_all. by apply Forall_forall. Qed.
Lemma Forall_normal_or cs : Forall isName cs → Forall (λ c, isName c ∨ c = [] ∨ c = [46]) cs.
Proof. intros Hcs. eapply Forall_impl; [exact Hcs|]. auto. Qed.

Lemma Clean_normal cs : cs ≠ [] → Forall isName cs → Clean (Join [47] cs) = Join [47] cs.
Proof.
  intros Hne Hcs. destruct (Join_normal_head cs Hne Hcs) as (d & s & E & Hd).
  rewrite (Clean_components _ cs); rewrite ?filter_normal by done; auto using Split_normal, Forall_normal_or.
  - intros c s' Ec. congruence.
  - by rewrite E.
Qed.

(** Joining a name to a directory. *)
Lemma PathJoin_dot n : isName n → PathJoin [[46]; n] = n.
Proof.
  intros Hn. pose proof Hn as (H1 & _ & _ & H4). unfold PathJoin. rewrite !filter_cons, decide_True, decide_True, filter_nil by done. cbn [Join].
  rewrite (Clean_components _ [[46]; n]).
  - rewrite filter_cons, decide_False by (intros (_ & ? & _); done). by rewrite filter_normal by (constructor; [done|by constructor]).
  - change ([46] ++ [47] ++ n) with ([46] ++ 47 :: n). rewrite SplitByte_app; [by rewrite SplitByte_none|]. by intros ?%list_elem_of_singleton.
  - by intros c s [= <- _].
  - done.
  - rewrite filter_cons, decide_False by (intros (_ & ? & _); done). by rewrite filter_normal by (constructor; [done|by constructor]).
  - constructor; [auto|]. constructor; auto.
Qed.
Lemma PathJoin_normal cs ds : Forall isName cs → Forall isName ds → PathJoin [Join [47] cs; Join [47] ds] = Join [47] (cs ++ ds).
Proof.
  intros Hc Hd. unfold PathJoin.
  assert (∀ l, Forall isName l → l ≠ [] → Join [47] l ≠ []) as Hne.
  { intros l Hl Hl0. destruct (Join_normal_head l Hl0 Hl) as (x & s & -> & _). done. }
  destruct (decide (cs = [])) as [->|Hcs], (decide (ds = [])) as [->|Hds].
  - done.
  - rewrite filter_cons, decide_False, filter_cons, decide_True, filter_nil by (by auto || by intros []). cbn [Join]. simpl app. by apply Clean_normal.
  - rewrite filter_cons, decide_True, filter_cons, decide_False, filter_nil, app_nil_r by (by auto || by intros []). cbn [Join]. by apply Clean_normal.
  - rewrite !filter_cons, decide_True, decide_True, filter_nil by auto. cbn [Join].
    replace (Join [47] cs ++ [47] ++ Join [47] ds) with (Join [47] (cs ++ ds)); [apply Clean_normal; [by intros [? _]%app_nil|by apply Forall_app]|]. by rewrite Join_app.
Qed.
Lemma PathJoin_name cs n : Forall isName cs → isName n → PathJoin [Join [47] cs; n] = Join [47] (cs ++ [n]).
Proof. intros Hc Hn. rewrite <- PathJoin_normal by (done || by constructor). done. Qed.

(** Absolute paths, and the last component. *)
Lemma Clean_rooted cs : cs ≠ [] → Forall isName cs → Clean (47 :: Join [47] cs) = 47 :: Join [47] cs.
Proof.
  intros Hne Hcs. unfold Clean. change (47 :: Join [47] cs) with ([] ++ 47 :: Join [47] cs) at 1. rewrite SplitByte_app, Split_normal by (done || apply not_elem_of_nil).
  cbn [foldl]. unfold cleanStep at 2. simpl. by rewrite cleanStep_normal, app_nil_r, reverse_involutive.
Qed.
Lemma PathJoin_absolute cs ds : Forall isName cs → Forall isName ds → cs ≠ [] → ds ≠ [] → PathJoin [47 :: Join [47] cs; Join [47] ds] = 47 :: Join [47] (cs ++ ds).
Proof.
  intros Hc Hd Hcs Hds. unfold PathJoin. destruct (Join_normal_head ds Hds Hd) as (x & t & E & _).
  rewrite !filter_cons, decide_True, decide_True, filter_nil by (done || by rewrite E). cbn [Join].
  replace ((47 :: Join [47] cs) ++ [47] ++ Join [47] ds) with (47 :: Join [47] (cs ++ ds)) by (by rewrite Join_app).
  apply Clean_rooted; [by intros [? _]%app_nil|by apply Forall_app].
Qed.
Lemma PathJoin_rooted cs n : Forall isName cs → isName n → PathJoin [47 :: Join [47] cs; n] = 47 :: Join [47] (cs ++ [n]).
Proof.
  intros Hc Hn. pose proof Hn as (Hn1 & _ & _ & Hn4). destruct (decide (cs = [])) as [->|Hcs]; [|by apply (PathJoin_absolute cs [n]); [|constructor|..]].
  unfold PathJoin. rewrite !filter_cons, decide_True, decide_True, filter_nil by done. cbn [Join].
  assert (SplitByte 47 (([47] ++ []) ++ [47] ++ n) = [[]; []; n]) as Es.
  { change (([47] ++ []) ++ [47] ++ n) with ([] ++ 47 :: ([] ++ 47 :: n)). rewrite !SplitByte_app by apply not_elem_of_nil. by rewrite SplitByte_none. }
  unfold Clean. cbn [Join app] in *. rewrite Es. cbn [foldl]. unfold cleanStep at 2 3. simpl.
  pose proof (cleanStep_normal true [] [n] ltac:(by constructor)) as E. cbn [foldl] in E. rewrite E. done.
Qed.
Lemma Join_inj cs ds : cs ≠ [] → ds ≠ [] → Forall isName cs → Forall isName ds → Join [47] cs = Join [47] ds → cs = ds.
Proof. intros Hc Hd Hcs Hds E. rewrite <- (Split_normal cs), <- (Split_normal ds) by done. by rewrite E. Qed.
Lemma PathBase_name p n : isName n → PathBase (p ++ 47 :: n) = n.
Proof.
  intros (Hn & _ & _ & Hs). unfold PathBase. rewrite bool_decide_false by (by intros [_ ?]%app_nil). rewrite reverse_app, reverse_cons, <- app_assoc. simpl app.
  destruct (reverse n) as [|x r] eqn:Er; [by apply (f_equal reverse) in Er; rewrite reverse_involutive in Er|].
  assert (47 ∉ x :: r) as Hx by (rewrite <- Er; by rewrite elem_of_reverse). apply not_elem_of_cons in Hx as Hx'. cbn [dropByte app].
  rewrite (proj2 (Z.eqb_neq x 47)) by naive_solver. change (x :: r ++ 47 :: reverse p) with ((x :: r) ++ 47 :: reverse p). rewrite CutByte_app by done.
  cbn [fst]. rewrite <- Er, reverse_involutive. by rewrite bool_decide_false.
Qed.

(** Going up one directory. *)
Lemma Clean_SplitDir cs n : Forall isName cs → isName n →
  Clean (SplitDir (Join [47] (cs ++ [n]))) = if decide (cs = []) then [46] else Join [47] cs.
Proof.
  intros Hcs Hn. pose proof Hn as (_ & _ & _ & Hs). unfold SplitDir. case_decide as Hc.
  - subst. cbn [app Join]. rewrite CutByte_none; [done|]. by rewrite elem_of_reverse.
  - rewrite Join_snoc, !reverse_app by done. change (reverse [47]) with [47]. rewrite <- app_assoc. simpl app.
    rewrite CutByte_app by (by rewrite elem_of_reverse). rewrite reverse_cons, reverse_involutive.
    destruct (Join_normal_head cs Hc Hcs) as (d & s & E & Hd).
    assert (SplitByte 47 (Join [47] cs ++ [47]) = cs ++ [[]]) as Es.
    { change [47] with ([47] ++ []) at 2. rewrite <- Join_snoc by done. apply SplitFunc_Join; [by intros [_ ?]%app_nil|done|].
      apply Forall_app. split; [|repeat constructor; by intros c ?%not_elem_of_nil]. eapply Forall_impl; [exact Hcs|].
      intros c (_ & _ & _ & Hn') x Hx. apply Z.eqb_neq. by intros ->. }
    assert (filter isName (cs ++ [[]]) = cs) as Ef.
    { rewrite filter_app, filter_normal by done. rewrite filter_cons, decide_False by (intros (? & _); done). by rewrite app_nil_r. }
    rewrite (Clean_components _ _ Es); rewrite ?Ef; try done.
    + intros c s' Ec. rewrite E in Ec. simpl in Ec. congruence.
    + by intros [_ ?]%app_nil.
    + apply Forall_app. split; [by apply Forall_normal_or|]. constructor; [auto|constructor].
Qed.

Lemma string_less_total a b : string_less a b = false → string_less b a = false → a = b.
Proof.
  revert b. induction a as [|x a IH]; intros [|y b]; try done. simpl.
  destruct (Z.ltb_spec x y), (Z.ltb_spec y x); try done; try lia. assert (x = y) as -> by lia. rewrite !Z.eqb_refl. simpl.
  intros Ha Hb. f_equal. by apply IH.
Qed.
