(* ===== verification/Bits.v ===== *)
(** * bits.go: ngrams, case folding and integer codecs

    Trigrams are packed into a uint64 (three 21-bit runes); posting lists,
    rune offsets and document sections are stored as delta-encoded varints. *)

From S2P Require Import Prelude GoStd.
Import utf8 binary.

(** ** Data *)

Definition ngramSize : Z := 3.
(** [[ngramSize]rune]. *)
Abbreviation rune3 := (Z * Z * Z)%type.
(** [type ngram uint64]. *)
Abbreviation ngram := Z (only parsing).

Record runeNgramOff := RuneNgramOff {
  rno_ngram : ngram;
  rno_byteSize : Z;
  rno_byteOff : Z;
  rno_runeOff : Z }.

Record DocumentSection := DocSec { Start : Z; End : Z }.

Definition section_u32 (s : DocumentSection) : Prop := is_u32 (Start s) ∧ is_u32 (End s).

(** ** Ngrams *)

Definition runesToNGram (b : rune3) : ngram :=
  let '(b0, b1, b2) := b in
  Z.lor (Z.lor (u64 (Z.shiftl (u64 b0) 42)) (u64 (Z.shiftl (u64 b1) 21))) (u64 b2).

Definition bytesToNGram (b : bytes) : res ngram :=
  b0 ← index b 0; b1 ← index b 1; b2 ← index b 2;
  Ok (runesToNGram (b0, b1, b2)).

Definition stringToNGram (s : bytes) : res ngram := bytesToNGram s.

Definition runeMask : Z := Z.shiftl 1 21 - 1.

Definition ngramToRunes (n : ngram) : rune3 :=
  (Z.land (Z.shiftr n 42) runeMask, Z.land (Z.shiftr n 21) runeMask, Z.land n runeMask).

Definition ngramToBytes (n : ngram) : bytes :=
  let '(r0, r1, r2) := ngramToRunes n in [u8 r0; u8 r1; u8 r2].

Definition byteEnd (r : runeNgramOff) : Z := rno_byteOff r ⊕ rno_byteSize r.

(** The loop of splitNGrams: a window of the last three runes and of their
    offsets slides over the string; [i] is the byte position, [chars] the index
    of the current rune, [runeCount] the number of runes seen. *)
Fixpoint splitNGrams_loop (str : list (Z * Z)) (runeGram off : rune3)
    (i chars runeCount : Z) : list runeNgramOff :=
  match str with
  | [] => []
  | (r, sz) :: str =>
    let chars := chars + 1 in
    let '(_, g1, g2) := runeGram in
    let '(_, o1, o2) := off in
    let runeGram := (g1, g2, r) in
    let off := (o1, o2, i) in
    let i := i ⊕ sz in
    let runeCount := runeCount + 1 in
    let rest := splitNGrams_loop str runeGram off i chars runeCount in
    if runeCount <? ngramSize then rest
    else RuneNgramOff (runesToNGram runeGram) (i ⊖ o1) o1 (u32 chars) :: rest
  end.

Definition splitNGrams (str : bytes) : list runeNgramOff :=
  splitNGrams_loop (decode_all str) (0, 0, 0) (0, 0, 0) 0 (-1) 0.

(** ** Case folding *)

Section Case.
Context `{UnicodeCase}.

(** One pass of the inner loop of generateCaseNgrams: an odometer whose wheels
    are the folding cycles of the three runes. *)
Definition foldStep (asRunes cur : rune3) : rune3 :=
  let '(o0, o1, o2) := asRunes in
  let '(c0, c1, c2) := cur in
  let n0 := SimpleFold c0 in
  if negb (n0 =? o0) then (n0, c1, c2)
  else let n1 := SimpleFold c1 in
       if negb (n1 =? o1) then (n0, n1, c2)
       else (n0, n1, SimpleFold c2).

Fixpoint generateCaseNgrams_loop (fuel : nat) (asRunes cur : rune3) : res (list ngram) :=
  match fuel with
  | O => OutOfFuel
  | S k =>
    let cur := foldStep asRunes cur in
    if decide (cur = asRunes) then Ok [runesToNGram cur]
    else rest ← generateCaseNgrams_loop k asRunes cur; Ok (runesToNGram cur :: rest)
  end.

(** Three wheels of at most four positions: 64 steps are enough. *)
Definition generateCaseNgrams (g : ngram) : res (list ngram) :=
  generateCaseNgrams_loop 64 (ngramToRunes g) (ngramToRunes g).

Definition toLower (inp : bytes) : bytes :=
  mjoin ((λ c, EncodeRune (ToLower c)) <$> runes inp).

Fixpoint caseFoldingEqualsRunes_loop (lower mixed : list (Z * Z)) (matchTotal : Z) : Z * bool :=
  match lower, mixed with
  | (lr, _) :: lower, (mr, msz) :: mixed =>
    if negb (lr =? ToLower mr) then (0, false)
    else caseFoldingEqualsRunes_loop lower mixed (matchTotal + msz)
  | [], _ => (matchTotal, true)
  | _ :: _, [] => (matchTotal, false)
  end.

Definition caseFoldingEqualsRunes (lower mixed : bytes) : Z * bool :=
  caseFoldingEqualsRunes_loop (decode_all lower) (decode_all mixed) 0.

End Case.

Definition isASCII (inp : bytes) : bool :=
  forallb (λ d : Z * Z, negb (1 <? snd d)) (decode_all inp).

Fixpoint caseFoldingEqualsASCII_loop (lower mixed : bytes) : bool :=
  match lower, mixed with
  | c :: lower, d :: mixed =>
    let d := if (65 <=? d) && (d <=? 90) then u8 (d - 65 + 97) else d in
    if negb (d =? c) then false else caseFoldingEqualsASCII_loop lower mixed
  | _, _ => true
  end.
Definition caseFoldingEqualsASCII (lower mixed : bytes) : bool :=
  if lenZ mixed <? lenZ lower then false else caseFoldingEqualsASCII_loop lower mixed.

(** The constants _classChar .. _classSpace; [iota] counts the lines of the
    constant block, so the values are 0 to 4. *)
Definition byteClass (c : Z) : Z :=
  if ((97 <=? c) && (c <=? 122)) || ((65 <=? c) && (c <=? 90)) then 0
  else if (48 <=? c) && (c <=? 57) then 1
  else if (c =? 32) || (c =? 10) then 4
  else if (c =? 46) || (c =? 44) || (c =? 59) || (c =? 34) || (c =? 39) then 2
  else 3.

(** ** Delta codecs *)

Fixpoint encodeDeltas (last : Z) (offsets : list Z) : bytes :=
  match offsets with
  | [] => []
  | p :: offsets => PutUvarint (p ⊖ last) ++ encodeDeltas p offsets
  end.

Definition toSizedDeltas (offsets : list Z) : bytes :=
  PutUvarint (u64 (lenZ offsets)) ++ encodeDeltas 0 offsets.

(** The loop shared by fromSizedDeltas and fromDeltas. *)
Fixpoint decodeDeltas (fuel : nat) (data : bytes) (last : Z) : res (list Z) :=
  match fuel with
  | O => OutOfFuel
  | S k =>
    match data with
    | [] => Ok []
    | _ =>
      let '(delta, m) := Uvarint data in
      let offset := last ⊕ u32 delta in
      data ← slice_from data m;
      ps ← decodeDeltas k data offset;
      Ok (offset :: ps)
    end
  end.

Definition fromDeltas (data : bytes) : res (list Z) :=
  decodeDeltas (S (length data)) data 0.

(** A slice of 4-byte integers has at most this capacity on a 64-bit machine, whose allocations
    have at most 2^48 bytes. *)
Definition maxCap32 : Z := 2 ^ 46.

(** The buffer of the caller is too small for a decoded size above [maxCap32], and then make panics; a size that is
    negative as an int fits any buffer. *)
Definition fromSizedDeltas (data : bytes) : res (list Z) :=
  let '(sz, m) := Uvarint data in
  data ← slice_from data m;
  if (maxCap32 <? sz) && (sz <? 2 ^ 63) then Panic "makeslice: cap out of range"
  else decodeDeltas (S (length data)) data 0.

Definition sectionInts (secs : list DocumentSection) : list Z :=
  s ← secs; [u32 (Start s); u32 (End s)].

Definition marshalDocSections (secs : list DocumentSection) : bytes :=
  toSizedDeltas (sectionInts secs).

Fixpoint pairSections (ints : list Z) : res (list DocumentSection) :=
  match ints with
  | [] => Ok []
  | [_] => Panic "index out of range"
  | a :: b :: ints => secs ← pairSections ints; Ok (DocSec a b :: secs)
  end.

Definition unmarshalDocSections (inp : bytes) : res (list DocumentSection) :=
  ints ← fromSizedDeltas inp; pairSections ints.

(** ** Ngram lemmas *)

Definition rune3_ok (b : rune3) : Prop :=
  let '(b0, b1, b2) := b in
  0 <= b0 < 2097152 ∧ 0 <= b1 < 2097152 ∧ 0 <= b2 < 2097152.

Lemma runesToNGram_sum b0 b1 b2 :
  rune3_ok (b0, b1, b2) →
  runesToNGram (b0, b1, b2) = b0 * 4398046511104 + b1 * 2097152 + b2.
Proof.
  intros (H0 & H1 & H2). unfold runesToNGram.
  assert (is_u64 (Z.shiftl b0 42)).
  { rewrite Z.shiftl_mul_pow2 by lia. change (2 ^ 42) with 4398046511104. u32_unfold. lia. }
  assert (is_u64 (Z.shiftl b1 21)).
  { rewrite Z.shiftl_mul_pow2 by lia. change (2 ^ 21) with 2097152. u32_unfold. lia. }
  rewrite (u64_id b0), (u64_id b1), (u64_id b2) by u32_lia. rewrite !u64_id by done.
  rewrite <- Z.lor_assoc, (lor_shiftl_add b1), lor_shiftl_add;
    change (2 ^ 42) with 4398046511104; change (2 ^ 21) with 2097152; lia.
Qed.

Lemma ngramToRunes_sum n :
  ngramToRunes n
  = (n / 4398046511104 mod 2097152, n / 2097152 mod 2097152, n mod 2097152).
Proof.
  unfold ngramToRunes. change runeMask with (Z.ones 21).
  rewrite !Z.land_ones, !Z.shiftr_div_pow2 by lia. done.
Qed.

Lemma ngramToRunes_ok n : rune3_ok (ngramToRunes n).
Proof. rewrite ngramToRunes_sum. simpl. Z.div_mod_to_equations. lia. Qed.

Lemma ngramToRunes_runesToNGram b : rune3_ok b → ngramToRunes (runesToNGram b) = b.
Proof.
  destruct b as [[b0 b1] b2]. intros Hb. rewrite runesToNGram_sum by done.
  destruct Hb as (H0 & H1 & H2). rewrite ngramToRunes_sum.
  f_equal; [f_equal|]; Z.div_mod_to_equations; lia.
Qed.

(** ** Codec lemmas *)

Lemma encodeDeltas_app last l k :
  encodeDeltas last (l ++ k) = encodeDeltas last l ++ encodeDeltas (List.last l last) k.
Proof.
  revert last. induction l as [|p l IH]; intros last; [done|].
  cbn [app encodeDeltas]. by rewrite IH, app_assoc, last_cons_default.
Qed.

Lemma encodeDeltas_nonempty last p ps : encodeDeltas last (p :: ps) ≠ [].
Proof.
  simpl. pose proof (PutUvarint_aux_nonempty 9 (p ⊖ last)) as Hne.
  unfold PutUvarint. by destruct (PutUvarint_aux 10 (p ⊖ last)).
Qed.

Lemma length_encodeDeltas last ps : (length ps <= length (encodeDeltas last ps))%nat.
Proof.
  revert last. induction ps as [|p ps IH]; intros last; [simpl; lia|].
  cbn [encodeDeltas length]. rewrite length_app. specialize (IH p).
  pose proof (PutUvarint_u32_len (p ⊖ last) (u32_range _)). lia.
Qed.

Lemma decode_encodeDeltas fuel last ps :
  (length (encodeDeltas last ps) < fuel)%nat → Forall is_u32 ps →
  decodeDeltas fuel (encodeDeltas last ps) last = Ok ps.
Proof.
  revert fuel last. induction ps as [|p ps IH]; intros [|fuel] last Hf Hps; [lia|done|lia|].
  pose proof (encodeDeltas_nonempty last p ps) as Hne.
  cbn [decodeDeltas]. destruct (encodeDeltas last (p :: ps)) eqn:E; [done|].
  rewrite <- E in *. clear E Hne. cbn [encodeDeltas] in *.
  apply Forall_cons in Hps as [Hp Hps].
  rewrite Uvarint_Put by (pose proof (u32_range (p - last)); u32_unfold; lia).
  rewrite slice_from_app. cbn [mbind res_bind].
  rewrite (u32_id (p ⊖ last)) by apply u32_range. rewrite u32_add_sub by done.
  rewrite length_app in Hf.
  pose proof (PutUvarint_u32_len (p ⊖ last) (u32_range _)).
  rewrite IH; [done|lia|done].
Qed.

Lemma sectionInts_u32 secs : Forall is_u32 (sectionInts secs).
Proof.
  induction secs as [|s secs IH]; [constructor|].
  change (sectionInts (s :: secs)) with ([u32 (Start s); u32 (End s)] ++ sectionInts secs).
  repeat (constructor; [apply u32_range|]). exact IH.
Qed.

Lemma pairSections_ints secs : Forall section_u32 secs → pairSections (sectionInts secs) = Ok secs.
Proof.
  induction 1 as [|[s e] secs [Hs He] _ IH]; [done|].
  change (sectionInts (DocSec s e :: secs)) with (u32 s :: u32 e :: sectionInts secs).
  cbn [pairSections]. rewrite IH. simpl in *. by rewrite !u32_id.
Qed.

Lemma length_sectionInts secs : length (sectionInts secs) = (2 * length secs)%nat.
Proof.
  induction secs as [|s secs IH]; [done|].
  change (length (sectionInts (s :: secs))) with (S (S (length (sectionInts secs)))).
  rewrite IH. simpl. lia.
Qed.

Lemma fromDeltas_encode ps : Forall is_u32 ps → fromDeltas (encodeDeltas 0 ps) = Ok ps.
Proof. intros. apply decode_encodeDeltas; [lia|done]. Qed.

Lemma fromSized_toSized offsets :
  Forall is_u32 offsets → lenZ offsets <= maxCap32 →
  fromSizedDeltas (toSizedDeltas offsets) = Ok offsets.
Proof.
  intros Ho Hl. pose proof (lenZ_nonneg offsets). assert (is_u64 (lenZ offsets)) by (unfold is_u64, maxCap32 in *; u32_unfold; lia).
  unfold fromSizedDeltas, toSizedDeltas. rewrite u64_id, Uvarint_Put by done. rewrite slice_from_app. cbn [mbind res_bind].
  rewrite (proj2 (Z.ltb_ge maxCap32 _)) by done. cbn [andb].
  apply (decode_encodeDeltas (S _)); [lia|done].
Qed.

(** ** splitNGrams *)

(** Reference definition: one entry for every window of three runes. *)
Fixpoint trigrams (k off : Z) (ds : list (Z * Z)) : list runeNgramOff :=
  match ds with
  | (r0, s0) :: (((r1, s1) :: (r2, s2) :: _) as t) =>
    RuneNgramOff (runesToNGram (r0, r1, r2)) (s0 + s1 + s2) off (k + 2)
    :: trigrams (k + 1) (off + s0) t
  | _ => []
  end.

Lemma trigrams_lookup k off ds (j : nat) :
  trigrams k off ds !! j =
  match ds !! j, ds !! S j, ds !! S (S j) with
  | Some (r0, s0), Some (r1, s1), Some (r2, s2) =>
    Some (RuneNgramOff (runesToNGram (r0, r1, r2)) (s0 + s1 + s2)
            (off + total_size (take j ds)) (k + Z.of_nat j + 2))
  | _, _, _ => None
  end.
Proof.
  revert k off j. induction ds as [|[r0 s0] ds IH]; intros k off j; [done|].
  destruct ds as [|[r1 s1] [|[r2 s2] ds]].
  - destruct j as [|[|j]]; simpl; try done; by destruct j.
  - destruct j as [|[|[|j]]]; simpl; try done; by destruct j.
  - destruct j as [|j].
    + simpl. do 2 f_equal; lia.
    + etrans; [apply IH|]. generalize ((r1, s1) :: (r2, s2) :: ds). intros l.
      change (((r0, s0) :: l) !! S ?n) with (l !! n). cbn [take]. rewrite total_size_cons.
      destruct (l !! j) as [[]|], (l !! S j) as [[]|], (l !! S (S j)) as [[]|]; try done.
      simpl. do 2 f_equal; lia.
Qed.

Lemma total_size_nonneg ds : Forall (λ d, 1 <= snd d <= 4) ds → 0 <= total_size ds.
Proof. unfold total_size. induction 1; simpl; lia. Qed.

Lemma splitNGrams_loop_spec ds g0 g1 g2 o0 o1 o2 i chars n :
  Forall (λ d, 1 <= snd d <= 4) ds →
  0 <= o1 <= o2 → o2 <= i → i + total_size ds < two32 → 
  2 <= n → 1 <= chars → chars + lenZ ds < two32 →
  splitNGrams_loop ds (g0, g1, g2) (o0, o1, o2) i chars n
  = trigrams (chars - 1) o1 ((g1, o2 - o1) :: (g2, i - o2) :: ds).
Proof.
  intros Hds. revert g0 g1 g2 o0 o1 o2 i chars n.
  induction Hds as [|[r sz] ds Hd Hds IH]; intros g0 g1 g2 o0 o1 o2 i chars n H1 H2 H3 Hn Hc Hl; [done|].
  cbn [splitNGrams_loop]. rewrite total_size_cons in *. simpl snd in *.
  pose proof (total_size_nonneg ds Hds). pose proof (lenZ_nonneg ds). rewrite lenZ_cons in Hl.
  rewrite (u32_id (i + sz)) by (u32_unfold; lia).
  replace (n + 1 <? ngramSize) with false by (symmetry; apply Z.ltb_ge; unfold ngramSize; lia).
  rewrite IH by lia. cbn [trigrams].
  rewrite (u32_id (i + sz - o1)), (u32_id (chars + 1)) by (u32_unfold; lia).
  f_equal; [f_equal; lia|].
  replace (chars + 1 - 1) with (chars - 1 + 1) by lia.
  replace (o1 + (o2 - o1)) with o2 by lia.
  replace (i + sz - i) with sz by lia. done.
Qed.

Lemma decode_count_le p : lenZ (decode_all p) <= lenZ p.
Proof.
  rewrite <- (total_size_decode p). pose proof (decode_sizes p) as Hs.
  induction Hs as [|d ds Hd _ IH]; [done|].
  rewrite lenZ_cons, total_size_cons. lia.
Qed.

Lemma splitNGrams_trigrams s :
  is_u32 (lenZ s) → splitNGrams s = trigrams 0 0 (decode_all s).
Proof.
  intros Hs. unfold splitNGrams.
  pose proof (decode_sizes s) as Hsz. pose proof (total_size_decode s) as Ht.
  pose proof (decode_count_le s) as Hn.
  destruct (decode_all s) as [|[r0 s0] [|[r1 s1] ds]]; [done|done|].
  apply Forall_cons in Hsz as [H0 Hsz]. apply Forall_cons in Hsz as [H1 Hsz].
  rewrite !total_size_cons in *. simpl snd in *.
  pose proof (total_size_nonneg ds Hsz). rewrite !lenZ_cons in Hn.
  cbn [splitNGrams_loop]. change (0 + 1 <? ngramSize) with true.
  change (0 + 1 + 1 <? ngramSize) with true. cbv iota.
  rewrite (u32_id (0 + s0)) by (u32_unfold; lia).
  rewrite (u32_id (0 + s0 + s1)) by (u32_unfold; lia).
  rewrite splitNGrams_loop_spec; [|done|u32_unfold; lia..].
  replace (-1 + 1 + 1 - 1) with 0 by lia. do 3 f_equal; [f_equal; lia|].
  do 2 f_equal. lia.
Qed.

(** ** Case folding lemmas *)

Section CaseLemmas.
Context `{UnicodeCase}.

Lemma caseFoldingEqualsRunes_loop_true lower mixed acc n :
  caseFoldingEqualsRunes_loop lower mixed acc = (n, true) ↔
  ∃ k, fst <$> lower = ToLower <$> (fst <$> take k mixed) ∧ length lower = k ∧
       n = acc + total_size (take k mixed).
Proof.
  revert mixed acc. induction lower as [|[lr lsz] lower IH]; intros mixed acc.
  { simpl. split.
    - intros [= <-]. exists 0%nat. split_and!; [done|done|]. unfold total_size. simpl. lia.
    - intros (k & _ & <- & ->). f_equal. unfold total_size. simpl. lia. }
  destruct mixed as [|[mr msz] mixed]; simpl.
  { split; [done|]. intros (k & Hk & _). rewrite take_nil in Hk. done. }
  destruct (Z.eqb_spec lr (ToLower mr)) as [Heq|Hne]; simpl.
  - rewrite IH. split.
    + intros (k & Hk & Hl & Hn). exists (S k). cbn [take length].
      split_and!; [|lia|rewrite total_size_cons; simpl; lia].
      rewrite !fmap_cons. cbn [fst]. by f_equal.
    + intros ([|k] & Hk & Hl & Hn); [simpl in Hl; lia|]. cbn [take length] in *.
      rewrite !fmap_cons in Hk. injection Hk as _ Hk. rewrite total_size_cons in Hn.
      exists k. split_and!; [done|lia|]. simpl in Hn. lia.
  - split; [done|]. intros ([|k] & Hk & Hl & _); [simpl in Hl; lia|]. by injection Hk as ?.
Qed.

(** *** The odometer of generateCaseNgrams *)

Abbreviation orbit n r := (Nat.iter n SimpleFold r).

(** [p] is the length of the folding cycle of [o]. *)
Definition cycle_len (o : Z) (p : nat) : Prop :=
  (1 <= p <= 4)%nat ∧ orbit p o = o ∧ ∀ d, (0 < d < p)%nat → orbit d o ≠ o.

Lemma cycle_len_exists o : ∃ p, cycle_len o p.
Proof.
  destruct (SimpleFold_cycle o) as (n & Hn & Hc).
  destruct (decide (orbit 1 o = o)); [exists 1%nat; split_and!; [lia|lia|done|intros; lia]|].
  destruct (decide (orbit 2 o = o)).
  { exists 2%nat. split_and!; [lia|lia|done|]. intros d Hd. by replace d with 1%nat by lia. }
  destruct (decide (orbit 3 o = o)).
  { exists 3%nat. split_and!; [lia|lia|done|]. intros d Hd.
    destruct (decide (d = 1%nat)) as [->|]; [done|]. by replace d with 2%nat by lia. }
  assert (n = 4%nat) as ->.
  { destruct n as [|[|[|[|[|n]]]]]; try lia; try done. }
  exists 4%nat. split_and!; [lia|lia|done|]. intros d Hd.
  destruct (decide (d = 1%nat)) as [->|]; [done|].
  destruct (decide (d = 2%nat)) as [->|]; [done|]. by replace d with 3%nat by lia.
Qed.

Lemma orbit_add a b o : orbit (a + b) o = orbit a (orbit b o).
Proof. induction a as [|a IH]; [done|]. change (S a + b)%nat with (S (a + b)). simpl. by rewrite IH. Qed.

Lemma orbit_mod o p a : cycle_len o p → orbit (a mod p)%nat o = orbit a o.
Proof.
  intros (Hp & Ho & _).
  replace (orbit a o) with (orbit (a mod p + a / p * p) o)
    by (f_equal; pose proof (Nat.div_mod_eq a p); lia).
  rewrite orbit_add. f_equal. generalize (a / p)%nat. intros q.
  induction q as [|q IH]; [done|]. cbn [Nat.mul]. by rewrite orbit_add, <- IH.
Qed.

Lemma orbit_zero o p d : cycle_len o p → (d < p)%nat → orbit d o = o → d = 0%nat.
Proof.
  intros (_ & _ & Hmin) Hd Ho. destruct d as [|d]; [done|].
  exfalso. apply (Hmin (S d)); [lia|done].
Qed.

Lemma orbit_inj o p a b : cycle_len o p → (a < p)%nat → (b < p)%nat → orbit a o = orbit b o → a = b.
Proof.
  intros Hc. assert (∀ a b, (a <= b < p)%nat → orbit a o = orbit b o → a = b) as Hle.
  { clear a b. intros a b Hab E. pose proof Hc as (_ & Hp & _).
    assert (orbit (p - a + b) o = o) as E'.
    { rewrite orbit_add, <- E, <- orbit_add. replace (p - a + a)%nat with p by lia. done. }
    rewrite <- (orbit_mod o p _ Hc) in E'. apply (orbit_zero _ _ _ Hc) in E'; [|apply Nat.mod_upper_bound; lia].
    destruct (decide (a = b)) as [|Hne]; [done|]. exfalso.
    replace (p - a + b)%nat with (b - a + 1 * p)%nat in E' by lia.
    rewrite Nat.Div0.mod_add, Nat.mod_small in E' by lia. lia. }
  intros Ha Hb E. destruct (Nat.le_ge_cases a b); [|symmetry; symmetry in E]; apply Hle; lia || done.
Qed.

Lemma div_mod_succ (j p : nat) :
  (0 < p)%nat →
  if decide (S (j mod p) = p)
  then (S j mod p = 0 ∧ S j / p = S (j / p))%nat
  else (S j mod p = S (j mod p) ∧ S j / p = j / p)%nat.
Proof.
  intros Hp. pose proof (Nat.div_mod_eq j p). pose proof (Nat.mod_upper_bound j p ltac:(lia)).
  case_decide.
  - split; [symmetry; apply (Nat.mod_unique _ _ (S (j / p)))|symmetry; apply (Nat.div_unique _ _ _ 0)]; lia.
  - split; [symmetry; apply (Nat.mod_unique _ _ (j / p))|symmetry; apply (Nat.div_unique _ _ _ (S (j mod p)))]; lia.
Qed.

Lemma mixed_radix (x p w W : nat) : (x < p)%nat → (w < W)%nat → (x + p * w < p * W)%nat.
Proof. nia. Qed.

Section Odometer.
Context (o0 o1 o2 : Z) (p0 p1 p2 : nat).
Context (H0 : cycle_len o0 p0) (H1 : cycle_len o1 p1) (H2 : cycle_len o2 p2).

(** The position of the wheels after [j] steps. *)
Definition wheels (j : nat) : rune3 :=
  (orbit (j mod p0) o0, orbit (j / p0 mod p1) o1, orbit (j / p0 / p1 mod p2) o2).

Lemma wheels_0 : wheels 0 = (o0, o1, o2).
Proof. unfold wheels. by rewrite !Nat.Div0.div_0_l, !Nat.Div0.mod_0_l. Qed.

Lemma wheel_step o p d : cycle_len o p → (d < p)%nat →
  SimpleFold (orbit d o) = o ↔ S d = p.
Proof.
  intros Hc Hd. change (SimpleFold (orbit d o)) with (orbit (S d) o). split.
  - intros Ho. destruct Hc as (_ & _ & Hmin).
    destruct (decide (S d = p)); [done|]. exfalso. apply (Hmin (S d)); [lia|done].
  - intros ->. apply Hc.
Qed.

Lemma foldStep_wheels j : foldStep (o0, o1, o2) (wheels j) = wheels (S j).
Proof.
  destruct H0 as (Hp0 & _), H1 as (Hp1 & _), H2 as (Hp2 & _).
  pose proof (Nat.mod_upper_bound j p0 ltac:(lia)).
  pose proof (Nat.mod_upper_bound (j / p0) p1 ltac:(lia)).
  pose proof (Nat.mod_upper_bound (j / p0 / p1) p2 ltac:(lia)).
  pose proof (div_mod_succ j p0 ltac:(lia)) as S0.
  unfold foldStep, wheels.
  destruct (Z.eqb_spec (SimpleFold (orbit (j mod p0) o0)) o0) as [E0|E0]; simpl.
  2:{ rewrite decide_False in S0 by (rewrite <- wheel_step; done). destruct S0 as [-> ->]. done. }
  rewrite decide_True in S0 by (rewrite <- wheel_step; done). destruct S0 as [-> ->].
  pose proof (div_mod_succ (j / p0) p1 ltac:(lia)) as S1.
  destruct (Z.eqb_spec (SimpleFold (orbit (j / p0 mod p1) o1)) o1) as [E1|E1]; simpl.
  2:{ rewrite decide_False in S1 by (rewrite <- wheel_step; done). destruct S1 as [-> ->].
      by rewrite E0. }
  rewrite decide_True in S1 by (rewrite <- wheel_step; done). destruct S1 as [-> ->].
  pose proof (div_mod_succ (j / p0 / p1) p2 ltac:(lia)) as S2.
  rewrite E0, E1. do 2 f_equal.
  case_decide; destruct S2 as [-> _]; [|done]. simpl. by apply (wheel_step o2 p2).
Qed.

Lemma wheels_home j :
  (0 < j <= p0 * p1 * p2)%nat → wheels j = (o0, o1, o2) ↔ j = (p0 * p1 * p2)%nat.
Proof.
  intros Hj. pose proof H0 as (Hp0 & _). pose proof H1 as (Hp1 & _). pose proof H2 as (Hp2 & _).
  split.
  - unfold wheels. intros Hw. injection Hw as E0 E1 E2.
    apply (orbit_zero _ _ _ H0) in E0; [|apply Nat.mod_upper_bound; lia].
    apply (orbit_zero _ _ _ H1) in E1; [|apply Nat.mod_upper_bound; lia].
    apply (orbit_zero _ _ _ H2) in E2; [|apply Nat.mod_upper_bound; lia].
    pose proof (Nat.div_mod_eq j p0). pose proof (Nat.div_mod_eq (j / p0) p1).
    pose proof (Nat.div_mod_eq (j / p0 / p1) p2).
    set (q := (j / p0 / p1 / p2)%nat) in *.
    assert (j = p0 * p1 * p2 * q)%nat as Hq by nia.
    destruct q as [|[|q]]; nia.
  - intros ->. unfold wheels.
    replace (p0 * p1 * p2)%nat with (p1 * p2 * p0)%nat by lia.
    rewrite Nat.Div0.mod_mul, Nat.div_mul by lia.
    rewrite (Nat.mul_comm p1 p2), Nat.Div0.mod_mul, Nat.div_mul by lia.
    by rewrite Nat.Div0.mod_same.
Qed.

Lemma generate_loop_spec fuel j :
  (j < p0 * p1 * p2)%nat → (p0 * p1 * p2 - j <= fuel)%nat →
  generateCaseNgrams_loop fuel (o0, o1, o2) (wheels j)
  = Ok ((λ i, runesToNGram (wheels i)) <$> seq (S j) (p0 * p1 * p2 - j)).
Proof.
  revert j. induction fuel as [|fuel IH]; intros j Hj Hf; [lia|].
  cbn [generateCaseNgrams_loop]. rewrite foldStep_wheels.
  case_decide as Hd.
  - apply wheels_home in Hd; [|lia]. replace (p0 * p1 * p2 - j)%nat with 1%nat by lia. done.
  - assert (S j ≠ p0 * p1 * p2)%nat by (rewrite <- wheels_home; [done|lia]).
    rewrite IH by lia. 
    replace (p0 * p1 * p2 - j)%nat with (S (p0 * p1 * p2 - S j)) by lia. done.
Qed.

(** Every combination of folded runes is some position of the wheels. *)
Lemma wheels_surj a b c :
  ∃ j, (0 < j <= p0 * p1 * p2)%nat ∧ wheels j = (orbit a o0, orbit b o1, orbit c o2).
Proof.
  pose proof H0 as (Hp0 & _). pose proof H1 as (Hp1 & _). pose proof H2 as (Hp2 & _).
  pose proof (Nat.mod_upper_bound a p0 ltac:(lia)).
  pose proof (Nat.mod_upper_bound b p1 ltac:(lia)).
  pose proof (Nat.mod_upper_bound c p2 ltac:(lia)).
  rewrite <- (orbit_mod o0 p0 a), <- (orbit_mod o1 p1 b), <- (orbit_mod o2 p2 c) by done.
  set (j := (a mod p0 + p0 * (b mod p1 + p1 * (c mod p2)))%nat).
  assert (wheels j = (orbit (a mod p0) o0, orbit (b mod p1) o1, orbit (c mod p2) o2)) as Hw.
  { unfold wheels.
    assert (j mod p0 = a mod p0 ∧ j / p0 = b mod p1 + p1 * (c mod p2))%nat as [-> ->].
    { split; symmetry; [apply (Nat.mod_unique _ _ (b mod p1 + p1 * (c mod p2)))
                       |apply (Nat.div_unique _ _ _ (a mod p0))]; lia. }
    assert ((b mod p1 + p1 * (c mod p2)) mod p1 = b mod p1
            ∧ (b mod p1 + p1 * (c mod p2)) / p1 = c mod p2)%nat as [-> ->].
    { split; symmetry; [apply (Nat.mod_unique _ _ (c mod p2))|apply (Nat.div_unique _ _ _ (b mod p1))]; lia. }
    by rewrite (Nat.mod_small (c mod p2)). }
  assert (j < p0 * p1 * p2)%nat
    by (rewrite <- Nat.mul_assoc; by repeat apply mixed_radix).
  destruct (decide (j = 0)%nat) as [E|E]; [|exists j; split; [lia|done]].
  exists (p0 * p1 * p2)%nat. split; [lia|]. rewrite <- Hw, E.
  rewrite (proj2 (wheels_home (p0 * p1 * p2)%nat ltac:(lia)) eq_refl).
  by rewrite wheels_0.
Qed.
Lemma wheels_inj i j :
  (0 < i <= p0 * p1 * p2)%nat → (0 < j <= p0 * p1 * p2)%nat → wheels i = wheels j → i = j.
Proof.
  intros Hi Hj E. pose proof H0 as (Hp0 & _). pose proof H1 as (Hp1 & _). pose proof H2 as (Hp2 & _).
  destruct (decide (i = p0 * p1 * p2)%nat) as [->|Hni].
  { rewrite (proj2 (wheels_home _ Hi) eq_refl) in E. symmetry in E. by apply wheels_home in E. }
  destruct (decide (j = p0 * p1 * p2)%nat) as [->|Hnj].
  { rewrite (proj2 (wheels_home _ Hj) eq_refl) in E. by apply wheels_home in E. }
  unfold wheels in E. injection E as E0 E1 E2.
  apply (orbit_inj _ _ _ _ H0) in E0; [|apply Nat.mod_upper_bound; lia..].
  apply (orbit_inj _ _ _ _ H1) in E1; [|apply Nat.mod_upper_bound; lia..].
  assert (∀ k, (k < p0 * p1 * p2)%nat → (k / p0 / p1 < p2)%nat) as Hlt.
  { intros k Hk. repeat apply Nat.Div0.div_lt_upper_bound. lia. }
  apply (orbit_inj _ _ _ _ H2) in E2; [|apply Nat.mod_upper_bound; lia..].
  rewrite !(Nat.mod_small (_ / _ / _)) in E2 by (apply Hlt; lia).
  pose proof (Nat.div_mod_eq i p0). pose proof (Nat.div_mod_eq (i / p0) p1).
  pose proof (Nat.div_mod_eq j p0). pose proof (Nat.div_mod_eq (j / p0) p1). congruence.
Qed.
End Odometer.

(** The case variants of a trigram, each once. *)
Definition case_variant (g v : ngram) : Prop :=
  ∃ a b c : nat, let '(o0, o1, o2) := ngramToRunes g in
    v = runesToNGram (Nat.iter a SimpleFold o0, Nat.iter b SimpleFold o1, Nat.iter c SimpleFold o2).

Lemma orbit_range n r : 0 <= r < 2097152 → 0 <= orbit n r < 2097152.
Proof. intros Hr. induction n as [|n IH]; [done|]. by apply SimpleFold_range. Qed.

Lemma generateCaseNgrams_ok (g : ngram) :
  ∃ l, generateCaseNgrams g = Ok l ∧ NoDup l ∧ ∀ v, v ∈ l ↔ case_variant g v.
Proof.
  unfold generateCaseNgrams, case_variant. pose proof (ngramToRunes_ok g) as Hok.
  destruct (ngramToRunes g) as [[o0 o1] o2].
  destruct (cycle_len_exists o0) as [p0 H0], (cycle_len_exists o1) as [p1 H1],
    (cycle_len_exists o2) as [p2 H2].
  pose proof H0 as (Hp0 & _). pose proof H1 as (Hp1 & _). pose proof H2 as (Hp2 & _).
  assert (0 < p0 * p1 * p2 <= 64)%nat as HN.
  { pose proof (Nat.mul_le_mono p0 4 p1 4). pose proof (Nat.mul_le_mono (p0 * p1) 16 p2 4).
    split; [repeat apply Nat.mul_pos_pos; lia|lia]. }
  eexists. split; [|split].
  - rewrite <- (wheels_0 o0 o1 o2 p0 p1 p2) at 2.
    apply (generate_loop_spec o0 o1 o2 p0 p1 p2 H0 H1 H2 64 0); lia.
  - apply NoDup_fmap_2_strong; [|apply NoDup_seq]. intros i j Hi%elem_of_seq Hj%elem_of_seq E.
    apply (wheels_inj o0 o1 o2 p0 p1 p2 H0 H1 H2); [lia..|].
    apply (f_equal ngramToRunes) in E. destruct Hok as (? & ? & ?).
    rewrite !ngramToRunes_runesToNGram in E by (unfold wheels; split_and!; by apply orbit_range). done.
  - intros v. rewrite list_elem_of_fmap. split.
    + intros (j & -> & _). by repeat eexists.
    + intros (a & b & c & ->).
      destruct (wheels_surj o0 o1 o2 p0 p1 p2 H0 H1 H2 a b c) as (j & Hj & Hw).
      exists j. rewrite Hw. split; [done|]. apply elem_of_seq. lia.
Qed.

End CaseLemmas.

(** ** Properties *)

(** C34: the delta codec loses nothing. Any list of uint32 offsets, increasing or
    not, survives toSizedDeltas/fromSizedDeltas and the unsized encoding of
    posting lists read by fromDeltas, and any list of sections survives
    marshalDocSections/unmarshalDocSections. *)
Theorem delta_codec_roundtrip (offsets : list Z) (secs : list DocumentSection)
    (Hoff : Forall is_u32 offsets) (Hlen : lenZ offsets < two32)
    (Hsecs : Forall section_u32 secs) (Hslen : lenZ secs < two32) :
  fromSizedDeltas (toSizedDeltas offsets) = Ok offsets ∧
  fromDeltas (encodeDeltas 0 offsets) = Ok offsets ∧
  unmarshalDocSections (marshalDocSections secs) = Ok secs.
Proof.
  pose proof (lenZ_nonneg offsets). pose proof (lenZ_nonneg secs).
  split_and!; [apply fromSized_toSized; [done|unfold maxCap32; u32_unfold; lia]|by apply fromDeltas_encode|].
  unfold unmarshalDocSections, marshalDocSections.
  rewrite fromSized_toSized.
  - by apply pairSections_ints.
  - apply sectionInts_u32.
  - unfold lenZ in *. rewrite length_sectionInts. unfold maxCap32. u32_unfold. lia.
Qed.

(** A trigram packs three runes of 21 bits into a uint64 without loss:
    unpacking returns the runes, so distinct trigrams have distinct keys. *)
Theorem ngram_pack_roundtrip (b c : rune3) (Hb : rune3_ok b) (Hc : rune3_ok c) :
  ngramToRunes (runesToNGram b) = b ∧
  is_u64 (runesToNGram b) ∧
  (runesToNGram b = runesToNGram c → b = c).
Proof.
  split_and!.
  - by apply ngramToRunes_runesToNGram.
  - destruct b as [[b0 b1] b2]. rewrite runesToNGram_sum by done.
    destruct Hb as (? & ? & ?). u32_unfold. lia.
  - intros E. rewrite <- (ngramToRunes_runesToNGram b), <- (ngramToRunes_runesToNGram c) by done.
    by rewrite E.
Qed.

(** SplitNGrams lists the trigrams of a string in order: entry [j] packs the
    runes [j], [j+1] and [j+2], its byte offset is where rune [j] starts, its
    byte size the width of the three runes, and there is no entry for other
    positions. The rune offset it records is that of the last rune of the
    trigram. *)
Theorem splitNGrams_spec (s : bytes) (j : nat) (Hs : lenZ s < two32) :
  splitNGrams s !! j =
  match decode_all s !! j, decode_all s !! S j, decode_all s !! S (S j) with
  | Some (r0, s0), Some (r1, s1), Some (r2, s2) =>
    Some (RuneNgramOff (runesToNGram (r0, r1, r2)) (s0 + s1 + s2)
            (total_size (take j (decode_all s))) (Z.of_nat j + 2))
  | _, _, _ => None
  end.
Proof.
  pose proof (lenZ_nonneg s).
  rewrite splitNGrams_trigrams by (u32_unfold; lia). apply trigrams_lookup.
Qed.

(** GenerateCaseNgrams stops and returns exactly the trigrams that are
    equal to the given one up to simple case folding of each rune, each of them
    once. *)
Theorem generateCaseNgrams_spec `{UnicodeCase} (g : ngram) :
  ∃ l, generateCaseNgrams g = Ok l ∧ NoDup l ∧
  ∀ v, v ∈ l ↔ ∃ a b c : nat,
    let '(o0, o1, o2) := ngramToRunes g in
    v = runesToNGram (Nat.iter a SimpleFold o0, Nat.iter b SimpleFold o1, Nat.iter c SimpleFold o2).
Proof. exact (generateCaseNgrams_ok g). Qed.

(** CaseFoldingEqualsRunes accepts exactly when the needle's runes are the
    lower-cased first runes of the text, and then returns the number of bytes of
    text they cover. *)
Theorem caseFoldingEqualsRunes_spec `{UnicodeCase} (lower mixed : bytes) (n : Z) :
  caseFoldingEqualsRunes lower mixed = (n, true) ↔
  runes lower = ToLower <$> take (length (runes lower)) (runes mixed) ∧
  n = total_size (take (length (runes lower)) (decode_all mixed)).
Proof.
  unfold caseFoldingEqualsRunes, runes.
  rewrite caseFoldingEqualsRunes_loop_true, length_fmap. split.
  - intros (k & Hk & <- & Hn). rewrite <- fmap_take. split; [done|lia].
  - intros [Hr ->]. exists (length (decode_all lower)). rewrite <- fmap_take in Hr.
    split_and!; [done|done|lia].
Qed.

(** A posting list or index section that ends inside a varint makes the
    decoding loop run forever: no number of iterations suffices, because
    binary.Uvarint then reports a width of 0 and the loop keeps its position. *)
Theorem fromDeltas_truncated_diverges (data : bytes) (Hne : data ≠ [])
    (Htrunc : snd (Uvarint data) = 0) (fuel : nat) (last : Z) :
  decodeDeltas fuel data last = OutOfFuel.
Proof.
  revert last. induction fuel as [|fuel IH]; intros last; [done|].
  cbn [decodeDeltas]. destruct data as [|b t]; [done|].
  destruct (Uvarint (b :: t)) as [delta m]. simpl in Htrunc. subst m.
  unfold slice_from. rewrite decide_True by (pose proof (lenZ_nonneg (b :: t)); lia).
  cbn [mbind res_bind]. change (drop (Z.to_nat 0) (b :: t)) with (b :: t). by rewrite IH.
Qed.

(** Witnesses. *)

Lemma delta_codec_roundtrip_witness :
  fromSizedDeltas (toSizedDeltas [300; 7; 4294967295]) = Ok [300; 7; 4294967295] ∧
  fromDeltas (encodeDeltas 0 [300; 7; 4294967295]) = Ok [300; 7; 4294967295] ∧
  unmarshalDocSections (marshalDocSections [DocSec 1 4; DocSec 9 200]) = Ok [DocSec 1 4; DocSec 9 200].
Proof.
  apply delta_codec_roundtrip;
    [repeat constructor; u32_unfold; lia|vm_compute; done|
     repeat constructor; u32_unfold; simpl; lia|vm_compute; done].
Defined.

Lemma ngram_pack_roundtrip_witness :
  ngramToRunes (runesToNGram (97, 8364, 65536)) = (97, 8364, 65536).
Proof. apply (ngram_pack_roundtrip (97, 8364, 65536) (1, 2, 3)); simpl; lia. Defined.

Lemma splitNGrams_spec_witness :
  splitNGrams (str "abcd") !! 1%nat = Some (RuneNgramOff (runesToNGram (98, 99, 100)) 3 1 3).
Proof. rewrite splitNGrams_spec by (vm_compute; done). vm_compute. done. Defined.

Lemma fromDeltas_truncated_diverges_witness : decodeDeltas 1000 [5; 200] 0 = OutOfFuel.
Proof.
  change (decodeDeltas 1000 [5; 200] 0)
    with (rest ← decodeDeltas 999 [200] 5; Ok (5 :: rest)).
  rewrite (fromDeltas_truncated_diverges [200] ltac:(done) eq_refl 999 5). done.
Defined.
