(* ===== verification/Api.v ===== *)
(** * api.go: the data exchanged between index, searcher and clients *)

From Stdlib Require Import SpecFloat.
From S2P Require Import Prelude GoStd.

(** Stats of a search. Durations ([Duration], [Wait]) are wall-clock readings
    and are left out; [Stats.Add] does not touch them either. *)
Record Stats := MkStats {
  ContentBytesLoaded : Z;
  IndexBytesLoaded : Z;
  Crashes : Z;
  FileCount : Z;
  ShardFilesConsidered : Z;
  FilesConsidered : Z;
  FilesLoaded : Z;
  FilesSkipped : Z;
  ShardsSkipped : Z;
  MatchCount : Z;
  NgramMatches : Z }.

Definition stats0 : Stats := MkStats 0 0 0 0 0 0 0 0 0 0 0.

Definition Stats_Add (s o : Stats) : Stats :=
  MkStats (ContentBytesLoaded s + ContentBytesLoaded o)
          (IndexBytesLoaded s + IndexBytesLoaded o)
          (Crashes s + Crashes o)
          (FileCount s + FileCount o)
          (ShardFilesConsidered s + ShardFilesConsidered o)
          (FilesConsidered s + FilesConsidered o)
          (FilesLoaded s + FilesLoaded o)
          (FilesSkipped s + FilesSkipped o)
          (ShardsSkipped s + ShardsSkipped o)
          (MatchCount s + MatchCount o)
          (NgramMatches s + NgramMatches o).

(** Updates of single counters. *)
Definition add_IndexBytesLoaded (n : Z) (s : Stats) : Stats :=
  Stats_Add s (MkStats 0 n 0 0 0 0 0 0 0 0 0).
Definition add_ContentBytesLoaded (n : Z) (s : Stats) : Stats :=
  Stats_Add s (MkStats n 0 0 0 0 0 0 0 0 0 0).
Definition add_FilesLoaded (n : Z) (s : Stats) : Stats :=
  Stats_Add s (MkStats 0 0 0 0 0 0 n 0 0 0 0).
Definition add_NgramMatches (n : Z) (s : Stats) : Stats :=
  Stats_Add s (MkStats 0 0 0 0 0 0 0 0 0 0 n).

Definition add_FilesConsidered (n : Z) (s : Stats) : Stats :=
  Stats_Add s (MkStats 0 0 0 0 0 n 0 0 0 0 0).
Definition add_FilesSkipped (n : Z) (s : Stats) : Stats :=
  Stats_Add s (MkStats 0 0 0 0 0 0 0 n 0 0 0).
Definition add_ShardsSkipped (n : Z) (s : Stats) : Stats :=
  Stats_Add s (MkStats 0 0 0 0 0 0 0 0 n 0 0).
Definition add_ShardFilesConsidered (n : Z) (s : Stats) : Stats :=
  Stats_Add s (MkStats 0 0 0 0 n 0 0 0 0 0 0).
Definition add_MatchCount (n : Z) (s : Stats) : Stats :=
  Stats_Add s (MkStats 0 0 0 0 0 0 0 0 0 n 0).
Definition add_FileCount (n : Z) (s : Stats) : Stats :=
  Stats_Add s (MkStats 0 0 0 n 0 0 0 0 0 0 0).
Definition add_Crashes (n : Z) (s : Stats) : Stats :=
  Stats_Add s (MkStats 0 0 n 0 0 0 0 0 0 0 0).

Lemma Stats_Add_comm s o : Stats_Add s o = Stats_Add o s.
Proof. unfold Stats_Add. f_equal; lia. Qed.
Lemma Stats_Add_assoc s o p : Stats_Add s (Stats_Add o p) = Stats_Add (Stats_Add s o) p.
Proof. unfold Stats_Add. simpl. f_equal; lia. Qed.
Lemma Stats_Add_0 s : Stats_Add s stats0 = s.
Proof. destruct s. unfold Stats_Add. simpl. f_equal; lia. Qed.

(** ** Repositories and index metadata *)

Record RepositoryBranch := MkBranch { br_Name : bytes; br_Version : bytes }.

(** [SubRepoMap] is [None] for a nil map. *)
Inductive Repository := MkRepository {
  r_Name : bytes;
  r_URL : bytes;
  r_Branches : list RepositoryBranch;
  r_SubRepoMap : option (gmap bytes Repository);
  r_CommitURLTemplate : bytes;
  r_FileURLTemplate : bytes;
  r_LineFragmentTemplate : bytes;
  r_RawConfig : gmap bytes bytes;
  r_Rank : Z }.

Definition repository0 : Repository := MkRepository [] [] [] None [] [] [] ∅ 0.
Definition set_SubRepoMap (r : Repository) (m : option (gmap bytes Repository)) : Repository :=
  MkRepository (r_Name r) (r_URL r) (r_Branches r) m (r_CommitURLTemplate r) (r_FileURLTemplate r)
    (r_LineFragmentTemplate r) (r_RawConfig r) (r_Rank r).

(** [IndexTime] is an instant in nanoseconds. *)
Record IndexMetadata := MkIndexMetadata {
  md_IndexFormatVersion : Z;
  md_IndexFeatureVersion : Z;
  md_IndexTime : Z;
  md_PlainASCII : bool;
  md_LanguageMap : gmap bytes Z;
  md_ZoektVersion : bytes }.

Record RepoStats := MkRepoStats {
  rs_Repos : Z;
  rs_Shards : Z;
  rs_Documents : Z;
  rs_IndexBytes : Z;
  rs_ContentBytes : Z }.

(** [Repos] is left alone: one repository may have several shards. *)
Definition RepoStats_Add (s o : RepoStats) : RepoStats :=
  MkRepoStats (rs_Repos s) (rs_Shards s + rs_Shards o) (rs_Documents s + rs_Documents o)
    (rs_IndexBytes s + rs_IndexBytes o) (rs_ContentBytes s + rs_ContentBytes o).

Record RepoListEntry := MkRepoListEntry {
  rle_Repository : Repository;
  rle_IndexMetadata : IndexMetadata;
  rle_Stats : RepoStats }.

Record RepoList := MkRepoList { rl_Repos : list RepoListEntry; rl_Crashes : Z }.

(** ** Options and results of a search *)

(** Scores are IEEE 754 binary64 numbers. *)
Abbreviation float64 := spec_float.
Definition fadd (x y : float64) : float64 := SFadd 53 1024 x y.
Definition fsub (x y : float64) : float64 := SFsub 53 1024 x y.
Definition fmul (x y : float64) : float64 := SFmul 53 1024 x y.
Definition fdiv (x y : float64) : float64 := SFdiv 53 1024 x y.
(** float64(n) for an integer. *)
Definition float_of_Z (n : Z) : float64 := binary_normalize 53 1024 n 0 false.
(** x > y *)
Definition fgt (x y : float64) : bool := SFltb y x.

(** [MaxWallTime] is in nanoseconds. *)
Record SearchOptions := MkSearchOptions {
  so_EstimateDocCount : bool;
  so_Whole : bool;
  so_ShardMaxMatchCount : Z;
  so_TotalMaxMatchCount : Z;
  so_ShardMaxImportantMatch : Z;
  so_TotalMaxImportantMatch : Z;
  so_MaxWallTime : Z;
  so_MaxDocDisplayCount : Z }.

Record LineFragmentMatch := MkLineFragment {
  lf_LineOffset : Z;
  lf_Offset : Z;
  lf_MatchLength : Z }.

Record LineMatch := MkLineMatch {
  lm_Line : bytes;
  lm_LineStart : Z;
  lm_LineEnd : Z;
  lm_LineNumber : Z;
  lm_FileName : bool;
  lm_Score : float64;
  lm_LineFragments : list LineFragmentMatch }.

(** [Debug], which only the verbose scoring of tests fills, is left out. *)
Record FileMatch := MkFileMatch {
  fm_Score : float64;
  fm_FileName : bytes;
  fm_Repository : bytes;
  fm_Branches : list bytes;
  fm_LineMatches : list LineMatch;
  fm_Content : bytes;
  fm_Checksum : bytes;
  fm_Language : bytes;
  fm_SubRepositoryName : bytes;
  fm_SubRepositoryPath : bytes;
  fm_Version : bytes }.

Record SearchResult := MkSearchResult {
  sr_Stats : Stats;
  sr_Files : list FileMatch;
  sr_RepoURLs : gmap bytes bytes;
  sr_LineFragments : gmap bytes bytes }.
