(* ===== verification/HitIter.v ===== *)
(** * hititer.go: iterators over candidate positions

    A hitIterator walks over the positions (in runes, over the concatenation of
    all documents) where a trigram may occur. The Go interface is the class
    [HitIterator]; [HitIteratorOk] is the contract its clients use, and every
    implementation discharges it. *)

From S2P Require Import Prelude GoStd Bits Api.
Import binary.

(** ** The interface *)

(** [first] may advance an iterator that has not been positioned yet, so it
    returns the new state. [it_size] bounds the number of remaining hits; only
    the model's loops use it. *)
Class HitIterator (I : Type) := {
  it_first : I → res (Z * I);
  it_next : I → Z → res I;
  it_updateStats : I → Stats → Stats;
  it_size : I → nat }.

(** ** inMemoryIterator *)

Record inMemoryIterator := InMemory { mem_postings : list Z; mem_what : ngram }.

Definition mem_first (i : inMemoryIterator) : Z :=
  match mem_postings i with
  | p :: _ => p
  | [] => maxUInt32
  end.

Fixpoint skip_upto (limit : Z) (postings : list Z) : list Z :=
  match postings with
  | p :: ps => if p <=? limit then skip_upto limit ps else postings
  | [] => []
  end.

Definition mem_next (i : inMemoryIterator) (limit : Z) : inMemoryIterator :=
  let postings := if limit =? maxUInt32 then [] else mem_postings i in
  InMemory (skip_upto limit postings) (mem_what i).

#[global] Instance mem_iter : HitIterator inMemoryIterator := {|
  it_first i := Ok (mem_first i, i);
  it_next i limit := Ok (mem_next i limit);
  it_updateStats i s := s;
  it_size i := length (mem_postings i) |}.

(** ** compressedPostingIterator *)

Record compressedPostingIterator := Compressed {
  c_blob : bytes;
  c_orig : bytes;
  c_first : Z;
  c_what : ngram }.

Definition newCompressedPostingIterator (b : bytes) (w : ngram) : res compressedPostingIterator :=
  let '(d, sz) := Uvarint b in
  blob ← slice_from b sz;
  Ok (Compressed blob b (u32 d) w).

(** [for i._first <= limit && len(i.blob) > 0]. *)
Fixpoint compressed_loop (fuel : nat) (limit first : Z) (blob : bytes) : res (Z * bytes) :=
  match fuel with
  | O => OutOfFuel
  | S k =>
    if (first <=? limit) && (0 <? lenZ blob) then
      let '(delta, sz) := Uvarint blob in
      blob ← slice_from blob sz;
      compressed_loop k limit (first ⊕ u32 delta) blob
    else Ok (first, blob)
  end.

Definition compressed_next (i : compressedPostingIterator) (limit : Z)
    : res compressedPostingIterator :=
  if limit =? maxUInt32 then Ok (Compressed [] (c_orig i) maxUInt32 (c_what i))
  else if (c_first i <=? limit) && (lenZ (c_blob i) =? 0) then
    Ok (Compressed (c_blob i) (c_orig i) maxUInt32 (c_what i))
  else
    '(first, blob) ← compressed_loop (S (length (c_blob i))) limit (c_first i) (c_blob i);
    Ok (Compressed blob (c_orig i) first (c_what i)).

#[global] Instance compressed_iter : HitIterator compressedPostingIterator := {|
  it_first i := Ok (c_first i, i);
  it_next := compressed_next;
  it_updateStats i s := add_IndexBytesLoaded (lenZ (c_orig i) - lenZ (c_blob i)) s;
  it_size i := S (length (c_blob i)) |}.

(** ** A value of the interface type

    A variable of type hitIterator holds one of several implementations. *)

#[global] Instance sum_iter {I J} `{HitIterator I, HitIterator J} : HitIterator (I + J) := {|
  it_first i :=
    match i with
    | inl j => '(p, j) ← it_first j; Ok (p, inl j)
    | inr j => '(p, j) ← it_first j; Ok (p, inr j)
    end;
  it_next i limit :=
    match i with
    | inl j => inl <$> it_next j limit
    | inr j => inr <$> it_next j limit
    end;
  it_updateStats i s :=
    match i with
    | inl j => it_updateStats j s
    | inr j => it_updateStats j s
    end;
  it_size i := match i with inl j => it_size j | inr j => it_size j end |}.

(** ** mergingIterator *)

Record mergingIterator (I : Type) := Merging { m_iters : list I }.
Arguments Merging {I} _.
Arguments m_iters {I} _.

Section Merging.
Context {I : Type} `{HitIterator I}.

Fixpoint merging_first_loop (iters : list I) (r : Z) : res (Z * list I) :=
  match iters with
  | [] => Ok (r, [])
  | j :: iters =>
    '(f, j) ← it_first j;
    '(r, iters) ← merging_first_loop iters (if f <? r then f else r);
    Ok (r, j :: iters)
  end.

Definition merging_first (i : mergingIterator I) : res (Z * mergingIterator I) :=
  '(r, iters) ← merging_first_loop (m_iters i) maxUInt32; Ok (r, Merging iters).

Fixpoint merging_next_loop (iters : list I) (limit : Z) : res (list I) :=
  match iters with
  | [] => Ok []
  | j :: iters =>
    j ← it_next j limit;
    iters ← merging_next_loop iters limit;
    Ok (j :: iters)
  end.

Definition merging_next (i : mergingIterator I) (limit : Z) : res (mergingIterator I) :=
  Merging <$> merging_next_loop (m_iters i) limit.

Definition merging_updateStats (i : mergingIterator I) (s : Stats) : Stats :=
  foldl (λ s j, it_updateStats j s) s (m_iters i).

#[global] Instance merging_iter : HitIterator (mergingIterator I) := {|
  it_first := merging_first;
  it_next := merging_next;
  it_updateStats := merging_updateStats;
  it_size i := sum_list (it_size <$> m_iters i) |}.

End Merging.

(** ** distanceHitIterator *)

Record distanceHitIterator (I : Type) := Distance {
  d_started : bool;
  d_distance : Z;
  d_i1 : I;
  d_i2 : I }.
Arguments Distance {I} _ _ _ _.
Arguments d_started {I} _.
Arguments d_distance {I} _.
Arguments d_i1 {I} _.
Arguments d_i2 {I} _.

Section Distance.
Context {I : Type} `{HitIterator I}.

Fixpoint findNext_loop (fuel : nat) (distance : Z) (i1 i2 : I) : res (I * I) :=
  match fuel with
  | O => OutOfFuel
  | S k =>
    '(p1, i1) ← it_first i1;
    '(p2, i2) ← it_first i2;
    if (p1 =? maxUInt32) || (p2 =? maxUInt32) then
      i1 ← it_next i1 maxUInt32; Ok (i1, i2)
    else if p1 ⊕ distance <? p2 then
      i1 ← it_next i1 (p2 ⊖ distance ⊖ 1); findNext_loop k distance i1 i2
    else if p2 <? p1 ⊕ distance then
      i2 ← it_next i2 (p1 ⊕ distance ⊖ 1); findNext_loop k distance i1 i2
    else Ok (i1, i2)
  end.

(** Every round drops a hit of one of the two iterators. *)
Definition findNext (i : distanceHitIterator I) : res (distanceHitIterator I) :=
  '(i1, i2) ← findNext_loop (S (it_size (d_i1 i) + it_size (d_i2 i)))
                (d_distance i) (d_i1 i) (d_i2 i);
  Ok (Distance (d_started i) (d_distance i) i1 i2).

Definition distance_first (i : distanceHitIterator I) : res (Z * distanceHitIterator I) :=
  i ← (if d_started i then Ok i
       else i ← findNext i; Ok (Distance true (d_distance i) (d_i1 i) (d_i2 i)));
  '(p, i1) ← it_first (d_i1 i);
  Ok (p, Distance (d_started i) (d_distance i) i1 (d_i2 i)).

Definition distance_next (i : distanceHitIterator I) (limit : Z) : res (distanceHitIterator I) :=
  i1 ← it_next (d_i1 i) limit;
  let l2 := limit ⊕ d_distance i in
  let l2 := if l2 <? limit then maxUInt32 else l2 in
  i2 ← it_next (d_i2 i) l2;
  findNext (Distance (d_started i) (d_distance i) i1 i2).

#[global] Instance distance_iter : HitIterator (distanceHitIterator I) := {|
  it_first := distance_first;
  it_next := distance_next;
  it_updateStats i s := it_updateStats (d_i2 i) (it_updateStats (d_i1 i) s);
  it_size i := it_size (d_i1 i) |}.

End Distance.

(** The iterators the index builds: a posting list in memory or on disk, one or
    several of them merged, and two of those at a distance. *)
Abbreviation postingIterator := (inMemoryIterator + compressedPostingIterator)%type.
Abbreviation trigramIterator := (postingIterator + mergingIterator postingIterator)%type.
Abbreviation hitIterator := (trigramIterator + distanceHitIterator trigramIterator)%type.

(** ** The contract *)

Definition increasing (l : list Z) : Prop := StronglySorted Z.lt l.
(** The hits that are left: increasing positions below the end marker. *)
Definition hitlist (l : list Z) : Prop :=
  increasing l ∧ Forall (λ x, 0 <= x < maxUInt32) l.
Definition head_or_max (l : list Z) : Z := hd maxUInt32 l.

(** What next(limit) does to the remaining hits. No hit past the limit is lost
    and none is invented; hits up to the limit may survive, but not the current
    one of an iterator that was positioned ([pos]) by first. *)
Definition advanced (limit : Z) (pos : bool) (l l' : list Z) : Prop :=
  (∀ x, x ∈ l' → x ∈ l) ∧
  (∀ x, x ∈ l → limit < x → x ∈ l') ∧
  (limit = maxUInt32 → l' = []) ∧
  (pos = true → ∀ x t, l = x :: t → x <= limit → x ∉ l').

(** [rep pos i l]: iterator [i] has the hits [l] left; [pos] says whether it is
    positioned on the first of them. *)
Class HitIteratorOk (I : Type) `{HitIterator I} := {
  rep : bool → I → list Z → Prop;
  rep_hitlist : ∀ pos i l, rep pos i l → hitlist l;
  rep_size : ∀ pos i l, rep pos i l → (length l <= it_size i)%nat;
  first_ok : ∀ pos i l, rep pos i l →
    ∃ i', it_first i = Ok (head_or_max l, i') ∧ rep true i' l;
  next_ok : ∀ pos i l limit, rep pos i l → is_u32 limit →
    ∃ i' l', it_next i limit = Ok i' ∧ rep true i' l' ∧ advanced limit pos l l' }.

(** The client loop [for p := i.first(); p != maxUInt32 { ...; i.next(p) }]. *)
Fixpoint drain {I} `{HitIterator I} (fuel : nat) (i : I) : res (list Z) :=
  match fuel with
  | O => OutOfFuel
  | S k =>
    '(p, i) ← it_first i;
    if p =? maxUInt32 then Ok []
    else i ← it_next i p; ps ← drain k i; Ok (p :: ps)
  end.

(** ** Increasing lists *)

Lemma increasing_NoDup l : increasing l → NoDup l.
Proof.
  induction 1 as [|x l _ IH Hx]; constructor; [|done].
  intros Hin. rewrite Forall_forall in Hx. specialize (Hx x Hin). lia.
Qed.

Lemma increasing_cons x l : increasing (x :: l) ↔ increasing l ∧ Forall (Z.lt x) l.
Proof. split; [apply StronglySorted_inv|]. intros []. by constructor. Qed.

(** Two increasing lists with the same elements are equal. *)
Lemma increasing_ext l k : increasing l → increasing k → (∀ x, x ∈ l ↔ x ∈ k) → l = k.
Proof.
  revert k. induction l as [|x l IH]; intros k Hl Hk He.
  { destruct k as [|y k]; [done|].
    destruct (not_elem_of_nil y). apply He. constructor. }
  destruct k as [|y k]; [destruct (not_elem_of_nil x); apply He; constructor|].
  apply increasing_cons in Hl as [Hl Hx], Hk as [Hk Hy].
  rewrite Forall_forall in Hx, Hy.
  assert (x = y) as ->.
  { assert (x ∈ y :: k) as [?|?]%elem_of_cons by (apply He; constructor); [done|].
    assert (y ∈ x :: l) as [?|?]%elem_of_cons by (apply He; constructor); [done|].
    specialize (Hx y ltac:(done)). specialize (Hy x ltac:(done)). lia. }
  f_equal. apply IH; [done..|]. intros z.
  specialize (He z). rewrite !elem_of_cons in He.
  split; intros Hz; [specialize (Hx z Hz)|specialize (Hy z Hz)]; naive_solver lia.
Qed.

Lemma hitlist_nil : hitlist [].
Proof. split; constructor. Qed.

Lemma hitlist_cons x l : hitlist (x :: l) ↔
  0 <= x < maxUInt32 ∧ Forall (Z.lt x) l ∧ hitlist l.
Proof. unfold hitlist. rewrite increasing_cons, Forall_cons. naive_solver. Qed.

Lemma Forall_sublist_of {A} (P : A → Prop) (l k : list A) :
  Forall P l → k `sublist_of` l → Forall P k.
Proof. rewrite !Forall_forall. intros Hl Hk x Hx. apply Hl. by eapply elem_of_sublist. Qed.

Lemma hitlist_sublist l k : hitlist l → k `sublist_of` l → hitlist k.
Proof.
  intros [Hs Hb] Hk. split.
  - revert Hs. clear Hb. unfold increasing. induction Hk as [|x k l Hk IH|x k l Hk IH]; intros Hs; [done|..].
    + apply StronglySorted_inv in Hs as [Hs Hx]. constructor; [auto|].
      by eapply Forall_sublist_of.
    + apply StronglySorted_inv in Hs as [Hs _]. auto.
  - by eapply Forall_sublist_of.
Qed.

(** [m] is the smallest element of a hit list, or the end marker. *)
Definition least (l : list Z) (m : Z) : Prop :=
  m <= maxUInt32 ∧ (∀ x, x ∈ l → m <= x) ∧ (m ∈ l ∨ m = maxUInt32).

Lemma head_least l : hitlist l → least l (head_or_max l).
Proof.
  intros Hl. destruct l as [|x l]; unfold least, head_or_max; simpl.
  - split_and!; [lia|by intros ? ?%elem_of_nil|by right].
  - apply hitlist_cons in Hl as (Hx & Hlt & _). rewrite Forall_forall in Hlt.
    split_and!; [lia| |left; constructor].
    intros y [->|Hy]%elem_of_cons; [lia|]. specialize (Hlt y Hy). lia.
Qed.

Lemma least_unique l m m' : Forall (λ x, 0 <= x < maxUInt32) l → least l m → least l m' → m = m'.
Proof.
  intros Hb (H1 & H2 & H3) (H1' & H2' & H3'). rewrite Forall_forall in Hb.
  destruct H3 as [H3|H3], H3' as [H3'|H3'].
  - specialize (H2 _ H3'). specialize (H2' _ H3). lia.
  - specialize (H2' _ H3). specialize (Hb _ H3). lia.
  - specialize (H2 _ H3'). specialize (Hb _ H3'). lia.
  - lia.
Qed.

(** The increasing list with the elements of a given list. *)
Definition sorted_set (l : list Z) : list Z := merge_sort Z.le (remove_dups l).

Lemma elem_of_sorted_set x l : x ∈ sorted_set l ↔ x ∈ l.
Proof. unfold sorted_set. by rewrite merge_sort_Permutation, elem_of_remove_dups. Qed.

Lemma sorted_set_increasing l : increasing (sorted_set l).
Proof.
  assert (StronglySorted Z.le (sorted_set l)) as Hs.
  { apply StronglySorted_merge_sort; apply _. }
  assert (NoDup (sorted_set l)) as Hd.
  { unfold sorted_set. rewrite merge_sort_Permutation. apply NoDup_remove_dups. }
  unfold increasing. induction Hs as [|x k _ IH Hx]; [constructor|].
  apply NoDup_cons in Hd as [Hnx Hd]. constructor; [auto|].
  rewrite Forall_forall in *. intros y Hy. specialize (Hx y Hy).
  assert (x ≠ y) by (by intros ->). lia.
Qed.

Lemma length_remove_dups (l : list Z) : (length (remove_dups l) <= length l)%nat.
Proof. induction l as [|x l IH]; simpl; [lia|]. case_decide; simpl; lia. Qed.
Lemma length_sorted_set l : (length (sorted_set l) <= length l)%nat.
Proof. unfold sorted_set. rewrite merge_sort_Permutation. apply length_remove_dups. Qed.

Lemma sorted_set_hitlist l : Forall (λ x, 0 <= x < maxUInt32) l → hitlist (sorted_set l).
Proof.
  rewrite Forall_forall. intros Hl. split; [apply sorted_set_increasing|].
  apply Forall_forall. intros x Hx. rewrite elem_of_sorted_set in Hx. by apply Hl.
Qed.

(** ** Posting lists *)

Lemma skip_upto_spec limit l :
  hitlist l → hitlist (skip_upto limit l) ∧
  (∀ x, x ∈ skip_upto limit l ↔ x ∈ l ∧ limit < x) ∧
  (length (skip_upto limit l) <= length l)%nat.
Proof.
  induction l as [|p l IH]; intros Hl; simpl.
  { split_and!; [done| |lia]. intros x. rewrite elem_of_nil. naive_solver. }
  pose proof Hl as (Hp & Hlt & Hl')%hitlist_cons. rewrite Forall_forall in Hlt.
  destruct (Z.leb_spec p limit).
  - destruct (IH Hl') as (? & Hin & ?). split_and!; [done| |lia].
    intros x. rewrite Hin, elem_of_cons. naive_solver lia.
  - split_and!; [done| |simpl; lia]. intros x. split; [|naive_solver].
    intros Hx. split; [done|]. apply elem_of_cons in Hx as [->|Hx]; [lia|].
    specialize (Hlt x Hx). lia.
Qed.

Lemma advanced_skip limit pos l k :
  (∀ x, x ∈ k ↔ x ∈ l ∧ limit < x) → hitlist l → advanced limit pos l k.
Proof.
  intros Hk [_ Hb]. rewrite Forall_forall in Hb. split_and!.
  - naive_solver.
  - naive_solver.
  - intros ->. destruct k as [|x k]; [done|].
    destruct (proj1 (Hk x)) as [Hx ?]; [constructor|]. specialize (Hb x Hx). lia.
  - intros _ x t -> Hx Hin. apply Hk in Hin as [_ ?]. lia.
Qed.

#[global] Program Instance mem_iter_ok : HitIteratorOk inMemoryIterator := {|
  rep _ i l := hitlist l ∧ mem_postings i = l |}.
Next Obligation. by intros _ i l []. Qed.
Next Obligation. by intros _ i l [_ <-]. Qed.
Next Obligation.
  intros _ i l [Hl <-]. exists i. split; [|done]. simpl. unfold mem_first, head_or_max.
  by destruct (mem_postings i).
Qed.
Next Obligation.
  intros pos i l limit [Hl <-] Hu. simpl.
  set (ps := if limit =? maxUInt32 then [] else mem_postings i).
  assert (hitlist ps) as Hps by (unfold ps; case_match; [apply hitlist_nil|done]).
  destruct (skip_upto_spec limit ps Hps) as (Hs & Hin & _).
  eexists _, (skip_upto limit ps). split_and!; [done|done|done|].
  apply advanced_skip; [|done]. intros x. rewrite Hin. unfold ps.
  destruct (Z.eqb_spec limit maxUInt32) as [->|]; [|done].
  rewrite elem_of_nil. destruct Hl as [_ Hb]. rewrite Forall_forall in Hb.
  split; [naive_solver|]. intros [Hx ?]. specialize (Hb x Hx). lia.
Qed.

(** A compressed iterator holds its first hit decoded and the others as deltas. *)
Definition compressed_rep (i : compressedPostingIterator) (l : list Z) : Prop :=
  hitlist l ∧
  match l with
  | [] => c_first i = maxUInt32 ∧ c_blob i = []
  | x :: t => c_first i = x ∧ c_blob i = encodeDeltas x t
  end.

Lemma hitlist_u32 l : hitlist l → Forall is_u32 l.
Proof. intros [_ Hb]. eapply Forall_impl; [done|]. intros x ?. simpl in *. u32_unfold. lia. Qed.

Lemma newCompressed_rep b w x t :
  hitlist (x :: t) → b = encodeDeltas 0 (x :: t) →
  ∃ i, newCompressedPostingIterator b w = Ok i ∧ compressed_rep i (x :: t).
Proof.
  intros Hl ->. pose proof (hitlist_u32 _ Hl) as [Hx _]%Forall_cons.
  unfold newCompressedPostingIterator. cbn [encodeDeltas].
  rewrite Z.sub_0_r, (u32_id x) by done.
  rewrite Uvarint_Put by (u32_unfold; lia). rewrite slice_from_app. simpl.
  eexists. split; [done|]. split; [done|]. simpl. by rewrite u32_id.
Qed.

(** One round of the decoding loop. *)
Lemma Uvarint_encodeDeltas x y t :
  is_u32 y →
  Uvarint (encodeDeltas x (y :: t)) = (y ⊖ x, lenZ (PutUvarint (y ⊖ x))) ∧
  slice_from (encodeDeltas x (y :: t)) (lenZ (PutUvarint (y ⊖ x))) = Ok (encodeDeltas y t) ∧
  x ⊕ u32 (y ⊖ x) = y ∧
  (length (encodeDeltas y t) < length (encodeDeltas x (y :: t)))%nat ∧
  0 < lenZ (encodeDeltas x (y :: t)).
Proof.
  intros Hy. cbn [encodeDeltas]. pose proof (u32_range (y - x)) as Hr.
  pose proof (PutUvarint_u32_len _ Hr).
  split_and!.
  - apply Uvarint_Put. u32_unfold. lia.
  - apply slice_from_app.
  - by rewrite (u32_id (y ⊖ x)), u32_add_sub.
  - rewrite length_app. lia.
  - rewrite lenZ_app. unfold lenZ. lia.
Qed.

Lemma compressed_loop_spec fuel limit x t :
  hitlist (x :: t) → (length (encodeDeltas x t) < fuel)%nat →
  ∃ y k, compressed_loop fuel limit x (encodeDeltas x t) = Ok (y, encodeDeltas y k) ∧
    (y :: k) `suffix_of` (x :: t) ∧
    (∀ z, z ∈ x :: t → limit < z → z ∈ y :: k) ∧
    (t ≠ [] → x <= limit → x ∉ y :: k).
Proof.
  revert fuel x. induction t as [|x' t IH]; intros [|fuel] x Hl Hf; [lia| |lia|];
    pose proof Hl as (Hx & Hlt & Hl')%hitlist_cons; cbn [compressed_loop].
  { exists x, []. replace ((x <=? limit) && (0 <? lenZ (encodeDeltas x []))) with false
      by (by rewrite andb_false_r).
    split_and!; done. }
  pose proof Hl' as (Hx' & Hlt' & _)%hitlist_cons.
  pose proof (Forall_inv Hlt) as Hxx'. simpl in Hxx'.
  assert (is_u32 x') as Hu by (u32_unfold; lia).
  destruct (Uvarint_encodeDeltas x x' t Hu) as (E1 & E2 & E3 & E4 & E5).
  destruct (Z.leb_spec x limit).
  - destruct (Z.ltb_spec 0 (lenZ (encodeDeltas x (x' :: t)))); [|lia]. cbn [andb].
    rewrite E1, E2. cbn [mbind res_bind]. rewrite E3.
    destruct (IH fuel x' Hl') as (y & k & -> & Hsuf & Hkeep & _); [lia|].
    assert (x ∉ y :: k) as Hxn.
    { intros Hin. assert (x ∈ x' :: t) as Hin' by (by eapply elem_of_suffix).
      rewrite Forall_forall in Hlt. specialize (Hlt x Hin'). lia. }
    exists y, k. split_and!; [done|by apply suffix_cons_r| |done].
    intros z [->|Hz]%elem_of_cons Hlz; [lia|]. auto.
  - exists x, (x' :: t). split_and!; [done|done|done|lia].
Qed.

Lemma advanced_nil limit pos l : (∀ x, x ∈ l → x <= limit) → advanced limit pos l [].
Proof.
  intros Hl. split_and!; [by intros ? ?%elem_of_nil| |done|by intros ????? ?%elem_of_nil].
  intros x Hx ?. specialize (Hl x Hx). lia.
Qed.

Lemma compressed_rep_nil i : c_first i = maxUInt32 → c_blob i = [] → compressed_rep i [].
Proof. intros. split; [apply hitlist_nil|done]. Qed.

Lemma compressed_next_ok pos i l limit :
  compressed_rep i l → is_u32 limit →
  ∃ i' l', compressed_next i limit = Ok i' ∧ compressed_rep i' l' ∧ advanced limit pos l l'.
Proof.
  intros [Hl Hi] Hu. pose proof Hl as [_ Hb]. rewrite Forall_forall in Hb.
  unfold compressed_next. destruct (Z.eqb_spec limit maxUInt32) as [->|Hne].
  { eexists _, []. split_and!; [done|by apply compressed_rep_nil|].
    apply advanced_nil. intros x Hx. specialize (Hb x Hx). lia. }
  destruct l as [|x t].
  { destruct Hi as [Hf Hbl]. rewrite Hf, Hbl.
    assert ((maxUInt32 <=? limit) = false) as E by (apply Z.leb_gt; u32_unfold; lia).
    rewrite E. cbn [andb length compressed_loop]. rewrite E. simpl.
    eexists _, []. split_and!; [done|by apply compressed_rep_nil|].
    apply advanced_nil. by intros ? ?%elem_of_nil. }
  destruct Hi as [-> ->].
  destruct (decide (t = [] ∧ x <= limit)) as [[-> Hx]|Hnot].
  { cbn [encodeDeltas]. destruct (Z.leb_spec x limit); [|lia].
    change (lenZ [] =? 0) with true. cbn [andb].
    eexists _, []. split_and!; [done|by apply compressed_rep_nil|].
    apply advanced_nil. intros y Hy. apply list_elem_of_singleton in Hy. lia. }
  replace ((x <=? limit) && (lenZ (encodeDeltas x t) =? 0)) with false.
  2:{ symmetry. apply andb_false_iff. destruct (Z.leb_spec x limit); [right|by left].
      destruct t as [|y t]; [naive_solver|]. apply Z.eqb_neq.
      pose proof (encodeDeltas_nonempty x y t). unfold lenZ.
      destruct (encodeDeltas x (y :: t)); [done|]. simpl. lia. }
  destruct (compressed_loop_spec (S (length (encodeDeltas x t))) limit x t Hl)
    as (y & k & -> & Hsuf & Hkeep & Hdrop); [lia|]. cbn [mbind res_bind].
  eexists _, (y :: k). split; [done|]. split; [split; [|done]|split_and!; [|done|done|]].
  - eapply hitlist_sublist; [done|]. destruct Hsuf as [k' ->]. by apply sublist_inserts_l.
  - intros z Hz. by eapply elem_of_suffix.
  - intros _ z t' [= -> ->] Hz. destruct t' as [|z' t']; [naive_solver|]. by apply Hdrop.
Qed.

#[global] Program Instance compressed_iter_ok : HitIteratorOk compressedPostingIterator := {|
  rep _ i l := compressed_rep i l |}.
Next Obligation. by intros _ i l []. Qed.
Next Obligation.
  intros _ i [|x t] [Hl Hi]; simpl; [lia|]. destruct Hi as [_ ->].
  pose proof (length_encodeDeltas x t). lia.
Qed.
Next Obligation.
  intros _ i l [Hl Hi]. exists i. split; [|done]. simpl. destruct l; by destruct Hi as [-> _].
Qed.
Next Obligation. intros. by apply compressed_next_ok. Qed.

(** ** Interface values *)

Section SumOk.
Context {I J : Type} `{HitIteratorOk I, HitIteratorOk J}.
#[global] Program Instance sum_iter_ok : HitIteratorOk (I + J) := {|
  rep pos i l := match i with inl j => rep pos j l | inr j => rep pos j l end |}.
Next Obligation. intros pos [i|i] l Hr; exact (rep_hitlist pos i l Hr). Qed.
Next Obligation. intros pos [i|i] l Hr; exact (rep_size pos i l Hr). Qed.
Next Obligation.
  intros pos [i|i] l Hr; destruct (first_ok pos i l Hr) as (i' & Hf & Hr');
    [exists (inl i')|exists (inr i')]; simpl; by rewrite Hf.
Qed.
Next Obligation.
  intros pos [i|i] l limit Hr Hu; destruct (next_ok pos i l limit Hr Hu) as (i' & l' & Hn & Hr' & Ha);
    [exists (inl i'), l'|exists (inr i'), l']; simpl; by rewrite Hn.
Qed.
End SumOk.

(** ** Merging *)

Section MergingOk.
Context {I : Type} `{HitIteratorOk I}.

Lemma Forall2_rep_bounds pos (its : list I) ls :
  Forall2 (rep pos) its ls → Forall (λ x, 0 <= x < maxUInt32) (mjoin ls).
Proof.
  induction 1 as [|i l its ls Hr _ IH]; [constructor|]. simpl. apply Forall_app_2; [|done].
  by destruct (rep_hitlist _ _ _ Hr).
Qed.

Lemma merging_first_loop_spec pos (its : list I) ls r :
  Forall2 (rep pos) its ls → r <= maxUInt32 →
  ∃ its' m, merging_first_loop its r = Ok (m, its') ∧ Forall2 (rep true) its' ls ∧
    m <= r ∧ (∀ x, x ∈ mjoin ls → m <= x) ∧ (m ∈ mjoin ls ∨ m = r).
Proof.
  intros Hr. revert r. induction Hr as [|i l its ls Hi _ IH]; intros r Hle; cbn [merging_first_loop].
  { exists [], r. split_and!; [done|constructor|lia|by intros ? ?%elem_of_nil|by right]. }
  destruct (first_ok _ _ _ Hi) as (i' & -> & Hi'). cbn [mbind res_bind].
  destruct (head_least l (rep_hitlist _ _ _ Hi)) as (Hm1 & Hm2 & Hm3).
  set (h := head_or_max l) in *. set (r' := if h <? r then h else r).
  assert (r' = Z.min h r) as Hr' by (unfold r'; destruct (Z.ltb_spec h r); lia).
  destruct (IH r') as (its' & m & -> & Hits & Hmr & Hmin & Hm); [lia|]. cbn [mbind res_bind].
  exists (i' :: its'), m. split_and!; [done|by constructor|lia| |].
  - intros x. cbn [mjoin list_join]. rewrite elem_of_app. intros [Hx|Hx]; [|by apply Hmin].
    specialize (Hm2 x Hx). lia.
  - cbn [mjoin list_join]. rewrite elem_of_app. destruct Hm as [Hm|Hm]; [by left; right|].
    destruct (decide (h < r)).
    + assert (m = h) as -> by lia. destruct Hm3 as [|]; [by left; left|lia].
    + right. lia.
Qed.

Lemma merging_next_loop_spec pos (its : list I) ls limit :
  Forall2 (rep pos) its ls → is_u32 limit →
  ∃ its' ls', merging_next_loop its limit = Ok its' ∧ Forall2 (rep true) its' ls' ∧
    Forall2 (advanced limit pos) ls ls'.
Proof.
  intros Hr Hu. induction Hr as [|i l its ls Hi _ (its' & ls' & E & Hr' & Ha)]; cbn [merging_next_loop].
  { by exists [], []. }
  destruct (next_ok _ _ _ limit Hi Hu) as (i' & l' & -> & Hi' & Hl'). cbn [mbind res_bind].
  rewrite E. cbn [mbind res_bind]. exists (i' :: its'), (l' :: ls').
  split_and!; [done|by constructor|by constructor].
Qed.

#[global] Program Instance merging_iter_ok : HitIteratorOk (mergingIterator I) := {|
  rep pos i l := ∃ ls, Forall2 (rep pos) (m_iters i) ls ∧ l = sorted_set (mjoin ls) |}.
Next Obligation.
  intros pos i l (ls & Hr & ->). apply sorted_set_hitlist. by eapply Forall2_rep_bounds.
Qed.
Next Obligation.
  intros pos [its] l (ls & Hr & ->). simpl in *.
  etrans; [apply length_sorted_set|].
  induction Hr as [|i l its ls Hi _ IH]; simpl; [lia|].
  rewrite length_app. pose proof (rep_size _ _ _ Hi). unfold fmap in *. lia.
Qed.
Next Obligation.
  intros pos [its] l (ls & Hr & ->). simpl in Hr.
  destruct (merging_first_loop_spec pos its ls maxUInt32 Hr ltac:(lia))
    as (its' & m & E & Hr' & Hm1 & Hm2 & Hm3).
  exists (Merging its'). split; [|by exists ls].
  unfold it_first, merging_iter, merging_first. simpl. rewrite E. simpl. do 2 f_equal.
  pose proof (Forall2_rep_bounds _ _ _ Hr) as Hb.
  eapply least_unique; [by apply sorted_set_hitlist| |by apply head_least, sorted_set_hitlist].
  split_and!; [done|intros x; rewrite elem_of_sorted_set; apply Hm2|by rewrite elem_of_sorted_set].
Qed.
Next Obligation.
  intros pos [its] l limit (ls & Hr & ->) Hu. simpl in Hr.
  destruct (merging_next_loop_spec pos its ls limit Hr Hu) as (its' & ls' & E & Hr' & Ha).
  exists (Merging its'), (sorted_set (mjoin ls')).
  split; [by unfold it_next, merging_iter, merging_next; simpl; rewrite E|].
  split; [by exists ls'|split_and!].
  - intros x. rewrite !elem_of_sorted_set. clear -Ha.
    induction Ha as [|l l' ls ls' Hl _ IH]; simpl; [done|]. rewrite !elem_of_app.
    destruct Hl as (Hsub & _). naive_solver.
  - intros x. rewrite !elem_of_sorted_set. clear -Ha. intros Hx Hlt.
    induction Ha as [|l l' ls ls' Hl _ IH]; simpl in *; [done|]. rewrite elem_of_app in *.
    destruct Hl as (_ & Hkeep & _). naive_solver.
  - intros ->. clear -Ha. assert (mjoin ls' = []) as ->; [|done].
    induction Ha as [|l l' ls ls' Hl _ IH]; simpl; [done|].
    destruct Hl as (_ & _ & Hmax & _). by rewrite IH, Hmax.
  - intros -> x t Hxt Hx. rewrite elem_of_sorted_set.
    assert (hitlist (x :: t)) as (_ & Hmin & _)%hitlist_cons.
    { rewrite <- Hxt. apply sorted_set_hitlist. by eapply Forall2_rep_bounds. }
    assert (∀ y, y ∈ mjoin ls → x <= y) as Hle.
    { intros y Hy. rewrite <- elem_of_sorted_set, Hxt in Hy.
      rewrite Forall_forall in Hmin. apply elem_of_cons in Hy as [->|Hy]; [lia|].
      specialize (Hmin y Hy). lia. }
    clear Hxt Hmin. revert Hle. clear -Hr Ha Hx H0. 
    revert its Hr. induction Ha as [|l l' ls ls' Hl _ IH]; intros its Hr Hle; simpl; [apply not_elem_of_nil|].
    apply Forall2_cons_inv_r in Hr as (i & its0 & Hi & Hr & ->).
    rewrite elem_of_app. intros [Hin|Hin].
    + destruct Hl as (Hsub & _ & _ & Hdrop).
      destruct l as [|y l]; [by apply Hsub, elem_of_nil in Hin|].
      pose proof (rep_hitlist _ _ _ Hi) as (_ & Hlt & _)%hitlist_cons.
      assert (x = y) as ->.
      { assert (x <= y) by (apply Hle; simpl; by left).
        apply Hsub, elem_of_cons in Hin as [|Hin]; [done|].
        rewrite Forall_forall in Hlt. specialize (Hlt x Hin). lia. }
      by apply (Hdrop eq_refl y l).
    + revert Hin. apply (IH its0); [done|]. intros y Hy. apply Hle. simpl. by apply elem_of_app; right.
Qed.
End MergingOk.

(** ** Hits at a fixed distance *)

Definition dist (d : Z) (l1 l2 : list Z) : list Z := filter (λ p, p + d ∈ l2) l1.

(** Both iterators stand on a matching pair, or the first is exhausted. *)
Definition aligned (d : Z) (l1 l2 : list Z) : Prop :=
  l1 = [] ∨ ∃ p t1 t2, l1 = p :: t1 ∧ l2 = p + d :: t2.

Lemma elem_of_dist d l1 l2 x : x ∈ dist d l1 l2 ↔ x ∈ l1 ∧ x + d ∈ l2.
Proof. unfold dist. rewrite list_elem_of_filter. naive_solver. Qed.

Lemma dist_sublist d l1 l2 : dist d l1 l2 `sublist_of` l1.
Proof. apply sublist_filter. Qed.

Lemma dist_ext d l1 l2 k1 k2 :
  hitlist l1 → hitlist k1 →
  (∀ x, x ∈ l1 ∧ x + d ∈ l2 ↔ x ∈ k1 ∧ x + d ∈ k2) → dist d l1 l2 = dist d k1 k2.
Proof.
  intros Hl Hk He. apply increasing_ext.
  - eapply hitlist_sublist; [exact Hl|apply dist_sublist].
  - eapply hitlist_sublist; [exact Hk|apply dist_sublist].
  - intros x. by rewrite !elem_of_dist.
Qed.

Lemma dist_nil_r d l : dist d l [] = [].
Proof.
  unfold dist. induction l as [|x l IH]; [done|].
  rewrite filter_cons_False; [done|apply not_elem_of_nil].
Qed.

Lemma aligned_head d l1 l2 : aligned d l1 l2 → head_or_max (dist d l1 l2) = head_or_max l1.
Proof.
  intros [->|(p & t1 & t2 & -> & ->)]; [done|].
  unfold dist. rewrite filter_cons_True; [done|constructor].
Qed.

Lemma hitlist_head_le x l y : hitlist (x :: l) → y ∈ x :: l → x <= y.
Proof.
  intros (_ & Hlt & _)%hitlist_cons [->|Hy]%elem_of_cons; [lia|].
  rewrite Forall_forall in Hlt. specialize (Hlt y Hy). lia.
Qed.

Lemma advanced_shorter limit x t l' :
  advanced limit true (x :: t) l' → hitlist l' → x <= limit → (length l' < length (x :: t))%nat.
Proof.
  intros (Hsub & _ & _ & Hdrop) [Hinc _] Hx. specialize (Hdrop eq_refl x t eq_refl Hx).
  simpl. enough (length l' <= length t)%nat by lia.
  apply submseteq_length, NoDup_submseteq; [by apply increasing_NoDup|].
  intros y Hy. pose proof (Hsub y Hy) as [->|]%elem_of_cons; done.
Qed.

Section DistanceOk.
Context {I : Type} `{HitIteratorOk I}.

(** The state of findNext: what it must keep while it advances. *)
Definition dist_state (d : Z) (pos1 pos2 : bool) (i1 i2 : I) (l1 l2 : list Z) : Prop :=
  rep pos1 i1 l1 ∧ rep pos2 i2 l2 ∧ Forall (λ p, p + d < maxUInt32) l1.

(** Shortening either list without losing a pair. *)
Lemma dist_advance_l d l1 l2 l1' p1 t1 p2 t2 :
  hitlist l1 → hitlist l2 → hitlist l1' → l1 = p1 :: t1 → l2 = p2 :: t2 → p1 + d < p2 →
  advanced (p2 - d - 1) true l1 l1' →
  dist d l1' l2 = dist d l1 l2 ∧ (length l1' < length l1)%nat.
Proof.
  intros H1 H2 H1' -> -> Hlt Ha. split.
  - apply dist_ext; [done..|]. intros x. destruct Ha as (Hsub & Hkeep & _).
    split; [naive_solver|]. intros [Hx Hxd]. split; [|done].
    pose proof (hitlist_head_le _ _ _ H2 Hxd). apply Hkeep; [done|lia].
  - eapply advanced_shorter; [done|done|lia].
Qed.

Lemma dist_advance_r d l1 l2 l2' p1 t1 p2 t2 :
  hitlist l1 → hitlist l2' → l1 = p1 :: t1 → l2 = p2 :: t2 → p2 < p1 + d →
  advanced (p1 + d - 1) true l2 l2' →
  dist d l1 l2' = dist d l1 l2 ∧ (length l2' < length l2)%nat.
Proof.
  intros H1 H2' -> -> Hlt Ha. split.
  - apply dist_ext; [done..|]. intros x. destruct Ha as (Hsub & Hkeep & _).
    split; [naive_solver|]. intros [Hx Hxd]. split; [done|].
    pose proof (hitlist_head_le _ _ _ H1 Hx). apply Hkeep; [done|lia].
  - eapply advanced_shorter; [done|done|lia].
Qed.

Lemma findNext_loop_spec fuel d pos1 pos2 i1 i2 l1 l2 :
  0 < d < maxUInt32 → dist_state d pos1 pos2 i1 i2 l1 l2 →
  (length l1 + length l2 < fuel)%nat →
  ∃ i1' i2' l1' l2', findNext_loop fuel d i1 i2 = Ok (i1', i2') ∧
    dist_state d true true i1' i2' l1' l2' ∧ aligned d l1' l2' ∧ dist d l1' l2' = dist d l1 l2.
Proof.
  intros Hd. revert pos1 pos2 i1 i2 l1 l2.
  induction fuel as [|fuel IH]; intros pos1 pos2 i1 i2 l1 l2 (Hr1 & Hr2 & Hb) Hf; [lia|].
  cbn [findNext_loop].
  destruct (first_ok _ _ _ Hr1) as (j1 & -> & Hj1), (first_ok _ _ _ Hr2) as (j2 & -> & Hj2).
  cbn [mbind res_bind].
  pose proof (rep_hitlist _ _ _ Hr1) as Hl1. pose proof (rep_hitlist _ _ _ Hr2) as Hl2.
  destruct ((head_or_max l1 =? maxUInt32) || (head_or_max l2 =? maxUInt32)) eqn:Emax.
  - destruct (next_ok _ _ _ maxUInt32 Hj1 ltac:(u32_unfold; lia)) as (j1' & l1' & -> & Hj1' & Ha).
    destruct Ha as (_ & _ & Hmax & _). rewrite (Hmax eq_refl) in *.
    exists j1', j2, [], l2. split; [done|]. split; [by split_and!; [| |constructor]|].
    split; [by left|].
    destruct l1 as [|p1 t1]; [done|]. destruct l2 as [|p2 t2]; [by rewrite !dist_nil_r|].
    apply hitlist_cons in Hl1 as (? & _), Hl2 as (? & _).
    apply orb_true_iff in Emax as [E|E]; apply Z.eqb_eq in E; simpl in E; lia.
  - apply orb_false_iff in Emax as [E1 E2]. apply Z.eqb_neq in E1, E2.
    destruct l1 as [|p1 t1]; [done|]. destruct l2 as [|p2 t2]; [done|].
    simpl head_or_max in *.
    pose proof Hl1 as (Hp1 & _)%hitlist_cons. pose proof Hl2 as (Hp2 & _)%hitlist_cons.
    pose proof (Forall_inv Hb) as Hp1d. simpl in Hp1d.
    rewrite !(u32_id (p1 + d)) by (u32_unfold; lia).
    destruct (Z.ltb_spec (p1 + d) p2).
    + rewrite (u32_id (p2 - d)), (u32_id (p2 - d - 1)) by (u32_unfold; lia).
      destruct (next_ok _ _ _ (p2 - d - 1) Hj1 ltac:(u32_unfold; lia)) as (j1' & l1' & -> & Hj1' & Ha).
      cbn [mbind res_bind].
      destruct (dist_advance_l d (p1 :: t1) (p2 :: t2) l1' p1 t1 p2 t2) as [Hdist Hlen]; try done.
      { by eapply rep_hitlist. }
      destruct (IH true true j1' j2 l1' (p2 :: t2)) as (i1' & i2' & k1 & k2 & E & Hk & Hal & Hdk); [|lia|].
      { split_and!; [done|done|]. rewrite Forall_forall in *. intros x Hx. apply Hb. by apply Ha. }
      exists i1', i2', k1, k2. by rewrite Hdk.
    + destruct (Z.ltb_spec p2 (p1 + d)).
      * rewrite (u32_id (p1 + d - 1)) by (u32_unfold; lia).
        destruct (next_ok _ _ _ (p1 + d - 1) Hj2 ltac:(u32_unfold; lia)) as (j2' & l2' & -> & Hj2' & Ha).
        cbn [mbind res_bind].
        destruct (dist_advance_r d (p1 :: t1) (p2 :: t2) l2' p1 t1 p2 t2) as [Hdist Hlen]; try done.
        { by eapply rep_hitlist. }
        destruct (IH true true j1 j2' (p1 :: t1) l2') as (i1' & i2' & k1 & k2 & E & Hk & Hal & Hdk);
          [done|lia|].
        exists i1', i2', k1, k2. by rewrite Hdk.
      * exists j1, j2, (p1 :: t1), (p2 :: t2). split; [done|]. split; [done|]. split; [|done].
        right. exists p1, t1, t2. split; [done|]. f_equal. lia.
Qed.

Definition distance_rep (pos : bool) (i : distanceHitIterator I) (l : list Z) : Prop :=
  0 < d_distance i < maxUInt32 ∧
  ∃ l1 l2 pos1 pos2, dist_state (d_distance i) pos1 pos2 (d_i1 i) (d_i2 i) l1 l2 ∧
    l = dist (d_distance i) l1 l2 ∧
    (d_started i || pos = true → aligned (d_distance i) l1 l2 ∧ pos1 = true).

Lemma findNext_spec pos1 pos2 i l1 l2 :
  0 < d_distance i < maxUInt32 →
  dist_state (d_distance i) pos1 pos2 (d_i1 i) (d_i2 i) l1 l2 →
  ∃ i' l1' l2', findNext i = Ok i' ∧ d_distance i' = d_distance i ∧ d_started i' = d_started i ∧
    dist_state (d_distance i) true true (d_i1 i') (d_i2 i') l1' l2' ∧
    aligned (d_distance i) l1' l2' ∧ dist (d_distance i) l1' l2' = dist (d_distance i) l1 l2.
Proof.
  intros Hd Hs. pose proof Hs as (Hr1 & Hr2 & _).
  pose proof (rep_size _ _ _ Hr1). pose proof (rep_size _ _ _ Hr2).
  unfold findNext.
  destruct (findNext_loop_spec (S (it_size (d_i1 i) + it_size (d_i2 i))) (d_distance i)
              pos1 pos2 (d_i1 i) (d_i2 i) l1 l2 Hd Hs) as (i1' & i2' & l1' & l2' & -> & ? & ? & ?); [lia|].
  cbn [mbind res_bind]. by eexists _, l1', l2'.
Qed.

Lemma distance_first_ok pos i l :
  distance_rep pos i l →
  ∃ i', distance_first i = Ok (head_or_max l, i') ∧ distance_rep true i' l.
Proof.
  intros (Hd & l1 & l2 & pos1 & pos2 & Hs & -> & Hal). unfold distance_first.
  destruct (d_started i) eqn:Est; cbn [mbind res_bind].
  - destruct (Hal eq_refl) as [Ha ->]. pose proof Hs as (Hr1 & Hr2 & Hb).
    destruct (first_ok _ _ _ Hr1) as (j1 & -> & Hj1). cbn [mbind res_bind].
    eexists. rewrite aligned_head by done. split; [done|]. split; [done|].
    exists l1, l2, true, pos2. by rewrite Est.
  - destruct (findNext_spec pos1 pos2 i l1 l2 Hd Hs)
      as (i' & l1' & l2' & -> & Edist & _ & (Hr1 & Hr2 & Hb) & Ha & Hdd). cbn [mbind res_bind].
    cbn [d_i1 d_i2 d_distance d_started].
    destruct (first_ok _ _ _ Hr1) as (j1 & -> & Hj1). cbn [mbind res_bind].
    rewrite <- Hdd, aligned_head by done. eexists. split; [done|]. unfold distance_rep. simpl.
    rewrite Edist. split; [done|]. by exists l1', l2', true, true.
Qed.

Lemma distance_next_ok pos i l limit :
  distance_rep pos i l → is_u32 limit →
  ∃ i' l', distance_next i limit = Ok i' ∧ distance_rep true i' l' ∧ advanced limit pos l l'.
Proof.
  intros (Hd & l1 & l2 & pos1 & pos2 & (Hr1 & Hr2 & Hb) & -> & Hal) Hu. unfold distance_next.
  destruct (next_ok _ _ _ limit Hr1 Hu) as (j1 & k1 & -> & Hj1 & Ha1). cbn [mbind res_bind].
  set (lim2 := if limit ⊕ d_distance i <? limit then maxUInt32 else limit ⊕ d_distance i).
  assert (is_u32 lim2 ∧ lim2 <= limit + d_distance i) as [Hu2 Hle].
  { unfold lim2. destruct (Z.ltb_spec (limit ⊕ d_distance i) limit); u32_lia. }
  destruct (next_ok _ _ _ lim2 Hr2 Hu2) as (j2 & k2 & -> & Hj2 & Ha2). cbn [mbind res_bind].
  destruct (findNext_spec true true (Distance (d_started i) (d_distance i) j1 j2) k1 k2)
    as (i' & l1' & l2' & -> & Edist & Est & Hs & Ha & Hdd); simpl in *; [done| |].
  { split_and!; [done|done|]. rewrite Forall_forall in *. intros x Hx. apply Hb. by apply Ha1. }
  exists i', (dist (d_distance i) k1 k2). split; [done|]. split.
  { unfold distance_rep. rewrite Edist. split; [done|]. by exists l1', l2', true, true. }
  destruct Ha1 as (Hsub1 & Hkeep1 & Hmax1 & Hdrop1), Ha2 as (Hsub2 & Hkeep2 & _ & _).
  split_and!.
  - intros x. rewrite !elem_of_dist. naive_solver.
  - intros x. rewrite !elem_of_dist. intros [Hx Hxd] Hlt.
    split; [by apply Hkeep1|apply Hkeep2; [done|lia]].
  - intros E. by rewrite (Hmax1 E).
  - intros -> x t Hxt Hx. rewrite elem_of_dist. intros [Hin _].
    rewrite orb_true_r in Hal. destruct (Hal eq_refl) as [[->|(p & t1 & t2 & -> & ->)] ->]; [done|].
    unfold dist in Hxt. rewrite filter_cons_True in Hxt by constructor. injection Hxt as -> _.
    by apply (Hdrop1 eq_refl x t1).
Qed.

#[global] Program Instance distance_iter_ok : HitIteratorOk (distanceHitIterator I) := {|
  rep := distance_rep |}.
Next Obligation.
  intros pos i l (_ & l1 & l2 & pos1 & pos2 & (Hr1 & _) & -> & _).
  eapply hitlist_sublist; [by eapply rep_hitlist|apply dist_sublist].
Qed.
Next Obligation.
  intros pos i l (_ & l1 & l2 & pos1 & pos2 & (Hr1 & _) & -> & _).
  etrans; [apply sublist_length, dist_sublist|]. by eapply (rep_size (I := I)).
Qed.
Next Obligation. intros pos i l. apply distance_first_ok. Qed.
Next Obligation. intros pos i l limit. apply distance_next_ok. Qed.
End DistanceOk.

(** ** Clients of the contract *)

Section Clients.
Context {I : Type} `{HitIteratorOk I}.

(** Stepping past the current hit leaves exactly the others. *)
Lemma next_head pos i x t :
  rep pos i (x :: t) →
  ∃ i1 i2, it_first i = Ok (x, i1) ∧ it_next i1 x = Ok i2 ∧ rep true i2 t.
Proof.
  intros Hr. pose proof (rep_hitlist _ _ _ Hr) as Hl.
  destruct (first_ok _ _ _ Hr) as (i1 & Hf & Hr1).
  pose proof Hl as (Hx & Hlt & Ht)%hitlist_cons.
  destruct (next_ok _ _ _ x Hr1 ltac:(u32_unfold; lia)) as (i2 & l' & Hn & Hr2 & Ha).
  exists i1, i2. split_and!; [done|done|]. replace t with l'; [done|].
  destruct Ha as (Hsub & Hkeep & _ & Hdrop).
  apply increasing_ext; [by eapply rep_hitlist|by destruct Ht|].
  rewrite Forall_forall in Hlt. intros y. split.
  - intros Hy. pose proof (Hsub y Hy) as [->|]%elem_of_cons; [|done].
    destruct (Hdrop eq_refl x t eq_refl ltac:(lia) Hy).
  - intros Hy. apply Hkeep; [by constructor|]. by apply Hlt.
Qed.

Lemma drain_rep pos i l fuel : rep pos i l → (length l < fuel)%nat → drain fuel i = Ok l.
Proof.
  revert pos i fuel. induction l as [|x t IH]; intros pos i [|fuel] Hr Hf; [lia| |lia|]; cbn [drain].
  - destruct (first_ok _ _ _ Hr) as (i1 & -> & _). done.
  - pose proof (rep_hitlist _ _ _ Hr) as (Hx & _)%hitlist_cons.
    destruct (next_head _ _ _ _ Hr) as (i1 & i2 & -> & Hn & Hr2). cbn [mbind res_bind].
    destruct (Z.eqb_spec x maxUInt32); [lia|]. rewrite Hn. cbn [mbind res_bind].
    simpl in Hf. rewrite (IH true i2 fuel Hr2) by lia. done.
Qed.

End Clients.

Ltac solve_hitlist := split; repeat constructor; u32_unfold; lia.

(** ** Properties *)

(** Draining a compressed posting list, by asking for the first hit and
    stepping past it, returns exactly the positions it was built from. *)
Theorem compressed_drain (l : list Z) (w : ngram) (i : compressedPostingIterator) (fuel : nat)
    (Hl : hitlist l) (Hne : l ≠ [])
    (Hi : newCompressedPostingIterator (encodeDeltas 0 l) w = Ok i)
    (Hf : (length l < fuel)%nat) :
  drain fuel i = Ok l.
Proof.
  destruct l as [|x t]; [done|].
  destruct (newCompressed_rep _ w x t Hl eq_refl) as (i' & E & Hr).
  rewrite Hi in E. injection E as <-. by eapply (drain_rep true).
Qed.

(** A merging iterator enumerates the union of its children's hits, each
    hit once and in increasing order. *)
Theorem merging_drain {I} `{HitIteratorOk I} (its : list I) (ls : list (list Z)) (pos : bool) (fuel : nat)
    (Hr : Forall2 (rep pos) its ls) (Hf : (length (mjoin ls) < fuel)%nat) :
  ∃ l, drain fuel (Merging its) = Ok l ∧ increasing l ∧
       ∀ x, x ∈ l ↔ ∃ k, k ∈ ls ∧ x ∈ k.
Proof.
  exists (sorted_set (mjoin ls)). split; [|split].
  - apply (drain_rep pos); [by exists ls|]. pose proof (length_sorted_set (mjoin ls)). lia.
  - apply sorted_set_increasing.
  - intros x. rewrite elem_of_sorted_set, list_elem_of_join. naive_solver.
Qed.

(** C30: a distance iterator terminates and enumerates exactly the hits of its
    first iterator that have a hit of the second at the given distance, as long
    as no hit is within that distance of the end marker. *)
Theorem distance_drain {I} `{HitIteratorOk I} (d : Z) (i1 i2 : I) (l1 l2 : list Z)
    (pos1 pos2 : bool) (fuel : nat)
    (Hd : 0 < d < maxUInt32) (Hr1 : rep pos1 i1 l1) (Hr2 : rep pos2 i2 l2)
    (Hb : Forall (λ p, p + d < maxUInt32) l1) (Hf : (length l1 < fuel)%nat) :
  drain fuel (Distance false d i1 i2) = Ok (filter (λ p, p + d ∈ l2) l1).
Proof.
  apply (drain_rep false).
  - split; [done|]. exists l1, l2, pos1, pos2. split; [by split_and!|]. by split.
  - pose proof (sublist_length _ _ (dist_sublist d l1 l2)). unfold dist in *. lia.
Qed.

(** Seeking loses no hit. After next(limit), draining any iterator of the
    index returns hits it had before, and among them all those past the
    limit; next(maxUInt32) empties it. *)
Theorem next_keeps_hits (i : hitIterator) (pos : bool) (l : list Z) (limit : Z)
    (Hr : rep pos i l) (Hlim : is_u32 limit) :
  ∃ i' l', it_next i limit = Ok i' ∧ drain (S (length l)) i' = Ok l' ∧
    (∀ x, x ∈ l' → x ∈ l) ∧ (∀ x, x ∈ l → limit < x → x ∈ l') ∧
    (limit = maxUInt32 → l' = []).
Proof.
  destruct (next_ok _ _ _ limit Hr Hlim) as (i' & l' & Hn & Hr' & Hsub & Hkeep & Hmax & _).
  exists i', l'. split_and!; [done| |done|done|done].
  eapply drain_rep; [done|]. enough (length l' <= length l)%nat by lia.
  apply submseteq_length, NoDup_submseteq; [|done].
  apply increasing_NoDup. apply (rep_hitlist _ _ _ Hr').
Qed.

(** Next(limit) on a compressed iterator with at least two hits left, all
    of them up to the limit, stops on the last one instead of moving past the
    limit as the interface comment asks. *)
Theorem compressed_next_stale (x y : Z) (w : ngram) (limit : Z) (i : compressedPostingIterator)
    (Hxy : 0 <= x < y) (Hlim : y <= limit < maxUInt32)
    (Hi : newCompressedPostingIterator (encodeDeltas 0 [x; y]) w = Ok i) :
  ∃ i', compressed_next i limit = Ok i' ∧ c_first i' = y ∧ y <= limit.
Proof.
  assert (hitlist [x; y]) as Hl by (split; repeat constructor; lia).
  destruct (newCompressed_rep _ w x [y] Hl eq_refl) as (j & E & _ & Hf & Hb).
  rewrite Hi in E. injection E as <-. unfold compressed_next.
  destruct (Z.eqb_spec limit maxUInt32); [lia|].
  assert (is_u32 y) as Hu by (u32_unfold; lia).
  destruct (Uvarint_encodeDeltas x y [] Hu) as (E1 & E2 & E3 & _ & E5).
  rewrite Hf, Hb. destruct (Z.leb_spec x limit); [|lia].
  destruct (Z.eqb_spec (lenZ (encodeDeltas x [y])) 0); [lia|]. cbn [andb].
  cbn [compressed_loop].
  destruct (Z.leb_spec x limit); [|lia].
  destruct (Z.ltb_spec 0 (lenZ (encodeDeltas x [y]))); [|lia].
  cbn [andb]. rewrite E1, E2. cbn [mbind res_bind encodeDeltas]. rewrite E3.
  assert (∃ m, length (PutUvarint (y ⊖ x) ++ []) = S m) as [m ->].
  { pose proof (PutUvarint_u32_len (y ⊖ x) (u32_range _)). rewrite app_nil_r.
    destruct (length (PutUvarint (y ⊖ x))); [lia|eauto]. }
  cbn [compressed_loop]. rewrite andb_false_r. cbn [mbind res_bind]. eexists. split; [done|]. simpl. lia.
Qed.

(** Witnesses. *)

Lemma compressed_drain_witness :
  ∃ i, newCompressedPostingIterator (encodeDeltas 0 [5; 10; 4000]) 7 = Ok i ∧
       drain 4 i = Ok [5; 10; 4000].
Proof.
  eexists. split; [reflexivity|].
  eapply (compressed_drain [5; 10; 4000] 7); [solve_hitlist|done|reflexivity|simpl; lia].
Defined.

Lemma merging_drain_witness :
  ∃ l, drain 6 (Merging [InMemory [3; 8] 1; InMemory [1; 3; 9] 2]) = Ok l ∧ increasing l ∧
       ∀ x, x ∈ l ↔ ∃ k, k ∈ [[3; 8]; [1; 3; 9]] ∧ x ∈ k.
Proof.
  apply (merging_drain [InMemory [3; 8] 1; InMemory [1; 3; 9] 2] [[3; 8]; [1; 3; 9]] false 6).
  - repeat constructor; u32_unfold; lia.
  - simpl. lia.
Defined.

Lemma distance_drain_witness :
  drain 5 (Distance false 3 (InMemory [1; 5; 9; 20] 1) (InMemory [4; 11; 12] 2)) = Ok [1; 9].
Proof.
  refine (distance_drain 3 (InMemory [1; 5; 9; 20] 1) (InMemory [4; 11; 12] 2)
            [1; 5; 9; 20] [4; 11; 12] false false 5 _ _ _ _ _);
    [u32_unfold; lia|split; [solve_hitlist|done]|split; [solve_hitlist|done]|
     repeat constructor; u32_unfold; lia|simpl; lia].
Defined.

Lemma next_keeps_hits_witness :
  ∃ i' l', it_next (inl (inl (inl (InMemory [2; 6; 9] 1))) : hitIterator) 6 = Ok i' ∧
    drain 4 i' = Ok l' ∧ (∀ x, x ∈ l' → x ∈ [2; 6; 9]) ∧
    (∀ x, x ∈ [2; 6; 9] → 6 < x → x ∈ l') ∧ (6 = maxUInt32 → l' = []).
Proof.
  apply (next_keeps_hits (inl (inl (inl (InMemory [2; 6; 9] 1)))) false [2; 6; 9] 6);
    [split; [solve_hitlist|done]|u32_unfold; lia].
Defined.

Lemma compressed_next_stale_witness :
  ∃ i i', newCompressedPostingIterator (encodeDeltas 0 [5; 10]) 7 = Ok i ∧
    compressed_next i 20 = Ok i' ∧ c_first i' = 10 ∧ 10 <= 20.
Proof.
  eexists.
  assert (∃ i', compressed_next (Compressed [5] [5; 5] 5 7) 20 = Ok i' ∧ c_first i' = 10 ∧ 10 <= 20)
    as (i' & Hi'); [|exists i'; split; [reflexivity|exact Hi']].
  apply (compressed_next_stale 5 10 7 20); [lia|unfold maxUInt32; lia|reflexivity].
Defined.
