(* ===== verification/MatchIter.v ===== *)
(** * matchiter.go: candidate matches and their iterators

    A matchIterator walks over the documents that may hold a match and lists
    the candidates in each. [ngramDocIterator] turns the hits of a
    hitIterator, positions in the concatenation of all documents, into
    candidates of one document; [trimBySectionMatchIter] keeps those inside a
    symbol section. *)

From S2P Require Import Prelude GoStd Bits Api HitIter.

(** ** candidateMatch *)

Record candidateMatch := CandidateMatch {
  cm_caseSensitive : bool;
  cm_fileName : bool;
  cm_substrBytes : bytes;
  cm_substrLowered : bytes;
  cm_file : Z;
  cm_runeOffset : Z;
  cm_byteOffset : Z;
  cm_byteMatchSz : Z }.

Definition set_byteMatchSz (m : candidateMatch) (sz : Z) : candidateMatch :=
  CandidateMatch (cm_caseSensitive m) (cm_fileName m) (cm_substrBytes m) (cm_substrLowered m)
    (cm_file m) (cm_runeOffset m) (cm_byteOffset m) sz.
Definition set_byteOffset (m : candidateMatch) (off : Z) : candidateMatch :=
  CandidateMatch (cm_caseSensitive m) (cm_fileName m) (cm_substrBytes m) (cm_substrLowered m)
    (cm_file m) (cm_runeOffset m) off (cm_byteMatchSz m).

Section MatchContent.
Context `{UnicodeCase}.

(** [content] is a slice of a longer array whose bytes after it are [beyond]: a
    Go slice expression may extend up to the capacity. *)
Definition matchContent (m : candidateMatch) (content beyond : bytes) : res (bool * candidateMatch) :=
  if cm_caseSensitive m then
    part ← slice (content ++ beyond) (cm_byteOffset m) (cm_byteOffset m ⊕ u32 (lenZ (cm_substrBytes m)));
    Ok (bool_decide (cm_substrBytes m = part), set_byteMatchSz m (u32 (lenZ (cm_substrBytes m))))
  else
    part ← slice_from content (cm_byteOffset m);
    let '(sz, ok) := caseFoldingEqualsRunes (cm_substrLowered m) part in
    Ok (ok, set_byteMatchSz m (u32 sz)).
End MatchContent.

Definition line (m : candidateMatch) (newlines : list Z) (fileSize : Z) : Z * Z * Z :=
  let at_ n := nth (Z.to_nat n) newlines 0 in
  let idx := Search (lenZ newlines) (λ n, cm_byteOffset m <=? at_ n) in
  let lineEnd := if idx <? lenZ newlines then at_ idx else fileSize in
  let lineStart := if 0 <? idx then at_ (idx - 1) ⊕ 1 else 0 in
  (idx + 1, lineStart, lineEnd).

(** ** The interface *)

Class MatchIterator (I : Type) := {
  mi_nextDoc : I → res (Z * I);
  mi_prepare : I → Z → res I;
  mi_candidates : I → res (list candidateMatch * I);
  mi_updateStats : I → Stats → Stats }.

(** noMatchTree, which is a matchIterator without documents. *)
Record noMatchTree := NoMatch { nm_why : string }.
#[global] Instance no_match_iter : MatchIterator noMatchTree := {|
  mi_nextDoc t := Ok (maxUInt32, t);
  mi_prepare t _ := Ok t;
  mi_candidates t := Ok ([], t);
  mi_updateStats _ s := s |}.

(** ** ngramDocIterator *)

Record ngramDocIterator (I : Type) := NgramDoc {
  n_leftPad : Z;
  n_rightPad : Z;
  n_iter : I;
  n_ends : list Z;
  n_fileIdx : Z;
  n_matchCount : Z }.
Arguments NgramDoc {I} _ _ _ _ _ _.
Arguments n_leftPad {I} _.
Arguments n_rightPad {I} _.
Arguments n_iter {I} _.
Arguments n_ends {I} _.
Arguments n_fileIdx {I} _.
Arguments n_matchCount {I} _.

Fixpoint nextFileIndex_loop (fuel : nat) (offset f d : Z) (ends : list Z) : res Z :=
  match fuel with
  | O => OutOfFuel
  | S fuel =>
    if f <? u32 (lenZ ends) then
      e ← index ends f;
      if e <=? offset then
        leap ← (if f ⊕ d <? u32 (lenZ ends) then e' ← index ends (f ⊕ d); Ok (e' <=? offset)
                else Ok false);
        if (leap : bool) then nextFileIndex_loop fuel offset (f ⊕ d) (u32 (d * 2)) ends
        else if 1 <? d then nextFileIndex_loop fuel offset f (d / 4 ⊕ 1) ends
        else nextFileIndex_loop fuel offset (f ⊕ 1) d ends
      else Ok f
    else Ok f
  end.

Definition nextFileIndex (offset f : Z) (ends : list Z) : res Z :=
  nextFileIndex_loop (3 * length ends + 2) offset f 1 ends.

Section NgramDoc.
Context {I : Type} `{HitIterator I}.

Definition ngram_nextDoc (i : ngramDocIterator I) : res (Z * ngramDocIterator I) :=
  '(hit, iter) ← it_first (n_iter i);
  fileIdx ← nextFileIndex hit (n_fileIdx i) (n_ends i);
  let i := NgramDoc (n_leftPad i) (n_rightPad i) iter (n_ends i) fileIdx (n_matchCount i) in
  Ok (if u32 (lenZ (n_ends i)) <=? fileIdx then maxUInt32 else fileIdx, i).

Definition fileStart (ends : list Z) (doc : Z) : res Z :=
  if 0 <? doc then index ends (doc - 1) else Ok 0.

Definition ngram_prepare (i : ngramDocIterator I) (nextDoc : Z) : res (ngramDocIterator I) :=
  start ← fileStart (n_ends i) nextDoc;
  iter ← (if 0 <? start then it_next (n_iter i) (start ⊕ n_leftPad i ⊖ 1) else Ok (n_iter i));
  Ok (NgramDoc (n_leftPad i) (n_rightPad i) iter (n_ends i) nextDoc (n_matchCount i)).

(** The candidate the iterator builds; the fields about the pattern are filled
    in by ngramIterationResults. *)
Definition new_candidate (file runeOffset : Z) : candidateMatch :=
  CandidateMatch false false [] [] file runeOffset 0 0.

Fixpoint candidates_loop (fuel : nat) (iter : I) (leftPad rightPad fileIdx start fileEnd : Z)
    : res (list candidateMatch * I) :=
  match fuel with
  | O => OutOfFuel
  | S fuel =>
    '(p1, iter) ← it_first iter;
    if (p1 =? maxUInt32) || (fileEnd <=? p1) then Ok ([], iter)
    else
      iter ← it_next iter p1;
      '(cs, iter) ← candidates_loop fuel iter leftPad rightPad fileIdx start fileEnd;
      if (p1 <? leftPad ⊕ start) || (fileEnd <? p1 ⊕ rightPad) then Ok (cs, iter)
      else Ok (new_candidate fileIdx (p1 ⊖ start ⊖ leftPad) :: cs, iter)
  end.

Definition ngram_candidates (i : ngramDocIterator I) : res (list candidateMatch * ngramDocIterator I) :=
  if u32 (lenZ (n_ends i)) <=? n_fileIdx i then Ok ([], i)
  else
    start ← fileStart (n_ends i) (n_fileIdx i);
    fileEnd ← index (n_ends i) (n_fileIdx i);
    '(cs, iter) ← candidates_loop (S (it_size (n_iter i))) (n_iter i) (n_leftPad i) (n_rightPad i)
                    (n_fileIdx i) start fileEnd;
    Ok (cs, NgramDoc (n_leftPad i) (n_rightPad i) iter (n_ends i) (n_fileIdx i)
              (n_matchCount i + lenZ cs)).

#[global] Instance ngram_doc_iter : MatchIterator (ngramDocIterator I) := {|
  mi_nextDoc := ngram_nextDoc;
  mi_prepare := ngram_prepare;
  mi_candidates := ngram_candidates;
  mi_updateStats i s := add_NgramMatches (n_matchCount i) (it_updateStats (n_iter i) s) |}.
End NgramDoc.

(** ** trimBySectionMatchIter *)

Record trimBySectionMatchIter (I : Type) := TrimSection {
  ts_iter : I;
  ts_patternSize : Z;
  ts_fileEndRunes : list Z;
  ts_doc : Z;
  ts_sections : list DocumentSection }.
Arguments TrimSection {I} _ _ _ _ _.
Arguments ts_iter {I} _.
Arguments ts_patternSize {I} _.
Arguments ts_fileEndRunes {I} _.
Arguments ts_doc {I} _.
Arguments ts_sections {I} _.

Fixpoint skip_sections (start : Z) (secs : list DocumentSection) : list DocumentSection :=
  match secs with
  | s :: rest => if Start s <? start then skip_sections start rest else secs
  | [] => []
  end.

(** The loop of trimBySectionMatchIter.candidates: what is kept, and the
    sections left. *)
Fixpoint trim_loop (start patternSize : Z) (secs : list DocumentSection) {struct secs}
    : list candidateMatch → list candidateMatch * list DocumentSection :=
  fix go (ms : list candidateMatch) :=
    match secs, ms with
    | sec :: secs', m :: ms' =>
      let mstart := start ⊕ cm_runeOffset m in
      let mend := mstart ⊕ patternSize in
      if End sec <=? mstart then trim_loop start patternSize secs' ms
      else if mstart <? Start sec then go ms'
      else
        let '(rest, secs) := go ms' in
        (if mend <=? End sec then m :: rest else rest, secs)
    | _, _ => ([], secs)
    end.

Section Trim.
Context {I : Type} `{MatchIterator I}.

Definition newTrimByDocSectionIter (pattern : bytes) (iter : I) (fileEndRunes : list Z)
    (runeDocSections : list DocumentSection) : trimBySectionMatchIter I :=
  TrimSection iter (u32 (utf8.RuneCount pattern)) fileEndRunes 0 runeDocSections.

Definition trim_prepare (i : trimBySectionMatchIter I) (doc : Z) : res (trimBySectionMatchIter I) :=
  iter ← mi_prepare (ts_iter i) doc;
  start ← fileStart (ts_fileEndRunes i) doc;
  Ok (TrimSection iter (ts_patternSize i) (ts_fileEndRunes i) doc (skip_sections start (ts_sections i))).

Definition trim_candidates (i : trimBySectionMatchIter I)
    : res (list candidateMatch * trimBySectionMatchIter I) :=
  start ← fileStart (ts_fileEndRunes i) (ts_doc i);
  '(ms, iter) ← mi_candidates (ts_iter i);
  let '(trimmed, secs) := trim_loop start (ts_patternSize i) (ts_sections i) ms in
  Ok (trimmed, TrimSection iter (ts_patternSize i) (ts_fileEndRunes i) (ts_doc i) secs).

#[global] Instance trim_iter : MatchIterator (trimBySectionMatchIter I) := {|
  mi_nextDoc i :=
    '(d, iter) ← mi_nextDoc (ts_iter i);
    Ok (d, TrimSection iter (ts_patternSize i) (ts_fileEndRunes i) (ts_doc i) (ts_sections i));
  mi_prepare := trim_prepare;
  mi_candidates := trim_candidates;
  mi_updateStats i s := mi_updateStats (ts_iter i) s |}.
End Trim.

(** ** Locating the document of a hit *)

Lemma sorted_lookup (l : list Z) (i j : nat) (a b : Z) :
  StronglySorted Z.le l → (i <= j)%nat → l !! i = Some a → l !! j = Some b → a <= b.
Proof.
  intros Hs. revert i j. induction Hs as [|x l Hs IH Hx]; intros i j Hij Ha Hb; [done|].
  rewrite Forall_forall in Hx. destruct i as [|i], j as [|j]; simpl in *; simplify_eq; [lia| |lia|].
  - apply Hx. by eapply list_elem_of_lookup_2.
  - eapply (IH i j); eauto. lia.
Qed.

(** Entry [k] of a table of ends is at most [offset]. *)
Definition end_upto (ends : list Z) (offset k : Z) : Prop :=
  ∃ e, ends !! Z.to_nat k = Some e ∧ e <= offset.

Lemma end_upto_mono ends offset j k :
  StronglySorted Z.le ends → 0 <= j <= k → end_upto ends offset k → end_upto ends offset j.
Proof.
  intros Hs Hjk (e & He & Hle). destruct (lookup_lt_is_Some_2 ends (Z.to_nat j)) as [e' He'].
  { apply lookup_lt_Some in He. lia. }
  exists e'. split; [done|]. pose proof (sorted_lookup _ (Z.to_nat j) (Z.to_nat k) e' e Hs ltac:(lia) He' He). lia.
Qed.

Lemma index_in {A} (l : list A) i : 0 <= i < lenZ l → ∃ a, index l i = Ok a ∧ l !! Z.to_nat i = Some a.
Proof.
  intros Hi. destruct (lookup_lt_is_Some_2 l (Z.to_nat i)) as [a Ha]; [unfold lenZ in Hi; lia|].
  exists a. split; [|done]. unfold index. rewrite decide_True by lia. by rewrite Ha.
Qed.

(** The first document from [f] on that ends after [offset]. *)
Definition first_after (ends : list Z) (offset f j : Z) : Prop :=
  f <= j <= lenZ ends ∧ (∀ k, f <= k < j → end_upto ends offset k) ∧
  (j < lenZ ends → ∃ e, ends !! Z.to_nat j = Some e ∧ offset < e).

Lemma nextFileIndex_loop_spec fuel offset f d ends :
  StronglySorted Z.le ends → lenZ ends < 1073741824 → 0 <= f <= lenZ ends → 1 <= d <= 2 * lenZ ends + 1 →
  3 * (lenZ ends - f) + d < Z.of_nat fuel →
  ∃ j, nextFileIndex_loop fuel offset f d ends = Ok j ∧ first_after ends offset f j.
Proof.
  intros Hs Hn. revert f d. induction fuel as [|fuel IH]; intros f d Hf Hd Hfuel; [lia|].
  cbn [nextFileIndex_loop]. rewrite (u32_id (lenZ ends)) by (u32_unfold; lia).
  destruct (Z.ltb_spec f (lenZ ends)); [|exists f; split; [done|split_and!; [lia..|lia]]].
  destruct (index_in ends f) as (e & -> & He); [lia|]. cbn [mbind res_bind].
  destruct (Z.leb_spec e offset); [|by exists f; split; [done|split_and!; [lia..|intros _; eauto]]].
  assert (end_upto ends offset f) as Hup by by exists e.
  assert (Hsmall : ∃ j, (if 1 <? d then nextFileIndex_loop fuel offset f (d / 4 ⊕ 1) ends
      else nextFileIndex_loop fuel offset (f ⊕ 1) d ends) = Ok j ∧ first_after ends offset f j).
  { destruct (Z.ltb_spec 1 d).
    - rewrite u32_id by (u32_unfold; Z.div_mod_to_equations; lia).
      apply IH; [done|Z.div_mod_to_equations; lia..].
    - rewrite u32_id by (u32_unfold; lia).
      destruct (IH (f + 1) d) as (j & -> & Hr & Hk & Hj); [lia..|].
      exists j. split; [done|]. split_and!; [lia..| |done]. intros k Hk'.
      destruct (Z.eq_dec k f) as [->|]; [done|apply Hk; lia]. }
  rewrite !(u32_id (f + d)) by (u32_unfold; lia).
  destruct (Z.ltb_spec (f + d) (lenZ ends)) as [Hfd|Hfd]; [|done].
  destruct (index_in ends (f + d)) as (e' & -> & He'); [lia|]. cbn [mbind res_bind].
  destruct (Z.leb_spec e' offset); [|done].
  rewrite (u32_id (d * 2)) by (u32_unfold; lia).
  destruct (IH (f + d) (d * 2)) as (j & -> & Hr & Hk & Hj); [lia..|].
  exists j. split; [done|]. split_and!; [lia..| |done]. intros k Hk'.
  destruct (Z.lt_ge_cases k (f + d)); [|apply Hk; lia].
  apply (end_upto_mono ends offset k (f + d)); [done|lia|by exists e'].
Qed.

Lemma nextFileIndex_ok offset f ends :
  StronglySorted Z.le ends → lenZ ends < 1073741824 → 0 <= f <= lenZ ends →
  ∃ j, nextFileIndex offset f ends = Ok j ∧ first_after ends offset f j.
Proof.
  intros. apply nextFileIndex_loop_spec; try done; unfold lenZ in *; lia.
Qed.

(** ** Lines *)

Lemma line_ok m newlines fileSize :
  increasing newlines → Forall (λ n, 0 <= n < fileSize) newlines → 0 <= cm_byteOffset m <= fileSize →
  fileSize < two32 →
  let '(num, s, e) := line m newlines fileSize in
  s <= cm_byteOffset m <= e ∧ e <= fileSize ∧
  (s = 0 ∨ s - 1 ∈ newlines) ∧ (e = fileSize ∨ e ∈ newlines) ∧
  (∀ n, n ∈ newlines → ¬ (s <= n < e)) ∧
  num = 1 + lenZ (filter (λ n, n < cm_byteOffset m) newlines).
Proof.
  intros Hinc Hb Hoff Hsz. unfold line. set (o := cm_byteOffset m) in *.
  destruct (Search_split (λ x, o <=? x) newlines 0) as (l1 & l2 & Hl & -> & H1 & H2).
  { eapply StronglySorted_impl; [|exact Hinc]. simpl. intros a b Hab. rewrite !Z.leb_le. lia. }
  rewrite Forall_forall in H1, H2, Hb. setoid_rewrite Z.leb_gt in H1. setoid_rewrite Z.leb_le in H2.
  assert (filter (λ n, n < o) newlines = l1) as ->.
  { rewrite Hl, filter_app, filter_all, (filter_none _ l2), app_nil_r; auto.
    intros x Hx. specialize (H2 x Hx). lia. }
  (* the end of the line is the first newline from the offset on *)
  assert (∃ e, (if lenZ l1 <? lenZ newlines then nth (Z.to_nat (lenZ l1)) newlines 0 else fileSize) = e ∧
    o <= e <= fileSize ∧ (e = fileSize ∨ e ∈ newlines) ∧ ∀ n, n ∈ l2 → e <= n) as (e & -> & He & Hel & He2).
  { rewrite Hl, lenZ_app. unfold lenZ. rewrite Nat2Z.id, app_nth2, Nat.sub_diag by lia.
    rewrite Hl in Hinc. apply StronglySorted_app_1_r in Hinc. subst newlines.
    destruct l2 as [|x l2]; simpl; [rewrite Z.add_0_r, Z.ltb_irrefl|].
    - exists fileSize. split_and!; auto; [lia|lia|]. intros n Hn. by apply not_elem_of_nil in Hn.
    - destruct (Z.ltb_spec (Z.of_nat (length l1)) (Z.of_nat (length l1) + Z.of_nat (S (length l2)))); [|lia].
      exists x. assert (x ∈ l1 ++ x :: l2) by set_solver. specialize (Hb x ltac:(done)).
      specialize (H2 x ltac:(set_solver)). split_and!; auto; [lia|].
      apply StronglySorted_inv in Hinc as [_ Hx]. rewrite Forall_forall in Hx.
      intros n [->|Hn]%elem_of_cons; [lia|]. specialize (Hx n Hn). lia. }
  (* the start of the line is after the last newline before the offset *)
  assert (∃ s, (if 0 <? lenZ l1 then nth (Z.to_nat (lenZ l1 - 1)) newlines 0 ⊕ 1 else 0) = s ∧
    s <= o ∧ (s = 0 ∨ s - 1 ∈ newlines) ∧ ∀ n, n ∈ l1 → n < s) as (s & -> & Hs & Hsl & Hs2).
  { destruct l1 as [|y l1' _] using rev_ind.
    - exists 0. split_and!; auto; [lia|]. intros n Hn. by apply not_elem_of_nil in Hn.
    - rewrite lenZ_app. unfold lenZ. cbn [length]. destruct (Z.ltb_spec 0 (Z.of_nat (length l1') + Z.of_nat 1)); [|lia].
      replace (nth _ newlines 0) with y.
      2: { rewrite Hl. replace (Z.to_nat _) with (length l1') by lia.
           by rewrite <- app_assoc, app_nth2, Nat.sub_diag by lia. }
      assert (y ∈ newlines) as Hy by (rewrite Hl; set_solver). pose proof (Hb y Hy).
      specialize (H1 y ltac:(set_solver)). exists (y + 1). rewrite u32_id by (u32_unfold; lia).
      split_and!; [done|lia|right; by rewrite Z.add_simpl_r|].
      rewrite Hl in Hinc. apply StronglySorted_app_1_l in Hinc.
      intros n [Hn| ->%list_elem_of_singleton]%elem_of_app; [|lia].
      pose proof (StronglySorted_app_1_elem_of _ _ _ _ y Hinc Hn ltac:(set_solver)). lia. }
  split_and!; try done; try lia. intros n. rewrite Hl, elem_of_app. intros [Hn|Hn] Hlt.
  - specialize (Hs2 n Hn). lia.
  - specialize (He2 n Hn). lia.
Qed.

(** ** Candidates of a document *)

Section Candidates.
Context {I : Type} `{HitIteratorOk I}.

(** The hits that are candidates in the document over runes [[start, fileEnd)]. *)
Definition fits (leftPad rightPad start fileEnd p : Z) : Prop :=
  start + leftPad <= p ∧ p + rightPad <= fileEnd.
#[global] Instance fits_dec a b c d p : Decision (fits a b c d p) := _.

Definition doc_candidates (leftPad rightPad doc start fileEnd : Z) (hits : list Z) : list candidateMatch :=
  (λ p, new_candidate doc (p - start - leftPad)) <$> filter (fits leftPad rightPad start fileEnd) hits.

Lemma candidates_loop_ok fuel pos iter l leftPad rightPad doc start fileEnd :
  rep pos iter l → (length l < fuel)%nat →
  0 <= start → 0 <= leftPad → start + leftPad < two32 → 1 <= rightPad → fileEnd + rightPad <= two32 →
  ∃ iter', candidates_loop fuel iter leftPad rightPad doc start fileEnd
    = Ok (doc_candidates leftPad rightPad doc start fileEnd l, iter') ∧
    rep true iter' (filter (λ p, fileEnd <= p) l).
Proof.
  intros Hr Hf Hs0 Hl0 Hsl Hr1 Hre. revert pos iter l Hr Hf.
  induction fuel as [|fuel IH]; intros pos iter l Hr Hf; [lia|]. cbn [candidates_loop].
  pose proof (rep_hitlist _ _ _ Hr) as Hl.
  destruct l as [|p l].
  { destruct (first_ok _ _ _ Hr) as (i1 & -> & Hri). simpl. by exists i1. }
  apply hitlist_cons in Hl as (Hp & Hlt & Hl). rewrite Forall_forall in Hlt.
  destruct (Z.leb_spec fileEnd p) as [Hend|Hend].
  - destruct (first_ok _ _ _ Hr) as (i1 & -> & Hri). cbn [mbind res_bind head_or_max hd].
    destruct (Z.leb_spec fileEnd p); [|lia]. rewrite orb_true_r. exists i1.
    assert (∀ x, x ∈ p :: l → fileEnd <= x) as Hge.
    { intros x [->|Hx]%elem_of_cons; [lia|]. specialize (Hlt x Hx). lia. }
    unfold doc_candidates. rewrite (filter_none (fits _ _ _ _)), filter_all; [done|done|].
    intros x Hx [_ ?]. specialize (Hge x Hx). lia.
  - destruct (next_head _ _ _ _ Hr) as (i1 & i2 & -> & Hn & Hr2). cbn [mbind res_bind].
    destruct (Z.eqb_spec p maxUInt32); [lia|]. destruct (Z.leb_spec fileEnd p); [lia|]. cbn [orb].
    rewrite Hn. cbn [mbind res_bind]. simpl in Hf.
    destruct (IH true i2 l Hr2 ltac:(lia)) as (i3 & -> & Hr3). cbn [mbind res_bind].
    exists i3. rewrite filter_cons_False by lia. split; [|done].
    rewrite (u32_id (leftPad + start)), (u32_id (p + rightPad)) by (u32_unfold; lia).
    unfold doc_candidates. rewrite filter_cons.
    destruct (Z.ltb_spec p (leftPad + start)), (Z.ltb_spec fileEnd (p + rightPad)); cbn [orb];
      destruct (decide _) as [Hd|Hd]; unfold fits in Hd; try lia; [done..|]. rewrite fmap_cons. f_equal. f_equal. f_equal.
    unfold new_candidate. f_equal. rewrite (u32_id (p - start)) by (u32_unfold; lia).
    apply u32_id. u32_unfold. lia.
Qed.

Lemma fileStart_ok ends doc :
  0 <= doc < lenZ ends → ∃ s, fileStart ends doc = Ok s ∧
    (doc = 0 ∧ s = 0 ∨ 0 < doc ∧ ends !! Z.to_nat (doc - 1) = Some s).
Proof.
  intros Hd. unfold fileStart. destruct (Z.ltb_spec 0 doc).
  - destruct (index_in ends (doc - 1)) as (s & -> & Hs); [lia|]. eauto.
  - exists 0. split; [done|]. left. lia.
Qed.

(** Seeking to the start of a document keeps its candidates. *)
Lemma advanced_fits limit pos l l' leftPad rightPad start fileEnd :
  hitlist l → hitlist l' → advanced limit pos l l' → limit = start + leftPad - 1 →
  filter (fits leftPad rightPad start fileEnd) l' = filter (fits leftPad rightPad start fileEnd) l.
Proof.
  intros Hl Hl' (Hsub & Hkeep & _) Hlim. apply increasing_ext.
  - eapply hitlist_sublist; [exact Hl'|]. apply sublist_filter.
  - eapply hitlist_sublist; [exact Hl|]. apply sublist_filter.
  - intros x. rewrite !list_elem_of_filter. unfold fits. split; intros [Hf Hx]; split; auto.
    apply Hkeep; [done|lia].
Qed.
End Candidates.

(** ** Sections *)

(** Sections in order and disjoint, as the index stores them. *)
Definition sections_ok (secs : list DocumentSection) : Prop :=
  Forall (λ s, 0 <= Start s <= End s) secs ∧ StronglySorted (λ a b, End a <= Start b) secs.

(** The match of [sz] runes from offset [o] lies in the section. *)
Definition inside (sz o : Z) (s : DocumentSection) : Prop := Start s <= o ∧ o + sz <= End s.
#[global] Instance inside_dec sz o s : Decision (inside sz o s) := _.

Lemma trim_loop_cons start sz sec secs m ms :
  trim_loop start sz (sec :: secs) (m :: ms) =
  if End sec <=? start ⊕ cm_runeOffset m then trim_loop start sz secs (m :: ms)
  else if start ⊕ cm_runeOffset m <? Start sec then trim_loop start sz (sec :: secs) ms
  else let '(rest, secs') := trim_loop start sz (sec :: secs) ms in
       (if start ⊕ cm_runeOffset m ⊕ sz <=? End sec then m :: rest else rest, secs').
Proof. reflexivity. Qed.

Lemma trim_loop_ok start sz secs ms :
  sections_ok secs → 1 <= sz → 0 <= start →
  StronglySorted (λ a b, cm_runeOffset a <= cm_runeOffset b) ms →
  Forall (λ m, 0 <= cm_runeOffset m ∧ start + cm_runeOffset m + sz < two32) ms →
  fst (trim_loop start sz secs ms)
  = filter (λ m, Exists (inside sz (start + cm_runeOffset m)) secs) ms.
Proof.
  intros Hsecs Hsz Hstart. revert ms. induction secs as [|sec secs IHs]; intros ms Hms Hb.
  { rewrite filter_none; [by destruct ms|]. intros m _ Hex. by apply Exists_nil in Hex. }
  destruct Hsecs as [Hse Hdis]. apply Forall_cons in Hse as [Hsec Hse].
  apply StronglySorted_inv in Hdis as [Hdis Hafter]. specialize (IHs (conj Hse Hdis)).
  rewrite Forall_forall in Hafter, Hse.
  induction ms as [|m ms IHm]; [done|].
  pose proof Hms as Hms0. pose proof Hb as Hb0.
  apply StronglySorted_inv in Hms as [Hms Hm]. apply Forall_cons in Hb as [Hmb Hb].
  rewrite Forall_forall in Hm. specialize (IHm Hms Hb).
  rewrite trim_loop_cons, !(u32_id (start + cm_runeOffset m)) by (u32_unfold; lia).
  rewrite (u32_id (start + cm_runeOffset m + sz)) by (u32_unfold; lia).
  destruct (Z.leb_spec (End sec) (start + cm_runeOffset m)).
  { (* the section is behind every candidate *)
    rewrite IHs by done. apply filter_ext_elem. intros x Hx. rewrite Exists_cons. split; [by right|].
    intros [Hin|]; [|done]. destruct Hin as [_ Hin].
    assert (cm_runeOffset m <= cm_runeOffset x); [|lia].
    apply elem_of_cons in Hx as [->|Hx]; [lia|by apply Hm]. }
  destruct (Z.ltb_spec (start + cm_runeOffset m) (Start sec)).
  { (* the candidate is before every section *)
    rewrite filter_cons_False; [by rewrite <- IHm|]. rewrite Exists_cons. intros [[]|Hex]; [lia|].
    apply Exists_exists in Hex as (s & Hs & Hin & _). specialize (Hafter s Hs). lia. }
  rewrite filter_cons. rewrite (surjective_pairing (trim_loop start sz (sec :: secs) ms)), IHm. cbn [fst].
  destruct (Z.leb_spec (start + cm_runeOffset m + sz) (End sec)).
  - rewrite decide_True; [done|]. apply Exists_cons_hd. split; lia.
  - rewrite decide_False; [done|]. rewrite Exists_cons. intros [[]|Hex]; [lia|].
    apply Exists_exists in Hex as (s & Hs & Hin & _). specialize (Hafter s Hs). lia.
Qed.

Lemma skip_sections_ok start secs :
  sections_ok secs → sections_ok (skip_sections start secs) ∧
  skip_sections start secs = filter (λ s, start <= Start s) secs.
Proof.
  intros [Hse Hd]. induction secs as [|s secs IH]; [done|]. simpl.
  pose proof Hse as Hse0. pose proof Hd as Hd0.
  apply Forall_cons in Hse as [Hs Hse]. apply StronglySorted_inv in Hd as [Hd Ha].
  rewrite filter_cons. destruct (Z.ltb_spec (Start s) start).
  - rewrite decide_False by lia. auto.
  - rewrite decide_True by lia. split; [by split|]. f_equal. symmetry. apply filter_all.
    rewrite Forall_forall in Ha. intros x Hx. specialize (Ha x Hx). lia.
Qed.

(** The fixed fields of an iterator. *)
Definition same_frame {I} (i i' : ngramDocIterator I) : Prop :=
  n_leftPad i' = n_leftPad i ∧ n_rightPad i' = n_rightPad i ∧ n_ends i' = n_ends i.

Lemma nextDoc_ok {I} `{HitIteratorOk I} (i : ngramDocIterator I) (pos : bool) (l : list Z)
    (Hr : rep pos (n_iter i) l) (Hs : StronglySorted Z.le (n_ends i))
    (Hn : lenZ (n_ends i) < 1073741824) (Hf : 0 <= n_fileIdx i <= lenZ (n_ends i))
    (Hpad : 1 <= n_rightPad i) :
  ∃ d i', mi_nextDoc i = Ok (d, i') ∧ same_frame i i' ∧ rep true (n_iter i') l ∧
    (d = maxUInt32 ∧ n_fileIdx i' = lenZ (n_ends i) ∨ d = n_fileIdx i' ∧ n_fileIdx i <= d < lenZ (n_ends i)) ∧
    (∀ k s e, n_fileIdx i <= k < n_fileIdx i' → n_ends i !! Z.to_nat k = Some e →
       doc_candidates (n_leftPad i) (n_rightPad i) k s e l = []).
Proof.
  destruct (first_ok _ _ _ Hr) as (i1 & Hfirst & Hr1).
  destruct (nextFileIndex_ok (head_or_max l) (n_fileIdx i) (n_ends i)) as (j & Hj & Hjr & Hup & _); [done..|].
  eexists _, _. cbn [mi_nextDoc ngram_doc_iter]. unfold ngram_nextDoc. rewrite Hfirst. cbn [mbind res_bind].
  rewrite Hj. cbn [mbind res_bind n_ends]. split; [done|]. split; [done|]. simpl. split_and!; [done| |].
  - rewrite u32_id by (pose proof (lenZ_nonneg (n_ends i)); u32_unfold; lia).
    destruct (Z.leb_spec (lenZ (n_ends i)) j); [left|right]; split; done || lia.
  - intros k s e Hk He. unfold doc_candidates. rewrite filter_none; [done|].
    intros p Hp [_ Hfit]. destruct (Hup k Hk) as (e' & He' & Hle). simplify_eq.
    pose proof (rep_hitlist _ _ _ Hr) as [Hinc _]. destruct l as [|h l]; [by apply not_elem_of_nil in Hp|].
    simpl in Hle. apply increasing_cons in Hinc as [_ Hinc]. rewrite Forall_forall in Hinc.
    apply elem_of_cons in Hp as [->|Hp]; [lia|]. specialize (Hinc p Hp). lia.
Qed.

Lemma ngram_candidates_ok {I} `{HitIteratorOk I} (i : ngramDocIterator I) (pos : bool) (l : list Z)
    (doc s e : Z)
    (Hr : rep pos (n_iter i) l) (Hn : lenZ (n_ends i) < two32) (Hdoc : 0 <= doc < lenZ (n_ends i))
    (Hs : fileStart (n_ends i) doc = Ok s) (He : n_ends i !! Z.to_nat doc = Some e) (Hs0 : 0 <= s)
    (Hpad : 0 <= n_leftPad i ∧ s + n_leftPad i < two32)
    (Hpad' : 1 <= n_rightPad i ∧ e + n_rightPad i <= two32) :
  ∃ i1 i2, mi_prepare i doc = Ok i1 ∧
    mi_candidates i1 = Ok (doc_candidates (n_leftPad i) (n_rightPad i) doc s e l, i2) ∧
    same_frame i i2 ∧ n_fileIdx i2 = doc ∧ ∃ l', rep true (n_iter i2) l' ∧
      ∀ p, s + n_leftPad i <= p → (p ∈ l' ↔ e <= p ∧ p ∈ l).
Proof.
  destruct Hpad, Hpad'. cbn [mi_prepare mi_candidates ngram_doc_iter].
  assert (∃ iter l1, (if 0 <? s then it_next (n_iter i) (s ⊕ n_leftPad i ⊖ 1) else Ok (n_iter i)) = Ok iter ∧
    (∃ pos', rep pos' iter l1) ∧
    filter (fits (n_leftPad i) (n_rightPad i) s e) l1 = filter (fits (n_leftPad i) (n_rightPad i) s e) l ∧
    ∀ p, s + n_leftPad i <= p → p ∈ l1 ↔ p ∈ l)
    as (iter & l1 & Hnext & (pos' & Hr1) & Hfil & Hl1).
  { destruct (Z.ltb_spec 0 s); [|exists (n_iter i), l; split_and!; eauto].
    rewrite (u32_id (s + n_leftPad i)), u32_id by (u32_unfold; lia).
    destruct (next_ok _ _ _ (s + n_leftPad i - 1) Hr) as (i1 & l1 & Hn1 & Hr1 & Ha); [u32_unfold; lia|].
    exists i1, l1. split_and!; [done|eauto| |].
    - eapply advanced_fits; [by eapply rep_hitlist|by eapply rep_hitlist|done|done].
    - destruct Ha as (Hsub & Hkeep & _). intros p Hp. split; [auto|]. intros. apply Hkeep; [done|lia]. }
  unfold ngram_prepare. rewrite Hs. cbn [mbind res_bind]. rewrite Hnext. cbn [mbind res_bind].
  destruct (candidates_loop_ok (S (it_size iter)) pos' iter l1 (n_leftPad i) (n_rightPad i) doc s e)
    as (iter' & Hc & Hr2); [done|pose proof (rep_size _ _ _ Hr1); lia|lia..|].
  eexists _, _. split; [done|]. unfold ngram_candidates. cbn [n_ends n_fileIdx n_iter n_leftPad n_rightPad].
  rewrite u32_id by (u32_unfold; lia). destruct (Z.leb_spec (lenZ (n_ends i)) doc); [lia|].
  rewrite Hs. unfold index. rewrite decide_True, He by lia. cbn [mbind res_bind]. rewrite Hc.
  cbn [mbind res_bind]. split.
  - unfold doc_candidates. rewrite Hfil. reflexivity.
  - split; [done|]. split; [done|]. eexists. split; [exact Hr2|]. intros p Hps. by rewrite list_elem_of_filter, Hl1 by done.
Qed.

(** ** Properties *)

(** Line returns the line that holds the match. The offset is inside it, it
    starts at the beginning of the file or just after a newline, it ends at the
    end of the file or at a newline, no newline is inside, and its number counts
    the newlines before the offset. *)
Theorem line_spec (m : candidateMatch) (newlines : list Z) (fileSize : Z)
    (Hinc : increasing newlines) (Hb : Forall (λ n, 0 <= n < fileSize) newlines)
    (Hoff : 0 <= cm_byteOffset m <= fileSize) (Hsz : fileSize < two32) :
  let '(num, s, e) := line m newlines fileSize in
  s <= cm_byteOffset m <= e ∧ e <= fileSize ∧
  (s = 0 ∨ s - 1 ∈ newlines) ∧ (e = fileSize ∨ e ∈ newlines) ∧
  (∀ n, n ∈ newlines → ¬ (s <= n < e)) ∧
  num = 1 + lenZ (filter (λ n, n < cm_byteOffset m) newlines).
Proof. by apply line_ok. Qed.

(** NextDoc terminates and skips no document with a candidate. It returns
    the first document, from the current one on, that ends after the next hit,
    found by leaps that double and shrink; every document before it has no
    candidate among the remaining hits. *)
Theorem nextDoc_skips_nothing {I} `{HitIteratorOk I} (i : ngramDocIterator I) (pos : bool) (l : list Z)
    (Hr : rep pos (n_iter i) l) (Hs : StronglySorted Z.le (n_ends i))
    (Hn : lenZ (n_ends i) < 1073741824) (Hf : 0 <= n_fileIdx i <= lenZ (n_ends i))
    (Hpad : 1 <= n_rightPad i) :
  ∃ d i', mi_nextDoc i = Ok (d, i') ∧ rep true (n_iter i') l ∧
    (d = maxUInt32 ∧ n_fileIdx i' = lenZ (n_ends i) ∨ d = n_fileIdx i' ∧ n_fileIdx i <= d < lenZ (n_ends i)) ∧
    (∀ k s e, n_fileIdx i <= k < n_fileIdx i' → n_ends i !! Z.to_nat k = Some e →
       doc_candidates (n_leftPad i) (n_rightPad i) k s e l = []).
Proof. destruct (nextDoc_ok i pos l) as (d & i' & ? & _ & ?); try done. by exists d, i'. Qed.

(** C31: the candidates of a document are exact. After prepare(doc) the
    candidates are, in order, all the hits whose whole match lies in the document,
    with offsets relative to its start, whatever stale hits the posting list still
    shows; and the iterator is left with the hits after the document. *)
Theorem ngram_candidates_exact {I} `{HitIteratorOk I} (i : ngramDocIterator I) (pos : bool) (l : list Z)
    (doc s e : Z)
    (Hr : rep pos (n_iter i) l) (Hn : lenZ (n_ends i) < two32) (Hdoc : 0 <= doc < lenZ (n_ends i))
    (Hs : fileStart (n_ends i) doc = Ok s) (He : n_ends i !! Z.to_nat doc = Some e) (Hs0 : 0 <= s)
    (Hpad : 0 <= n_leftPad i ∧ s + n_leftPad i < two32)
    (Hpad' : 1 <= n_rightPad i ∧ e + n_rightPad i <= two32) :
  ∃ i1 i2, mi_prepare i doc = Ok i1 ∧
    mi_candidates i1 = Ok (doc_candidates (n_leftPad i) (n_rightPad i) doc s e l, i2) ∧
    ∃ l', rep true (n_iter i2) l' ∧
      ∀ p, s + n_leftPad i <= p → (p ∈ l' ↔ e <= p ∧ p ∈ l).
Proof.
  destruct (ngram_candidates_ok i pos l doc s e) as (i1 & i2 & ? & ? & _ & _ & ?); try done. by exists i1, i2.
Qed.

(** The section filter is exact. For sections that are in order and
    disjoint, the candidates kept in a document are those that lie entirely in
    one section that starts in the document. *)
Theorem trim_exact {I} `{MatchIterator I} (i : trimBySectionMatchIter I) (doc s : Z)
    (it1 it2 : I) (ms : list candidateMatch)
    (Hprep : mi_prepare (ts_iter i) doc = Ok it1) (Hcand : mi_candidates it1 = Ok (ms, it2))
    (Hs : fileStart (ts_fileEndRunes i) doc = Ok s) (Hs0 : 0 <= s)
    (Hsecs : sections_ok (ts_sections i)) (Hsz : 1 <= ts_patternSize i)
    (Hms : StronglySorted (λ a b, cm_runeOffset a <= cm_runeOffset b) ms)
    (Hb : Forall (λ m, 0 <= cm_runeOffset m ∧ s + cm_runeOffset m + ts_patternSize i < two32) ms) :
  ∃ i1, mi_prepare i doc = Ok i1 ∧
    fst <$> mi_candidates i1 = Ok (filter (λ m, Exists (inside (ts_patternSize i) (s + cm_runeOffset m))
                                            (filter (λ sec, s <= Start sec) (ts_sections i))) ms).
Proof.
  cbn [mi_prepare mi_candidates trim_iter]. unfold trim_prepare. rewrite Hprep. cbn [mbind res_bind].
  rewrite Hs. eexists. split; [done|]. unfold trim_candidates.
  cbn [ts_fileEndRunes ts_doc ts_iter ts_sections ts_patternSize]. rewrite Hs. cbn [mbind res_bind].
  rewrite Hcand. cbn [mbind res_bind]. destruct (skip_sections_ok s _ Hsecs) as [Hok Heq].
  pose proof (trim_loop_ok s (ts_patternSize i) _ ms Hok Hsz Hs0 Hms Hb) as Ht. rewrite Heq in *.
  destruct (trim_loop _ _ _ _) as [kept secs]. simpl in *. by rewrite Ht.
Qed.

(** Witnesses. *)

Lemma line_spec_witness :
  let '(num, s, e) := line (CandidateMatch true false [] [] 0 0 5 1) [3; 7] 10 in
  s <= 5 <= e ∧ e <= 10 ∧ (s = 0 ∨ s - 1 ∈ [3; 7]) ∧ (e = 10 ∨ e ∈ [3; 7]) ∧
  (∀ n, n ∈ [3; 7] → ¬ (s <= n < e)) ∧ num = 1 + lenZ (filter (λ n, n < 5) [3; 7]).
Proof.
  apply (line_spec (CandidateMatch true false [] [] 0 0 5 1)); [|repeat constructor; lia|simpl; lia|done].
  repeat constructor.
Defined.

Lemma nextDoc_skips_nothing_witness :
  ∃ d i', mi_nextDoc (NgramDoc 0 3 (InMemory [12] 0) [4; 9; 20] 0 0) = Ok (d, i') ∧ rep true (n_iter i') [12] ∧
    (d = maxUInt32 ∧ n_fileIdx i' = 3 ∨ d = n_fileIdx i' ∧ 0 <= d < 3) ∧
    (∀ k s e, 0 <= k < n_fileIdx i' → [4; 9; 20] !! Z.to_nat k = Some e → doc_candidates 0 3 k s e [12] = []).
Proof.
  apply (nextDoc_skips_nothing (NgramDoc 0 3 (InMemory [12] 0) [4; 9; 20] 0 0) true [12]);
    [|repeat constructor; lia|done|done|done].
  split; [solve_hitlist|done].
Defined.

Lemma ngram_candidates_exact_witness :
  ∃ i1 i2, mi_prepare (NgramDoc 0 3 (InMemory [2; 5; 12] 0) [4; 9; 20] 0 0) 1 = Ok i1 ∧
    mi_candidates i1 = Ok ([new_candidate 1 1], i2) ∧
    ∃ l', rep true (n_iter i2) l' ∧ ∀ p, 4 + 0 <= p → (p ∈ l' ↔ 9 <= p ∧ p ∈ [2; 5; 12]).
Proof.
  apply (ngram_candidates_exact (NgramDoc 0 3 (InMemory [2; 5; 12] 0) [4; 9; 20] 0 0) true [2; 5; 12] 1 4 9);
    try done.
  split; [solve_hitlist|done].
Defined.

Lemma trim_exact_witness :
  ∃ i1, mi_prepare (TrimSection (NgramDoc 0 3 (InMemory [2; 5; 12] 0) [4; 9; 20] 0 0) 3 [4; 9; 20] 0
                      [DocSec 1 3; DocSec 5 8]) 1 = Ok i1 ∧
    fst <$> mi_candidates i1 = Ok [new_candidate 1 1].
Proof.
  apply (trim_exact (TrimSection (NgramDoc 0 3 (InMemory [2; 5; 12] 0) [4; 9; 20] 0 0) 3 [4; 9; 20] 0
                      [DocSec 1 3; DocSec 5 8]) 1 4
           (NgramDoc 0 3 (InMemory [5; 12] 0) [4; 9; 20] 1 0)
           (NgramDoc 0 3 (InMemory [12] 0) [4; 9; 20] 1 1) [new_candidate 1 1]); try done.
  - split; repeat constructor; simpl; lia.
  - repeat constructor.
  - repeat constructor; done.
Defined.
