(* ===== verification/Query.v ===== *)
(** * query/query.go, query/regexp.go, query/bits.go: queries and their
    simplification *)

From S2P Require Import Prelude GoStd.
Import utf8.

(** ** Regular expressions

    The fields of regexp/syntax's Regexp the sources read: the operator, the
    FoldCase flag, the subexpressions, the runes and the repetition counts. *)

Inductive Op :=
| OpNoMatch | OpEmptyMatch | OpLiteral | OpCharClass | OpAnyCharNotNL | OpAnyChar
| OpBeginLine | OpEndLine | OpBeginText | OpEndText | OpWordBoundary | OpNoWordBoundary
| OpCapture | OpStar | OpPlus | OpQuest | OpRepeat | OpConcat | OpAlternate.

Inductive Regexp := RE (op : Op) (foldCase : bool) (sub : list Regexp) (rune : list Z) (min max : Z).

Definition re_op (r : Regexp) : Op := let 'RE op _ _ _ _ _ := r in op.

(** ** Queries *)

Record Substring := MkSubstring {
  Pattern : bytes;
  CaseSensitive : bool;
  FileName : bool;
  Content : bool }.

(** The values of type Q. [QNil] is the nil interface, which the parser can
    leave under a negation; [orOperator] and [caseQ] are the parser's own. *)
Inductive Q :=
| QNil
| QRegexp (re : Regexp) (fileName content caseSensitive : bool)
| QSymbol (atom : Substring)
| QCase (flavor : bytes)
| QLanguage (language : bytes)
| QConst (value : bool)
| QRepo (pattern : bytes)
| QRepoSet (set : gmap bytes bool)
| QSubstring (s : Substring)
| QOr (children : list Q)
| QNot (child : Q)
| QAnd (children : list Q)
| QBranch (pattern : bytes)
| QOrOperator.

Definition NewRepoSet (repo : list bytes) : Q :=
  QRepoSet (foldl (λ m r, <[r := true]> m) ∅ repo).
Definition NewAnd (qs : list Q) : Q := QAnd qs.
Definition NewOr (qs : list Q) : Q := QOr qs.

(** Map runs f bottom-up. *)
Fixpoint Map (q : Q) (f : Q → Q) : Q :=
  match q with
  | QAnd children => f (QAnd (map (λ sub, Map sub f) children))
  | QOr children => f (QOr (map (λ sub, Map sub f) children))
  | QNot child => f (QNot (Map child f))
  | q => f q
  end.
Definition mapQueryList (qs : list Q) (f : Q → Q) : list Q := map (λ sub, Map sub f) qs.

Definition isConst (q : Q) : option bool := match q with QConst v => Some v | _ => None end.
Definition isAnd (q : Q) : bool := match q with QAnd _ => true | _ => false end.
Definition isOr (q : Q) : bool := match q with QOr _ => true | _ => false end.

Definition invertConst (q : Q) : Q :=
  match q with QConst v => QConst (negb v) | _ => q end.

(** The loop of evalAndOrConstants over the evaluated children: drop the
    neutral constants, return the first absorbing one ([inl]), or collect the
    others. *)
Fixpoint dropConsts (and : bool) (children : list Q) : Q + list Q :=
  match children with
  | [] => inr []
  | ch :: children =>
    match isConst ch with
    | Some v => if Bool.eqb v and then dropConsts and children else inl ch
    | None =>
      match dropConsts and children with
      | inl c => inl c
      | inr newCH => inr (ch :: newCH)
      end
    end
  end.

(** evalAndOrConstants after its call of mapQueryList. *)
Definition evalAndOrConstants (and : bool) (children : list Q) : Q :=
  match dropConsts and children with
  | inl ch => ch
  | inr [] => QConst and
  | inr newCH => if and then QAnd newCH else QOr newCH
  end.

(** Both mapQueryList and evalConstants descend into the children, so the
    recursion is bounded by the depth of the query. *)
Fixpoint evalConstants_fuel (fuel : nat) (q : Q) : Q :=
  match fuel with
  | O => q
  | S k =>
    match q with
    | QAnd children => evalAndOrConstants true (mapQueryList children (evalConstants_fuel k))
    | QOr children => evalAndOrConstants false (mapQueryList children (evalConstants_fuel k))
    | QNot child =>
      let ch := evalConstants_fuel k child in
      match isConst ch with
      | Some _ => invertConst ch
      | None => QNot ch
      end
    | QSubstring s => if decide (Pattern s = []) then QConst true else q
    | QRegexp re _ _ _ => match re_op re with OpEmptyMatch => QConst true | _ => q end
    | QBranch pattern => if decide (pattern = []) then QConst true else q
    | QRepoSet set => if decide (size set = 0%nat) then QConst true else q
    | _ => q
    end
  end.

Fixpoint depth (q : Q) : nat :=
  match q with
  | QAnd children | QOr children => S (foldr (λ c n, Nat.max (depth c) n) 0%nat children)
  | QNot child => S (depth child)
  | _ => 1
  end.

Definition evalConstants (q : Q) : Q := evalConstants_fuel (depth q) q.

(** flatten and flattenAndOr: the new query and whether anything changed. *)
Fixpoint flatten (q : Q) : Q * bool :=
  let flattenAndOr (same : Q → option (list Q)) :=
    fix go (children : list Q) : list Q * bool :=
      match children with
      | [] => ([], false)
      | ch :: children =>
        let '(ch, subChanged) := flatten ch in
        let '(flat, changed) := go children in
        match same ch with
        | Some subChildren => (subChildren ++ flat, true)
        | None => (ch :: flat, subChanged || changed)
        end
      end in
  match q with
  | QAnd [c] => (c, true)
  | QAnd children =>
    let '(flat, changed) := flattenAndOr (λ q, match q with QAnd cs => Some cs | _ => None end) children in
    (QAnd flat, changed)
  | QOr [c] => (c, true)
  | QOr children =>
    let '(flat, changed) := flattenAndOr (λ q, match q with QOr cs => Some cs | _ => None end) children in
    (QOr flat, changed)
  | QNot child => let '(child, changed) := flatten child in (QNot child, changed)
  | q => (q, false)
  end.

(** The number of nodes: what flatten decreases whenever it reports a change. *)
Fixpoint qsize (q : Q) : nat :=
  match q with
  | QAnd children | QOr children => S (foldr (λ c n, (qsize c + n)%nat) 0%nat children)
  | QNot child => S (qsize child)
  | _ => 1
  end.

Fixpoint Simplify_loop (fuel : nat) (q : Q) : res Q :=
  match fuel with
  | O => OutOfFuel
  | S k => let '(q, changed) := flatten q in if changed then Simplify_loop k q else Ok q
  end.

Definition Simplify (q : Q) : res Q :=
  let q := evalConstants q in Simplify_loop (S (qsize q)) q.

Definition ExpandFileContent (q : Q) : Q :=
  match q with
  | QSubstring s =>
    if negb (FileName s) && negb (Content s) then
      NewOr [QSubstring (MkSubstring (Pattern s) (CaseSensitive s) true (Content s));
             QSubstring (MkSubstring (Pattern s) (CaseSensitive s) (FileName s) true)]
    else q
  | QRegexp re fileName content cs =>
    if negb fileName && negb content then
      NewOr [QRegexp re true content cs; QRegexp re fileName true cs]
    else q
  | q => q
  end.

(** The atoms VisitAtoms passes to its callback, in order. *)
Fixpoint VisitAtoms (q : Q) : list Q :=
  match q with
  | QAnd children | QOr children => foldr (λ c acc, VisitAtoms c ++ acc) [] children
  | QNot child => VisitAtoms child
  | q => [q]
  end.

(** ** Case flavours (setCase) and lower-casing *)

(** query/bits.go: ASCII lower-casing, byte by byte. *)
Definition toLowerASCII (inp : bytes) : bytes :=
  (λ c, if (65 <=? c) && (c <=? 90) then u8 (c - 65 + 97) else c) <$> inp.

Fixpoint LowerRegexp (r : Regexp) : Regexp :=
  let 'RE op fold sub rune mn mx := r in
  match op with
  | OpLiteral | OpCharClass =>
    RE op fold sub ((λ c, if (65 <=? c) && (c <=? 90) then c + 97 - 65 else c) <$> rune) mn mx
  | _ => RE op fold (map LowerRegexp sub) rune mn mx
  end.

Section SetCase.
(** regexp/syntax's Regexp.String, which package regexp/syntax provides. *)
Context (reString : Regexp → bytes).

Definition Substring_setCase (q : Substring) (k : bytes) : Substring :=
  let set cs := MkSubstring (Pattern q) cs (FileName q) (Content q) in
  if decide (k = str "yes") then set true
  else if decide (k = str "no") then set false
  else if decide (k = str "auto") then
    set (negb (bool_decide (Pattern q = toLowerASCII (Pattern q))))
  else q.

Definition setCase (k : bytes) (q : Q) : Q :=
  match q with
  | QSubstring s => QSubstring (Substring_setCase s k)
  | QSymbol s => QSymbol (Substring_setCase s k)
  | QRegexp re f c cs =>
    if decide (k = str "yes") then QRegexp re f c true
    else if decide (k = str "no") then QRegexp re f c false
    else if decide (k = str "auto") then
      QRegexp re f c (negb (bool_decide (reString re = reString (LowerRegexp re))))
    else q
  | q => q
  end.
End SetCase.

(** ** Distilling a substring query from a regular expression *)

Fixpoint regexpToQueryRecursive (r : Regexp) (minTextSize : Z) : res Q :=
  let 'RE op _ sub rune mn _ := r in
  match op with
  | OpLiteral =>
    let s := encode_all rune in
    if minTextSize <=? lenZ s then Ok (QSubstring (MkSubstring s false false false))
    else Ok (QConst true)
  | OpCapture | OpPlus =>
    match sub with
    | r :: _ => regexpToQueryRecursive r minTextSize
    | [] => Panic "index out of range"
    end
  | OpRepeat =>
    if 1 <=? mn then
      match sub with
      | r :: _ => regexpToQueryRecursive r minTextSize
      | [] => Panic "index out of range"
      end
    else Ok (QConst true)
  | OpConcat => qs ← mapM (λ sr, regexpToQueryRecursive sr minTextSize) sub; Ok (QAnd qs)
  | OpAlternate => qs ← mapM (λ sr, regexpToQueryRecursive sr minTextSize) sub; Ok (QOr qs)
  | _ => Ok (QConst true)
  end.

Definition RegexpToQuery (r : Regexp) (minTextSize : Z) : res Q :=
  q ← regexpToQueryRecursive r minTextSize; Simplify q.

(** ** Induction over queries and expressions *)

Definition is_atom (q : Q) : bool :=
  match q with QAnd _ | QOr _ | QNot _ => false | _ => true end.

Section QInd.
Context (P : Q → Prop).
Context (HAnd : ∀ cs, Forall P cs → P (QAnd cs)) (HOr : ∀ cs, Forall P cs → P (QOr cs))
  (HNot : ∀ c, P c → P (QNot c)) (HAtom : ∀ q, is_atom q = true → P q).
Fixpoint Q_ind' (q : Q) : P q :=
  let go := fix go (cs : list Q) : Forall P cs :=
    match cs with
    | [] => Forall_nil_2 P
    | c :: cs => Forall_cons_2 P c cs (Q_ind' c) (go cs)
    end in
  match q with
  | QAnd cs => HAnd cs (go cs)
  | QOr cs => HOr cs (go cs)
  | QNot c => HNot c (Q_ind' c)
  | q => HAtom q eq_refl
  end.
End QInd.

Section REInd.
Context (P : Regexp → Prop).
Context (HRE : ∀ op fold sub rune mn mx, Forall P sub → P (RE op fold sub rune mn mx)).
Fixpoint Regexp_ind' (r : Regexp) : P r :=
  let go := fix go (rs : list Regexp) : Forall P rs :=
    match rs with
    | [] => Forall_nil_2 P
    | c :: rs => Forall_cons_2 P c rs (Regexp_ind' c) (go rs)
    end in
  let 'RE op fold sub rune mn mx := r in HRE op fold sub rune mn mx (go sub).
End REInd.

(** ** What a query means

    A document satisfies a query under a valuation [v] of its atoms. *)

Fixpoint sem (v : Q → bool) (q : Q) : bool :=
  match q with
  | QConst b => b
  | QAnd children => forallb (sem v) children
  | QOr children => existsb (sem v) children
  | QNot child => negb (sem v child)
  | q => v q
  end.

(** Valuations under which an empty pattern matches everything, as
    evalConstants assumes; it also takes an empty RepoSet to match. *)
Definition empty_matches (v : Q → bool) : Prop :=
  (∀ s, Pattern s = [] → v (QSubstring s) = true) ∧
  (∀ re f c cs, re_op re = OpEmptyMatch → v (QRegexp re f c cs) = true) ∧
  v (QBranch []) = true ∧ (∀ m, size m = 0%nat → v (QRepoSet m) = true).

(** No constants, no empty conjunction or disjunction. *)
Fixpoint clean (q : Q) : bool :=
  match q with
  | QConst _ => false
  | QAnd cs | QOr cs => negb (bool_decide (cs = [])) && forallb clean cs
  | QNot c => clean c
  | _ => true
  end.

(** Moreover every And and Or has two children or more, none of its own kind. *)
Fixpoint flat (q : Q) : bool :=
  match q with
  | QAnd cs => bool_decide (length cs ≠ 1%nat) && forallb (λ c, negb (isAnd c) && flat c) cs
  | QOr cs => bool_decide (length cs ≠ 1%nat) && forallb (λ c, negb (isOr c) && flat c) cs
  | QNot c => flat c
  | _ => true
  end.

(** The result of Simplify: a constant, or a flat query without constants. *)
Definition normal (q : Q) : bool :=
  match isConst q with Some _ => true | None => clean q && flat q end.

(** ** Evaluation of constants *)

Lemma depth_pos q : (1 <= depth q)%nat.
Proof. destruct q; simpl; lia. Qed.

Definition max_depth (cs : list Q) : nat := foldr (λ c n, Nat.max (depth c) n) 0%nat cs.

Lemma max_depth_le cs n : (max_depth cs <= n)%nat ↔ Forall (λ c, depth c <= n)%nat cs.
Proof.
  unfold max_depth. induction cs as [|c cs IH]; simpl.
  - split; [constructor|lia].
  - rewrite Forall_cons, <- IH. lia.
Qed.

(** [r] is no deeper than [q] and means the same; the result of an evaluation
    moreover is a constant or free of constants. *)
Definition approx (v : Q → bool) (q r : Q) : Prop :=
  (depth r <= depth q)%nat ∧ (empty_matches v → sem v r = sem v q).
Definition evaluated (v : Q → bool) (q r : Q) : Prop :=
  approx v q r ∧ (is_Some (isConst r) ∨ clean r = true).

Lemma dropConsts_inl and cs c :
  dropConsts and cs = inl c → c = QConst (negb and) ∧ c ∈ cs.
Proof.
  induction cs as [|ch cs IH]; simpl; [done|].
  destruct ch; simpl; try (destruct (dropConsts and cs); [|done]; intros [= ->];
    destruct IH as [-> ?]; [done|]; split; [done|by constructor]).
  destruct (Bool.eqb value and) eqn:E.
  - intros H. destruct (IH H). split; [done|by constructor].
  - intros [= <-]. split; [|constructor]. by destruct value, and.
Qed.

Lemma dropConsts_inr and cs ds :
  dropConsts and cs = inr ds →
  (∀ d, d ∈ ds → d ∈ cs ∧ isConst d = None) ∧
  (∀ c, c ∈ cs → c ∈ ds ∨ c = QConst and).
Proof.
  revert ds. induction cs as [|ch cs IH]; simpl; intros ds.
  { intros [= <-]. split; intros ? ?%elem_of_nil; done. }
  destruct (isConst ch) as [b|] eqn:Ec.
  - destruct ch; try discriminate Ec. injection Ec as ->.
    destruct (Bool.eqb b and) eqn:E; [|done]. intros Hd.
    apply Bool.eqb_prop in E. subst b. destruct (IH ds Hd) as [H1 H2]. split.
    + intros d Hin. destruct (H1 d Hin). split; [by constructor|done].
    + intros c [->|Hc]%elem_of_cons; [by right|auto].
  - destruct (dropConsts and cs) as [|ds']; [done|]. intros [= <-].
    destruct (IH ds' eq_refl) as [H1 H2]. split.
    + intros d [->|Hin]%elem_of_cons; [split; [constructor|done]|].
      destruct (H1 d Hin). split; [by constructor|done].
    + intros c [->|Hc]%elem_of_cons; [left; constructor|].
      destruct (H2 c Hc); [left; by constructor|by right].
Qed.

Lemma forallb_elem {A} (f : A → bool) l : forallb f l = true ↔ ∀ x, x ∈ l → f x = true.
Proof. rewrite forallb_forall. by setoid_rewrite list_elem_of_In. Qed.
Lemma existsb_elem {A} (f : A → bool) l : existsb f l = true ↔ ∃ x, x ∈ l ∧ f x = true.
Proof. rewrite existsb_exists. by setoid_rewrite list_elem_of_In. Qed.

Definition junction (and : bool) (cs : list Q) : Q := if and then QAnd cs else QOr cs.

Lemma depth_junction and cs : depth (junction and cs) = S (max_depth cs).
Proof. by destruct and. Qed.
Lemma clean_junction and cs :
  clean (junction and cs) = true ↔ cs ≠ [] ∧ ∀ c, c ∈ cs → clean c = true.
Proof.
  rewrite <- forallb_elem. destruct and; simpl;
    rewrite andb_true_iff, negb_true_iff, bool_decide_eq_false; done.
Qed.
(** A junction holds unless [and] is refuted, or holds once [or] is. *)
Lemma sem_junction v and cs :
  sem v (junction and cs) = negb and ↔ ∃ c, c ∈ cs ∧ sem v c = negb and.
Proof.
  destruct and; simpl.
  - split.
    + intros Hf. apply not_true_iff_false in Hf. rewrite forallb_elem in Hf.
      destruct (decide (Exists (λ c, sem v c = false) cs)) as [He|He].
      * by apply Exists_exists.
      * destruct Hf. intros c Hc. apply not_false_iff_true. intros E. apply He, Exists_exists. eauto.
    + intros (c & Hc & E). apply not_true_iff_false. rewrite forallb_elem. intros Ht.
      rewrite (Ht c Hc) in E. done.
  - apply existsb_elem.
Qed.

Lemma sem_junction_ext v and cs ds :
  ((∃ c, c ∈ cs ∧ sem v c = negb and) ↔ (∃ d, d ∈ ds ∧ sem v d = negb and)) →
  sem v (junction and cs) = sem v (junction and ds).
Proof.
  rewrite <- !sem_junction. destruct (sem v (junction and cs)), (sem v (junction and ds)), and; simpl; naive_solver.
Qed.

Lemma approx_refl v q : approx v q q.
Proof. by split. Qed.

Lemma approx_evaluated v q r s : approx v q r → evaluated v r s → evaluated v q s.
Proof.
  intros [? Hr] [[? Hs] ?]. split; [split; [lia|]|done]. intros He. by rewrite Hs, Hr.
Qed.

Lemma approx_junction v and cs rs :
  Forall2 (approx v) cs rs → approx v (junction and cs) (junction and rs).
Proof.
  intros Hcs. split.
  - rewrite !depth_junction. unfold max_depth.
    enough (foldr (λ c n, Nat.max (depth c) n) 0 rs <= foldr (λ c n, Nat.max (depth c) n) 0 cs)%nat by lia.
    induction Hcs as [|c r cs rs (Hd & _) _ IH]; simpl; lia.
  - intros He. apply sem_junction_ext.
    induction Hcs as [|c r cs rs (_ & Hc) _ IH]; [by split; intros (? & ?%elem_of_nil & _)|].
    setoid_rewrite elem_of_cons. specialize (Hc He). split.
    + intros (d & [->|Hd] & E); [exists c; rewrite <- Hc; auto|].
      destruct (proj1 IH) as (x & ? & ?); [eauto|]. eauto.
    + intros (d & [->|Hd] & E); [exists r; rewrite Hc; auto|].
      destruct (proj2 IH) as (x & ? & ?); [eauto|]. eauto.
Qed.

Lemma evalAndOr_evaluated v and rs :
  (∀ r, r ∈ rs → is_Some (isConst r) ∨ clean r = true) →
  evaluated v (junction and rs) (evalAndOrConstants and rs).
Proof.
  intros Hcl. unfold evalAndOrConstants.
  destruct (dropConsts and rs) as [ch|ds] eqn:E.
  - destruct (dropConsts_inl _ _ _ E) as [-> Hin]. split; [split|left; by eexists].
    + rewrite depth_junction. simpl. lia.
    + intros He. symmetry. apply sem_junction. eauto.
  - destruct (dropConsts_inr _ _ _ E) as [H1 H2].
    assert (sem v (junction and ds) = sem v (junction and rs)) as Hds.
    { apply sem_junction_ext. split; intros (d & Hd & Es).
      - exists d. split; [by apply H1|done].
      - destruct (H2 d Hd) as [Hd' | ->]; [eauto|]. by destruct and. }
    assert (max_depth ds <= max_depth rs)%nat as Hdd.
    { apply max_depth_le, Forall_forall. intros d Hd. apply H1 in Hd as [Hd _].
      pose proof (proj1 (max_depth_le rs (max_depth rs)) ltac:(lia)) as Hall.
      rewrite Forall_forall in Hall. by apply Hall. }
    destruct ds as [|d ds].
    + split; [split|left; by eexists]; [rewrite depth_junction; simpl; lia|].
      intros He. rewrite <- Hds. by destruct and.
    + change (if and then QAnd (d :: ds) else QOr (d :: ds)) with (junction and (d :: ds)).
      split; [split|].
      * rewrite !depth_junction. lia.
      * done.
      * right. apply clean_junction. split; [done|]. intros c Hc.
        apply H1 in Hc as [Hc Hn]. destruct (Hcl c Hc) as [[? E']|]; [congruence|done].
Qed.

Lemma Forall2_map_r {A B} (R : A → B → Prop) (f : A → B) l :
  Forall (λ x, R x (f x)) l → Forall2 R l (map f l).
Proof. induction 1; simpl; by constructor. Qed.

Lemma Map_junction v f n and cs :
  (∀ r, (depth r <= n)%nat → evaluated v r (f r)) →
  Forall (λ q, ∀ n, (∀ r, (depth r <= n)%nat → evaluated v r (f r)) →
                    (depth q <= n)%nat → evaluated v q (Map q f)) cs →
  (depth (junction and cs) <= n)%nat →
  evaluated v (junction and cs) (f (junction and (map (λ sub, Map sub f) cs))).
Proof.
  intros Hf IH Hn. rewrite depth_junction in Hn.
  assert (Forall2 (approx v) cs (map (λ sub, Map sub f) cs)) as Ha.
  { apply Forall2_map_r. pose proof (proj1 (max_depth_le cs (max_depth cs)) ltac:(lia)) as Hd.
    rewrite Forall_forall in *. intros c Hc. apply (IH c Hc n Hf).
    specialize (Hd c Hc). simpl in Hd. lia. }
  apply (approx_junction v and) in Ha. eapply approx_evaluated; [exact Ha|].
  apply Hf. destruct Ha as [Hd _]. rewrite !depth_junction in *. lia.
Qed.

Lemma Map_evaluated v f n q :
  (∀ r, (depth r <= n)%nat → evaluated v r (f r)) → (depth q <= n)%nat → evaluated v q (Map q f).
Proof.
  revert n. induction q as [cs IH|cs IH|c IH|q Hq] using Q_ind'; intros n Hf Hn.
  - by apply (Map_junction v f n true).
  - by apply (Map_junction v f n false).
  - simpl in *. destruct (IH n Hf ltac:(lia)) as [[Hd Hs] _].
    eapply approx_evaluated; [|apply Hf; simpl; lia].
    split; simpl; [lia|]. intros He. by rewrite Hs.
  - destruct q; try done; simpl; by apply Hf.
Qed.

Lemma evalConstants_fuel_evaluated v n q :
  (depth q <= n)%nat → evaluated v q (evalConstants_fuel n q).
Proof.
  revert q. induction n as [|n IH]; intros q Hn; [pose proof (depth_pos q); lia|].
  assert (∀ and cs, (max_depth cs <= n)%nat → evaluated v (junction and cs)
            (evalAndOrConstants and (mapQueryList cs (evalConstants_fuel n)))) as Hjun.
  { intros and cs Hcs. rewrite max_depth_le, Forall_forall in Hcs.
    assert (Forall2 (evaluated v) cs (mapQueryList cs (evalConstants_fuel n))) as He.
    { apply Forall2_map_r, Forall_forall. intros c Hc. apply (Map_evaluated v _ n); auto. }
    eapply approx_evaluated.
    - apply (approx_junction v and _ (mapQueryList cs (evalConstants_fuel n))).
      eapply Forall2_impl; [exact He|]. by intros ?? [].
    - apply evalAndOr_evaluated. intros r Hr. clear -He Hr.
      induction He as [|c r' cs rs [_ Hc] _ IH']; [by apply elem_of_nil in Hr|].
      apply elem_of_cons in Hr as [->|Hr]; auto. }
  destruct q; cbn [evalConstants_fuel]; try (split; [apply approx_refl|eauto]; fail).
  - destruct (re_op re) eqn:E; try (split; [apply approx_refl|by right]).
    split; [split|left; by eexists]; [simpl; lia|]. intros (_ & Hr & _). simpl. by rewrite Hr.
  - case_decide as Hsz; [|split; [apply approx_refl|by right]].
    split; [split|left; by eexists]; [simpl; lia|]. intros (_ & _ & _ & Hr). simpl. by rewrite Hr.
  - case_decide as Hp; [|split; [apply approx_refl|by right]].
    split; [split|left; by eexists]; [simpl; lia|]. intros (Hr & _). simpl. by rewrite Hr.
  - apply (Hjun false). simpl in Hn. unfold max_depth. lia.
  - simpl in Hn. destruct (IH q ltac:(lia)) as [[Hd Hs] Hc].
    destruct (isConst (evalConstants_fuel n q)) as [b|] eqn:E.
    + destruct (evalConstants_fuel n q); try discriminate E. injection E as ->.
      split; [split|left; by eexists]; simpl; [lia|]. intros He. specialize (Hs He). simpl in Hs. by rewrite <- Hs.
    + split; [split|right]; simpl; [lia|intros He; by rewrite Hs|].
      destruct Hc as [[? ?]|]; congruence.
  - apply (Hjun true). simpl in Hn. unfold max_depth. lia.
  - case_decide as Hp; [|split; [apply approx_refl|by right]]. subst.
    split; [split|left; by eexists]; [simpl; lia|]. intros (_ & _ & Hr & _). simpl. by rewrite Hr.
Qed.

(** ** Flattening *)

Definition sameJunction (and : bool) (q : Q) : option (list Q) :=
  match q with
  | QAnd cs => if and then Some cs else None
  | QOr cs => if and then None else Some cs
  | _ => None
  end.

(** flattenAndOr on its own. *)
Fixpoint flattenAndOr (and : bool) (children : list Q) : list Q * bool :=
  match children with
  | [] => ([], false)
  | ch :: children =>
    let '(ch, subChanged) := flatten ch in
    let '(flat, changed) := flattenAndOr and children in
    match sameJunction and ch with
    | Some subChildren => (subChildren ++ flat, true)
    | None => (ch :: flat, subChanged || changed)
    end
  end.

Lemma flatten_junction and cs :
  length cs ≠ 1%nat →
  flatten (junction and cs) = (let '(fl, ch) := flattenAndOr and cs in (junction and fl, ch)).
Proof.
  intros Hlen.
  assert (∀ cs same, (∀ q, same q = sameJunction and q) →
    (fix go (children : list Q) : list Q * bool :=
      match children with
      | [] => ([], false)
      | ch :: children =>
        let '(ch, subChanged) := flatten ch in
        let '(flat, changed) := go children in
        match same ch with
        | Some subChildren => (subChildren ++ flat, true)
        | None => (ch :: flat, subChanged || changed)
        end
      end) cs = flattenAndOr and cs) as Hgo.
  { clear. intros cs same Hs. induction cs as [|c cs IH]; [done|]. rewrite IH.
    cbn [flattenAndOr]. destruct (flatten c) as [c' b], (flattenAndOr and cs) as [fl ch].
    by rewrite Hs. }
  destruct and; cbn [junction]; destruct cs as [|c [|d cs]]; try done.
  - etrans; [|rewrite <- (Hgo _ (λ q, match q with QAnd cs => Some cs | _ => None end)); [reflexivity|by intros []]].
    reflexivity.
  - etrans; [|rewrite <- (Hgo _ (λ q, match q with QOr cs => Some cs | _ => None end)); [reflexivity|by intros []]].
    reflexivity.
Qed.

Definition sizes (cs : list Q) : nat := foldr (λ c n, (qsize c + n)%nat) 0%nat cs.
Lemma sizes_app cs ds : sizes (cs ++ ds) = (sizes cs + sizes ds)%nat.
Proof. unfold sizes. induction cs as [|c cs IH]; simpl; [done|]. rewrite IH. lia. Qed.
Lemma qsize_junction and cs : qsize (junction and cs) = S (sizes cs).
Proof. by destruct and. Qed.
Lemma flat_junction and cs : flat (junction and cs) = true ↔
  length cs ≠ 1%nat ∧ Forall (λ c, sameJunction and c = None ∧ flat c = true) cs.
Proof.
  assert (∀ c, negb ((if and then isAnd else isOr) c) && flat c = true
    ↔ sameJunction and c = None ∧ flat c = true) as Hone.
  { intros c. rewrite andb_true_iff, negb_true_iff. destruct and, c; simpl; naive_solver. }
  rewrite Forall_forall. setoid_rewrite <- Hone.
  destruct and; simpl; by rewrite andb_true_iff, bool_decide_eq_true, forallb_elem.
Qed.
Lemma sameJunction_Some and q cs : sameJunction and q = Some cs → q = junction and cs.
Proof. destruct q, and; simpl; congruence. Qed.

(** One pass keeps the meaning; it reports no change exactly when the query is
    flat already, and otherwise returns a smaller one. *)
Definition flattened (v : Q → bool) (q : Q) (r : Q * bool) : Prop :=
  sem v r.1 = sem v q ∧ (clean q = true → clean r.1 = true) ∧
  (if r.2 then (qsize r.1 < qsize q)%nat else r.1 = q ∧ flat q = true).

Lemma some_cons {A} (R : A → Prop) x l : (∃ y, y ∈ x :: l ∧ R y) ↔ R x ∨ ∃ y, y ∈ l ∧ R y.
Proof. rewrite <- !Exists_exists. apply Exists_cons. Qed.
Lemma some_app {A} (R : A → Prop) l k : (∃ y, y ∈ l ++ k ∧ R y) ↔ (∃ y, y ∈ l ∧ R y) ∨ ∃ y, y ∈ k ∧ R y.
Proof. rewrite <- !Exists_exists. apply Exists_app. Qed.

Lemma flattenAndOr_spec v and cs :
  Forall (λ q, flattened v q (flatten q)) cs →
  let '(fl, ch) := flattenAndOr and cs in
  ((∃ c, c ∈ fl ∧ sem v c = negb and) ↔ (∃ c, c ∈ cs ∧ sem v c = negb and)) ∧
  (forallb clean cs = true → forallb clean fl = true ∧ (cs ≠ [] → fl ≠ [])) ∧
  (if ch then (sizes fl < sizes cs)%nat
   else fl = cs ∧ Forall (λ c, sameJunction and c = None ∧ flat c = true) cs).
Proof.
  induction 1 as [|c cs Hc _ IH]; cbn [flattenAndOr]; [naive_solver|].
  destruct (flatten c) as [c' sub]. destruct (flattenAndOr and cs) as [fl ch].
  destruct Hc as (Hs & Hcl & Hsz), IH as (IHs & IHcl & IHsz). simpl in *.
  destruct (sameJunction and c') as [ds|] eqn:Esame.
  - apply sameJunction_Some in Esame. subst c'. split_and!.
    + pose proof (sem_junction v and ds) as Hj. rewrite Hs in Hj. by rewrite some_app, some_cons, IHs, Hj.
    + rewrite andb_true_iff, forallb_app. intros [Hc Hcs].
      apply Hcl, clean_junction in Hc as [Hne Hds]. apply forallb_elem in Hds.
      destruct (IHcl Hcs). rewrite Hds. split; [by rewrite H|]. intros _. by destruct ds.
    + rewrite sizes_app. rewrite qsize_junction in Hsz.
      assert (sizes ds < qsize c)%nat.
      { destruct sub; [lia|]. destruct Hsz as [<- _]. rewrite qsize_junction. lia. }
      assert (sizes fl <= sizes cs)%nat by (destruct ch; [lia|by destruct IHsz as [-> _]]).
      unfold sizes in *. lia.
  - split_and!.
    + by rewrite !some_cons, IHs, Hs.
    + rewrite !andb_true_iff. intros [Hc Hcs]. destruct (IHcl Hcs) as [Hfl _].
      split; [simpl; rewrite andb_true_iff; auto|done].
    + destruct sub; simpl.
      * assert (sizes fl <= sizes cs)%nat by (destruct ch; [lia|by destruct IHsz as [-> _]]).
        unfold sizes in *. lia.
      * destruct Hsz as [-> ?]. destruct ch; [unfold sizes in *; lia|].
        destruct IHsz as [-> ?]. split; [done|]. by constructor.
Qed.

Lemma flatten_one and c : flatten (junction and [c]) = (c, true).
Proof. by destruct and. Qed.

Lemma flatten_junction_spec v and cs :
  Forall (λ q, flattened v q (flatten q)) cs →
  flattened v (junction and cs) (flatten (junction and cs)).
Proof.
  intros Hcs. destruct (decide (length cs = 1%nat)) as [Hl|Hl].
  - destruct cs as [|c [|]]; try done. rewrite flatten_one. split_and!; simpl.
    + destruct and; simpl; by rewrite ?andb_true_r, ?orb_false_r.
    + rewrite clean_junction. intros [_ Hc]. apply Hc. constructor.
    + rewrite qsize_junction. simpl. lia.
  - rewrite flatten_junction by done. pose proof (flattenAndOr_spec v and cs Hcs) as Hspec.
    destruct (flattenAndOr and cs) as [fl ch]. destruct Hspec as (Hs & Hcl & Hsz).
    split_and!; simpl.
    + by apply sem_junction_ext.
    + rewrite !clean_junction, <- !forallb_elem. intros [Hne Hc]. destruct (Hcl Hc). auto.
    + destruct ch; [rewrite !qsize_junction; lia|]. destruct Hsz as [-> ?].
      split; [done|]. by apply flat_junction.
Qed.

Lemma flatten_spec v q : flattened v q (flatten q).
Proof.
  induction q as [cs IH|cs IH|c IH|q Hq] using Q_ind'.
  - by apply (flatten_junction_spec v true).
  - by apply (flatten_junction_spec v false).
  - simpl. destruct (flatten c) as [c' ch]. destruct IH as (Hs & Hcl & Hsz). simpl in *.
    split_and!; simpl; [by rewrite Hs|done|]. destruct ch; [lia|]. by destruct Hsz as [-> ?].
  - destruct q; try done; by split_and!.
Qed.

Lemma Simplify_loop_spec v fuel q :
  (qsize q < fuel)%nat →
  ∃ r, Simplify_loop fuel q = Ok r ∧ sem v r = sem v q ∧ (clean q = true → clean r = true) ∧ flat r = true.
Proof.
  revert q. induction fuel as [|fuel IH]; intros q Hf; [lia|]. cbn [Simplify_loop].
  pose proof (flatten_spec v q) as Hq. destruct (flatten q) as [q' ch].
  destruct Hq as (Hs & Hcl & Hsz). simpl in *. destruct ch.
  - destruct (IH q' ltac:(lia)) as (r & -> & Hr & Hc & Hfl). exists r.
    split_and!; [done|by rewrite Hr|auto|done].
  - destruct Hsz as [-> Hfl]. by exists q.
Qed.

Lemma Simplify_spec v q :
  ∃ r, Simplify q = Ok r ∧ normal r = true ∧ (empty_matches v → sem v r = sem v q).
Proof.
  unfold Simplify. destruct (evalConstants_fuel_evaluated v (depth q) q) as [[_ Hs] Hc]; [lia|].
  fold (evalConstants q) in *.
  destruct (Simplify_loop_spec v (S (qsize (evalConstants q))) (evalConstants q))
    as (r & E & Hr & Hcl & Hfl); [lia|].
  exists r. split_and!; [done| |by intros He; rewrite Hr, Hs].
  unfold normal. destruct Hc as [[b Hb]|Hc].
  - destruct (evalConstants q); try discriminate Hb. simpl in E. injection E as <-. done.
  - destruct (isConst r) eqn:?; [done|]. by rewrite Hcl, Hfl.
Qed.

(** ** Distilled queries *)

Section Language.
(** [eqc p c]: the rune [c] of the text is accepted for the rune [p] of a
    pattern; [fold] the same for a literal under the FoldCase flag. *)
Context (eqc fold : Z → Z → bool).

Definition many (op : Op) (mn mx : Z) (n : nat) : Prop :=
  match op with
  | OpStar => True
  | OpPlus => (1 <= n)%nat
  | OpQuest => (n <= 1)%nat
  | OpRepeat => mn <= Z.of_nat n ∧ (mx = -1 ∨ Z.of_nat n <= mx)
  | _ => False
  end.

Definition zero_width (op : Op) : Prop :=
  match op with
  | OpEmptyMatch | OpBeginLine | OpEndLine | OpBeginText | OpEndText
  | OpWordBoundary | OpNoWordBoundary => True
  | _ => False
  end.

Definition one_rune (op : Op) : Prop :=
  match op with OpCharClass | OpAnyChar | OpAnyCharNotNL => True | _ => False end.

(** The texts an expression can match. Zero-width assertions are taken to hold
    anywhere and a class to accept any rune: a superset of what the regexp
    engine accepts. *)
Inductive lang : Regexp → list Z → Prop :=
| lang_literal (fc : bool) sub rs mn mx w :
    Forall2 (λ p c, (if fc then fold else eqc) p c = true) rs w → lang (RE OpLiteral fc sub rs mn mx) w
| lang_one op fc sub rs mn mx c : one_rune op → lang (RE op fc sub rs mn mx) [c]
| lang_zero op fc sub rs mn mx : zero_width op → lang (RE op fc sub rs mn mx) []
| lang_capture fc r sub rs mn mx w : lang r w → lang (RE OpCapture fc (r :: sub) rs mn mx) w
| lang_many op fc r sub rs mn mx ws :
    many op mn mx (length ws) → Forall (lang r) ws → lang (RE op fc (r :: sub) rs mn mx) (mjoin ws)
| lang_concat fc sub rs mn mx ws :
    Forall2 lang sub ws → lang (RE OpConcat fc sub rs mn mx) (mjoin ws)
| lang_alternate fc sub rs mn mx r w :
    r ∈ sub → lang r w → lang (RE OpAlternate fc sub rs mn mx) w.

(** Substring search in a text, up to [eqc]. *)
Fixpoint prefixb (p t : list Z) : bool :=
  match p, t with
  | [], _ => true
  | x :: p, y :: t => eqc x y && prefixb p t
  | _ :: _, [] => false
  end.
Fixpoint infixb (p t : list Z) : bool :=
  prefixb p t || match t with [] => false | _ :: t => infixb p t end.

(** The valuation of a text: a substring atom holds when the text contains it. *)
Definition text_val (t : list Z) (q : Q) : bool :=
  match q with QSubstring s => infixb (runes (Pattern s)) t | _ => true end.

(** Parsed expressions: every unary operator has its operand, literals hold
    valid runes and are not under FoldCase. *)
Fixpoint re_ok (r : Regexp) : bool :=
  let 'RE op fc sub rs _ _ := r in
  forallb re_ok sub &&
  match op with
  | OpLiteral => negb fc && bool_decide (Forall valid_rune rs)
  | OpCapture | OpStar | OpPlus | OpQuest | OpRepeat => negb (bool_decide (sub = []))
  | _ => true
  end.

Lemma infixb_app p w a b :
  Forall2 (λ x y, eqc x y = true) p w → infixb p (a ++ w ++ b) = true.
Proof.
  intros Hw. induction a as [|c a IH]; simpl.
  - assert (prefixb p (w ++ b) = true) as Hp.
    { induction Hw as [|x y p w Hx _ IH]; [done|]. simpl. by rewrite Hx, IH. }
    destruct (w ++ b); simpl; by rewrite Hp.
  - by rewrite IH, orb_true_r.
Qed.

Lemma text_val_empty t : empty_matches (text_val t).
Proof.
  split_and!; try done. intros s Hs. simpl. rewrite Hs. by destruct t.
Qed.

Lemma runes_encode rs : Forall valid_rune rs → runes (encode_all rs) = rs.
Proof.
  intros Hrs. unfold runes. rewrite <- (app_nil_r (encode_all rs)), decode_all_encode by done.
  rewrite app_nil_r, <- list_fmap_compose. apply list_fmap_id.
Qed.

(** What the recursion returns for an expression, on every text. *)
Definition distills (n : Z) (r : Regexp) : Prop :=
  ∃ q, regexpToQueryRecursive r n = Ok q ∧
    ∀ w a b, lang r w → sem (text_val (a ++ w ++ b)) q = true.

Lemma mjoin_elem_split (ws : list (list Z)) w : w ∈ ws → ∃ a b, mjoin ws = a ++ w ++ b.
Proof.
  induction ws as [|x ws IH]; [by intros ?%elem_of_nil|].
  intros [->|Hw]%elem_of_cons; [by exists [], (mjoin ws)|].
  destruct (IH Hw) as (a & b & E). exists (x ++ a), b. simpl. by rewrite E, <- app_assoc.
Qed.

Lemma distills_first n op fc r sub rs mn mx :
  distills n r →
  (∀ w, lang (RE op fc (r :: sub) rs mn mx) w → ∃ v a b, lang r v ∧ w = a ++ v ++ b) →
  regexpToQueryRecursive (RE op fc (r :: sub) rs mn mx) n = regexpToQueryRecursive r n →
  distills n (RE op fc (r :: sub) rs mn mx).
Proof.
  intros (q & E & Hq) Hl Heq. exists q. rewrite Heq. split; [done|].
  intros w a b Hw. destruct (Hl w Hw) as (v & a' & b' & Hv & ->).
  specialize (Hq v (a ++ a') (b' ++ b) Hv). by rewrite <- !app_assoc in *.
Qed.

Lemma many_first op mn mx r sub fc rs w :
  (op = OpPlus ∨ op = OpRepeat ∧ 1 <= mn) →
  lang (RE op fc (r :: sub) rs mn mx) w → ∃ v a b, lang r v ∧ w = a ++ v ++ b.
Proof.
  intros Hop Hw.
  inversion Hw as [| | | |op' fc' r' sub' rs' mn' mx' ws Hm Hws| |]; subst; try by destruct Hop as [|[]].
  - destruct Hop as [->|[-> _]]; simpl in *; done.
  - destruct Hop as [->|[-> _]]; simpl in *; done.
  - destruct ws as [|v ws].
    + destruct Hop as [->|[-> ?]]; simpl in Hm; lia.
    + apply Forall_cons in Hws as [Hv _]. by exists v, [], (mjoin ws).
Qed.

Lemma distills_const n r : regexpToQueryRecursive r n = Ok (QConst true) → distills n r.
Proof. intros E. exists (QConst true). by split. Qed.

Lemma distills_collect n sub :
  Forall (distills n) sub →
  ∃ qs, mapM (λ sr, regexpToQueryRecursive sr n) sub = Ok qs ∧
    Forall2 (λ r q, ∀ w a b, lang r w → sem (text_val (a ++ w ++ b)) q = true) sub qs.
Proof.
  induction 1 as [|r sub (q & E & Hq) _ (qs & Es & Hqs)]; [by exists []|].
  exists (q :: qs). split; [|by constructor]. simpl. by rewrite E, Es.
Qed.

Lemma distills_all n r : re_ok r = true → distills n r.
Proof.
  induction r as [op fc sub rs mn mx IH] using Regexp_ind'. intros Hok.
  cbn [re_ok] in Hok. apply andb_true_iff in Hok as [Hsub Hop].
  rewrite forallb_elem in Hsub.
  assert (Forall (distills n) sub) as Hd.
  { rewrite Forall_forall in *. intros r Hr. by apply IH, Hsub. }
  clear IH Hsub.
  destruct op; try (by apply distills_const).
  - (* literal *)
    apply andb_true_iff in Hop as [Hfc Hrs]. apply negb_true_iff in Hfc. subst fc.
    apply bool_decide_eq_true in Hrs. unfold distills. cbn [regexpToQueryRecursive].
    case_match; [|by exists (QConst true)].
    eexists. split; [done|]. intros w a b Hw. inversion Hw; subst; try done.
    simpl. rewrite runes_encode by done. by apply infixb_app.
  - (* capture *)
    destruct sub as [|r sub]; [done|]. apply Forall_cons in Hd as [Hr _].
    apply distills_first; [done| |done]. intros w Hw. inversion Hw; subst; try done.
    exists w, [], []. by rewrite app_nil_r.
  - (* plus *)
    destruct sub as [|r sub]; [done|]. apply Forall_cons in Hd as [Hr _].
    apply distills_first; [done| |done]. intros w. apply many_first. by left.
  - (* repeat *)
    destruct sub as [|r sub]; [done|]. apply Forall_cons in Hd as [Hr _].
    destruct (Z.leb_spec 1 mn) as [Hmn|Hmn].
    + apply distills_first; [done| |cbn [regexpToQueryRecursive]; by rewrite (proj2 (Z.leb_le _ _) Hmn)].
      intros w. apply many_first. by right.
    + apply distills_const. cbn [regexpToQueryRecursive]. by rewrite (proj2 (Z.leb_gt _ _) Hmn).
  - (* concat *)
    destruct (distills_collect n sub Hd) as (qs & E & Hqs). exists (QAnd qs).
    cbn [regexpToQueryRecursive]. rewrite E. split; [done|].
    intros w a b Hw. inversion Hw as [| | | | |fc' sub' rs' mn' mx' ws Hws|]; subst; try done.
    apply (forallb_elem (sem _)). intros q Hq.
    apply list_elem_of_lookup in Hq as [i Hi].
    destruct (Forall2_lookup_r _ _ _ _ _ Hqs Hi) as (r & Hr & Hsem).
    destruct (Forall2_lookup_l _ _ _ _ _ Hws Hr) as (v & Hv & Hlv).
    destruct (mjoin_elem_split ws v) as (a' & b' & ->); [by eapply list_elem_of_lookup_2|].
    specialize (Hsem v (a ++ a') (b' ++ b) Hlv). by rewrite <- !app_assoc in *.
  - (* alternate *)
    destruct (distills_collect n sub Hd) as (qs & E & Hqs). exists (QOr qs).
    cbn [regexpToQueryRecursive]. rewrite E. split; [done|].
    intros w a b Hw. inversion Hw as [| | | | | |fc' sub' rs' mn' mx' r w' Hr Hlr]; subst; try done.
    apply (existsb_elem (sem _)). apply list_elem_of_lookup in Hr as [i Hi].
    destruct (Forall2_lookup_l _ _ _ _ _ Hqs Hi) as (q & Hq & Hsem).
    exists q. split; [by eapply list_elem_of_lookup_2|]. by apply Hsem.
Qed.

End Language.

(** ** Expansion *)

(** A text atom that is restricted to file names or to content; other atoms
    are not text atoms. *)
Definition bound_atom (q : Q) : bool :=
  match q with
  | QSubstring s => FileName s || Content s
  | QRegexp _ f c _ => f || c
  | _ => true
  end.

(** Valuations in which an unrestricted text atom holds when it matches the
    name or the content. *)
Definition name_or_content (v : Q → bool) : Prop :=
  (∀ p cs, v (QSubstring (MkSubstring p cs false false))
           = v (QSubstring (MkSubstring p cs true false)) || v (QSubstring (MkSubstring p cs false true))) ∧
  (∀ re cs, v (QRegexp re false false cs) = v (QRegexp re true false cs) || v (QRegexp re false true cs)).

Definition expanded (v : Q → bool) (q r : Q) : Prop :=
  (name_or_content v → sem v r = sem v q) ∧ forallb bound_atom (VisitAtoms r) = true.

Lemma expanded_junction v and cs rs :
  Forall2 (expanded v) cs rs → expanded v (junction and cs) (junction and rs).
Proof.
  intros H. split.
  - intros Hn. apply sem_junction_ext. symmetry.
    induction H as [|c r cs rs [Hc _] _ IH]; [done|].
    specialize (Hc Hn). by rewrite !some_cons, IH, Hc.
  - assert (forallb bound_atom (foldr (λ c acc, VisitAtoms c ++ acc) [] rs) = true).
    { induction H as [|c r cs rs [_ Hc] _ IH]; [done|]. simpl. by rewrite forallb_app, Hc, IH. }
    by destruct and.
Qed.

Lemma Map_expanded v q : expanded v q (Map q ExpandFileContent).
Proof.
  induction q as [cs IH|cs IH|c [Hs Hb]|q Hq] using Q_ind'; simpl.
  - by apply (expanded_junction v true), Forall2_map_r.
  - by apply (expanded_junction v false), Forall2_map_r.
  - split; simpl; [|done]. intros Hn. by rewrite Hs.
  - destruct q; try done.
    + destruct fileName, content; try done. split; simpl; [|done].
      intros [_ Hn]. by rewrite Hn, orb_false_r.
    + destruct s as [p cs [] []]; try done. split; simpl; [|done].
      intros [Hn _]. by rewrite Hn, orb_false_r.
Qed.

(** ** Atoms

    Whatever holds of the atoms of a query and of constants holds of the atoms of what it is simplified to. *)

Lemma atoms_junction (P : Q → Prop) and cs : Forall P (VisitAtoms (junction and cs)) ↔ Forall (λ c, Forall P (VisitAtoms c)) cs.
Proof.
  transitivity (Forall P (foldr (λ c acc, VisitAtoms c ++ acc) [] cs)); [by destruct and|].
  induction cs as [|c cs IH]; [done|]. simpl. by rewrite Forall_app, IH, Forall_cons.
Qed.

Lemma Map_atoms (P P' : Q → Prop) f q :
  (∀ a, is_atom a = true → P a → Forall P' (VisitAtoms (f a))) →
  (∀ q, is_atom q = false → Forall P' (VisitAtoms q) → Forall P' (VisitAtoms (f q))) →
  Forall P (VisitAtoms q) → Forall P' (VisitAtoms (Map q f)).
Proof.
  intros Ha Hf. induction q as [cs IH|cs IH|c IH|q Hq] using Q_ind'; intros HP; cbn [Map].
  - apply Hf, (atoms_junction _ true); [done|]. apply (atoms_junction _ true) in HP. rewrite Forall_forall in *.
    change (map ?g ?l) with (g <$> l). intros x (c & -> & Hc)%list_elem_of_fmap. by apply IH, HP.
  - apply Hf, (atoms_junction _ false); [done|]. apply (atoms_junction _ false) in HP. rewrite Forall_forall in *.
    change (map ?g ?l) with (g <$> l). intros x (c & -> & Hc)%list_elem_of_fmap. by apply IH, HP.
  - apply Hf; [done|]. by apply IH.
  - destruct q; try done; (apply Ha; [done|]; by apply Forall_cons in HP as [HP _]).
Qed.

(** Queries whose atoms have the same value under two valuations. *)
Lemma sem_ext v w q : Forall (λ a, isConst a = None → v a = w a) (VisitAtoms q) → sem v q = sem w q.
Proof.
  induction q as [cs IH|cs IH|c IH|q Hq] using Q_ind'; intros Ha.
  - apply (atoms_junction _ true) in Ha. cbn [sem]. induction IH as [|c cs Hc _ IHcs]; [done|].
    apply Forall_cons in Ha as [Ha1 Ha2]. cbn [forallb]. by rewrite Hc, IHcs.
  - apply (atoms_junction _ false) in Ha. cbn [sem]. induction IH as [|c cs Hc _ IHcs]; [done|].
    apply Forall_cons in Ha as [Ha1 Ha2]. cbn [existsb]. by rewrite Hc, IHcs.
  - cbn [sem]. by rewrite IH.
  - destruct q; try done; (apply Forall_cons in Ha as [Ha _]; by apply Ha).
Qed.
(** A function on atoms that keeps their value. *)
Lemma sem_Map v f q : (∀ q, is_atom q = false → f q = q) → (∀ a, is_atom a = true → sem v (f a) = sem v a) → sem v (Map q f) = sem v q.
Proof.
  intros Hid Ha. induction q as [cs IH|cs IH|c IH|q Hq] using Q_ind'; cbn [Map].
  - rewrite Hid by done. cbn [sem]. induction IH as [|c cs Hc _ IHcs]; [done|]. cbn [map forallb]. by rewrite Hc, IHcs.
  - rewrite Hid by done. cbn [sem]. induction IH as [|c cs Hc _ IHcs]; [done|]. cbn [map existsb]. by rewrite Hc, IHcs.
  - rewrite Hid by done. cbn [sem]. by rewrite IH.
  - destruct q; try done; by apply Ha.
Qed.

Section Atoms.
Context (P : Q → Prop) (HP : ∀ b, P (QConst b)).
#[local] Abbreviation atoms q := (Forall P (VisitAtoms q)).

Lemma evalAndOr_atoms and cs : Forall (λ c, atoms c) cs → atoms (evalAndOrConstants and cs).
Proof.
  intros Hcs. unfold evalAndOrConstants.
  assert (match dropConsts and cs with inl c => atoms c | inr ds => Forall (λ c, atoms c) ds end) as Hd.
  { induction Hcs as [|c cs Hc _ IH]; [constructor|]. cbn [dropConsts]. destruct (isConst c).
    - by destruct (Bool.eqb _ _).
    - destruct (dropConsts and cs); [done|by constructor]. }
  destruct (dropConsts and cs) as [|[|c ds]]; [done|by repeat constructor|].
  change (if and then _ else _) with (junction and (c :: ds)). by apply atoms_junction.
Qed.

Lemma evalConstants_atoms k q : atoms q → atoms (evalConstants_fuel k q).
Proof.
  revert q. induction k as [|k IH]; intros q Ha; [done|].
  assert (∀ cs, Forall (λ c, atoms c) cs → Forall (λ c, atoms c) (mapQueryList cs (evalConstants_fuel k))) as Hmap.
  { intros cs Hcs. unfold mapQueryList. change (map ?g ?l) with (g <$> l). rewrite Forall_fmap.
    eapply Forall_impl; [exact Hcs|]. intros c Hc. apply (Map_atoms P); [|by intros; apply IH|done].
    intros a Ha' Hpa. apply IH. destruct a; try done; by constructor. }
  destruct q; cbn [evalConstants_fuel]; try done; try (repeat case_match; first [done|by repeat constructor]).
  - by apply evalAndOr_atoms, Hmap, (atoms_junction P false).
  - specialize (IH q Ha). destruct (evalConstants_fuel k q); try done. by repeat constructor.
  - by apply evalAndOr_atoms, Hmap, (atoms_junction P true).
Qed.

Lemma flattenAndOr_atoms and cs : Forall (λ c, atoms (fst (flatten c))) cs →
  Forall (λ c, atoms c) (fst (flattenAndOr and cs)).
Proof.
  induction 1 as [|c cs Hc _ IH]; [constructor|]. cbn [flattenAndOr]. destruct (flatten c) as [c' b].
  destruct (flattenAndOr and cs) as [fl ch]. simpl in *. destruct (sameJunction and c') as [ds|] eqn:E; simpl; [|by constructor].
  apply sameJunction_Some in E as ->. apply Forall_app. split; [by eapply atoms_junction|done].
Qed.

Lemma flatten_atoms q : atoms q → atoms (fst (flatten q)).
Proof.
  assert (∀ and cs, Forall (λ q, atoms q → atoms (fst (flatten q))) cs → Forall (λ c, atoms c) cs → atoms (fst (flatten (junction and cs)))) as Hj.
  { intros and cs IH Hcs. destruct (decide (length cs = 1%nat)) as [E|Hne].
    - destruct cs as [|c [|]]; try done. rewrite flatten_one. by apply Forall_cons in Hcs as [? _].
    - rewrite flatten_junction by done. pose proof (flattenAndOr_atoms and cs) as Hf. destruct (flattenAndOr and cs) as [fl ch].
      simpl in *. apply atoms_junction, Hf. rewrite Forall_forall in *. intros c Hc. by apply IH, Hcs. }
  induction q as [cs IH|cs IH|c IH|q Hq] using Q_ind'; intros Ha.
  - apply (Hj true); [done|by apply (atoms_junction P true)].
  - apply (Hj false); [done|by apply (atoms_junction P false)].
  - cbn [flatten]. specialize (IH Ha). by destruct (flatten c).
  - by destruct q.
Qed.

Lemma Simplify_loop_atoms fuel q r : Simplify_loop fuel q = Ok r → atoms q → atoms r.
Proof.
  revert q. induction fuel as [|fuel IH]; intros p E Ha; [discriminate E|].
  cbn [Simplify_loop] in E. apply flatten_atoms in Ha. destruct (flatten p) as [p' []]; simpl in *; [by eapply IH|by injection E as <-].
Qed.
Lemma Simplify_atoms q r : Simplify q = Ok r → atoms q → atoms r.
Proof. unfold Simplify. intros E Ha. eapply Simplify_loop_atoms; [exact E|]. by apply evalConstants_atoms. Qed.
End Atoms.

(** Atoms that evalConstants takes for true: none is left by Simplify. *)
Definition trivial_atom (a : Q) : bool :=
  match a with
  | QSubstring s => bool_decide (Pattern s = [])
  | QRegexp re _ _ _ => match re_op re with OpEmptyMatch => true | _ => false end
  | QBranch pattern => bool_decide (pattern = [])
  | QRepoSet set => bool_decide (size set = 0%nat)
  | _ => false
  end.

Lemma evalConstants_nontrivial k q : (depth q <= k)%nat → Forall (λ a, trivial_atom a = false) (VisitAtoms (evalConstants_fuel k q)).
Proof.
  revert k. assert (∀ k a, is_atom a = true → Forall (λ a, trivial_atom a = false) (VisitAtoms (evalConstants_fuel (S k) a))) as Hatom.
  { intros k a Ha. destruct a; try done; cbn [evalConstants_fuel].
    - repeat constructor.
    - destruct (re_op re) eqn:E; (repeat constructor); cbn [trivial_atom]; by rewrite ?E.
    - repeat constructor.
    - repeat constructor.
    - repeat constructor.
    - repeat constructor.
    - repeat constructor.
    - case_decide; repeat constructor. by apply bool_decide_false.
    - case_decide; repeat constructor. by apply bool_decide_false.
    - case_decide; repeat constructor. by apply bool_decide_false.
    - repeat constructor. }
  assert (∀ and cs k, Forall (λ c, depth c <= k)%nat cs →
    Forall (λ a, trivial_atom a = false) (VisitAtoms (evalAndOrConstants and (mapQueryList cs (evalConstants_fuel k))))) as Hj.
  { intros and cs k Hd. apply evalAndOr_atoms; [done|]. unfold mapQueryList. change (map ?g ?l) with (g <$> l). rewrite Forall_fmap.
    eapply Forall_impl; [exact Hd|]. intros c Hc. cbn beta in Hc. pose proof (depth_pos c). destruct k as [|k]; [lia|].
    cbn [compose]. apply (Map_atoms (λ _, True)).
    - intros a Ha _. by apply Hatom.
    - intros q' _ Hq'. by apply evalConstants_atoms.
    - by apply Forall_true. }
  induction q as [cs IH|cs IH|c IH|q Hq] using Q_ind'; intros k Hk; 
    (destruct k as [|k]; [match type of Hk with (depth ?q <= _)%nat => pose proof (depth_pos q) end; lia|]).
  - cbn [evalConstants_fuel]. apply Hj, max_depth_le. cbn [depth] in Hk. unfold max_depth. lia.
  - cbn [evalConstants_fuel]. apply Hj, max_depth_le. cbn [depth] in Hk. unfold max_depth. lia.
  - cbn [evalConstants_fuel]. cbn [depth] in Hk. specialize (IH k ltac:(lia)). destruct (evalConstants_fuel k c); try done. repeat constructor.
  - by apply Hatom.
Qed.
Lemma Simplify_nontrivial q r : Simplify q = Ok r → Forall (λ a, trivial_atom a = false) (VisitAtoms r).
Proof.
  unfold Simplify. intros E. pose proof (evalConstants_nontrivial (depth q) q ltac:(lia)) as Ha. fold (evalConstants q) in Ha.
  by eapply Simplify_loop_atoms.
Qed.

(** A distilled query consists of substrings and constants. *)
Lemma RegexpToQuery_atoms r n q : RegexpToQuery r n = Ok q →
  Forall (λ a, match a with QSubstring _ | QConst _ => True | _ => False end) (VisitAtoms q).
Proof.
  unfold RegexpToQuery. intros E. apply bind_Ok in E as (q' & E & Hs). eapply Simplify_atoms; [done|exact Hs|]. clear Hs.
  revert q' E. induction r as [op fc sub rs mn mx IH] using Regexp_ind'. intros q' E.
  assert (∀ qs, mapM (λ sr, regexpToQueryRecursive sr n) sub = Ok qs → Forall (λ c, Forall (λ a, match a with QSubstring _ | QConst _ => True | _ => False end) (VisitAtoms c)) qs) as Hm.
  { clear -IH. induction IH as [|r sub Hr _ IHs]; intros qs E; simpl in E; [by injection E as <-|].
    apply bind_Ok in E as (x & Ex & E). apply bind_Ok in E as (xs & Exs & [= <-]). constructor; [by apply Hr|by apply IHs]. }
  assert (∀ r sub', sub = r :: sub' → regexpToQueryRecursive r n = Ok q' → Forall (λ a, match a with QSubstring _ | QConst _ => True | _ => False end) (VisitAtoms q')) as H1.
  { intros r sub' -> Er. apply Forall_cons in IH as [Hr _]. by apply Hr. }
  cbn [regexpToQueryRecursive] in E. destruct op; try (injection E as <-; by repeat constructor).
  - case_match; injection E as <-; by repeat constructor.
  - destruct sub; [done|]. by eapply H1.
  - destruct sub; [done|]. by eapply H1.
  - case_match; [|injection E as <-; by repeat constructor]. destruct sub; [done|]. by eapply H1.
  - apply bind_Ok in E as (qs & Eq & [= <-]). apply (atoms_junction _ true). by apply Hm.
  - apply bind_Ok in E as (qs & Eq & [= <-]). apply (atoms_junction _ false). by apply Hm.
Qed.

(** The distilled query exists, and holds on every text with a part the expression can match. *)
Lemma RegexpToQuery_holds (eqc fold : Z → Z → bool) (r : Regexp) (n : Z) (Hok : re_ok r = true) :
  ∃ q, RegexpToQuery r n = Ok q ∧
    ∀ w before after, lang eqc fold r w → sem (text_val eqc (before ++ w ++ after)) q = true.
Proof.
  destruct (distills_all eqc fold n r Hok) as (q & E & Hq).
  destruct (Simplify_spec (λ _, true) q) as (q' & E' & _).
  exists q'. unfold RegexpToQuery. rewrite E. split; [done|].
  intros w a b Hw. destruct (Simplify_spec (text_val eqc (a ++ w ++ b)) q) as (q'' & E'' & _ & Hs).
  rewrite E' in E''. injection E'' as <-. rewrite Hs by apply text_val_empty. by apply Hq.
Qed.

(** ** Properties *)

(** C16: Simplify terminates on every query. Its result is a constant, or has no
    constants, no empty or one-element And/Or and none directly inside one of its
    own kind; and it means the same as the input under every valuation in which
    empty patterns match. *)
Theorem Simplify_correct (v : Q → bool) (q : Q) :
  ∃ r, Simplify q = Ok r ∧ normal r = true ∧ (empty_matches v → sem v r = sem v q).
Proof. apply Simplify_spec. Qed.

(** C17: the substring query distilled from a regular expression whose literals do not
    fold case ([re_ok]: none is under (?i); literals hold valid runes, and unary operators have their
    operand, as the parser makes them) is never too strict: RegexpToQuery returns, and the query holds on
    every text with a part the expression can match, so the index hides no match of such an expression.
    For case-folding literals this is false, as the next theorem shows. *)
Theorem RegexpToQuery_sound (eqc fold : Z → Z → bool) (r : Regexp) (n : Z) (Hok : re_ok r = true) :
  ∃ q, RegexpToQuery r n = Ok q ∧
    ∀ w before after, lang eqc fold r w → sem (text_val eqc (before ++ w ++ after)) q = true.
Proof. by apply RegexpToQuery_holds. Qed.

(** The distillation ignores the FoldCase flag. A literal under (?i)
    matches texts in another case, but the substring query compares it with the
    case of the pattern, so with a case-sensitive comparison the distilled query
    rejects a text the expression matches. *)
Theorem RegexpToQuery_foldcase_unsound :
  ∃ r w q, lang Z.eqb (λ p c, latin_lower p =? latin_lower c) r w ∧
    RegexpToQuery r 3 = Ok q ∧ sem (text_val Z.eqb w) q = false.
Proof.
  exists (RE OpLiteral true [] (str "ABC") 0 0), (str "abc"),
    (QSubstring (MkSubstring (str "ABC") false false false)).
  split_and!; [|reflexivity|reflexivity].
  apply lang_literal. repeat constructor.
Qed.

(** Expanding a query over file name and content leaves every text atom
    restricted to one of the two and keeps the meaning: an unrestricted atom
    holds when it matches either. *)
Theorem ExpandFileContent_correct (v : Q → bool) (q : Q) (Hv : name_or_content v) :
  sem v (Map q ExpandFileContent) = sem v q ∧
  forallb bound_atom (VisitAtoms (Map q ExpandFileContent)) = true.
Proof. destruct (Map_expanded v q) as [Hs Hb]. auto. Qed.

(** Witnesses. *)

Lemma RegexpToQuery_sound_witness :
  ∃ q, RegexpToQuery (RE OpConcat false
         [RE OpLiteral false [] (str "foo") 0 0; RE OpStar false [RE OpAnyChar false [] [] 0 0] [] 0 0;
          RE OpLiteral false [] (str "barx") 0 0] [] 0 0) 3 = Ok q ∧
  ∀ w before after, lang Z.eqb Z.eqb (RE OpConcat false
         [RE OpLiteral false [] (str "foo") 0 0; RE OpStar false [RE OpAnyChar false [] [] 0 0] [] 0 0;
          RE OpLiteral false [] (str "barx") 0 0] [] 0 0) w →
    sem (text_val Z.eqb (before ++ w ++ after)) q = true.
Proof. apply RegexpToQuery_sound. vm_compute. reflexivity. Defined.

Lemma ExpandFileContent_correct_witness :
  sem (λ _, true) (Map (QAnd [QSubstring (MkSubstring (str "ab") true false false); QConst true])
                       ExpandFileContent) = true ∧
  forallb bound_atom (VisitAtoms (Map (QAnd [QSubstring (MkSubstring (str "ab") true false false);
                                             QConst true]) ExpandFileContent)) = true.
Proof.
  apply (ExpandFileContent_correct (λ _, true)
           (QAnd [QSubstring (MkSubstring (str "ab") true false false); QConst true])).
  by split.
Defined.
