(* ===== verification/Parse.v ===== *)
(** * query/parse.go: the query parser

    The tokenizer, the recursive-descent parser and the resolution of the [or]
    operator and of [case:] directives. regexp/syntax's [Parse] and
    [Regexp.String] are parameters; nothing is assumed of them. Loops whose
    progress is not structural take fuel, and [Parse] grants
    twice the length of the input, which [Parse_total] shows to be enough. *)

From S2P Require Import Prelude GoStd Query.
Import utf8.

(** ** String literals *)

Fixpoint literal_loop (lft lit : bytes) : res (bytes * bytes) :=
  match lft with
  | [] => Err "query: unterminated quoted string"
  | c :: lft =>
    if c =? 34 then Ok (lit, lft)
    else if c =? 92 then
      match lft with
      | [] => Err "query: missing char after \"
      | c' :: lft => literal_loop lft (lit ++ [c'])
      end
    else literal_loop lft (lit ++ [c])
  end.

(** The literal and the number of bytes consumed, both quotes included. *)
Definition parseStringLiteral (inp : bytes) : res (bytes * Z) :=
  lft ← slice_from inp 1;
  '(lit, lft) ← literal_loop lft [];
  Ok (lit, lenZ inp - lenZ lft).

Definition isSpace (c : Z) : bool := (c =? 32) || (c =? 9).

Fixpoint keyword_loop (fuel : nat) (lft arg : bytes) : res (bytes * bytes) :=
  match lft with
  | [] => Ok (arg, lft)
  | c :: rest =>
    match fuel with
    | O => OutOfFuel
    | S fuel =>
      if c =? 34 then
        '(lit, n) ← parseStringLiteral lft;
        lft ← slice_from lft n;
        keyword_loop fuel lft lit
      else if isSpace c then Ok (arg, lft)
      else keyword_loop fuel rest (arg ++ [c])
    end
  end.

(** [None] when the keyword is not there. *)
Definition consumeKeyword (inp kw : bytes) : res (option (bytes * Z)) :=
  if HasPrefix inp kw then
    lft ← slice_from inp (lenZ kw);
    '(arg, lft) ← keyword_loop (length lft) lft [];
    Ok (Some (arg, lenZ inp - lenZ lft))
  else Ok None.

(** ** Tokens *)

Inductive tokType :=
| tokText | tokFile | tokRepo | tokCase | tokBranch | tokParenOpen | tokParenClose
| tokError | tokNegate | tokRegex | tokOr | tokContent | tokLang | tokSym.
#[global] Instance tokType_eq_dec : EqDecision tokType.
Proof. solve_decision. Defined.

Record token := Token { t_Type : tokType; t_Text : bytes; t_Input : bytes }.

Definition prefixes : list (bytes * tokType) :=
  [(str "b:", tokBranch); (str "branch:", tokBranch); (str "c:", tokContent);
   (str "case:", tokCase); (str "content:", tokContent); (str "f:", tokFile);
   (str "file:", tokFile); (str "r:", tokRepo); (str "regex:", tokRegex);
   (str "repo:", tokRepo); (str "lang:", tokLang); (str "sym:", tokSym)].
Definition reservedWords : list (bytes * tokType) := [(str "or", tokOr)].

Fixpoint setReserved (words : list (bytes * tokType)) (t : token) : token :=
  match words with
  | [] => t
  | (w, typ) :: words =>
    if bool_decide (t_Text t = w) && bool_decide (t_Input t = w)
    then Token typ (t_Text t) (t_Input t) else setReserved words t
  end.

Fixpoint setPrefix (prefs : list (bytes * tokType)) (t : token) : res token :=
  match prefs with
  | [] => Ok t
  | (pref, typ) :: prefs =>
    if negb (HasPrefix (t_Input t) pref) then setPrefix prefs t
    else text ← slice_from (t_Text t) (lenZ pref); Ok (Token typ text (t_Input t))
  end.

(** [prefs] is the table [prefixes] in the order the range loop happens to visit
    it: Go does not fix the iteration order of a map. *)
Definition setType (prefs : list (bytes * tokType)) (t : token) : res token :=
  let t := if bool_decide (t_Text t = [40]) then Token tokParenOpen (t_Text t) (t_Input t) else t in
  let t := if bool_decide (t_Text t = [41]) then Token tokParenClose (t_Text t) (t_Input t) else t in
  setPrefix prefs (setReserved reservedWords t).

(** The scanning loop of nextToken: the text, the rest of the input, and
    whether a space was found inside parentheses. *)
Fixpoint token_loop (fuel : nat) (lft : bytes) (parenCount : Z) (text : bytes)
    : res (bytes * bytes * bool) :=
  match lft with
  | [] => Ok (text, lft, false)
  | c :: rest =>
    match fuel with
    | O => OutOfFuel
    | S fuel =>
      if c =? 40 then token_loop fuel rest (parenCount + 1) (text ++ [c])
      else if c =? 41 then
        if parenCount =? 0 then
          match text with
          | [] => Ok ([41], rest, false)
          | _ => Ok (text, lft, false)
          end
        else token_loop fuel rest (parenCount - 1) (text ++ [c])
      else if c =? 34 then
        '(t, n) ← parseStringLiteral lft;
        lft ← slice_from lft n;
        token_loop fuel lft parenCount (text ++ t)
      else if c =? 92 then
        match rest with
        | [] => Err "query: lone \ at end"
        | c' :: rest => token_loop fuel rest parenCount (text ++ [92; c'])
        end
      else if (c =? 32) || (c =? 10) || (c =? 9) then Ok (text, lft, 0 <? parenCount)
      else token_loop fuel rest parenCount (text ++ [c])
    end
  end.

Definition nextToken (inp : bytes) : res (option token) :=
  match inp with
  | [] => Ok None
  | c :: _ =>
    if c =? 45 then Ok (Some (Token tokNegate [45] (take 1 inp)))
    else
      '(text, lft, foundSpace) ← token_loop (length inp) inp 0 [];
      match text with
      | [] => Ok None
      | c0 :: _ =>
        let cur :=
          if (foundSpace : bool) && (c0 =? 40) then Token tokText (take 1 text) (take 1 inp)
          else Token tokText text (take (Z.to_nat (lenZ inp - lenZ lft)) inp) in
        cur ← setType prefixes cur; Ok (Some cur)
      end
  end.

(** ** Operators and case directives *)

Fixpoint operators_loop (qs : list Q) (seenOr : bool) (top cur : list Q) : res Q :=
  match qs with
  | [] =>
    if seenOr && bool_decide (cur = []) then Err "query: OR operator should have operand"
    else Ok (QOr (top ++ [QAnd cur]))
  | QOrOperator :: qs =>
    match cur with
    | [] => Err "query: OR operator should have operand"
    | _ => operators_loop qs true (top ++ [QAnd cur]) []
    end
  | q :: qs => operators_loop qs seenOr top (cur ++ [q])
  end.

Definition parseOperators (qs : list Q) : res Q := operators_loop qs false [] [].

(** The flavor of the last [case:] directive of the list, and the other queries. *)
Fixpoint splitCase (flavor : bytes) (qs : list Q) : bytes * list Q :=
  match qs with
  | [] => (flavor, [])
  | QCase f :: qs => splitCase f qs
  | q :: qs => let '(f, rest) := splitCase flavor qs in (f, q :: rest)
  end.

Fixpoint skipSpaces (b : bytes) : bytes :=
  match b with
  | c :: rest => if isSpace c then skipSpaces rest else b
  | [] => []
  end.

(** ** The parser *)

Section Parser.
(** syntax.Parse under regexpFlags: [None] is an error. *)
Context (syntaxParse : bytes → option Regexp) (reString : Regexp → bytes).

Definition regexpQuery (text : bytes) (content file : bool) : res Q :=
  match syntaxParse text with
  | None => Err "error parsing regexp"
  | Some r =>
    match r with
    | RE OpLiteral _ _ rune _ _ => Ok (QSubstring (MkSubstring (encode_all rune) false file content))
    | _ => Ok (QRegexp r file content false)
    end
  end.

Definition applyCase (qs : list Q) : list Q :=
  let '(flavor, newQS) := splitCase (str "auto") qs in
  mapQueryList newQS (setCase reString flavor).

(** The body of parseExpr: a query ([QNil] for nil) and the bytes consumed. The
    recursive calls are [pExpr] (parseExpr) and [pExprs] (the loop of
    parseExprList, with the rest of the input). *)
Definition expr_body (pExpr : bytes → res (Q * Z)) (pExprs : bytes → res (list Q * bytes))
    (inp : bytes) : res (Q * Z) :=
  let b := skipSpaces inp in
  otok ← nextToken b;
  match otok with
  | None => Ok (QNil, 0)
  | Some tok =>
    b ← slice_from b (lenZ (t_Input tok));
    let text := t_Text tok in
    let return_ expr b := Ok (expr, lenZ inp - lenZ b) in
    match t_Type tok with
    | tokCase =>
      if bool_decide (text = str "yes") || bool_decide (text = str "no")
         || bool_decide (text = str "auto")
      then return_ (QCase text) b
      else Err "query: unknown case argument, want {yes,no,auto}"
    | tokRepo => return_ (QRepo text) b
    | tokBranch => return_ (QBranch text) b
    | tokText | tokRegex => q ← regexpQuery text false false; return_ q b
    | tokFile => q ← regexpQuery text false true; return_ q b
    | tokContent => q ← regexpQuery text true false; return_ q b
    | tokLang => return_ (QLanguage text) b
    | tokSym =>
      match text with
      | [] => Err "the sym: atom must have an argument"
      | _ => return_ (QSymbol (MkSubstring text false false false)) b
      end
    | tokParenClose => return_ QNil b
    | tokParenOpen =>
      '(qs, rest) ← pExprs b;
      b ← slice_from b (lenZ b - lenZ rest);
      pTok ← nextToken b;
      match pTok with
      | Some (Token tokParenClose _ input) =>
        b ← slice_from b (lenZ input);
        expr ← parseOperators (applyCase qs);
        return_ expr b
      | _ => Err "query: missing close paren"
      end
    | tokNegate =>
      '(subQ, n) ← pExpr b;
      b ← slice_from b n;
      return_ (QNot subQ) b
    | tokOr | tokError => return_ QNil b
    end
  end.

(** The loop of parseExprList, first iteration unrolled. *)
Definition exprs_body (pExpr : bytes → res (Q * Z)) (pExprs : bytes → res (list Q * bytes))
    (b : bytes) : res (list Q * bytes) :=
  match b with
  | [] => Ok ([], b)
  | _ =>
    let b := skipSpaces b in
    let other :=
      '(q, n) ← pExpr b;
      match q with
      | QNil => Ok ([], b)
      | _ =>
        b ← slice_from b n;
        '(qs, b) ← pExprs b;
        Ok (q :: qs, b)
      end in
    match nextToken b with
    | Panic w => Panic w
    | OutOfFuel => OutOfFuel
    | Err _ | Ok None => other
    | Ok (Some tok) =>
      match t_Type tok with
      | tokParenClose => Ok ([], b)
      | tokOr =>
        b ← slice_from b (lenZ (t_Input tok));
        '(qs, b) ← pExprs b;
        Ok (QOrOperator :: qs, b)
      | _ => other
      end
    end
  end.

Fixpoint parseExpr (fuel : nat) (inp : bytes) : res (Q * Z) :=
  match fuel with
  | O => OutOfFuel
  | S fuel => expr_body (parseExpr fuel) (parseExprs fuel) inp
  end
with parseExprs (fuel : nat) (b : bytes) : res (list Q * bytes) :=
  match fuel with
  | O => OutOfFuel
  | S fuel => exprs_body (parseExpr fuel) (parseExprs fuel) b
  end.

Definition parseExprList (fuel : nat) (inp : bytes) : res (list Q * Z) :=
  '(qs, b) ← parseExprs fuel inp;
  Ok (applyCase qs, lenZ inp - lenZ b).

Definition Parse (qStr : bytes) : res Q :=
  '(qs, _) ← parseExprList (2 * length qStr + 2) qStr;
  q ← parseOperators qs;
  Simplify q.
End Parser.

(** ** Tokens consume a prefix of the input *)

Lemma literal_loop_spec lft lit :
  settled (literal_loop lft lit) ∧
  ∀ lit' rest, literal_loop lft lit = Ok (lit', rest) → (length rest < length lft)%nat.
Proof.
  remember (length lft) as k eqn:Hk. revert lft lit Hk.
  induction k as [k IH] using lt_wf_ind. intros [|c lft] lit ->; [by split|]. simpl.
  repeat case_match; subst; try by split.
  - split; [done|]. intros ? ? [=]; subst. lia.
  - edestruct (IH (length l) ltac:(simpl; lia) l) as [Hs Hl]; [done|]. split; [done|].
    intros ? ? E. apply Hl in E. simpl. lia.
  - edestruct (IH (length lft) ltac:(simpl; lia) lft) as [Hs Hl]; [done|]. split; [done|].
    intros ? ? E. apply Hl in E. lia.
Qed.

Lemma parseStringLiteral_spec c rest :
  settled (parseStringLiteral (c :: rest)) ∧
  ∀ t n, parseStringLiteral (c :: rest) = Ok (t, n) → 2 <= n <= lenZ (c :: rest).
Proof.
  unfold parseStringLiteral. rewrite slice_from_Ok by (autorewrite with go_len; pose proof (lenZ_nonneg rest); lia).
  change (drop (Z.to_nat 1) (c :: rest)) with rest. simpl.
  destruct (literal_loop_spec rest []) as [Hs Hl]. unfold lenZ.
  destruct (literal_loop rest []) as [[lit l]| | |] eqn:E; simpl in *; try done; split; try done.
  intros ? ? [=]; subst. specialize (Hl _ _ eq_refl). lia.
Qed.

Lemma token_loop_spec fuel lft k text :
  (length lft <= fuel)%nat →
  settled (token_loop fuel lft k text) ∧
  ∀ text' rest sp, token_loop fuel lft k text = Ok (text', rest, sp) →
    (∃ t, text' = text ++ t) ∧ (length rest <= length lft)%nat ∧
    (length rest = length lft → text' = text) ∧ ∃ used, lft = used ++ rest.
Proof.
  revert lft k text. induction fuel as [|fuel IH]; intros [|c lft] k text Hf; simpl in *.
  1, 3: split; [done|]; intros ? ? ? [=]; subst; split_and!; try done;
    [exists []; by rewrite app_nil_r|by exists []].
  1: lia.
  (* one more input byte or more is consumed, then the loop goes on *)
  assert (Hstep : ∀ lft' k' t, (length lft' <= length lft)%nat → (∃ used, c :: lft = used ++ lft') →
    settled (token_loop fuel lft' k' (text ++ t)) ∧
    ∀ text' rest sp, token_loop fuel lft' k' (text ++ t) = Ok (text', rest, sp) →
      (∃ t, text' = text ++ t) ∧ (length rest <= S (length lft))%nat ∧
      (length rest = S (length lft) → text' = text) ∧ ∃ used, c :: lft = used ++ rest).
  { intros lft' k' t Hl [u Hu]. destruct (IH lft' k' (text ++ t)) as [Hs Hx]; [lia|].
    split; [done|]. intros text' rest sp E. apply Hx in E as ([t' ->] & ? & ? & [u' ->]).
    split_and!; [exists (t ++ t'); by rewrite app_assoc|lia|intros; lia|].
    exists (u ++ u'). by rewrite Hu, app_assoc. }
  assert (Hone : ∃ used, c :: lft = used ++ lft) by by exists [c].
  assert (Hstop : ∀ (sp0 : bool), settled (Ok (text, c :: lft, sp0)) ∧
    ∀ text' rest sp, Ok (text, c :: lft, sp0) = Ok (text', rest, sp) →
      (∃ t, text' = text ++ t) ∧ (length rest <= S (length lft))%nat ∧
      (length rest = S (length lft) → text' = text) ∧ ∃ used, c :: lft = used ++ rest).
  { intros sp0. split; [done|]. intros ? ? ? [=]; subst. split_and!; try done.
    - exists []. by rewrite app_nil_r.
    - by exists []. }
  repeat case_match; subst; auto; try by split.
  - split; [done|]. intros ? ? ? [=]; subst. split_and!; [by exists [41]|lia|lia|done].
  - destruct (parseStringLiteral_spec 34 lft) as [Hs Hn]. assert (c = 34) as -> by lia.
    destruct (parseStringLiteral (34 :: lft)) as [[t n]| | |]; simpl in *; try done; try by split.
    specialize (Hn _ _ eq_refl). rewrite slice_from_Ok by lia.
    apply Hstep.
    + rewrite length_drop. simpl. unfold lenZ in Hn. simpl in Hn. lia.
    + exists (take (Z.to_nat n) (34 :: lft)). by rewrite take_drop.
  - destruct Hone. apply Hstep; [simpl; lia|]. by exists [c; z].
Qed.

Definition plain (c : Z) : bool :=
  negb (bool_decide (c ∈ [40; 41; 34; 92; 32; 10; 9])).

Lemma token_loop_plain p fuel lft k text :
  forallb plain p = true → (length p <= fuel)%nat →
  token_loop fuel (p ++ lft) k text = token_loop (fuel - length p) lft k (text ++ p).
Proof.
  revert fuel text. induction p as [|c p IH]; intros fuel text Hp Hf; simpl in *.
  { by rewrite Nat.sub_0_r, app_nil_r. }
  destruct fuel as [|fuel]; [lia|]. simpl. apply andb_true_iff in Hp as [Hc Hp].
  unfold plain in Hc. rewrite negb_true_iff, bool_decide_eq_false, !not_elem_of_cons in Hc.
  destruct Hc as (? & ? & ? & ? & ? & ? & ? & _).
  replace (c =? 40) with false by lia. replace (c =? 41) with false by lia.
  replace (c =? 34) with false by lia. replace (c =? 92) with false by lia.
  replace (c =? 32) with false by lia. replace (c =? 10) with false by lia.
  replace (c =? 9) with false by lia. cbn [orb].
  rewrite IH by (try done; lia). by rewrite <- app_assoc.
Qed.

Lemma setReserved_same words t :
  t_Text (setReserved words t) = t_Text t ∧ t_Input (setReserved words t) = t_Input t.
Proof. induction words as [|[w typ] words IH]; simpl; [done|]. by case_match. Qed.

Lemma setPrefix_spec prefs t :
  Forall (λ p, HasPrefix (t_Input t) (fst p) = true → lenZ (fst p) <= lenZ (t_Text t)) prefs →
  ∃ t', setPrefix prefs t = Ok t' ∧ t_Input t' = t_Input t.
Proof.
  induction 1 as [|[p typ] prefs Hp ? IH]; simpl in *; [by eexists|].
  destruct (HasPrefix (t_Input t) p); simpl; [|done].
  rewrite slice_from_Ok by (specialize (Hp eq_refl); pose proof (lenZ_nonneg p); lia).
  by eexists.
Qed.

Lemma setType_spec prefs t :
  Forall (λ p, HasPrefix (t_Input t) (fst p) = true → lenZ (fst p) <= lenZ (t_Text t)) prefs →
  ∃ t', setType prefs t = Ok t' ∧ t_Input t' = t_Input t.
Proof.
  intros Hp. unfold setType.
  match goal with |- context [setReserved _ ?t0] => set (t1 := t0) end.
  assert (t_Text t1 = t_Text t ∧ t_Input t1 = t_Input t) as [E1 E2].
  { unfold t1. by repeat case_match. }
  destruct (setReserved_same reservedWords t1) as [E3 E4].
  destruct (setPrefix_spec prefs (setReserved reservedWords t1)) as (t' & -> & E).
  { rewrite E3, E4, E1, E2. done. }
  exists t'. split; congruence.
Qed.

Lemma prefixes_plain : Forall (λ p, forallb plain (fst p) = true ∧ (2 <= length (fst p))%nat) prefixes.
Proof. repeat constructor; simpl; lia. Qed.

Lemma HasPrefix_take n (l p : bytes) : HasPrefix (take n l) p = true → ∃ k, l = p ++ k.
Proof.
  intros [k E]%HasPrefix_spec. exists (k ++ drop n l). by rewrite app_assoc, <- E, take_drop.
Qed.

Lemma nextToken_spec inp :
  settled (nextToken inp) ∧
  ∀ tok, nextToken inp = Ok (Some tok) → ∃ c used rest, t_Input tok = c :: used ∧ inp = c :: used ++ rest.
Proof.
  destruct inp as [|c inp]; [by split|]. unfold nextToken.
  case_match; [split; [done|]; intros ? [=]; subst; by exists c, [], inp|].
  destruct (token_loop_spec (length (c :: inp)) (c :: inp) 0 []) as [Hs Hx]; [lia|].
  destruct (token_loop (length (c :: inp)) (c :: inp) 0 []) as [[[text rest] sp]| | |] eqn:E;
    try done; try by split.
  destruct (Hx _ _ _ eq_refl) as (_ & Hlen & Hne & used & Hused). cbn -[setType take].
  destruct text as [|c0 text]; [by split|].
  assert (length rest < length (c :: inp))%nat.
  { destruct (decide (length rest = length (c :: inp))) as [Heq|]; [|lia].
    by specialize (Hne Heq). }
  set (cur := if _ && _ then _ else _).
  assert (∃ n, (1 <= n)%nat ∧ t_Input cur = take n (c :: inp)) as (n & Hn & Hin).
  { unfold cur. case_match; simpl; [by exists 1%nat|]. eexists; split; [|done].
    unfold lenZ. lia. }
  destruct (setType_spec prefixes cur) as (t' & -> & Ht').
  - eapply Forall_impl; [apply prefixes_plain|]. intros [p typ] [Hp Hl] Hpre. cbn [fst] in *.
    unfold cur in Hpre |- *. case_match; cbn [t_Input t_Text] in *.
    { apply HasPrefix_spec in Hpre as [k Hk]. apply (f_equal length) in Hk.
      rewrite length_app, length_take in Hk. simpl in Hk. lia. }
    destruct (HasPrefix_take _ _ _ Hpre) as [k Hk]. rewrite Hk in E.
    rewrite token_loop_plain in E by (try done; rewrite length_app; lia).
    destruct (token_loop_spec (length (p ++ k) - length p) k 0 ([] ++ p)) as [_ Hy].
    { rewrite length_app. lia. }
    destruct (Hy _ _ _ E) as ([t Et] & _). simpl in Et. rewrite Et. unfold lenZ.
    rewrite length_app. lia.
  - split; [done|]. intros tok [=]; subst t'. rewrite Ht', Hin.
    destruct n as [|n]; [lia|]. exists c, (take n inp), (drop n inp). simpl.
    by rewrite take_drop.
Qed.

Lemma nextToken_settled inp : settled (nextToken inp).
Proof. apply nextToken_spec. Qed.

(** What is left after a token. *)
Lemma nextToken_rest inp tok :
  nextToken inp = Ok (Some tok) →
  slice_from inp (lenZ (t_Input tok)) = Ok (drop (length (t_Input tok)) inp) ∧
  (length (drop (length (t_Input tok)) inp) < length inp)%nat.
Proof.
  intros H. apply nextToken_spec in H as (c & used & rest & Hin & ->).
  rewrite Hin, slice_from_Ok.
  - split; [by unfold lenZ; rewrite Nat2Z.id|]. rewrite length_drop. simpl. lia.
  - unfold lenZ. simpl. rewrite length_app. lia.
Qed.

Lemma skipSpaces_length b : (length (skipSpaces b) <= length b)%nat.
Proof. induction b as [|c b IH]; simpl; [done|]. case_match; simpl; lia. Qed.

Lemma operators_loop_settled qs seen top cur : settled (operators_loop qs seen top cur).
Proof.
  revert seen top cur. induction qs as [|q qs IH]; intros seen top cur; simpl; [by case_match|].
  destruct q; auto. by destruct cur.
Qed.

(** ** Totality *)

Section Total.
Context (syntaxParse : bytes → option Regexp) (reString : Regexp → bytes).
#[local] Abbreviation pExpr := (parseExpr syntaxParse reString).
#[local] Abbreviation pExprs := (parseExprs syntaxParse reString).

Lemma pExpr_S fuel inp : pExpr (S fuel) inp = expr_body syntaxParse reString (pExpr fuel) (pExprs fuel) inp.
Proof. reflexivity. Qed.
Lemma pExprs_S fuel b : pExprs (S fuel) b = exprs_body (pExpr fuel) (pExprs fuel) b.
Proof. reflexivity. Qed.

Lemma regexpQuery_settled t b1 b2 : settled (regexpQuery syntaxParse t b1 b2).
Proof. unfold regexpQuery. repeat case_match; done. Qed.

(** A result for an input of [n] bytes: consumed between 0 and [n] bytes, and at
    least one when there is a query. *)
Definition expr_ok (n : nat) (m : res (Q * Z)) : Prop :=
  settled m ∧ ∀ q k, m = Ok (q, k) → 0 <= k <= Z.of_nat n ∧ (q ≠ QNil → 1 <= k).
Definition list_ok (n : nat) (m : res (list Q * bytes)) : Prop :=
  settled m ∧ ∀ qs rest, m = Ok (qs, rest) → (length rest <= n)%nat.

Lemma expr_ok_bind {A} n (m : res A) f :
  settled m → (∀ a, m = Ok a → expr_ok n (f a)) → expr_ok n (m ≫= f).
Proof. destruct m; simpl; auto; done. Qed.
Lemma list_ok_bind {A} n (m : res A) f :
  settled m → (∀ a, m = Ok a → list_ok n (f a)) → list_ok n (m ≫= f).
Proof. destruct m; simpl; auto; done. Qed.
Lemma expr_ok_return n (inp b : bytes) q :
  (length b < n)%nat → n = length inp → expr_ok n (Ok (q, lenZ inp - lenZ b)).
Proof. unfold lenZ. intros Hl ->. split; [done|]. intros ? ? [=]; subst. lia. Qed.

(** The induction hypotheses at [fuel]. *)
Definition exprs_ok (fuel : nat) : Prop :=
  ∀ inp, (2 * length inp + 1 <= fuel)%nat → expr_ok (length inp) (pExpr fuel inp).
Definition lists_ok (fuel : nat) : Prop :=
  ∀ b, (2 * length b + 2 <= fuel)%nat → list_ok (length b) (pExprs fuel b).

Lemma parseExpr_ok fuel : exprs_ok fuel → lists_ok fuel → exprs_ok (S fuel).
Proof.
  intros IHe IHl.
  intros inp Hf. rewrite pExpr_S. unfold expr_body.
  pose proof (skipSpaces_length inp) as Hsk. set (b := skipSpaces inp) in *.
  apply expr_ok_bind; [apply nextToken_settled|]. intros [tok|] Htok.
  2: { split; [done|]. intros ? ? [=]; subst. split; [lia|done]. }
  destruct (nextToken_rest _ _ Htok) as [-> Hlt]. cbn [mbind res_bind].
  set (b1 := drop _ _) in *.
  assert (Hret : ∀ q (b : bytes), (length b <= length b1)%nat → expr_ok (length inp) (Ok (q, lenZ inp - lenZ b))).
  { intros. apply expr_ok_return; [lia|done]. }
  destruct (t_Type tok); auto;
    try (apply expr_ok_bind; [apply regexpQuery_settled|]; auto).
  - case_match; auto. by split.
  - apply expr_ok_bind; [apply IHl; lia|]. intros [qs rest] E.
    assert (length rest <= length b1)%nat by (eapply IHl; [|exact E]; lia).
    rewrite slice_from_Ok by (unfold lenZ; lia). cbn [mbind res_bind].
    set (b2 := drop _ _). assert (length b2 <= length b1)%nat by (unfold b2; rewrite length_drop; lia).
    apply expr_ok_bind; [apply nextToken_settled|]. intros ptok Hp.
    destruct ptok as [[ty tx inpt]|]; [|by split]. destruct ty; try by split.
    destruct (nextToken_rest _ _ Hp) as [Hsl Hlt2]. simpl in Hsl, Hlt2. rewrite Hsl.
    cbn [mbind res_bind]. apply expr_ok_bind; [apply operators_loop_settled|].
    intros expr _. apply Hret. lia.
  - apply expr_ok_bind; [apply IHe; lia|]. intros [q n] E.
    apply IHe in E as [Hn _]; [|lia]. rewrite slice_from_Ok by (unfold lenZ; lia).
    cbn [mbind res_bind]. apply Hret. rewrite length_drop. lia.
  - case_match; auto. by split.
Qed.

Lemma parseExprs_ok fuel : exprs_ok fuel → lists_ok fuel → lists_ok (S fuel).
Proof.
  intros IHe IHl.
  intros b0 Hf. rewrite pExprs_S. unfold exprs_body.
  destruct b0 as [|c b0]; [split; [done|]; intros ? ? [=]; subst; done|].
  pose proof (skipSpaces_length (c :: b0)) as Hsk. set (b := skipSpaces (c :: b0)) in *.
  set (n0 := length (c :: b0)) in *.
  assert (Hrec : ∀ b' q, (length b' < n0)%nat →
    list_ok n0 ('(qs, r) ← pExprs fuel b'; Ok (q :: qs, r))).
  { intros b' q Hb. apply list_ok_bind; [apply IHl; lia|]. intros [qs r] E.
    split; [done|]. intros ? ? [=]; subst. apply IHl in E; lia. }
  match goal with |- context [pExpr fuel b ≫= ?f] => set (other := pExpr fuel b ≫= f) end.
  assert (Hother : list_ok n0 other).
  { apply list_ok_bind; [apply IHe; lia|]. intros [q n] E. apply IHe in E as [Hn Hq]; [|lia].
    destruct q; [split; [done|]; intros ? ? [=]; subst; lia|..];
        (specialize (Hq ltac:(done)); rewrite slice_from_Ok by (unfold lenZ; lia); cbn [mbind res_bind]; apply Hrec;
         rewrite length_drop; lia). }
  pose proof (nextToken_settled b) as Hset. destruct (nextToken b) as [[tok|]| | |] eqn:Htok; try done.
  destruct (nextToken_rest _ _ Htok) as [Hsl Hlt].
  destruct (t_Type tok); try done.
  - split; [done|]. intros ? ? [=]; subst. lia.
  - rewrite Hsl. cbn [mbind res_bind]. apply Hrec. lia.
Qed.

Lemma parse_ok fuel : exprs_ok fuel ∧ lists_ok fuel.
Proof.
  induction fuel as [|fuel [IHe IHl]]; [split; intros ?; lia|].
  auto using parseExpr_ok, parseExprs_ok.
Qed.
End Total.

(** ** The concrete syntax

    Expressions of the query language and their printed form: every atom is a
    field prefix and a quoted string, groups are in spaced parentheses and may
    start with a [case:] directive. *)

Inductive field := InText | InRegex | InFile | InContent | InRepo | InBranch | InLang | InSym.
#[global] Instance field_eq_dec : EqDecision field.
Proof. solve_decision. Defined.

Inductive expr :=
| EAtom (f : field) (text : bytes)
| ENot (e : expr)
| EGroup (flavor : option bytes) (alts : list (list expr)).

Section ExprInd.
Context (P : expr → Prop).
Context (Hatom : ∀ f t, P (EAtom f t)) (Hnot : ∀ e, P e → P (ENot e)).
Context (Hgroup : ∀ fl alts, Forall (Forall P) alts → P (EGroup fl alts)).
Fixpoint expr_ind' (e : expr) : P e :=
  match e with
  | EAtom f t => Hatom f t
  | ENot e => Hnot e (expr_ind' e)
  | EGroup fl alts => Hgroup fl alts
      ((fix goss (l : list (list expr)) : Forall (Forall P) l :=
          match l with
          | [] => Forall_nil_2 _
          | es :: l => Forall_cons_2 _ _ _
             ((fix gos (es : list expr) : Forall P es :=
                 match es with
                 | [] => Forall_nil_2 _
                 | e :: es => Forall_cons_2 _ _ _ (expr_ind' e) (gos es)
                 end) es) (goss l)
          end) alts)
  end.
End ExprInd.

Definition field_prefix (f : field) : bytes :=
  match f with
  | InText => [] | InRegex => str "regex:" | InFile => str "file:" | InContent => str "content:"
  | InRepo => str "repo:" | InBranch => str "branch:" | InLang => str "lang:" | InSym => str "sym:"
  end.

Definition escape (s : bytes) : bytes :=
  mjoin ((λ c, if (c =? 34) || (c =? 92) then [92; c] else [c]) <$> s).
Definition quote (s : bytes) : bytes := 34 :: escape s ++ [34].

(** The items of an expression list: each is printed with a space after it. *)
Inductive item := IExpr (e : expr) | IOr | ICase (flavor : bytes).

Fixpoint alternatives (alts : list (list expr)) : list item :=
  match alts with
  | [] => []
  | [es] => map IExpr es
  | es :: alts => map IExpr es ++ IOr :: alternatives alts
  end.
Definition group_items (flavor : option bytes) (alts : list (list expr)) : list item :=
  match flavor with None => [] | Some f => [ICase f] end ++ alternatives alts.

Fixpoint print (e : expr) : bytes :=
  match e with
  | EAtom f t => field_prefix f ++ quote t
  | ENot e => 45 :: print e
  | EGroup flavor alts =>
    let items := fix go alts := match alts with
      | [] => []
      | [es] => mjoin (map (λ e, print e ++ [32]) es)
      | es :: alts => mjoin (map (λ e, print e ++ [32]) es) ++ str "or " ++ go alts
      end in
    [40; 32] ++ (match flavor with None => [] | Some f => str "case:" ++ f ++ [32] end)
    ++ items alts ++ [41]
  end.
Definition print_item (i : item) : bytes :=
  match i with
  | IExpr e => print e ++ [32]
  | IOr => str "or "
  | ICase f => str "case:" ++ f ++ [32]
  end.
Definition print_items (l : list item) : bytes := mjoin (map print_item l).
Definition print_query (flavor : option bytes) (alts : list (list expr)) : bytes :=
  print_items (group_items flavor alts).

Definition flavor_ok (f : option bytes) : bool :=
  match f with
  | None => true
  | Some f => bool_decide (f ∈ [str "yes"; str "no"; str "auto"])
  end.
Definition alts_ok (alts : list (list expr)) : bool :=
  match alts with
  | [] => false
  | [_] => true
  | _ => forallb (λ es, negb (bool_decide (length es = 0%nat))) alts
  end.

Section Grammar.
Context (syntaxParse : bytes → option Regexp) (reString : Regexp → bytes).

(** Texts that the printed form can carry: a bare string is not empty and not a
    single parenthesis, and regular expressions parse. *)
Definition atom_ok (f : field) (t : bytes) : bool :=
  match f with
  | InText => negb (bool_decide (t ∈ [[]; [40]; [41]])) && bool_decide (is_Some (syntaxParse t))
  | InRegex | InFile | InContent => bool_decide (is_Some (syntaxParse t))
  | InSym => negb (bool_decide (t = []))
  | InRepo | InBranch | InLang => true
  end.
Fixpoint expr_wf (e : expr) : bool :=
  match e with
  | EAtom f t => atom_ok f t
  | ENot e => expr_wf e
  | EGroup fl alts => flavor_ok fl && alts_ok alts && forallb (forallb expr_wf) alts
  end.

(** The atom as the parser builds it, before its case flag is set. *)
Definition atom (f : field) (t : bytes) : Q :=
  let re content file :=
    match syntaxParse t with
    | Some (RE OpLiteral _ _ rune _ _) => QSubstring (MkSubstring (encode_all rune) false file content)
    | Some r => QRegexp r file content false
    | None => QNil
    end in
  match f with
  | InText | InRegex => re false false
  | InFile => re false true
  | InContent => re true false
  | InRepo => QRepo t
  | InBranch => QBranch t
  | InLang => QLanguage t
  | InSym => QSymbol (MkSubstring t false false false)
  end.

(** The meaning of an expression in a query whose outermost case flavor is
    [fl]: alternatives of conjunctions, every atom under the case rule [fl],
    whatever directives the groups carry. *)
Fixpoint denote (fl : bytes) (e : expr) : Q :=
  match e with
  | EAtom f t => setCase reString fl (atom f t)
  | ENot e => QNot (denote fl e)
  | EGroup _ alts => QOr (map (λ es, QAnd (map (denote fl) es)) alts)
  end.
Definition denote_query (fl : option bytes) (alts : list (list expr)) : Q :=
  QOr (map (λ es, QAnd (map (denote (default (str "auto") fl)) es)) alts).
End Grammar.

(** ** Tokens of printed expressions *)

Lemma literal_loop_quote s rest lit : literal_loop (escape s ++ 34 :: rest) lit = Ok (lit ++ s, rest).
Proof.
  revert lit. induction s as [|c s IH]; intros lit; [by rewrite app_nil_r|].
  unfold escape. simpl. destruct ((c =? 34) || (c =? 92)) eqn:E; simpl.
  - rewrite IH. by rewrite <- app_assoc.
  - apply orb_false_elim in E as [-> ->]. rewrite IH. by rewrite <- app_assoc.
Qed.

Lemma parseStringLiteral_quote s rest :
  parseStringLiteral (quote s ++ rest) = Ok (s, lenZ (quote s)).
Proof.
  unfold parseStringLiteral, quote. rewrite slice_from_Ok.
  2: { unfold lenZ. simpl. rewrite length_app. lia. }
  change (drop (Z.to_nat 1) ((34 :: escape s ++ [34]) ++ rest)) with ((escape s ++ [34]) ++ rest).
  rewrite <- app_assoc. simpl. rewrite literal_loop_quote. simpl. f_equal. f_equal.
  unfold lenZ. simpl. rewrite ?length_app. simpl. rewrite ?length_app. simpl. lia.
Qed.

Lemma token_loop_quote p s rest fuel :
  forallb plain p = true → (length p + length (quote s) + S (length rest) <= fuel)%nat →
  token_loop fuel (p ++ quote s ++ 32 :: rest) 0 [] = Ok (p ++ s, 32 :: rest, false).
Proof.
  intros Hp Hf. rewrite token_loop_plain by (done || lia).
  destruct (fuel - length p)%nat as [|[|k]] eqn:Hk; [simpl in Hf; lia|simpl in Hf; lia|].
  unfold quote. cbn [app token_loop].
  change (34 :: (escape s ++ [34]) ++ 32 :: rest) with (quote s ++ 32 :: rest).
  simpl (34 =? _). cbn match. rewrite parseStringLiteral_quote. cbn [mbind res_bind].
  rewrite slice_from_app. reflexivity.
Qed.

Definition field_type (f : field) : tokType :=
  match f with
  | InText => tokText | InRegex => tokRegex | InFile => tokFile | InContent => tokContent
  | InRepo => tokRepo | InBranch => tokBranch | InLang => tokLang | InSym => tokSym
  end.

(** No prefix of the table starts another one, so at most one of them starts the
    input of a token. *)
Definition prefix_free (prefs : list (bytes * tokType)) : Prop :=
  ∀ p q, p ∈ prefs → q ∈ prefs → HasPrefix (fst p) (fst q) = true → p = q.

Lemma prefixes_free : prefix_free prefixes.
Proof.
  assert (forallb (λ p, forallb (λ q, negb (HasPrefix (fst p) (fst q)) || bool_decide (p = q)) prefixes)
            prefixes = true) as H by reflexivity.
  intros p q Hp Hq Hpq. rewrite forallb_forall in H.
  specialize (H p ltac:(by apply list_elem_of_In)). rewrite forallb_forall in H.
  specialize (H q ltac:(by apply list_elem_of_In)). rewrite Hpq in H. simpl in H.
  by apply bool_decide_eq_true in H.
Qed.

Lemma HasPrefix_total (s p q : bytes) :
  HasPrefix s p = true → HasPrefix s q = true → HasPrefix p q = true ∨ HasPrefix q p = true.
Proof.
  rewrite !HasPrefix_spec. intros Hp Hq. destruct (prefix_weak_total p q s Hp Hq); auto.
Qed.

Lemma setPrefix_unique prefs t p ty :
  prefix_free prefs → (p, ty) ∈ prefs → HasPrefix (t_Input t) p = true →
  setPrefix prefs t = (text ← slice_from (t_Text t) (lenZ p); Ok (Token ty text (t_Input t))).
Proof.
  intros Hfree Hin Hp.
  assert (∀ p' ty', (p', ty') ∈ prefs → HasPrefix (t_Input t) p' = true → p' = p ∧ ty' = ty) as Huniq.
  { intros p' ty' Hin' Hp'. assert ((p', ty') = (p, ty)) as [= ]; [|done].
    destruct (HasPrefix_total _ _ _ Hp Hp'); [symmetry|]; by apply Hfree. }
  clear Hfree. induction prefs as [|[p' ty'] prefs IH]; [set_solver|]. simpl.
  destruct (HasPrefix (t_Input t) p') eqn:E; simpl.
  - destruct (Huniq p' ty') as [-> ->]; [set_solver|done|done].
  - apply IH; [|set_solver]. apply elem_of_cons in Hin as [[=]|]; congruence.
Qed.

Lemma setPrefix_none prefs t :
  (∀ p ty, (p, ty) ∈ prefs → HasPrefix (t_Input t) p = false) → setPrefix prefs t = Ok t.
Proof.
  induction prefs as [|[p ty] prefs IH]; intros H; simpl; [done|].
  rewrite (H p ty) by set_solver. apply IH. set_solver.
Qed.

Lemma field_prefix_plain f : forallb plain (field_prefix f) = true.
Proof. by destruct f. Qed.

Lemma setType_text t :
  t ∉ [[]; [40]; [41]] → setType prefixes (Token tokText t (quote t)) = Ok (Token tokText t (quote t)).
Proof.
  intros Ht. unfold setType, setReserved, reservedWords. cbn [t_Text t_Input].
  rewrite (bool_decide_eq_false_2 (t = [40])) by set_solver. cbn [t_Text t_Input].
  rewrite (bool_decide_eq_false_2 (t = [41])) by set_solver. cbn [t_Text t_Input].
  rewrite (bool_decide_eq_false_2 (quote t = _)) by done. by rewrite andb_false_r.
Qed.

Lemma setType_field f t :
  f ≠ InText →
  setType prefixes (Token tokText (field_prefix f ++ t) (field_prefix f ++ quote t))
  = Ok (Token (field_type f) t (field_prefix f ++ quote t)).
Proof.
  intros Hf. unfold setType, setReserved, reservedWords. cbn [t_Text t_Input].
  rewrite (bool_decide_eq_false_2 (_ = [40])) by (by destruct f). cbn [t_Text t_Input].
  rewrite (bool_decide_eq_false_2 (_ = [41])) by (by destruct f). cbn [t_Text t_Input].
  rewrite (bool_decide_eq_false_2 (_ ++ quote t = _)) by (by destruct f).
  rewrite andb_false_r.
  rewrite (setPrefix_unique prefixes _ (field_prefix f) (field_type f)).
  - cbn [t_Text]. by rewrite slice_from_app.
  - apply prefixes_free.
  - destruct f; try done; vm_compute; repeat constructor.
  - apply HasPrefix_spec. by eexists.
Qed.

Lemma nextToken_atom f t rest :
  (f = InText → t ∉ [[]; [40]; [41]]) →
  nextToken (field_prefix f ++ quote t ++ 32 :: rest)
  = Ok (Some (Token (field_type f) t (field_prefix f ++ quote t))).
Proof.
  intros Ht. set (inp := field_prefix f ++ quote t ++ 32 :: rest).
  assert (∃ c l, inp = c :: l ∧ c ≠ 45) as (c & l & Hc & Hne).
  { unfold inp. destruct f; by do 2 eexists. }
  unfold nextToken. rewrite Hc. cbn match. replace (c =? 45) with false by lia. rewrite <- Hc.
  assert (token_loop (length inp) inp 0 [] = Ok (field_prefix f ++ t, 32 :: rest, false)) as ->.
  { apply token_loop_quote; [apply field_prefix_plain|]. unfold inp. rewrite !length_app. simpl. lia. }
  cbn [mbind res_bind].
  assert (Hin : take (Z.to_nat (lenZ inp - lenZ (32 :: rest))) inp = field_prefix f ++ quote t).
  { unfold inp. rewrite app_assoc, lenZ_app.
    replace (Z.to_nat _) with (length (field_prefix f ++ quote t)) by (unfold lenZ; lia).
    by rewrite take_app_length. }
  destruct (decide (f = InText)) as [->|Hf].
  - simpl app in *. destruct t as [|c0 t0] eqn:E; [set_solver|]. rewrite <- E in *.
    cbn [andb]. rewrite Hin, setType_text by auto. done.
  - destruct (field_prefix f ++ t) as [|c0 t'] eqn:E; [by destruct f|]. rewrite <- E.
    cbn [andb]. rewrite Hin, setType_field by done. done.
Qed.

Lemma nextToken_open rest : nextToken (40 :: 32 :: rest) = Ok (Some (Token tokParenOpen [40] [40])).
Proof. reflexivity. Qed.
Lemma nextToken_close rest : nextToken (41 :: rest) = Ok (Some (Token tokParenClose [41] [41])).
Proof.
  unfold nextToken. simpl. rewrite Z.sub_diag || idtac.
  replace (Z.to_nat _) with 1%nat by (unfold lenZ; simpl; lia). reflexivity.
Qed.
(** A word without quotes, blanks or parentheses. *)
Lemma nextToken_word c w rest :
  forallb plain (c :: w) = true → c ≠ 45 →
  nextToken ((c :: w) ++ 32 :: rest) = Some <$> setType prefixes (Token tokText (c :: w) (c :: w)).
Proof.
  intros Hp Hc. unfold nextToken. set (inp := (c :: w) ++ 32 :: rest).
  change inp with (c :: w ++ 32 :: rest) at 1. cbn match.
  replace (c =? 45) with false by lia.
  assert (token_loop (length inp) inp 0 [] = Ok (c :: w, 32 :: rest, false)) as ->.
  { unfold inp. rewrite token_loop_plain by (try done; rewrite length_app; lia).
    rewrite length_app, Nat.add_comm, Nat.add_sub. reflexivity. }
  cbn [mbind res_bind app andb].
  replace (take _ inp) with (c :: w); [by destruct (setType _ _)|].
  unfold inp. rewrite lenZ_app. replace (Z.to_nat _) with (length (c :: w)) by (unfold lenZ; lia).
  by rewrite take_app_length.
Qed.

Lemma nextToken_or rest : nextToken (str "or " ++ rest) = Ok (Some (Token tokOr (str "or") (str "or"))).
Proof. apply (nextToken_word 111 [114] rest); done. Qed.
Lemma nextToken_case f rest :
  f ∈ [str "yes"; str "no"; str "auto"] →
  nextToken (str "case:" ++ f ++ 32 :: rest) = Ok (Some (Token tokCase f (str "case:" ++ f))).
Proof.
  intros Hf. rewrite app_assoc. repeat rewrite elem_of_cons in Hf. rewrite elem_of_nil in Hf.
  destruct Hf as [->|[->|[->|[]]]]; apply nextToken_word; done.
Qed.

(** ** Parsing printed expressions *)

Lemma print_group fl alts :
  print (EGroup fl alts) = 40 :: 32 :: print_items (group_items fl alts) ++ [41].
Proof.
  unfold print_items, group_items. cbn [print app]. f_equal. f_equal.
  rewrite map_app, join_app. rewrite <- app_assoc. f_equal; [by destruct fl; simpl; rewrite ?app_nil_r|].
  f_equal. induction alts as [|es [|es' alts] IH]; [done| |].
  - cbn [alternatives]. by rewrite map_map.
  - cbn [alternatives] in *. rewrite map_app, join_app, map_map, IH. done.
Qed.

(** The first token of a printed expression. *)
Definition first_token (e : expr) : token :=
  match e with
  | EAtom f t => Token (field_type f) t (print e)
  | ENot _ => Token tokNegate [45] [45]
  | EGroup _ _ => Token tokParenOpen [40] [40]
  end.

#[global] Instance item_ior_dec (i : item) : Decision (i = IOr).
Proof. destruct i; [right|left|right]; done. Defined.

Section Refines.
Context (syntaxParse : bytes → option Regexp) (reString : Regexp → bytes).
#[local] Abbreviation pExpr := (parseExpr syntaxParse reString).
#[local] Abbreviation pExprs := (parseExprs syntaxParse reString).
#[local] Abbreviation wf := (expr_wf syntaxParse).
#[local] Abbreviation sc := (setCase reString).

(** What parseExpr builds, before the case rule of the enclosing list. *)
Fixpoint built (e : expr) : Q :=
  match e with
  | EAtom f t => atom syntaxParse f t
  | ENot e => QNot (built e)
  | EGroup fl alts =>
    QOr (map (λ es, QAnd (map (λ e, Map (built e) (sc (default (str "auto") fl))) es)) alts)
  end.
Definition built_item (i : item) : Q :=
  match i with IExpr e => built e | IOr => QOrOperator | ICase f => QCase f end.
Definition item_wf (i : item) : Prop :=
  match i with IExpr e => wf e = true | IOr => True | ICase f => flavor_ok (Some f) = true end.

Lemma first_token_spec e rest :
  wf e = true → nextToken (print e ++ 32 :: rest) = Ok (Some (first_token e)).
Proof.
  intros Hwf. destruct e as [f t|e|fl alts].
  - cbn [print first_token]. rewrite <- app_assoc. apply nextToken_atom. intros ->.
    apply andb_true_iff in Hwf as [Hwf _]. by apply negb_true_iff, bool_decide_eq_false in Hwf.
  - done.
  - rewrite print_group. done.
Qed.

Lemma print_nonspace e rest : wf e = true → skipSpaces (print e ++ rest) = print e ++ rest.
Proof. destruct e as [f t|e|fl alts]; [by destruct f|done|by rewrite print_group]. Qed.

Lemma atom_regexp t content file :
  is_Some (syntaxParse t) →
  regexpQuery syntaxParse t content file = Ok (
    match syntaxParse t with
    | Some (RE OpLiteral _ _ rune _ _) => QSubstring (MkSubstring (encode_all rune) false file content)
    | Some r => QRegexp r file content false
    | None => QNil
    end).
Proof. intros [r Hr]. unfold regexpQuery. rewrite Hr. by destruct r as [[]]. Qed.

Lemma built_not_nil e : wf e = true → built e ≠ QNil.
Proof.
  destruct e as [f t| |]; try done. unfold wf. simpl.
  assert (Hs : is_Some (syntaxParse t) → ∀ content file,
    match syntaxParse t with
    | Some (RE OpLiteral _ _ rune _ _) => QSubstring (MkSubstring (encode_all rune) false file content)
    | Some r => QRegexp r file content false
    | None => QNil
    end ≠ QNil).
  { intros [r Hr] ? ?. rewrite Hr. by destruct r as [[]]. }
  destruct f; simpl; rewrite ?andb_true_iff, ?bool_decide_eq_true; try done; naive_solver.
Qed.

Lemma parseExpr_atom fuel f t rest :
  wf (EAtom f t) = true →
  pExpr (S fuel) (print (EAtom f t) ++ 32 :: rest) = Ok (atom syntaxParse f t, lenZ (print (EAtom f t))).
Proof.
  intros Hwf. rewrite pExpr_S. unfold expr_body. rewrite print_nonspace by done.
  rewrite first_token_spec by done. cbn [mbind res_bind first_token t_Input t_Text t_Type].
  rewrite slice_from_app. cbn [mbind res_bind].
  assert (Hlen : lenZ (print (EAtom f t) ++ 32 :: rest) - lenZ (32 :: rest) = lenZ (print (EAtom f t))).
  { rewrite lenZ_app. lia. }
  rewrite Hlen. unfold wf in Hwf. simpl in Hwf.
  destruct f; cbn [field_type atom_ok] in *; rewrite ?andb_true_iff, ?bool_decide_eq_true in Hwf;
    rewrite ?atom_regexp by (try destruct Hwf; done); try done.
  destruct t; done.
Qed.

Lemma parseExpr_not fuel e rest :
  pExpr fuel (print e ++ 32 :: rest) = Ok (built e, lenZ (print e)) →
  pExpr (S fuel) (print (ENot e) ++ 32 :: rest) = Ok (built (ENot e), lenZ (print (ENot e))).
Proof.
  intros IH. rewrite pExpr_S. unfold expr_body.
  change (print (ENot e) ++ 32 :: rest) with ([45] ++ print e ++ 32 :: rest).
  change (skipSpaces ([45] ++ ?l)) with ([45] ++ l).
  change (nextToken ([45] ++ ?l)) with (Ok (Some (Token tokNegate [45] [45]))).
  cbn [mbind res_bind t_Input t_Text t_Type]. rewrite slice_from_app. cbn [mbind res_bind].
  rewrite IH. cbn [mbind res_bind]. rewrite slice_from_app. cbn [mbind res_bind built print].
  f_equal. f_equal. autorewrite with go_len. lia.
Qed.

(** The item [i] without its trailing space is parsed to what it builds. *)
Definition parses (i : item) : Prop :=
  ∀ fuel rest, (2 * (length (print_item i) + length rest) + 1 <= fuel)%nat →
    pExpr fuel (print_item i ++ rest) = Ok (built_item i, lenZ (print_item i) - 1).

Lemma parseExpr_case f : item_wf (ICase f) → parses (ICase f).
Proof.
  intros Hf [|fuel] rest Hfuel; [lia|]. rewrite pExpr_S. unfold expr_body.
  apply bool_decide_eq_true in Hf. cbn [print_item].
  change (skipSpaces ((str "case:" ++ ?l) ++ ?r)) with ((str "case:" ++ l) ++ r).
  rewrite <- !app_assoc. change ([32] ++ rest) with (32 :: rest).
  rewrite nextToken_case by done. cbn [mbind res_bind t_Input t_Text t_Type].
  rewrite app_assoc, slice_from_app. cbn [mbind res_bind].
  repeat rewrite elem_of_cons in Hf. rewrite elem_of_nil in Hf.
  assert (bool_decide (f = str "yes") || bool_decide (f = str "no") || bool_decide (f = str "auto")
          = true) as ->.
  { rewrite !orb_true_iff, !bool_decide_eq_true. tauto. }
  cbn [built_item]. f_equal. f_equal. autorewrite with go_len. lia.
Qed.

(** A token other than a closing parenthesis or [or] starts the item. *)
Lemma item_token i rest :
  item_wf i → i ≠ IOr → ∃ tok, nextToken (print_item i ++ rest) = Ok (Some tok) ∧
    t_Type tok ≠ tokParenClose ∧ t_Type tok ≠ tokOr.
Proof.
  intros Hi Hor. destruct i as [e| |f]; [|done|]; cbn [print_item].
  - rewrite <- app_assoc. simpl. rewrite first_token_spec by done. eexists. split; [done|].
    destruct e as [[] t| |]; done.
  - rewrite <- !app_assoc. simpl ([32] ++ _). rewrite nextToken_case.
    + by eexists.
    + by apply bool_decide_eq_true in Hi.
Qed.

Lemma item_nonspace i rest : item_wf i → skipSpaces (print_item i ++ rest) = print_item i ++ rest.
Proof.
  destruct i as [e| |f]; simpl; [|done|done]. intros. rewrite <- app_assoc. by apply print_nonspace.
Qed.

Lemma item_slice i rest : slice_from (print_item i ++ rest) (lenZ (print_item i) - 1) = Ok (32 :: rest).
Proof.
  assert (∃ b, print_item i = b ++ [32]) as [b ->].
  { destruct i; cbn [print_item]; [by eexists|by exists (str "or")|].
    eexists. by rewrite app_assoc. }
  rewrite <- app_assoc, lenZ_app. replace (lenZ b + lenZ [32] - 1) with (lenZ b) by (unfold lenZ; simpl; lia).
  apply slice_from_app.
Qed.

Lemma item_nonempty i : (2 <= length (print_item i))%nat.
Proof.
  destruct i as [[f t|e|fl alts]| |]; cbn [print_item]; rewrite ?length_app; [|simpl; lia|..].
  - cbn [print]. rewrite length_app. simpl. lia.
  - rewrite print_group. simpl. lia.
  - simpl. lia.
  - simpl. lia.
Qed.

(** What may follow a list of items: the end or a closing parenthesis. *)
Definition closes (rest : bytes) : Prop := rest = [] ∨ ∃ r, rest = 41 :: r.

Lemma parseExprs_end fuel sp rest :
  sp = [] ∨ sp = [32] → closes rest → pExprs (S (S fuel)) (sp ++ rest) = Ok ([], rest).
Proof.
  intros Hsp Hrest. rewrite pExprs_S. unfold exprs_body.
  destruct Hrest as [->|[r ->]].
  - destruct Hsp as [->| ->]; done.
  - assert (skipSpaces (sp ++ 41 :: r) = 41 :: r) as -> by (by destruct Hsp as [->| ->]).
    rewrite nextToken_close. by destruct Hsp as [->| ->].
Qed.

Lemma parseExprs_items l fuel (sp rest : bytes) :
  Forall item_wf l → Forall parses (filter (λ i, i ≠ IOr) l) →
  sp = [] ∨ sp = [32] → closes rest →
  (2 * (length sp + length (print_items l) + length rest) + 2 <= fuel)%nat →
  pExprs fuel (sp ++ print_items l ++ rest) = Ok (map built_item l, rest).
Proof.
  intros Hwf. revert fuel sp. induction Hwf as [|i l Hi Hwf IH]; intros fuel sp Hp Hsp Hrest Hfuel.
  { destruct fuel as [|[|fuel]]; [lia|lia|]. by apply parseExprs_end. }
  change (print_items (i :: l)) with (print_item i ++ print_items l) in *.
  rewrite length_app in Hfuel. pose proof (item_nonempty i). rewrite <- app_assoc.
  destruct fuel as [|fuel]; [lia|]. rewrite pExprs_S. unfold exprs_body.
  assert (skipSpaces (sp ++ print_item i ++ print_items l ++ rest) = print_item i ++ print_items l ++ rest)
    as ->.
  { destruct Hsp as [->| ->]; [|change (skipSpaces ([32] ++ ?l)) with (skipSpaces l)];
      by apply item_nonspace. }
  set (b := print_item i ++ print_items l ++ rest).
  assert (∃ c r, sp ++ b = c :: r) as (c & r & ->).
  { unfold b. destruct (print_item i); [simpl in *; lia|]. destruct Hsp as [->| ->]; by do 2 eexists. }
  assert (Hnext : Forall parses (filter (λ i, i ≠ IOr) l) →
    pExprs fuel (32 :: print_items l ++ rest) = Ok (map built_item l, rest)).
  { intros Hp'. apply (IH fuel [32]); auto. simpl. lia. }
  destruct (decide (i = IOr)) as [->|Hor].
  - unfold b. cbn [print_item]. rewrite nextToken_or. cbn [t_Type t_Input mbind res_bind].
    change (str "or " ++ ?l) with (str "or" ++ 32 :: l). rewrite slice_from_app.
    cbn [mbind res_bind]. rewrite Hnext; [done|]. by rewrite filter_cons_False in Hp by auto.
  - rewrite filter_cons_True in Hp by done. inversion Hp as [|? ? Hi' Hp']; subst.
    destruct (item_token i (print_items l ++ rest) Hi Hor) as (tok & Htok & Hty1 & Hty2).
    unfold b. rewrite Htok, Hi' by (rewrite length_app; lia). cbn [mbind res_bind].
    assert (built_item i ≠ QNil) by (destruct i; [by apply built_not_nil|done|done]).
    rewrite item_slice. cbn [mbind res_bind]. rewrite Hnext by done.
    cbn [map]. destruct (t_Type tok); try done; by destruct (built_item i).
Qed.

(** *** Case rules *)

(** Neither of the placeholders that only the parser uses. *)
Definition ordinary (q : Q) : Prop := q ≠ QOrOperator ∧ ∀ f, q ≠ QCase f.

Definition flavors : list bytes := [str "yes"; str "no"; str "auto"].

(** The last case rule applied to an atom decides. *)
Lemma setCase_absorb fl fl' q : fl ∈ flavors → sc fl (sc fl' q) = sc fl q.
Proof.
  intros Hfl. assert (fl = str "yes" ∨ fl = str "no" ∨ fl = str "auto") as Hf by set_solver.
  destruct q; try done; unfold setCase, Substring_setCase;
    destruct Hf as [->|[->| ->]]; repeat case_decide; try done.
Qed.

Lemma atom_plain f t : is_atom (atom syntaxParse f t) = true ∧ ordinary (atom syntaxParse f t).
Proof.
  assert (∀ content file, let q := match syntaxParse t with
    | Some (RE OpLiteral _ _ rune _ _) => QSubstring (MkSubstring (encode_all rune) false file content)
    | Some r => QRegexp r file content false
    | None => QNil
    end in is_atom q = true ∧ ordinary q) as Hre.
  { intros content file. by destruct (syntaxParse t) as [[[]]|]. }
  destruct f; simpl; auto; by split.
Qed.

Lemma setCase_plain fl q : is_atom q = true → ordinary q → is_atom (sc fl q) = true ∧ ordinary (sc fl q).
Proof. destruct q; try done; simpl; repeat case_decide; done. Qed.

Lemma Map_leaf fl q : is_atom q = true → Map q (sc fl) = sc fl q.
Proof. by destruct q. Qed.

Lemma Map_denote fl fl' e :
  fl ∈ flavors → Map (denote syntaxParse reString fl' e) (sc fl) = denote syntaxParse reString fl e.
Proof.
  intros Hfl. induction e as [f t|e IH|g alts IH] using expr_ind'; simpl.
  - destruct (atom_plain f t). rewrite Map_leaf by (by apply setCase_plain). by apply setCase_absorb.
  - by rewrite IH.
  - f_equal. rewrite map_map. apply map_ext_Forall. eapply Forall_impl; [exact IH|].
    intros es Hes. simpl. f_equal. rewrite map_map. by apply map_ext_Forall.
Qed.

Lemma flavor_in fl : flavor_ok fl = true → default (str "auto") fl ∈ flavors.
Proof. destruct fl; simpl; [by rewrite bool_decide_eq_true|set_solver]. Qed.

(** Induction over the expressions of a group. *)
Lemma map_ext_alts {B} (f g : expr → B) alts (P : expr → Prop) :
  Forall (Forall (λ e, wf e = true → P e)) alts → forallb (forallb wf) alts = true →
  (∀ e, P e → wf e = true → f e = g e) → map (map f) alts = map (map g) alts.
Proof.
  intros HP Hwf Hfg. apply map_ext_in. intros es Hes%list_elem_of_In.
  apply map_ext_in. intros e He%list_elem_of_In. rewrite Forall_forall in HP.
  specialize (HP es Hes). rewrite Forall_forall in HP. rewrite forallb_elem in Hwf.
  specialize (Hwf es Hes). rewrite forallb_elem in Hwf. auto.
Qed.

Lemma Map_built e : wf e = true →
  ∀ fl, fl ∈ flavors → Map (built e) (sc fl) = denote syntaxParse reString fl e.
Proof.
  induction e as [f t|e IH|g alts IH] using expr_ind'; simpl; intros Hwf fl Hfl.
  - apply Map_leaf, atom_plain.
  - by rewrite IH.
  - rewrite !andb_true_iff in Hwf. destruct Hwf as [[Hg _] Hwf].
    f_equal. rewrite map_map. cbn [Map setCase].
    transitivity (map QAnd (map (map (denote syntaxParse reString fl)) alts)); [|by rewrite map_map].
    erewrite <- (map_ext_alts (λ e, Map (Map (built e) (sc (default (str "auto") g))) (sc fl)));
      [|exact IH|done|].
    + rewrite map_map. apply map_ext. intros es. by rewrite map_map.
    + intros e He _. rewrite He by (by apply flavor_in). by apply Map_denote.
Qed.

(** *** Operators *)

Lemma operators_and qs rest seen top cur :
  Forall ordinary qs → operators_loop (qs ++ rest) seen top cur = operators_loop rest seen top (cur ++ qs).
Proof.
  intros H. revert cur. induction H as [|q qs [Hq _] _ IH]; intros cur; simpl; [by rewrite app_nil_r|].
  destruct q; try done; by rewrite IH, <- app_assoc.
Qed.

Definition opt_item (g : expr → Q) (i : item) : Q := match i with IExpr e => g e | _ => QOrOperator end.

Lemma operators_alternatives (g : expr → Q) alts seen top :
  (∀ e, ordinary (g e)) → alts ≠ [] →
  (seen = true ∨ (2 <= length alts)%nat → Forall (λ es, es ≠ []) alts) →
  operators_loop (map (opt_item g) (alternatives alts)) seen top []
  = Ok (QOr (top ++ map (λ es, QAnd (map g es)) alts)).
Proof.
  intros Hg. revert seen top. induction alts as [|es alts IH]; intros seen top Hne Hok; [done|].
  assert (Hes : ∀ rest cur, operators_loop (map (opt_item g) (map IExpr es) ++ rest) seen top cur
    = operators_loop rest seen top (cur ++ map g es)).
  { intros. rewrite map_map. apply operators_and, Forall_map, Forall_true. intros. apply Hg. }
  destruct alts as [|es' alts].
  - cbn [alternatives]. rewrite <- (app_nil_r (map _ _)), Hes. simpl.
    destruct seen; [|done]. specialize (Hok (or_introl eq_refl)).
    apply Forall_cons in Hok as [Hn _]. rewrite bool_decide_eq_false_2; [done|]. by destruct es.
  - specialize (Hok ltac:(simpl; right; lia)). inversion Hok as [|? ? Hn Hrest]; subst.
    change (alternatives (es :: es' :: alts)) with (map IExpr es ++ IOr :: alternatives (es' :: alts)).
    rewrite map_app, Hes. cbn [map opt_item app operators_loop].
    destruct es as [|e es]; [done|]. cbn [map]. rewrite IH by done. by rewrite <- app_assoc.
Qed.

Lemma alts_ok_spec alts :
  alts_ok alts = true → alts ≠ [] ∧
  (false = true ∨ (2 <= length alts)%nat → Forall (λ es : list expr, es ≠ []) alts).
Proof.
  intros H. split; [by destruct alts|]. intros [|Hl]; [done|].
  destruct alts as [|es [|es' alts]]; simpl in Hl; [lia|lia|].
  unfold alts_ok in H. rewrite forallb_elem in H. apply Forall_forall. intros x Hx ->.
  specialize (H [] Hx). done.
Qed.

Lemma built_ordinary e : ordinary (built e).
Proof. destruct e as [f t| |]; [apply atom_plain|done|done]. Qed.
Lemma denote_ordinary fl e : ordinary (denote syntaxParse reString fl e).
Proof. destruct e as [f t| |]; [|done|done]. destruct (atom_plain f t). by apply setCase_plain. Qed.

Lemma splitCase_alternatives fl alts :
  splitCase fl (map built_item (alternatives alts)) = (fl, map built_item (alternatives alts)).
Proof.
  assert (∀ es l, splitCase fl l = (fl, l) →
    splitCase fl (map built_item (map IExpr es) ++ l) = (fl, map built_item (map IExpr es) ++ l)) as Hes.
  { intros es l Hl. induction es as [|e es IH]; simpl; [done|]. rewrite IH.
    destruct (built_ordinary e) as [_ Hb]. destruct (built e); try done. by destruct (Hb flavor). }
  induction alts as [|es [|es' alts] IH]; [done| |].
  - cbn [alternatives]. rewrite <- (app_nil_r (map _ _)). by apply Hes.
  - change (alternatives (es :: es' :: alts)) with (map IExpr es ++ IOr :: alternatives (es' :: alts)).
    rewrite map_app. apply Hes. cbn [map built_item splitCase]. by rewrite IH.
Qed.

(** The queries of a printed list, under its case rule. *)
Lemma applyCase_items fl alts :
  flavor_ok fl = true → forallb (forallb wf) alts = true →
  applyCase reString (map built_item (group_items fl alts))
  = map (opt_item (denote syntaxParse reString (default (str "auto") fl))) (alternatives alts).
Proof.
  intros Hfl Hwf. unfold applyCase, group_items. rewrite map_app.
  assert (splitCase (str "auto") (map built_item (match fl with None => [] | Some f => [ICase f] end)
            ++ map built_item (alternatives alts))
          = (default (str "auto") fl, map built_item (alternatives alts))) as ->.
  { destruct fl; simpl; apply splitCase_alternatives. }
  unfold mapQueryList. rewrite map_map. apply flavor_in in Hfl. clear - Hfl Hwf.
  set (f := default _ _) in *. clearbody f.
  assert (∀ es, forallb wf es = true → map (λ i, Map (built_item i) (sc f)) (map IExpr es)
    = map (opt_item (denote syntaxParse reString f)) (map IExpr es)) as Hes.
  { intros es He. rewrite !map_map. apply map_ext_in. intros e Hin%list_elem_of_In. simpl.
    rewrite forallb_elem in He. apply Map_built; auto. }
  induction alts as [|es [|es' alts] IH]; [done| |]; simpl in Hwf; rewrite !andb_true_iff in Hwf.
  - cbn [alternatives]. apply Hes. tauto.
  - change (alternatives (es :: es' :: alts)) with (map IExpr es ++ IOr :: alternatives (es' :: alts)).
    rewrite !map_app, Hes by tauto. f_equal. cbn [map built_item opt_item]. f_equal.
    apply IH. simpl. rewrite andb_true_iff. tauto.
Qed.

Lemma parseOperators_items fl alts :
  flavor_ok fl = true → alts_ok alts = true → forallb (forallb wf) alts = true →
  parseOperators (applyCase reString (map built_item (group_items fl alts)))
  = Ok (denote_query syntaxParse reString fl alts).
Proof.
  intros Hfl Ha Hwf. rewrite applyCase_items by done. unfold parseOperators.
  destruct (alts_ok_spec _ Ha). apply operators_alternatives; auto using denote_ordinary.
Qed.

(** *** Groups *)

Lemma group_items_wf fl alts :
  flavor_ok fl = true → forallb (forallb wf) alts = true → Forall item_wf (group_items fl alts).
Proof.
  intros Hfl Hwf. apply Forall_app. split; [destruct fl; repeat constructor; done|].
  assert (∀ es, forallb wf es = true → Forall item_wf (map IExpr es)) as Hes.
  { intros es. rewrite forallb_elem, Forall_map, Forall_forall. done. }
  induction alts as [|es [|es' alts] IH]; [constructor| |]; simpl in Hwf; rewrite !andb_true_iff in Hwf.
  - apply Hes. tauto.
  - change (alternatives (es :: es' :: alts)) with (map IExpr es ++ IOr :: alternatives (es' :: alts)).
    apply Forall_app. split; [apply Hes; tauto|]. constructor; [done|]. apply IH. simpl.
    rewrite andb_true_iff. tauto.
Qed.

Lemma elem_of_alternatives e alts : IExpr e ∈ alternatives alts → ∃ es, es ∈ alts ∧ e ∈ es.
Proof.
  induction alts as [|es [|es' alts] IH]; [set_solver| |].
  - cbn [alternatives]. rewrite list_elem_of_fmap. set_solver.
  - change (alternatives (es :: es' :: alts)) with (map IExpr es ++ IOr :: alternatives (es' :: alts)).
    rewrite elem_of_app, elem_of_cons, list_elem_of_fmap. set_solver.
Qed.

Lemma group_items_parse fl alts :
  flavor_ok fl = true → forallb (forallb wf) alts = true →
  Forall (Forall (λ e, wf e = true → parses (IExpr e))) alts →
  Forall parses (filter (λ i, i ≠ IOr) (group_items fl alts)).
Proof.
  intros Hfl Hwf IH. apply Forall_forall. intros i [Hor Hi]%list_elem_of_filter.
  pose proof (group_items_wf fl alts Hfl Hwf) as Hitems. rewrite Forall_forall in Hitems.
  specialize (Hitems i Hi). destruct i as [e| |f]; [|done|by apply parseExpr_case].
  apply elem_of_app in Hi as [Hi|Hi]; [by destruct fl; set_solver|].
  apply elem_of_alternatives in Hi as (es & Hes & He). rewrite Forall_forall in IH.
  specialize (IH es Hes). rewrite Forall_forall in IH. by apply IH.
Qed.

Lemma denote_query_built fl alts :
  flavor_ok fl = true → forallb (forallb wf) alts = true →
  denote_query syntaxParse reString fl alts = built (EGroup fl alts).
Proof.
  intros Hfl Hwf. unfold denote_query. cbn [built]. f_equal. apply map_ext_in.
  intros es Hes%list_elem_of_In. f_equal. apply map_ext_in. intros e He%list_elem_of_In.
  rewrite forallb_elem in Hwf. specialize (Hwf es Hes). rewrite forallb_elem in Hwf.
  symmetry. apply Map_built; auto using flavor_in.
Qed.

Lemma parseExpr_group fl alts :
  wf (EGroup fl alts) = true →
  Forall (Forall (λ e, wf e = true → parses (IExpr e))) alts → parses (IExpr (EGroup fl alts)).
Proof.
  intros Hwf IH [|fuel] rest Hfuel; [lia|]. pose proof Hwf as Hwf'. simpl in Hwf'.
  rewrite !andb_true_iff in Hwf'. destruct Hwf' as [[Hfl Ha] Hall].
  rewrite pExpr_S. unfold expr_body. rewrite item_nonspace by done.
  cbn [print_item] in *. rewrite <- app_assoc. change ([32] ++ rest) with (32 :: rest).
  rewrite first_token_spec by done. cbn [mbind res_bind first_token t_Input t_Text t_Type].
  rewrite print_group in *. set (items := print_items (group_items fl alts)) in *.
  change ((40 :: 32 :: items ++ [41]) ++ 32 :: rest)
    with ([40] ++ ([32] ++ (items ++ [41])) ++ 32 :: rest).
  rewrite slice_from_app. cbn [mbind res_bind].
  replace (([32] ++ (items ++ [41])) ++ 32 :: rest) with (([32] ++ items) ++ 41 :: 32 :: rest)
    by (by rewrite <- !app_assoc).
  rewrite <- (app_assoc [32] items).
  pose proof (parseExprs_items (group_items fl alts) fuel [32] (41 :: 32 :: rest)) as E. fold items in E.
  rewrite E; [|by apply group_items_wf|by apply group_items_parse|auto|right; by eexists|].
  2: { rewrite !length_app in Hfuel. simpl in *. rewrite length_app in Hfuel. simpl in Hfuel. lia. }
  cbn [mbind res_bind]. rewrite (app_assoc [32] items).
  replace (lenZ (([32] ++ items) ++ 41 :: 32 :: rest) - lenZ (41 :: 32 :: rest)) with (lenZ ([32] ++ items))
    by (rewrite !lenZ_app; lia).
  rewrite slice_from_app. cbn [mbind res_bind]. rewrite nextToken_close. cbn [mbind res_bind].
  change (41 :: 32 :: rest) with ([41] ++ 32 :: rest). rewrite slice_from_app. cbn [mbind res_bind].
  rewrite parseOperators_items by done. cbn [mbind res_bind built_item].
  rewrite denote_query_built by done. f_equal. f_equal. unfold lenZ. simpl. rewrite !length_app. simpl. lia.
Qed.

Lemma parseExpr_print e : wf e = true → parses (IExpr e).
Proof.
  induction e as [f t|e IH|fl alts IH] using expr_ind'; intros Hwf.
  - intros [|fuel] rest Hf; [lia|]. cbn [print_item built_item]. rewrite <- app_assoc.
    change ([32] ++ rest) with (32 :: rest). rewrite (parseExpr_atom fuel f t rest Hwf). f_equal. f_equal. rewrite lenZ_app.
    unfold lenZ at 3. simpl. lia.
  - intros [|fuel] rest Hf; [lia|]. cbn [print_item built_item] in *. rewrite <- app_assoc.
    change ([32] ++ rest) with (32 :: rest). rewrite (parseExpr_not fuel e rest).
    + f_equal. f_equal. rewrite lenZ_app. unfold lenZ at 3. simpl. lia.
    + specialize (IH Hwf fuel rest). cbn [print_item built_item] in IH. rewrite <- app_assoc in IH.
      change ([32] ++ rest) with (32 :: rest) in IH. rewrite IH.
      * f_equal. f_equal. rewrite lenZ_app. unfold lenZ at 2. simpl. lia.
      * rewrite length_app in *. simpl in *. lia.
  - by apply parseExpr_group.
Qed.

Lemma Parse_print fl alts :
  flavor_ok fl = true → alts_ok alts = true → forallb (forallb wf) alts = true →
  Parse syntaxParse reString (print_query fl alts) = Simplify (denote_query syntaxParse reString fl alts).
Proof.
  intros Hfl Ha Hwf. unfold Parse, parseExprList, print_query.
  set (items := group_items fl alts).
  pose proof (parseExprs_items items (2 * length (print_items items) + 2) [] []) as E.
  simpl app in E. rewrite app_nil_r in E. rewrite E.
  - cbn [mbind res_bind]. unfold items. by rewrite parseOperators_items.
  - by apply group_items_wf.
  - apply group_items_parse; try done. apply Forall_forall. intros es _. apply Forall_forall.
    intros e _. apply parseExpr_print.
  - auto.
  - by left.
  - simpl. lia.
Qed.
End Refines.

Lemma nextToken_empty rest : nextToken (quote [] ++ 32 :: rest) = Ok None.
Proof.
  set (inp := quote [] ++ 32 :: rest). unfold nextToken. change inp with (34 :: tail inp) at 1. cbn match.
  simpl (34 =? 45). cbn match.
  assert (token_loop (length inp) inp 0 [] = Ok ([], 32 :: rest, false)) as ->; [|done].
  apply (token_loop_quote [] []); [done|]. unfold inp. rewrite length_app. simpl. lia.
Qed.

(** A text whose first token is missing or closes a group is the empty query,
    whatever follows. *)
Lemma Parse_stops syntaxParse reString c rest :
  isSpace c = false →
  nextToken (c :: rest) = Ok None ∨ (∃ t i, nextToken (c :: rest) = Ok (Some (Token tokParenClose t i))) →
  Parse syntaxParse reString (c :: rest) = Ok (QConst true).
Proof.
  intros Hc Htok. unfold Parse, parseExprList.
  replace (2 * length (c :: rest) + 2)%nat with (S (S (2 * length (c :: rest)))) by lia.
  rewrite pExprs_S. unfold exprs_body. cbn [skipSpaces]. rewrite Hc.
  destruct Htok as [Htok|(t & i & Htok)]; rewrite Htok; [|reflexivity].
  rewrite pExpr_S. unfold expr_body. cbn [skipSpaces]. rewrite Hc, Htok. reflexivity.
Qed.

(** ** Properties *)

(** C15: Parse is total. On any bytes, and whatever the regular expression parser
    answers, it returns an error or a query in the normal form of Simplify; no
    slice or index goes out of range and the recursion ends. *)
Theorem Parse_total (syntaxParse : bytes → option Regexp) (reString : Regexp → bytes) (qStr : bytes) :
  (∃ e, Parse syntaxParse reString qStr = Err e) ∨
  (∃ q, Parse syntaxParse reString qStr = Ok q ∧ normal q = true).
Proof.
  unfold Parse, parseExprList.
  destruct (parse_ok syntaxParse reString (2 * length qStr + 2)) as [_ Hl].
  destruct (Hl qStr ltac:(lia)) as [Hs _]. destruct (parseExprs _ _ _ _) as [[qs b]|e| |]; try done; simpl.
  2: by left; exists e.
  pose proof (operators_loop_settled (applyCase reString qs) false [] []) as Ho. unfold parseOperators.
  destruct (operators_loop _ _ _ _) as [q|e| |]; try done; simpl; [|by left; exists e].
  right. destruct (Simplify_spec (λ _, true) q) as (r & -> & Hn & _). by exists r.
Qed.

(** C14: the parser implements the query grammar. Printing alternatives of
    conjunctions of atoms, negations and groups, and parsing the text, gives the
    simplified query they denote, in which juxtaposition binds tighter than [or]
    and one case rule, the outermost one, governs every atom. *)
Theorem Parse_grammar (syntaxParse : bytes → option Regexp) (reString : Regexp → bytes)
    (fl : option bytes) (alts : list (list expr))
    (Hfl : flavor_ok fl = true) (Halts : alts_ok alts = true)
    (Hwf : forallb (forallb (expr_wf syntaxParse)) alts = true) :
  Parse syntaxParse reString (print_query fl alts)
  = Simplify (denote_query syntaxParse reString fl alts).
Proof. by apply Parse_print. Qed.

(** The type and text of a token do not depend on the order in which the
    range loop over the table of prefixes visits it, so tokenizing is
    deterministic although Go randomizes map iteration. *)
Theorem setType_order (prefs : list (bytes * tokType)) (t : token) (Hperm : prefs ≡ₚ prefixes) :
  setType prefs t = setType prefixes t.
Proof.
  unfold setType. match goal with |- context [setReserved _ ?t0] => set (t1 := setReserved _ t0) end.
  assert (prefix_free prefs) as Hfree.
  { intros p q Hp Hq. rewrite Hperm in Hp, Hq. by apply prefixes_free. }
  destruct (decide (Exists (λ p, HasPrefix (t_Input t1) (fst p) = true) prefixes)) as [He|He].
  - apply Exists_exists in He as ([p ty] & Hin & Hp). simpl in Hp.
    rewrite (setPrefix_unique prefixes t1 p ty) by (done || apply prefixes_free).
    apply setPrefix_unique; try done. by rewrite Hperm.
  - assert (∀ p ty, (p, ty) ∈ prefixes → HasPrefix (t_Input t1) p = false) as Hnone.
    { intros p ty Hin. destruct (HasPrefix (t_Input t1) p) eqn:E; [|done]. destruct He.
      apply Exists_exists. by exists (p, ty). }
    rewrite !setPrefix_none; auto. intros p ty. rewrite Hperm. apply Hnone.
Qed.

(** Quoting does not protect a parenthesis. The string literal that holds
    one opening parenthesis is a grouping token, so the query made of it is an
    error, and a newline or an empty literal ends the query: the rest is dropped. *)
Theorem Parse_quoted_paren (syntaxParse : bytes → option Regexp) (reString : Regexp → bytes) (rest : bytes) :
  nextToken (quote [40]) = Ok (Some (Token tokParenOpen [40] (quote [40]))) ∧
  Parse syntaxParse reString (quote [40]) = Err "query: missing close paren" ∧
  Parse syntaxParse reString (10 :: rest) = Ok (QConst true) ∧
  Parse syntaxParse reString (quote [] ++ [32] ++ rest) = Ok (QConst true) ∧
  Parse syntaxParse reString (41 :: rest) = Ok (QConst true).
Proof.
  split_and!; try reflexivity.
  - apply Parse_stops; [done|]. by left.
  - apply Parse_stops; [done|]. left. apply nextToken_empty.
  - apply Parse_stops; [done|]. right. rewrite nextToken_close. by do 2 eexists.
Qed.

Lemma Parse_grammar_witness :
  ∃ syntaxParse : bytes → option Regexp, ∃ reString : Regexp → bytes,
    Parse syntaxParse reString
      (print_query (Some (str "yes"))
         [[EAtom InText (str "a b"); ENot (EAtom InFile (str "c"))];
          [EGroup (Some (str "no")) [[EAtom InSym (str "d")]; [EAtom InRepo (str "e")]]]])
    = Ok (QOr [QAnd [QSubstring (MkSubstring (str "a b") true false false);
                     QNot (QSubstring (MkSubstring (str "c") true true false))];
               QSymbol (MkSubstring (str "d") true false false); QRepo (str "e")]).
Proof.
  exists (λ t, Some (RE OpLiteral false [] t 0 0)), (λ _, []).
  rewrite Parse_grammar; reflexivity.
Defined.

Lemma setType_order_witness :
  setType (rev prefixes) (Token tokText (str "file:a") (str "file:a"))
  = Ok (Token tokFile (str "a") (str "file:a")).
Proof. rewrite (setType_order (rev prefixes)); [reflexivity|apply Permutation_sym, Permutation_rev]. Defined.
