(* ===== verification/Section.v ===== *)
(** * section.go, toc.go, indexfile.go and the reader of read.go: the file format

    An index file is a sequence of sections followed by a table of contents and,
    in its last eight bytes, the position of that table. This file holds the
    writer, the simple and compound sections, the table of contents, the two
    implementations of IndexFile and the reader of the table of contents. *)

From S2P Require Import Prelude GoStd.
Import binary.

(** ** Sections *)

Record simpleSection := Sec { s_off : Z; s_sz : Z }.
#[global] Instance simpleSection_eq_dec : EqDecision simpleSection.
Proof. solve_decision. Defined.
Definition sec0 : simpleSection := Sec 0 0.

Record compoundSection := Comp { c_data : simpleSection; c_offsets : list Z; c_index : simpleSection }.
Definition comp0 : compoundSection := Comp sec0 [] sec0.

Definition relativeIndex (s : compoundSection) : list Z :=
  match c_offsets s with
  | [] => []
  | o0 :: _ => ((λ o, o ⊖ o0) <$> c_offsets s) ++ [s_sz (c_data s)]
  end.

(** ** The table of contents *)

Record indexTOC := TOC {
  t_metaData : simpleSection;
  t_repoMetaData : simpleSection;
  t_fileContents : compoundSection;
  t_fileNames : compoundSection;
  t_fileSections : compoundSection;
  t_newlines : compoundSection;
  t_ngramText : simpleSection;
  t_postings : compoundSection;
  t_nameNgramText : simpleSection;
  t_namePostings : compoundSection;
  t_branchMasks : simpleSection;
  t_subRepos : simpleSection;
  t_runeOffsets : simpleSection;
  t_nameRuneOffsets : simpleSection;
  t_fileEndRunes : simpleSection;
  t_nameEndRunes : simpleSection;
  t_contentChecksums : simpleSection;
  t_languages : simpleSection;
  t_runeDocSections : simpleSection }.

Definition IndexFormatVersion : Z := 15.
Definition FeatureVersion : Z := 7.

(** A section of either kind, as the interface [section]. *)
Abbreviation section := (simpleSection + compoundSection)%type.
Definition sections (t : indexTOC) : list section :=
  [inl (t_metaData t); inl (t_repoMetaData t); inr (t_fileContents t); inr (t_fileNames t);
   inr (t_fileSections t); inr (t_newlines t); inl (t_ngramText t); inr (t_postings t);
   inl (t_nameNgramText t); inr (t_namePostings t); inl (t_branchMasks t); inl (t_subRepos t);
   inl (t_runeOffsets t); inl (t_nameRuneOffsets t); inl (t_fileEndRunes t); inl (t_nameEndRunes t);
   inl (t_contentChecksums t); inl (t_languages t); inl (t_runeDocSections t)].

(** ** The writer *)

(** [w_out] is what the underlying io.Writer has accepted so far. *)
Record writer := MkWriter { w_err : option string; w_out : bytes; w_off : Z }.

Section Writer.
(** The underlying io.Writer: given what it holds and a buffer, how many bytes
    it accepts and the error it returns. *)
Context (sink : bytes → bytes → nat * option string).

Definition w_Write (w : writer) (b : bytes) : writer :=
  match w_err w with
  | Some _ => w
  | None =>
    let '(n, err) := sink (w_out w) b in
    MkWriter err (w_out w ++ take n b) (w_off w ⊕ u32 (Z.of_nat n))
  end.

Definition w_B (w : writer) (b : Z) : writer := w_Write w [b].
Definition w_U32 (w : writer) (n : Z) : writer := w_Write w (PutUint32 n).
Definition w_U64 (w : writer) (n : Z) : writer := w_Write w (PutUint64 n).
Definition w_Varint (w : writer) (n : Z) : writer := w_Write w (PutUvarint n).

Definition sec_start (s : simpleSection) (w : writer) : simpleSection := Sec (w_off w) (s_sz s).
Definition sec_end (s : simpleSection) (w : writer) : simpleSection := Sec (s_off s) (w_off w ⊖ s_off s).
Definition sec_write (s : simpleSection) (w : writer) : writer := w_U32 (w_U32 w (s_off s)) (s_sz s).

Definition comp_start (s : compoundSection) (w : writer) : compoundSection :=
  Comp (sec_start (c_data s) w) (c_offsets s) (c_index s).

Definition comp_addItem (s : compoundSection) (w : writer) (item : bytes) : compoundSection * writer :=
  (Comp (c_data s) (c_offsets s ++ [w_off w]) (c_index s), w_Write w item).

Definition comp_end (s : compoundSection) (w : writer) : compoundSection * writer :=
  let data := sec_end (c_data s) w in
  let index := sec_start (c_index s) w in
  let w := foldl w_U32 w (c_offsets s) in
  (Comp data (c_offsets s) (sec_end index w), w).

(** A whole compound section: start, the items, end. *)
Definition writeItems (w : writer) (items : list bytes) : compoundSection * writer :=
  let s := comp_start comp0 w in
  let '(s, w) := foldl (λ '(s, w) it, comp_addItem s w it) (s, w) items in
  comp_end s w.

Definition comp_write (s : compoundSection) (w : writer) : writer :=
  sec_write (c_index s) (sec_write (c_data s) w).

Definition section_write (w : writer) (s : section) : writer :=
  match s with inl s => sec_write s w | inr s => comp_write s w end.

Definition writeTOC (w : writer) (toc : indexTOC) : writer :=
  let secs := sections toc in
  foldl section_write (w_U32 w (u32 (lenZ secs))) secs.

End Writer.

(** ** Index files *)

(** The interface IndexFile; Close and Name do not matter to reading. The slice
    that Read returns has a capacity: [if_Spare] are the bytes of its backing array
    after it, which a slice expression can reach. *)
Class IndexFile (F : Type) := {
  if_Read : F → Z → Z → res bytes;
  if_Size : F → res Z;
  if_Spare : F → Z → Z → bytes }.

(** mmapedIndexFile: the file mapped with its last page filled up by zeros. *)
Record mmapedIndexFile := Mmaped { mm_size : Z; mm_data : bytes }.

Definition mmap_Read (f : mmapedIndexFile) (off sz : Z) : res bytes :=
  if u32 (lenZ (mm_data f)) <? off ⊕ sz then Err "out of bounds"
  else slice (mm_data f) off (off ⊕ sz).

#[global] Instance mmap_file : IndexFile mmapedIndexFile := {|
  if_Read := mmap_Read;
  if_Size f := Ok (mm_size f);
  if_Spare f off sz := drop (Z.to_nat (off ⊕ sz)) (mm_data f) |}.

(** NewIndexFile on Linux, given the contents of the file. syscall.Mmap refuses
    an empty mapping; pages past the end of the file read as zeros. *)
Definition NewIndexFile (contents : bytes) : res mmapedIndexFile :=
  if maxUInt32 <=? lenZ contents then Err "file too large"
  else
    let size := u32 (lenZ contents) in
    let rounded := Z.land (size ⊕ 4095) (two32 - 4096) in
    if rounded =? 0 then Err "invalid argument"
    else Ok (Mmaped size (take (Z.to_nat rounded) (contents ++ replicate 4095 0))).

(** indexFileFromOS: reads with ReadAt, which fails on a short read; reading nothing always succeeds. *)
Record indexFileFromOS := FromOS { os_contents : bytes }.
#[global] Instance os_file : IndexFile indexFileFromOS := {|
  if_Read f off sz :=
    if (sz =? 0) || (off + sz <=? lenZ (os_contents f))
    then Ok (take (Z.to_nat sz) (drop (Z.to_nat off) (os_contents f)))
    else Err "EOF";
  if_Size f := if maxUInt32 <=? lenZ (os_contents f) then Err "overflow" else Ok (u32 (lenZ (os_contents f)));
  if_Spare _ _ _ := [] |}.

(** ** The reader *)

Section Reader.
Context {F : Type} `{IndexFile F}.

(** The reader is a file and an offset; each read returns the new offset. *)
Definition r_U32 (f : F) (off : Z) : res (Z * Z) :=
  b ← if_Read f off 4; n ← Uint32 b; Ok (n, off ⊕ 4).
Definition r_U64 (f : F) (off : Z) : res (Z * Z) :=
  b ← if_Read f off 8; n ← Uint64 b; Ok (n, off ⊕ 8).

Definition sec_read (f : F) (off : Z) : res (simpleSection * Z) :=
  '(o, off) ← r_U32 f off;
  '(sz, off) ← r_U32 f off;
  Ok (Sec o sz, off).

Fixpoint read_words (fuel width : nat) (blob : bytes) : res (list Z) :=
  match blob with
  | [] => Ok []
  | _ =>
    match fuel with
    | O => OutOfFuel
    | S fuel =>
      n ← be_read width blob;
      blob ← slice_from blob (Z.of_nat width);
      ns ← read_words fuel width blob;
      Ok (n :: ns)
    end
  end.

Definition readSectionU32 (f : F) (sec : simpleSection) : res (list Z) :=
  if negb (s_sz sec mod 4 =? 0) then Err "barf: section size % 4 != 0"
  else blob ← if_Read f (s_off sec) (s_sz sec); read_words (length blob) 4 blob.

Definition readSectionU64 (f : F) (sec : simpleSection) : res (list Z) :=
  if negb (s_sz sec mod 8 =? 0) then Err "barf: section size % 8 != 0"
  else blob ← if_Read f (s_off sec) (s_sz sec); read_words (length blob) 8 blob.

Definition comp_read (f : F) (off : Z) : res (compoundSection * Z) :=
  '(data, off) ← sec_read f off;
  '(index, off) ← sec_read f off;
  offsets ← readSectionU32 f index;
  Ok (Comp data offsets index, off).

Definition readTOC (f : F) : res indexTOC :=
  sz ← if_Size f;
  '(tocSection, _) ← sec_read f (sz ⊖ 8);
  '(sectionCount, off) ← r_U32 f (s_off tocSection);
  if negb (sectionCount =? 19) then Err "section count mismatch"
  else
    '(metaData, off) ← sec_read f off;
    '(repoMetaData, off) ← sec_read f off;
    '(fileContents, off) ← comp_read f off;
    '(fileNames, off) ← comp_read f off;
    '(fileSections, off) ← comp_read f off;
    '(newlines, off) ← comp_read f off;
    '(ngramText, off) ← sec_read f off;
    '(postings, off) ← comp_read f off;
    '(nameNgramText, off) ← sec_read f off;
    '(namePostings, off) ← comp_read f off;
    '(branchMasks, off) ← sec_read f off;
    '(subRepos, off) ← sec_read f off;
    '(runeOffsets, off) ← sec_read f off;
    '(nameRuneOffsets, off) ← sec_read f off;
    '(fileEndRunes, off) ← sec_read f off;
    '(nameEndRunes, off) ← sec_read f off;
    '(contentChecksums, off) ← sec_read f off;
    '(languages, off) ← sec_read f off;
    '(runeDocSections, _) ← sec_read f off;
    Ok (TOC metaData repoMetaData fileContents fileNames fileSections newlines ngramText postings
          nameNgramText namePostings branchMasks subRepos runeOffsets nameRuneOffsets fileEndRunes
          nameEndRunes contentChecksums languages runeDocSections).

Definition readSectionBlob (f : F) (sec : simpleSection) : res bytes := if_Read f (s_off sec) (s_sz sec).
End Reader.

(** ** What a section holds *)

(** Section [s] of the file [out] holds the bytes [b]. *)
Definition blob_at (out : bytes) (s : simpleSection) (b : bytes) : Prop :=
  ∃ pre post, out = pre ++ b ++ post ∧ s_off s = lenZ pre ∧ s_sz s = lenZ b.

Lemma blob_at_app out s b more : blob_at out s b → blob_at (out ++ more) s b.
Proof. intros (pre & post & -> & Ho & Hs). exists pre, (post ++ more). by rewrite <- !app_assoc. Qed.

(** A part of a section is a section. *)
Lemma blob_at_sub out s a b c :
  blob_at out s (a ++ b ++ c) → blob_at out (Sec (s_off s + lenZ a) (lenZ b)) b.
Proof.
  intros (pre & post & -> & Ho & Hs). exists (pre ++ a), (c ++ post). simpl.
  rewrite Ho, lenZ_app. split_and!; [|done|done]. by rewrite <- !app_assoc.
Qed.

Lemma blob_at_bounds out s b :
  blob_at out s b → 0 <= s_off s ∧ 0 <= s_sz s ∧ s_off s + s_sz s <= lenZ out.
Proof.
  intros (pre & post & -> & -> & ->). rewrite !lenZ_app. pose proof (lenZ_nonneg post).
  pose proof (lenZ_nonneg b). pose proof (lenZ_nonneg pre). lia.
Qed.

Fixpoint item_offsets (base : Z) (items : list bytes) : list Z :=
  match items with
  | [] => []
  | it :: items => base :: item_offsets (base + lenZ it) items
  end.

(** Compound section [s] of the file [out] holds [items]. *)
Definition comp_at (out : bytes) (s : compoundSection) (items : list bytes) : Prop :=
  blob_at out (c_data s) (mjoin items) ∧
  c_offsets s = item_offsets (s_off (c_data s)) items ∧
  blob_at out (c_index s) (mjoin (PutUint32 <$> c_offsets s)).

Lemma comp_at_app out s items more : comp_at out s items → comp_at (out ++ more) s items.
Proof. intros (Hd & Ho & Hi). split_and!; auto using blob_at_app. Qed.

(** The boundaries of the items: prefix sums of their sizes. *)
Definition boundaries_of (items : list bytes) : list Z :=
  match items with [] => [] | _ => item_offsets 0 items ++ [lenZ (mjoin items)] end.

Lemma item_offsets_range base items :
  0 <= base → Forall (λ o, base <= o <= base + lenZ (mjoin items)) (item_offsets base items).
Proof.
  revert base. induction items as [|it items IH]; intros base Hb; simpl; [constructor|].
  rewrite lenZ_app. pose proof (lenZ_nonneg it). pose proof (lenZ_nonneg (mjoin items)).
  constructor; [lia|]. eapply Forall_impl; [apply IH; lia|]. simpl. lia.
Qed.

Lemma item_offsets_shift base d items :
  (λ o, o - d) <$> item_offsets base items = item_offsets (base - d) items.
Proof.
  revert base. induction items as [|it items IH]; intros base; simpl; [done|].
  rewrite IH. do 2 f_equal. lia.
Qed.

Lemma length_item_offsets base items : length (item_offsets base items) = length items.
Proof. revert base. induction items; intros; simpl; auto. Qed.

Lemma relativeIndex_at out s items :
  lenZ out < two32 → comp_at out s items → relativeIndex s = boundaries_of items.
Proof.
  intros Hlen (Hd & Ho & _). pose proof (blob_at_bounds _ _ _ Hd) as (H0 & _ & Hb).
  destruct Hd as (pre & post & _ & _ & Hsz). unfold relativeIndex. rewrite Ho.
  destruct items as [|it items]; [done|]. cbn [item_offsets].
  unfold boundaries_of. rewrite Hsz. f_equal.
  change (s_off (c_data s) :: item_offsets (s_off (c_data s) + lenZ it) items)
    with (item_offsets (s_off (c_data s)) (it :: items)).
  replace (item_offsets 0 (it :: items)) with (item_offsets (s_off (c_data s) - s_off (c_data s)) (it :: items))
    by (f_equal; lia).
  rewrite <- item_offsets_shift.
  apply list_fmap_ext. intros i o Hi.
  pose proof (item_offsets_range (s_off (c_data s)) (it :: items) H0) as Hr.
  rewrite Forall_lookup in Hr. specialize (Hr i o Hi). cbv beta in Hr. apply u32_id. u32_unfold. lia.
Qed.

Lemma item_offsets_lookup base items i it :
  items !! i = Some it → item_offsets base items !! i = Some (base + lenZ (mjoin (take i items))).
Proof.
  revert base i. induction items as [|it' items IH]; intros base [|i] Hi; simpl in *; [done|done| |].
  - rewrite lenZ_nil. f_equal. lia.
  - rewrite IH by done. rewrite lenZ_app. f_equal. lia.
Qed.

Lemma mjoin_split (items : list bytes) i it :
  items !! i = Some it → mjoin items = mjoin (take i items) ++ it ++ mjoin (drop (S i) items).
Proof.
  intros Hi. rewrite <- (take_drop_middle items i it Hi) at 1. rewrite join_app. done.
Qed.

(** Item [i] lies between boundaries [i] and [i+1]. *)
Lemma boundaries_lookup items i it :
  items !! i = Some it →
  boundaries_of items !! i = Some (lenZ (mjoin (take i items))) ∧
  boundaries_of items !! S i = Some (lenZ (mjoin (take i items)) + lenZ it).
Proof.
  intros Hi. pose proof (lookup_lt_Some _ _ _ Hi) as Hlt. unfold boundaries_of.
  destruct items as [|it0 items0] eqn:E; [done|]. rewrite <- E in *. clear E it0 items0.
  split.
  - rewrite lookup_app_l by (rewrite length_item_offsets; lia). by rewrite (item_offsets_lookup 0 _ _ _ Hi).
  - destruct (decide (S i = length items)) as [Hl|Hl].
    + rewrite lookup_app_r, length_item_offsets, Hl, Nat.sub_diag by (rewrite length_item_offsets; lia).
      simpl. rewrite (mjoin_split _ _ _ Hi), (drop_ge items (S i)) by lia. rewrite !lenZ_app. simpl.
      f_equal. rewrite lenZ_nil. lia.
    + destruct (lookup_lt_is_Some_2 items (S i)) as [it' Hi']; [lia|].
      rewrite lookup_app_l by (rewrite length_item_offsets; lia).
      rewrite (item_offsets_lookup 0 _ _ _ Hi'), (take_S_r _ _ _ Hi), join_app, lenZ_app. simpl.
      by rewrite app_nil_r.
Qed.

Lemma item_at out s items i it :
  lenZ out < two32 → comp_at out s items → items !! i = Some it →
  ∃ a b, boundaries_of items !! i = Some a ∧ boundaries_of items !! S i = Some b ∧
    blob_at out (Sec (s_off (c_data s) ⊕ a) (b ⊖ a)) it.
Proof.
  intros Hlen (Hd & _) Hi. destruct (boundaries_lookup _ _ _ Hi) as [Ha Hb].
  refine (ex_intro _ _ (ex_intro _ _ (conj Ha (conj Hb _)))). pose proof (blob_at_bounds _ _ _ Hd) as (H0 & _ & Hle).
  assert (s_sz (c_data s) = lenZ (mjoin items)) as Hsz by (by destruct Hd as (? & ? & _ & _ & ?)).
  rewrite (mjoin_split _ _ _ Hi) in Hd, Hsz. rewrite !lenZ_app in Hsz.
  pose proof (lenZ_nonneg (mjoin (take i items))). pose proof (lenZ_nonneg it).
  pose proof (lenZ_nonneg (mjoin (drop (S i) items))).
  rewrite !u32_id by (u32_unfold; lia).
  replace (_ + lenZ it - _) with (lenZ it) by lia. by eapply blob_at_sub.
Qed.

(** ** Writing *)

Section WriterOk.
Context (sink : bytes → bytes → nat * option string).

(** No error so far, and the offset counts the bytes written. *)
Definition w_ok (w : writer) : Prop := w_err w = None ∧ w_off w = u32 (lenZ (w_out w)).
(** [w'] is [w] with [b] written after it. *)
Definition wrote (w w' : writer) (b : bytes) : Prop := w_ok w' ∧ w_out w' = w_out w ++ b.

(** An io.Writer that does not fail. *)
Context (sink_ok : ∀ out b, sink out b = (length b, None)).

Lemma w_Write_ok w b : w_ok w → wrote w (w_Write sink w b) b.
Proof.
  intros [He Ho]. unfold w_Write. rewrite He, sink_ok, take_ge by lia. split; [|done].
  split; [done|]. simpl. rewrite Ho, lenZ_app. unfold lenZ. u32_unfold. by rewrite Zplus_mod_idemp_l, Zplus_mod_idemp_r.
Qed.
Lemma w_U32_ok w n : w_ok w → wrote w (w_U32 sink w n) (PutUint32 n).
Proof. apply w_Write_ok. Qed.
Lemma w_U64_ok w n : w_ok w → wrote w (w_U64 sink w n) (PutUint64 n).
Proof. apply w_Write_ok. Qed.

Lemma wrote_trans w1 w2 w3 a b : wrote w1 w2 a → wrote w2 w3 b → wrote w1 w3 (a ++ b).
Proof. intros [_ Ho] [Hok Ho']. split; [done|]. by rewrite Ho', Ho, app_assoc. Qed.
Lemma wrote_nil w : w_ok w → wrote w w [].
Proof. intros. split; [done|]. by rewrite app_nil_r. Qed.

Lemma foldl_wrote {A} (f : writer → A → writer) (enc : A → bytes) l w :
  (∀ w a, w_ok w → wrote w (f w a) (enc a)) → w_ok w → wrote w (foldl f w l) (mjoin (enc <$> l)).
Proof.
  intros Hf. revert w. induction l as [|a l IH]; intros w Hw; simpl; [by apply wrote_nil|].
  eapply wrote_trans; [by apply Hf|]. apply IH. apply Hf, Hw.
Qed.

(** Start, write, end: the section holds what was written. *)
Lemma section_written w w' b s :
  w_ok w → wrote w w' b → lenZ (w_out w') < two32 → blob_at (w_out w') (sec_end (sec_start s w) w') b.
Proof.
  intros [_ Ho] [[_ Ho'] Hout] Hlen. exists (w_out w), []. unfold sec_end, sec_start. simpl.
  rewrite Ho, Ho', app_nil_r. rewrite Hout, lenZ_app in *. pose proof (lenZ_nonneg (w_out w)).
  pose proof (lenZ_nonneg b). rewrite !(u32_id (lenZ (w_out w))), (u32_id (_ + _)) by (u32_unfold; lia).
  split_and!; [done|done|]. replace (_ + _ - _) with (lenZ b) by lia. apply u32_id. u32_unfold. lia.
Qed.

Lemma addItems_ok items s w :
  w_ok w → lenZ (w_out w ++ mjoin items) < two32 →
  let '(s', w') := foldl (λ '(s, w) it, comp_addItem sink s w it) (s, w) items in
  wrote w w' (mjoin items) ∧ c_data s' = c_data s ∧ c_index s' = c_index s ∧
  c_offsets s' = c_offsets s ++ item_offsets (lenZ (w_out w)) items.
Proof.
  revert s w. induction items as [|it items IH]; intros s w Hw Hlen; simpl.
  { split_and!; [by apply wrote_nil|done|done|by rewrite app_nil_r]. }
  destruct (w_Write_ok w it Hw) as [Hw1 Hout1].
  specialize (IH (Comp (c_data s) (c_offsets s ++ [w_off w]) (c_index s)) (w_Write sink w it) Hw1).
  unfold comp_addItem. destruct (foldl _ _ items) as [s' w'].
  rewrite Hout1, <- app_assoc in IH. specialize (IH Hlen) as (Hw' & Hd & Hi & Ho). simpl in *.
  split_and!; [by eapply wrote_trans; [by split|]|done|done|].
  rewrite Ho, <- app_assoc, lenZ_app. simpl. do 2 f_equal. destruct Hw as [_ ->]. apply u32_id.
  rewrite lenZ_app in Hlen. pose proof (lenZ_nonneg (it ++ mjoin items)).
  pose proof (lenZ_nonneg (w_out w)). u32_unfold. lia.
Qed.

(** The bytes a compound section takes: the items and the table of offsets. *)
Definition comp_bytes (base : Z) (items : list bytes) : bytes :=
  mjoin items ++ mjoin (PutUint32 <$> item_offsets base items).

Lemma writeItems_ok w items :
  w_ok w → lenZ (w_out w ++ comp_bytes (lenZ (w_out w)) items) < two32 →
  let '(s, w') := writeItems sink w items in
  wrote w w' (comp_bytes (lenZ (w_out w)) items) ∧ comp_at (w_out w') s items.
Proof.
  intros Hw Hlen. unfold writeItems, comp_bytes in *. set (base := lenZ (w_out w)) in *.
  rewrite app_assoc, lenZ_app in Hlen. pose proof (lenZ_nonneg (mjoin (PutUint32 <$> item_offsets base items))).
  pose proof (addItems_ok items (comp_start comp0 w) w Hw ltac:(lia)) as Ha.
  destruct (foldl _ _ items) as [s1 w1]. destruct Ha as (Hw1 & Hd & _ & Ho). simpl in Hd, Ho. fold base in Ho.
  unfold comp_end. rewrite Ho.
  pose proof (foldl_wrote (w_U32 sink) PutUint32 (item_offsets base items) w1 w_U32_ok (proj1 Hw1)) as Hw2.
  set (w2 := foldl _ w1 _) in *. destruct Hw1 as [Hok1 Hout1]. destruct Hw2 as [Hok2 Hout2].
  assert (lenZ (w_out w2) < two32) by (rewrite Hout2, Hout1, lenZ_app; lia).
  split; [split; [done|]; by rewrite Hout2, Hout1, app_assoc|]. rewrite Hd.
  assert (blob_at (w_out w1) (sec_end (sec_start (c_data comp0) w) w1) (mjoin items)) as Hb.
  { apply section_written; [done|by split|]. rewrite Hout2, lenZ_app in *. lia. }
  split_and!; simpl.
  - rewrite Hout2. apply blob_at_app, Hb.
  - f_equal. destruct Hw as [_ ->]. unfold base. symmetry. apply u32_id.
    rewrite Hout2, Hout1, !lenZ_app in *. pose proof (lenZ_nonneg (mjoin items)).
    pose proof (lenZ_nonneg (w_out w)). u32_unfold. lia.
  - apply section_written; [done|by split|done].
Qed.

(** A table of sections and its place, as they are written. *)
Definition enc_sec (s : simpleSection) : bytes := PutUint32 (s_off s) ++ PutUint32 (s_sz s).
Definition enc_section (s : section) : bytes :=
  match s with inl s => enc_sec s | inr s => enc_sec (c_data s) ++ enc_sec (c_index s) end.
Definition enc_toc (t : indexTOC) : bytes := PutUint32 19 ++ mjoin (enc_section <$> sections t).

Lemma sec_write_ok s w : w_ok w → wrote w (sec_write sink s w) (enc_sec s).
Proof. intros Hw. eapply wrote_trans; apply w_U32_ok; [done|]. by apply w_U32_ok. Qed.

Lemma section_write_ok w s : w_ok w → wrote w (section_write sink w s) (enc_section s).
Proof.
  intros Hw. destruct s as [s|s]; cbn [section_write enc_section]; [by apply sec_write_ok|].
  unfold comp_write.
  eapply wrote_trans; apply sec_write_ok; [done|]. by apply sec_write_ok.
Qed.

Lemma writeTOC_ok w t : w_ok w → wrote w (writeTOC sink w t) (enc_toc t).
Proof.
  intros Hw. unfold writeTOC, enc_toc. eapply wrote_trans; [by apply w_U32_ok|].
  apply foldl_wrote; [apply section_write_ok|]. by apply w_U32_ok.
Qed.
End WriterOk.

(** ** Reading *)

(** What readers ask of an index file with contents [out]. *)
Class IndexFileOk (F : Type) `{IndexFile F} := {
  contents : F → bytes → Prop;
  contents_size : ∀ f out, contents f out → if_Size f = Ok (lenZ out) ∧ lenZ out < maxUInt32;
  contents_read : ∀ f out off sz, contents f out → 0 <= off → 0 <= sz → off + sz <= lenZ out →
    if_Read f off sz = Ok (take (Z.to_nat sz) (drop (Z.to_nat off) out)) }.

#[global] Program Instance os_file_ok : IndexFileOk indexFileFromOS := {|
  contents f out := os_contents f = out ∧ lenZ out < maxUInt32 |}.
Next Obligation.
  intros f out [<- Hlen]. simpl. destruct (Z.leb_spec maxUInt32 (lenZ (os_contents f))); [lia|].
  pose proof (lenZ_nonneg (os_contents f)). rewrite u32_id by (u32_unfold; lia). split; [done|u32_unfold; lia].
Qed.
Next Obligation.
  intros f out off sz [<- _] H0 H1 H2. simpl. destruct (Z.leb_spec (off + sz) (lenZ (os_contents f))); [|lia]. by rewrite orb_true_r.
Qed.

#[global] Program Instance mmap_file_ok : IndexFileOk mmapedIndexFile := {|
  contents f out := ∃ pad, mm_data f = out ++ pad ∧ mm_size f = lenZ out ∧ lenZ (mm_data f) < maxUInt32 |}.
Next Obligation.
  intros f out (pad & Hd & Hs & Hlen). simpl. rewrite Hs. split; [done|].
  rewrite Hd, lenZ_app in Hlen. pose proof (lenZ_nonneg pad). lia.
Qed.
Next Obligation.
  intros f out off sz (pad & Hd & Hs & Hlen) H0 H1 H2. simpl. unfold mmap_Read.
  pose proof (lenZ_nonneg (mm_data f)). rewrite (u32_id (lenZ (mm_data f))) by (u32_unfold; lia).
  pose proof (lenZ_nonneg pad). rewrite Hd, lenZ_app in *.
  rewrite !(u32_id (off + sz)) by (u32_unfold; lia).
  destruct (Z.ltb_spec (lenZ out + lenZ pad) (off + sz)); [lia|]. unfold slice.
  rewrite decide_True by (rewrite lenZ_app; lia). f_equal. replace (off + sz - off) with sz by lia.
  rewrite drop_app_le by (unfold lenZ in *; lia). apply take_app_le. rewrite length_drop.
  unfold lenZ in *. lia.
Qed.

(** A file of four to seven bytes: the offset of the table of contents wraps around, passes the bounds check of the mapped file and panics. *)
Lemma NewIndexFile_short c : 4 <= lenZ c < 8 → ∃ data : bytes, NewIndexFile c = Ok (Mmaped (lenZ c) data) ∧ lenZ data = 4096.
Proof.
  intros Hc. unfold NewIndexFile. rewrite (proj2 (Z.leb_gt _ _)) by (unfold maxUInt32; lia). rewrite (u32_id (lenZ c)) by (u32_unfold; lia).
  assert (Z.land (lenZ c ⊕ 4095) (two32 - 4096) = 4096) as ->.
  { assert (lenZ c = 4 ∨ lenZ c = 5 ∨ lenZ c = 6 ∨ lenZ c = 7) as Hl by lia. by destruct Hl as [-> |[-> |[-> | ->]]]. }
  eexists. split; [done|]. rewrite lenZ_take, lenZ_app. unfold lenZ in *. rewrite length_replicate. lia.
Qed.
Lemma readTOC_short (c data : bytes) : 4 <= lenZ c < 8 → lenZ data = 4096 → ∃ w, readTOC (Mmaped (lenZ c) data) = Panic w.
Proof.
  intros Hc Hd. unfold readTOC. cbn [if_Size mmap_file mm_size mbind res_bind]. unfold sec_read, r_U32. cbn [if_Read mmap_file]. unfold mmap_Read. cbn [mm_data].
  replace (lenZ c ⊖ 8 ⊕ 4) with (lenZ c - 4) by u32_lia. replace (lenZ c ⊖ 8) with (two32 + lenZ c - 8) by u32_lia.
  rewrite Hd. change (u32 4096) with 4096. rewrite (proj2 (Z.ltb_ge _ _)) by lia.
  unfold slice. rewrite decide_False by (unfold two32; lia). by eexists.
Qed.

(** Rounding up to whole pages keeps the size and the contents. *)
Lemma NewIndexFile_ok out :
  0 < lenZ out <= two32 - 4096 → ∃ f, NewIndexFile out = Ok f ∧ contents f out.
Proof.
  intros Hlen. unfold NewIndexFile. destruct (Z.leb_spec maxUInt32 (lenZ out)); [u32_unfold; lia|].
  rewrite !(u32_id (lenZ out)) by (u32_unfold; lia). rewrite (u32_id (_ + 4095)) by (u32_unfold; lia).
  assert (Hr : Z.land (lenZ out + 4095) (two32 - 4096) = (lenZ out + 4095) / 4096 * 4096).
  { replace (two32 - 4096) with (Z.shiftl (Z.ones 20) 12) by reflexivity.
    rewrite <- (Z.shiftl_mul_pow2 _ 12), <- (Z.shiftr_div_pow2 _ 12) by lia.
    apply Z.bits_inj'. intros n Hn. rewrite Z.land_spec, !Z.shiftl_spec by lia.
    destruct (Z.lt_ge_cases n 12); [rewrite !(Z.testbit_neg_r _ (n - 12)) by lia; apply andb_false_r|].
    rewrite Z.shiftr_spec by lia. replace (n - 12 + 12) with n by lia.
    destruct (Z.lt_ge_cases n 32); [rewrite Z.ones_spec_low by lia; apply andb_true_r|].
    rewrite Z.ones_spec_high by lia. rewrite andb_false_r. symmetry. apply Z.bits_above_log2; [lia|].
    apply Z.log2_lt_pow2; [lia|]. apply Z.lt_le_trans with two32; [u32_unfold; lia|].
    change two32 with (2 ^ 32). apply Z.pow_le_mono_r; lia. }
  rewrite Hr. set (rounded := _ * 4096).
  assert (lenZ out <= rounded <= lenZ out + 4095 ∧ rounded <= two32 - 4096) as (H1 & H2).
  { unfold rounded. u32_unfold. Z.div_mod_to_equations. lia. }
  destruct (Z.eqb_spec rounded 0); [lia|]. eexists. split; [done|].
  exists (take (Z.to_nat (rounded - lenZ out)) (replicate 4095 0)). simpl.
  split_and!; [|done|rewrite lenZ_take; u32_unfold; lia].
  rewrite take_app, take_ge by (unfold lenZ in *; lia). f_equal. f_equal. unfold lenZ. lia.
Qed.

Section ReaderOk.
Context {F : Type} `{IndexFileOk F} (f : F) (out : bytes) (Hf : contents f out).

Lemma read_blob s b : blob_at out s b → readSectionBlob f s = Ok b.
Proof.
  intros Hb. pose proof (blob_at_bounds _ _ _ Hb) as (Hb0 & Hb1 & Hb2). unfold readSectionBlob.
  rewrite (contents_read f out) by done. destruct Hb as (pre & post & -> & -> & ->).
  unfold lenZ. by rewrite !Nat2Z.id, drop_app_length, take_app_length.
Qed.

(** The file from offset [off] on is [rest]. *)
Definition cursor (off : Z) (rest : bytes) : Prop := ∃ pre, out = pre ++ rest ∧ off = lenZ pre.

Lemma cursor_step off a rest : cursor off (a ++ rest) → cursor (off ⊕ lenZ a) rest.
Proof.
  intros (pre & Hout & ->). exists (pre ++ a). rewrite <- app_assoc. split; [done|]. rewrite lenZ_app.
  destruct (contents_size f out Hf) as [_ Hlen]. rewrite Hout, !lenZ_app in Hlen.
  pose proof (lenZ_nonneg pre). pose proof (lenZ_nonneg a). pose proof (lenZ_nonneg rest).
  apply u32_id. u32_unfold. lia.
Qed.

Lemma r_U32_ok off n rest : is_u32 n → cursor off (PutUint32 n ++ rest) →
  r_U32 f off = Ok (n, off ⊕ 4) ∧ cursor (off ⊕ 4) rest.
Proof.
  intros Hn Hc. split; [|exact (cursor_step _ _ _ Hc)]. destruct Hc as (pre & Hout & ->). unfold r_U32.
  change (if_Read f (lenZ pre) 4) with (readSectionBlob f (Sec (lenZ pre) 4)).
  rewrite (read_blob _ (PutUint32 n)); [|by exists pre, rest]. cbn [mbind res_bind].
  rewrite <- (app_nil_r (PutUint32 n)), Uint32_Put by done. done.
Qed.

Lemma sec_read_ok off s rest :
  is_u32 (s_off s) → is_u32 (s_sz s) → cursor off (enc_sec s ++ rest) →
  ∃ off', sec_read f off = Ok (s, off') ∧ cursor off' rest.
Proof.
  intros Ho Hs Hc. unfold enc_sec in Hc. rewrite <- app_assoc in Hc. unfold sec_read.
  destruct (r_U32_ok _ _ _ Ho Hc) as [-> Hc1]. cbn [mbind res_bind].
  destruct (r_U32_ok _ _ _ Hs Hc1) as [-> Hc2]. cbn [mbind res_bind].
  eexists. split; [|exact Hc2]. by destruct s.
Qed.

Lemma read_words_ok width l fuel :
  (1 <= width)%nat → Forall (λ n, 0 <= n < 2 ^ (8 * Z.of_nat width)) l →
  (length (mjoin (be_split width <$> l)) <= fuel)%nat →
  read_words fuel width (mjoin (be_split width <$> l)) = Ok l.
Proof.
  intros Hw Hl. revert fuel. induction Hl as [|n l Hn Hl IH]; intros fuel Hfuel; [by destruct fuel|].
  rewrite fmap_cons in *.
  change (mjoin (be_split width n :: ?k)) with (be_split width n ++ mjoin k) in *.
  rewrite length_app, length_be_split in Hfuel.
  destruct fuel as [|fuel]; [lia|]. destruct (be_split width n ++ _) as [|c r] eqn:E.
  { apply (f_equal length) in E. rewrite length_app, length_be_split in E. simpl in E. lia. }
  cbn [read_words]. rewrite <- E, be_read_split by done. cbn [mbind res_bind].
  replace (Z.of_nat width) with (lenZ (be_split width n)) by (unfold lenZ; by rewrite length_be_split).
  rewrite slice_from_app. cbn [mbind res_bind]. by rewrite IH by lia.
Qed.

Lemma lenZ_words width l : lenZ (mjoin (be_split width <$> l)) = Z.of_nat width * lenZ l.
Proof.
  induction l as [|n l IH]; [change (0 = Z.of_nat width * 0); lia|]. rewrite fmap_cons.
  change (mjoin (be_split width n :: ?k)) with (be_split width n ++ mjoin k).
  rewrite lenZ_app, lenZ_cons, IH. unfold lenZ at 1. rewrite length_be_split. lia.
Qed.

Lemma readSectionU32_ok s l :
  Forall is_u32 l → blob_at out s (mjoin (PutUint32 <$> l)) → readSectionU32 f s = Ok l.
Proof.
  intros Hl Hb. change (PutUint32 <$> l) with (be_split 4 <$> l) in Hb.
  unfold readSectionU32. pose proof (read_blob _ _ Hb) as Hr. unfold readSectionBlob in Hr.
  destruct Hb as (pre & post & _ & _ & Hs). rewrite Hr, Hs, lenZ_words.
  replace (Z.of_nat 4 * lenZ l) with (lenZ l * 4) by lia. rewrite Z.mod_mul by lia. cbn.
  apply read_words_ok; [lia|done|done].
Qed.
Lemma readSectionU64_ok s l :
  Forall is_u64 l → blob_at out s (mjoin (PutUint64 <$> l)) → readSectionU64 f s = Ok l.
Proof.
  intros Hl Hb. change (PutUint64 <$> l) with (be_split 8 <$> l) in Hb.
  unfold readSectionU64. pose proof (read_blob _ _ Hb) as Hr. unfold readSectionBlob in Hr.
  destruct Hb as (pre & post & _ & _ & Hs). rewrite Hr, Hs, lenZ_words.
  replace (Z.of_nat 8 * lenZ l) with (lenZ l * 8) by lia. rewrite Z.mod_mul by lia. cbn.
  apply read_words_ok; [lia|done|done].
Qed.

(** Sections with offsets that fit, and compound ones with their table. *)
Definition sec_ok (s : simpleSection) : Prop := is_u32 (s_off s) ∧ is_u32 (s_sz s).
Definition comp_ok (s : compoundSection) : Prop :=
  sec_ok (c_data s) ∧ sec_ok (c_index s) ∧ Forall is_u32 (c_offsets s) ∧
  blob_at out (c_index s) (mjoin (PutUint32 <$> c_offsets s)).
Definition section_ok (s : section) : Prop := match s with inl s => sec_ok s | inr s => comp_ok s end.

Lemma blob_at_sec_ok s b : blob_at out s b → sec_ok s.
Proof.
  intros Hb. destruct (contents_size f out Hf) as [_ Hlen].
  pose proof (blob_at_bounds _ _ _ Hb). split; u32_unfold; lia.
Qed.
Lemma comp_at_ok s items : comp_at out s items → comp_ok s.
Proof.
  intros (Hd & Ho & Hi). destruct (contents_size f out Hf) as [_ Hlen].
  split_and!; [by eapply blob_at_sec_ok..| |done]. rewrite Ho. pose proof (blob_at_bounds _ _ _ Hd) as (Hb0 & Hb1 & Hb2).
  assert (s_sz (c_data s) = lenZ (mjoin items)) as Hsz by (by destruct Hd as (? & ? & _ & _ & ?)).
  eapply Forall_impl; [by apply item_offsets_range|]. simpl. intros o Hor. u32_unfold. lia.
Qed.

Lemma simple_read_ok off s rest : sec_ok s → cursor off (enc_section (inl s) ++ rest) →
  ∃ off', sec_read f off = Ok (s, off') ∧ cursor off' rest.
Proof. intros []. by apply sec_read_ok. Qed.

Lemma comp_read_ok off s rest : comp_ok s → cursor off (enc_section (inr s) ++ rest) →
  ∃ off', comp_read f off = Ok (s, off') ∧ cursor off' rest.
Proof.
  intros ([] & [] & Ho & Hi) Hc. cbn [enc_section] in Hc. rewrite <- app_assoc in Hc. unfold comp_read.
  edestruct (sec_read_ok off) as (o1 & -> & Hc1); [| |exact Hc|]; [done..|]. cbn [mbind res_bind].
  edestruct (sec_read_ok o1) as (o2 & -> & Hc2); [| |exact Hc1|]; [done..|]. cbn [mbind res_bind].
  rewrite (readSectionU32_ok _ (c_offsets s)) by done. cbn [mbind res_bind].
  exists o2. split; [|done]. by destruct s.
Qed.

(** The table of contents at the end of a file is read back. *)
Lemma readTOC_ok t body :
  out = body ++ enc_toc t ++ enc_sec (Sec (lenZ body) (lenZ (enc_toc t))) →
  Forall section_ok (sections t) → readTOC f = Ok t.
Proof.
  intros Hout Hsecs. destruct (contents_size f out Hf) as [Hsz Hlen]. unfold readTOC. rewrite Hsz.
  cbn [mbind res_bind]. pose proof (lenZ_nonneg body). pose proof (lenZ_nonneg (enc_toc t)).
  set (tail := enc_sec _) in *. assert (lenZ tail = 8) as Htail by reflexivity.
  pose proof Hout as Hout'. apply (f_equal lenZ) in Hout'. rewrite !lenZ_app in Hout'.
  edestruct (sec_read_ok (lenZ out ⊖ 8) (Sec (lenZ body) (lenZ (enc_toc t))) []) as (o1 & -> & _);
    [simpl; u32_unfold; lia..| |].
  { exists (body ++ enc_toc t). rewrite app_nil_r, <- app_assoc. split; [done|]. rewrite lenZ_app.
    rewrite u32_id by (u32_unfold; lia). lia. }
  cbn [mbind res_bind s_off].
  assert (cursor (lenZ body) (enc_toc t ++ tail)) as Hc by by exists body.
  unfold enc_toc in Hc. rewrite <- app_assoc in Hc.
  destruct (r_U32_ok _ 19 _ ltac:(done) Hc) as [-> Hc1]. cbn [mbind res_bind]. simpl negb. cbv iota.
  unfold sections in Hsecs, Hc1. repeat rewrite Forall_cons in Hsecs. rewrite !fmap_cons in Hc1.
  cbn [mjoin list_join section_ok] in *. rewrite <- !app_assoc in Hc1.
  repeat (let Hs := fresh "Hs" in destruct Hsecs as [Hs Hsecs];
    first [apply (simple_read_ok _ _ _ Hs) in Hc1|apply (comp_read_ok _ _ _ Hs) in Hc1];
    let o := fresh "o" in destruct Hc1 as (o & -> & Hc1); cbn [mbind res_bind]; clear Hs).
  by destruct t.
Qed.
End ReaderOk.

(** ** Properties *)

(** C37: Read of a mapped file, on every offset and size. Within the mapping it
    returns the bytes; past it, an error; but when offset plus size overflows 32
    bits the bounds check sees the wrapped sum, and the slice expression
    panics unless the wrapped sum is itself out of range. *)
Theorem mmap_Read_bounds (f : mmapedIndexFile) (off sz : Z)
    (Hoff : is_u32 off) (Hsz : is_u32 sz) (Hlen : lenZ (mm_data f) < two32) :
  mmap_Read f off sz =
  if off + sz <? two32 then
    if lenZ (mm_data f) <? off + sz then Err "out of bounds"
    else Ok (take (Z.to_nat sz) (drop (Z.to_nat off) (mm_data f)))
  else if lenZ (mm_data f) <? off + sz - two32 then Err "out of bounds"
  else Panic "slice bounds out of range".
Proof.
  unfold mmap_Read. pose proof (lenZ_nonneg (mm_data f)).
  rewrite (u32_id (lenZ _)) by (u32_unfold; lia).
  destruct (Z.ltb_spec (off + sz) two32).
  - rewrite !(u32_id (off + sz)) by (u32_unfold; lia). case_match eqn:E; [done|]. apply Z.ltb_ge in E.
    unfold slice. rewrite decide_True by (u32_unfold; lia). by replace (off + sz - off) with sz by lia.
  - assert (off ⊕ sz = off + sz - two32) as -> by u32_lia. case_match; [done|].
    unfold slice. rewrite decide_False; [done|]. u32_unfold. lia.
Qed.

Lemma mmap_Read_bounds_witness :
  mmap_Read (Mmaped 4 [1; 2; 3; 4]) 1 2 = Ok [2; 3] ∧
  mmap_Read (Mmaped 4 [1; 2; 3; 4]) 3 2 = Err "out of bounds" ∧
  mmap_Read (Mmaped 4 [1; 2; 3; 4]) 4294967295 3 = Panic "slice bounds out of range".
Proof. split_and!; (rewrite mmap_Read_bounds by (vm_compute; done)); reflexivity. Defined.
