(* ===== verification/IndexBuilder.v ===== *)
(** * indexbuilder.go and write.go: building and writing a shard

    [postingsBuilder] collects the positions of every trigram as delta-coded
    lists; [IndexBuilder] keeps one for contents and one for names together with
    the per-document data, and [Write] lays them out as an index file. *)

From stdpp Require Import pretty.
From S2P Require Import Prelude GoStd Bits Api Section.
Import utf8 binary.

(** ** postingsBuilder *)

Definition runeOffsetFrequency : Z := 100.

Record postingsBuilder := MkPostings {
  pb_postings : gmap Z bytes;
  pb_lastOffsets : gmap Z Z;
  pb_runeOffsets : list Z;
  pb_runeCount : Z;
  pb_isPlainASCII : bool;
  pb_endRunes : list Z;
  pb_endByte : Z }.

Definition newPostingsBuilder : postingsBuilder := MkPostings ∅ ∅ [] 0 true [] 0.

(** The variables of the loop of newSearchableString. *)
Record stringLoop := MkLoop {
  sl_pb : postingsBuilder;
  sl_runeGram : rune3;
  sl_runeIndex : Z;
  sl_byteCount : Z;
  sl_byteBounds : list Z;
  sl_runeBounds : list Z }.

(** Move the section boundaries at byte [at_] to the rune boundaries. *)
Fixpoint takeBounds (at_ rune : Z) (byteBounds runeBounds : list Z) : list Z * list Z :=
  match byteBounds with
  | b :: rest => if b =? at_ then takeBounds at_ rune rest (runeBounds ++ [rune]) else (byteBounds, runeBounds)
  | [] => ([], runeBounds)
  end.

Definition addRuneOffset (pb : postingsBuilder) (off : Z) : postingsBuilder :=
  MkPostings (pb_postings pb) (pb_lastOffsets pb) (pb_runeOffsets pb ++ [off]) (pb_runeCount pb)
    (pb_isPlainASCII pb) (pb_endRunes pb) (pb_endByte pb).
Definition clearPlainASCII (pb : postingsBuilder) : postingsBuilder :=
  MkPostings (pb_postings pb) (pb_lastOffsets pb) (pb_runeOffsets pb) (pb_runeCount pb)
    false (pb_endRunes pb) (pb_endByte pb).
(** Append position [newOff] to the posting list of [ng]. *)
Definition addPosting (pb : postingsBuilder) (ng newOff : Z) : postingsBuilder :=
  let lastOff := default 0 (pb_lastOffsets pb !! ng) in
  let enc := PutUvarint (newOff ⊖ lastOff) in
  MkPostings (<[ng := default [] (pb_postings pb !! ng) ++ enc]> (pb_postings pb))
    (<[ng := newOff]> (pb_lastOffsets pb)) (pb_runeOffsets pb) (pb_runeCount pb)
    (pb_isPlainASCII pb) (pb_endRunes pb) (pb_endByte pb).

(** One iteration, for a rune [c] of [sz] bytes; [endRune] is the number of
    runes before the string. *)
Definition string_step (endRune : Z) (st : stringLoop) (d : Z * Z) : stringLoop :=
  let '(c, sz) := d in
  let pb := sl_pb st in
  let pb := if 1 <? sz then clearPlainASCII pb else pb in
  let '(_, g1, g2) := sl_runeGram st in
  let runeGram := (g1, g2, c) in
  let runeIndex := sl_runeIndex st in
  let pb :=
    if (pb_runeCount pb ⊕ runeIndex) mod runeOffsetFrequency =? 0
    then addRuneOffset pb (pb_endByte pb ⊕ u32 (sl_byteCount st)) else pb in
  let '(byteBounds, runeBounds) :=
    takeBounds (u32 (sl_byteCount st)) (endRune ⊕ runeIndex) (sl_byteBounds st) (sl_runeBounds st) in
  let byteCount := sl_byteCount st + sz in
  let pb :=
    if runeIndex <? 2 then pb
    else addPosting pb (runesToNGram runeGram) (endRune ⊕ runeIndex ⊖ 2) in
  MkLoop pb runeGram (runeIndex ⊕ 1) byteCount byteBounds runeBounds.

Fixpoint pairBounds (bounds : list Z) : res (list DocumentSection) :=
  match bounds with
  | [] => Ok []
  | s :: e :: bounds => secs ← pairBounds bounds; Ok (DocSec s e :: secs)
  | [_] => Panic "index out of range"
  end.

(** The new state of the builder, which an error leaves half updated, and the
    sections in runes. *)
Definition newSearchableString (pb : postingsBuilder) (data : bytes) (byteSections : list DocumentSection)
    : postingsBuilder * res (list DocumentSection) :=
  let endRune := pb_runeCount pb in
  let st := foldl (string_step endRune)
              (MkLoop pb (0, 0, 0) 0 0 (sectionInts byteSections) []) (decode_all data) in
  let pb := sl_pb st in
  let pb := MkPostings (pb_postings pb) (pb_lastOffsets pb) (pb_runeOffsets pb)
              (pb_runeCount pb ⊕ sl_runeIndex st) (pb_isPlainASCII pb) (pb_endRunes pb) (pb_endByte pb) in
  let at_ := u32 (sl_byteCount st) in
  let late := match sl_byteBounds st with b :: _ => b <? at_ | [] => false end in
  if late then (pb, Err "no rune for section boundary")
  else
    let '(_, runeBounds) := takeBounds at_ (endRune ⊕ sl_runeIndex st) (sl_byteBounds st) (sl_runeBounds st) in
    match pairBounds runeBounds with
    | Ok runeSecs =>
      (MkPostings (pb_postings pb) (pb_lastOffsets pb) (pb_runeOffsets pb) (pb_runeCount pb)
         (pb_isPlainASCII pb) (pb_endRunes pb ++ [pb_runeCount pb]) (pb_endByte pb ⊕ u32 (lenZ data)),
       Ok runeSecs)
    | other => (pb, other)
    end.

(** ** IndexBuilder *)

Record IndexBuilder := MkBuilder {
  b_contentStrings : list bytes;
  b_nameStrings : list bytes;
  b_docSections : list (list DocumentSection);
  b_runeDocSections : list DocumentSection;
  b_checksums : bytes;
  b_branchMasks : list Z;
  b_subRepos : list Z;
  b_contentPostings : postingsBuilder;
  b_namePostings : postingsBuilder;
  b_repo : Repository;
  b_subRepoIndices : option (gmap bytes Z);
  b_languageMap : gmap bytes Z;
  b_languages : bytes }.

Record Document := MkDocument {
  doc_Name : bytes;
  doc_Content : bytes;
  doc_Branches : list bytes;
  doc_SubRepositoryPath : bytes;
  doc_Language : bytes;
  doc_SkipReason : bytes;
  doc_Symbols : list DocumentSection }.

(** ContentSize: content and name bytes so far. *)
Definition ContentSize (b : IndexBuilder) : Z :=
  pb_endByte (b_contentPostings b) ⊕ pb_endByte (b_namePostings b).

Definition set_postings (b : IndexBuilder) (content name : postingsBuilder) : IndexBuilder :=
  MkBuilder (b_contentStrings b) (b_nameStrings b) (b_docSections b) (b_runeDocSections b) (b_checksums b)
    (b_branchMasks b) (b_subRepos b) content name (b_repo b) (b_subRepoIndices b) (b_languageMap b)
    (b_languages b).

Definition emptyBuilder : IndexBuilder :=
  MkBuilder [] [] [] [] [] [] [] newPostingsBuilder newPostingsBuilder repository0 None ∅ [].

Definition maxTrigramCount : nat := 20000.

(** The loop of CheckText; [cur] is the window of the last three runes. *)
Fixpoint checkText_loop (fuel : nat) (content : bytes) (byteCount : Z) (cur : rune3) (trigrams : gset Z) : res () :=
  match content with
  | [] => Ok ()
  | c :: _ =>
    match fuel with
    | O => OutOfFuel
    | S fuel =>
      if c =? 0 then Err ("binary data at byte offset " +:+ pretty byteCount)
      else
        let '(r, sz) := DecodeRune content in
        content ← slice_from content sz;
        let '(_, c1, c2) := cur in
        let cur := (c1, c2, r) in
        if c1 =? 0 then checkText_loop fuel content (byteCount + sz) cur trigrams
        else
          let trigrams := {[runesToNGram cur]} ∪ trigrams in
          if (maxTrigramCount <? size trigrams)%nat then Err ("number of trigrams exceeds " +:+ pretty maxTrigramCount)
          else checkText_loop fuel content (byteCount + sz) cur trigrams
    end
  end.

Definition CheckText (content : bytes) : res () :=
  if lenZ content =? 0 then Ok ()
  else if lenZ content <? ngramSize then Err ("file size smaller than " +:+ pretty ngramSize)
  else checkText_loop (length content) content 0 (0, 0, 0) ∅.

(** CheckText accepts the contents or gives a reason. *)
Lemma checkText_loop_settled fuel : ∀ content n cur trigrams, (length content <= fuel)%nat → settled (checkText_loop fuel content n cur trigrams).
Proof.
  induction fuel as [|fuel IH]; intros content n [[c0 c1] c2] trigrams Hf; (destruct content as [|c content]; [done|]); [simpl in Hf; lia|].
  cbn [checkText_loop]. destruct (c =? 0); [done|]. destruct (DecodeRune_size (c :: content)) as [Hs Hl]; [done|].
  destruct (DecodeRune (c :: content)) as [r sz]. simpl in Hs, Hl. rewrite slice_from_Ok by lia. cbn [mbind res_bind].
  assert (length (drop (Z.to_nat sz) (c :: content)) <= fuel)%nat by (rewrite length_drop; unfold lenZ in Hl; simpl in *; lia).
  destruct (c1 =? 0); [by apply IH|]. destruct (_ <? _)%nat; [done|by apply IH].
Qed.
Lemma CheckText_settled content : settled (CheckText content).
Proof. unfold CheckText. destruct (_ =? 0); [done|]. destruct (_ <? _); [done|]. by apply checkText_loop_settled. Qed.

Example CheckText_reasons : CheckText (str "ab") = Err "file size smaller than 3" ∧ CheckText [97; 98; 0; 99] = Err "binary data at byte offset 2" ∧ CheckText (str "abc") = Ok ().
Proof. vm_compute. done. Qed.

Section Builder.
Context `{SortAlg}.
(** html/template: whether a template parses. *)
Context (validTemplate : bytes → bool).
(** path/filepath.Rel(base, target). *)
Context (Rel : bytes → bytes → option bytes).

Definition Repository_verify (d : Repository) : res () :=
  if forallb validTemplate [r_FileURLTemplate d; r_LineFragmentTemplate d; r_CommitURLTemplate d]
  then Ok () else Err "template".

(** The sorted keys of the sub-repository map are numbered from 0. *)
Definition populateSubRepoIndices (repo : Repository) (cur : option (gmap bytes Z)) : option (gmap bytes Z) :=
  match cur with
  | Some m => Some m
  | None =>
    let paths := go_sort string_less (fst <$> map_to_list (default ∅ (r_SubRepoMap repo))) in
    Some (list_to_map (imap (λ i p, (p, u32 (Z.of_nat i))) paths))
  end.

(** The loop over SubRepoMap in the source compares branch names and ignores the
    outcome, so it has no effect. The entry at the empty path is the
    repository itself without its map; the source stores it into the map it
    shares with the caller. *)
Definition setRepository (b : IndexBuilder) (desc : Repository) : res IndexBuilder :=
  if (0 <? lenZ (b_contentStrings b)) then Err "AddSubRepository called after adding files."
  else
    _ ← Repository_verify desc;
    if 64 <? lenZ (r_Branches desc) then Err "too many branches."
    else
      let repoCopy := set_SubRepoMap desc None in
      let repo := set_SubRepoMap desc (Some (<[[] := repoCopy]> (default ∅ (r_SubRepoMap desc)))) in
      Ok (MkBuilder (b_contentStrings b) (b_nameStrings b) (b_docSections b) (b_runeDocSections b)
            (b_checksums b) (b_branchMasks b) (b_subRepos b) (b_contentPostings b) (b_namePostings b)
            repo (populateSubRepoIndices repo (b_subRepoIndices b)) (b_languageMap b) (b_languages b)).

Definition NewIndexBuilder (r : option Repository) : res IndexBuilder :=
  setRepository emptyBuilder (default repository0 r).

Fixpoint branchMask_loop (i : Z) (branches : list RepositoryBranch) (br : bytes) : Z :=
  match branches with
  | [] => 0
  | b :: branches =>
    if decide (br_Name b = br) then u64 (Z.shiftl 1 i) else branchMask_loop (i + 1) branches br
  end.
Definition branchMask (b : IndexBuilder) (br : bytes) : Z := branchMask_loop 0 (r_Branches (b_repo b)) br.

Definition notIndexedMarker : bytes := str "NOT-INDEXED: ".

(** The checks on sorted symbol sections: [last] is the previous one. *)
Fixpoint checkSections (first : bool) (last : DocumentSection) (secs : list DocumentSection) : res DocumentSection :=
  match secs with
  | [] => Ok last
  | s :: secs =>
    if negb first && (Start s <? End last) then Err "sections overlap" else checkSections false s secs
  end.

Fixpoint branchMasks (b : IndexBuilder) (brs : list bytes) (mask : Z) : res Z :=
  match brs with
  | [] => Ok mask
  | br :: brs =>
    let m := branchMask b br in
    if m =? 0 then Err "no branch found" else branchMasks b brs (Z.lor mask m)
  end.

(** What Add does to the document first: binary contents and skipped files are
    replaced by a marker. *)
Definition normalizeDoc (doc : Document) : Document :=
  let idx := IndexByte (doc_Content doc) 0 in
  let doc :=
    if 0 <=? idx then
      MkDocument (doc_Name doc) (doc_Content doc) (doc_Branches doc) (doc_SubRepositoryPath doc)
        (str "binary") (str "binary content at byte offset " ++ str (pretty idx)) (doc_Symbols doc)
    else doc in
  let doc :=
    match doc_SkipReason doc with
    | [] => doc
    | reason =>
      MkDocument (doc_Name doc) (notIndexedMarker ++ reason) (doc_Branches doc) (doc_SubRepositoryPath doc)
        (doc_Language doc) reason []
    end in
  MkDocument (doc_Name doc) (doc_Content doc) (doc_Branches doc) (doc_SubRepositoryPath doc)
    (doc_Language doc) (doc_SkipReason doc) (go_sort (λ a c, Start a <? Start c) (doc_Symbols doc)).

(** The checks before anything is changed. *)
Definition checkDoc (doc : Document) : res () :=
  last ← checkSections true (DocSec 0 0) (doc_Symbols doc);
  if u32 (lenZ (doc_Content doc)) <? End last then Err "section goes past end of content"
  else
    match doc_SubRepositoryPath doc with
    | [] => Ok ()
    | path =>
      match Rel path (doc_Name doc) with
      | Some rel => if decide (rel = doc_Name doc) then Err "path must start subrepo path" else Ok ()
      | None => Err "path must start subrepo path"
      end
    end.

(** Add: the state of the builder afterwards, and the outcome. The posting
    lists are extended before the sub-repository and the branches are looked up,
    and the per-document lists before the language table is found to be full: an
    error there leaves them extended. *)
Definition Add (b : IndexBuilder) (doc : Document) : IndexBuilder * res () :=
  let doc := normalizeDoc doc in
  match checkDoc doc with
  | Ok _ =>
    let '(content, rsecs) := newSearchableString (b_contentPostings b) (doc_Content doc) (doc_Symbols doc) in
    let b := set_postings b content (b_namePostings b) in
    match rsecs with
    | Ok runeSecs =>
      let '(name, rname) := newSearchableString (b_namePostings b) (doc_Name doc) [] in
      let b := set_postings b (b_contentPostings b) name in
      match rname with
      | Ok _ =>
        match default ∅ (b_subRepoIndices b) !! doc_SubRepositoryPath doc with
        | None => (b, Err "unknown subrepo path")
        | Some subRepoIdx =>
          match branchMasks b (doc_Branches doc) 0 with
          | Ok mask =>
            let b := MkBuilder (b_contentStrings b ++ [doc_Content doc]) (b_nameStrings b ++ [doc_Name doc])
                       (b_docSections b ++ [doc_Symbols doc]) (b_runeDocSections b ++ runeSecs)
                       (b_checksums b ++ crc64.Sum (doc_Content doc)) (b_branchMasks b ++ [mask])
                       (b_subRepos b ++ [subRepoIdx]) (b_contentPostings b) (b_namePostings b) (b_repo b)
                       (b_subRepoIndices b) (b_languageMap b) (b_languages b) in
            let setLang m l := MkBuilder (b_contentStrings b) (b_nameStrings b) (b_docSections b)
                       (b_runeDocSections b) (b_checksums b) (b_branchMasks b) (b_subRepos b)
                       (b_contentPostings b) (b_namePostings b) (b_repo b) (b_subRepoIndices b) m l in
            match b_languageMap b !! doc_Language doc with
            | Some langCode => (setLang (b_languageMap b) (b_languages b ++ [langCode]), Ok ())
            | None =>
              if (255 <=? Z.of_nat (size (b_languageMap b))) then (b, Err "too many languages")
              else
                let langCode := u8 (Z.of_nat (size (b_languageMap b))) in
                (setLang (<[doc_Language doc := langCode]> (b_languageMap b)) (b_languages b ++ [langCode]), Ok ())
            end
          | Err e => (b, Err e)
          | Panic w => (b, Panic w)
          | OutOfFuel => (b, OutOfFuel)
          end
        end
      | Err e => (b, Err e)
      | Panic w => (b, Panic w)
      | OutOfFuel => (b, OutOfFuel)
      end
    | Err e => (b, Err e)
    | Panic w => (b, Panic w)
    | OutOfFuel => (b, OutOfFuel)
    end
  | Err e => (b, Err e)
  | Panic w => (b, Panic w)
  | OutOfFuel => (b, OutOfFuel)
  end.

Definition AddFile (b : IndexBuilder) (name content : bytes) : IndexBuilder * res () :=
  Add b (MkDocument name content [] [] [] [] []).
End Builder.

(** ** Writing *)

Fixpoint newLines_loop (i : Z) (inp : bytes) : list Z :=
  match inp with
  | [] => []
  | c :: inp => if c =? 10 then u32 i :: newLines_loop (i + 1) inp else newLines_loop (i + 1) inp
  end.
Definition newLinesIndices (inp : bytes) : list Z := newLines_loop 0 inp.

Section Write.
Context `{SortAlg} (sink : bytes → bytes → nat * option string).
(** encoding/json. *)
Context (marshalMetadata : IndexMetadata → option bytes) (marshalRepository : Repository → option bytes).

(** start, write [b], end. *)
Definition writeSimple (w : writer) (b : bytes) : simpleSection * writer :=
  let s := sec_start sec0 w in
  let w := w_Write sink w b in
  (sec_end s w, w).

(** The four sections of a postings builder, in the order they are written. *)
Definition writePostings (w : writer) (pb : postingsBuilder)
    : simpleSection * compoundSection * simpleSection * simpleSection * writer :=
  let keys := go_sort (λ a b, a <? b) (fst <$> map_to_list (pb_postings pb)) in
  let ngramText := sec_start sec0 w in
  let w := foldl (λ w k, w_Write sink w (PutUint64 k)) w keys in
  let ngramText := sec_end ngramText w in
  let '(postings, w) := writeItems sink w ((λ k, default [] (pb_postings pb !! k)) <$> keys) in
  let '(charOffsets, w) := writeSimple w (toSizedDeltas (pb_runeOffsets pb)) in
  let '(endRunes, w) := writeSimple w (toSizedDeltas (pb_endRunes pb)) in
  (ngramText, postings, charOffsets, endRunes, w).

(** Write, at time [now] with the version string [version]: the writer at the
    end, whose output is the file. *)
Definition Write (b : IndexBuilder) (now : Z) (version : bytes) : res writer :=
  let w := MkWriter None [] 0 in
  let '(fileContents, w) := writeItems sink w (b_contentStrings b) in
  let '(newlines, w) := writeItems sink w ((λ s, toSizedDeltas (newLinesIndices s)) <$> b_contentStrings b) in
  let branchMasks := sec_start sec0 w in
  let w := foldl (w_U64 sink) w (b_branchMasks b) in
  let branchMasks := sec_end branchMasks w in
  let '(fileSections, w) := writeItems sink w (marshalDocSections <$> b_docSections b) in
  let '(ngramText, postings, runeOffsets, fileEndRunes, w) := writePostings w (b_contentPostings b) in
  let '(fileNames, w) := writeItems sink w (b_nameStrings b) in
  let '(nameNgramText, namePostings, nameRuneOffsets, nameEndRunes, w) := writePostings w (b_namePostings b) in
  let '(subRepos, w) := writeSimple w (toSizedDeltas (b_subRepos b)) in
  let '(contentChecksums, w) := writeSimple w (b_checksums b) in
  let '(languages, w) := writeSimple w (b_languages b) in
  let '(runeDocSections, w) := writeSimple w (marshalDocSections (b_runeDocSections b)) in
  match marshalMetadata (MkIndexMetadata IndexFormatVersion FeatureVersion now
          (pb_isPlainASCII (b_contentPostings b) && pb_isPlainASCII (b_namePostings b))
          (b_languageMap b) version) with
  | None => Err "json"
  | Some blob =>
    let '(metaData, w) := writeSimple w blob in
    match marshalRepository (b_repo b) with
    | None => Err "json"
    | Some blob =>
      let '(repoMetaData, w) := writeSimple w blob in
      let toc := TOC metaData repoMetaData fileContents fileNames fileSections newlines ngramText postings
                   nameNgramText namePostings branchMasks subRepos runeOffsets nameRuneOffsets fileEndRunes
                   nameEndRunes contentChecksums languages runeDocSections in
      let tocSection := sec_start sec0 w in
      let w := writeTOC sink w toc in
      let tocSection := sec_end tocSection w in
      let w := sec_write sink tocSection w in
      match w_err w with Some e => Err e | None => Ok w end
    end
  end.
End Write.

(** ** What posting lists contain *)

(** The trigrams of a text of runes, with positions counted from [k]. *)
Fixpoint windows (k : Z) (rs : list Z) : list (Z * Z) :=
  match rs with
  | a :: ((b :: c :: _) as t) => (runesToNGram (a, b, c), k) :: windows (k + 1) t
  | _ => []
  end.

Definition positions (ng : Z) (ws : list (Z * Z)) : list Z := snd <$> filter (λ w, fst w = ng) ws.

(** The trigrams of a sequence of texts: positions run on from text to text, and
    no trigram spans two of them. *)
Fixpoint corpus_windows (k : Z) (docs : list bytes) : list (Z * Z) :=
  match docs with
  | [] => []
  | d :: docs => windows k (runes d) ++ corpus_windows (k + RuneCount d) docs
  end.

(** The byte offsets of every hundredth rune. *)
Fixpoint sampled (idx off : Z) (sizes : list Z) : list Z :=
  match sizes with
  | [] => []
  | s :: sizes =>
    if idx mod runeOffsetFrequency =? 0 then off :: sampled (idx + 1) (off + s) sizes
    else sampled (idx + 1) (off + s) sizes
  end.
Definition corpus_sizes (docs : list bytes) : list Z := mjoin ((λ d, snd <$> decode_all d) <$> docs).

Definition sum_runes (docs : list bytes) : Z := foldr (λ d n, RuneCount d + n) 0 docs.
Definition sum_bytes (docs : list bytes) : Z := foldr (λ d n, lenZ d + n) 0 docs.
(** The rune count after each text. *)
Fixpoint end_runes (k : Z) (docs : list bytes) : list Z :=
  match docs with
  | [] => []
  | d :: docs => (k + RuneCount d) :: end_runes (k + RuneCount d) docs
  end.

(** The posting lists of [pb] are those of the trigrams [ws]. *)
Definition postings_of (pb : postingsBuilder) (ws : list (Z * Z)) : Prop :=
  ∀ ng, (pb_postings pb !! ng =
           match positions ng ws with [] => None | l => Some (encodeDeltas 0 l) end) ∧
        pb_lastOffsets pb !! ng = last (positions ng ws).

(** [pb] has indexed [docs]. *)
Record indexed (pb : postingsBuilder) (docs : list bytes) : Prop := {
  ix_postings : postings_of pb (corpus_windows 0 docs);
  ix_runeOffsets : pb_runeOffsets pb = sampled 0 0 (corpus_sizes docs);
  ix_runeCount : pb_runeCount pb = sum_runes docs;
  ix_endRunes : pb_endRunes pb = end_runes 0 docs;
  ix_endByte : pb_endByte pb = sum_bytes docs;
  ix_plain : pb_isPlainASCII pb = forallb (λ s, s <=? 1) (corpus_sizes docs) }.

Lemma positions_app ng ws ws' : positions ng (ws ++ ws') = positions ng ws ++ positions ng ws'.
Proof. unfold positions. by rewrite filter_app, fmap_app. Qed.

Lemma last_default (l : list Z) d : default d (last l) = List.last l d.
Proof.
  induction l as [|x l IH] using rev_ind; [done|]. by rewrite last_snoc, List.last_last.
Qed.

Lemma addPosting_of pb ws ng off :
  postings_of pb ws → postings_of (addPosting pb ng off) (ws ++ [(ng, off)]).
Proof.
  intros HP ng'. specialize (HP ng') as [Hp Hl]. rewrite positions_app. unfold positions at 2 4.
  rewrite filter_cons, filter_nil. cbn [fst addPosting pb_postings pb_lastOffsets].
  destruct (decide (ng = ng')) as [->|Hne].
  - rewrite !lookup_insert_eq, Hp, Hl. cbn [snd fmap list_fmap]. rewrite last_snoc.
    split; [|done]. rewrite last_default.
    destruct (positions ng' ws) as [|x l] eqn:E; [simpl; by rewrite app_nil_r|]. rewrite <- E. cbn [default].
    destruct (positions ng' ws ++ [off]) eqn:E'; [by apply app_nil in E' as []|]. rewrite <- E'.
    f_equal. rewrite encodeDeltas_app. cbn [encodeDeltas]. by rewrite app_nil_r.
  - rewrite !lookup_insert_ne by done. cbn [fmap list_fmap]. by rewrite app_nil_r.
Qed.

Lemma windows_snoc k rs a b c :
  windows k (rs ++ [a; b; c]) = windows k (rs ++ [a; b]) ++ [(runesToNGram (a, b, c), k + lenZ rs)].
Proof.
  revert k. induction rs as [|r rs IH]; intros k; [simpl; do 2 f_equal; by rewrite Z.add_0_r|].
  destruct rs as [|r' rs].
  - simpl. do 3 f_equal.
  - destruct rs as [|r'' rs].
    + specialize (IH (k + 1)). simpl in *. rewrite IH. do 3 f_equal. f_equal. rewrite !lenZ_cons. lia.
    + specialize (IH (k + 1)). simpl in *. f_equal. rewrite IH. f_equal. f_equal. f_equal.
      rewrite !lenZ_cons. lia.
Qed.

Lemma sampled_app idx off a b :
  sampled idx off (a ++ b) = sampled idx off a ++ sampled (idx + lenZ a) (off + foldr Z.add 0 a) b.
Proof.
  revert idx off. induction a as [|s a IH]; intros idx off.
  { cbn [app foldr sampled]. unfold lenZ. simpl. by rewrite !Z.add_0_r. }
  rewrite lenZ_cons. cbn [app sampled foldr]. rewrite IH.
  replace (idx + 1 + lenZ a) with (idx + (1 + lenZ a)) by lia.
  replace (off + s + foldr Z.add 0 a) with (off + (s + foldr Z.add 0 a)) by lia. by case_match.
Qed.

Lemma total_size_app a b : total_size (a ++ b) = total_size a + total_size b.
Proof. induction a as [|d a IH]; [done|]. simpl app. rewrite !total_size_cons, IH. lia. Qed.

(** *** One string *)

Section Loop.
Context (pb0 : postingsBuilder) (ws0 : list (Z * Z)).
Let k := pb_runeCount pb0.
Let e := pb_endByte pb0.

(** After the decoded prefix [pre] of the string. *)
Record loop_inv (pre : list (Z * Z)) (st : stringLoop) : Prop := {
  li_postings : postings_of (sl_pb st) (ws0 ++ windows k (fst <$> pre));
  li_runeOffsets : pb_runeOffsets (sl_pb st) = pb_runeOffsets pb0 ++ sampled k e (snd <$> pre);
  li_runeCount : pb_runeCount (sl_pb st) = k;
  li_endRunes : pb_endRunes (sl_pb st) = pb_endRunes pb0;
  li_endByte : pb_endByte (sl_pb st) = e;
  li_plain : pb_isPlainASCII (sl_pb st) = pb_isPlainASCII pb0 && forallb (λ s, s <=? 1) (snd <$> pre);
  li_runeIndex : sl_runeIndex st = lenZ pre;
  li_byteCount : sl_byteCount st = total_size pre;
  li_gram : ∃ l, let '(g0, g1, g2) := sl_runeGram st in [0; 0; 0] ++ (fst <$> pre) = l ++ [g0; g1; g2] }.

Lemma total_size_sum ds : total_size ds = foldr Z.add 0 (snd <$> ds).
Proof. induction ds as [|d ds IH]; [done|]. rewrite total_size_cons, IH. done. Qed.

Lemma gram_tail (rs l : list Z) g0 g1 g2 :
  [0; 0; 0] ++ rs = l ++ [g0; g1; g2] → (2 <= length rs)%nat → ∃ rs', rs = rs' ++ [g1; g2].
Proof.
  intros Heq Hlen. destruct rs as [|y rs _] using rev_ind; [simpl in Hlen; lia|].
  destruct rs as [|x rs _] using rev_ind; [simpl in Hlen; lia|]. exists rs.
  change (l ++ [g0; g1; g2]) with (l ++ [g0] ++ [g1] ++ [g2]) in Heq. rewrite !app_assoc in Heq.
  apply app_inj_tail in Heq as [Heq ->]. apply app_inj_tail in Heq as [_ ->]. by rewrite <- app_assoc.
Qed.

Lemma string_step_inv pre st c sz :
  loop_inv pre st → 0 <= k → k + lenZ pre + 1 < two32 → 0 <= e → 0 <= total_size pre → e + total_size pre < two32 →
  loop_inv (pre ++ [(c, sz)]) (string_step k st (c, sz)).
Proof.
  intros [Hp Hro Hrc Her Heb Hpl Hri Hbc [l Hg]] Hk Hlen He Hts Hle.
  pose proof (lenZ_nonneg pre) as Hn.
  unfold string_step. destruct (sl_runeGram st) as [[g0 g1] g2].
  set (pb1 := if 1 <? sz then clearPlainASCII (sl_pb st) else sl_pb st).
  assert (pb_runeCount pb1 = k ∧ pb_endByte pb1 = e) as [Hk1 He1] by (unfold pb1; by case_match).
  rewrite Hri, Hbc, Hk1, He1. rewrite !(u32_id (total_size pre)), !(u32_id (k + lenZ pre)), (u32_id (e + _))
    by (u32_unfold; lia).
  set (pb2 := if (k + lenZ pre) mod runeOffsetFrequency =? 0 then addRuneOffset pb1 (e + total_size pre) else pb1).
  destruct (takeBounds _ _ _ _) as [bb rb].
  set (pb3 := if lenZ pre <? 2 then pb2 else _).
  assert (Hfst : fst <$> pre ++ [(c, sz)] = (fst <$> pre) ++ [c]) by by rewrite fmap_app.
  assert (Hsnd : snd <$> pre ++ [(c, sz)] = (snd <$> pre) ++ [sz]) by by rewrite fmap_app.
  split; cbn [sl_pb sl_runeIndex sl_byteCount sl_runeGram].
  - rewrite Hfst. unfold pb3. destruct (Z.ltb_spec (lenZ pre) 2) as [Hlt|Hge].
    + assert (windows k ((fst <$> pre) ++ [c]) = windows k (fst <$> pre)) as ->.
      { unfold lenZ in Hlt. destruct pre as [|? [|]]; simpl in *; [done..|lia]. }
      intros ng. specialize (Hp ng). unfold pb2, pb1. by repeat case_match.
    + destruct (gram_tail (fst <$> pre) l g0 g1 g2 Hg) as [rs Hrs].
      { rewrite length_fmap. unfold lenZ in Hge. lia. }
      rewrite Hrs, <- app_assoc. change ([g1; g2] ++ [c]) with [g1; g2; c]. rewrite windows_snoc, app_assoc.
      rewrite <- Hrs.
      replace (k + lenZ pre ⊖ 2) with (k + lenZ rs).
      * apply addPosting_of. intros ng. specialize (Hp ng). unfold pb2, pb1. by repeat case_match.
      * apply (f_equal lenZ) in Hrs. rewrite lenZ_fmap, lenZ_app, !lenZ_cons, lenZ_nil in Hrs.
        pose proof (lenZ_nonneg rs). rewrite u32_id by (u32_unfold; lia). lia.
  - rewrite Hsnd, sampled_app, app_assoc, lenZ_fmap, <- total_size_sum, <- Hro. cbn [sampled].
    transitivity (pb_runeOffsets pb2); [unfold pb3; by case_match|]. unfold pb2.
    assert (pb_runeOffsets pb1 = pb_runeOffsets (sl_pb st)) as Hr1 by (unfold pb1; by case_match).
    case_match; [simpl; by rewrite Hr1|by rewrite app_nil_r, Hr1].
  - unfold pb3, pb2. repeat case_match; done.
  - unfold pb3, pb2, pb1. by repeat case_match.
  - unfold pb3, pb2. repeat case_match; done.
  - rewrite Hsnd, forallb_app. cbn [forallb]. rewrite andb_true_r, andb_assoc, <- Hpl.
    transitivity (pb_isPlainASCII pb1); [unfold pb3, pb2; by repeat case_match|]. unfold pb1.
    destruct (Z.ltb_spec 1 sz), (Z.leb_spec sz 1); try lia; [by rewrite andb_false_r|by rewrite andb_true_r].
  - rewrite lenZ_app, lenZ_cons, lenZ_nil. apply u32_id. u32_unfold. lia.
  - rewrite total_size_app, total_size_cons. unfold total_size at 3. simpl. lia.
  - exists (l ++ [g0]). rewrite Hfst, (app_assoc [0; 0; 0]), Hg, <- !app_assoc. done.
Qed.

Lemma string_loop_inv ds pre st :
  loop_inv pre st → Forall (λ d, 1 <= snd d <= 4) (pre ++ ds) →
  0 <= k → k + lenZ (pre ++ ds) < two32 → 0 <= e → e + total_size (pre ++ ds) < two32 →
  loop_inv (pre ++ ds) (foldl (string_step k) st ds).
Proof.
  revert pre st. induction ds as [|[c sz] ds IH]; intros pre st Hinv Hsz Hk Hlen He Hts; simpl.
  { by rewrite app_nil_r. }
  replace (pre ++ (c, sz) :: ds) with ((pre ++ [(c, sz)]) ++ ds) in * by (by rewrite <- app_assoc).
  apply Forall_app in Hsz as [Hsz1 Hsz2]. apply Forall_app in Hsz1 as [Hsz1 Hsz3].
  pose proof (total_size_nonneg pre Hsz1) as H1. pose proof (total_size_nonneg _ Hsz2) as H2.
  rewrite !total_size_app in Hts. rewrite !lenZ_app in Hlen. rewrite total_size_cons in Hts. simpl in Hts.
  apply Forall_cons in Hsz3 as [Hd _]. simpl in Hd. pose proof (lenZ_nonneg ds). pose proof (lenZ_nonneg pre).
  rewrite lenZ_cons, lenZ_nil in Hlen.
  apply IH; auto.
  - apply string_step_inv; auto; unfold total_size in *; simpl in *; lia.
  - apply Forall_app; split; [|done]. apply Forall_app; split; [done|]. by constructor.
  - rewrite !lenZ_app, lenZ_cons, lenZ_nil. lia.
  - rewrite !total_size_app, total_size_cons. simpl. unfold total_size in *. simpl in *. lia.
Qed.
End Loop.

(** *** Sections *)

Lemma StronglySorted_filter {A} (R : A → A → Prop) (P : A → Prop) `{∀ x, Decision (P x)} (l : list A) :
  StronglySorted R l → StronglySorted R (filter P l).
Proof.
  induction 1 as [|x l _ IH Hx]; [constructor|]. rewrite filter_cons. case_decide; [|done].
  constructor; [done|]. rewrite Forall_forall in *. intros y [_ Hy]%list_elem_of_filter. auto.
Qed.

Section LoopSections.
Context (pb0 : postingsBuilder) (ws0 : list (Z * Z)) (ds0 : list (Z * Z)) (js0 : list nat).
Let k := pb_runeCount pb0.
(** The byte offset of rune [j] of the string. *)
Let start (j : nat) : Z := total_size (take j ds0).
Context (Hsz : Forall (λ d, 1 <= snd d <= 4) ds0).
Context (Hjs : Forall (λ j, (j <= length ds0)%nat) js0) (Hsorted : StronglySorted (λ a b, (a <= b)%nat) js0).
Context (Hk : 0 <= k) (Hlen : k + lenZ ds0 < two32) (Hbytes : total_size ds0 < two32).

Lemma start_lt i j : (i < j <= length ds0)%nat → start i < start j.
Proof.
  intros Hij. unfold start. replace (take j ds0) with (take i ds0 ++ take (j - i) (drop i ds0)).
  - rewrite total_size_app. destruct (drop i ds0) as [|d l] eqn:E.
    { apply (f_equal length) in E. rewrite length_drop in E. simpl in E. lia. }
    destruct (j - i)%nat eqn:Eji; [lia|]. simpl take. rewrite total_size_cons.
    assert (Forall (λ d, 1 <= snd d <= 4) (d :: l)) as Hdl by (rewrite <- E; by apply Forall_drop).
    apply Forall_cons in Hdl as [Hd Hl]. pose proof (total_size_nonneg _ (Forall_take _ n _ Hl)). lia.
  - rewrite <- (take_drop i (take j ds0)). rewrite take_take, Nat.min_l by lia. f_equal.
    by rewrite <- skipn_firstn_comm.
Qed.

Lemma takeBounds_start n js rb :
  (n <= length ds0)%nat → StronglySorted (λ a b, (a <= b)%nat) js →
  Forall (λ j, (n <= j <= length ds0)%nat) js →
  takeBounds (start n) (k + Z.of_nat n) (start <$> js) rb
  = (start <$> filter (λ j, (n < j)%nat) js, rb ++ ((λ j, k + Z.of_nat j) <$> filter (λ j, j = n) js)).
Proof.
  intros Hn. revert rb. induction js as [|j js IH]; intros rb Hs Hb; [simpl; by rewrite app_nil_r|].
  apply StronglySorted_inv in Hs as [Hs Hj]. apply Forall_cons in Hb as [Hjn Hb].
  rewrite fmap_cons. cbn [takeBounds]. rewrite !filter_cons.
  destruct (decide (j = n)) as [->|Hne].
  - rewrite Z.eqb_refl, IH by done. destruct (decide (n < n)%nat); [lia|].
    by rewrite fmap_cons, <- app_assoc.
  - pose proof (start_lt n j ltac:(lia)). destruct (Z.eqb_spec (start j) (start n)); [lia|].
    destruct (decide (n < j)%nat); [|lia]. rewrite filter_all, filter_none; [by rewrite app_nil_r| |].
    + rewrite Forall_forall in Hj. intros x Hx ->. specialize (Hj n Hx). lia.
    + rewrite Forall_forall in Hj. intros x Hx. specialize (Hj x Hx). lia.
Qed.

(** The boundaries before rune [n] have been translated. *)
Definition bounds_inv (n : nat) (st : stringLoop) : Prop :=
  sl_byteBounds st = start <$> filter (λ j, (n <= j)%nat) js0 ∧
  sl_runeBounds st = (λ j, k + Z.of_nat j) <$> filter (λ j, (j < n)%nat) js0.

Lemma sorted_split n :
  filter (λ j, (j < S n)%nat) js0 = filter (λ j, (j < n)%nat) js0 ++ filter (λ j, j = n) js0.
Proof.
  clear Hjs. induction js0 as [|j js IH]; [done|]. apply StronglySorted_inv in Hsorted as [Hs Hj].
  rewrite Forall_forall in Hj. rewrite !filter_cons, (IH Hs).
  destruct (decide (j < n)%nat); [repeat case_decide; lia || done|].
  rewrite (filter_none (λ j0, (j0 < n)%nat) js); [repeat case_decide; lia || done|].
  intros x Hx. specialize (Hj x Hx). lia.
Qed.

Lemma takeBounds_inv n st :
  bounds_inv n st → (n <= length ds0)%nat →
  takeBounds (start n) (k + Z.of_nat n) (sl_byteBounds st) (sl_runeBounds st)
  = (start <$> filter (λ j, (S n <= j)%nat) js0, (λ j, k + Z.of_nat j) <$> filter (λ j, (j < S n)%nat) js0).
Proof.
  intros [-> ->] Hn. rewrite takeBounds_start; [|done| |].
  - rewrite list_filter_filter, sorted_split, fmap_app. f_equal.
    + f_equal. apply list_filter_iff. intros. lia.
    + f_equal. f_equal. rewrite list_filter_filter. apply list_filter_iff. intros. lia.
  - by apply StronglySorted_filter.
  - rewrite Forall_forall in *. intros x [? Hx]%list_elem_of_filter. specialize (Hjs x Hx). lia.
Qed.

Lemma string_step_bounds n st d :
  bounds_inv n st → (n < length ds0)%nat → sl_runeIndex st = Z.of_nat n → sl_byteCount st = start n →
  bounds_inv (S n) (string_step k st d).
Proof.
  intros Hb Hn Hi Hc. unfold string_step. destruct d as [c sz], (sl_runeGram st) as [[g0 g1] g2].
  rewrite Hi, Hc. pose proof (start_lt n (length ds0) ltac:(lia)) as Hst.
  unfold start in Hst at 2. rewrite take_ge in Hst by done.
  assert (0 <= start n) by (apply total_size_nonneg; by apply Forall_take).
  unfold lenZ in Hlen. rewrite (u32_id (start n)), !(u32_id (k + Z.of_nat n)) by (u32_unfold; lia).
  rewrite (takeBounds_inv n st Hb) by lia. by split.
Qed.
End LoopSections.

(** *** The whole string *)

Lemma corpus_windows_app k docs ds :
  corpus_windows k (docs ++ ds) = corpus_windows k docs ++ corpus_windows (k + sum_runes docs) ds.
Proof.
  revert k. induction docs as [|d docs IH]; intros k; simpl; [by rewrite Z.add_0_r|].
  by rewrite IH, <- app_assoc, Z.add_assoc.
Qed.
Lemma end_runes_app k docs ds : end_runes k (docs ++ ds) = end_runes k docs ++ end_runes (k + sum_runes docs) ds.
Proof.
  revert k. induction docs as [|d docs IH]; intros k; simpl; [by rewrite Z.add_0_r|].
  by rewrite IH, Z.add_assoc.
Qed.
Lemma sum_runes_app docs ds : sum_runes (docs ++ ds) = sum_runes docs + sum_runes ds.
Proof. induction docs as [|d docs IH]; simpl; [done|]. unfold sum_runes in *. simpl. lia. Qed.
Lemma sum_bytes_app docs ds : sum_bytes (docs ++ ds) = sum_bytes docs + sum_bytes ds.
Proof. induction docs as [|d docs IH]; simpl; [done|]. unfold sum_bytes in *. simpl. lia. Qed.
Lemma corpus_sizes_app docs ds : corpus_sizes (docs ++ ds) = corpus_sizes docs ++ corpus_sizes ds.
Proof. unfold corpus_sizes. by rewrite fmap_app, join_app. Qed.
Lemma corpus_sizes_one d : corpus_sizes [d] = snd <$> decode_all d.
Proof. unfold corpus_sizes. simpl. by rewrite app_nil_r. Qed.
Lemma sum_runes_nonneg docs : 0 <= sum_runes docs.
Proof. induction docs as [|d docs IH]; simpl; [done|]. unfold RuneCount. pose proof (lenZ_nonneg (decode_all d)). lia. Qed.
Lemma sum_bytes_nonneg docs : 0 <= sum_bytes docs.
Proof. induction docs as [|d docs IH]; simpl; [done|]. pose proof (lenZ_nonneg d). lia. Qed.
Lemma sum_runes_le_bytes docs : sum_runes docs <= sum_bytes docs.
Proof.
  induction docs as [|d docs IH]; simpl; [done|]. unfold RuneCount. pose proof (decode_count_le d).
  unfold sum_runes, sum_bytes in *. simpl. lia.
Qed.
Lemma corpus_sizes_len docs : lenZ (corpus_sizes docs) = sum_runes docs.
Proof.
  induction docs as [|d docs IH]; [done|]. change (d :: docs) with ([d] ++ docs).
  rewrite corpus_sizes_app, sum_runes_app, lenZ_app, IH, corpus_sizes_one, lenZ_fmap. unfold sum_runes at 2.
  simpl. unfold RuneCount. lia.
Qed.
Lemma sum_runes_one d : sum_runes [d] = RuneCount d.
Proof. apply Z.add_0_r. Qed.
Lemma sum_bytes_one d : sum_bytes [d] = lenZ d.
Proof. apply Z.add_0_r. Qed.
Lemma foldr_add n l : foldr Z.add n l = foldr Z.add 0 l + n.
Proof. induction l as [|x l IH]; simpl; lia. Qed.
Lemma corpus_sizes_sum docs : foldr Z.add 0 (corpus_sizes docs) = sum_bytes docs.
Proof.
  induction docs as [|d docs IH]; [done|]. change (d :: docs) with ([d] ++ docs).
  rewrite corpus_sizes_app, corpus_sizes_one, sum_bytes_app, foldr_app, IH, foldr_add.
  unfold sum_bytes at 2. cbn [foldr]. rewrite <- (total_size_decode d), total_size_sum. lia.
Qed.

(** The loop of newSearchableString over the first [n] runes. *)
Definition string_prefix (n : nat) (pb : postingsBuilder) (data : bytes) (secs : list DocumentSection) : stringLoop :=
  foldl (string_step (pb_runeCount pb)) (MkLoop pb (0, 0, 0) 0 0 (sectionInts secs) []) (take n (decode_all data)).
Definition string_loop (pb : postingsBuilder) (data : bytes) (secs : list DocumentSection) : stringLoop :=
  foldl (string_step (pb_runeCount pb)) (MkLoop pb (0, 0, 0) 0 0 (sectionInts secs) []) (decode_all data).

Lemma total_size_take n data : 0 <= total_size (take n (decode_all data)) <= lenZ data.
Proof.
  pose proof (total_size_decode data) as Ht. rewrite <- (take_drop n (decode_all data)), total_size_app in Ht.
  pose proof (total_size_nonneg _ (Forall_take _ n _ (decode_sizes data))).
  pose proof (total_size_nonneg _ (Forall_drop _ n _ (decode_sizes data))). lia.
Qed.

Lemma string_prefix_inv n pb docs data secs :
  indexed pb docs → sum_bytes docs + lenZ data < two32 →
  loop_inv pb (corpus_windows 0 docs) (take n (decode_all data)) (string_prefix n pb data secs).
Proof.
  intros Hix Hlen. pose proof (decode_count_le data). pose proof (sum_runes_le_bytes docs).
  pose proof (sum_runes_nonneg docs). pose proof (sum_bytes_nonneg docs).
  apply (string_loop_inv _ _ (take n (decode_all data)) []);
    try (rewrite ?(ix_runeCount _ _ Hix), ?(ix_endByte _ _ Hix); simpl app).
  - split; simpl; try done; [rewrite app_nil_r; apply Hix|by rewrite app_nil_r|by rewrite andb_true_r|by exists []].
  - apply Forall_take, decode_sizes.
  - done.
  - rewrite lenZ_take. lia.
  - done.
  - pose proof (total_size_take n data). lia.
Qed.

Lemma string_loop_done pb docs data secs :
  indexed pb docs → sum_bytes docs + lenZ data < two32 →
  loop_inv pb (corpus_windows 0 docs) (decode_all data) (string_loop pb data secs).
Proof.
  intros Hix Hlen. pose proof (string_prefix_inv (length (decode_all data)) pb docs data secs Hix Hlen) as Hp.
  unfold string_prefix in Hp. by rewrite take_ge in Hp by done.
Qed.

Lemma newSearchableString_indexed pb docs data secs pb' rsecs :
  indexed pb docs → sum_bytes docs + lenZ data < two32 →
  newSearchableString pb data secs = (pb', Ok rsecs) → indexed pb' (docs ++ [data]).
Proof.
  intros Hix Hlen Hn. pose proof (string_loop_done pb docs data secs Hix Hlen) as [Hp Hro Hrc Her Heb Hpl Hri _ _].
  unfold newSearchableString in Hn. fold (string_loop pb data secs) in Hn.
  set (st := string_loop pb data secs) in *. case_match; [done|].
  destruct (takeBounds _ _ _ _) as [_b rb]. destruct (pairBounds rb) as [secs'| | |]; try done.
  injection Hn as <- <-. pose proof (decode_count_le data). pose proof (sum_runes_le_bytes docs).
  pose proof (sum_runes_nonneg docs). pose proof (sum_bytes_nonneg docs). pose proof (lenZ_nonneg data).
  rewrite (ix_runeCount _ _ Hix) in *. rewrite (ix_endByte _ _ Hix) in *.
  pose proof (lenZ_nonneg (decode_all data)).
  assert (pb_runeCount (sl_pb st) ⊕ sl_runeIndex st = sum_runes (docs ++ [data])) as Hcount.
  { rewrite Hrc, Hri, sum_runes_app, sum_runes_one. unfold RuneCount. apply u32_id. u32_unfold. lia. }
  split; cbn [pb_postings pb_lastOffsets pb_runeOffsets pb_runeCount pb_endRunes pb_endByte pb_isPlainASCII].
  - rewrite corpus_windows_app. simpl. rewrite app_nil_r. exact Hp.
  - rewrite Hro, corpus_sizes_app, sampled_app, corpus_sizes_len, corpus_sizes_sum, corpus_sizes_one.
    by rewrite (ix_runeOffsets _ _ Hix).
  - done.
  - rewrite Hcount, Her, (ix_endRunes _ _ Hix), end_runes_app, sum_runes_app, sum_runes_one. done.
  - rewrite Heb, sum_bytes_app, sum_bytes_one.
    rewrite (u32_id (lenZ data)), u32_id by (u32_unfold; lia). done.
  - rewrite Hpl, (ix_plain _ _ Hix), corpus_sizes_app, forallb_app, corpus_sizes_one. done.
Qed.

(** Sections between runes [i] and [j] of the string, in bytes and in runes. *)
Definition byte_sections (data : bytes) (ijs : list (nat * nat)) : list DocumentSection :=
  (λ ij, DocSec (total_size (take (fst ij) (decode_all data))) (total_size (take (snd ij) (decode_all data)))) <$> ijs.
Definition rune_sections (base : Z) (ijs : list (nat * nat)) : list DocumentSection :=
  (λ ij, DocSec (base + Z.of_nat (fst ij)) (base + Z.of_nat (snd ij))) <$> ijs.
Definition flat (ijs : list (nat * nat)) : list nat := mjoin ((λ ij, [fst ij; snd ij]) <$> ijs).
Definition sections_in (data : bytes) (ijs : list (nat * nat)) : Prop :=
  StronglySorted (λ a b, (a <= b)%nat) (flat ijs) ∧
  Forall (λ j, (j <= length (decode_all data))%nat) (flat ijs).

Lemma sectionInts_flat data ijs :
  lenZ data < two32 →
  sectionInts (byte_sections data ijs) = (λ j, total_size (take j (decode_all data))) <$> flat ijs.
Proof.
  intros Hlen. induction ijs as [|[i j] ijs IH]; [done|]. unfold flat in *. simpl.
  unfold sectionInts in *. simpl. rewrite IH. clear IH.
  assert (∀ n, u32 (total_size (take n (decode_all data))) = total_size (take n (decode_all data))) as Hu.
  { intros n. apply u32_id. pose proof (total_size_decode data) as Ht.
    rewrite <- (take_drop n (decode_all data)), total_size_app in Ht.
    pose proof (total_size_nonneg _ (Forall_take _ n _ (decode_sizes data))).
    pose proof (total_size_nonneg _ (Forall_drop _ n _ (decode_sizes data))). u32_unfold. lia. }
  by rewrite !Hu.
Qed.

Lemma pairBounds_flat base ijs :
  pairBounds ((λ j, base + Z.of_nat j) <$> flat ijs) = Ok (rune_sections base ijs).
Proof.
  induction ijs as [|[i j] ijs IH]; [done|]. change (flat ((i, j) :: ijs)) with (i :: j :: flat ijs).
  rewrite !fmap_cons. cbn [pairBounds]. by rewrite IH.
Qed.

Lemma string_prefix_bounds n pb docs data ijs :
  indexed pb docs → sum_bytes docs + lenZ data < two32 → sections_in data ijs →
  (n <= length (decode_all data))%nat →
  bounds_inv pb (decode_all data) (flat ijs) n (string_prefix n pb data (byte_sections data ijs)).
Proof.
  intros Hix Hlen [Hs Hle]. pose proof (sum_runes_le_bytes docs). pose proof (sum_runes_nonneg docs).
  pose proof (sum_bytes_nonneg docs). pose proof (decode_count_le data). pose proof (ix_runeCount _ _ Hix) as Hk.
  induction n as [|n IH]; intros Hn.
  - split; simpl.
    + rewrite sectionInts_flat by lia. f_equal. symmetry. apply filter_all. intros; lia.
    + rewrite filter_none; [done|]. intros; lia.
  - destruct (lookup_lt_is_Some_2 (decode_all data) n) as [d Hd]; [lia|].
    pose proof (string_prefix_inv n pb docs data (byte_sections data ijs) Hix Hlen) as Hi.
    unfold string_prefix. rewrite (take_S_r _ _ _ Hd), foldl_app. fold (string_prefix n pb data (byte_sections data ijs)).
    apply string_step_bounds; try done.
    + apply decode_sizes.
    + lia.
    + rewrite Hk. lia.
    + rewrite total_size_decode. lia.
    + apply IH. lia.
    + rewrite (li_runeIndex _ _ _ _ Hi). unfold lenZ. rewrite length_take. lia.
    + apply Hi.
Qed.

Lemma newSearchableString_sections pb docs data ijs :
  indexed pb docs → sum_bytes docs + lenZ data < two32 → sections_in data ijs →
  snd (newSearchableString pb data (byte_sections data ijs)) = Ok (rune_sections (pb_runeCount pb) ijs).
Proof.
  intros Hix Hlen Hin. pose proof (string_prefix_bounds (length (decode_all data)) pb docs data ijs Hix Hlen Hin
    ltac:(lia)) as Hloop. destruct Hin as [Hs Hle].
  unfold string_prefix in Hloop. rewrite take_ge in Hloop by done.
  fold (string_loop pb data (byte_sections data ijs)) in Hloop.
  pose proof (string_loop_done pb docs data (byte_sections data ijs) Hix Hlen) as Hinv.
  unfold newSearchableString. fold (string_loop pb data (byte_sections data ijs)).
  set (st := string_loop pb data _) in *. rewrite (li_byteCount _ _ _ _ Hinv), (li_runeIndex _ _ _ _ Hinv).
  pose proof (sum_runes_le_bytes docs). pose proof (sum_runes_nonneg docs). pose proof (sum_bytes_nonneg docs).
  pose proof (decode_count_le data). pose proof (lenZ_nonneg (decode_all data)). pose proof (ix_runeCount _ _ Hix). pose proof (lenZ_nonneg data).
  set (ds := decode_all data) in *. assert (Hts : total_size ds = total_size (take (length ds) ds)) by by rewrite take_ge.
  rewrite (u32_id (total_size ds)) by (u32_unfold; unfold ds; rewrite ?total_size_decode; lia).
  rewrite (u32_id (pb_runeCount pb + lenZ ds)) by (u32_unfold; lia).
  assert (match sl_byteBounds st with b :: _ => b <? total_size ds | [] => false end = false) as ->.
  { destruct Hloop as [-> _]. destruct (filter _ (flat ijs)) as [|j js] eqn:Ef; [done|]. simpl.
    assert (j ∈ filter (λ j, (length ds <= j)%nat) (flat ijs)) as [Hj _]%list_elem_of_filter by (rewrite Ef; constructor).
    rewrite (take_ge ds j) by done. lia. }
  change (lenZ ds) with (Z.of_nat (length ds)). rewrite Hts.
  rewrite (takeBounds_inv pb ds (flat ijs)); [|apply decode_sizes|done..].
  rewrite (filter_all (λ j, (j < S (length ds))%nat)); [by rewrite pairBounds_flat|].
  intros j Hj. rewrite Forall_forall in Hle. specialize (Hle j Hj). lia.
Qed.

(** ** The builder *)

Section BuilderOk.
Context `{SortAlg} (validTemplate : bytes → bool) (Rel : bytes → bytes → option bytes).

(** [b] holds the documents [docs], which have gone through [normalizeDoc]. *)
Record builder_ok (b : IndexBuilder) (docs : list Document) : Prop := {
  bo_contents : b_contentStrings b = doc_Content <$> docs;
  bo_names : b_nameStrings b = doc_Name <$> docs;
  bo_sections : b_docSections b = doc_Symbols <$> docs;
  bo_checksums : b_checksums b = mjoin (crc64.Sum <$> (doc_Content <$> docs));
  bo_masks : Forall2 (λ d m, branchMasks b (doc_Branches d) 0 = Ok m) docs (b_branchMasks b);
  bo_subRepos : Forall2 (λ d i, default ∅ (b_subRepoIndices b) !! doc_SubRepositoryPath d = Some i)
                  docs (b_subRepos b);
  bo_content : indexed (b_contentPostings b) (doc_Content <$> docs);
  bo_name : indexed (b_namePostings b) (doc_Name <$> docs);
  bo_languages : Forall2 (λ d c, b_languageMap b !! doc_Language d = Some c) docs (b_languages b);
  bo_codes : ∀ l c, b_languageMap b !! l = Some c → 0 <= c < Z.of_nat (size (b_languageMap b));
  bo_inj : ∀ l l' c, b_languageMap b !! l = Some c → b_languageMap b !! l' = Some c → l = l';
  bo_size : Z.of_nat (size (b_languageMap b)) <= 255 }.

Lemma branchMasks_repo b b' brs mask :
  b_repo b = b_repo b' → branchMasks b brs mask = branchMasks b' brs mask.
Proof.
  intros E. revert mask. induction brs as [|br brs IH]; intros mask; simpl; [done|].
  unfold branchMask. rewrite E. case_match; [done|]. apply IH.
Qed.

Lemma indexed_empty : indexed newPostingsBuilder [].
Proof. split; try done. Qed.


Lemma NewIndexBuilder_ok r b : NewIndexBuilder validTemplate r = Ok b → builder_ok b [].
Proof.
  unfold NewIndexBuilder, setRepository. simpl.
  destruct (Repository_verify _ _); try done. simpl. case_match; [done|]. intros [= <-].
  split; simpl; try done; try constructor; try apply indexed_empty.
Qed.

(** A successful Add went through every step. *)
Lemma Add_inv b doc b' :
  Add Rel b doc = (b', Ok ()) →
  ∃ content name runeSecs nsecs subRepoIdx mask langMap code,
    let d := normalizeDoc doc in
    newSearchableString (b_contentPostings b) (doc_Content d) (doc_Symbols d) = (content, Ok runeSecs) ∧
    newSearchableString (b_namePostings b) (doc_Name d) [] = (name, Ok nsecs) ∧
    default ∅ (b_subRepoIndices b) !! doc_SubRepositoryPath d = Some subRepoIdx ∧
    branchMasks b (doc_Branches d) 0 = Ok mask ∧
    (b_languageMap b !! doc_Language d = Some code ∧ langMap = b_languageMap b ∨
     b_languageMap b !! doc_Language d = None ∧ Z.of_nat (size (b_languageMap b)) < 255 ∧
     code = Z.of_nat (size (b_languageMap b)) ∧ langMap = <[doc_Language d := code]> (b_languageMap b)) ∧
    b' = MkBuilder (b_contentStrings b ++ [doc_Content d]) (b_nameStrings b ++ [doc_Name d])
           (b_docSections b ++ [doc_Symbols d]) (b_runeDocSections b ++ runeSecs)
           (b_checksums b ++ crc64.Sum (doc_Content d)) (b_branchMasks b ++ [mask])
           (b_subRepos b ++ [subRepoIdx]) content name (b_repo b) (b_subRepoIndices b) langMap
           (b_languages b ++ [code]).
Proof.
  unfold Add. set (d := normalizeDoc doc). intros Hadd. cbv zeta. clearbody d.
  destruct (checkDoc Rel d); try done.
  destruct (newSearchableString (b_contentPostings b) _ _) as [content [runeSecs| | |]] eqn:Ec; try done.
  simpl in Hadd.
  destruct (newSearchableString (b_namePostings b) _ _) as [name [nsecs| | |]] eqn:En; try done.
  simpl in Hadd. destruct (default ∅ (b_subRepoIndices b) !! _) as [subRepoIdx|] eqn:Es; [|done].
  rewrite (branchMasks_repo _ b) in Hadd by done.
  destruct (branchMasks b (doc_Branches d) 0) as [mask| | |] eqn:Em; try done.
  destruct (b_languageMap b !! doc_Language d) as [code|] eqn:El.
  - apply (f_equal fst) in Hadd. simpl in Hadd. subst b'. exists content, name, runeSecs, nsecs, subRepoIdx, mask, (b_languageMap b), code.
    split_and!; auto.
  - destruct (Z.leb_spec 255 (Z.of_nat (size (b_languageMap b)))) as [|Hlt]; [done|].
    apply (f_equal fst) in Hadd. simpl in Hadd. subst b'. unfold u8. rewrite Z.mod_small by lia.
    eexists content, name, runeSecs, nsecs, subRepoIdx, mask, _, _. split_and!; [done..|right; split_and!; done|done].
Qed.

Lemma Add_ok b docs doc b' :
  builder_ok b docs → Add Rel b doc = (b', Ok ()) →
  sum_bytes (doc_Content <$> docs) + lenZ (doc_Content (normalizeDoc doc)) < two32 →
  sum_bytes (doc_Name <$> docs) + lenZ (doc_Name doc) < two32 →
  builder_ok b' (docs ++ [normalizeDoc doc]).
Proof.
  intros Hb Hadd Hc Hn. apply Add_inv in Hadd
    as (content & name & runeSecs & nsecs & subRepoIdx & mask & langMap & code & Ec & En & Es & Em & Hlang & ->).
  set (d := normalizeDoc doc) in *.
  assert (doc_Name d = doc_Name doc) as Hname by (unfold d, normalizeDoc; by repeat case_match).
  clearbody d.
  assert (Hsub : b_languageMap b ⊆ langMap).
  { destruct Hlang as [[_ ->]|(? & _ & _ & ->)]; [done|]. by apply insert_subseteq. }
  destruct Hb. split; cbn [b_contentStrings b_nameStrings b_docSections b_checksums b_branchMasks b_subRepos
    b_contentPostings b_namePostings b_repo b_subRepoIndices b_languageMap b_languages]; rewrite ?fmap_app.
  - by rewrite bo_contents0.
  - by rewrite bo_names0.
  - by rewrite bo_sections0.
  - rewrite bo_checksums0, ?fmap_app, join_app. by simpl.
  - apply Forall2_app; [|constructor; [rewrite <- Em; by apply branchMasks_repo|constructor]].
    eapply Forall2_impl; [exact bo_masks0|]. simpl. intros ? ? <-. by apply branchMasks_repo.
  - apply Forall2_app; [done|by constructor].
  - eapply newSearchableString_indexed; eauto.
  - simpl. rewrite Hname in *. eapply newSearchableString_indexed; eauto.
  - apply Forall2_app.
    + eapply Forall2_impl; [exact bo_languages0|]. simpl. intros ? ? Hl. by eapply lookup_weaken.
    + constructor; [|constructor]. destruct Hlang as [[? ->]|(_ & _ & _ & ->)]; [done|apply lookup_insert_eq].
  - destruct Hlang as [[_ ->]|(Hnone & _ & Hcode & ->)]; [done|]. rewrite map_size_insert_None by done.
    intros l c. destruct (decide (l = doc_Language d)) as [->|Hne].
    + rewrite lookup_insert_eq. intros [= <-]. lia.
    + rewrite lookup_insert_ne by done. intros Hl. apply bo_codes0 in Hl. lia.
  - destruct Hlang as [[_ ->]|(Hnone & _ & Hcode & ->)]; [done|].
    intros l l' c. destruct (decide (l = doc_Language d)) as [->|Hne], (decide (l' = doc_Language d)) as [->|Hne'];
      rewrite ?lookup_insert_eq, ?lookup_insert_ne by done; try done; [..|by apply bo_inj0].
    + intros [= <-] Hl. apply bo_codes0 in Hl. lia.
    + intros Hl [= <-]. apply bo_codes0 in Hl. lia.
  - destruct Hlang as [[_ ->]|(Hnone & ? & _ & ->)]; [done|]. rewrite map_size_insert_None by done. lia.
Qed.
End BuilderOk.

(** ** Positions are increasing *)

Lemma windows_range k rs : Forall (λ w, k <= snd w ∧ snd w + 2 < k + lenZ rs) (windows k rs).
Proof.
  revert k. induction rs as [|a rs IH]; intros k; [constructor|]. destruct rs as [|b [|c rs]]; [constructor..|].
  change (windows k (a :: b :: c :: rs)) with ((runesToNGram (a, b, c), k) :: windows (k + 1) (b :: c :: rs)).
  pose proof (lenZ_nonneg rs). rewrite !lenZ_cons. constructor; [simpl; lia|].
  eapply Forall_impl; [apply IH|]. cbv beta. rewrite !lenZ_cons. lia.
Qed.

Lemma windows_sorted k rs : StronglySorted (λ v w, snd v < snd w) (windows k rs).
Proof.
  revert k. induction rs as [|a rs IH]; intros k; [constructor|]. destruct rs as [|b [|c rs]]; [constructor..|].
  change (windows k (a :: b :: c :: rs)) with ((runesToNGram (a, b, c), k) :: windows (k + 1) (b :: c :: rs)).
  constructor; [apply IH|]. eapply Forall_impl; [apply windows_range|]. simpl. lia.
Qed.

Lemma corpus_windows_range k docs : Forall (λ w, k <= snd w ∧ snd w + 2 < k + sum_runes docs) (corpus_windows k docs).
Proof.
  revert k. induction docs as [|d docs IH]; intros k; simpl; [constructor|]. apply Forall_app.
  pose proof (sum_runes_nonneg docs). unfold RuneCount. pose proof (lenZ_nonneg (decode_all d)).
  split; (eapply Forall_impl; [apply windows_range || apply IH|]); unfold sum_runes, runes; simpl;
    rewrite ?lenZ_fmap; unfold sum_runes, RuneCount in *; lia.
Qed.

Lemma corpus_windows_sorted k docs : StronglySorted (λ v w, snd v < snd w) (corpus_windows k docs).
Proof.
  revert k. induction docs as [|d docs IH]; intros k; simpl; [constructor|]. apply StronglySorted_app_2.
  - intros v w Hv Hw. pose proof (windows_range k (runes d)) as Hr. rewrite Forall_forall in Hr.
    pose proof (corpus_windows_range (k + RuneCount d) docs) as Hr'. rewrite Forall_forall in Hr'.
    specialize (Hr v Hv). specialize (Hr' w Hw). unfold runes in Hr. rewrite lenZ_fmap in Hr. unfold RuneCount in *. lia.
  - apply windows_sorted.
  - apply IH.
Qed.

Lemma positions_hits ng docs :
  sum_runes docs < two32 →
  StronglySorted Z.lt (positions ng (corpus_windows 0 docs)) ∧
  Forall (λ p, 0 <= p < maxUInt32) (positions ng (corpus_windows 0 docs)).
Proof.
  intros Hs. unfold positions. split.
  - pose proof (StronglySorted_filter _ (λ w, fst w = ng) _ (corpus_windows_sorted 0 docs)) as Hf.
    induction Hf as [|w l _ IH Hw]; [constructor|]. rewrite fmap_cons. constructor; [done|].
    rewrite Forall_fmap. exact Hw.
  - rewrite Forall_fmap. apply Forall_forall. intros w [_ Hw]%list_elem_of_filter.
    pose proof (corpus_windows_range 0 docs) as Hr. rewrite Forall_forall in Hr. specialize (Hr w Hw).
    simpl. u32_unfold. lia.
Qed.

Lemma elem_of_windows k rs ng p :
  (ng, p) ∈ windows k rs ↔ ∃ (j : nat) a b c, rs !! j = Some a ∧ rs !! S j = Some b ∧ rs !! S (S j) = Some c ∧
    ng = runesToNGram (a, b, c) ∧ p = k + Z.of_nat j.
Proof.
  revert k. induction rs as [|x rs IH]; intros k.
  { split; [intros Hin; by apply not_elem_of_nil in Hin|]. by intros (j & a & b & c & Ha & _). }
  destruct rs as [|y [|z rs]].
  1, 2: split; [intros Hin; by apply not_elem_of_nil in Hin|];
        intros (j & a & b & c & _ & _ & Hc & _); apply lookup_lt_Some in Hc; simpl in Hc; lia.
  change (windows k (x :: y :: z :: rs)) with ((runesToNGram (x, y, z), k) :: windows (k + 1) (y :: z :: rs)).
  rewrite elem_of_cons, IH. split.
  - intros [[= -> ->]|(j & a & b & c & Ha & Hb & Hc & -> & ->)].
    + exists 0%nat, x, y, z. split_and!; try done. lia.
    + exists (S j), a, b, c. split_and!; try done. lia.
  - intros ([|j] & a & b & c & Ha & Hb & Hc & -> & ->).
    + left. simpl in *. simplify_eq. by rewrite Z.add_0_r.
    + right. exists j, a, b, c. split_and!; try done. lia.
Qed.

(** [ng] occurs at rune [j] of document [i]. *)
Definition occurs (docs : list bytes) (ng : Z) (i j : nat) : Prop :=
  ∃ d a b c, docs !! i = Some d ∧ runes d !! j = Some a ∧ runes d !! S j = Some b ∧
    runes d !! S (S j) = Some c ∧ ng = runesToNGram (a, b, c).

Lemma elem_of_corpus_windows k docs ng p :
  (ng, p) ∈ corpus_windows k docs ↔ ∃ i j, occurs docs ng i j ∧ p = k + sum_runes (take i docs) + Z.of_nat j.
Proof.
  revert k. induction docs as [|d docs IH]; intros k; simpl.
  { split; [intros Hin; by apply not_elem_of_nil in Hin|]. by intros (i & j & (d & ? & ? & ? & Hd & _) & _). }
  rewrite elem_of_app, elem_of_windows, IH. split.
  - intros [(j & a & b & c & Ha & Hb & Hc & -> & ->)|(i & j & (d' & a & b & c & Hd & ?) & ->)].
    + exists 0%nat, j. split; [by exists d, a, b, c|]. simpl. lia.
    + exists (S i), j. split; [by exists d', a, b, c|]. simpl. unfold sum_runes. simpl. lia.
  - intros ([|i] & j & (d' & a & b & c & Hd & Ha & Hb & Hc & Hng) & ->); simpl in *; simplify_eq.
    + left. exists j, a, b, c. split_and!; try done. lia.
    + right. exists i, j. split; [by exists d', a, b, c|]. unfold sum_runes. simpl. lia.
Qed.

Lemma elem_of_positions ng ws p : p ∈ positions ng ws ↔ (ng, p) ∈ ws.
Proof.
  unfold positions. rewrite list_elem_of_fmap. split.
  - intros ([ng' p'] & -> & [<- Hin]%list_elem_of_filter). done.
  - intros Hin. exists (ng, p). split; [done|]. by apply list_elem_of_filter.
Qed.

(** ** Properties *)

(** Index a sequence of strings without sections. *)
Definition addStrings (docs : list bytes) : postingsBuilder :=
  foldl (λ pb d, fst (newSearchableString pb d [])) newPostingsBuilder docs.

Lemma newSearchableString_plain pb docs data :
  indexed pb docs → sum_bytes docs + lenZ data < two32 →
  indexed (fst (newSearchableString pb data [])) (docs ++ [data]).
Proof.
  intros Hix Hlen. pose proof (newSearchableString_sections pb docs data [] Hix Hlen) as Hs.
  destruct (newSearchableString pb data []) as [pb' r] eqn:E.
  eapply newSearchableString_indexed; [done|done|]. rewrite E. simpl. f_equal.
  rewrite <- Hs by (split; constructor). change (byte_sections data []) with (@nil DocumentSection).
  by rewrite E.
Qed.

Lemma addStrings_indexed docs : sum_bytes docs < two32 → indexed (addStrings docs) docs.
Proof.
  induction docs as [|d docs IH] using rev_ind; intros Hlen; [apply indexed_empty|].
  rewrite sum_bytes_app, sum_bytes_one in Hlen. pose proof (lenZ_nonneg d).
  unfold addStrings. rewrite foldl_app. apply newSearchableString_plain; [apply IH; lia|done].
Qed.

(** C13: the inverted index is exact. After indexing a sequence of texts, the
    posting list of a trigram decodes to the increasing list of all positions where
    it occurs inside one text, counted in runes over the concatenation, and a
    trigram that does not occur has no list. *)
Theorem postings_exact (docs : list bytes) (ng : ngram) (Hlen : sum_bytes docs < two32) :
  ∃ l, match pb_postings (addStrings docs) !! ng with
       | Some blob => fromDeltas blob = Ok l
       | None => l = []
       end ∧ StronglySorted Z.lt l ∧
       ∀ p, p ∈ l ↔ ∃ i j, occurs docs ng i j ∧ p = sum_runes (take i docs) + Z.of_nat j.
Proof.
  pose proof (addStrings_indexed docs Hlen) as Hix. pose proof (sum_runes_le_bytes docs).
  destruct (positions_hits ng docs) as [Hsorted Hrange]; [lia|].
  exists (positions ng (corpus_windows 0 docs)). split_and!; [|done|].
  - destruct (ix_postings _ _ Hix ng) as [-> _]. destruct (positions ng _) as [|p l] eqn:E; [done|].
    rewrite <- E in *. apply fromDeltas_encode. eapply Forall_impl; [exact Hrange|].
    intros x Hx. u32_unfold. lia.
  - intros p. rewrite elem_of_positions, elem_of_corpus_windows. done.
Qed.

(** Symbol sections translate from bytes to runes. Sections in order whose
    boundaries fall between runes become the sections between the same runes,
    counted over the concatenation of the contents. *)
Theorem sections_translated (docs : list bytes) (data : bytes) (ijs : list (nat * nat))
    (Hlen : sum_bytes (docs ++ [data]) < two32) (Hin : sections_in data ijs) :
  snd (newSearchableString (addStrings docs) data (byte_sections data ijs))
  = Ok (rune_sections (sum_runes docs) ijs).
Proof.
  rewrite sum_bytes_app, sum_bytes_one in Hlen. pose proof (lenZ_nonneg data).
  pose proof (addStrings_indexed docs ltac:(lia)) as Hix.
  rewrite (newSearchableString_sections _ docs) by done. by rewrite (ix_runeCount _ _ Hix).
Qed.

(** The builders that successful calls of Add can produce. *)
Inductive builds `{SortAlg} (validTemplate : bytes → bool) (Rel : bytes → bytes → option bytes)
    : IndexBuilder → list Document → Prop :=
| builds_new r b : NewIndexBuilder validTemplate r = Ok b → builds validTemplate Rel b []
| builds_add b docs doc b' :
    builds validTemplate Rel b docs → Add Rel b doc = (b', Ok ()) →
    builds validTemplate Rel b' (docs ++ [normalizeDoc doc]).

Lemma builds_ok `{SortAlg} validTemplate Rel b docs :
  builds validTemplate Rel b docs →
  sum_bytes (doc_Content <$> docs) < two32 → sum_bytes (doc_Name <$> docs) < two32 → builder_ok b docs.
Proof.
  induction 1 as [r b Hb|b docs doc b' Hb IH Hadd]; intros Hc Hn; [by eapply NewIndexBuilder_ok|].
  rewrite !fmap_app, sum_bytes_app in Hc, Hn. cbn [fmap list_fmap] in Hc, Hn. rewrite sum_bytes_one in Hc, Hn.
  pose proof (lenZ_nonneg (doc_Content (normalizeDoc doc))). pose proof (lenZ_nonneg (doc_Name (normalizeDoc doc))).
  assert (doc_Name (normalizeDoc doc) = doc_Name doc) as Hname by (unfold normalizeDoc; by repeat case_match).
  eapply Add_ok; [apply IH; lia|done|lia|rewrite <- Hname; lia].
Qed.

(** C12: the builder stays consistent. In every builder reached by successful
    calls of Add, the per-document lists all describe the documents added, in order;
    both inverted indexes cover exactly those documents; and language codes are
    distinct bytes that name the documents' languages. *)
Theorem builder_invariant `{SortAlg} (validTemplate : bytes → bool) (Rel : bytes → bytes → option bytes)
    (b : IndexBuilder) (docs : list Document) (Hb : builds validTemplate Rel b docs)
    (Hc : sum_bytes (doc_Content <$> docs) < two32) (Hn : sum_bytes (doc_Name <$> docs) < two32) :
  builder_ok b docs.
Proof. by eapply builds_ok. Qed.

(** Add does not check that a section's start is before its end. With two
    such sections the translation to runes ends on an odd number of boundaries and
    Add panics instead of returning an error. *)
Theorem Add_section_panic `{SortAlg} (validTemplate : bytes → bool) (Rel : bytes → bytes → option bytes)
    (r : option Repository) (b : IndexBuilder) (Hb : NewIndexBuilder validTemplate r = Ok b) :
  snd (Add Rel b (MkDocument (str "f") (str "abcdefg") [] [] [] [] [DocSec 0 10; DocSec 10 5]))
  = Panic "index out of range".
Proof.
  assert (b_contentPostings b = newPostingsBuilder) as Hpb.
  { revert Hb. unfold NewIndexBuilder, setRepository. simpl. destruct (Repository_verify _ _); try done.
    simpl. case_match; [done|]. by intros [= <-]. }
  unfold Add. set (d := normalizeDoc _).
  assert (doc_Content d = str "abcdefg" ∧ doc_SubRepositoryPath d = []) as [Hcont Hpath] by done.
  assert (doc_Symbols d = [DocSec 0 10; DocSec 10 5]) as Hsym.
  { change (doc_Symbols d) with (go_sort (λ a c, Start a <? Start c) [DocSec 0 10; DocSec 10 5]).
    pose proof (go_sort_perm (λ a c, Start a <? Start c) [DocSec 0 10; DocSec 10 5]) as Hperm.
    pose proof (go_sort_sorted (λ a c, Start a <? Start c) [DocSec 0 10; DocSec 10 5] (weak_order_key Start)) as Hs.
    symmetry in Hperm. apply Permutation_length_2_inv in Hperm as [->|Hp]; [done|].
    rewrite Hp in Hs. apply Sorted_inv in Hs as [_ Hs]. apply HdRel_inv in Hs. done. }
  unfold checkDoc. rewrite Hsym, Hcont, Hpath, Hpb. reflexivity.
Qed.

(** Witnesses. *)

Lemma postings_exact_witness :
  ∃ l, match pb_postings (addStrings [str "abcabc"; str "xabc"]) !! runesToNGram (97, 98, 99) with
       | Some blob => fromDeltas blob = Ok l
       | None => l = []
       end ∧ StronglySorted Z.lt l ∧
       ∀ p, p ∈ l ↔ ∃ i j, occurs [str "abcabc"; str "xabc"] (runesToNGram (97, 98, 99)) i j ∧
                     p = sum_runes (take i [str "abcabc"; str "xabc"]) + Z.of_nat j.
Proof. apply postings_exact. vm_compute. reflexivity. Defined.

Lemma sections_translated_witness :
  snd (newSearchableString (addStrings [str "abc"]) [206; 177; 98; 99] [DocSec 0 2; DocSec 3 4])
  = Ok [DocSec 3 4; DocSec 5 6].
Proof.
  apply (sections_translated [str "abc"] [206; 177; 98; 99] [(0, 1); (2, 3)]%nat); [vm_compute; reflexivity|].
  split; vm_compute; repeat constructor.
Defined.

Lemma builder_invariant_witness :
  ∃ b docs, length docs = 2%nat ∧ builder_ok b docs.
Proof.
  pose (H := merge_sort_alg).
  pose (b0 := match NewIndexBuilder (λ _, true) None with Ok b => b | _ => emptyBuilder end).
  pose (d1 := MkDocument (str "f1") (str "package a") [] [] (str "go") [] [DocSec 8 9]).
  pose (d2 := MkDocument (str "f2") [1; 0; 2] [] [] [] [] []).
  pose (b1 := fst (Add (λ _ _, None) b0 d1)). pose (b2 := fst (Add (λ _ _, None) b1 d2)).
  exists b2, (([] ++ [normalizeDoc d1]) ++ [normalizeDoc d2]). split; [reflexivity|].
  assert (NewIndexBuilder (λ _, true) None = Ok b0) as H0 by reflexivity.
  assert (snd (Add (λ _ _, None) b0 d1) = Ok ()) as H1 by (vm_compute; reflexivity).
  assert (snd (Add (λ _ _, None) b1 d2) = Ok ()) as H2 by (vm_compute; reflexivity).
  apply (builder_invariant (λ _, true) (λ _ _, None)).
  - eapply builds_add; [eapply builds_add; [by apply (builds_new _ _ None)|]|].
    + rewrite <- H1. apply surjective_pairing.
    + rewrite <- H2. apply surjective_pairing.
  - vm_compute. reflexivity.
  - vm_compute. reflexivity.
Defined.

Lemma Add_section_panic_witness :
  match @NewIndexBuilder merge_sort_alg (λ _, true) None with
  | Ok b => snd (@Add merge_sort_alg (λ _ _, None) b
              (MkDocument (str "f") (str "abcdefg") [] [] [] [] [DocSec 0 10; DocSec 10 5]))
            = Panic "index out of range"
  | _ => False
  end.
Proof.
  destruct (@NewIndexBuilder merge_sort_alg (λ _, true) None) as [b| | |] eqn:E; [|by vm_compute in E..].
  by apply (@Add_section_panic merge_sort_alg (λ _, true) (λ _ _, None) None b).
Defined.
