(* ===== verification/IndexData.v ===== *)
(** * indexdata.go, read.go and the index part of hititer.go: a loaded shard

    [indexData] is a shard in memory: [NewSearcher] reads it from an index file,
    and the functions here give access to documents and turn a substring into
    an iterator over candidate matches. *)

From S2P Require Import Prelude GoStd Bits Api HitIter MatchIter Query Section IndexBuilder.
Import utf8 binary.

(** ** Data

    [d_fileNameSpare] is what follows fileNameContent in its backing array. *)

Record indexData (F : Type) := MkIndexData {
  d_file : F;
  d_ngrams : gmap Z simpleSection;
  d_newlinesStart : Z;
  d_newlinesIndex : list Z;
  d_docSectionsStart : Z;
  d_docSectionsIndex : list Z;
  d_runeDocSections : list DocumentSection;
  d_runeOffsets : list Z;
  d_boundariesStart : Z;
  d_boundaries : list Z;
  d_fileEndRunes : list Z;
  d_fileNameContent : bytes;
  d_fileNameSpare : bytes;
  d_fileNameIndex : list Z;
  d_fileNameNgrams : gmap Z (list Z);
  d_fileNameRuneOffsets : list Z;
  d_fileNameEndRunes : list Z;
  d_fileBranchMasks : list Z;
  d_branchNames : gmap Z bytes;
  d_branchIDs : gmap bytes Z;
  d_metaData : IndexMetadata;
  d_repoMetaData : Repository;
  d_subRepos : list Z;
  d_subRepoPaths : list bytes;
  d_checksums : bytes;
  d_languages : bytes;
  d_languageMap : gmap Z bytes }.
Arguments d_file {F} _.
Arguments d_ngrams {F} _.
Arguments d_newlinesStart {F} _.
Arguments d_newlinesIndex {F} _.
Arguments d_docSectionsStart {F} _.
Arguments d_docSectionsIndex {F} _.
Arguments d_runeDocSections {F} _.
Arguments d_runeOffsets {F} _.
Arguments d_boundariesStart {F} _.
Arguments d_boundaries {F} _.
Arguments d_fileEndRunes {F} _.
Arguments d_fileNameContent {F} _.
Arguments d_fileNameSpare {F} _.
Arguments d_fileNameIndex {F} _.
Arguments d_fileNameNgrams {F} _.
Arguments d_fileNameRuneOffsets {F} _.
Arguments d_fileNameEndRunes {F} _.
Arguments d_fileBranchMasks {F} _.
Arguments d_branchNames {F} _.
Arguments d_branchIDs {F} _.
Arguments d_metaData {F} _.
Arguments d_repoMetaData {F} _.
Arguments d_subRepos {F} _.
Arguments d_subRepoPaths {F} _.
Arguments d_checksums {F} _.
Arguments d_languages {F} _.
Arguments d_languageMap {F} _.

Section IndexData.
Context {F : Type} `{IndexFile F}.

(** ** Access to documents *)

Definition getChecksum (d : indexData F) (idx : Z) : res bytes :=
  let start := u32 (8 * idx) in slice (d_checksums d) start (start ⊕ 8).

Definition fileName (d : indexData F) (i : Z) : res bytes :=
  a ← index (d_fileNameIndex d) i;
  b ← index (d_fileNameIndex d) (i ⊕ 1);
  slice (d_fileNameContent d) a b.

(** The section between entries [i] and [i+1] of a table of boundaries. *)
Definition itemSection (start : Z) (bounds : list Z) (i : Z) : res simpleSection :=
  a ← index bounds i;
  b ← index bounds (i ⊕ 1);
  Ok (Sec (start ⊕ a) (b ⊖ a)).

Definition readContents (d : indexData F) (i : Z) : res bytes :=
  sec ← itemSection (d_boundariesStart d) (d_boundaries d) i;
  readSectionBlob (d_file d) sec.

Definition readContentSlice (d : indexData F) (off sz : Z) : res bytes :=
  readSectionBlob (d_file d) (Sec (d_boundariesStart d ⊕ off) sz).

(** The newlines and the number of bytes read for them. *)
Definition readNewlines (d : indexData F) (i : Z) : res (list Z * Z) :=
  sec ← itemSection (d_newlinesStart d) (d_newlinesIndex d) i;
  blob ← readSectionBlob (d_file d) sec;
  newlines ← fromSizedDeltas blob;
  Ok (newlines, s_sz sec).

Definition readDocSections (d : indexData F) (i : Z) : res (list DocumentSection * Z) :=
  sec ← itemSection (d_docSectionsStart d) (d_docSectionsIndex d) i;
  blob ← readSectionBlob (d_file d) sec;
  secs ← unmarshalDocSections blob;
  Ok (secs, s_sz sec).

(** ** Statistics *)

Definition memoryUse (d : indexData F) : Z :=
  foldl (λ sz (a : list Z), sz + 4 * lenZ a) 0
    [d_newlinesIndex d; d_docSectionsIndex d; d_boundaries d; d_fileNameIndex d; d_runeOffsets d;
     d_fileNameRuneOffsets d; d_fileEndRunes d; d_fileNameEndRunes d]
  + 8 * lenZ (d_runeDocSections d) + 8 * lenZ (d_fileBranchMasks d) + 12 * Z.of_nat (size (d_ngrams d))
  + foldr (λ kv sz, 4 * lenZ (snd kv) + 4 + sz) 0 (map_to_list (d_fileNameNgrams d)).

Definition calculateStats (d : indexData F) : RepoListEntry :=
  let end_of (l : list Z) (dflt : Z) := match l with [] => dflt | _ => List.last l 0 end in
  let last := end_of (d_boundaries d) 0 in
  let lastFN := end_of (d_fileNameIndex d) last in
  MkRepoListEntry (d_repoMetaData d) (d_metaData d)
    (MkRepoStats 0 0 (lenZ (d_newlinesIndex d) - 1) (memoryUse d) (last + lastFN)).

(** ** Loading *)

Definition verify (d : indexData F) : res () :=
  let n := lenZ (d_fileNameIndex d) in
  if n =? 0 then Ok ()
  else
    if forallb (λ got, got =? n - 1)
         [lenZ (d_boundaries d) - 1; lenZ (d_fileBranchMasks d); lenZ (d_docSectionsIndex d) - 1;
          lenZ (d_newlinesIndex d) - 1]
    then Ok () else Err "count mismatch".

(** The trigrams of a section of eight-byte words, in order. *)
Definition readNgramText (text : bytes) : res (list Z) := read_words (length text) 8 text.

(** The posting list of the [j]th trigram lies between entries [j] and [j+1]. *)
Fixpoint readNgrams (start : Z) (postingsIndex : list Z) (j : Z) (ngs : list Z) (m : gmap Z simpleSection)
    : res (gmap Z simpleSection) :=
  match ngs with
  | [] => Ok m
  | ng :: ngs =>
    a ← index postingsIndex j;
    b ← index postingsIndex (j + 1);
    readNgrams start postingsIndex (j + 1) ngs (<[ng := Sec (start ⊕ a) (b ⊖ a)]> m)
  end.

Fixpoint readNameNgrams (data : bytes) (postingsIndex : list Z) (j : Z) (ngs : list Z) (m : gmap Z (list Z))
    : res (gmap Z (list Z)) :=
  match ngs with
  | [] => Ok m
  | ng :: ngs =>
    off ← index postingsIndex j;
    end_ ← index postingsIndex (j + 1);
    blob ← slice data off end_;
    ps ← fromDeltas blob;
    readNameNgrams data postingsIndex (j + 1) ngs (<[ng := ps]> m)
  end.

(** Branch [j] has the mask 2^j. *)
Definition branchTable (branches : list RepositoryBranch) : list (bytes * Z) :=
  imap (λ j br, (br_Name br, u64 (Z.shiftl 1 (Z.of_nat j)))) branches.

(** The five tables are read in a loop over a map keyed by their sections: of
    two entries with the same section only the later one of the literal is in the
    map. *)
Fixpoint readSized (f : F) (sects : list simpleSection) : res (list (list Z)) :=
  match sects with
  | [] => Ok []
  | sect :: sects =>
    rest ← readSized f sects;
    if bool_decide (sect ∈ sects) then Ok ([] :: rest)
    else blob ← readSectionBlob f sect; l ← fromSizedDeltas blob; Ok (l :: rest)
  end.
End IndexData.

Section Load.
Context {F : Type} `{IndexFile F} `{SortAlg}.
(** encoding/json. *)
Context (unmarshalMetadata : bytes → option IndexMetadata) (unmarshalRepository : bytes → option Repository).

Definition from_json {A} (o : option A) : res A := match o with Some a => Ok a | None => Err "json" end.

Definition readIndexData (f : F) (toc : indexTOC) : res (indexData F) :=
  blob ← readSectionBlob f (t_metaData toc);
  metaData ← from_json (unmarshalMetadata blob);
  if negb (md_IndexFormatVersion metaData =? IndexFormatVersion) then Err "format version"
  else
    blob ← readSectionBlob f (t_repoMetaData toc);
    repoMetaData ← from_json (unmarshalRepository blob);
    checksums ← readSectionBlob f (t_contentChecksums toc);
    languages ← readSectionBlob f (t_languages toc);
    textContent ← readSectionBlob f (t_ngramText toc);
    ngs ← readNgramText textContent;
    ngrams ← readNgrams (s_off (c_data (t_postings toc))) (relativeIndex (t_postings toc)) 0 ngs ∅;
    fileBranchMasks ← readSectionU64 f (t_branchMasks toc);
    fileNameContent ← readSectionBlob f (c_data (t_fileNames toc));
    nameNgramText ← readSectionBlob f (t_nameNgramText toc);
    fileNamePostingsData ← readSectionBlob f (c_data (t_namePostings toc));
    nameNgs ← readNgramText nameNgramText;
    fileNameNgrams ← readNameNgrams fileNamePostingsData (relativeIndex (t_namePostings toc)) 0 nameNgs ∅;
    blob ← readSectionBlob f (t_runeDocSections toc);
    runeDocSections ← unmarshalDocSections blob;
    tables ← readSized f [t_subRepos toc; t_runeOffsets toc; t_nameRuneOffsets toc; t_nameEndRunes toc;
                          t_fileEndRunes toc];
    let table n := nth n tables [] in
    let branches := branchTable (r_Branches repoMetaData) in
    let d := MkIndexData F f ngrams (s_off (c_data (t_newlines toc))) (relativeIndex (t_newlines toc))
      (s_off (c_data (t_fileSections toc))) (relativeIndex (t_fileSections toc)) runeDocSections (table 1%nat)
      (s_off (c_data (t_fileContents toc))) (relativeIndex (t_fileContents toc)) (table 4%nat)
      fileNameContent (if_Spare f (s_off (c_data (t_fileNames toc))) (s_sz (c_data (t_fileNames toc))))
      (relativeIndex (t_fileNames toc)) fileNameNgrams (table 2%nat) (table 3%nat)
      fileBranchMasks (list_to_map (reverse ((λ b, (snd b, fst b)) <$> branches)))
      (list_to_map (reverse branches)) metaData repoMetaData (table 0%nat)
      (go_sort string_less (fst <$> map_to_list (default ∅ (r_SubRepoMap repoMetaData))))
      checksums languages
      (list_to_map ((λ kv, (snd kv, fst kv)) <$> map_to_list (md_LanguageMap metaData))) in
    _ ← verify d;
    Ok d.

Definition NewSearcher (f : F) : res (indexData F) :=
  toc ← readTOC f;
  readIndexData f toc.

Definition ReadMetadata (f : F) : res (Repository * IndexMetadata) :=
  toc ← readTOC f;
  blob ← readSectionBlob f (t_metaData toc);
  md ← from_json (unmarshalMetadata blob);
  blob ← readSectionBlob f (t_repoMetaData toc);
  repo ← from_json (unmarshalRepository blob);
  Ok (repo, md).
End Load.

(** ** From a substring to an iterator *)

(** The position of the first, and of the last, minimum. *)
Fixpoint minarg_loop (le : Z → Z → bool) (i m j : Z) (xs : list Z) : Z :=
  match xs with
  | [] => u32 j
  | x :: xs => if le x m then minarg_loop le (i + 1) x i xs else minarg_loop le (i + 1) m j xs
  end.
Definition firstMinarg (xs : list Z) : Z := minarg_loop Z.ltb 0 maxUInt32 (lenZ xs) xs.
Definition lastMinarg (xs : list Z) : Z := minarg_loop Z.leb 0 maxUInt32 (lenZ xs) xs.

(** ngramIterationResults: the matchIterator underneath, and what it stamps on
    the candidates. *)
Record ngramIterationResults := NgramResults {
  ni_iter : noMatchTree + ngramDocIterator hitIterator;
  ni_caseSensitive : bool;
  ni_fileName : bool;
  ni_substrBytes : bytes;
  ni_substrLowered : bytes }.

Definition set_ni_iter (r : ngramIterationResults) (it : noMatchTree + ngramDocIterator hitIterator)
    : ngramIterationResults :=
  NgramResults it (ni_caseSensitive r) (ni_fileName r) (ni_substrBytes r) (ni_substrLowered r).

#[global] Instance sum_match_iter {I J} `{MatchIterator I, MatchIterator J} : MatchIterator (I + J) := {|
  mi_nextDoc i := match i with
    | inl i => '(d, i) ← mi_nextDoc i; Ok (d, inl i)
    | inr i => '(d, i) ← mi_nextDoc i; Ok (d, inr i)
    end;
  mi_prepare i doc := match i with
    | inl i => inl <$> mi_prepare i doc
    | inr i => inr <$> mi_prepare i doc
    end;
  mi_candidates i := match i with
    | inl i => '(cs, i) ← mi_candidates i; Ok (cs, inl i)
    | inr i => '(cs, i) ← mi_candidates i; Ok (cs, inr i)
    end;
  mi_updateStats i s := match i with inl i => mi_updateStats i s | inr i => mi_updateStats i s end |}.

Definition stamp (r : ngramIterationResults) (c : candidateMatch) : candidateMatch :=
  CandidateMatch (ni_caseSensitive r) (ni_fileName r) (ni_substrBytes r) (ni_substrLowered r)
    (cm_file c) (cm_runeOffset c) (cm_byteOffset c) (cm_byteMatchSz c).

Definition ngramResults_candidates (r : ngramIterationResults)
    : res (list candidateMatch * ngramIterationResults) :=
  '(cs, it) ← mi_candidates (ni_iter r);
  Ok (map (stamp r) cs, set_ni_iter r it).

#[global] Instance ngram_results_iter : MatchIterator ngramIterationResults := {|
  mi_nextDoc r := '(d, it) ← mi_nextDoc (ni_iter r); Ok (d, set_ni_iter r it);
  mi_prepare r doc := set_ni_iter r <$> mi_prepare (ni_iter r) doc;
  mi_candidates := ngramResults_candidates;
  mi_updateStats r s := mi_updateStats (ni_iter r) s |}.

Section Iterate.
Context {F : Type} `{IndexFile F} `{UnicodeCase}.

Definition ngramFrequency (d : indexData F) (ng : ngram) (filename : bool) : Z :=
  if filename then u32 (lenZ (default [] (d_fileNameNgrams d !! ng)))
  else s_sz (default sec0 (d_ngrams d !! ng)).

(** The iterators over the posting lists of the variants that have one. *)
Fixpoint variantIters (d : indexData F) (fileName : bool) (variants : list ngram) : res (list postingIterator) :=
  match variants with
  | [] => Ok []
  | v :: variants =>
    if fileName then
      let postings := default [] (d_fileNameNgrams d !! v) in
      rest ← variantIters d fileName variants;
      Ok (if 0 <? lenZ postings then inl (InMemory postings v) :: rest else rest)
    else
      blob ← readSectionBlob (d_file d) (default sec0 (d_ngrams d !! v));
      if 0 <? lenZ blob then
        it ← newCompressedPostingIterator blob v;
        rest ← variantIters d fileName variants;
        Ok (inr it :: rest)
      else variantIters d fileName variants
  end.

Definition trigramHitIterator (d : indexData F) (ng : ngram) (caseSensitive fileName : bool)
    : res trigramIterator :=
  variants ← (if caseSensitive then Ok [ng] else generateCaseNgrams ng);
  iters ← variantIters d fileName variants;
  match iters with
  | [it] => Ok (inl it)
  | _ => Ok (inr (Merging iters))
  end.

Definition newDistanceTrigramIter (d : indexData F) (ng1 ng2 : ngram) (dist : Z) (caseSensitive fileName : bool)
    : res hitIterator :=
  if dist =? 0 then Err "d == 0"
  else
    i1 ← trigramHitIterator d ng1 caseSensitive fileName;
    i2 ← trigramHitIterator d ng2 caseSensitive fileName;
    Ok (inr (Distance false dist i1 i2)).

(** The frequency of a trigram with its case variants. *)
Definition trigramFrequency (d : indexData F) (ng : ngram) (caseSensitive filename : bool) : res Z :=
  if caseSensitive then Ok (ngramFrequency d ng filename)
  else
    vs ← generateCaseNgrams ng;
    Ok (foldl (λ freq v, freq ⊕ ngramFrequency d v filename) 0 vs).

(** The frequencies, or [None] when a trigram does not occur. *)
Fixpoint frequencies (d : indexData F) (caseSensitive filename : bool) (offs : list runeNgramOff)
    : res (option (list Z)) :=
  match offs with
  | [] => Ok (Some [])
  | o :: offs =>
    freq ← trigramFrequency d (rno_ngram o) caseSensitive filename;
    if freq =? 0 then Ok None
    else fs ← frequencies d caseSensitive filename offs; Ok (option_map (cons freq) fs)
  end.

Definition iterateNgrams (d : indexData F) (query : Substring) : res ngramIterationResults :=
  let str_ := Pattern query in
  let ngramOffs := splitNGrams str_ in
  fs ← frequencies d (CaseSensitive query) (FileName query) ngramOffs;
  match fs with
  | None => Ok (NgramResults (inl (NoMatch "freq=0")) false false [] [])
  | Some fs =>
    let firstI := firstMinarg fs in
    _ ← index fs firstI;
    let lastI := lastMinarg (<[Z.to_nat firstI := maxUInt32]> fs) in
    let '(firstI, lastI) := if lastI <? firstI then (lastI, firstI) else (firstI, lastI) in
    first ← index ngramOffs firstI;
    last ← index ngramOffs lastI;
    let rightPad := u32 (RuneCount str_) ⊖ firstI in
    let ends := if FileName query then d_fileNameEndRunes d else d_fileEndRunes d in
    iter ← (if negb (firstI =? lastI)
            then newDistanceTrigramIter d (rno_ngram first) (rno_ngram last) (lastI ⊖ firstI)
                   (CaseSensitive query) (FileName query)
            else inl <$> trigramHitIterator d (rno_ngram last) (CaseSensitive query) (FileName query));
    Ok (NgramResults (inr (NgramDoc firstI rightPad iter ends 0 0)) (CaseSensitive query) (FileName query)
          str_ (toLower str_))
  end.
End Iterate.
