(* ===== verification/Shard.v ===== *)
(** * Writing a shard and loading it back

    The refinement between write.go and read.go: the file that [Write] produces
    for a builder is loaded by [NewSearcher], through either implementation of
    IndexFile, into an [indexData] that answers for exactly the documents that
    were added. *)

From S2P Require Import Prelude GoStd Bits Api HitIter MatchIter Query Section IndexBuilder IndexData.
Import utf8 binary.

(** ** The layout of the file *)

Section Layout.
Context `{SortAlg} (sink : bytes → bytes → nat * option string).
Context (sink_ok : ∀ out b, sink out b = (length b, None)).

(** [w'] is [w] with more written after it. *)
Definition ext (w w' : writer) : Prop := w_ok w' ∧ ∃ more, w_out w' = w_out w ++ more.

Lemma ext_trans w1 w2 w3 : ext w1 w2 → ext w2 w3 → ext w1 w3.
Proof.
  intros [_ [a Ha]] [Hw [b Hb]]. split; [done|]. exists (a ++ b). by rewrite Hb, Ha, app_assoc.
Qed.
Lemma wrote_ext w w' b : wrote w w' b → ext w w'.
Proof. intros [Hw Ho]. split; [done|]. by exists b. Qed.
Lemma ext_len w w' n : ext w w' → lenZ (w_out w') < n → lenZ (w_out w) < n.
Proof. intros [_ [m ->]]. rewrite lenZ_app. pose proof (lenZ_nonneg m). lia. Qed.
Lemma ext_blob w w' s b : ext w w' → blob_at (w_out w) s b → blob_at (w_out w') s b.
Proof. intros [_ [m ->]]. apply blob_at_app. Qed.
Lemma ext_comp w w' s items : ext w w' → comp_at (w_out w) s items → comp_at (w_out w') s items.
Proof. intros [_ [m ->]]. apply comp_at_app. Qed.

Lemma ext_mono w w' : ext w w' → lenZ (w_out w) <= lenZ (w_out w').
Proof. intros [_ [m ->]]. rewrite lenZ_app. pose proof (lenZ_nonneg m). lia. Qed.

Lemma writeSimple_spec w b :
  w_ok w → let '(s, w') := writeSimple sink w b in
  ext w w' ∧ (lenZ (w_out w') < two32 →
    blob_at (w_out w') s b ∧ s_off s = lenZ (w_out w) ∧ s_off s + lenZ b = lenZ (w_out w')).
Proof.
  intros Hw. unfold writeSimple. pose proof (w_Write_ok sink sink_ok w b Hw) as Hb.
  split; [by eapply wrote_ext|]. intros Hlen. split; [by apply section_written|].
  destruct Hw as [_ Ho], Hb as [_ Hout]. rewrite Hout, lenZ_app in *. pose proof (lenZ_nonneg b).
  pose proof (lenZ_nonneg (w_out w)). unfold sec_end, sec_start. cbn [s_off]. rewrite Ho.
  rewrite u32_id by (u32_unfold; lia). lia.
Qed.

Lemma toSizedDeltas_pos l : 0 < lenZ (toSizedDeltas l).
Proof.
  unfold toSizedDeltas. rewrite lenZ_app. pose proof (PutUvarint_aux_nonempty 9 (u64 (lenZ l))) as Hn.
  unfold PutUvarint. pose proof (lenZ_nonneg (encodeDeltas 0 l)).
  destruct (PutUvarint_aux 10 _); [done|]. rewrite lenZ_cons. pose proof (lenZ_nonneg l0). lia.
Qed.

Lemma addItems_len items s w :
  w_ok w →
  let '(s', w') := foldl (λ '(s, w) it, comp_addItem sink s w it) (s, w) items in
  wrote w w' (mjoin items) ∧ length (c_offsets s') = (length (c_offsets s) + length items)%nat.
Proof.
  revert s w. induction items as [|it items IH]; intros s w Hw; simpl.
  { split; [by apply wrote_nil|lia]. }
  pose proof (w_Write_ok sink sink_ok w it Hw) as Hw1.
  specialize (IH (Comp (c_data s) (c_offsets s ++ [w_off w]) (c_index s)) (w_Write sink w it) (proj1 Hw1)).
  destruct (foldl _ _ items) as [s' w']. destruct IH as [Hw' Hl]. split; [by eapply wrote_trans|].
  rewrite Hl. simpl. rewrite length_app. simpl. lia.
Qed.

Lemma writeItems_spec w items :
  w_ok w → let '(s, w') := writeItems sink w items in
  ext w w' ∧ (lenZ (w_out w') < two32 → comp_at (w_out w') s items).
Proof.
  intros Hw. pose proof (writeItems_ok sink sink_ok w items Hw) as Hok.
  unfold writeItems in *. pose proof (addItems_len items (comp_start comp0 w) w Hw) as Ha.
  destruct (foldl _ _ items) as [s1 w1]. destruct Ha as [Hw1 Hl]. unfold comp_end in *.
  pose proof (foldl_wrote (w_U32 sink) PutUint32 (c_offsets s1) w1 (w_U32_ok sink sink_ok) (proj1 Hw1)) as Hw2.
  set (w2 := foldl _ w1 _) in *. assert (Hext : ext w w2) by (eapply wrote_ext, wrote_trans; eauto).
  split; [done|]. intros Hlen. apply Hok. destruct Hw1 as [_ Ho1], Hw2 as [_ Ho2].
  rewrite Ho2, Ho1 in Hlen. unfold comp_bytes. rewrite !lenZ_app in *.
  change (PutUint32 <$> ?l) with (be_split 4 <$> l) in *. rewrite !lenZ_words in *.
  enough (lenZ (item_offsets (lenZ (w_out w)) items) = lenZ (c_offsets s1)) by lia.
  unfold lenZ. rewrite length_item_offsets, Hl. simpl. lia.
Qed.

Lemma foldl_section {A} (f : writer → A → writer) (enc : A → bytes) l w :
  (∀ w a, w_ok w → wrote w (f w a) (enc a)) → w_ok w →
  ext w (foldl f w l) ∧
  (lenZ (w_out (foldl f w l)) < two32 →
   blob_at (w_out (foldl f w l)) (sec_end (sec_start sec0 w) (foldl f w l)) (mjoin (enc <$> l))).
Proof.
  intros Hf Hw. pose proof (foldl_wrote f enc l w Hf Hw) as Hb. split; [by eapply wrote_ext|].
  intros Hlen. by apply section_written.
Qed.

(** The keys of the posting lists, in the order they are written. *)
Definition sorted_keys (pb : postingsBuilder) : list Z :=
  go_sort (λ a b, a <? b) (fst <$> map_to_list (pb_postings pb)).
Definition key_blobs (pb : postingsBuilder) : list bytes :=
  (λ k, default [] (pb_postings pb !! k)) <$> sorted_keys pb.

Lemma writePostings_spec w pb :
  w_ok w → let '(text, postings, chars, ends, w') := writePostings sink w pb in
  ext w w' ∧ (lenZ (w_out w') < two32 →
    blob_at (w_out w') text (mjoin (PutUint64 <$> sorted_keys pb)) ∧
    comp_at (w_out w') postings (key_blobs pb) ∧
    blob_at (w_out w') chars (toSizedDeltas (pb_runeOffsets pb)) ∧
    blob_at (w_out w') ends (toSizedDeltas (pb_endRunes pb)) ∧
    lenZ (w_out w) <= s_off chars < s_off ends ∧ s_off ends < lenZ (w_out w')).
Proof.
  intros Hw. unfold writePostings. fold (sorted_keys pb).
  destruct (foldl_section (λ w k, w_Write sink w (PutUint64 k)) PutUint64 (sorted_keys pb) w) as [E1 B1]; [|done|].
  { intros w0 k Hw0. by apply w_Write_ok. }
  set (w1 := foldl _ w _) in *.
  pose proof (writeItems_spec w1 (key_blobs pb) (proj1 E1)) as S2. unfold key_blobs in S2.
  destruct (writeItems sink w1 _) as [postings w2]. destruct S2 as [E2 B2].
  pose proof (writeSimple_spec w2 (toSizedDeltas (pb_runeOffsets pb)) (proj1 E2)) as S3.
  destruct (writeSimple sink w2 _) as [chars w3]. destruct S3 as [E3 B3].
  pose proof (writeSimple_spec w3 (toSizedDeltas (pb_endRunes pb)) (proj1 E3)) as S4.
  destruct (writeSimple sink w3 _) as [ends w4]. destruct S4 as [E4 B4].
  pose proof (ext_trans _ _ _ E3 E4) as E34. pose proof (ext_trans _ _ _ E2 E34) as E24.
  split; [by eapply ext_trans|]. intros Hlen.
  destruct (B3 (ext_len _ _ _ E4 Hlen)) as (B3a & B3b & B3c). destruct (B4 Hlen) as (B4a & B4b & B4c).
  pose proof (toSizedDeltas_pos (pb_runeOffsets pb)). pose proof (toSizedDeltas_pos (pb_endRunes pb)).
  pose proof (ext_mono _ _ (ext_trans _ _ _ E1 E2)). split_and!; [..|lia|lia|lia].
  - eapply ext_blob; [exact E24|]. apply B1. by eapply ext_len.
  - eapply ext_comp; [exact E34|]. apply B2. by eapply ext_len.
  - eapply ext_blob; [exact E4|done].
  - done.
Qed.
End Layout.

(** Where everything is in a written file. *)
Record layout `{SortAlg} (b : IndexBuilder) (out : bytes) (toc : indexTOC) (md repo : bytes) : Prop := {
  la_contents : comp_at out (t_fileContents toc) (b_contentStrings b);
  la_newlines : comp_at out (t_newlines toc) ((λ s, toSizedDeltas (newLinesIndices s)) <$> b_contentStrings b);
  la_masks : blob_at out (t_branchMasks toc) (mjoin (PutUint64 <$> b_branchMasks b));
  la_sections : comp_at out (t_fileSections toc) (marshalDocSections <$> b_docSections b);
  la_text : blob_at out (t_ngramText toc) (mjoin (PutUint64 <$> sorted_keys (b_contentPostings b)));
  la_postings : comp_at out (t_postings toc) (key_blobs (b_contentPostings b));
  la_runeOffsets : blob_at out (t_runeOffsets toc) (toSizedDeltas (pb_runeOffsets (b_contentPostings b)));
  la_endRunes : blob_at out (t_fileEndRunes toc) (toSizedDeltas (pb_endRunes (b_contentPostings b)));
  la_names : comp_at out (t_fileNames toc) (b_nameStrings b);
  la_nameText : blob_at out (t_nameNgramText toc) (mjoin (PutUint64 <$> sorted_keys (b_namePostings b)));
  la_namePostings : comp_at out (t_namePostings toc) (key_blobs (b_namePostings b));
  la_nameRuneOffsets : blob_at out (t_nameRuneOffsets toc) (toSizedDeltas (pb_runeOffsets (b_namePostings b)));
  la_nameEndRunes : blob_at out (t_nameEndRunes toc) (toSizedDeltas (pb_endRunes (b_namePostings b)));
  la_subRepos : blob_at out (t_subRepos toc) (toSizedDeltas (b_subRepos b));
  la_checksums : blob_at out (t_contentChecksums toc) (b_checksums b);
  la_languages : blob_at out (t_languages toc) (b_languages b);
  la_runeDocSections : blob_at out (t_runeDocSections toc) (marshalDocSections (b_runeDocSections b));
  la_metaData : blob_at out (t_metaData toc) md;
  la_repoMetaData : blob_at out (t_repoMetaData toc) repo;
  la_order : StronglySorted Z.lt (s_off <$> [t_runeOffsets toc; t_fileEndRunes toc; t_nameRuneOffsets toc;
               t_nameEndRunes toc; t_subRepos toc]);
  la_toc : ∃ body, out = body ++ enc_toc toc ++ enc_sec (Sec (lenZ body) (lenZ (enc_toc toc))) }.

Section WriteLayout.
Context `{SortAlg} (sink : bytes → bytes → nat * option string).
Context (sink_ok : ∀ out b, sink out b = (length b, None)).
Context (marshalMetadata : IndexMetadata → option bytes) (marshalRepository : Repository → option bytes).

(** The metadata that Write records. *)
Definition metadata_of (b : IndexBuilder) (now : Z) (version : bytes) : IndexMetadata :=
  MkIndexMetadata IndexFormatVersion FeatureVersion now
    (pb_isPlainASCII (b_contentPostings b) && pb_isPlainASCII (b_namePostings b)) (b_languageMap b) version.

(** The table of contents and its place come last. *)
Lemma trailer_spec w toc :
  w_ok w → let w1 := writeTOC sink w toc in let w2 := sec_write sink (sec_end (sec_start sec0 w) w1) w1 in
  ext w w2 ∧ (lenZ (w_out w2) < two32 →
    ∃ body, w_out w2 = body ++ enc_toc toc ++ enc_sec (Sec (lenZ body) (lenZ (enc_toc toc)))).
Proof.
  intros Hw w1 w2. pose proof (writeTOC_ok sink sink_ok w toc Hw) as W1.
  pose proof (sec_write_ok sink sink_ok (sec_end (sec_start sec0 w) w1) w1 (proj1 W1)) as W2.
  split; [by eapply wrote_ext, wrote_trans|]. intros Hlen.
  destruct W1 as [[_ Ho1] Hout1], W2 as [_ Hout2].
  fold w2 in Hout2. fold w1 in Hout1, Ho1. rewrite Hout2, lenZ_app in Hlen.
  exists (w_out w). rewrite Hout2, Hout1, <- app_assoc. do 3 f_equal.
  unfold sec_end, sec_start. cbn [s_off]. destruct Hw as [_ Ho]. rewrite Ho, Ho1, Hout1, lenZ_app in *.
  revert Hlen. generalize (lenZ_nonneg (enc_sec (sec_end (sec_start sec0 w) w1))). generalize (lenZ (enc_sec (sec_end (sec_start sec0 w) w1))).
  pose proof (lenZ_nonneg (w_out w)). pose proof (lenZ_nonneg (enc_toc toc)). intros n Hn Hlen.
  rewrite !(u32_id (lenZ (w_out w))), (u32_id (_ + _)) by (u32_unfold; lia). f_equal.
  rewrite Z.add_simpl_l. apply u32_id. u32_unfold. lia.
Qed.

Lemma Write_layout b now version w :
  Write sink marshalMetadata marshalRepository b now version = Ok w → lenZ (w_out w) < two32 →
  ∃ toc md repo, marshalMetadata (metadata_of b now version) = Some md ∧
    marshalRepository (b_repo b) = Some repo ∧ layout b (w_out w) toc md repo.
Proof.
  unfold Write. fold (metadata_of b now version). intros HW Hlen.
  assert (Hw0 : w_ok (MkWriter None [] 0)) by done. set (w0 := MkWriter None [] 0) in *.
  pose proof (writeItems_spec sink sink_ok w0 (b_contentStrings b) Hw0) as S1.
  destruct (writeItems sink w0 _) as [fileContents w1]. destruct S1 as [E1 B1].
  pose proof (writeItems_spec sink sink_ok w1 ((λ s, toSizedDeltas (newLinesIndices s)) <$> b_contentStrings b) (proj1 E1)) as S2.
  destruct (writeItems sink w1 _) as [newlines w2]. destruct S2 as [E2 B2].
  destruct (foldl_section (w_U64 sink) PutUint64 (b_branchMasks b) w2 (w_U64_ok sink sink_ok) (proj1 E2)) as [E3 B3].
  set (w3 := foldl _ w2 _) in *.
  pose proof (writeItems_spec sink sink_ok w3 (marshalDocSections <$> b_docSections b) (proj1 E3)) as S4.
  destruct (writeItems sink w3 _) as [fileSections w4]. destruct S4 as [E4 B4].
  pose proof (writePostings_spec sink sink_ok w4 (b_contentPostings b) (proj1 E4)) as S5.
  destruct (writePostings sink w4 _) as [[[[ngramText postings] runeOffsets] fileEndRunes] w5]. destruct S5 as [E5 B5].
  pose proof (writeItems_spec sink sink_ok w5 (b_nameStrings b) (proj1 E5)) as S6.
  destruct (writeItems sink w5 _) as [fileNames w6]. destruct S6 as [E6 B6].
  pose proof (writePostings_spec sink sink_ok w6 (b_namePostings b) (proj1 E6)) as S7.
  destruct (writePostings sink w6 _) as [[[[nameNgramText namePostings] nameRuneOffsets] nameEndRunes] w7].
  destruct S7 as [E7 B7].
  pose proof (writeSimple_spec sink sink_ok w7 (toSizedDeltas (b_subRepos b)) (proj1 E7)) as S8.
  destruct (writeSimple sink w7 _) as [subRepos w8]. destruct S8 as [E8 B8].
  pose proof (writeSimple_spec sink sink_ok w8 (b_checksums b) (proj1 E8)) as S9.
  destruct (writeSimple sink w8 _) as [contentChecksums w9]. destruct S9 as [E9 B9].
  pose proof (writeSimple_spec sink sink_ok w9 (b_languages b) (proj1 E9)) as S10.
  destruct (writeSimple sink w9 _) as [languages w10]. destruct S10 as [E10 B10].
  pose proof (writeSimple_spec sink sink_ok w10 (marshalDocSections (b_runeDocSections b)) (proj1 E10)) as S11.
  destruct (writeSimple sink w10 _) as [runeDocSections w11]. destruct S11 as [E11 B11].
  destruct (marshalMetadata _) as [md|] eqn:Emd; [|done].
  pose proof (writeSimple_spec sink sink_ok w11 md (proj1 E11)) as S12.
  destruct (writeSimple sink w11 _) as [metaData w12]. destruct S12 as [E12 B12].
  destruct (marshalRepository _) as [repo|] eqn:Erepo; [|done].
  pose proof (writeSimple_spec sink sink_ok w12 repo (proj1 E12)) as S13.
  destruct (writeSimple sink w12 _) as [repoMetaData w13]. destruct S13 as [E13 B13].
  set (toc := TOC _ _ _ _ _ _ _ _ _ _ _ _ _ _ _ _ _ _ _) in *.
  pose proof (trailer_spec w13 toc (proj1 E13)) as S14. cbv zeta in S14.
  set (w14 := writeTOC sink w13 toc) in *. set (w15 := sec_write sink _ w14) in *.
  destruct S14 as [F13 Btoc].
  assert (w15 = w) as Hw15 by (destruct (w_err w15); congruence). rewrite Hw15 in *. clear HW.
  pose proof (ext_trans _ _ _ E13 F13) as F12. pose proof (ext_trans _ _ _ E12 F12) as F11.
  pose proof (ext_trans _ _ _ E11 F11) as F10. pose proof (ext_trans _ _ _ E10 F10) as F9.
  pose proof (ext_trans _ _ _ E9 F9) as F8. pose proof (ext_trans _ _ _ E8 F8) as F7.
  pose proof (ext_trans _ _ _ E7 F7) as F6. pose proof (ext_trans _ _ _ E6 F6) as F5.
  pose proof (ext_trans _ _ _ E5 F5) as F4. pose proof (ext_trans _ _ _ E4 F4) as F3.
  pose proof (ext_trans _ _ _ E3 F3) as F2. pose proof (ext_trans _ _ _ E2 F2) as F1.
  destruct (B5 (ext_len _ _ _ F5 Hlen)) as (B5a & B5b & B5c & B5d & B5e).
  destruct (B7 (ext_len _ _ _ F7 Hlen)) as (B7a & B7b & B7c & B7d & B7e).
  destruct (B8 (ext_len _ _ _ F8 Hlen)) as (B8a & B8b & _).
  pose proof (ext_mono _ _ E6) as M6.
  exists toc, md, repo. split_and!; [done|done|].
  split; cbn [t_fileContents t_newlines t_branchMasks t_fileSections t_ngramText t_postings t_runeOffsets
    t_fileEndRunes t_fileNames t_nameNgramText t_namePostings t_nameRuneOffsets t_nameEndRunes t_subRepos
    t_contentChecksums t_languages t_runeDocSections t_metaData t_repoMetaData toc].
  - eapply ext_comp; [exact F1|]. apply B1. by eapply ext_len.
  - eapply ext_comp; [exact F2|]. apply B2. by eapply ext_len.
  - eapply ext_blob; [exact F3|]. apply B3. by eapply ext_len.
  - eapply ext_comp; [exact F4|]. apply B4. by eapply ext_len.
  - eapply ext_blob; [exact F5|done].
  - eapply ext_comp; [exact F5|done].
  - eapply ext_blob; [exact F5|done].
  - eapply ext_blob; [exact F5|done].
  - eapply ext_comp; [exact F6|]. apply B6. by eapply ext_len.
  - eapply ext_blob; [exact F7|done].
  - eapply ext_comp; [exact F7|done].
  - eapply ext_blob; [exact F7|done].
  - eapply ext_blob; [exact F7|done].
  - eapply ext_blob; [exact F8|done].
  - eapply ext_blob; [exact F9|]. by apply B9; eapply ext_len.
  - eapply ext_blob; [exact F10|]. by apply B10; eapply ext_len.
  - eapply ext_blob; [exact F11|]. by apply B11; eapply ext_len.
  - eapply ext_blob; [exact F12|]. by apply B12; eapply ext_len.
  - eapply ext_blob; [exact F13|]. by apply B13; eapply ext_len.
  - cbn [fmap list_fmap]. repeat constructor; lia.
  - by apply Btoc.
Qed.
End WriteLayout.

(** ** The numbers of a builder fit their words *)

Lemma takeBounds_u32 at_ r bb rb :
  is_u32 r → Forall is_u32 rb → Forall is_u32 (snd (takeBounds at_ r bb rb)).
Proof.
  intros Hr. revert rb. induction bb as [|b bb IH]; intros rb Hrb; simpl; [done|].
  case_match; [|done]. apply IH, Forall_app. split; [done|]. by constructor.
Qed.

Lemma string_step_u32 k st d : Forall is_u32 (sl_runeBounds st) → Forall is_u32 (sl_runeBounds (string_step k st d)).
Proof.
  intros Hs. destruct d as [c sz], (sl_runeGram st) as [[g0 g1] g2] eqn:E. unfold string_step. rewrite E.
  pose proof (takeBounds_u32 (u32 (sl_byteCount st)) (k ⊕ sl_runeIndex st) (sl_byteBounds st) _ (u32_range _) Hs) as Ht.
  by destruct (takeBounds _ _ _ _).
Qed.

Lemma foldl_string_u32 k ds st :
  Forall is_u32 (sl_runeBounds st) → Forall is_u32 (sl_runeBounds (foldl (string_step k) st ds)).
Proof. revert st. induction ds as [|d ds IH]; intros st Hs; [done|]. apply IH. by apply string_step_u32. Qed.

Lemma pairBounds_u32 l secs : Forall is_u32 l → pairBounds l = Ok secs → Forall section_u32 secs.
Proof.
  revert secs. induction l as [l IH] using (induction_ltof1 _ length). intros secs Hl Hp.
  destruct l as [|a [|b l]]; simpl in Hp; res_inv; [constructor|].
  apply Forall_cons in Hl as [Ha [Hb Hl]%Forall_cons]. constructor; [done|].
  apply (IH l); [unfold ltof; simpl; lia|done|done].
Qed.

Lemma newSearchableString_u32 pb data secs pb' rsecs :
  newSearchableString pb data secs = (pb', Ok rsecs) → Forall section_u32 rsecs.
Proof.
  unfold newSearchableString. set (st := foldl _ _ _). intros Hn. case_match; [done|].
  assert (Forall is_u32 (sl_runeBounds st)) as Hs by (apply foldl_string_u32; constructor).
  pose proof (takeBounds_u32 (u32 (sl_byteCount st)) (pb_runeCount pb ⊕ sl_runeIndex st) (sl_byteBounds st) _
    (u32_range _) Hs) as Ht.
  destruct (takeBounds _ _ _ _) as [_b rb]. destruct (pairBounds rb) as [secs'| | |] eqn:E; try done.
  injection Hn as _ <-. by eapply pairBounds_u32.
Qed.

Lemma branchMasks_u64 b brs mask m : is_u64 mask → branchMasks b brs mask = Ok m → is_u64 m.
Proof.
  revert mask. induction brs as [|br brs IH]; intros mask Hm; simpl; [by intros [= <-]|].
  case_match; [done|]. apply IH, lor_u64; [done|]. unfold branchMask. generalize 0.
  induction (r_Branches (b_repo b)) as [|x l IHl]; intros i; simpl; [u32_unfold; lia|].
  case_decide; [apply u64_range|apply IHl].
Qed.

Record builder_words (b : IndexBuilder) : Prop := {
  bw_masks : Forall is_u64 (b_branchMasks b);
  bw_subRepos : Forall is_u32 (b_subRepos b);
  bw_indices : ∀ p i, default ∅ (b_subRepoIndices b) !! p = Some i → is_u32 i;
  bw_runes : Forall section_u32 (b_runeDocSections b) }.

Lemma NewIndexBuilder_words `{SortAlg} validTemplate r b : NewIndexBuilder validTemplate r = Ok b → builder_words b.
Proof.
  unfold NewIndexBuilder, setRepository. simpl.
  destruct (Repository_verify _ _); try done. simpl. case_match; [done|]. intros [= <-].
  split; simpl; [constructor..| |constructor].
  intros p i Hp. apply elem_of_list_to_map_2, elem_of_lookup_imap in Hp as (j & y & [= -> ->] & _). apply u32_range.
Qed.

Lemma Add_words `{SortAlg} Rel b doc b' : builder_words b → Add Rel b doc = (b', Ok ()) → builder_words b'.
Proof.
  intros [] Hadd. apply Add_inv in Hadd
    as (content & name & runeSecs & nsecs & subRepoIdx & mask & langMap & code & Ec & En & Es & Em & _ & ->).
  split; cbn [b_branchMasks b_subRepos b_subRepoIndices b_runeDocSections]; try apply Forall_app_2;
    try done; try (constructor; [|constructor]).
  - eapply branchMasks_u64; [|done]. u32_unfold. lia.
  - by eapply bw_indices0.
  - by eapply newSearchableString_u32.
Qed.

Lemma builds_words `{SortAlg} validTemplate Rel b docs : builds validTemplate Rel b docs → builder_words b.
Proof. induction 1; [by eapply NewIndexBuilder_words|by eapply Add_words]. Qed.

Lemma runesToNGram_u64 r : is_u64 (runesToNGram r).
Proof. destruct r as [[a b] c]. unfold runesToNGram. repeat apply lor_u64; apply u64_range. Qed.

Lemma indexed_keys pb docs ng blob : indexed pb docs → pb_postings pb !! ng = Some blob →
  is_u64 ng ∧ blob = encodeDeltas 0 (positions ng (corpus_windows 0 docs)).
Proof.
  intros Hix Hng. destruct (ix_postings _ _ Hix ng) as [Hp _]. rewrite Hng in Hp.
  destruct (positions ng _) as [|p l] eqn:E; [done|]. injection Hp as ->. split; [|done].
  assert (p ∈ positions ng (corpus_windows 0 docs)) as Hin by (rewrite E; constructor).
  apply elem_of_positions, elem_of_corpus_windows in Hin as (i & j & (d & a & b & c & _ & _ & _ & _ & ->) & _).
  apply runesToNGram_u64.
Qed.

Lemma elem_of_sorted_keys `{SortAlg} pb ng : ng ∈ sorted_keys pb ↔ is_Some (pb_postings pb !! ng).
Proof.
  unfold sorted_keys. rewrite go_sort_perm, list_elem_of_fmap. split.
  - intros ([k v] & -> & Hkv%elem_of_map_to_list). by exists v.
  - intros [v Hv]. exists (ng, v). split; [done|]. by apply elem_of_map_to_list.
Qed.
Lemma sorted_keys_NoDup `{SortAlg} pb : NoDup (sorted_keys pb).
Proof. unfold sorted_keys. rewrite go_sort_perm. apply NoDup_fst_map_to_list. Qed.

Lemma indexed_keys_u64 `{SortAlg} pb docs : indexed pb docs → Forall is_u64 (sorted_keys pb).
Proof.
  intros Hix. apply Forall_forall. intros ng [blob Hb]%elem_of_sorted_keys. by eapply indexed_keys in Hb as [? _].
Qed.

Lemma end_runes_u32 docs : sum_bytes docs < two32 → Forall is_u32 (end_runes 0 docs).
Proof.
  intros Hs. pose proof (sum_runes_le_bytes docs).
  enough (∀ k, 0 <= k → k + sum_runes docs < two32 → Forall is_u32 (end_runes k docs)) as Hk by (apply Hk; lia).
  clear Hs H. induction docs as [|d docs IH]; intros k Hk Hs; simpl; [constructor|].
  unfold sum_runes in *. simpl in Hs. fold (sum_runes docs) in *. pose proof (sum_runes_nonneg docs).
  pose proof (lenZ_nonneg (decode_all d)). unfold RuneCount in *.
  constructor; [u32_unfold; lia|]. apply IH; lia.
Qed.

Lemma sampled_u32 idx off sizes :
  0 <= off → Forall (λ s, 0 <= s) sizes → off + foldr Z.add 0 sizes < two32 → Forall is_u32 (sampled idx off sizes).
Proof.
  revert idx off. induction sizes as [|s sizes IH]; intros idx off Ho Hs Hlen; simpl; [constructor|].
  apply Forall_cons in Hs as [Hs0 Hs]. simpl in Hlen.
  assert (0 <= foldr Z.add 0 sizes) by (clear - Hs; induction Hs; simpl in *; lia).
  case_match; [constructor; [u32_unfold; lia|]|]; apply IH; try done; lia.
Qed.
Lemma corpus_sampled_u32 docs : sum_bytes docs < two32 → Forall is_u32 (sampled 0 0 (corpus_sizes docs)).
Proof.
  intros Hs. apply sampled_u32; [lia| |rewrite corpus_sizes_sum; lia]. clear Hs.
  unfold corpus_sizes. induction docs as [|d docs IH]; simpl; [constructor|]. apply Forall_app. split; [|done].
  rewrite Forall_fmap. eapply Forall_impl; [apply decode_sizes|]. simpl. lia.
Qed.
Lemma newLines_u32 i inp : Forall is_u32 (newLines_loop i inp).
Proof.
  revert i. induction inp as [|c inp IH]; intros i; simpl; [constructor|].
  case_match; [constructor; [apply u32_range|]|]; apply IH.
Qed.

(** ** Loading *)

(** [m] has an entry for each of [keys], and each entry satisfies [P]. *)
Definition table_ok {V} (P : Z → V → Prop) (keys : list Z) (m : gmap Z V) : Prop :=
  ∀ k, match m !! k with Some v => k ∈ keys ∧ P k v | None => k ∉ keys end.

Lemma table_ok_empty {V} (P : Z → V → Prop) : table_ok P [] ∅.
Proof. intros k. rewrite lookup_empty. apply not_elem_of_nil. Qed.
Lemma table_ok_insert {V} (P : Z → V → Prop) keys m k v :
  table_ok P keys m → P k v → table_ok P (keys ++ [k]) (<[k := v]> m).
Proof.
  intros Hm Hk k'. destruct (decide (k = k')) as [->|Hne].
  - rewrite lookup_insert_eq. set_solver.
  - rewrite lookup_insert_ne by done. specialize (Hm k'). destruct (m !! k'); set_solver.
Qed.

Section LoadOk.
Context `{SortAlg} {F : Type} `{IndexFileOk F} (f : F) (out : bytes) (Hf : contents f out).

Lemma out_len : lenZ out < two32.
Proof. destruct (contents_size f out Hf). u32_unfold. lia. Qed.

Lemma index_nat {A} (l : list A) (i : nat) a : l !! i = Some a → index l (Z.of_nat i) = Ok a.
Proof. intros Hi. apply index_lookup. rewrite Nat2Z.id. split; [lia|done]. Qed.

(** The entry for the key after [keys] in a table of items is in place. *)
Lemma key_at pb dn ng ngs :
  sorted_keys pb = dn ++ ng :: ngs → key_blobs pb !! length dn = Some (default [] (pb_postings pb !! ng)).
Proof. intros E. unfold key_blobs. by rewrite list_lookup_fmap, E, list_lookup_middle. Qed.

Lemma readNgrams_ok pb s ngs dn m :
  comp_at out s (key_blobs pb) → sorted_keys pb = dn ++ ngs →
  table_ok (λ ng sec, blob_at out sec (default [] (pb_postings pb !! ng))) dn m →
  ∃ m', readNgrams (s_off (c_data s)) (boundaries_of (key_blobs pb)) (lenZ dn) ngs m = Ok m' ∧
    table_ok (λ ng sec, blob_at out sec (default [] (pb_postings pb !! ng))) (sorted_keys pb) m'.
Proof.
  intros Hs. revert dn m. induction ngs as [|ng ngs IH]; intros dn m E Hm.
  { rewrite app_nil_r in E. rewrite E. by exists m. }
  destruct (item_at _ _ _ _ _ out_len Hs (key_at _ _ _ _ E)) as (a & b & Ha & Hb & Hblob).
  cbn [readNgrams]. unfold lenZ. rewrite (index_nat _ _ _ Ha). cbn [mbind res_bind].
  replace (Z.of_nat (length dn) + 1) with (Z.of_nat (S (length dn))) by lia.
  rewrite (index_nat _ _ _ Hb). cbn [mbind res_bind].
  destruct (IH (dn ++ [ng]) (<[ng := Sec (s_off (c_data s) ⊕ a) (b ⊖ a)]> m)) as (m' & Hr & Hm').
  - by rewrite <- app_assoc.
  - by apply table_ok_insert.
  - exists m'. split; [|done]. unfold lenZ in Hr. rewrite length_app in Hr. simpl in Hr.
    by rewrite Nat.add_1_r in Hr.
Qed.

Lemma readNameNgrams_ok pb docs ngs dn m :
  indexed pb docs → sum_bytes docs < two32 → sorted_keys pb = dn ++ ngs →
  table_ok (λ ng l, l = positions ng (corpus_windows 0 docs)) dn m →
  ∃ m', readNameNgrams (mjoin (key_blobs pb)) (boundaries_of (key_blobs pb)) (lenZ dn) ngs m = Ok m' ∧
    table_ok (λ ng l, l = positions ng (corpus_windows 0 docs)) (sorted_keys pb) m'.
Proof.
  intros Hix Hlen. revert dn m. induction ngs as [|ng ngs IH]; intros dn m E Hm.
  { rewrite app_nil_r in E. rewrite E. by exists m. }
  pose proof (key_at _ _ _ _ E) as Hk. destruct (boundaries_lookup _ _ _ Hk) as [Ha Hb].
  cbn [readNameNgrams]. change (lenZ dn) with (Z.of_nat (length dn)). rewrite (index_nat _ _ _ Ha). cbn [mbind res_bind].
  replace (Z.of_nat (length dn) + 1) with (Z.of_nat (S (length dn))) by lia.
  rewrite (index_nat _ _ _ Hb). cbn [mbind res_bind].
  pose proof (slice_app (mjoin (take (length dn) (key_blobs pb))) (default [] (pb_postings pb !! ng))
    (mjoin (drop (S (length dn)) (key_blobs pb)))) as Hsl. rewrite <- (mjoin_split _ _ _ Hk) in Hsl.
  rewrite Hsl. cbn [mbind res_bind].
  assert (is_Some (pb_postings pb !! ng)) as [blob Hblob] by (apply elem_of_sorted_keys; rewrite E; set_solver).
  destruct (indexed_keys _ _ _ _ Hix Hblob) as [_ Hpos]. rewrite Hblob. cbn [default]. unfold id. rewrite Hpos.
  pose proof (sum_runes_le_bytes docs). destruct (positions_hits ng docs ltac:(lia)) as [_ Hr].
  rewrite fromDeltas_encode by (eapply Forall_impl; [exact Hr|]; intros; u32_unfold; lia). cbn [mbind res_bind].
  destruct (IH (dn ++ [ng]) (<[ng := positions ng (corpus_windows 0 docs)]> m)) as (m' & Hrd & Hm').
  - by rewrite <- app_assoc.
  - by apply table_ok_insert.
  - exists m'. split; [|done]. rewrite <- Hrd. f_equal. unfold lenZ. rewrite length_app. simpl. lia.
Qed.

(** A table of deltas is read back. *)
Lemma read_sized s l : Forall is_u32 l → blob_at out s (toSizedDeltas l) →
  readSectionBlob f s = Ok (toSizedDeltas l) ∧ fromSizedDeltas (toSizedDeltas l) = Ok l.
Proof.
  intros Hl Hb. split; [by eapply read_blob|]. apply fromSized_toSized; [done|].
  pose proof (blob_at_bounds _ _ _ Hb) as (? & ? & Hle). destruct Hb as (pre & post & _ & _ & Hs).
  unfold toSizedDeltas in Hs. rewrite lenZ_app in Hs. pose proof out_len.
  pose proof (lenZ_nonneg (PutUvarint (u64 (lenZ l)))). pose proof (length_encodeDeltas 0 l).
  unfold maxCap32, lenZ in *. u32_unfold. lia.
Qed.

Lemma read_marshalled s secs : Forall section_u32 secs → blob_at out s (marshalDocSections secs) →
  readSectionBlob f s = Ok (marshalDocSections secs) ∧ unmarshalDocSections (marshalDocSections secs) = Ok secs.
Proof.
  intros Hs Hb. destruct (read_sized _ _ (sectionInts_u32 secs) Hb) as [Hr Hd]. split; [done|].
  unfold unmarshalDocSections, marshalDocSections. rewrite Hd. cbn [mbind res_bind]. by apply pairSections_ints.
Qed.

Lemma readSized_ok sects ls :
  NoDup sects → Forall2 (λ s l, Forall is_u32 l ∧ blob_at out s (toSizedDeltas l)) sects ls →
  readSized f sects = Ok ls.
Proof.
  intros Hn Hf2. induction Hf2 as [|s l sects ls [Hl Hb] Hf2 IH]; [done|]. apply NoDup_cons in Hn as [Hs Hn].
  cbn [readSized]. rewrite IH by done. cbn [mbind res_bind]. rewrite bool_decide_false by done.
  destruct (read_sized _ _ Hl Hb) as [-> Hd]. cbn [mbind res_bind]. by rewrite Hd.
Qed.
End LoadOk.

(** The file serves the contents [cs] of all documents, and after them [after]. *)
Definition contents_region {F} `{IndexFile F} (d : indexData F) (cs after : bytes) : Prop :=
  ∀ off sz, 0 <= off → 0 <= sz → off + sz <= lenZ (cs ++ after) →
    readContentSlice d off sz = Ok (take (Z.to_nat sz) (drop (Z.to_nat off) (cs ++ after))).

(** What a loaded shard answers for the documents of a builder. *)
Record shard_of {F} `{IndexFile F} (d : indexData F) (b : IndexBuilder) (docs : list Document) : Prop := {
  so_contents : ∀ (i : nat) doc, docs !! i = Some doc → readContents d (Z.of_nat i) = Ok (doc_Content doc);
  so_names : ∀ (i : nat) doc, docs !! i = Some doc → fileName d (Z.of_nat i) = Ok (doc_Name doc);
  so_newlines : ∀ (i : nat) doc, docs !! i = Some doc →
    fst <$> readNewlines d (Z.of_nat i) = Ok (newLinesIndices (doc_Content doc));
  so_sections : ∀ (i : nat) doc, docs !! i = Some doc →
    fst <$> readDocSections d (Z.of_nat i) = Ok (doc_Symbols doc);
  so_checksums : ∀ (i : nat) doc, docs !! i = Some doc →
    getChecksum d (Z.of_nat i) = Ok (crc64.Sum (doc_Content doc));
  so_languages : ∀ (i : nat) doc, docs !! i = Some doc →
    ∃ c, d_languages d !! i = Some c ∧ d_languageMap d !! c = Some (doc_Language doc);
  so_ngrams : ∀ ng, let ps := positions ng (corpus_windows 0 (doc_Content <$> docs)) in
    match d_ngrams d !! ng with
    | Some sec => ps ≠ [] ∧ 0 < s_sz sec ∧ readSectionBlob (d_file d) sec = Ok (encodeDeltas 0 ps)
    | None => ps = []
    end;
  so_nameNgrams : ∀ ng,
    default [] (d_fileNameNgrams d !! ng) = positions ng (corpus_windows 0 (doc_Name <$> docs));
  so_endRunes : d_fileEndRunes d = end_runes 0 (doc_Content <$> docs);
  so_nameEndRunes : d_fileNameEndRunes d = end_runes 0 (doc_Name <$> docs);
  so_runeOffsets : d_runeOffsets d = sampled 0 0 (corpus_sizes (doc_Content <$> docs));
  so_nameRuneOffsets : d_fileNameRuneOffsets d = sampled 0 0 (corpus_sizes (doc_Name <$> docs));
  so_runeDocSections : d_runeDocSections d = b_runeDocSections b;
  so_plain : md_PlainASCII (d_metaData d) = true →
    Forall (λ s, s <= 1) (corpus_sizes (doc_Content <$> docs)) ∧ Forall (λ s, s <= 1) (corpus_sizes (doc_Name <$> docs));
  so_boundaries : d_boundaries d = boundaries_of (doc_Content <$> docs);
  so_nameIndex : d_fileNameIndex d = boundaries_of (doc_Name <$> docs);
  so_nameContent : d_fileNameContent d = mjoin (doc_Name <$> docs);
  so_region : ∃ after, contents_region d (mjoin (doc_Content <$> docs)) after;
  so_masks : d_fileBranchMasks d = b_branchMasks b;
  so_maskCount : lenZ (d_fileBranchMasks d) = lenZ docs;
  so_languageCount : lenZ (d_languages d) = lenZ docs;
  so_subRepos : d_subRepos d = b_subRepos b;
  so_repo : d_repoMetaData d = b_repo b;
  so_builder : builder_ok b docs;
  so_branchIDs : d_branchIDs d = list_to_map (reverse (branchTable (r_Branches (b_repo b))));
  so_languageMap : md_LanguageMap (d_metaData d) = b_languageMap b;
  so_languageCodes : d_languages d = b_languages b;
  so_subRepoPaths : d_subRepoPaths d ≡ₚ (fst <$> map_to_list (default ∅ (r_SubRepoMap (b_repo b))));
  so_count : lenZ docs < 1073741824;
  so_empty : readSectionBlob (d_file d) sec0 = Ok [];
  so_frequencies : ∀ filename vs, NoDup vs → foldr (λ v n, ngramFrequency d v filename + n) 0 vs < maxUInt32 }.

Section Load.
Context `{SortAlg} {F : Type} `{IndexFileOk F}.
Context (unmarshalMetadata : bytes → option IndexMetadata) (unmarshalRepository : bytes → option Repository).

(** The shard that loading a file with this layout gives. *)
Definition loaded (f : F) (toc : indexTOC) (b : IndexBuilder) (now : Z) (version : bytes)
    (ngrams : gmap Z simpleSection) (nameNgrams : gmap Z (list Z)) : indexData F :=
  let branches := branchTable (r_Branches (b_repo b)) in
  MkIndexData F f ngrams
    (s_off (c_data (t_newlines toc))) (boundaries_of ((λ s, toSizedDeltas (newLinesIndices s)) <$> b_contentStrings b))
    (s_off (c_data (t_fileSections toc))) (boundaries_of (marshalDocSections <$> b_docSections b))
    (b_runeDocSections b) (pb_runeOffsets (b_contentPostings b))
    (s_off (c_data (t_fileContents toc))) (boundaries_of (b_contentStrings b)) (pb_endRunes (b_contentPostings b))
    (mjoin (b_nameStrings b)) (if_Spare f (s_off (c_data (t_fileNames toc))) (s_sz (c_data (t_fileNames toc))))
    (boundaries_of (b_nameStrings b)) nameNgrams
    (pb_runeOffsets (b_namePostings b)) (pb_endRunes (b_namePostings b)) (b_branchMasks b)
    (list_to_map (reverse ((λ b, (snd b, fst b)) <$> branches))) (list_to_map (reverse branches))
    (metadata_of b now version) (b_repo b) (b_subRepos b)
    (go_sort string_less (fst <$> map_to_list (default ∅ (r_SubRepoMap (b_repo b)))))
    (b_checksums b) (b_languages b) (list_to_map ((λ kv, (snd kv, fst kv)) <$> map_to_list (b_languageMap b))).

Context (f : F) (out : bytes) (Hf : contents f out).
Context (b : IndexBuilder) (docs : list Document) (Hb : builder_ok b docs) (Hw : builder_words b).
Context (Hc : sum_bytes (doc_Content <$> docs) < two32) (Hn : sum_bytes (doc_Name <$> docs) < two32).
Context (toc : indexTOC) (md repo : bytes) (Hla : layout b out toc md repo).
Context (now : Z) (version : bytes).
Context (Hmd : unmarshalMetadata md = Some (metadata_of b now version)).
Context (Hrepo : unmarshalRepository repo = Some (b_repo b)).

Lemma layout_toc : readTOC f = Ok toc.
Proof.
  destruct (la_toc _ _ _ _ _ Hla) as (body & Hout). destruct Hla. eapply readTOC_ok; [exact Hf|exact Hout|].
  unfold sections. repeat constructor; cbn [section_ok]; solve [by eapply blob_at_sec_ok | by eapply comp_at_ok].
Qed.

Lemma length_boundaries items : items ≠ [] → lenZ (boundaries_of items) = lenZ items + 1.
Proof.
  intros Hne. unfold boundaries_of. destruct items as [|it items]; [done|].
  rewrite lenZ_app. unfold lenZ. rewrite length_item_offsets. simpl. lia.
Qed.

Lemma loaded_verify ngrams nameNgrams : verify (loaded f toc b now version ngrams nameNgrams) = Ok ().
Proof.
  unfold verify, loaded. cbn [d_fileNameIndex d_boundaries d_fileBranchMasks d_docSectionsIndex d_newlinesIndex].
  pose proof (Forall2_length _ _ _ (bo_masks _ _ Hb)) as Hm.
  rewrite (bo_contents _ _ Hb), (bo_names _ _ Hb), (bo_sections _ _ Hb).
  destruct (decide (docs = [])) as [->|Hne]; [done|].
  assert (∀ A B (g : A → B) (h : Document → A), g <$> (h <$> docs) ≠ []) as Hne2.
  { intros ? ? ? ? E%fmap_nil_inv%fmap_nil_inv. done. }
  assert (∀ A (h : Document → A), h <$> docs ≠ []) as Hne1 by (intros ? ? E%fmap_nil_inv; done).
  rewrite !length_boundaries, !lenZ_fmap by done.
  replace (lenZ (b_branchMasks b)) with (lenZ docs) by (unfold lenZ; lia).
  case_match; [done|]. simpl. rewrite !Z.add_simpl_r, Z.eqb_refl. done.
Qed.

(** Loading succeeds. *)
Lemma NewSearcher_loads : ∃ ngrams nameNgrams,
  NewSearcher unmarshalMetadata unmarshalRepository f = Ok (loaded f toc b now version ngrams nameNgrams) ∧
  table_ok (λ ng sec, blob_at out sec (default [] (pb_postings (b_contentPostings b) !! ng)))
    (sorted_keys (b_contentPostings b)) ngrams ∧
  table_ok (λ ng l, l = positions ng (corpus_windows 0 (doc_Name <$> docs))) (sorted_keys (b_namePostings b)) nameNgrams.
Proof.
  pose proof (out_len f out Hf) as Hlen. unfold NewSearcher. rewrite layout_toc. cbn [mbind res_bind]. destruct Hla.
  destruct (readNgrams_ok f out Hf (b_contentPostings b) _ (sorted_keys (b_contentPostings b)) [] ∅
    la_postings0 eq_refl (table_ok_empty _)) as (ngrams & Hng & Hngok).
  destruct (readNameNgrams_ok f out Hf (b_namePostings b) _ (sorted_keys (b_namePostings b)) [] ∅
    (bo_name _ _ Hb) Hn eq_refl (table_ok_empty _)) as (nameNgrams & Hnn & Hnnok).
  rewrite lenZ_nil in Hng, Hnn. exists ngrams, nameNgrams. split; [|done]. unfold readIndexData.
  rewrite (read_blob f out Hf _ _ la_metaData0). cbn [mbind res_bind]. rewrite Hmd. cbn [from_json mbind res_bind].
  change (negb (md_IndexFormatVersion (metadata_of b now version) =? IndexFormatVersion)) with false. cbv iota.
  rewrite (read_blob f out Hf _ _ la_repoMetaData0). cbn [mbind res_bind]. rewrite Hrepo. cbn [from_json mbind res_bind].
  rewrite (read_blob f out Hf _ _ la_checksums0), (read_blob f out Hf _ _ la_languages0),
    (read_blob f out Hf _ _ la_text0). cbn [mbind res_bind].
  assert (∀ pb ds, indexed pb ds → readNgramText (mjoin (PutUint64 <$> sorted_keys pb)) = Ok (sorted_keys pb)) as Htext.
  { intros pb ds Hix. apply (read_words_ok 8); [lia|by eapply indexed_keys_u64|done]. }
  rewrite (Htext _ _ (bo_content _ _ Hb)). cbn [mbind res_bind].
  rewrite !(relativeIndex_at out _ _ Hlen la_postings0), Hng. cbn [mbind res_bind].
  rewrite (readSectionU64_ok f out Hf _ _ (bw_masks _ Hw) la_masks0). cbn [mbind res_bind].
  rewrite (read_blob f out Hf _ _ (proj1 la_names0)), (read_blob f out Hf _ _ la_nameText0),
    (read_blob f out Hf _ _ (proj1 la_namePostings0)). cbn [mbind res_bind].
  rewrite (Htext _ _ (bo_name _ _ Hb)). cbn [mbind res_bind].
  rewrite !(relativeIndex_at out _ _ Hlen la_namePostings0), Hnn. cbn [mbind res_bind].
  destruct (read_marshalled f out Hf _ _ (bw_runes _ Hw) la_runeDocSections0) as [Hr1 Hr2]. rewrite Hr1. cbn [mbind res_bind].
  rewrite Hr2. cbn [mbind res_bind].
  pose proof (bo_content _ _ Hb) as Hcx. pose proof (bo_name _ _ Hb) as Hnx.
  rewrite (readSized_ok f out Hf _ [b_subRepos b; pb_runeOffsets (b_contentPostings b);
    pb_runeOffsets (b_namePostings b); pb_endRunes (b_namePostings b); pb_endRunes (b_contentPostings b)]).
  - cbn [mbind res_bind nth]. rewrite !(relativeIndex_at out _ _ Hlen la_newlines0),
      !(relativeIndex_at out _ _ Hlen la_sections0), !(relativeIndex_at out _ _ Hlen la_contents0),
      !(relativeIndex_at out _ _ Hlen la_names0).
    change (MkIndexData F _ _ _ _ _ _ _ _ _ _ _ _ _ _ _ _ _ _ _ _ _ _ _ _ _ _ _)
      with (loaded f toc b now version ngrams nameNgrams). by rewrite loaded_verify.
  - cbn [fmap list_fmap] in la_order0. repeat (apply StronglySorted_inv in la_order0 as [la_order0 ?]).
    repeat match goal with HF : Forall _ (_ :: _) |- _ => apply Forall_cons in HF as [? ?] end.
    repeat constructor; rewrite ?elem_of_cons, ?elem_of_nil; intros E;
      repeat (destruct E as [E|E]; [apply (f_equal s_off) in E; lia|]); done.
  - repeat constructor; try done.
    + apply Hw.
    + rewrite (ix_runeOffsets _ _ Hcx). by apply corpus_sampled_u32.
    + rewrite (ix_runeOffsets _ _ Hnx). by apply corpus_sampled_u32.
    + rewrite (ix_endRunes _ _ Hnx). by apply end_runes_u32.
    + rewrite (ix_endRunes _ _ Hcx). by apply end_runes_u32.
Qed.
End Load.

(** ** The loaded shard answers for the documents *)

Section Answers.
Context `{SortAlg} {F : Type} `{IndexFileOk F} (f : F) (out : bytes) (Hf : contents f out).

Lemma comp_at_count s items : comp_at out s items → 4 * lenZ items < two32.
Proof.
  intros (_ & Ho & Hi). pose proof (out_len f out Hf). pose proof (blob_at_bounds _ _ _ Hi) as (? & _ & ?).
  destruct Hi as (pre & post & _ & _ & Hs). change (PutUint32 <$> ?l) with (be_split 4 <$> l) in Hs.
  rewrite lenZ_words, Ho in Hs. unfold lenZ in Hs at 1. rewrite length_item_offsets in Hs. unfold lenZ in *. lia.
Qed.

Lemma item_read s items (i : nat) it :
  comp_at out s items → items !! i = Some it →
  ∃ sec, itemSection (s_off (c_data s)) (boundaries_of items) (Z.of_nat i) = Ok sec ∧ blob_at out sec it.
Proof.
  intros Hs Hi. destruct (item_at _ _ _ _ _ (out_len f out Hf) Hs Hi) as (a & b & Ha & Hb & Hblob).
  pose proof (lookup_lt_Some _ _ _ Hi). pose proof (comp_at_count _ _ Hs).
  eexists. split; [|exact Hblob]. unfold itemSection. rewrite (index_nat _ _ _ Ha). cbn [mbind res_bind].
  rewrite (u32_id (Z.of_nat i + 1)) by (unfold lenZ in *; u32_unfold; lia).
  replace (Z.of_nat i + 1) with (Z.of_nat (S i)) by lia. by rewrite (index_nat _ _ _ Hb).
Qed.

Lemma checksum_slice (cs : list bytes) (i : nat) c :
  Forall (λ c, length c = 8%nat) cs → cs !! i = Some c →
  slice (mjoin cs) (8 * Z.of_nat i) (8 * Z.of_nat i + 8) = Ok c.
Proof.
  intros H8 Hi. rewrite (mjoin_split _ _ _ Hi).
  assert (lenZ (mjoin (take i cs)) = 8 * Z.of_nat i) as Hlen.
  { pose proof (lookup_lt_Some _ _ _ Hi) as Hlt. clear Hi. revert i Hlt. induction H8 as [|x cs Hx _ IH]; intros [|i] Hi; simpl in *; try done; [lia|].
    rewrite lenZ_app, IH by lia. unfold lenZ. lia. }
  assert (lenZ c = 8) as Hc8 by (rewrite Forall_lookup in H8; specialize (H8 i c Hi); unfold lenZ; lia).
  pose proof (slice_app (mjoin (take i cs)) c (mjoin (drop (S i) cs))) as Hs. by rewrite Hlen, Hc8 in Hs.
Qed.

(** The language table is inverted. *)
Lemma language_inverse (m : gmap bytes Z) l c :
  (∀ l l' c, m !! l = Some c → m !! l' = Some c → l = l') → m !! l = Some c →
  (list_to_map ((λ kv, (snd kv, fst kv)) <$> map_to_list m) : gmap Z bytes) !! c = Some l.
Proof.
  intros Hinj Hl. apply elem_of_list_to_map_1.
  - rewrite <- list_fmap_compose. apply NoDup_fmap_2_strong; [|apply NoDup_map_to_list].
    intros [l1 c1] [l2 c2] Hm1%elem_of_map_to_list Hm2%elem_of_map_to_list. simpl. intros <-.
    f_equal. eauto.
  - apply list_elem_of_fmap. exists (l, c). split; [done|]. by apply elem_of_map_to_list.
Qed.

Context (b : IndexBuilder) (docs : list Document) (Hb : builder_ok b docs) (Hw : builder_words b).
Context (Hsym : Forall (λ d, Forall section_u32 (doc_Symbols d)) docs).
Context (toc : indexTOC) (md repo : bytes) (Hla : layout b out toc md repo) (now : Z) (version : bytes).
Context (ngrams : gmap Z simpleSection) (nameNgrams : gmap Z (list Z)).
Context (Hng : table_ok (λ ng sec, blob_at out sec (default [] (pb_postings (b_contentPostings b) !! ng)))
    (sorted_keys (b_contentPostings b)) ngrams).
Context (Hnn : table_ok (λ ng l, l = positions ng (corpus_windows 0 (doc_Name <$> docs)))
    (sorted_keys (b_namePostings b)) nameNgrams).
#[local] Abbreviation d := (loaded f toc b now version ngrams nameNgrams).

Lemma loaded_ngrams ng : let ps := positions ng (corpus_windows 0 (doc_Content <$> docs)) in
  match ngrams !! ng with
  | Some sec => ps ≠ [] ∧ 0 < s_sz sec ∧ readSectionBlob f sec = Ok (encodeDeltas 0 ps)
  | None => ps = []
  end.
Proof.
  intros ps. specialize (Hng ng). destruct (ix_postings _ _ (bo_content _ _ Hb) ng) as [Hp _]. fold ps in Hp.
  destruct (ngrams !! ng) as [sec|].
  - destruct Hng as [Hin Hblob]. apply elem_of_sorted_keys in Hin as [blob Hbl]. rewrite Hbl in Hp, Hblob.
    change (default [] (Some blob)) with blob in Hblob.
    destruct ps as [|p ps']; [done|]. injection Hp as ->. split; [done|]. split; [|by eapply read_blob].
    destruct Hblob as (_ & _ & _ & _ & ->).
    pose proof (length_encodeDeltas 0 (p :: ps')) as Hl. cbn [length encodeDeltas] in Hl.
    unfold lenZ. lia.
  - rewrite elem_of_sorted_keys in Hng. destruct ps as [|p ps']; [done|]. exfalso. apply Hng. eauto.
Qed.

Lemma loaded_nameNgrams ng :
  default [] (nameNgrams !! ng) = positions ng (corpus_windows 0 (doc_Name <$> docs)).
Proof.
  specialize (Hnn ng). destruct (ix_postings _ _ (bo_name _ _ Hb) ng) as [Hp _].
  destruct (nameNgrams !! ng); [by destruct Hnn|]. rewrite elem_of_sorted_keys in Hnn.
  destruct (positions ng _); [done|]. exfalso. apply Hnn. eauto.
Qed.

Lemma loaded_content i doc : docs !! i = Some doc → readContents d (Z.of_nat i) = Ok (doc_Content doc).
Proof.
  intros Hi. unfold readContents. destruct (item_read _ _ i (doc_Content doc) (la_contents _ _ _ _ _ Hla)) as (sec & Hs & Hbl).
  { by rewrite (bo_contents _ _ Hb), list_lookup_fmap, Hi. }
  cbn [d_boundariesStart d_boundaries loaded]. rewrite Hs. cbn [mbind res_bind]. by eapply read_blob.
Qed.

Lemma loaded_name i doc : docs !! i = Some doc → fileName d (Z.of_nat i) = Ok (doc_Name doc).
Proof.
  intros Hi. unfold fileName. cbn [d_fileNameIndex d_fileNameContent loaded].
  assert (b_nameStrings b !! i = Some (doc_Name doc)) as Hn by by rewrite (bo_names _ _ Hb), list_lookup_fmap, Hi.
  destruct (boundaries_lookup _ _ _ Hn) as [H3 H4]. rewrite (index_nat _ _ _ H3). cbn [mbind res_bind].
  pose proof (lookup_lt_Some _ _ _ Hn). pose proof (comp_at_count _ _ (la_names _ _ _ _ _ Hla)).
  rewrite (u32_id (Z.of_nat i + 1)) by (unfold lenZ in *; u32_unfold; lia).
  replace (Z.of_nat i + 1) with (Z.of_nat (S i)) by lia. rewrite (index_nat _ _ _ H4). cbn [mbind res_bind].
  pose proof (slice_app (mjoin (take i (b_nameStrings b))) (doc_Name doc) (mjoin (drop (S i) (b_nameStrings b)))) as Hs.
  by rewrite <- (mjoin_split _ _ _ Hn) in Hs.
Qed.

Lemma loaded_newlines i doc : docs !! i = Some doc →
  fst <$> readNewlines d (Z.of_nat i) = Ok (newLinesIndices (doc_Content doc)).
Proof.
  intros Hi. unfold readNewlines.
  destruct (item_read _ _ i (toSizedDeltas (newLinesIndices (doc_Content doc))) (la_newlines _ _ _ _ _ Hla)) as (sec & Hs & Hbl).
  { by rewrite (bo_contents _ _ Hb), !list_lookup_fmap, Hi. }
  cbn [d_newlinesStart d_newlinesIndex loaded]. rewrite Hs. cbn [mbind res_bind].
  destruct (read_sized f out Hf _ _ (newLines_u32 0 _) Hbl) as [Hr1 Hr2]. cbn [d_file loaded]. rewrite Hr1. cbn [mbind res_bind].
  unfold newLinesIndices. by rewrite Hr2.
Qed.

Lemma loaded_sections i doc : docs !! i = Some doc →
  fst <$> readDocSections d (Z.of_nat i) = Ok (doc_Symbols doc).
Proof.
  intros Hi. unfold readDocSections.
  destruct (item_read _ _ i (marshalDocSections (doc_Symbols doc)) (la_sections _ _ _ _ _ Hla)) as (sec & Hs & Hbl).
  { by rewrite (bo_sections _ _ Hb), !list_lookup_fmap, Hi. }
  cbn [d_docSectionsStart d_docSectionsIndex loaded]. rewrite Hs. cbn [mbind res_bind].
  rewrite Forall_lookup in Hsym. destruct (read_marshalled f out Hf _ _ (Hsym i doc Hi) Hbl) as [Hr1 Hr2].
  cbn [d_file loaded]. rewrite Hr1. cbn [mbind res_bind]. by rewrite Hr2.
Qed.

Lemma loaded_checksum i doc : docs !! i = Some doc → getChecksum d (Z.of_nat i) = Ok (crc64.Sum (doc_Content doc)).
Proof.
  intros Hi. unfold getChecksum. cbn [d_checksums loaded]. rewrite (bo_checksums _ _ Hb).
  pose proof (la_checksums _ _ _ _ _ Hla) as Hbl. pose proof (blob_at_bounds _ _ _ Hbl) as (? & _ & Hle).
  assert (((crc64.Sum <$> (doc_Content <$> docs)) !! i) = Some (crc64.Sum (doc_Content doc))) as Hci
    by by rewrite !list_lookup_fmap, Hi.
  assert (Forall (λ c, length c = 8%nat) (crc64.Sum <$> (doc_Content <$> docs))) as H8.
  { rewrite Forall_fmap. apply Forall_true. intros. apply crc64.length_Sum. }
  pose proof (checksum_slice _ _ _ H8 Hci) as Hsl. destruct Hbl as (_ & _ & _ & _ & Hsz).
  rewrite (bo_checksums _ _ Hb) in Hsz. pose proof (out_len f out Hf).
  pose proof Hsl as Hb2. unfold slice in Hb2. case_decide as Hd; [|done]. clear Hb2.
  rewrite !u32_id by (u32_unfold; lia). exact Hsl.
Qed.

(** The posting lists of distinct trigrams lie side by side in the file. *)
Lemma sum_submseteq (g : Z → Z) vs ks :
  (∀ v, 0 <= g v) → vs ⊆+ ks → foldr (λ v n, g v + n) 0 vs <= foldr (λ v n, g v + n) 0 ks.
Proof. intros Hg. induction 1; simpl; try specialize (Hg x); lia. Qed.

Lemma key_blobs_sum pb vs :
  NoDup vs → foldr (λ v n, lenZ (default [] (pb_postings pb !! v)) + n) 0 vs <= lenZ (mjoin (key_blobs pb)).
Proof.
  intros Hvs. set (g := λ v, lenZ (default [] (pb_postings pb !! v))).
  assert (∀ v, 0 <= g v) as Hg by (intros; apply lenZ_nonneg).
  change (foldr (λ v n, g v + n) 0 vs <= lenZ (mjoin (key_blobs pb))).
  assert (lenZ (mjoin (key_blobs pb)) = foldr (λ v n, g v + n) 0 (sorted_keys pb)) as ->.
  { unfold key_blobs. induction (sorted_keys pb) as [|k ks IH]; [done|]. simpl. rewrite lenZ_app. by rewrite <- IH. }
  assert (foldr (λ v n, g v + n) 0 vs = foldr (λ v n, g v + n) 0 (filter (.∈ sorted_keys pb) vs)) as ->.
  { clear Hvs. induction vs as [|v vs IH]; [done|]. rewrite filter_cons. case_decide as Hin; simpl; [by rewrite IH|].
    rewrite elem_of_sorted_keys in Hin. unfold g at 1. destruct (pb_postings pb !! v); [exfalso; eauto|].
    simpl. rewrite lenZ_nil. lia. }
  apply sum_submseteq; [done|]. apply NoDup_submseteq; [by apply NoDup_filter|].
  intros v [Hv _]%list_elem_of_filter. done.
Qed.

Lemma blob_len s bl : blob_at out s bl → lenZ bl < maxUInt32.
Proof.
  intros Hbl. destruct (contents_size f out Hf) as [_ Hl].
  pose proof (blob_at_bounds _ _ _ Hbl). destruct Hbl as (? & ? & _ & _ & <-). lia.
Qed.

Lemma sum_mono (g h : Z → Z) vs :
  (∀ v, g v <= h v) → foldr (λ v n, g v + n) 0 vs <= foldr (λ v n, h v + n) 0 vs.
Proof. intros Hle. induction vs as [|v vs IH]; simpl; [lia|]. specialize (Hle v). lia. Qed.

Lemma loaded_frequencies filename vs :
  NoDup vs → foldr (λ v n, ngramFrequency d v filename + n) 0 vs < maxUInt32.
Proof.
  intros Hvs. set (pb := if filename then b_namePostings b else b_contentPostings b).
  apply Z.le_lt_trans with (lenZ (mjoin (key_blobs pb))).
  - etrans; [|by apply key_blobs_sum]. apply sum_mono. intros v.
    unfold ngramFrequency, pb. destruct filename.
    + change (d_fileNameNgrams d) with nameNgrams. rewrite loaded_nameNgrams.
      destruct (ix_postings _ _ (bo_name _ _ Hb) v) as [-> _].
      set (ps := positions v _). pose proof (length_encodeDeltas 0 ps). pose proof (lenZ_nonneg ps).
      assert (u32 (lenZ ps) <= lenZ ps) by (u32_unfold; apply Z.mod_le; lia).
      destruct ps; [done|]. change (default [] (Some ?x)) with x. unfold lenZ in *. lia.
    + change (d_ngrams d) with ngrams. specialize (Hng v). destruct (ngrams !! v) as [sec|]; simpl.
      * destruct Hng as [_ (_ & _ & _ & _ & ->)]. unfold id. lia.
      * apply lenZ_nonneg.
  - unfold pb. destruct filename; eapply blob_len; [apply (la_namePostings _ _ _ _ _ Hla)|apply (la_postings _ _ _ _ _ Hla)].
Qed.

Lemma loaded_region : ∃ after, contents_region d (mjoin (doc_Content <$> docs)) after.
Proof.
  destruct (la_contents _ _ _ _ _ Hla) as ((pre & post & Hout & Hoff & _) & _). rewrite (bo_contents _ _ Hb) in Hout.
  exists post. intros off sz Ho Hs Hle. unfold readContentSlice, readSectionBlob. cbn [d_boundariesStart d_file loaded s_off s_sz].
  pose proof (out_len f out Hf) as Hlen. pose proof (lenZ_nonneg pre). rewrite Hout, lenZ_app in Hlen.
  rewrite Hoff, u32_id by (u32_unfold; lia). rewrite (contents_read f out) by (done || lia || (rewrite Hout, lenZ_app; lia)).
  rewrite Hout. replace (Z.to_nat (lenZ pre + off)) with (length pre + Z.to_nat off)%nat by (unfold lenZ in *; lia).
  by rewrite drop_app_add.
Qed.

Lemma loaded_shard_of : shard_of d b docs.
Proof.
  pose proof (bo_content _ _ Hb) as Hcx. pose proof (bo_name _ _ Hb) as Hnx.
  split; auto using loaded_content, loaded_name, loaded_newlines, loaded_sections, loaded_checksum,
    loaded_ngrams, loaded_nameNgrams, loaded_frequencies, loaded_region.
  - intros i doc Hi. destruct (Forall2_lookup_l _ _ _ _ _ (bo_languages _ _ Hb) Hi) as (c & Hc & Hl).
    exists c. split; [done|]. apply language_inverse; [apply Hb|done].
  - apply loaded_ngrams.
  - apply (ix_endRunes _ _ Hcx).
  - apply (ix_endRunes _ _ Hnx).
  - apply (ix_runeOffsets _ _ Hcx).
  - apply (ix_runeOffsets _ _ Hnx).
  - cbn [d_metaData loaded md_PlainASCII metadata_of]. rewrite (ix_plain _ _ Hcx), (ix_plain _ _ Hnx), andb_true_iff, !forallb_forall.
    setoid_rewrite Z.leb_le. setoid_rewrite <- list_elem_of_In. rewrite !Forall_forall. tauto.
  - cbn [d_boundaries loaded]. by rewrite (bo_contents _ _ Hb).
  - cbn [d_fileNameIndex loaded]. by rewrite (bo_names _ _ Hb).
  - cbn [d_fileNameContent loaded]. by rewrite (bo_names _ _ Hb).
  - pose proof (Forall2_length _ _ _ (bo_masks _ _ Hb)). unfold lenZ. simpl. lia.
  - pose proof (Forall2_length _ _ _ (bo_languages _ _ Hb)). unfold lenZ. simpl. lia.
  - apply go_sort_perm.
  - pose proof (comp_at_count _ _ (la_contents _ _ _ _ _ Hla)) as Hn. rewrite (bo_contents _ _ Hb), lenZ_fmap in Hn.
    u32_unfold. lia.
  - eapply read_blob; [done|]. by exists [], out.
Qed.
End Answers.

(** ** Properties *)

(** The JSON encoders of a shard are undone by the decoders. *)
Definition json_roundtrip {A} (marshal : A → option bytes) (unmarshal : bytes → option A) : Prop :=
  ∀ x blob, marshal x = Some blob → unmarshal blob = Some x.

Lemma Write_loads `{SortAlg} {F} `{IndexFileOk F} sink validTemplate Rel marshalMetadata marshalRepository
    unmarshalMetadata unmarshalRepository b docs now version w (f : F) :
  (∀ out c, sink out c = (length c, None)) →
  json_roundtrip marshalMetadata unmarshalMetadata → json_roundtrip marshalRepository unmarshalRepository →
  builds validTemplate Rel b docs → Forall (λ d, Forall section_u32 (doc_Symbols d)) docs →
  Write sink marshalMetadata marshalRepository b now version = Ok w → contents f (w_out w) →
  sum_bytes (doc_Content <$> docs) < two32 → sum_bytes (doc_Name <$> docs) < two32 →
  ∃ d, NewSearcher unmarshalMetadata unmarshalRepository f = Ok d ∧ shard_of d b docs ∧ d_file d = f ∧
    d_metaData d = metadata_of b now version.
Proof.
  intros Hsink Hj1 Hj2 Hbuilds Hsym HW Hf Hc Hn.
  pose proof (builds_ok _ _ _ _ Hbuilds Hc Hn) as Hb. pose proof (builds_words _ _ _ _ Hbuilds) as Hw.
  destruct (Write_layout sink Hsink _ _ _ _ _ _ HW (out_len f _ Hf)) as (toc & md & repo & Hmd & Hrepo & Hla).
  destruct (NewSearcher_loads unmarshalMetadata unmarshalRepository f _ Hf b docs Hb Hw Hc Hn toc md repo Hla now version
    (Hj1 _ _ Hmd) (Hj2 _ _ Hrepo)) as (ngrams & nameNgrams & HN & Hng & Hnn).
  eexists. split; [exact HN|]. split_and!; [|done..]. by eapply loaded_shard_of.
Qed.

(** C3: writing and loading a shard is a round trip. For any builder reached by
    calls of Add, the file that Write produces is loaded by NewSearcher, through
    any implementation of IndexFile that serves the file's bytes, into a shard
    that returns for every document its content, name, line index, symbol
    sections, checksum and language, and for every trigram its posting list. *)
Theorem write_load_roundtrip `{SortAlg} {F} `{IndexFileOk F} (sink : bytes → bytes → nat * option string)
    (validTemplate : bytes → bool) (Rel : bytes → bytes → option bytes)
    (marshalMetadata : IndexMetadata → option bytes) (marshalRepository : Repository → option bytes)
    (unmarshalMetadata : bytes → option IndexMetadata) (unmarshalRepository : bytes → option Repository)
    (b : IndexBuilder) (docs : list Document) (now : Z) (version : bytes) (w : writer) (f : F)
    (Hsink : ∀ out c, sink out c = (length c, None))
    (Hj1 : json_roundtrip marshalMetadata unmarshalMetadata)
    (Hj2 : json_roundtrip marshalRepository unmarshalRepository)
    (Hb : builds validTemplate Rel b docs) (Hsym : Forall (λ d, Forall section_u32 (doc_Symbols d)) docs)
    (HW : Write sink marshalMetadata marshalRepository b now version = Ok w) (Hf : contents f (w_out w))
    (Hc : sum_bytes (doc_Content <$> docs) < two32) (Hn : sum_bytes (doc_Name <$> docs) < two32) :
  ∃ d, NewSearcher unmarshalMetadata unmarshalRepository f = Ok d ∧ shard_of d b docs.
Proof.
  destruct (Write_loads sink validTemplate Rel marshalMetadata marshalRepository unmarshalMetadata
    unmarshalRepository b docs now version w f) as (d & HN & Hd & _); try done. by exists d.
Qed.

(** A codec for the metadata of one builder, for the witnesses. *)
#[global] Instance IndexMetadata_eq_dec : EqDecision IndexMetadata.
Proof. solve_decision. Defined.

Definition toyMarshalMetadata (md x : IndexMetadata) : option bytes := if decide (x = md) then Some [1] else None.
Definition toyRepository : Repository := set_SubRepoMap repository0 (Some {[ [] := repository0 ]}).
Definition toyMarshalRepository (r : Repository) : option bytes :=
  match r with
  | MkRepository [] [] [] (Some m) [] [] [] raw 0 =>
    match map_to_list m with
    | [([], MkRepository [] [] [] None [] [] [] raw' 0)] =>
      if decide (raw = ∅ ∧ raw' = ∅) then Some [2] else None
    | _ => None
    end
  | _ => None
  end.

Lemma toyMetadata_ok md : json_roundtrip (toyMarshalMetadata md) (λ _, Some md).
Proof. intros x blob. unfold toyMarshalMetadata. case_decide; [|done]. by intros _; subst. Qed.
Lemma toyRepository_ok : json_roundtrip toyMarshalRepository (λ _, Some toyRepository).
Proof.
  intros [n u br sub c fu l raw rk] blob Hm. unfold toyMarshalRepository in Hm.
  destruct sub as [m|]; [|by repeat (case_match; try done)].
  pose proof (list_to_map_to_list m) as Em. repeat (case_match; try done; simplify_eq).
  all: repeat match goal with E : _ ∧ _ |- _ => destruct E end; subst; done.
Qed.

(** A builder with two documents, and what it writes. *)
Definition toyDoc1 : Document := MkDocument (str "f1") (str "package main") [] [] (str "go") [] [DocSec 8 12].
Definition toyDoc2 : Document := MkDocument (str "f2") (str "int" ++ [10] ++ str "Main()") [] [] (str "c") [] [].
Definition toyBuilder : IndexBuilder :=
  match @NewIndexBuilder merge_sort_alg (λ _, true) None with
  | Ok b => fst (@Add merge_sort_alg (λ _ _, None) (fst (@Add merge_sort_alg (λ _ _, None) b toyDoc1)) toyDoc2)
  | _ => emptyBuilder
  end.
Definition toyDocs : list Document :=
  ([] ++ [@normalizeDoc merge_sort_alg toyDoc1]) ++ [@normalizeDoc merge_sort_alg toyDoc2].
Definition toySink (_ b : bytes) : nat * option string := (length b, None).
Definition toyWrite : res writer :=
  @Write merge_sort_alg toySink (toyMarshalMetadata (metadata_of toyBuilder 0 [])) toyMarshalRepository toyBuilder 0 [].
Definition toyOut : bytes := match toyWrite with Ok w => w_out w | _ => [] end.
Definition toyWriter : writer := match toyWrite with Ok w => w | _ => MkWriter None [] 0 end.

Lemma toyBuilder_builds : @builds merge_sort_alg (λ _, true) (λ _ _, None) toyBuilder toyDocs.
Proof.
  assert (snd (@Add merge_sort_alg (λ _ _, None)
    (match @NewIndexBuilder merge_sort_alg (λ _, true) None with Ok b => b | _ => emptyBuilder end) toyDoc1) = Ok ()) as E1
    by (vm_compute; reflexivity).
  assert (snd (@Add merge_sort_alg (λ _ _, None) (fst (@Add merge_sort_alg (λ _ _, None)
    (match @NewIndexBuilder merge_sort_alg (λ _, true) None with Ok b => b | _ => emptyBuilder end) toyDoc1)) toyDoc2) = Ok ())
    as E2 by (vm_compute; reflexivity).
  eapply builds_add; [eapply builds_add; [by apply (builds_new _ _ None)|]|].
  - rewrite <- E1. apply surjective_pairing.
  - rewrite <- E2. apply surjective_pairing.
Qed.

Lemma toyDocs_u32 : Forall (λ d, Forall section_u32 (doc_Symbols d)) toyDocs.
Proof.
  apply (Forall_fmap doc_Symbols (Forall section_u32)). assert (doc_Symbols <$> toyDocs = [[DocSec 8 12]; []]) as ->
    by (vm_compute; reflexivity).
  repeat constructor; simpl; u32_unfold; lia.
Qed.

Lemma write_load_roundtrip_witness :
  ∃ d, @NewSearcher indexFileFromOS _ merge_sort_alg (λ _, Some (metadata_of toyBuilder 0 [])) (λ _, Some toyRepository)
         (FromOS toyOut) = Ok d ∧ shard_of d toyBuilder toyDocs.
Proof.
  apply (@write_load_roundtrip merge_sort_alg indexFileFromOS _ _ toySink (λ _, true) (λ _ _, None)
    (toyMarshalMetadata (metadata_of toyBuilder 0 [])) toyMarshalRepository _ _ toyBuilder toyDocs 0 [] toyWriter).
  - done.
  - apply toyMetadata_ok.
  - apply toyRepository_ok.
  - apply toyBuilder_builds.
  - apply toyDocs_u32.
  - vm_compute. reflexivity.
  - split; vm_compute; reflexivity.
  - vm_compute. reflexivity.
  - vm_compute. reflexivity.
Defined.

(** The loaded shard of the witnesses. *)
Definition emptyShard : indexData indexFileFromOS :=
  MkIndexData _ (FromOS []) ∅ 0 [] 0 [] [] [] 0 [] [] [] [] [] ∅ [] [] [] ∅ ∅ (MkIndexMetadata 0 0 0 false ∅ []) repository0
    [] [] [] [] ∅.
Definition toyShard : indexData indexFileFromOS :=
  match @NewSearcher indexFileFromOS _ merge_sort_alg (λ _, Some (metadata_of toyBuilder 0 []))
          (λ _, Some toyRepository) (FromOS toyOut) with
  | Ok d => d
  | _ => emptyShard
  end.
