(* ===== verification/IndexSearch.v ===== *)
(** * Searching the index: no match is missed

    The theorem that makes a trigram index usable: for a pattern of at least three
    runes, every place where the pattern occurs is among the candidates that
    [iterateNgrams] yields, whatever pair of trigrams it chooses to look up. *)

From S2P Require Import Prelude GoStd Bits Api HitIter MatchIter Query Section IndexBuilder IndexData Shard.
Import utf8 binary.

Lemma length_windows k rs : lenZ (windows k rs) <= lenZ rs.
Proof.
  revert k. induction rs as [|a rs IH]; intros k; [done|]. destruct rs as [|b [|c rs]]; [done..|].
  change (windows k (a :: b :: c :: rs)) with ((runesToNGram (a, b, c), k) :: windows (k + 1) (b :: c :: rs)).
  specialize (IH (k + 1)). rewrite !lenZ_cons in *. lia.
Qed.
Lemma length_corpus_windows k texts : lenZ (corpus_windows k texts) <= sum_runes texts.
Proof.
  revert k. induction texts as [|t ts IH]; intros k; [done|]. simpl. rewrite lenZ_app.
  specialize (IH (k + RuneCount t)). pose proof (length_windows k (runes t)) as Hw.
  assert (lenZ (runes t) = RuneCount t) as Hr by apply lenZ_fmap. unfold sum_runes in *. simpl. lia.
Qed.

Section Search.
Context {F : Type} `{IndexFile F} `{UnicodeCase}.

(** ** The inverted index of a loaded shard *)

(** [d] indexes [texts], the contents or the names of its documents. *)
Record index_of (d : indexData F) (filename : bool) (texts : list bytes) : Prop := {
  io_len : sum_bytes texts < two32;
  io_count : lenZ texts < 1073741824;
  io_ends : (if filename then d_fileNameEndRunes d else d_fileEndRunes d) = end_runes 0 texts;
  io_postings : ∀ ng, let ps := positions ng (corpus_windows 0 texts) in
    if filename then default [] (d_fileNameNgrams d !! ng) = ps
    else match d_ngrams d !! ng with
         | Some sec => ps ≠ [] ∧ 0 < s_sz sec ∧ readSectionBlob (d_file d) sec = Ok (encodeDeltas 0 ps)
         | None => ps = []
         end;
  io_empty : readSectionBlob (d_file d) sec0 = Ok [];
  io_frequencies : ∀ vs, NoDup vs → foldr (λ v n, ngramFrequency d v filename + n) 0 vs < maxUInt32 }.

Lemma shard_index_of (d : indexData F) b docs (filename : bool) :
  shard_of d b docs →
  sum_bytes ((λ doc, if filename then doc_Name doc else doc_Content doc) <$> docs) < two32 →
  index_of d filename ((λ doc, if filename then doc_Name doc else doc_Content doc) <$> docs).
Proof. intros [] Hlen. split; auto; [by rewrite lenZ_fmap|destruct filename; auto..]. Qed.

Section Index.
Context (d : indexData F) (filename : bool) (texts : list bytes) (Hd : index_of d filename texts).
#[local] Abbreviation hits ng := (positions ng (corpus_windows 0 texts)).

Lemma hits_hitlist ng : hitlist (hits ng).
Proof.
  pose proof (io_len _ _ _ Hd). pose proof (sum_runes_le_bytes texts).
  destruct (positions_hits ng texts) as [Hs Hr]; [lia|]. by split.
Qed.

Lemma ngramFrequency_nonneg v : 0 <= ngramFrequency d v filename.
Proof.
  unfold ngramFrequency. pose proof (io_postings _ _ _ Hd v) as Hp. cbv zeta in Hp.
  destruct filename; [apply u32_range|].
  destruct (d_ngrams d !! v) as [sec|]; simpl; [unfold id; lia|lia].
Qed.

Lemma ngramFrequency_zero v : ngramFrequency d v filename = 0 ↔ hits v = [].
Proof.
  unfold ngramFrequency. pose proof (io_postings _ _ _ Hd v) as Hp. cbv zeta in Hp.
  pose proof (hits_hitlist v) as [Hs Hr].
  destruct filename.
  - rewrite Hp. rewrite u32_id; [split; [|by intros ->]; by destruct (hits v)|].
    pose proof (io_len _ _ _ Hd). pose proof (sum_runes_le_bytes texts).
    assert (lenZ (hits v) <= sum_runes texts); [|pose proof (lenZ_nonneg (hits v)); u32_unfold; lia].
    unfold positions. rewrite lenZ_fmap. pose proof (length_filter (λ w, fst w = v) (corpus_windows 0 texts)).
    pose proof (length_corpus_windows 0 texts). unfold lenZ in *. lia.
  - destruct (d_ngrams d !! v) as [sec|]; simpl.
    + destruct Hp as (Hne & Hsz & _). unfold id. split; [lia|done].
    + by rewrite Hp.
Qed.

(** ** Iterators over a trigram and its case variants *)

Lemma variantIters_ok vs :
  ∃ its ls, variantIters d filename vs = Ok its ∧ Forall2 (rep true) its ls ∧
    ∀ x, x ∈ mjoin ls ↔ ∃ v, v ∈ vs ∧ x ∈ hits v.
Proof.
  induction vs as [|v vs (its & ls & IH & Hr & Hin)].
  { exists [], []. split_and!; [done|constructor|]. set_solver. }
  cbn [variantIters]. pose proof (io_postings _ _ _ Hd v) as Hp. cbv zeta in Hp.
  pose proof (hits_hitlist v) as Hh.
  assert (∀ x k, (x ∈ k ↔ x ∈ hits v) → x ∈ k ++ mjoin ls ↔ ∃ v', v' ∈ v :: vs ∧ x ∈ hits v') as Hext.
  { intros x k Hk. rewrite elem_of_app, Hin, Hk. setoid_rewrite elem_of_cons. naive_solver. }
  destruct filename.
  - rewrite IH, Hp. cbn [mbind res_bind]. destruct (hits v) as [|x t] eqn:E.
    + exists its, ls. split_and!; [done..|]. intros x. by apply (Hext x []).
    + rewrite lenZ_cons. pose proof (lenZ_nonneg t). destruct (Z.ltb_spec 0 (1 + lenZ t)); [|lia].
      exists (inl (InMemory (x :: t) v) :: its), ((x :: t) :: ls). split_and!; [done|by constructor|].
      intros y. by apply (Hext y (x :: t)).
  - destruct (d_ngrams d !! v) as [sec|]; simpl default; unfold id.
    + destruct Hp as (Hne & _ & ->). cbn [mbind res_bind]. destruct (hits v) as [|x t] eqn:E; [done|].
      pose proof (length_encodeDeltas 0 (x :: t)) as Hl. cbn [length] in Hl.
      destruct (Z.ltb_spec 0 (lenZ (encodeDeltas 0 (x :: t)))); [|unfold lenZ in *; lia].
      destruct (newCompressed_rep _ v x t Hh eq_refl) as (i & -> & Hi). cbn [mbind res_bind]. rewrite IH. cbn [mbind res_bind].
      exists (inr i :: its), ((x :: t) :: ls). split_and!; [done|by constructor|].
      intros y. by apply (Hext y (x :: t)).
    + rewrite (io_empty _ _ _ Hd). cbn [mbind res_bind]. rewrite IH, Hp in *.
      exists its, ls. split_and!; [done..|]. intros x. by apply (Hext x []).
Qed.

(** [v] is looked up for [ng]. *)
Definition variant (caseSensitive : bool) (ng v : ngram) : Prop :=
  if caseSensitive then v = ng else case_variant ng v.

Lemma variants_ok (caseSensitive : bool) (ng : ngram) :
  ∃ vs, (if caseSensitive then Ok [ng] else generateCaseNgrams ng) = Ok vs ∧ NoDup vs ∧
    ∀ v, v ∈ vs ↔ variant caseSensitive ng v.
Proof.
  destruct caseSensitive; [|apply generateCaseNgrams_ok].
  exists [ng]. split_and!; [done|apply NoDup_singleton|]. intros v. apply list_elem_of_singleton.
Qed.

(** [l] are the positions of a trigram up to case. *)
Definition hits_of (caseSensitive : bool) (ng : ngram) (l : list Z) : Prop :=
  ∀ x, x ∈ l ↔ ∃ v, variant caseSensitive ng v ∧ x ∈ hits v.

Lemma trigramHitIterator_ok ng caseSensitive :
  ∃ it l, trigramHitIterator d ng caseSensitive filename = Ok it ∧ rep true it l ∧ hits_of caseSensitive ng l.
Proof.
  destruct (variants_ok caseSensitive ng) as (vs & Hvs & _ & Hin). unfold trigramHitIterator. rewrite Hvs.
  cbn [mbind res_bind]. destruct (variantIters_ok vs) as (its & ls & -> & Hr & Hl). cbn [mbind res_bind].
  assert (∀ l, (∀ x, x ∈ l ↔ x ∈ mjoin ls) → hits_of caseSensitive ng l) as Hof.
  { intros l El x. rewrite El, Hl. setoid_rewrite Hin. done. }
  destruct its as [|it [|it' its]].
  1, 3: eexists _, (sorted_set (mjoin ls)); split_and!; [done|by exists ls|]; apply Hof; intros; apply elem_of_sorted_set.
  apply Forall2_cons_inv_l in Hr as (l & ls' & Hi & Hnil%Forall2_nil_inv_l & ->). subst ls'.
  exists (inl it), l. split_and!; [done|done|]. apply Hof. intros x. simpl. by rewrite app_nil_r.
Qed.

Lemma foldl_frequencies (vs : list ngram) acc :
  0 <= acc → acc + foldr (λ v n, ngramFrequency d v filename + n) 0 vs < two32 →
  foldl (λ freq v, freq ⊕ ngramFrequency d v filename) acc vs
  = acc + foldr (λ v n, ngramFrequency d v filename + n) 0 vs.
Proof.
  revert acc. induction vs as [|v vs IH]; intros acc Ha Hlt; simpl in *; [lia|].
  pose proof (ngramFrequency_nonneg v).
  assert (0 <= foldr (λ v n, ngramFrequency d v filename + n) 0 vs).
  { clear -Hd. induction vs as [|v vs IH]; simpl; [lia|]. pose proof (ngramFrequency_nonneg v). lia. }
  rewrite u32_id by (u32_unfold; lia). rewrite IH by lia. lia.
Qed.

Lemma trigramFrequency_ok ng caseSensitive :
  ∃ n, trigramFrequency d ng caseSensitive filename = Ok n ∧ 0 <= n < maxUInt32 ∧
    (n = 0 → ∀ v, variant caseSensitive ng v → hits v = []).
Proof.
  destruct (variants_ok caseSensitive ng) as (vs & Hvs & Hnd & Hin).
  set (total := foldr (λ v n, ngramFrequency d v filename + n) 0 vs).
  pose proof (io_frequencies _ _ _ Hd vs Hnd) as Hmax. fold total in Hmax.
  assert (0 <= total ∧ (total = 0 → ∀ v, v ∈ vs → hits v = [])) as [Hpos Hzero].
  { unfold total. clear -Hd. induction vs as [|v vs [IH1 IH2]]; simpl; [split; [lia|]; set_solver|].
    pose proof (ngramFrequency_nonneg v). split; [lia|]. intros E w [->|Hw]%elem_of_cons; [|apply IH2; [lia|done]].
    apply ngramFrequency_zero. lia. }
  exists total. split; [|split; [lia|intros E v Hv; apply Hzero; [done|by apply Hin]]].
  unfold trigramFrequency. destruct caseSensitive.
  - injection Hvs as <-. unfold total. simpl. f_equal. lia.
  - rewrite Hvs. cbn [mbind res_bind]. rewrite foldl_frequencies; [done|lia|]. fold total. u32_unfold. lia.
Qed.

(** ** Choosing two trigrams *)

Lemma frequencies_ok caseSensitive offs :
  (∃ fs, frequencies d caseSensitive filename offs = Ok (Some fs) ∧ length fs = length offs ∧
     Forall (λ n, 0 < n < maxUInt32) fs) ∨
  (frequencies d caseSensitive filename offs = Ok None ∧
   ∃ o, o ∈ offs ∧ ∀ v, variant caseSensitive (rno_ngram o) v → hits v = []).
Proof.
  induction offs as [|o offs IH]; [left; by exists []|]. cbn [frequencies].
  destruct (trigramFrequency_ok (rno_ngram o) caseSensitive) as (n & -> & Hn & Hz). cbn [mbind res_bind].
  destruct (Z.eqb_spec n 0) as [E|E].
  { right. split; [done|]. exists o. split; [constructor|auto]. }
  destruct IH as [(fs & -> & Hl & Hfs)|(-> & o' & Ho & Hv)]; cbn [mbind res_bind option_map].
  - left. exists (n :: fs). split_and!; [done|simpl; lia|]. constructor; [lia|done].
  - right. split; [done|]. exists o'. split; [by constructor|done].
Qed.

Lemma minarg_range (le : Z → Z → bool) i m j xs :
  0 <= i → i + lenZ xs < two32 → 0 <= j < i ∨ (∃ x t, xs = x :: t ∧ le x m = true) →
  0 <= minarg_loop le i m j xs < i + lenZ xs.
Proof.
  revert i m j. induction xs as [|x xs IH]; intros i m j Hi Hlen Hj; cbn [minarg_loop].
  - rewrite lenZ_nil in *. destruct Hj as [Hj|(? & ? & ? & _)]; [|done]. rewrite u32_id by (u32_unfold; lia). change (lenZ []) with 0. lia.
  - rewrite lenZ_cons in Hlen |- *. destruct (le x m) eqn:E.
    + destruct (IH (i + 1) x i); [lia|lia|left; lia|lia].
    + destruct Hj as [Hj|(? & ? & [= -> ->] & ?)]; [|congruence].
      destruct (IH (i + 1) m j); [lia|lia|left; lia|lia].
Qed.

(** The two lookups are at valid positions of the list of trigrams. *)
Lemma minargs_ok fs :
  fs ≠ [] → lenZ fs < two32 → Forall (λ n, 0 < n < maxUInt32) fs →
  0 <= firstMinarg fs < lenZ fs ∧ 0 <= lastMinarg (<[Z.to_nat (firstMinarg fs) := maxUInt32]> fs) < lenZ fs.
Proof.
  intros Hne Hlen Hfs. destruct fs as [|x t]; [done|]. apply Forall_cons in Hfs as [Hx Ht]. split.
  - apply minarg_range; [lia|lia|]. right. exists x, t. split; [done|]. apply Z.ltb_lt. lia.
  - set (k := Z.to_nat _). unfold lastMinarg.
    replace (lenZ (x :: t)) with (lenZ (<[k := maxUInt32]> (x :: t))) by (unfold lenZ; by rewrite length_insert).
    apply minarg_range; [lia| |].
    + unfold lenZ in *. rewrite length_insert. lia.
    + right. destruct k as [|k]; simpl; eexists _, _; (split; [done|]); apply Z.leb_le; lia.
Qed.

(** ** Occurrences of a pattern *)

Lemma split_at (s : bytes) (k : nat) o :
  Forall is_u8 s → lenZ s < two32 → splitNGrams s !! k = Some o →
  ∃ a b c, runes s !! k = Some a ∧ runes s !! S k = Some b ∧ runes s !! S (S k) = Some c ∧
    rno_ngram o = runesToNGram (a, b, c) ∧ rune3_ok (a, b, c).
Proof.
  intros Hs Hlen. pose proof (lenZ_nonneg s). rewrite splitNGrams_trigrams by (u32_unfold; lia).
  rewrite trigrams_lookup. unfold runes. rewrite !list_lookup_fmap.
  destruct (decode_all s !! k) as [[a sa]|] eqn:Ea; [|done].
  destruct (decode_all s !! S k) as [[b sb]|] eqn:Eb; [|done].
  destruct (decode_all s !! S (S k)) as [[c sc]|] eqn:Ec; [|done].
  intros [= <-]. exists a, b, c. split_and!; [done..|].
  pose proof (decode_range s Hs) as Hr. rewrite Forall_lookup in Hr.
  exact (conj (Hr _ _ Ea) (conj (Hr _ _ Eb) (Hr _ _ Ec))).
Qed.

Lemma split_count (s : bytes) : lenZ s < two32 → (3 <= length (runes s))%nat →
  (length (splitNGrams s) + 2 = length (runes s))%nat.
Proof.
  intros Hlen H3. pose proof (lenZ_nonneg s). rewrite splitNGrams_trigrams by (u32_unfold; lia).
  unfold runes in *. rewrite length_fmap in *. revert H3. generalize 0 at 2. generalize 0.
  induction (decode_all s) as [|[a sa] ds IH]; intros k off H3; [simpl in H3; lia|].
  destruct ds as [|[b sb] [|[c sc] ds]]; [simpl in H3; lia..|].
  destruct ds as [|x ds]; [done|]. specialize (IH (k + 1) (off + sa)). simpl in *. rewrite IH by lia. done.
Qed.

(** [c] is the rune [r] of the pattern, up to case unless the search is case
    sensitive; [pat] occurs in [text] at rune [j]. *)
Definition folds (caseSensitive : bool) (r c : Z) : Prop :=
  if caseSensitive then c = r else ∃ n : nat, c = Nat.iter n SimpleFold r.
Definition match_at (caseSensitive : bool) (pat text : list Z) (j : nat) : Prop :=
  ∀ k r, pat !! k = Some r → ∃ c, text !! (j + k)%nat = Some c ∧ folds caseSensitive r c.

(** Where the pattern occurs, each of its trigrams has a variant. *)
Lemma match_trigram caseSensitive (s t : bytes) (i j k : nat) o :
  Forall is_u8 s → lenZ s < two32 → texts !! i = Some t →
  match_at caseSensitive (runes s) (runes t) j → splitNGrams s !! k = Some o →
  ∃ v, variant caseSensitive (rno_ngram o) v ∧ sum_runes (take i texts) + Z.of_nat (j + k) ∈ hits v.
Proof.
  intros Hs Hlen Ht Hm Ho. destruct (split_at s k o Hs Hlen Ho) as (a & b & c & Ha & Hb & Hc & -> & Hok).
  destruct (Hm _ _ Ha) as (a' & Ha' & Fa), (Hm _ _ Hb) as (b' & Hb' & Fb), (Hm _ _ Hc) as (c' & Hc' & Fc).
  exists (runesToNGram (a', b', c')). split.
  - unfold variant, case_variant, folds in *. destruct caseSensitive; [by subst|].
    rewrite ngramToRunes_runesToNGram by done. destruct Fa as [na ->], Fb as [nb ->], Fc as [nc ->]. by exists na, nb, nc.
  - apply elem_of_positions, elem_of_corpus_windows. exists i, (j + k)%nat. split; [|lia].
    exists t, a', b', c'. rewrite !Nat.add_succ_r in *. done.
Qed.

(** [p] is a place where each trigram of the pattern has a variant. *)
Definition place (q : Substring) (p : Z) : Prop :=
  ∀ k o, splitNGrams (Pattern q) !! k = Some o →
    ∃ v, variant (CaseSensitive q) (rno_ngram o) v ∧ p + Z.of_nat k ∈ hits v.

(** iterateNgrams finds that some trigram does not occur at all, or iterates
    over all places. *)
Lemma iterateNgrams_ok (q : Substring) :
  filename = FileName q → (3 <= length (runes (Pattern q)))%nat →
  sum_bytes texts + lenZ (Pattern q) < maxUInt32 →
  ∃ r, iterateNgrams d q = Ok r ∧
    ((ni_iter r = inl (NoMatch "freq=0") ∧ ∀ p, ¬ place q p) ∨
     ∃ firstI iter l pos, 0 <= firstI ∧ firstI + 3 <= RuneCount (Pattern q) ∧
       ni_iter r = inr (NgramDoc firstI (RuneCount (Pattern q) - firstI) iter (end_runes 0 texts) 0 0) ∧
       rep pos iter l ∧ ∀ p, place q p → p + firstI ∈ l).
Proof.
  intros Efn H3 Hlen. pose proof (sum_bytes_nonneg texts). pose proof (lenZ_nonneg (Pattern q)).
  pose proof (decode_count_le (Pattern q)) as Hrc. fold (RuneCount (Pattern q)) in Hrc.
  assert (length (runes (Pattern q)) = Z.to_nat (RuneCount (Pattern q))) as Hrl
    by (unfold runes, RuneCount, lenZ; rewrite length_fmap; lia).
  pose proof (split_count (Pattern q) ltac:(u32_unfold; lia) H3) as Hcount.
  unfold iterateNgrams. rewrite <- Efn. set (offs := splitNGrams (Pattern q)) in *.
  destruct (frequencies_ok (CaseSensitive q) offs) as [(fs & -> & Hfl & Hfs)|(-> & o & Ho & Hv)]; cbn [mbind res_bind].
  2:{ eexists. split; [done|]. left. split; [done|]. intros p Hp.
      apply list_elem_of_lookup_1 in Ho as [k Hk]. destruct (Hp k o Hk) as (v & Hvar & Hin).
      rewrite (Hv v Hvar) in Hin. by apply not_elem_of_nil in Hin. }
  destruct (minargs_ok fs) as [Hf1 Hl1]; [by destruct fs; [simpl in *; lia|]|unfold lenZ; u32_unfold; lia|done|].
  set (fI := firstMinarg fs) in *. set (lI := lastMinarg _) in *.
  destruct (index_in fs fI) as (f0 & -> & _); [lia|]. cbn [mbind res_bind].
  set (pair := if lI <? fI then (lI, fI) else (fI, lI)).
  assert (0 <= fst pair <= snd pair ∧ snd pair < lenZ offs) as Hpair.
  { assert (lenZ offs = lenZ fs) by (unfold lenZ; lia). unfold pair. destruct (Z.ltb_spec lI fI); simpl; lia. }
  destruct pair as [firstI lastI]. simpl in Hpair. clear fI lI Hf1 Hl1.
  destruct (index_in offs firstI) as (o1 & -> & Ho1); [lia|]. cbn [mbind res_bind].
  destruct (index_in offs lastI) as (o2 & -> & Ho2); [lia|]. cbn [mbind res_bind].
  rewrite (u32_id (RuneCount _)), (u32_id (_ - firstI)), (io_ends _ _ _ Hd) by (u32_unfold; unfold lenZ in *; lia).
  destruct (trigramHitIterator_ok (rno_ngram o1) (CaseSensitive q)) as (i1 & l1 & E1 & R1 & Hits1).
  destruct (trigramHitIterator_ok (rno_ngram o2) (CaseSensitive q)) as (i2 & l2 & E2 & R2 & Hits2).
  assert (∀ p, place q p → p + firstI ∈ l1 ∧ p + lastI ∈ l2) as Hplace.
  { intros p Hp. split; [apply Hits1|apply Hits2].
    - rewrite <- (Z2Nat.id firstI) by lia. by apply Hp.
    - rewrite <- (Z2Nat.id lastI) by lia. by apply Hp. }
  destruct (Z.eqb_spec firstI lastI) as [E|E]; cbn [negb].
  - subst lastI. rewrite E2. cbn [mbind res_bind fmap res_fmap]. eexists. split; [done|]. right.
    exists firstI, (inl i2), l2, true. split_and!; [lia|unfold lenZ in *; lia|done|done|]. intros p Hp. by apply Hplace.
  - unfold newDistanceTrigramIter. rewrite (u32_id (lastI - firstI)) by (u32_unfold; unfold lenZ in *; lia).
    destruct (Z.eqb_spec (lastI - firstI) 0); [lia|]. rewrite E1. cbn [mbind res_bind]. rewrite E2. cbn [mbind res_bind].
    eexists. split; [done|]. right.
    exists firstI, (inr (Distance false (lastI - firstI) i1 i2)), (dist (lastI - firstI) l1 l2), false.
    split_and!; [lia|unfold lenZ in *; lia|done| |].
    + split; [simpl; unfold lenZ in *; u32_unfold; lia|]. exists l1, l2, true, true. split_and!; [|done|done].
      split_and!; [done|done|]. apply Forall_forall. intros p (v & _ & Hp)%Hits1.
      apply elem_of_positions in Hp. pose proof (corpus_windows_range 0 texts) as Hr. rewrite Forall_forall in Hr.
      specialize (Hr _ Hp). simpl in *. pose proof (sum_runes_le_bytes texts). unfold lenZ in *. lia.
    + intros p Hp. apply elem_of_dist. destruct (Hplace p Hp). split; [done|].
      replace (p + firstI + (lastI - firstI)) with (p + lastI) by lia. done.
Qed.

(** ** The candidates of a document *)

Lemma end_runes_lookup k ts (i : nat) t : ts !! i = Some t → end_runes k ts !! i = Some (k + sum_runes (take (S i) ts)).
Proof.
  revert k i. induction ts as [|t' ts IH]; intros k [|i] Ht; simpl in *; [done..| |].
  - unfold sum_runes. simpl. injection Ht as ->. f_equal. lia.
  - rewrite IH by done. unfold sum_runes. simpl. f_equal. lia.
Qed.
Lemma length_end_runes k ts : length (end_runes k ts) = length ts.
Proof. revert k. induction ts; intros; simpl; auto. Qed.

Lemma fileStart_end_runes (i : nat) t :
  texts !! i = Some t → fileStart (end_runes 0 texts) (Z.of_nat i) = Ok (sum_runes (take i texts)).
Proof.
  intros Ht. unfold fileStart. pose proof (lookup_lt_Some _ _ _ Ht). pose proof (io_count _ _ _ Hd).
  destruct i as [|i]; [done|]. destruct (Z.ltb_spec 0 (Z.of_nat (S i))); [|lia].
  destruct (lookup_lt_is_Some_2 texts i) as [t' Ht']; [lia|].
  replace (Z.of_nat (S i) - 1) with (Z.of_nat i) by lia. rewrite (index_nat _ _ _ (end_runes_lookup 0 _ _ _ Ht')). done.
Qed.

Lemma sum_runes_take_S (i : nat) t : texts !! i = Some t →
  sum_runes (take (S i) texts) = sum_runes (take i texts) + lenZ (runes t).
Proof.
  intros Ht. rewrite (take_S_r _ _ _ Ht), sum_runes_app, sum_runes_one. unfold RuneCount, runes. by rewrite lenZ_fmap.
Qed.

(** Every occurrence of the pattern in a document is one of its candidates. *)
Lemma search_complete (q : Substring) :
  filename = FileName q → Forall is_u8 (Pattern q) → (3 <= length (runes (Pattern q)))%nat →
  sum_bytes texts + lenZ (Pattern q) < maxUInt32 →
  ∃ r, iterateNgrams d q = Ok r ∧ ∀ (i : nat) t j, texts !! i = Some t →
    match_at (CaseSensitive q) (runes (Pattern q)) (runes t) j →
    ∃ r1 cs r2, mi_prepare r (Z.of_nat i) = Ok r1 ∧ mi_candidates r1 = Ok (cs, r2) ∧
      ∃ c, c ∈ cs ∧ cm_file c = Z.of_nat i ∧ cm_runeOffset c = Z.of_nat j.
Proof.
  intros Efn Hu8 H3 Hlen. destruct (iterateNgrams_ok q Efn H3 Hlen) as (r & Hr & Hcase).
  pose proof (sum_bytes_nonneg texts) as Hnn. pose proof (lenZ_nonneg (Pattern q)).
  exists r. split; [done|]. intros i t j Ht Hm.
  assert (place q (sum_runes (take i texts) + Z.of_nat j)) as Hp.
  { intros k o Ho. rewrite <- Z.add_assoc, <- Nat2Z.inj_add. eapply match_trigram; try done. u32_unfold. lia. }
  destruct Hcase as [[_ Hno]|(fI & iter & l & pos & Hf0 & Hf3 & Hi & Hrep & Hin)]; [by destruct (Hno _ Hp)|].
  pose proof (lookup_lt_Some _ _ _ Ht) as Hlt. pose proof (io_count _ _ _ Hd) as Hcnt.
  pose proof (sum_runes_take_S i t Ht) as HS. pose proof (sum_runes_nonneg (take i texts)).
  pose proof (decode_count_le (Pattern q)) as Hrc. fold (RuneCount (Pattern q)) in Hrc.
  assert (sum_runes (take (S i) texts) <= sum_bytes texts) as Hle.
  { rewrite <- (take_drop (S i) texts) at 2. rewrite sum_bytes_app. pose proof (sum_runes_le_bytes (take (S i) texts)).
    pose proof (sum_bytes_nonneg (drop (S i) texts)). lia. }
  assert (Z.of_nat j + RuneCount (Pattern q) <= lenZ (runes t)) as Hfit.
  { destruct (lookup_lt_is_Some_2 (runes (Pattern q)) (length (runes (Pattern q)) - 1)) as [x Hx]; [lia|].
    destruct (Hm _ _ Hx) as (c & Hc%lookup_lt_Some & _).
    replace (RuneCount (Pattern q)) with (lenZ (runes (Pattern q))) by apply lenZ_fmap. unfold lenZ. lia. }
  destruct (ngram_candidates_ok (NgramDoc fI (RuneCount (Pattern q) - fI) iter (end_runes 0 texts) 0 0) pos l
    (Z.of_nat i) (sum_runes (take i texts)) (sum_runes (take (S i) texts))) as (i1 & i2 & Hp1 & Hp2 & _);
    cbn [n_iter n_ends n_leftPad n_rightPad].
  - done.
  - unfold lenZ in *. rewrite length_end_runes. u32_unfold. lia.
  - unfold lenZ. rewrite length_end_runes. lia.
  - by eapply fileStart_end_runes.
  - rewrite Nat2Z.id. by rewrite (end_runes_lookup 0 _ _ _ Ht).
  - done.
  - split; [done|]. u32_unfold. lia.
  - split; [lia|]. u32_unfold. lia.
  - exists (set_ni_iter r (inr i1)). eexists _, _. split; [|split].
    + cbn [mi_prepare ngram_results_iter]. rewrite Hi. cbn [mi_prepare sum_match_iter]. rewrite Hp1. done.
    + cbn [mi_candidates ngram_results_iter]. unfold ngramResults_candidates. cbn [ni_iter set_ni_iter].
      cbn [mi_candidates sum_match_iter]. rewrite Hp2. cbn [mbind res_bind]. reflexivity.
    + exists (stamp (set_ni_iter r (inr i1)) (new_candidate (Z.of_nat i) (Z.of_nat j))). split; [|done].
      apply list_elem_of_fmap. eexists. split; [done|]. unfold doc_candidates. apply list_elem_of_fmap.
      exists (sum_runes (take i texts) + Z.of_nat j + fI). split; [f_equal; cbn [n_leftPad]; lia|].
      apply list_elem_of_filter. split; [|by apply Hin]. unfold fits. cbn [n_leftPad n_rightPad]. lia.
Qed.
End Index.
End Search.

(** ** Properties *)

(** The text of a document that a substring query searches. *)
Definition searched (q : Substring) (doc : Document) : bytes := if FileName q then doc_Name doc else doc_Content doc.

(** C4: the index misses no match. Write the documents of a builder to a file
    and load it: for a substring query of at least three runes, over file names or
    contents and with or without case, iterateNgrams returns an iterator whose
    candidates in a document include every rune offset where the pattern
    occurs. *)
Theorem index_search_complete `{SortAlg} `{UnicodeCase} {F} `{IndexFileOk F}
    (sink : bytes → bytes → nat * option string)
    (validTemplate : bytes → bool) (Rel : bytes → bytes → option bytes)
    (marshalMetadata : IndexMetadata → option bytes) (marshalRepository : Repository → option bytes)
    (unmarshalMetadata : bytes → option IndexMetadata) (unmarshalRepository : bytes → option Repository)
    (b : IndexBuilder) (docs : list Document) (now : Z) (version : bytes) (w : writer) (f : F) (q : Substring)
    (Hsink : ∀ out c, sink out c = (length c, None))
    (Hj1 : json_roundtrip marshalMetadata unmarshalMetadata)
    (Hj2 : json_roundtrip marshalRepository unmarshalRepository)
    (Hb : builds validTemplate Rel b docs) (Hsym : Forall (λ d, Forall section_u32 (doc_Symbols d)) docs)
    (HW : Write sink marshalMetadata marshalRepository b now version = Ok w) (Hf : contents f (w_out w))
    (Hc : sum_bytes (doc_Content <$> docs) + lenZ (Pattern q) < maxUInt32)
    (Hn : sum_bytes (doc_Name <$> docs) + lenZ (Pattern q) < maxUInt32)
    (Hu8 : Forall is_u8 (Pattern q)) (H3 : (3 <= length (runes (Pattern q)))%nat) :
  ∃ d r, NewSearcher unmarshalMetadata unmarshalRepository f = Ok d ∧ iterateNgrams d q = Ok r ∧
    ∀ (i : nat) doc (j : nat), docs !! i = Some doc →
      match_at (CaseSensitive q) (runes (Pattern q)) (runes (searched q doc)) j →
      ∃ r1 cs r2, mi_prepare r (Z.of_nat i) = Ok r1 ∧ mi_candidates r1 = Ok (cs, r2) ∧
        ∃ c, c ∈ cs ∧ cm_file c = Z.of_nat i ∧ cm_runeOffset c = Z.of_nat j.
Proof.
  pose proof (lenZ_nonneg (Pattern q)).
  destruct (Write_loads sink validTemplate Rel marshalMetadata marshalRepository unmarshalMetadata
    unmarshalRepository b docs now version w f) as (d & HN & Hd & _); try done; [u32_unfold; lia..|].
  set (texts := (λ doc, if FileName q then doc_Name doc else doc_Content doc) <$> docs).
  assert (sum_bytes texts + lenZ (Pattern q) < maxUInt32) as Hlen by (unfold texts; by destruct (FileName q)).
  pose proof (shard_index_of d b docs (FileName q) Hd ltac:(fold texts; u32_unfold; lia)) as Hix.
  destruct (search_complete d (FileName q) texts Hix q eq_refl Hu8 H3 Hlen) as (r & Hr & Hall).
  exists d, r. split_and!; [done..|]. intros i doc j Hi Hm. apply (Hall i (searched q doc) j); [|done].
  unfold texts. by rewrite list_lookup_fmap, Hi.
Qed.

(** Witness: the pattern "main", in any case, in the second document. *)
Lemma index_search_complete_witness :
  ∃ d r, @NewSearcher indexFileFromOS _ merge_sort_alg (λ _, Some (metadata_of toyBuilder 0 []))
           (λ _, Some toyRepository) (FromOS toyOut) = Ok d ∧
    @iterateNgrams _ _ unicode_latin d (MkSubstring (str "main") false false true) = Ok r ∧
    ∃ r1 cs r2, mi_prepare r 1 = Ok r1 ∧ mi_candidates r1 = Ok (cs, r2) ∧
      ∃ c, c ∈ cs ∧ cm_file c = 1 ∧ cm_runeOffset c = 4.
Proof.
  destruct (@index_search_complete merge_sort_alg unicode_latin indexFileFromOS _ _ toySink (λ _, true) (λ _ _, None)
    (toyMarshalMetadata (metadata_of toyBuilder 0 [])) toyMarshalRepository
    (λ _, Some (metadata_of toyBuilder 0 [])) (λ _, Some toyRepository) toyBuilder toyDocs 0 [] toyWriter
    (FromOS toyOut) (MkSubstring (str "main") false false true)) as (d & r & HN & Hr & Hall).
  - done.
  - apply toyMetadata_ok.
  - apply toyRepository_ok.
  - apply toyBuilder_builds.
  - apply toyDocs_u32.
  - vm_compute. reflexivity.
  - split; vm_compute; reflexivity.
  - vm_compute. reflexivity.
  - vm_compute. reflexivity.
  - repeat constructor; lia.
  - vm_compute. lia.
  - exists d, r. split_and!; [done..|].
    assert (toyDocs !! 1%nat = Some (@normalizeDoc merge_sort_alg toyDoc2)) as Hdoc by reflexivity.
    specialize (Hall 1%nat _ 4%nat Hdoc). change (Z.of_nat 1) with 1 in Hall. change (Z.of_nat 4) with 4 in Hall.
    apply Hall. clear Hall.
    assert (runes (searched (MkSubstring (str "main") false false true) (@normalizeDoc merge_sort_alg toyDoc2))
      = [105; 110; 116; 10; 77; 97; 105; 110; 40; 41]) as -> by (vm_compute; reflexivity).
    change (CaseSensitive (MkSubstring (str "main") false false true)) with false.
    assert (runes (Pattern (MkSubstring (str "main") false false true)) = [109; 97; 105; 110]) as -> by (vm_compute; reflexivity).
    clear. intros [|[|[|[|k]]]] c Hk; simpl in Hk; [injection Hk as <-..|by destruct k].
    + exists 77. split; [done|]. by exists 1%nat.
    + exists 97. split; [done|]. by exists 0%nat.
    + exists 105. split; [done|]. by exists 0%nat.
    + exists 110. split; [done|]. by exists 0%nat.
Defined.
