(* ===== verification/Content.v ===== *)
(** * contentprovider.go: the current document of a search

    The contentProvider caches the contents, line index and symbols of one
    document, translates rune offsets to byte offsets, and turns candidate
    matches into scored lines. *)

From Stdlib Require Import SpecFloat.
From S2P Require Import Prelude GoStd Bits Api HitIter MatchIter Query Section IndexBuilder IndexData.
Import utf8 binary.

(** ** State *)

(** [cp__nl], [cp__sects] and [cp__data] are [None] for nil; of the buffers that
    are reused from document to document only whether they are nil matters. The
    counters of [stats] are shared with the search. *)
Record contentProvider := CP {
  cp_stats : Stats;
  cp_err : option string;
  cp_idx : Z;
  cp__data : option bytes;
  cp__nl : option (list Z);
  cp__nlBuf : bool;
  cp__sects : option (list DocumentSection);
  cp__sectBuf : bool;
  cp_fileSize : Z }.

Definition newContentProvider (s : Stats) : contentProvider := CP s None 0 None None false None false 0.

Definition set_cp_stats (p : contentProvider) (s : Stats) : contentProvider :=
  CP s (cp_err p) (cp_idx p) (cp__data p) (cp__nl p) (cp__nlBuf p) (cp__sects p) (cp__sectBuf p) (cp_fileSize p).
Definition set_cp_err (p : contentProvider) (e : option string) : contentProvider :=
  CP (cp_stats p) e (cp_idx p) (cp__data p) (cp__nl p) (cp__nlBuf p) (cp__sects p) (cp__sectBuf p) (cp_fileSize p).

(** The error of a call is stored in a variable. *)
Definition caught {A} (m : res A) : res (A + string) :=
  match m with
  | Ok a => Ok (inl a)
  | Err e => Ok (inr e)
  | Panic w => Panic w
  | OutOfFuel => OutOfFuel
  end.

(** A list decoded into a buffer is nil when it is empty and the buffer is nil. *)
Definition nilable {A} (buf : bool) (l : list A) : option (list A) :=
  match l with [] => if buf then Some [] else None | _ => Some l end.

Section Provider.
Context {F : Type} `{IndexFile F} (id : indexData F).

Definition setDocument (p : contentProvider) (docID : Z) : res contentProvider :=
  fileStart ← index (d_boundaries id) docID;
  fileEnd ← index (d_boundaries id) (docID ⊕ 1);
  Ok (CP (cp_stats p) (cp_err p) docID None None (cp__nlBuf p) None (cp__sectBuf p) (fileEnd ⊖ fileStart)).

Definition docSections (p : contentProvider) : res (list DocumentSection * contentProvider) :=
  match cp__sects p with
  | Some s => Ok (s, p)
  | None =>
    r ← caught (readDocSections id (cp_idx p));
    let '(sects, sz, err) :=
      match r with
      | inl (secs, sz) => (nilable (cp__sectBuf p) secs, sz, None)
      | inr e => (None, 0, Some e)
      end in
    Ok (default [] sects,
        CP (add_ContentBytesLoaded sz (cp_stats p)) err (cp_idx p) (cp__data p) (cp__nl p) (cp__nlBuf p)
           sects (bool_decide (is_Some sects)) (cp_fileSize p))
  end.

Definition newlines (p : contentProvider) : res (list Z * contentProvider) :=
  match cp__nl p with
  | Some nl => Ok (nl, p)
  | None =>
    r ← caught (readNewlines id (cp_idx p));
    let '(nl, sz, err) :=
      match r with
      | inl (nl, sz) => (nilable (cp__nlBuf p) nl, sz, None)
      | inr e => (None, 0, Some e)
      end in
    Ok (default [] nl,
        CP (add_ContentBytesLoaded sz (cp_stats p)) err (cp_idx p) (cp__data p) nl (bool_decide (is_Some nl))
           (cp__sects p) (cp__sectBuf p) (cp_fileSize p))
  end.

(** The bytes of the document's name or contents, and what its backing array
    holds after them. *)
Definition data (p : contentProvider) (fileName : bool) : res (bytes * bytes * contentProvider) :=
  if fileName then
    a ← index (d_fileNameIndex id) (cp_idx p);
    b ← index (d_fileNameIndex id) (cp_idx p ⊕ 1);
    name ← slice (d_fileNameContent id) a b;
    Ok (name, drop (Z.to_nat b) (d_fileNameContent id) ++ d_fileNameSpare id, p)
  else
    sec ← itemSection (d_boundariesStart id) (d_boundaries id) (cp_idx p);
    let spare := if_Spare (d_file id) (s_off sec) (s_sz sec) in
    match cp__data p with
    | Some c => Ok (c, spare, p)
    | None =>
      r ← caught (readContents id (cp_idx p));
      let '(c, err) := match r with inl c => (Some c, None) | inr e => (None, Some e) end in
      let stats := add_ContentBytesLoaded (lenZ (default [] c)) (add_FilesLoaded 1 (cp_stats p)) in
      Ok (default [] c, spare,
          CP stats err (cp_idx p) c (cp__nl p) (cp__nlBuf p) (cp__sects p) (cp__sectBuf p) (cp_fileSize p))
    end.

(** ** Rune offsets *)

(** The loop of findOffset: walk over [lft] runes. *)
Fixpoint skip_runes (lft : nat) (byteOff : Z) (data : bytes) : res Z :=
  match lft with
  | O => Ok byteOff
  | S lft =>
    let '(_, sz) := DecodeRune data in
    data ← slice_from data sz;
    skip_runes lft (byteOff ⊕ u32 sz) data
  end.

Definition findOffset (p : contentProvider) (filename : bool) (r : Z) : res (Z * contentProvider) :=
  if md_PlainASCII (d_metaData id) then Ok (r, p)
  else
    contentStart ← index (d_boundaries id) (cp_idx p);
    fileStartByte ← (if filename then index (d_fileNameIndex id) (cp_idx p) else Ok contentStart);
    let sample := if filename then d_fileNameRuneOffsets id else d_runeOffsets id in
    let runeEnds := if filename then d_fileNameEndRunes id else d_fileEndRunes id in
    absR ← (if 0 <? cp_idx p then e ← index runeEnds (cp_idx p ⊖ 1); Ok (r ⊕ e) else Ok r);
    byteOff ← index sample (absR / runeOffsetFrequency);
    let lft := Z.to_nat (absR mod runeOffsetFrequency) in
    if filename then
      data ← slice_from (d_fileNameContent id) byteOff;
      off ← skip_runes lft byteOff data;
      Ok (off ⊖ fileStartByte, p)
    else
      r ← caught (readContentSlice id byteOff (3 * runeOffsetFrequency));
      match r with
      | inr e => Ok (0, set_cp_err p (Some e))
      | inl data =>
        off ← skip_runes lft byteOff data;
        Ok (off ⊖ fileStartByte, set_cp_err p None)
      end.

(** ** Scores *)

Definition scorePartialWordMatch : float64 := float_of_Z 50.
Definition scoreWordMatch : float64 := float_of_Z 500.
Definition scoreImportantThreshold : float64 := float_of_Z 2000.
Definition scorePartialSymbol : float64 := float_of_Z 4000.
Definition scoreSymbol : float64 := float_of_Z 7000.
Definition scoreFactorAtomMatch : float64 := float_of_Z 400.
Definition scoreShardRankFactor : float64 := float_of_Z 20.
Definition scoreFileOrderFactor : float64 := float_of_Z 10.
Definition scoreLineOrderFactor : float64 := float_of_Z 1.

Definition findSection (secs : list DocumentSection) (off sz : Z) : option DocumentSection :=
  let at_ i := nth (Z.to_nat i) secs (DocSec 0 0) in
  let j := Search (lenZ secs) (λ i, off ⊕ sz <=? End (at_ i)) in
  if j =? lenZ secs then None
  else if (Start (at_ j) <=? off) && (off ⊕ sz <=? End (at_ j)) then Some (at_ j) else None.

(** Whether the bytes before and at [i] are of different classes. *)
Definition classBoundary (line : bytes) (i : Z) : res bool :=
  a ← index line (i - 1);
  b ← index line i;
  Ok (negb (byteClass a =? byteClass b)).

Definition fragmentScore (secs : list DocumentSection) (line : bytes) (f : LineFragmentMatch) : res float64 :=
  let lo := lf_LineOffset f in
  startBoundary ←
    (if lo <? lenZ line then if lo =? 0 then Ok true else classBoundary line lo else Ok false);
  let end_ := lo + lf_MatchLength f in
  endBoundary ←
    (if 0 <? end_ then if end_ =? lenZ line then Ok true else classBoundary line end_ else Ok false);
  let score :=
    if startBoundary && endBoundary then scoreWordMatch
    else if startBoundary || endBoundary then scorePartialWordMatch
    else float_of_Z 0 in
  match findSection secs (lf_Offset f) (u32 (lf_MatchLength f)) with
  | None => Ok score
  | Some sec =>
    let startMatch := Start sec =? lf_Offset f in
    let endMatch := End sec =? lf_Offset f ⊕ u32 (lf_MatchLength f) in
    Ok (fadd score
          (if startMatch && endMatch then scoreSymbol
           else if startMatch || endMatch then fdiv (fadd scoreSymbol scorePartialSymbol) (float_of_Z 2)
           else scorePartialSymbol))
  end.

Fixpoint maxScore_loop (secs : list DocumentSection) (line : bytes) (fs : list LineFragmentMatch)
    (maxScore : float64) : res float64 :=
  match fs with
  | [] => Ok maxScore
  | f :: fs =>
    score ← fragmentScore secs line f;
    maxScore_loop secs line fs (if fgt score maxScore then score else maxScore)
  end.

Definition matchScore (secs : list DocumentSection) (m : LineMatch) : res float64 :=
  maxScore_loop secs (lm_Line m) (lm_LineFragments m) (float_of_Z 0).

(** ** Lines *)

(** The candidates that start up to [lineEnd], the rest, and the end of the last
    one. *)
Fixpoint takeLine (lineEnd : Z) (ms : list candidateMatch) (endMatch : Z)
    : list candidateMatch * list candidateMatch * Z :=
  match ms with
  | m :: rest =>
    if cm_byteOffset m <=? lineEnd then
      let '(lineCands, ms, endMatch) := takeLine lineEnd rest (cm_byteOffset m ⊕ cm_byteMatchSz m) in
      (m :: lineCands, ms, endMatch)
    else ([], ms, endMatch)
  | [] => ([], [], endMatch)
  end.

(** Take lines until the last match is passed. *)
Fixpoint extendLine (fuel : nat) (data : bytes) (endMatch lineEnd : Z) : res Z :=
  if (lineEnd <? lenZ data) && (u32 lineEnd <? endMatch) then
    match fuel with
    | O => OutOfFuel
    | S fuel =>
      rest ← slice_from data (lineEnd + 1);
      let next := IndexByte rest 10 in
      extendLine fuel data endMatch (if next =? -1 then lenZ data else lineEnd + (next + 1))
    end
  else Ok lineEnd.

Definition contentFragment (lineStart : Z) (m : candidateMatch) : LineFragmentMatch :=
  MkLineFragment (cm_byteOffset m - lineStart) (cm_byteOffset m) (cm_byteMatchSz m).

Fixpoint fillContent_loop (fuel : nat) (p : contentProvider) (ms : list candidateMatch)
    : res (list LineMatch * contentProvider) :=
  match ms with
  | [] => Ok ([], p)
  | m :: _ =>
    match fuel with
    | O => OutOfFuel
    | S fuel =>
      '(nl, p) ← newlines p;
      let '(num, lineStart, lineEnd) := line m nl (cp_fileSize p) in
      let '(lineCands, ms, endMatch) := takeLine lineEnd ms (cm_byteOffset m ⊕ cm_byteMatchSz m) in
      match lineCands with
      | [] => Panic "infinite loop"
      | _ =>
        '(c, _, p) ← data p false;
        lineEnd ← extendLine (length c) c endMatch lineEnd;
        ln ← slice c lineStart lineEnd;
        let finalMatch := MkLineMatch ln lineStart lineEnd num false (float_of_Z 0)
                            (map (contentFragment lineStart) lineCands) in
        '(result, p) ← fillContent_loop fuel p ms;
        Ok (finalMatch :: result, p)
      end
    end
  end.

Definition fillContentMatches (p : contentProvider) (ms : list candidateMatch)
    : res (list LineMatch * contentProvider) :=
  fillContent_loop (length ms) p ms.

Definition nameFragment (m : candidateMatch) : LineFragmentMatch :=
  MkLineFragment (cm_byteOffset m) (cm_byteOffset m) (cm_byteMatchSz m).

Definition set_lm_Score (m : LineMatch) (s : float64) : LineMatch :=
  MkLineMatch (lm_Line m) (lm_LineStart m) (lm_LineEnd m) (lm_LineNumber m) (lm_FileName m) s (lm_LineFragments m).

Fixpoint setScores (sects : list DocumentSection) (result : list LineMatch) : res (list LineMatch) :=
  match result with
  | [] => Ok []
  | m :: result =>
    s ← matchScore sects m;
    rest ← setScores sects result;
    Ok (set_lm_Score m s :: rest)
  end.

Definition fillMatches (p : contentProvider) (ms : list candidateMatch)
    : res (list LineMatch * contentProvider) :=
  first ← index ms 0;
  '(result, p) ←
    (if cm_fileName first then
       name ← fileName id (cp_idx p);
       Ok ([MkLineMatch name 0 0 0 true (float_of_Z 0) (map nameFragment ms)], p)
     else fillContentMatches p ms);
  '(sects, p) ← docSections p;
  result ← setScores sects result;
  Ok (result, p).
End Provider.

Definition sortMatchesByScore `{SortAlg} (ms : list LineMatch) : list LineMatch :=
  go_sort (λ a b, fgt (lm_Score a) (lm_Score b)) ms.
Definition SortFilesByScore `{SortAlg} (ms : list FileMatch) : list FileMatch :=
  go_sort (λ a b, fgt (fm_Score a) (fm_Score b)) ms.
