(* ===== verification/MatchTree.v ===== *)
(** * matchtree.go: evaluating a query on the documents of a shard

    A [matchTree] is a query prepared for one shard: it proposes documents
    ([nextDoc]), is set to one ([prepare]) and decides in rounds of growing cost
    whether it matches ([matches]). *)

From S2P Require Import Prelude GoStd Bits Api HitIter MatchIter Query Section IndexBuilder IndexData Content.
Import utf8 binary.

(** ** package regexp

    [Compile] is [None] where MustCompile panics. *)
Class RegexpEngine := {
  regexp : Type;
  Compile : bytes → option regexp;
  FindAllIndex : regexp → bytes → list (Z * Z) }.

(** The bytes that QuoteMeta escapes: \.+*?()|[]{}^$ *)
Definition special : bytes := [92; 46; 43; 42; 63; 40; 41; 124; 91; 93; 123; 125; 94; 36].
Definition QuoteMeta (s : bytes) : bytes := c ← s; if decide (c ∈ special) then [92; c] else [c].

Definition MustCompile `{RegexpEngine} (s : bytes) : res regexp :=
  match Compile s with Some r => Ok r | None => Panic "regexp: Compile" end.

(** ** Trees *)

Definition costConst : Z := 0.
Definition costMemory : Z := 1.
Definition costContent : Z := 2.
Definition costRegexp : Z := 3.
Definition costMin : Z := costConst.
Definition costMax : Z := costRegexp.

(** The iterator of a substring node: candidates from trigrams, possibly trimmed
    to symbol sections. *)
Abbreviation substrIterator := (ngramIterationResults + trimBySectionMatchIter ngramIterationResults)%type.

(** Trees are compared by pointer in the source, as keys of [known]: every node
    has an identity [id]. *)
Inductive matchTree `{RegexpEngine} :=
| docMatchTree (id : nat) (docs current : list Z)
| bruteForceMatchTree (id : nat) (firstDone : bool) (docID : Z)
| andMatchTree (id : nat) (children : list matchTree)
| orMatchTree (id : nat) (children : list matchTree)
| notMatchTree (id : nat) (child : matchTree)
| noVisitMatchTree (id : nat) (child : matchTree)
| regexpMatchTree (id : nat) (re : regexp) (fileName reEvaluated : bool) (found : list candidateMatch)
    (firstDone : bool) (docID : Z)
| substrMatchTree (id : nat) (iter : substrIterator) (query : Substring) (caseSensitive fileName : bool)
    (current : list candidateMatch) (contEvaluated : bool)
| branchQueryMatchTree (id : nat) (fileMasks : list Z) (mask : Z) (firstDone : bool) (docID : Z)
| noMatchTree_ (id : nat) (t : noMatchTree).

Definition mt_id `{RegexpEngine} (t : matchTree) : nat :=
  match t with
  | docMatchTree id _ _ | bruteForceMatchTree id _ _ | andMatchTree id _ | orMatchTree id _
  | notMatchTree id _ | noVisitMatchTree id _ | regexpMatchTree id _ _ _ _ _ _
  | substrMatchTree id _ _ _ _ _ _ | branchQueryMatchTree id _ _ _ _ | noMatchTree_ id _ => id
  end.

Section Iteration.
Context `{RegexpEngine}.

(** ** updateStats *)

Fixpoint mt_updateStats (t : matchTree) (s : Stats) : Stats :=
  match t with
  | andMatchTree _ children | orMatchTree _ children => foldl (λ s c, mt_updateStats c s) s children
  | notMatchTree _ child | noVisitMatchTree _ child => mt_updateStats child s
  | substrMatchTree _ iter _ _ _ _ _ => mi_updateStats iter s
  | _ => s
  end.

(** ** prepare *)

(** docMatchTree: drop the documents before [doc], and split off [doc]. *)
Fixpoint dropDocs (doc : Z) (docs : list Z) : list Z :=
  match docs with
  | x :: rest => if x <? doc then dropDocs doc rest else docs
  | [] => []
  end.
Fixpoint splitDocs (doc : Z) (docs : list Z) : list Z * list Z :=
  match docs with
  | x :: rest => if x =? doc then let '(cur, rest) := splitDocs doc rest in (x :: cur, rest) else ([], docs)
  | [] => ([], [])
  end.

Definition prepareAll (prepare : matchTree → Z → res matchTree) (doc : Z) :=
  fix go (children : list matchTree) : res (list matchTree) :=
    match children with
    | [] => Ok []
    | c :: children => c ← prepare c doc; cs ← go children; Ok (c :: cs)
    end.

Fixpoint mt_prepare (t : matchTree) (doc : Z) : res matchTree :=
  match t with
  | docMatchTree id docs _ => let '(current, docs) := splitDocs doc (dropDocs doc docs) in Ok (docMatchTree id docs current)
  | bruteForceMatchTree id _ _ => Ok (bruteForceMatchTree id true doc)
  | andMatchTree id children => cs ← prepareAll mt_prepare doc children; Ok (andMatchTree id cs)
  | orMatchTree id children => cs ← prepareAll mt_prepare doc children; Ok (orMatchTree id cs)
  | notMatchTree id child => c ← mt_prepare child doc; Ok (notMatchTree id c)
  | noVisitMatchTree id child => c ← mt_prepare child doc; Ok (noVisitMatchTree id c)
  | regexpMatchTree id re fileName _ _ _ _ => Ok (regexpMatchTree id re fileName false [] true doc)
  | substrMatchTree id iter q cs fileName _ _ =>
    iter ← mi_prepare iter doc;
    '(current, iter) ← mi_candidates iter;
    Ok (substrMatchTree id iter q cs fileName current false)
  | branchQueryMatchTree id fileMasks mask _ _ => Ok (branchQueryMatchTree id fileMasks mask true doc)
  | noMatchTree_ id t => Ok (noMatchTree_ id t)
  end.

(** ** nextDoc *)

(** The first document from [i] on whose mask meets [mask]. *)
Fixpoint nextBranchDoc (i : Z) (mask : Z) (fileMasks : list Z) : Z :=
  match fileMasks with
  | [] => maxUInt32
  | m :: fileMasks => if negb (Z.land mask m =? 0) then i else nextBranchDoc (i + 1) mask fileMasks
  end.

(** The best proposal of the children: the largest for a conjunction, the smallest
    for a disjunction. *)
Definition nextAll (nextDoc : matchTree → res (Z * matchTree)) (better : Z → Z → bool) :=
  fix go (best : Z) (children : list matchTree) : res (Z * list matchTree) :=
    match children with
    | [] => Ok (best, [])
    | c :: children =>
      '(m, c) ← nextDoc c;
      '(best, cs) ← go (if better m best then m else best) children;
      Ok (best, c :: cs)
    end.

Fixpoint mt_nextDoc (t : matchTree) : res (Z * matchTree) :=
  match t with
  | docMatchTree id docs current => Ok (match docs with [] => maxUInt32 | d :: _ => d end, t)
  | bruteForceMatchTree id firstDone docID => Ok (if firstDone then docID ⊕ 1 else 0, t)
  | andMatchTree id children => '(m, cs) ← nextAll mt_nextDoc (λ m max, max <? m) 0 children; Ok (m, andMatchTree id cs)
  | orMatchTree id children => '(m, cs) ← nextAll mt_nextDoc (λ m min, m <? min) maxUInt32 children; Ok (m, orMatchTree id cs)
  | notMatchTree id child => Ok (0, t)
  | noVisitMatchTree id child => '(m, c) ← mt_nextDoc child; Ok (m, noVisitMatchTree id c)
  | regexpMatchTree id re fileName reEvaluated found firstDone docID => Ok (if firstDone then docID ⊕ 1 else 0, t)
  | substrMatchTree id iter q cs fileName current contEvaluated =>
    '(d, iter) ← mi_nextDoc iter; Ok (d, substrMatchTree id iter q cs fileName current contEvaluated)
  | branchQueryMatchTree id fileMasks mask firstDone docID =>
    let start := if firstDone then docID ⊕ 1 else 0 in
    Ok (nextBranchDoc start mask (drop (Z.to_nat start) fileMasks), t)
  | noMatchTree_ id _ => Ok (maxUInt32, t)
  end.

(** ** Visiting *)

(** The nodes visitMatchTree passes to its callback. *)
Fixpoint visitMatchTree (t : matchTree) : list matchTree :=
  match t with
  | andMatchTree _ children | orMatchTree _ children => mjoin (map visitMatchTree children)
  | noVisitMatchTree _ child | notMatchTree _ child => visitMatchTree child
  | t => [t]
  end.

(** The nodes visitMatches passes to its callback. *)
Fixpoint visitMatches (t : matchTree) (known : gmap nat bool) : list matchTree :=
  match t with
  | andMatchTree _ children | orMatchTree _ children =>
    mjoin (map (λ ch, if default false (known !! mt_id ch) then visitMatches ch known else []) children)
  | notMatchTree _ _ | noVisitMatchTree _ _ => []
  | t => [t]
  end.
End Iteration.

(** ** matches *)

Section Matches.
Context `{RegexpEngine} `{UnicodeCase} {F : Type} `{IndexFile F} (id : indexData F).

(** What evaluation changes besides the tree. *)
Abbreviation evalState := (contentProvider * gmap nat bool)%type.

(** One candidate of a substring node: complete its offset, then compare. *)
Definition checkCandidate (p : contentProvider) (m : candidateMatch)
    : res (bool * candidateMatch * contentProvider) :=
  '(m, p) ← (if (cm_byteOffset m =? 0) && (0 <? cm_runeOffset m) then
               '(off, p) ← findOffset id p (cm_fileName m) (cm_runeOffset m);
               Ok (set_byteOffset m off, p)
             else Ok (m, p));
  '(content, beyond, p) ← data id p (cm_fileName m);
  '(ok, m) ← matchContent m content beyond;
  Ok (ok, m, p).

Fixpoint prune (p : contentProvider) (ms : list candidateMatch) : res (list candidateMatch * contentProvider) :=
  match ms with
  | [] => Ok ([], p)
  | m :: ms =>
    '(ok, m, p) ← checkCandidate p m;
    '(pruned, p) ← prune p ms;
    Ok (if (ok : bool) then m :: pruned else pruned, p)
  end.

Definition regexpCandidate (fileName : bool) (idx : Z * Z) : candidateMatch :=
  CandidateMatch false fileName [] [] 0 0 (u32 (fst idx)) (u32 (snd idx - fst idx)).

(** evalMatchTree, given the evaluation of the node: look the node up, and store
    what it decides. *)
Definition evalWith (eval : evalState → res (bool * bool * evalState * matchTree)) (mt : matchTree) (s : evalState)
    : res (bool * bool * evalState * matchTree) :=
  match snd s !! mt_id mt with
  | Some v => Ok (v, true, s, mt)
  | None =>
    '(v, ok, s, mt) ← eval s;
    Ok (v, ok, if (ok : bool) then (fst s, <[mt_id mt := v]> (snd s)) else s, mt)
  end.

(** The loops over the children, given the evaluation of a child. *)
Definition andLoop (eval : matchTree → evalState → res (bool * bool * evalState * matchTree)) :=
  fix go (children : list matchTree) (s : evalState) (sure : bool)
      : res (bool * bool * evalState * list matchTree) :=
    match children with
    | [] => Ok (true, sure, s, [])
    | ch :: children =>
      '(v, ok, s, ch) ← evalWith (eval ch) ch s;
      if ok && negb v then Ok (false, true, s, ch :: children)
      else '(v, sure, s, cs) ← go children s (sure && ok); Ok (v, sure, s, ch :: cs)
    end.
Definition orLoop (eval : matchTree → evalState → res (bool * bool * evalState * matchTree)) :=
  fix go (children : list matchTree) (s : evalState) (matches_ sure : bool)
      : res (bool * bool * evalState * list matchTree) :=
    match children with
    | [] => Ok (matches_, sure, s, [])
    | ch :: children =>
      '(v, ok, s, ch) ← evalWith (eval ch) ch s;
      '(v, sure, s, cs) ← go children s (if (ok : bool) then matches_ || v else matches_) (sure && ok);
      Ok (v, sure, s, ch :: cs)
    end.

Fixpoint matches (cost : Z) (t : matchTree) (s : evalState) : res (bool * bool * evalState * matchTree) :=
  match t with
  | docMatchTree _ _ current => Ok (bool_decide (current ≠ []), true, s, t)
  | bruteForceMatchTree _ _ _ => Ok (true, true, s, t)
  | andMatchTree id children => '(v, sure, s, cs) ← andLoop (matches cost) children s true; Ok (v, sure, s, andMatchTree id cs)
  | orMatchTree id children => '(v, sure, s, cs) ← orLoop (matches cost) children s false true; Ok (v, sure, s, orMatchTree id cs)
  | notMatchTree id child =>
    '(v, ok, s, c) ← evalWith (matches cost child) child s;
    Ok (negb v, ok, s, notMatchTree id c)
  | noVisitMatchTree id child =>
    '(v, ok, s, c) ← matches cost child s;
    Ok (v, ok, s, noVisitMatchTree id c)
  | regexpMatchTree i re fileName reEvaluated _ firstDone docID =>
    if cost <? costRegexp then Ok (false, false, s, t)
    else
      '(content, _, p) ← data id (fst s) fileName;
      let found := map (regexpCandidate fileName) (FindAllIndex re content) in
      Ok (bool_decide (found ≠ []), true, (p, snd s), regexpMatchTree i re fileName reEvaluated found firstDone docID)
  | substrMatchTree i iter q cs fileName current contEvaluated =>
    match current with
    | [] => Ok (false, true, s, t)
    | _ =>
      if fileName && (cost <? costMemory) then Ok (false, false, s, t)
      else if negb fileName && (cost <? costContent) then Ok (false, false, s, t)
      else
        '(pruned, p) ← prune (fst s) current;
        Ok (bool_decide (pruned ≠ []), true, (p, snd s), substrMatchTree i iter q cs fileName pruned contEvaluated)
    end
  | branchQueryMatchTree _ fileMasks mask _ docID =>
    m ← index fileMasks docID;
    Ok (negb (Z.land m mask =? 0), true, s, t)
  | noMatchTree_ _ _ => Ok (false, true, s, t)
  end.

(** ** Construction *)

Context (reString : Regexp → bytes).

Definition caseFlag (caseSensitive : bool) : bytes := if caseSensitive then [] else str "(?i)".

(** Nodes are numbered from [next] on as they are allocated. *)
Definition newSubstringMatchTree (s : Substring) (next : nat) : res (matchTree * nat) :=
  if RuneCount (Pattern s) <? ngramSize then
    re ← MustCompile (caseFlag (CaseSensitive s) ++ QuoteMeta (Pattern s));
    Ok (regexpMatchTree next re (FileName s) false [] false 0, S next)
  else
    result ← iterateNgrams id s;
    Ok (substrMatchTree next (inl result) s (CaseSensitive s) (FileName s) [] false, S next).

Definition branchQueryMask (pattern : bytes) : Z :=
  if decide (pattern = str "HEAD") then 1
  else foldr (λ nm mask, if Contains (fst nm) pattern then Z.lor mask (u64 (snd nm)) else mask) 0
         (map_to_list (d_branchIDs id)).

Fixpoint languageDocs (d : Z) (code : Z) (languages : bytes) : list Z :=
  match languages with
  | [] => []
  | l :: languages => if l =? code then u32 d :: languageDocs (d + 1) code languages else languageDocs (d + 1) code languages
  end.

(** The substrings distilled from a regular expression inherit its flags. *)
Definition inherit (fileName caseSensitive : bool) (q : Q) : Q :=
  match q with
  | QSubstring s => QSubstring (MkSubstring (Pattern s) caseSensitive fileName (Content s))
  | q => q
  end.

(** The leaves of newMatchTree; [sub] builds the tree of the query distilled from
    a regular expression. *)
Definition newLeaf (sub : Q → nat → res (matchTree * nat)) (q : Q) (next : nat) : res (matchTree * nat) :=
  match q with
  | QRegexp re fileName _ caseSensitive =>
    subQ ← RegexpToQuery re ngramSize;
    '(subMT, next) ← sub (Map subQ (inherit fileName caseSensitive)) next;
    r ← MustCompile (caseFlag caseSensitive ++ reString re);
    Ok (andMatchTree next [regexpMatchTree (S next) r fileName false [] false 0; noVisitMatchTree (S (S next)) subMT],
        S (S (S next)))
  | QSubstring s => newSubstringMatchTree s next
  | QBranch pattern =>
    Ok (branchQueryMatchTree next (d_fileBranchMasks id) (branchQueryMask pattern) false 0, S next)
  | QConst true => Ok (bruteForceMatchTree next false 0, S next)
  | QConst false => Ok (noMatchTree_ next (NoMatch "const"), S next)
  | QLanguage language =>
    match md_LanguageMap (d_metaData id) !! language with
    | None => Ok (noMatchTree_ next (NoMatch "lang"), S next)
    | Some code => Ok (docMatchTree next (languageDocs 0 code (d_languages id)) [], S next)
    end
  | QSymbol atom =>
    '(mt, next) ← newSubstringMatchTree atom next;
    match mt with
    | regexpMatchTree _ _ _ _ _ _ _ => Err "regexps and short queries not implemented for symbol search"
    | substrMatchTree i (inl iter) q cs fileName current ev =>
      Ok (substrMatchTree i
            (inr (newTrimByDocSectionIter (Pattern atom) iter (d_fileEndRunes id) (d_runeDocSections id)))
            q cs fileName current ev, next)
    | _ => Err "found inside query.Symbol"
    end
  | _ => Panic "type"
  end.

Definition buildAll (build : Q → nat → res (matchTree * nat)) :=
  fix go (children : list Q) (next : nat) : res (list matchTree * nat) :=
    match children with
    | [] => Ok ([], next)
    | ch :: children =>
      '(ct, next) ← build ch next;
      '(cts, next) ← go children next;
      Ok (ct :: cts, next)
    end.

Fixpoint buildTree (leaf : Q → nat → res (matchTree * nat)) (q : Q) (next : nat) : res (matchTree * nat) :=
  match q with
  | QAnd children => '(r, next) ← buildAll (buildTree leaf) children next; Ok (andMatchTree next r, S next)
  | QOr children => '(r, next) ← buildAll (buildTree leaf) children next; Ok (orMatchTree next r, S next)
  | QNot child => '(ct, next) ← buildTree leaf child next; Ok (notMatchTree next ct, S next)
  | q => leaf q next
  end.

(** The query distilled from a regular expression contains no regular
    expression: two levels suffice. *)
Definition newMatchTree (q : Q) (next : nat) : res (matchTree * nat) :=
  buildTree (newLeaf (buildTree (newLeaf (λ _ _, OutOfFuel)))) q next.
End Matches.
