(* ===== verification/Eval.v ===== *)
(** * eval.go: searching one shard

    [Search] walks over the documents a match tree proposes, decides each of them
    in rounds of growing cost, and collects scored matches until a limit is hit or
    the context is done; [List] answers queries about the repository. *)

From Stdlib Require Import SpecFloat.
From S2P Require Import Prelude GoStd Bits Api HitIter MatchIter Query Section IndexBuilder IndexData Content MatchTree.
Import utf8 binary.

Definition maxUInt16 : Z := 65535.

(** ** Options *)

Definition SetDefaults (o : SearchOptions) : SearchOptions :=
  let shardMax := if so_ShardMaxMatchCount o =? 0 then 100000 else so_ShardMaxMatchCount o in
  let totalMax := if so_TotalMaxMatchCount o =? 0 then 10 * shardMax else so_TotalMaxMatchCount o in
  let shardImp := if so_ShardMaxImportantMatch o =? 0 then 10 else so_ShardMaxImportantMatch o in
  let totalImp := if so_TotalMaxImportantMatch o =? 0 then 10 * shardImp else so_TotalMaxImportantMatch o in
  MkSearchOptions (so_EstimateDocCount o) (so_Whole o) shardMax totalMax shardImp totalImp (so_MaxWallTime o)
    (so_MaxDocDisplayCount o).

(** ** Matches of a document *)

Section Gather.
Context `{RegexpEngine} `{SortAlg}.

Definition nodeCandidates (t : matchTree) : list candidateMatch :=
  match t with
  | substrMatchTree _ _ _ _ _ current _ => current
  | regexpMatchTree _ _ _ _ found _ _ => found
  | _ => []
  end.

(** The merge loop: [last] is the last candidate of the result. *)
Fixpoint mergeLoop (last : candidateMatch) (cands : list candidateMatch) : list candidateMatch :=
  match cands with
  | [] => [last]
  | c :: cands =>
    let lastEnd := cm_byteOffset last ⊕ cm_byteMatchSz last in
    let end_ := cm_byteOffset c ⊕ cm_byteMatchSz c in
    if cm_byteOffset c <=? lastEnd then
      mergeLoop (if lastEnd <? end_ then set_byteMatchSz last (end_ ⊖ cm_byteOffset last) else last) cands
    else last :: mergeLoop c cands
  end.

Definition mergeCandidates (cands : list candidateMatch) : list candidateMatch :=
  match go_sort (λ a b, cm_byteOffset a <? cm_byteOffset b) cands with
  | [] => []
  | c :: cands => mergeLoop c cands
  end.

(** If there are content matches, matches in the name are dropped. *)
Definition dropNames (cands : list candidateMatch) : list candidateMatch :=
  let foundContentMatch := existsb (λ c, negb (cm_fileName c)) cands in
  filter (λ c, negb foundContentMatch || negb (cm_fileName c) = true) cands.

Definition gatherMatches (mt : matchTree) (known : gmap nat bool) : list candidateMatch :=
  mergeCandidates (dropNames (mjoin (map nodeCandidates (visitMatches mt known)))).
End Gather.

(** The names of one repository are recorded. *)
Definition addRepo (r : SearchResult) (repo : Repository) : SearchResult :=
  MkSearchResult (sr_Stats r) (sr_Files r) (<[r_Name repo := r_FileURLTemplate repo]> (sr_RepoURLs r))
    (<[r_Name repo := r_LineFragmentTemplate repo]> (sr_LineFragments r)).

Section Shard.
Context `{RegexpEngine} `{UnicodeCase} `{SortAlg} {F : Type} `{IndexFile F} (d : indexData F).

(** ** simplify *)

(** What the shard knows about an atom. *)
Definition simplifyAtom (q : Q) : Q :=
  match q with
  | QRepo pattern => QConst (Contains (r_Name (d_repoMetaData d)) pattern)
  | QRepoSet set => QConst (default false (set !! r_Name (d_repoMetaData d)))
  | QLanguage language =>
    match md_LanguageMap (d_metaData d) !! language with None => QConst false | Some _ => q end
  | q => q
  end.
Definition simplify (q : Q) : res Q := Simplify (Map q simplifyAtom).

(** ** Branches *)

(** The lowest bit set in a mask of 64 bits, from bit [idx] on. *)
Fixpoint lowestBit (fuel : nat) (idx mask : Z) : Z :=
  match fuel with
  | O => -1
  | S fuel =>
    if mask =? 0 then -1
    else if negb (Z.land mask 1 =? 0) then idx
    else lowestBit fuel (idx + 1) (Z.shiftr mask 1)
  end.
Definition branchIndex (docID : Z) : res Z :=
  mask ← index (d_fileBranchMasks d) docID;
  Ok (lowestBit 64 0 mask).

(** The names of the bits of a mask; the bit is kept in a uint32. *)
Fixpoint maskBranches (fuel : nat) (bit mask : Z) : list bytes :=
  match fuel with
  | O => []
  | S fuel =>
    if mask =? 0 then []
    else
      let rest := maskBranches fuel (u32 (Z.shiftl bit 1)) (Z.shiftr mask 1) in
      if negb (Z.land mask 1 =? 0) then default [] (d_branchNames d !! bit) :: rest else rest
  end.

Definition gatherBranches (docID : Z) (mt : matchTree) (known : gmap nat bool) : res (list bytes) :=
  let queried := mjoin (map (λ t, match t with branchQueryMatchTree _ _ mask _ _ => [mask] | _ => [] end)
                         (visitMatches mt known)) in
  match queried with
  | [] => mask ← index (d_fileBranchMasks d) docID; Ok (maskBranches 64 1 mask)
  | _ => Ok (map (λ m, default [] (d_branchNames d !! m)) queried)
  end.

(** ** Deciding a document *)

(** The loop over the costs: [false] skips the document. *)
Fixpoint costLoop (n : nat) (cost : Z) (mt : matchTree) (s : contentProvider * gmap nat bool)
    : res (bool * (contentProvider * gmap nat bool) * matchTree) :=
  match n with
  | O => Ok (true, s, mt)
  | S n =>
    '(v, ok, s, mt) ← matches d cost mt s;
    if ok && negb v then Ok (false, s, mt)
    else if (cost =? costMax) && negb ok then Panic "did not decide"
    else costLoop n (cost + 1) mt s
  end.
Definition decideDoc (mt : matchTree) (p : contentProvider) :=
  costLoop (Z.to_nat (costMax - costMin + 1)) costMin mt (p, ∅).

(** ** The match of a document *)

(** The sub-repository of the document and the version of its branch. *)
Definition docOrigin (nextDoc : Z) : res (bytes * bytes * bytes) :=
  s ← index (d_subRepos d) nextDoc;
  if 0 <? s then
    if u32 (lenZ (d_subRepoPaths d)) <=? s then Panic "corrupt index: subrepo beyond"
    else
      path ← index (d_subRepoPaths d) s;
      match default ∅ (r_SubRepoMap (d_repoMetaData d)) !! path with
      | None => Panic "nil pointer dereference"
      | Some sr =>
        idx ← branchIndex nextDoc;
        if 0 <=? idx then br ← index (r_Branches sr) idx; Ok (path, r_Name sr, br_Version br)
        else Ok (path, r_Name sr, [])
      end
  else
    idx ← branchIndex nextDoc;
    if 0 <=? idx then br ← index (r_Branches (d_repoMetaData d)) idx; Ok ([], [], br_Version br)
    else Ok ([], [], []).

(** The best score of the lines, and the lines with their order in the file added
    to their scores. *)
Fixpoint orderLines (i n : Z) (maxFileScore : float64) (lines : list LineMatch) : float64 * list LineMatch :=
  match lines with
  | [] => (maxFileScore, [])
  | l :: lines =>
    let maxFileScore := if fgt (lm_Score l) maxFileScore then lm_Score l else maxFileScore in
    let s := fadd (lm_Score l)
      (fmul scoreLineOrderFactor (fsub (float_of_Z 1) (fdiv (float_of_Z i) (float_of_Z n)))) in
    let '(best, rest) := orderLines (i + 1) n maxFileScore lines in
    (best, set_lm_Score l s :: rest)
  end.

(** The whole name, when no candidate is left. *)
Definition nameCandidate (nextDoc : Z) (nm : bytes) : candidateMatch :=
  CandidateMatch false true nm nm nextDoc 0 0 (u32 (lenZ nm)).

Definition fileScore (maxFileScore : float64) (atomMatchCount totalAtomCount nextDoc : Z) : float64 :=
  let s := fadd (float_of_Z 0) maxFileScore in
  let s := fadd s (fmul (fdiv (float_of_Z atomMatchCount) (float_of_Z totalAtomCount)) scoreFactorAtomMatch) in
  let s := fadd s (fmul scoreFileOrderFactor
             (fsub (float_of_Z 1) (fdiv (float_of_Z nextDoc) (float_of_Z (lenZ (d_boundaries d)))))) in
  fadd s (fdiv (fmul scoreShardRankFactor (float_of_Z (r_Rank (d_repoMetaData d)))) (float_of_Z maxUInt16)).

(** From an accepted document to its FileMatch. *)
Definition fileMatchOf (whole : bool) (totalAtomCount nextDoc : Z) (mt : matchTree) (known : gmap nat bool)
    (p : contentProvider) : res (FileMatch * contentProvider) :=
  name ← fileName d nextDoc;
  checksum ← getChecksum d nextDoc;
  lang ← index (d_languages d) nextDoc;
  '(subPath, subName, version) ← docOrigin nextDoc;
  let atomMatchCount := lenZ (visitMatches mt known) in
  let cands := gatherMatches mt known in
  let finalCands := match cands with [] => [nameCandidate nextDoc name] | _ => cands end in
  '(lines, p) ← fillMatches d p finalCands;
  let '(maxFileScore, lines) := orderLines 0 (lenZ lines) (float_of_Z 0) lines in
  branches ← gatherBranches nextDoc mt known;
  '(content, p) ← (if whole then '(c, _, p) ← data d p false; Ok (c, p) else Ok ([], p));
  Ok (MkFileMatch (fileScore maxFileScore atomMatchCount totalAtomCount nextDoc) name (r_Name (d_repoMetaData d))
        branches (sortMatchesByScore lines) content checksum (default [] (d_languageMap d !! lang))
        subName subPath version, p).

(** ** The loop over documents *)

Definition mapStats (f : Stats → Stats) (p : contentProvider) : contentProvider := set_cp_stats p (f (cp_stats p)).

(** [ctx k] tells whether the context was done at the [k]th time it was asked.
    The result holds the files in the order they were found. *)
Fixpoint searchLoop (fuel : nat) (ctx : nat → bool) (poll : nat) (opts : SearchOptions) (totalAtomCount : Z)
    (mt : matchTree) (p : contentProvider) (lastDoc important : Z)
    : res (list FileMatch * matchTree * contentProvider) :=
  match fuel with
  | O => OutOfFuel
  | S fuel =>
    let docCount := u32 (lenZ (d_fileBranchMasks d)) in
    '(nextDoc, mt) ← mt_nextDoc mt;
    let nextDoc := if nextDoc <=? lastDoc then u32 (lastDoc + 1) else nextDoc in
    if docCount <=? nextDoc then Ok ([], mt, p)
    else if ctx poll || (so_ShardMaxMatchCount opts <=? MatchCount (cp_stats p))
            || (so_ShardMaxImportantMatch opts <=? important) then
      Ok ([], mt, mapStats (add_FilesSkipped (rs_Documents (rle_Stats (calculateStats d)) - nextDoc)) p)
    else
      let p := mapStats (add_FilesConsidered 1) p in
      mt ← mt_prepare mt nextDoc;
      p ← setDocument d p nextDoc;
      '(v, (p, known), mt) ← decideDoc mt p;
      if negb v then searchLoop fuel ctx (S poll) opts totalAtomCount mt p nextDoc important
      else
        '(fm, p) ← fileMatchOf (so_Whole opts) totalAtomCount nextDoc mt known p;
        let important := if fgt (fm_Score fm) scoreImportantThreshold then important + 1 else important in
        let p := mapStats (λ s, add_FileCount 1 (add_MatchCount (lenZ (fm_LineMatches fm)) s)) p in
        '(files, mt, p) ← searchLoop fuel ctx (S poll) opts totalAtomCount mt p nextDoc important;
        Ok (fm :: files, mt, p)
  end.

(** ** Search and List *)

Context (reString : Regexp → bytes).

Definition emptyResult (s : Stats) : SearchResult := MkSearchResult s [] ∅ ∅.

Definition Search (ctx : nat → bool) (q : Q) (opts : SearchOptions) : res SearchResult :=
  let opts := SetDefaults opts in
  if lenZ (d_fileNameIndex d) =? 0 then Ok (emptyResult stats0)
  else if ctx 0%nat then Ok (emptyResult (add_ShardsSkipped 1 stats0))
  else
    q ← simplify q;
    match q with
    | QConst false => Ok (emptyResult stats0)
    | _ =>
      if so_EstimateDocCount opts then
        Ok (emptyResult (add_ShardFilesConsidered (lenZ (d_fileBranchMasks d)) stats0))
      else
        '(mt, _) ← newMatchTree d reString (Map q ExpandFileContent) 0;
        let totalAtomCount := lenZ (visitMatchTree mt) in
        '(files, mt, p) ← searchLoop (S (length (d_fileBranchMasks d))) ctx 1 opts totalAtomCount mt
                            (newContentProvider stats0) (-1) 0;
        let r := MkSearchResult (cp_stats p) (SortFilesByScore files) ∅ ∅ in
        let r := addRepo r (d_repoMetaData d) in
        let r := foldl (λ r kv, addRepo r (snd kv)) r
                   (map_to_list (default ∅ (r_SubRepoMap (d_repoMetaData d)))) in
        Ok (MkSearchResult (mt_updateStats mt (sr_Stats r)) (sr_Files r) (sr_RepoURLs r) (sr_LineFragments r))
    end.

Definition List (q : Q) : res RepoList :=
  q ← simplify q;
  match q with
  | QConst v => Ok (MkRepoList (if v then [calculateStats d] else []) 0)
  | _ => Err "List should receive Repo-only query."
  end.
End Shard.
