(* ===== verification/Decide.v ===== *)
(** * Deciding a document

    Evaluation of a match tree is lazy: it runs in rounds of growing cost, a
    round may leave nodes undecided, decided nodes are remembered, and evaluating a
    node fills the caches of the content provider and prunes its candidates. This
    file relates it to the plain meaning of the tree on the document. *)

From S2P Require Import Prelude GoStd Bits Api HitIter MatchIter Query Section IndexBuilder IndexData Shard Content MatchTree Eval.
Import utf8 binary.

Section TreeInd.
Context `{RegexpEngine} (P : matchTree → Prop).
Context (HAnd : ∀ i cs, Forall P cs → P (andMatchTree i cs)) (HOr : ∀ i cs, Forall P cs → P (orMatchTree i cs)).
Context (HNot : ∀ i c, P c → P (notMatchTree i c)) (HNoVisit : ∀ i c, P c → P (noVisitMatchTree i c)).
Context (HDoc : ∀ i l k, P (docMatchTree i l k)) (HBrute : ∀ i a b, P (bruteForceMatchTree i a b)).
Context (HRegexp : ∀ i re fn ev fd a b, P (regexpMatchTree i re fn ev fd a b)).
Context (HSubstr : ∀ i it q cs fn cur ev, P (substrMatchTree i it q cs fn cur ev)).
Context (HBranch : ∀ i ms m a b, P (branchQueryMatchTree i ms m a b)) (HNoMatch : ∀ i t, P (noMatchTree_ i t)).

Fixpoint matchTree_ind' (t : matchTree) : P t :=
  let go := fix go (cs : list matchTree) : Forall P cs :=
    match cs with [] => Forall_nil_2 P | c :: cs => Forall_cons_2 _ _ _ (matchTree_ind' c) (go cs) end in
  match t with
  | andMatchTree i cs => HAnd i cs (go cs)
  | orMatchTree i cs => HOr i cs (go cs)
  | notMatchTree i c => HNot i c (matchTree_ind' c)
  | noVisitMatchTree i c => HNoVisit i c (matchTree_ind' c)
  | docMatchTree i l k => HDoc i l k
  | bruteForceMatchTree i a b => HBrute i a b
  | regexpMatchTree i re fn ev fd a b => HRegexp i re fn ev fd a b
  | substrMatchTree i it q cs fn cur ev => HSubstr i it q cs fn cur ev
  | branchQueryMatchTree i ms m a b => HBranch i ms m a b
  | noMatchTree_ i t => HNoMatch i t
  end.
End TreeInd.

Section Decide.
Context `{RegexpEngine} `{UnicodeCase} `{SortAlg} {F : Type} `{IndexFile F} (d : indexData F).

(** ** The meaning of a tree on document [idx] *)

(** A content provider on the document with empty caches. *)
Definition fresh (idx : Z) : contentProvider := CP stats0 None idx None None false None false 0.

Definition doc_data (idx : Z) (fileName : bool) : res (bytes * bytes) :=
  '(c, beyond, _) ← data d (fresh idx) fileName; Ok (c, beyond).
Definition doc_offset (idx : Z) (fileName : bool) (r : Z) : res Z :=
  '(off, _) ← findOffset d (fresh idx) fileName r; Ok off.

(** A candidate with its byte offset, and whether the text is there. *)
Definition candidate_sem (idx : Z) (m : candidateMatch) : res (bool * candidateMatch) :=
  m ← (if (cm_byteOffset m =? 0) && (0 <? cm_runeOffset m)
       then off ← doc_offset idx (cm_fileName m) (cm_runeOffset m); Ok (set_byteOffset m off) else Ok m);
  '(content, beyond) ← doc_data idx (cm_fileName m);
  matchContent m content beyond.

Fixpoint prune_sem (idx : Z) (ms : list candidateMatch) : res (list candidateMatch) :=
  match ms with
  | [] => Ok []
  | m :: ms =>
    '(ok, m) ← candidate_sem idx m;
    pruned ← prune_sem idx ms;
    Ok (if (ok : bool) then m :: pruned else pruned)
  end.

(** Boolean combinations of the leaves: a document with a mask, a language, a
    match of the regular expression, a candidate that is really there. *)
Fixpoint denote (idx : Z) (t : matchTree) : res bool :=
  match t with
  | docMatchTree _ _ current => Ok (bool_decide (current ≠ []))
  | bruteForceMatchTree _ _ _ => Ok true
  | andMatchTree _ children => bs ← mapM (denote idx) children; Ok (forallb id bs)
  | orMatchTree _ children => bs ← mapM (denote idx) children; Ok (existsb id bs)
  | notMatchTree _ child => b ← denote idx child; Ok (negb b)
  | noVisitMatchTree _ child => denote idx child
  | regexpMatchTree _ re fileName _ _ _ _ =>
    '(content, _) ← doc_data idx fileName;
    Ok (bool_decide (FindAllIndex re content ≠ []))
  | substrMatchTree _ _ _ _ _ current _ => pruned ← prune_sem idx current; Ok (bool_decide (pruned ≠ []))
  | branchQueryMatchTree _ fileMasks mask _ docID => m ← index fileMasks docID; Ok (negb (Z.land m mask =? 0))
  | noMatchTree_ _ _ => Ok false
  end.

Fixpoint ids (t : matchTree) : list nat :=
  mt_id t :: match t with
  | andMatchTree _ children | orMatchTree _ children => mjoin (map ids children)
  | notMatchTree _ child | noVisitMatchTree _ child => ids child
  | _ => []
  end.

(** ** The caches are coherent *)

Definition cp_ok (idx : Z) (p : contentProvider) : Prop :=
  cp_idx p = idx ∧ match cp__data p with Some c => readContents d idx = Ok c | None => True end.

Lemma data_ok idx p fileName c beyond :
  cp_ok idx p → doc_data idx fileName = Ok (c, beyond) →
  ∃ p', data d p fileName = Ok (c, beyond, p') ∧ cp_ok idx p'.
Proof.
  intros [Hi Hd] Hdoc. unfold doc_data in Hdoc. apply bind_Ok in Hdoc as ([[c0 b0] p0] & Hdata & [= <- <-]).
  unfold data in *. rewrite Hi. cbn [cp_idx cp__data fresh] in Hdata. destruct fileName.
  - apply bind_Ok in Hdata as (a & -> & Hdata). cbn [mbind res_bind].
    apply bind_Ok in Hdata as (e & -> & Hdata). cbn [mbind res_bind].
    apply bind_Ok in Hdata as (name & -> & Hdata). cbn [mbind res_bind].
    injection Hdata as <- <- <-. exists p. split; [done|by split].
  - apply bind_Ok in Hdata as (sec & -> & Hdata). cbn [mbind res_bind].
    destruct (readContents d idx) as [c1|e|w|] eqn:Er; cbn [caught mbind res_bind] in Hdata; try done;
      injection Hdata as <- <- <-; destruct (cp__data p) as [c2|] eqn:Ed; try done.
    + injection Hd as ->. exists p. split; [done|]. split; [done|]. by rewrite Ed, Er.
    + cbn [caught mbind res_bind]. eexists. split; [done|]. split; [done|]. simpl. by rewrite Er.
    + cbn [caught mbind res_bind]. eexists. split; [done|]. by split.
Qed.

Lemma findOffset_ok idx p fileName r off :
  cp_ok idx p → doc_offset idx fileName r = Ok off →
  ∃ p', findOffset d p fileName r = Ok (off, p') ∧ cp_ok idx p'.
Proof.
  intros [Hi Hd] Ho. unfold doc_offset, findOffset in *. rewrite Hi. simpl in Ho.
  destruct (md_PlainASCII (d_metaData d)); [injection Ho as <-; exists p; by repeat split|].
  destruct (index (d_boundaries d) idx) as [cs| | |]; try done. cbn [mbind res_bind] in *.
  destruct (if fileName then index (d_fileNameIndex d) idx else Ok cs) as [fs| | |]; try done. cbn [mbind res_bind] in *.
  destruct (if 0 <? idx then _ else Ok r) as [absR| | |]; try done. cbn [mbind res_bind] in *.
  destruct (index _ (absR / runeOffsetFrequency)) as [bo| | |]; try done. cbn [mbind res_bind] in *.
  destruct fileName.
  - destruct (slice_from _ bo) as [dt| | |]; try done. cbn [mbind res_bind] in *.
    destruct (skip_runes _ bo dt) as [o| | |]; try done. cbn [mbind res_bind] in *.
    injection Ho as <-. exists p. split; [done|by split].
  - destruct (caught (readContentSlice d bo _)) as [[dt|e]| | |]; try done; cbn [mbind res_bind] in *.
    + destruct (skip_runes _ bo dt) as [o| | |]; try done. cbn [mbind res_bind] in *.
      injection Ho as <-. eexists. split; [done|by split].
    + injection Ho as <-. eexists. split; [done|by split].
Qed.

Lemma checkCandidate_ok idx p m ok m' :
  cp_ok idx p → candidate_sem idx m = Ok (ok, m') →
  ∃ p', checkCandidate d p m = Ok (ok, m', p') ∧ cp_ok idx p'.
Proof.
  intros Hp Hc. unfold candidate_sem in Hc. apply bind_Ok in Hc as (m1 & Hm1 & Hc).
  apply bind_Ok in Hc as ([c beyond] & Hdata & Hc). unfold checkCandidate.
  assert (∃ p1, (if (cm_byteOffset m =? 0) && (0 <? cm_runeOffset m)
    then '(off, p) ← findOffset d p (cm_fileName m) (cm_runeOffset m); Ok (set_byteOffset m off, p) else Ok (m, p))
    = Ok (m1, p1) ∧ cp_ok idx p1) as (p1 & -> & Hp1).
  { destruct (_ && _); [|injection Hm1 as <-; eauto]. apply bind_Ok in Hm1 as (off & Hoff & [= <-]).
    destruct (findOffset_ok _ _ _ _ _ Hp Hoff) as (p1 & -> & Hp1). eauto. }
  cbn [mbind res_bind]. destruct (data_ok _ _ _ _ _ Hp1 Hdata) as (p2 & -> & Hp2). cbn [mbind res_bind].
  rewrite Hc. cbn [mbind res_bind]. eauto.
Qed.

Lemma prune_ok idx p ms pruned :
  cp_ok idx p → prune_sem idx ms = Ok pruned → ∃ p', prune d p ms = Ok (pruned, p') ∧ cp_ok idx p'.
Proof.
  revert p pruned. induction ms as [|m ms IH]; intros p pruned Hp Hs; simpl in *; [injection Hs as <-; eauto|].
  apply bind_Ok in Hs as ([ok m'] & Hc & Hs). apply bind_Ok in Hs as (pr & Hpr & Hs). injection Hs as <-.
  destruct (checkCandidate_ok _ _ _ _ _ Hp Hc) as (p1 & -> & Hp1). cbn [mbind res_bind].
  destruct (IH _ _ Hp1 Hpr) as (p2 & -> & Hp2). cbn [mbind res_bind]. eauto.
Qed.

(** Checking a candidate that was kept again changes nothing. *)
Lemma candidate_again idx m ok m' : candidate_sem idx m = Ok (ok, m') → candidate_sem idx m' = Ok (ok, m').
Proof.
  unfold candidate_sem. intros Hc. apply bind_Ok in Hc as (m1 & Hm1 & Hc).
  apply bind_Ok in Hc as ([c beyond] & Hdata & Hc).
  assert (∃ sz, m' = set_byteMatchSz m1 sz ∧
    ∀ sz', matchContent (set_byteMatchSz m1 sz') c beyond = Ok (ok, m')) as (sz & -> & Hagain).
  { unfold matchContent in *. cbn [cm_caseSensitive cm_byteOffset cm_substrBytes cm_substrLowered set_byteMatchSz].
    destruct (cm_caseSensitive m1).
    - apply bind_Ok in Hc as (part & Hpart & Hc). injection Hc as <- <-. eexists. split; [done|]. intros.
      rewrite Hpart. done.
    - apply bind_Ok in Hc as (part & Hpart & Hc). destruct (caseFoldingEqualsRunes _ part) as [n o] eqn:E.
      injection Hc as <- <-. eexists. split; [done|]. intros. rewrite Hpart. cbn [mbind res_bind]. by rewrite E. }
  cbn [cm_byteOffset cm_runeOffset cm_fileName set_byteMatchSz].
  assert (cm_fileName m1 = cm_fileName m ∧ cm_runeOffset m1 = cm_runeOffset m ∧
    ((cm_byteOffset m1 =? 0) && (0 <? cm_runeOffset m1) = true →
      doc_offset idx (cm_fileName m) (cm_runeOffset m) = Ok (cm_byteOffset m1))) as (Ef & Er & Eoff).
  { destruct ((cm_byteOffset m =? 0) && (0 <? cm_runeOffset m)) eqn:Eb.
    - apply bind_Ok in Hm1 as (off & Hoff & [= <-]). simpl. split_and!; [done..|]. by intros.
    - injection Hm1 as ->. split_and!; [done..|]. rewrite Eb. done. }
  destruct ((cm_byteOffset m1 =? 0) && (0 <? cm_runeOffset m1)) eqn:E2.
  - rewrite Ef, Er, Eoff by done. cbn [mbind res_bind]. cbn [cm_fileName set_byteOffset set_byteMatchSz].
    rewrite Hdata. cbn [mbind res_bind]. rewrite <- (Hagain sz). by destruct m1.
  - cbn [mbind res_bind cm_fileName set_byteMatchSz]. rewrite Hdata. cbn [mbind res_bind]. apply Hagain.
Qed.

Lemma prune_again idx ms pruned : prune_sem idx ms = Ok pruned → prune_sem idx pruned = Ok pruned.
Proof.
  revert pruned. induction ms as [|m ms IH]; intros pruned Hs; simpl in Hs; [by injection Hs as <-|].
  apply bind_Ok in Hs as ([ok m'] & Hc & Hs). apply bind_Ok in Hs as (pr & Hpr & Hs). injection Hs as <-.
  destruct ok; [|auto]. cbn [prune_sem]. rewrite (candidate_again _ _ _ _ Hc). cbn [mbind res_bind].
  by rewrite (IH _ Hpr).
Qed.

(** ** Evaluation *)

(** [M] gives the meaning of every node by its identity. *)
Fixpoint agrees (idx : Z) (M : gmap nat bool) (t : matchTree) : Prop :=
  (∃ b, denote idx t = Ok b ∧ M !! mt_id t = Some b) ∧
  match t with
  | andMatchTree _ children | orMatchTree _ children => foldr (λ c P, agrees idx M c ∧ P) True children
  | notMatchTree _ child | noVisitMatchTree _ child => agrees idx M child
  | _ => True
  end.

Lemma agrees_denote idx M t : agrees idx M t → ∃ b, denote idx t = Ok b ∧ M !! mt_id t = Some b.
Proof. by destruct t; intros []. Qed.

(** What a call that evaluates [t] at some cost returns, when [t] means [b]: it
    is right when it is sure, it is sure at the highest cost, and it leaves a state
    to go on from. *)
Definition outcome_ok (idx : Z) (M : gmap nat bool) (cost : Z) (t : matchTree) (b : bool)
    (r : res (bool * bool * (contentProvider * gmap nat bool) * matchTree)) : Prop :=
  ∃ v ok s t', r = Ok (v, ok, s, t') ∧ (ok = true → v = b) ∧ (costMax <= cost → ok = true) ∧
    cp_ok idx (fst s) ∧ snd s ⊆ M ∧ agrees idx M t' ∧ denote idx t' = Ok b ∧ mt_id t' = mt_id t.

Definition evaluates (idx : Z) (M : gmap nat bool) (cost : Z) (t : matchTree) : Prop :=
  ∀ s b, agrees idx M t → denote idx t = Ok b → cp_ok idx (fst s) → snd s ⊆ M →
    outcome_ok idx M cost t b (matches d cost t s).

Lemma evalWith_ok idx M cost t s b :
  evaluates idx M cost t → agrees idx M t → denote idx t = Ok b → cp_ok idx (fst s) → snd s ⊆ M →
  outcome_ok idx M cost t b (evalWith (matches d cost t) t s).
Proof.
  intros He Ha Hb Hp Hk. unfold evalWith. destruct (agrees_denote _ _ _ Ha) as (b' & Hb' & HM).
  assert (b' = b) as -> by congruence. destruct (snd s !! mt_id t) as [v|] eqn:Ev.
  - assert (v = b) as -> by (pose proof (lookup_weaken _ _ _ _ Ev Hk); congruence).
    exists b, true, s, t. by split_and!.
  - destruct (He s b Ha Hb Hp Hk) as (v & ok & s' & t' & -> & Hv & Hc & Hp' & Hk' & Ha' & Hd' & Hid).
    cbn [mbind res_bind]. exists v, ok, (if ok then (fst s', <[mt_id t' := v]> (snd s')) else s'), t'.
    split_and!; try done; [by destruct ok|]. destruct ok; [|done]. rewrite (Hv eq_refl), Hid. by apply insert_subseteq_l.
Qed.

Lemma foldr_agrees idx M cs : foldr (λ c P, agrees idx M c ∧ P) True cs ↔ Forall (agrees idx M) cs.
Proof. induction cs as [|c cs IH]; simpl; [done|]. by rewrite Forall_cons, IH. Qed.

Lemma andLoop_ok idx M cost cs bs s sure :
  Forall (evaluates idx M cost) cs → Forall (agrees idx M) cs → mapM (denote idx) cs = Ok bs →
  cp_ok idx (fst s) → snd s ⊆ M →
  ∃ v ok s' cs', andLoop (matches d cost) cs s sure = Ok (v, ok, s', cs') ∧
    (ok = true → v = forallb id bs ∧ (sure = true ∨ forallb id bs = false)) ∧
    (costMax <= cost → sure = true → ok = true) ∧
    cp_ok idx (fst s') ∧ snd s' ⊆ M ∧ Forall (agrees idx M) cs' ∧ mapM (denote idx) cs' = Ok bs.
Proof.
  intros He. revert bs s sure. induction He as [|c cs Hc _ IH]; intros bs s sure Ha Hbs Hp Hk.
  { injection Hbs as <-. exists true, sure, s, []. split_and!; try done. intros ->. split; [done|by left]. }
  apply Forall_cons in Ha as [Hac Ha]. simpl in Hbs. apply bind_Ok in Hbs as (b & Hb & Hbs).
  apply bind_Ok in Hbs as (bs' & Hbs & [= <-]). cbn [andLoop].
  destruct (evalWith_ok _ _ _ _ s b Hc Hac Hb Hp Hk) as (v & ok & s1 & c' & -> & Hv & Hcost & Hp1 & Hk1 & Ha1 & Hd1 & _).
  cbn [mbind res_bind]. destruct (ok && negb v) eqn:Eov.
  - apply andb_true_iff in Eov as [-> Ev%negb_true_iff]. assert (b = false) as -> by (rewrite <- Hv; done).
    exists false, true, s1, (c' :: cs). split_and!; try done; [split; [done|by right]|by constructor|].
    simpl. by rewrite Hd1, Hbs.
  - destruct (IH bs' s1 (sure && ok) Ha Hbs Hp1 Hk1) as (v' & ok' & s2 & cs' & E & Hv' & Hcost' & Hp2 & Hk2 & Ha2 & Hd2).
    fold (andLoop (matches d cost)). rewrite E. cbn [mbind res_bind].
    exists v', ok', s2, (c' :: cs'). split_and!; try done.
    + intros Hok'. destruct (Hv' Hok') as [-> [[-> ->]%andb_true_iff|Hf]]; simpl.
      * specialize (Hv eq_refl). subst v. destruct b; [|done]. split; [done|by left].
      * rewrite Hf. split; [by destruct b|right; by destruct b].
    + intros Hc3 Hs. apply Hcost'; [done|]. by rewrite Hs, Hcost.
    + by constructor.
    + simpl. by rewrite Hd1, Hd2.
Qed.

Lemma orLoop_ok idx M cost cs bs s acc sure :
  Forall (evaluates idx M cost) cs → Forall (agrees idx M) cs → mapM (denote idx) cs = Ok bs →
  cp_ok idx (fst s) → snd s ⊆ M →
  ∃ v ok s' cs', orLoop (matches d cost) cs s acc sure = Ok (v, ok, s', cs') ∧
    (ok = true → sure = true ∧ v = acc || existsb id bs) ∧ (costMax <= cost → sure = true → ok = true) ∧
    cp_ok idx (fst s') ∧ snd s' ⊆ M ∧ Forall (agrees idx M) cs' ∧ mapM (denote idx) cs' = Ok bs.
Proof.
  intros He. revert bs s acc sure. induction He as [|c cs Hc _ IH]; intros bs s acc sure Ha Hbs Hp Hk.
  { injection Hbs as <-. exists acc, sure, s, []. split_and!; try done. intros ->. by rewrite orb_false_r. }
  apply Forall_cons in Ha as [Hac Ha]. simpl in Hbs. apply bind_Ok in Hbs as (b & Hb & Hbs).
  apply bind_Ok in Hbs as (bs' & Hbs & [= <-]). cbn [orLoop].
  destruct (evalWith_ok _ _ _ _ s b Hc Hac Hb Hp Hk) as (v & ok & s1 & c' & -> & Hv & Hcost & Hp1 & Hk1 & Ha1 & Hd1 & _).
  cbn [mbind res_bind].
  destruct (IH bs' s1 (if ok then acc || v else acc) (sure && ok) Ha Hbs Hp1 Hk1)
    as (v' & ok' & s2 & cs' & E & Hv' & Hcost' & Hp2 & Hk2 & Ha2 & Hd2).
  fold (orLoop (matches d cost)). rewrite E. cbn [mbind res_bind].
  exists v', ok', s2, (c' :: cs'). split_and!; try done.
  - intros Hok. destruct (Hv' Hok) as [Hs ->]. apply andb_true_iff in Hs as [-> ->]. split; [done|].
    rewrite (Hv eq_refl). simpl. by rewrite orb_assoc.
  - intros Hc3 Hs. apply Hcost'; [done|]. by rewrite Hs, Hcost.
  - by constructor.
  - simpl. by rewrite Hd1, Hd2.
Qed.

(** The leaves that do not evaluate anything. *)
Lemma evaluates_leaf idx M cost t b :
  (∀ s, matches d cost t s = Ok (b, true, s, t)) → (∀ b', denote idx t = Ok b' → b' = b) → evaluates idx M cost t.
Proof.
  intros Hm Hb s b' Ha Hd Hp Hk. rewrite Hm. exists b, true, s, t. split_and!; try done. intros _. symmetry. auto.
Qed.

Lemma outcome_unsure idx M cost t b s :
  cost < costMax → agrees idx M t → denote idx t = Ok b → cp_ok idx (fst s) → snd s ⊆ M →
  outcome_ok idx M cost t b (Ok (false, false, s, t)).
Proof. intros. exists false, false, s, t. split_and!; try done; lia. Qed.

Lemma regexp_evaluates idx M cost i re fn ev fd a c : evaluates idx M cost (regexpMatchTree i re fn ev fd a c).
Proof.
  intros s b Ha Hd Hp Hk. cbn [matches]. destruct (Z.ltb_spec cost costRegexp).
  { apply outcome_unsure; auto. }
  pose proof Hd as Hd0. cbn [denote] in Hd. apply bind_Ok in Hd as ([content beyond] & Hdata & [= <-]).
  destruct (data_ok _ _ _ _ _ Hp Hdata) as (p' & -> & Hp'). cbn [mbind res_bind].
  eexists _, true, _, _. split; [done|].
  assert (denote idx (regexpMatchTree i re fn ev (map (regexpCandidate fn) (FindAllIndex re content)) a c)
    = Ok (bool_decide (FindAllIndex re content ≠ []))) as Hd' by (cbn [denote]; by rewrite Hdata).
  split_and!; try done.
  intros _. apply bool_decide_ext. by destruct (FindAllIndex re content).
Qed.

Lemma substr_evaluates idx M cost i it q cs fn cur ev : evaluates idx M cost (substrMatchTree i it q cs fn cur ev).
Proof.
  intros s b Ha Hd Hp Hk. cbn [matches]. pose proof Hd as Hd0. cbn [denote] in Hd0.
  apply bind_Ok in Hd0 as (pruned & Hpr & [= <-]).
  destruct cur as [|m cur'] eqn:Ecur.
  { injection Hpr as <-. eexists false, true, s, _. split_and!; try done. }
  rewrite <- Ecur in *. clear Ecur.
  destruct (fn && (cost <? costMemory)) eqn:E1.
  { apply andb_true_iff in E1 as [_ E1%Z.ltb_lt]. apply outcome_unsure; auto. unfold costMax, costMemory, costRegexp in *. lia. }
  destruct (negb fn && (cost <? costContent)) eqn:E2.
  { apply andb_true_iff in E2 as [_ E2%Z.ltb_lt]. apply outcome_unsure; auto. unfold costMax, costContent, costRegexp in *. lia. }
  destruct (prune_ok _ _ _ _ Hp Hpr) as (p' & -> & Hp'). cbn [mbind res_bind].
  eexists _, true, _, _. split; [done|].
  assert (denote idx (substrMatchTree i it q cs fn pruned ev) = Ok (bool_decide (pruned ≠ []))) as Hd'
    by (cbn [denote]; by rewrite (prune_again _ _ _ Hpr)).
  split_and!; try done. split; [|done]. eexists. split; [done|].
  destruct Ha as [(b' & E & HM) _]. cbn [mt_id] in *. congruence.
Qed.

Lemma matches_ok idx M cost t : evaluates idx M cost t.
Proof.
  induction t as [i cs IH|i cs IH|i c IH|i c IH|i l k|i a e|i re fn ev fd a e|i it q cs fn cur ev|i ms m a e|i t]
    using matchTree_ind'.
  - intros s b Ha Hd Hp Hk. destruct Ha as [(b' & Hb' & HM) Ha%foldr_agrees]. assert (b' = b) as -> by congruence. clear Hb'.
    cbn [denote] in Hd. apply bind_Ok in Hd as (bs & Hbs & [= <-]). cbn [matches].
    destruct (andLoop_ok idx M cost cs bs s true IH Ha Hbs Hp Hk) as (v & ok & s' & cs' & -> & Hv & Hc & Hp' & Hk' & Ha' & Hd').
    cbn [mbind res_bind]. assert (denote idx (andMatchTree i cs') = Ok (forallb id bs)) as HD by (cbn [denote]; by rewrite Hd').
    exists v, ok, s', (andMatchTree i cs'). split_and!; try done; [by intros []%Hv|auto|].
    split; [eauto|by apply foldr_agrees].
  - intros s b Ha Hd Hp Hk. destruct Ha as [(b' & Hb' & HM) Ha%foldr_agrees]. assert (b' = b) as -> by congruence. clear Hb'.
    cbn [denote] in Hd. apply bind_Ok in Hd as (bs & Hbs & [= <-]). cbn [matches].
    destruct (orLoop_ok idx M cost cs bs s false true IH Ha Hbs Hp Hk) as (v & ok & s' & cs' & -> & Hv & Hc & Hp' & Hk' & Ha' & Hd').
    cbn [mbind res_bind]. assert (denote idx (orMatchTree i cs') = Ok (existsb id bs)) as HD by (cbn [denote]; by rewrite Hd').
    exists v, ok, s', (orMatchTree i cs'). split_and!; try done; [by intros []%Hv|auto|].
    split; [eauto|by apply foldr_agrees].
  - intros s b Ha Hd Hp Hk. destruct Ha as [(b' & Hb' & HM) Ha]. assert (b' = b) as -> by congruence. clear Hb'.
    cbn [denote] in Hd. apply bind_Ok in Hd as (b0 & Hb0 & [= <-]). cbn [matches].
    destruct (evalWith_ok _ _ _ _ s b0 IH Ha Hb0 Hp Hk) as (v & ok & s' & c' & -> & Hv & Hc & Hp' & Hk' & Ha' & Hd' & _).
    cbn [mbind res_bind]. assert (denote idx (notMatchTree i c') = Ok (negb b0)) as HD by (cbn [denote]; by rewrite Hd').
    exists (negb v), ok, s', (notMatchTree i c'). split_and!; try done; [by intros ->%Hv|]. split; [eauto|done].
  - intros s b Ha Hd Hp Hk. destruct Ha as [(b' & Hb' & HM) Ha]. assert (b' = b) as -> by congruence. clear Hb'.
    cbn [matches]. destruct (IH s b Ha Hd Hp Hk) as (v & ok & s' & c' & -> & Hv & Hc & Hp' & Hk' & Ha' & Hd' & _).
    cbn [mbind res_bind]. exists v, ok, s', (noVisitMatchTree i c'). split_and!; try done. split; [eauto|done].
  - apply (evaluates_leaf _ _ _ _ (bool_decide (k ≠ []))); [done|]. by intros b [= <-].
  - apply (evaluates_leaf _ _ _ _ true); [done|]. by intros b [= <-].
  - apply regexp_evaluates.
  - apply substr_evaluates.
  - intros s b Ha Hd Hp Hk. pose proof Hd as Hd0. cbn [denote] in Hd. apply bind_Ok in Hd as (x & Hx & [= <-]).
    cbn [matches]. rewrite Hx. cbn [mbind res_bind]. eexists _, true, s, _. by split_and!.
  - apply (evaluates_leaf _ _ _ _ false); [done|]. by intros b [= <-].
Qed.

(** ** Every tree has such a meaning *)

Lemma agrees_weaken idx M M' t : M ⊆ M' → agrees idx M t → agrees idx M' t.
Proof.
  intros HM. induction t as [i cs IH|i cs IH|i c IH|i c IH|i l k|i a e|i re fn ev fd a e|i it q cs fn cur ev|i ms m a e|i t]
    using matchTree_ind'; intros [(b & Hb & Hi) Ha]; (split; [exists b; split; [done|by eapply lookup_weaken]|]); auto.
  all: apply foldr_agrees; apply foldr_agrees in Ha; rewrite Forall_forall in *; auto.
Qed.

Lemma children_meaning idx cs bs :
  Forall (λ c, ∀ b, NoDup (ids c) → denote idx c = Ok b → ∃ M : gmap nat bool, agrees idx M c ∧ ∀ k, k ∈ dom M → k ∈ ids c) cs →
  NoDup (mjoin (map ids cs)) → mapM (denote idx) cs = Ok bs →
  ∃ M : gmap nat bool, Forall (agrees idx M) cs ∧ ∀ k, k ∈ dom M → k ∈ mjoin (map ids cs).
Proof.
  intros IH. revert bs. induction IH as [|c cs Hc _ IHcs]; intros bs Hn Hbs; simpl in *.
  { exists ∅. split; [constructor|]. set_solver. }
  apply bind_Ok in Hbs as (b & Hb & Hbs). apply bind_Ok in Hbs as (bs' & Hbs & _).
  apply NoDup_app in Hn as (Hn1 & Hdisj & Hn2).
  destruct (Hc b Hn1 Hb) as (M1 & Ha1 & Hd1). destruct (IHcs bs' Hn2 Hbs) as (M2 & Ha2 & Hd2).
  exists (M1 ∪ M2). assert (M1 ##ₘ M2) as Hd.
  { apply map_disjoint_dom. intros k Hk1 Hk2. eapply Hdisj; eauto. }
  split; [constructor|].
  - eapply agrees_weaken; [|done]. by apply map_union_subseteq_l.
  - eapply Forall_impl; [exact Ha2|]. intros c' Hc'. eapply agrees_weaken; [|done]. by apply map_union_subseteq_r.
  - intros k. rewrite dom_union, elem_of_union, elem_of_app. naive_solver.
Qed.

Lemma extend_meaning idx t b (M : gmap nat bool) (l : list nat) :
  mt_id t ∉ l → (∀ k, k ∈ dom M → k ∈ l) → denote idx t = Ok b →
  M ⊆ <[mt_id t := b]> M ∧ (∃ b', denote idx t = Ok b' ∧ <[mt_id t := b]> M !! mt_id t = Some b') ∧
  ∀ k, k ∈ dom (<[mt_id t := b]> M) → k ∈ mt_id t :: l.
Proof.
  intros Hi Hd Hb. split_and!.
  - apply insert_subseteq. apply not_elem_of_dom. auto.
  - exists b. split; [done|]. apply lookup_insert_eq.
  - intros k. rewrite dom_insert. set_solver.
Qed.

Lemma meaning_exists idx t b :
  NoDup (ids t) → denote idx t = Ok b → ∃ M : gmap nat bool, agrees idx M t ∧ ∀ k, k ∈ dom M → k ∈ ids t.
Proof.
  revert b. induction t as [i cs IH|i cs IH|i c IH|i c IH|i l k|i a e|i re fn ev fd a e|i it q cs fn cur ev|i ms m a e|i t]
    using matchTree_ind'; intros b Hn Hb.
  1, 2: pose proof Hb as Hb0; cbn [denote] in Hb0; apply bind_Ok in Hb0 as (bs & Hbs & _);
    cbn [ids] in Hn; apply NoDup_cons in Hn as [Hi Hn];
    destruct (children_meaning idx cs bs IH Hn Hbs) as (M & Ha & Hd);
    destruct (extend_meaning idx _ b M _ Hi Hd Hb) as (Hsub & Hm & Hdom);
    eexists; (split; [split; [exact Hm|]|exact Hdom]); apply foldr_agrees;
    eapply Forall_impl; [exact Ha|]; intros c' Hc'; by eapply agrees_weaken.
  { pose proof Hb as Hb0. cbn [denote] in Hb0. apply bind_Ok in Hb0 as (b0 & Hb0 & _).
    cbn [ids] in Hn. apply NoDup_cons in Hn as [Hi Hn]. destruct (IH b0 Hn Hb0) as (M & Ha & Hd).
    destruct (extend_meaning idx _ b M _ Hi Hd Hb) as (Hsub & Hm & Hdom).
    eexists. split; [split; [exact Hm|by eapply agrees_weaken]|exact Hdom]. }
  { cbn [ids] in Hn. apply NoDup_cons in Hn as [Hi Hn]. destruct (IH b Hn Hb) as (M & Ha & Hd).
    destruct (extend_meaning idx _ b M _ Hi Hd Hb) as (Hsub & Hm & Hdom).
    eexists. split; [split; [exact Hm|by eapply agrees_weaken]|exact Hdom]. }
  all: destruct (extend_meaning idx _ b ∅ [] (not_elem_of_nil _) ltac:(set_solver) Hb) as (_ & Hm & Hdom);
    eexists; (split; [split; [exact Hm|done]|exact Hdom]).
Qed.

Lemma costLoop_ok idx M n cost t b s :
  agrees idx M t → denote idx t = Ok b → cp_ok idx (fst s) → snd s ⊆ M →
  cost + Z.of_nat n = costMax + 1 → (n = 0%nat → b = true) →
  ∃ s' t', costLoop d n cost t s = Ok (b, s', t') ∧ cp_ok idx (fst s') ∧ snd s' ⊆ M ∧ agrees idx M t' ∧ denote idx t' = Ok b.
Proof.
  revert cost t s. induction n as [|n IH]; intros cost t s Ha Hb Hp Hk Hc Hn; cbn [costLoop].
  { rewrite (Hn eq_refl) in *. exists s, t. by split_and!. }
  destruct (matches_ok idx M cost t s b Ha Hb Hp Hk) as (v & ok & s' & t' & -> & Hv & Hcost & Hp' & Hk' & Ha' & Hd' & _).
  cbn [mbind res_bind]. destruct (ok && negb v) eqn:E.
  { apply andb_true_iff in E as [-> Ev%negb_true_iff]. assert (b = false) as -> by (rewrite <- Hv; done).
    exists s', t'. by split_and!. }
  destruct ((cost =? costMax) && negb ok) eqn:E2.
  { apply andb_true_iff in E2 as [->%Z.eqb_eq Hok%negb_true_iff]. rewrite Hcost in Hok; done. }
  apply IH; try done; [lia|]. intros ->. rewrite Hcost in * by lia. simpl in E. apply negb_false_iff in E as ->. symmetry. auto.
Qed.
End Decide.

(** ** Nodes keep their identities *)

Section Identities.
Context `{RegexpEngine} `{UnicodeCase} `{SortAlg} {F : Type} `{IndexFile F} (d : indexData F).

Lemma prepare_ids t doc t' : mt_prepare t doc = Ok t' → ids t' = ids t.
Proof.
  revert t'. induction t as [i cs IH|i cs IH|i c IH|i c IH|i l k|i a e|i re fn ev fd a e|i it q cs fn cur ev|i ms m a e|i t]
    using matchTree_ind'; intros t' Ht; cbn [mt_prepare] in Ht.
  1, 2: apply bind_Ok in Ht as (cs' & Hcs & [= <-]); cbn [ids mt_id]; f_equal; revert cs' Hcs;
    induction IH as [|c cs Hc _ IHcs]; intros cs' Hcs; cbn [prepareAll] in Hcs; [by injection Hcs as <-|];
    apply bind_Ok in Hcs as (c' & Hc' & Hcs); apply bind_Ok in Hcs as (cs'' & Hcs' & [= <-]);
    simpl; by rewrite (Hc _ Hc'), (IHcs _ Hcs').
  3: by destruct (splitDocs doc (dropDocs doc l)); injection Ht as <-.
  5: { apply bind_Ok in Ht as (it' & _ & Ht). apply bind_Ok in Ht as ([cur' it''] & _ & [= <-]). done. }
  1, 2: apply bind_Ok in Ht as (c' & Hc & [= <-]); cbn [ids mt_id]; f_equal; auto.
  all: by injection Ht as <-.
Qed.

Lemma nextDoc_ids t m t' : mt_nextDoc t = Ok (m, t') → ids t' = ids t.
Proof.
  revert m t'. induction t as [i cs IH|i cs IH|i c IH|i c IH|i l k|i a e|i re fn ev fd a e|i it q cs fn cur ev|i ms x a e|i t]
    using matchTree_ind'; intros m t' Ht; cbn [mt_nextDoc] in Ht.
  1, 2: apply bind_Ok in Ht as ([m' cs'] & Hcs & [= <- <-]); cbn [ids mt_id]; f_equal; revert m' cs' Hcs;
    match goal with |- context [nextAll _ _ ?b _] => generalize b end;
    induction IH as [|c cs Hc _ IHcs]; intros best m' cs' Hcs; cbn [nextAll] in Hcs; [by injection Hcs as <- <-|];
    apply bind_Ok in Hcs as ([x c'] & Hc' & Hcs); apply bind_Ok in Hcs as ([y cs''] & Hcs' & [= <- <-]);
    simpl; rewrite (Hc _ _ Hc'); f_equal; by eapply IHcs.
  2: { apply bind_Ok in Ht as ([m' c'] & Hc & [= <- <-]). cbn [ids mt_id]. f_equal. eauto. }
  5: { apply bind_Ok in Ht as ([m' it'] & _ & [= <- <-]). done. }
  all: by injection Ht as <- <-.
Qed.

(** What evaluation leaves alone: everything but the candidates and matches that
    are collected on the current document. *)
Fixpoint erase (t : matchTree) : matchTree :=
  match t with
  | andMatchTree i cs => andMatchTree i (map erase cs)
  | orMatchTree i cs => orMatchTree i (map erase cs)
  | notMatchTree i c => notMatchTree i (erase c)
  | noVisitMatchTree i c => noVisitMatchTree i (erase c)
  | regexpMatchTree i re fileName ev _ firstDone docID => regexpMatchTree i re fileName ev [] firstDone docID
  | substrMatchTree i iter q cs fileName _ ev => substrMatchTree i iter q cs fileName [] ev
  | t => t
  end.

Lemma ids_erase t : ids (erase t) = ids t.
Proof.
  induction t as [i cs IH|i cs IH|i c IH|i c IH| | | | | |] using matchTree_ind'; try done; cbn [erase ids mt_id]; f_equal; try done;
    rewrite map_map; f_equal; apply map_ext_in; intros x Hx; rewrite Forall_forall in IH; apply IH; by apply list_elem_of_In.
Qed.

Lemma evalWith_erase (ev : contentProvider * gmap nat bool → res (bool * bool * (contentProvider * gmap nat bool) * matchTree))
    t s v ok s' t' :
  (∀ s v ok s' t', ev s = Ok (v, ok, s', t') → erase t' = erase t) →
  evalWith ev t s = Ok (v, ok, s', t') → erase t' = erase t.
Proof.
  intros Hev. unfold evalWith. case_match; [by intros [= <- <- <- <-]|].
  intros Hb. apply bind_Ok in Hb as ([[[v0 ok0] s0] t0] & Ht0 & [= <- <- <- <-]). eauto.
Qed.

Lemma matches_erase cost t s v ok s' t' : matches d cost t s = Ok (v, ok, s', t') → erase t' = erase t.
Proof.
  revert s v ok s' t'. induction t as [i cs IH|i cs IH|i c IH|i c IH|i l k|i a e|i re fn ev fd a e|i it q cs fn cur ev|i ms x a e|i t]
    using matchTree_ind'; intros s v ok s' t' Ht; cbn [matches] in Ht.
  - apply bind_Ok in Ht as ([[[v0 ok0] s0] cs'] & Hcs & [= <- <- <- <-]). cbn [erase]. f_equal. revert s v0 ok0 s0 cs' Hcs.
    generalize true. induction IH as [|c cs Hc _ IHcs]; intros sure s v0 ok0 s0 cs' Hcs; cbn [andLoop] in Hcs.
    { by injection Hcs as <- <- <- <-. }
    apply bind_Ok in Hcs as ([[[v1 ok1] s1] c'] & Hc' & Hcs). apply evalWith_erase in Hc'; [|eauto].
    destruct (ok1 && negb v1); [injection Hcs as <- <- <- <-; simpl; by rewrite Hc'|].
    apply bind_Ok in Hcs as ([[[v2 ok2] s2] cs''] & Hcs' & [= <- <- <- <-]). simpl. rewrite Hc'. f_equal. by eapply IHcs.
  - apply bind_Ok in Ht as ([[[v0 ok0] s0] cs'] & Hcs & [= <- <- <- <-]). cbn [erase]. f_equal. revert s v0 ok0 s0 cs' Hcs.
    generalize true. generalize false.
    induction IH as [|c cs Hc _ IHcs]; intros acc sure s v0 ok0 s0 cs' Hcs; cbn [orLoop] in Hcs.
    { by injection Hcs as <- <- <- <-. }
    apply bind_Ok in Hcs as ([[[v1 ok1] s1] c'] & Hc' & Hcs). apply evalWith_erase in Hc'; [|eauto].
    apply bind_Ok in Hcs as ([[[v2 ok2] s2] cs''] & Hcs' & [= <- <- <- <-]). simpl. rewrite Hc'. f_equal. by eapply IHcs.
  - apply bind_Ok in Ht as ([[[v0 ok0] s0] c'] & Hc & [= <- <- <- <-]). cbn [erase]. f_equal.
    eapply evalWith_erase; [|done]. eauto.
  - apply bind_Ok in Ht as ([[[v0 ok0] s0] c'] & Hc & [= <- <- <- <-]). cbn [erase]. f_equal. eauto.
  - by injection Ht as <- <- <- <-.
  - by injection Ht as <- <- <- <-.
  - destruct (cost <? costRegexp); [by injection Ht as <- <- <- <-|].
    apply bind_Ok in Ht as ([[c b] p] & _ & [= <- <- <- <-]). done.
  - destruct cur; [by injection Ht as <- <- <- <-|]. repeat (case_match; [by injection Ht as <- <- <- <-|]).
    apply bind_Ok in Ht as ([pr p] & _ & [= <- <- <- <-]). done.
  - apply bind_Ok in Ht as (m & _ & [= <- <- <- <-]). done.
  - by injection Ht as <- <- <- <-.
Qed.

Lemma costLoop_erase n cost t s v s' t' : costLoop d n cost t s = Ok (v, s', t') → erase t' = erase t.
Proof.
  revert cost t s. induction n as [|n IH]; intros cost t s Ht; cbn [costLoop] in Ht; [by injection Ht as <- <- <-|].
  apply bind_Ok in Ht as ([[[v0 ok0] s0] t0] & Hm & Ht). apply matches_erase in Hm.
  destruct (ok0 && negb v0); [by injection Ht as <- <- <-|]. destruct ((cost =? costMax) && negb ok0); [done|].
  rewrite <- Hm. eauto.
Qed.

(** ** The trees of newMatchTree *)

Definition numbered (n n' : nat) (t : matchTree) : Prop :=
  (n <= n')%nat ∧ NoDup (ids t) ∧ Forall (λ k, n <= k < n')%nat (ids t).

Lemma numbered_leaf n t : ids t = [n] → numbered n (S n) t.
Proof. intros E. unfold numbered. rewrite E. split_and!; [lia|apply NoDup_singleton|]. repeat constructor; lia. Qed.

Lemma numbered_node n n' t l :
  (n <= n')%nat → NoDup l → Forall (λ k, n <= k < n')%nat l → ids t = n' :: l → numbered n (S n') t.
Proof.
  intros Hle Hn Hf E. unfold numbered. rewrite E. split_and!; [lia| |].
  - constructor; [|done]. intros Hin. rewrite Forall_forall in Hf. specialize (Hf _ Hin). lia.
  - constructor; [lia|]. eapply Forall_impl; [exact Hf|]. simpl. lia.
Qed.

Lemma buildTree_numbered leaf :
  (∀ q n t n', leaf q n = Ok (t, n') → numbered n n' t) →
  ∀ q n t n', buildTree leaf q n = Ok (t, n') → numbered n n' t.
Proof.
  intros Hleaf q.
  assert (∀ cs, Forall (λ q, ∀ n t n', buildTree leaf q n = Ok (t, n') → numbered n n' t) cs →
    ∀ n ts n', buildAll (buildTree leaf) cs n = Ok (ts, n') →
      (n <= n')%nat ∧ NoDup (mjoin (map ids ts)) ∧ Forall (λ k, n <= k < n')%nat (mjoin (map ids ts))) as Hall.
  { induction 1 as [|c cs Hc _ IH]; intros n ts n' Hb; cbn [buildAll] in Hb.
    { injection Hb as <- <-. split_and!; [lia|constructor|constructor]. }
    apply bind_Ok in Hb as ([t n1] & Ht & Hb). apply bind_Ok in Hb as ([ts' n2] & Hts & [= <- <-]).
    destruct (Hc _ _ _ Ht) as (Hle1 & Hn1 & Hf1). destruct (IH _ _ _ Hts) as (Hle2 & Hn2 & Hf2).
    rewrite Forall_forall in Hf1, Hf2. split_and!; [lia| |].
    - simpl. apply NoDup_app. split_and!; [done| |done]. intros k Hk1 Hk2. specialize (Hf1 k Hk1). specialize (Hf2 k Hk2). lia.
    - simpl. apply Forall_app. rewrite !Forall_forall. split; intros k Hk; [specialize (Hf1 k Hk)|specialize (Hf2 k Hk)]; lia. }
  induction q as [cs IH|cs IH|c IH|q Hq] using Q_ind'; intros n t n' Hb.
  1, 2: cbn [buildTree] in Hb; apply bind_Ok in Hb as ([ts n1] & Hts & [= <- <-]);
    destruct (Hall cs IH _ _ _ Hts) as (Hle & Hn & Hf); by eapply numbered_node.
  - cbn [buildTree] in Hb. apply bind_Ok in Hb as ([t1 n1] & Ht & [= <- <-]).
    destruct (IH _ _ _ Ht) as (Hle & Hn & Hf). by eapply numbered_node.
  - apply (Hleaf q). by destruct q.
Qed.

Lemma newSubstring_numbered s n t n' : newSubstringMatchTree d s n = Ok (t, n') → ids t = [n] ∧ n' = S n.
Proof.
  unfold newSubstringMatchTree. case_match; intros Hb; apply bind_Ok in Hb as (r & _ & [= <- <-]); done.
Qed.

Lemma newLeaf_numbered reString sub :
  (∀ q n t n', sub q n = Ok (t, n') → numbered n n' t) →
  ∀ q n t n', newLeaf d reString sub q n = Ok (t, n') → numbered n n' t.
Proof.
  intros Hsub q n t n' Hb. destruct q; cbn [newLeaf] in Hb; try done.
  - apply bind_Ok in Hb as (subQ & _ & Hb). apply bind_Ok in Hb as ([st n1] & Ht & Hb).
    apply bind_Ok in Hb as (r & _ & [= <- <-]). destruct (Hsub _ _ _ _ Ht) as (Hle & Hn & Hf). rewrite Forall_forall in Hf.
    assert (∀ k, (n1 <= k)%nat → k ∉ ids st) as Hout by (intros k Hk Hin; specialize (Hf k Hin); lia).
    unfold numbered. cbn [ids mt_id map mjoin list_join]. rewrite app_nil_r. split_and!; [lia| |].
    + simpl. rewrite !NoDup_cons, !not_elem_of_cons. split_and!; try done; try lia; apply Hout; lia.
    + repeat (constructor; [lia|]). apply Forall_forall. intros k Hk. specialize (Hf k Hk). lia.
  - apply bind_Ok in Hb as ([st n1] & Ht & Hb). apply newSubstring_numbered in Ht as [Hids ->].
    repeat case_match; try done. injection Hb as <- <-. by apply numbered_leaf.
  - case_match; injection Hb as <- <-; by apply numbered_leaf.
  - case_match; injection Hb as <- <-; by apply numbered_leaf.
  - apply newSubstring_numbered in Hb as [Hids ->]. by apply numbered_leaf.
  - injection Hb as <- <-. by apply numbered_leaf.
Qed.

Lemma newMatchTree_NoDup reString q n t n' : newMatchTree d reString q n = Ok (t, n') → NoDup (ids t).
Proof.
  intros Hb. apply (buildTree_numbered (newLeaf d reString (buildTree (newLeaf d reString (λ _ _, OutOfFuel)))) ) in Hb.
  - by destruct Hb as (_ & ? & _).
  - apply newLeaf_numbered, buildTree_numbered, newLeaf_numbered. done.
Qed.

(** The trees that a search goes through. *)
Inductive reached (reString : Regexp → bytes) (q : Q) : matchTree → Prop :=
| reached_new t n : newMatchTree d reString q 0 = Ok (t, n) → reached reString q t
| reached_next t m t' : reached reString q t → mt_nextDoc t = Ok (m, t') → reached reString q t'
| reached_prepare t doc t' : reached reString q t → mt_prepare t doc = Ok t' → reached reString q t'
| reached_decide t p v s t' : reached reString q t → decideDoc d t p = Ok (v, s, t') → reached reString q t'.

Lemma reached_NoDup reString q t : reached reString q t → NoDup (ids t).
Proof.
  induction 1 as [t n Hn|t m t' _ IH Hn|t doc t' _ IH Hp|t p v s t' _ IH Hd].
  - by eapply newMatchTree_NoDup.
  - by rewrite (nextDoc_ids _ _ _ Hn).
  - by rewrite (prepare_ids _ _ _ Hp).
  - by rewrite <- ids_erase, (costLoop_erase _ _ _ _ _ _ _ Hd), ids_erase.
Qed.

(** The tree of a query, prepared for a document. *)
Definition treeAt (reString : Regexp → bytes) (q : Q) (doc : Z) : res matchTree :=
  '(t, _) ← newMatchTree d reString q 0; mt_prepare t doc.
Lemma treeAt_reached reString q doc t : treeAt reString q doc = Ok t → reached reString q t.
Proof.
  intros E. apply bind_Ok in E as ([t0 n] & Hn & Hp). eapply reached_prepare; [|exact Hp]. by eapply reached_new.
Qed.

(** A document on which the tree has a meaning is decided accordingly. *)
Lemma decide_ok t p b : NoDup (ids t) → cp__data p = None → denote d (cp_idx p) t = Ok b →
  ∃ s t', decideDoc d t p = Ok (b, s, t') ∧ denote d (cp_idx p) t' = Ok b.
Proof.
  intros Hnd Hp Hb.
  destruct (meaning_exists d (cp_idx p) t b Hnd Hb) as (M & Ha & _).
  destruct (costLoop_ok d (cp_idx p) M (Z.to_nat (costMax - costMin + 1)) costMin t b (p, ∅)) as (s & t' & Hc & _ & _ & _ & Hd');
    try done.
  - split; [done|]. simpl. by rewrite Hp.
  - simpl. apply map_empty_subseteq.
  - by exists s, t'.
Qed.
End Identities.

(** ** Properties *)

(** C5: a document is decided, and decided rightly. Take any tree that a
    search can reach from newMatchTree by nextDoc, prepare and earlier decisions,
    and a document on which every leaf can be evaluated. Then the loop over the
    costs never panics with "did not decide", and accepts the document exactly when
    the boolean combination of its leaves holds, although rounds leave nodes
    undecided, decided nodes are not looked at again, and leaves prune their
    candidates on the way. *)
Theorem decideDoc_exact `{RegexpEngine} `{UnicodeCase} {F} `{IndexFile F} (d : indexData F)
    (reString : Regexp → bytes) (q : Q) (t : matchTree) (p : contentProvider) (b : bool)
    (Ht : reached d reString q t) (Hp : cp__data p = None) (Hb : denote d (cp_idx p) t = Ok b) :
  ∃ s t', decideDoc d t p = Ok (b, s, t') ∧ denote d (cp_idx p) t' = Ok b.
Proof.
  apply decide_ok; [by eapply reached_NoDup|done..].
Qed.

(** Witness: "main" in any case and not "pack", on the second document of a
    written and loaded shard. *)
Definition toyEngine : RegexpEngine := {|
  regexp := bytes;
  Compile := Some;
  FindAllIndex re text := if 0 <=? Index text re then [(Index text re, Index text re + lenZ re)] else [] |}.
Definition toyQuery : Q :=
  QAnd [QSubstring (MkSubstring (str "main") false false true);
        QNot (QSubstring (MkSubstring (str "pack") false false true)); QLanguage (str "c")].
Definition toyTree : res (@matchTree toyEngine) :=
  @treeAt toyEngine unicode_latin _ _ toyShard (λ _, []) toyQuery 1.

Lemma toyTree_denotes :
  match toyTree with Ok t => @denote toyEngine unicode_latin _ _ toyShard 1 t | _ => OutOfFuel end = Ok true.
Proof. vm_cast_no_check (eq_refl (@Ok bool true)). Qed.
Lemma decideDoc_exact_witness :
  match toyTree with
  | Ok t => ∃ s t', @decideDoc toyEngine unicode_latin _ _ toyShard t (fresh 1) = Ok (true, s, t') ∧
              @denote toyEngine unicode_latin _ _ toyShard (cp_idx (fresh 1)) t' = Ok true
  | _ => False
  end.
Proof.
  generalize toyTree_denotes
    (@treeAt_reached toyEngine unicode_latin _ _ toyShard (λ _, []) toyQuery 1 : ∀ t, toyTree = Ok t → _).
  destruct toyTree as [t| | |]; [|discriminate 1..].
  intros Hden Hreach.
  exact (@decideDoc_exact toyEngine unicode_latin _ _ toyShard (λ _, []) toyQuery t (fresh 1) true (Hreach t eq_refl)
    eq_refl Hden).
Defined.
