(* ===== verification/Gather.v ===== *)
(** * The matches of an accepted document

    Theorems about gatherMatches of eval.go (merging of candidates) and about
    fillContentMatches of contentprovider.go (their distribution over lines). *)

From Stdlib Require Import SpecFloat.
From S2P Require Import Prelude GoStd Bits Api HitIter MatchIter Query Section IndexBuilder IndexData Content MatchTree Eval Decide.
Import utf8 binary.

(** ** Intervals *)

Definition cm_end (c : candidateMatch) : Z := cm_byteOffset c + cm_byteMatchSz c.

(** The candidate lies within 32 bits. *)
Definition cm_ok (c : candidateMatch) : Prop :=
  0 <= cm_byteOffset c ∧ 0 <= cm_byteMatchSz c ∧ cm_end c <= maxUInt32.

(** Position [x] is in, or at the end of, the candidate. *)
Definition touches (c : candidateMatch) (x : Z) : Prop := cm_byteOffset c <= x <= cm_end c.
Definition inside (c : candidateMatch) (x : Z) : Prop := cm_byteOffset c <= x < cm_end c.

Definition before (a b : candidateMatch) : Prop := cm_byteOffset a <= cm_byteOffset b.
Definition apart (a b : candidateMatch) : Prop := cm_end a < cm_byteOffset b.

(** ** Merging *)

(** One step: [c] starts in or right after [last], and is absorbed. *)
Definition absorb (last c : candidateMatch) : candidateMatch :=
  if cm_byteOffset last ⊕ cm_byteMatchSz last <? cm_byteOffset c ⊕ cm_byteMatchSz c
  then set_byteMatchSz last ((cm_byteOffset c ⊕ cm_byteMatchSz c) ⊖ cm_byteOffset last) else last.

Lemma cm_end_u32 c : cm_ok c → cm_byteOffset c ⊕ cm_byteMatchSz c = cm_end c.
Proof. unfold cm_ok, cm_end. intros. apply u32_id. u32_unfold. lia. Qed.

Lemma absorb_spec last c :
  cm_ok last → cm_ok c → before last c →
  cm_ok (absorb last c) ∧ cm_byteOffset (absorb last c) = cm_byteOffset last ∧
  cm_fileName (absorb last c) = cm_fileName last ∧ cm_end (absorb last c) = Z.max (cm_end last) (cm_end c).
Proof.
  intros Hl Hc Hb. unfold absorb. rewrite !cm_end_u32 by done. destruct (Z.ltb_spec (cm_end last) (cm_end c)) as [Hlt|Hge].
  - unfold cm_ok, before, cm_end in *. cbn [set_byteMatchSz cm_byteOffset cm_byteMatchSz cm_fileName].
    rewrite (u32_id (_ - _)) by (u32_unfold; lia). repeat split; lia.
  - split_and!; try done. lia.
Qed.

Lemma mergeLoop_cons last c cands :
  cm_ok last → mergeLoop last (c :: cands) =
  if cm_byteOffset c <=? cm_end last then mergeLoop (absorb last c) cands else last :: mergeLoop c cands.
Proof. intros Hl. unfold absorb. cbn [mergeLoop]. by rewrite (cm_end_u32 last) by done. Qed.

Lemma or_assoc_iff (A B C D : Prop) : (A ↔ B ∨ C) → (A ∨ D ↔ B ∨ C ∨ D).
Proof. tauto. Qed.

(** What the merge loop gives: intervals from the given ones, in order and apart,
    that cover the same positions. *)
Lemma mergeLoop_spec (cands : list candidateMatch) : ∀ last,
  cm_ok last → Forall cm_ok cands → StronglySorted before (last :: cands) →
  let out := mergeLoop last cands in
  Forall cm_ok out ∧ StronglySorted apart out ∧ Forall (before last) out ∧
  (∀ b, Forall (λ c, cm_fileName c = b) (last :: cands) → Forall (λ c, cm_fileName c = b) out) ∧
  (∀ x, Exists (λ c, touches c x) out ↔ Exists (λ c, touches c x) (last :: cands)) ∧
  (∀ x, Exists (λ c, inside c x) out ↔ Exists (λ c, inside c x) (last :: cands)).
Proof.
  induction cands as [|c cands IH]; intros last Hl Hcs Hs out; subst out.
  { cbn [mergeLoop]. split_and!; try done; [by constructor|by repeat constructor|]. constructor; [unfold before; lia|done]. }
  apply Forall_cons in Hcs as [Hc Hcs]. inversion Hs as [|? ? Hs' Hb]; subst.
  apply Forall_cons in Hb as [Hb Hbs]. inversion Hs' as [|? ? Hs'' Hcb]; subst.
  rewrite mergeLoop_cons by done. destruct (Z.leb_spec (cm_byteOffset c) (cm_end last)) as [Hle|Hgt].
  - destruct (absorb_spec last c Hl Hc Hb) as (Ha & Hao & Haf & Hae).
    destruct (IH (absorb last c)) as (H1 & H2 & H3 & H4 & H5 & H6); [done|done| |].
    { constructor; [done|]. eapply Forall_impl; [exact Hbs|]. intros m. unfold before. by rewrite Hao. }
    split_and!; try done.
    + eapply Forall_impl; [exact H3|]. intros m. unfold before. by rewrite Hao.
    + intros b (Hf & Hfs)%Forall_cons. apply Forall_cons in Hfs as [_ Hfs]. apply H4. constructor; [congruence|done].
    + intros x. rewrite H5, !Exists_cons. unfold touches. rewrite Hao, Hae. apply or_assoc_iff. unfold before in *. lia.
    + intros x. rewrite H6, !Exists_cons. unfold inside. rewrite Hao, Hae. apply or_assoc_iff. unfold before in *. lia.
  - destruct (IH c) as (H1 & H2 & H3 & H4 & H5 & H6); [done..|].
    split_and!.
    + by constructor.
    + constructor; [done|]. eapply Forall_impl; [exact H3|]. unfold apart, before. lia.
    + constructor; [unfold before; lia|]. eapply Forall_impl; [exact H3|]. unfold before in *. lia.
    + intros b (Hf & Hfs)%Forall_cons. constructor; [done|]. by apply H4.
    + intros x. rewrite Exists_cons, H5, (Exists_cons _ last). done.
    + intros x. rewrite Exists_cons, H6, (Exists_cons _ last). done.
Qed.

Lemma mergeCandidates_spec `{SortAlg} (cands : list candidateMatch) :
  Forall cm_ok cands →
  let out := mergeCandidates cands in
  Forall cm_ok out ∧ StronglySorted apart out ∧
  (∀ b, Forall (λ c, cm_fileName c = b) cands → Forall (λ c, cm_fileName c = b) out) ∧
  (∀ x, Exists (λ c, touches c x) out ↔ Exists (λ c, touches c x) cands) ∧
  (∀ x, Exists (λ c, inside c x) out ↔ Exists (λ c, inside c x) cands).
Proof.
  intros Hok out. subst out. unfold mergeCandidates.
  set (less := λ a b : candidateMatch, _).
  pose proof (go_sort_perm less cands) as Hp.
  assert (StronglySorted before (go_sort less cands)) as Hs.
  { eapply StronglySorted_impl; [|apply go_sort_strongly, (weak_order_key cm_byteOffset)].
    intros a b Hab. by apply Z.ltb_ge. }
  assert (∀ P, Forall P cands ↔ Forall P (go_sort less cands)) as HF by (intros P; by rewrite Hp).
  assert (∀ P, Exists P cands ↔ Exists P (go_sort less cands)) as HE.
  { intros P. rewrite !Exists_exists. setoid_rewrite Hp. done. }
  setoid_rewrite HF. setoid_rewrite HE. apply HF in Hok.
  destruct (go_sort less cands) as [|c l]; [split_and!; try done; constructor|].
  apply Forall_cons in Hok as [? ?]. destruct (mergeLoop_spec l c) as (Hok1 & H2 & _ & H4 & H5 & H6); done.
Qed.

(** The candidates of the nodes that matched, and those of them that are kept. *)
Definition found `{RegexpEngine} (mt : matchTree) (known : gmap nat bool) : list candidateMatch :=
  mjoin (map nodeCandidates (visitMatches mt known)).
Definition kept (cands : list candidateMatch) (c : candidateMatch) : Prop :=
  c ∈ cands ∧ (cm_fileName c = true → ∀ c', c' ∈ cands → cm_fileName c' = true).

Lemma dropNames_kept cands c : c ∈ dropNames cands ↔ kept cands c.
Proof.
  unfold dropNames, kept. rewrite list_elem_of_filter, orb_true_iff, !negb_true_iff.
  assert (existsb (λ c, negb (cm_fileName c)) cands = false ↔ ∀ c', c' ∈ cands → cm_fileName c' = true) as Hex.
  { rewrite <- not_true_iff_false, existsb_exists. setoid_rewrite negb_true_iff. split.
    - intros Hn c' Hc'. destruct (cm_fileName c') eqn:E; [done|]. destruct Hn. exists c'. by rewrite <- list_elem_of_In.
    - intros Hall (c' & Hc' & E). rewrite <- list_elem_of_In in Hc'. specialize (Hall c' Hc'). congruence. }
  rewrite Hex. destruct (cm_fileName c); naive_solver.
Qed.

Lemma dropNames_uniform cands :
  ∃ b, Forall (λ c, cm_fileName c = b) (dropNames cands) ∧ (b = true → Forall (λ c, cm_fileName c = true) cands).
Proof.
  destruct (existsb (λ c, negb (cm_fileName c)) cands) eqn:E.
  - exists false. split; [|done]. apply Forall_forall. intros c. unfold dropNames. rewrite E, list_elem_of_filter. simpl.
    rewrite negb_true_iff. tauto.
  - assert (Forall (λ c, cm_fileName c = true) cands) as Hall.
    { apply Forall_forall. intros c Hc. destruct (cm_fileName c) eqn:Ec; [done|].
      apply not_true_iff_false in E. destruct E. apply existsb_exists. exists c. by rewrite <- list_elem_of_In, Ec. }
    exists true. split; [|done]. rewrite Forall_forall in Hall |- *. intros c [Hc _]%dropNames_kept. by apply Hall.
Qed.

(** ** Properties *)

(** C25: what the comment of gatherMatches promises. The matches of a document are
    in document order and do not even touch each other; they are all in the contents
    or all in the name, and in the name only if nothing was found in the contents;
    and no part of a candidate is lost or invented: a position is in a match
    exactly when it is in a candidate that is kept. *)
Theorem gatherMatches_spec `{RegexpEngine} `{SortAlg} (mt : matchTree) (known : gmap nat bool)
    (Hok : Forall cm_ok (found mt known)) :
  let out := gatherMatches mt known in
  StronglySorted apart out ∧
  (∃ b, Forall (λ c, cm_fileName c = b) out ∧ (b = true → Forall (λ c, cm_fileName c = true) (found mt known))) ∧
  (∀ x, Exists (λ c, touches c x) out ↔ ∃ c, kept (found mt known) c ∧ touches c x) ∧
  (∀ x, Exists (λ c, inside c x) out ↔ ∃ c, kept (found mt known) c ∧ inside c x).
Proof.
  intros out.
  assert (Forall cm_ok (dropNames (found mt known))) as Hok'.
  { apply Forall_forall. intros c [Hc _]%dropNames_kept. rewrite Forall_forall in Hok. by apply Hok. }
  destruct (mergeCandidates_spec _ Hok') as (_ & H1 & H2 & H3 & H4). unfold out, gatherMatches. fold (found mt known).
  split; [done|]. split; [|setoid_rewrite H3; setoid_rewrite H4; setoid_rewrite Exists_exists;
    by setoid_rewrite dropNames_kept].
  destruct (dropNames_uniform (found mt known)) as (b & Hb & Hall). exists b. split; [by apply H2|done].
Qed.

(** Witness: overlapping matches in the contents are merged, matches in the name
    are dropped. *)
Definition toyFound : @matchTree toyEngine :=
  @orMatchTree toyEngine 2
    [@regexpMatchTree toyEngine 0 [] false true
       [regexpCandidate false (12, 13); regexpCandidate false (5, 9); regexpCandidate false (3, 6)] true 0;
     @regexpMatchTree toyEngine 1 [] true true [regexpCandidate true (1, 2)] true 0].
Definition toyKnown : gmap nat bool := <[0%nat := true]> (<[1%nat := true]> ∅).

Lemma gatherMatches_spec_witness :
  let out := @gatherMatches toyEngine merge_sort_alg toyFound toyKnown in
  map (λ c, (cm_byteOffset c, cm_end c)) out = [(3, 9); (12, 13)] ∧ StronglySorted apart out ∧
  ∀ x, Exists (λ c, inside c x) out ↔ ∃ c, kept (@found toyEngine toyFound toyKnown) c ∧ inside c x.
Proof.
  intros out. split; [reflexivity|].
  destruct (@gatherMatches_spec toyEngine merge_sort_alg toyFound toyKnown) as (H1 & _ & _ & H4).
  - repeat constructor; discriminate.
  - split; [exact H1|exact H4].
Defined.
