(* ===== verification/Lines.v ===== *)
(** * Lines of matches

    fillContentMatches of contentprovider.go distributes the matches of a document
    over its lines. The theorem is about any loaded shard that answers for the
    document: the contents and the line index come from its file. *)

From Stdlib Require Import SpecFloat.
From S2P Require Import Prelude GoStd Bits Api HitIter MatchIter Query Section IndexBuilder IndexData Content MatchTree Eval Decide Shard Gather.
Import utf8 binary.

(** ** The line index *)

Lemma newLines_bounds i c : 0 <= i → i + lenZ c <= two32 →
  increasing (newLines_loop i c) ∧ Forall (λ n, i <= n < i + lenZ c) (newLines_loop i c).
Proof.
  revert i. induction c as [|x c IH]; intros i Hi Hl; cbn [newLines_loop]; [split; constructor|].
  rewrite lenZ_cons in *. pose proof (lenZ_nonneg c). destruct (IH (i + 1)) as [Hinc Hf]; [lia..|].
  assert (Forall (λ n, i <= n < i + (1 + lenZ c)) (newLines_loop (i + 1) c)) as Hf'
    by (eapply Forall_impl; [exact Hf|]; simpl; lia).
  destruct (x =? 10); [|done]. rewrite u32_id by (u32_unfold; lia). split.
  - constructor; [done|]. eapply Forall_impl; [exact Hf|]. simpl. lia.
  - constructor; [lia|done].
Qed.

Lemma elem_of_newLines i c n : 0 <= i → i + lenZ c <= two32 →
  n ∈ newLines_loop i c ↔ i <= n ∧ c !! Z.to_nat (n - i) = Some 10.
Proof.
  revert i. induction c as [|x c IH]; intros i Hi Hl; cbn [newLines_loop].
  { rewrite elem_of_nil, lookup_nil. split; [done|]. by intros [_ ?]. }
  rewrite lenZ_cons in *. pose proof (lenZ_nonneg c).
  assert (i + 1 <= n → (x :: c) !! Z.to_nat (n - i) = c !! Z.to_nat (n - (i + 1))) as Hsh.
  { intros. replace (Z.to_nat (n - i)) with (S (Z.to_nat (n - (i + 1)))) by lia. done. }
  assert (n = i → (x :: c) !! Z.to_nat (n - i) = Some x) as H0.
  { intros ->. by rewrite Z.sub_diag. }
  destruct (Z.eqb_spec x 10) as [->|Hne]; rewrite ?elem_of_cons, ?(u32_id i) by (u32_unfold; lia); rewrite IH by lia.
  - destruct (decide (n = i)) as [E|]; [rewrite H0 by done; intuition lia|].
    split; [intros [?|[? ?]]; [done|]; rewrite Hsh by lia; split; [lia|done]|].
    intros [? Hc]. right. split; [lia|]. by rewrite Hsh in Hc by lia.
  - destruct (decide (n = i)) as [E|]; [rewrite H0 by done; split; [lia|intros [_ [=]]; done]|].
    split; [intros [? ?]; rewrite Hsh by lia; split; [lia|done]|].
    intros [? Hc]. split; [lia|]. by rewrite Hsh in Hc by lia.
Qed.

(** The number of newlines before a position. *)
Definition newlines_before (c : bytes) (k : Z) : Z := lenZ (filter (λ x, x = 10) (take (Z.to_nat k) c)).

Lemma count_newLines i c k : 0 <= i → i + lenZ c <= two32 → 0 <= k →
  lenZ (filter (λ n, n < i + k) (newLines_loop i c)) = newlines_before c k.
Proof.
  unfold newlines_before. revert i k. induction c as [|x c IH]; intros i k Hi Hl Hk; cbn [newLines_loop].
  { by rewrite take_nil. }
  rewrite lenZ_cons in *. pose proof (lenZ_nonneg c).
  destruct (decide (k = 0)) as [->|].
  { rewrite take_0. destruct (newLines_bounds i (x :: c)) as [_ Hf]; [lia|rewrite lenZ_cons; lia|].
    rewrite filter_none; [done|]. intros n Hn. rewrite Forall_forall in Hf. specialize (Hf n Hn). simpl in Hf. lia. }
  replace (Z.to_nat k) with (S (Z.to_nat (k - 1))) by lia. rewrite firstn_cons, filter_cons.
  specialize (IH (i + 1) (k - 1)). replace (i + 1 + (k - 1)) with (i + k) in IH by lia.
  destruct (Z.eqb_spec x 10) as [->|Hne].
  - rewrite decide_True, filter_cons, (u32_id i), decide_True by (done || u32_unfold; lia).
    rewrite !lenZ_cons, IH by lia. done.
  - rewrite decide_False by done. apply IH; lia.
Qed.

(** ** Parts of the loop *)

(** The end of a line: the end of the text or a newline. *)
Definition line_end (c : bytes) (e : Z) : Prop := e = lenZ c ∨ c !! Z.to_nat e = Some 10.

Lemma extendLine_spec (c : bytes) (endMatch : Z) (fuel : nat) : ∀ e,
  0 <= e <= lenZ c → lenZ c < two32 → lenZ c - e <= Z.of_nat fuel → line_end c e →
  ∃ e', extendLine fuel c endMatch e = Ok e' ∧ e <= e' <= lenZ c ∧ line_end c e' ∧ (endMatch <= e' ∨ e' = lenZ c).
Proof.
  induction fuel as [|fuel IH]; intros e He Hc Hf Hend; cbn [extendLine].
  { assert (e = lenZ c) as -> by lia. rewrite Z.ltb_irrefl. exists (lenZ c). naive_solver lia. }
  rewrite (u32_id e) by (u32_unfold; lia). destruct (Z.ltb_spec e (lenZ c)) as [Hlt|];
    [|exists e; simpl; naive_solver lia].
  destruct (Z.ltb_spec e endMatch); [|exists e; simpl; naive_solver lia]. cbn [andb].
  rewrite slice_from_Ok by lia. cbn [mbind res_bind]. unfold IndexByte.
  pose proof (Index_bounds (drop (Z.to_nat (e + 1)) c) [10]) as Hb. rewrite lenZ_drop in Hb.
  destruct (Z.eqb_spec (Index (drop (Z.to_nat (e + 1)) c) [10]) (-1)) as [_|Hne].
  - destruct (IH (lenZ c)) as (e' & -> & ? & ? & ?); [lia|lia|lia|by left|]. exists e'. naive_solver lia.
  - destruct (Index_Some (drop (Z.to_nat (e + 1)) c) [10] _ eq_refl) as (t & Ht & _); [lia|].
    set (n := Index _ _) in *. rewrite drop_drop in Ht.
    assert (c !! Z.to_nat (e + (n + 1)) = Some 10) as Hnl.
    { replace (Z.to_nat (e + (n + 1))) with (Z.to_nat (e + 1) + Z.to_nat n + 0)%nat by lia.
      rewrite <- lookup_drop, Ht. done. }
    pose proof (lookup_lt_Some _ _ _ Hnl). unfold lenZ in *.
    destruct (IH (e + (n + 1))) as (e' & -> & ? & ? & ?); [lia|lia|lia|by right|]. exists e'. naive_solver lia.
Qed.

Lemma takeLine_spec (lineEnd : Z) (ms : list candidateMatch) : ∀ endMatch,
  Forall cm_ok ms → StronglySorted apart ms →
  ∃ lineCands rest endMatch', takeLine lineEnd ms endMatch = (lineCands, rest, endMatch') ∧ ms = lineCands ++ rest ∧
    Forall (λ m, cm_byteOffset m <= lineEnd) lineCands ∧
    Forall (λ m, cm_end m <= endMatch') lineCands ∧
    (endMatch' = endMatch ∧ lineCands = [] ∨ Exists (λ m, cm_end m = endMatch') lineCands).
Proof.
  induction ms as [|m ms IH]; intros endMatch Hok Hs; cbn [takeLine].
  { exists [], [], endMatch. split_and!; try done; [constructor..|]. by left. }
  apply Forall_cons in Hok as [Hm Hok]. apply StronglySorted_inv in Hs as [Hs Hap].
  destruct (Z.leb_spec (cm_byteOffset m) lineEnd).
  - destruct (IH (cm_byteOffset m ⊕ cm_byteMatchSz m) Hok Hs) as (lc & rest & e' & -> & -> & H1 & H2 & H3).
    rewrite cm_end_u32 in H3 by done. apply Forall_app in Hok as [Hok _], Hap as [Hap _].
    exists (m :: lc), rest, e'. split_and!; try done.
    + by constructor.
    + constructor; [|done]. destruct H3 as [[-> _]|H3]; [done|]. rewrite Exists_exists in H3.
      destruct H3 as (x & Hx & <-). rewrite Forall_forall in Hap, Hok. specialize (Hap x Hx). specialize (Hok x Hx).
      unfold apart, cm_ok, cm_end in *. lia.
    + right. destruct H3 as [[-> ->]|H3]; [by left|by right].
  - exists [], (m :: ms), endMatch. split_and!; try done; [constructor..|]. by left.
Qed.

(** ** The provider *)

Section Provider.
Context {F : Type} `{IndexFile F} (d : indexData F) (idx : Z) (c : bytes).

(** The shard answers for the contents and the line index of the document. *)
Hypothesis contents_ok : readContents d idx = Ok c.
Hypothesis newlines_ok : fst <$> readNewlines d idx = Ok (newLinesIndices c).

(** The provider is at the document, and its caches are coherent. *)
Record serves (p : contentProvider) : Prop := {
  sv_idx : cp_idx p = idx;
  sv_size : cp_fileSize p = lenZ c;
  sv_data : cp__data p = None ∨ cp__data p = Some c;
  sv_nl : cp__nl p = None ∨ cp__nl p = Some (newLinesIndices c) }.

Lemma nilable_default {A} buf (l : list A) : default [] (nilable buf l) = l ∧ (nilable buf l = None ∨ nilable buf l = Some l).
Proof. destruct l, buf; simpl; auto. Qed.

Lemma newlines_serves p : serves p → ∃ p', newlines d p = Ok (newLinesIndices c, p') ∧ serves p'.
Proof.
  intros [Hi Hs Hd Hn]. unfold newlines. destruct (cp__nl p) as [nl|] eqn:E.
  - destruct Hn as [|[= ->]]; [done|]. exists p. split; [done|]. split; try done. rewrite E. by right.
  - apply fmap_Ok in newlines_ok as ([nl sz] & Hr & Hnl). simpl in Hnl. subst nl. rewrite Hi, Hr. cbn [caught mbind res_bind].
    destruct (nilable_default (cp__nlBuf p) (newLinesIndices c)) as [-> ?]. eexists. split; [done|]. by split.
Qed.

Lemma data_serves p : serves p → ∃ spare p', data d p false = Ok (c, spare, p') ∧ serves p'.
Proof.
  intros [Hi Hs Hd Hn]. unfold data. pose proof contents_ok as Hc. unfold readContents in Hc.
  apply bind_Ok in Hc as (sec & Hsec & _). rewrite Hi, Hsec. cbn [mbind res_bind]. destruct (cp__data p) as [c'|] eqn:E.
  - destruct Hd as [|[= ->]]; [done|]. eexists _, p. split; [done|]. split; try done. rewrite E. by right.
  - rewrite contents_ok. cbn [caught mbind res_bind]. eexists _, _. split; [done|]. split; try done. by right.
Qed.

(** ** One line *)

(** A line of the document with its matches. *)
Record line_match (l : LineMatch) : Prop := {
  lk_bounds : 0 <= lm_LineStart l <= lm_LineEnd l ∧ lm_LineEnd l <= lenZ c;
  lk_text : slice c (lm_LineStart l) (lm_LineEnd l) = Ok (lm_Line l);
  lk_start : lm_LineStart l = 0 ∨ c !! Z.to_nat (lm_LineStart l - 1) = Some 10;
  lk_end : line_end c (lm_LineEnd l);
  lk_number : lm_LineNumber l = 1 + newlines_before c (lm_LineStart l);
  lk_content : lm_FileName l = false;
  lk_fragments : lm_LineFragments l ≠ [] ∧ Forall (λ f,
    lf_LineOffset f = lf_Offset f - lm_LineStart l ∧ lm_LineStart l <= lf_Offset f ∧
    lf_Offset f + lf_MatchLength f <= lm_LineEnd l) (lm_LineFragments l) }.

(** The offsets and sizes of matches. *)
Definition extents (ms : list candidateMatch) : list (Z * Z) := (λ m, (cm_byteOffset m, cm_byteMatchSz m)) <$> ms.
Definition fragments (ls : list LineMatch) : list (Z * Z) :=
  l ← ls; (λ f, (lf_Offset f, lf_MatchLength f)) <$> lm_LineFragments l.

Lemma line_fields m : lenZ c < two32 → 0 <= cm_byteOffset m <= lenZ c →
  ∃ s e, line m (newLinesIndices c) (lenZ c) = (1 + newlines_before c s, s, e) ∧
    0 <= s <= cm_byteOffset m ∧ cm_byteOffset m <= e <= lenZ c ∧
    (s = 0 ∨ c !! Z.to_nat (s - 1) = Some 10) ∧ line_end c e.
Proof.
  intros Hc Hm. destruct (newLines_bounds 0 c) as [Hinc Hb]; [lia..|].
  pose proof (line_ok m (newLinesIndices c) (lenZ c) Hinc Hb Hm Hc) as Hl.
  destruct (line m (newLinesIndices c) (lenZ c)) as [[num s] e]. destruct Hl as (Hse & He & Hs & He' & Hno & Hnum).
  assert (∀ n, n ∈ newLinesIndices c ↔ 0 <= n ∧ c !! Z.to_nat n = Some 10) as Hel.
  { intros n. unfold newLinesIndices. rewrite elem_of_newLines by lia. by rewrite Z.sub_0_r. }
  assert (0 <= s) as Hs0 by (destruct Hs as [->|Hs%Hel]; lia).
  exists s, e. split; [|split_and!; try lia; [destruct Hs as [?|[_ ?]%Hel]; auto|destruct He' as [?|[_ ?]%Hel]; [by left|by right]]].
  rewrite Hnum, <- (count_newLines 0 c s) by lia. fold (newLinesIndices c). do 4 f_equal.
  rewrite (filter_ext_elem (λ n, n < cm_byteOffset m) (λ n, n < 0 + s)); [done|].
  intros n Hn. specialize (Hno n Hn). lia.
Qed.

Lemma fillContent_loop_spec (fuel : nat) : ∀ p ms,
  lenZ c < two32 → (length ms <= fuel)%nat → serves p → Forall cm_ok ms → StronglySorted apart ms →
  Forall (λ m, cm_end m <= lenZ c) ms →
  ∃ ls p', fillContent_loop d fuel p ms = Ok (ls, p') ∧ serves p' ∧ Forall line_match ls ∧ fragments ls = extents ms.
Proof.
  induction fuel as [|fuel IH]; intros p ms Hc Hlen Hp Hok Hs Hin.
  { destruct ms; [|simpl in Hlen; lia]. by exists [], p. }
  destruct ms as [|m ms]; [by exists [], p|]. cbn [fillContent_loop].
  destruct (newlines_serves p Hp) as (p1 & -> & Hp1). cbn [mbind res_bind]. rewrite (sv_size _ Hp1).
  pose proof Hok as [Hm _]%Forall_cons. pose proof Hin as [Hme _]%Forall_cons.
  destruct (line_fields m Hc) as (s & e & -> & Hs1 & He1 & Hls & Hle); [unfold cm_ok, cm_end in *; lia|].
  destruct (takeLine_spec e (m :: ms) (cm_byteOffset m ⊕ cm_byteMatchSz m) Hok Hs) as (lc & rest & e1 & Et & Ems & H1 & H2 & H3).
  rewrite Et. destruct lc as [|m' lc].
  { exfalso. cbn [takeLine] in Et. destruct (Z.leb_spec (cm_byteOffset m) e); [|lia].
    by destruct (takeLine e ms _) as [[? ?] ?]. }
  simpl app in Ems. injection Ems as <- Ems. destruct (data_serves p1 Hp1) as (spare & p2 & -> & Hp2). cbn [mbind res_bind].
  destruct (extendLine_spec c e1 (length c) e) as (e2 & -> & He2 & Hle2 & Hge); [lia|lia|unfold lenZ; lia|done|].
  cbn [mbind res_bind]. rewrite Ems in Hok, Hs, Hin, Hlen. rewrite app_comm_cons in Hok, Hs, Hin.
  apply Forall_app in Hok as [Hok1 Hok2], Hin as [Hin1 Hin2]. simpl in Hlen. rewrite length_app in Hlen.
  destruct (IH p2 rest) as (ls & p' & Hr & Hp' & Hls' & Hfr); try done; [lia|by eapply StronglySorted_app_1_r|].
  assert (∃ ln, slice c s e2 = Ok ln) as [ln Hln] by (unfold slice; rewrite decide_True by lia; by eexists).
  rewrite Hln. cbn [mbind res_bind]. rewrite Hr. cbn [mbind res_bind]. eexists _, p'. split; [done|].
  split; [done|]. split.
  - constructor; [|done]. split; cbn [lm_LineStart lm_LineEnd lm_Line lm_LineNumber lm_FileName lm_LineFragments]; try done; [lia|].
    split; [done|]. rewrite Forall_forall in H2. rewrite Forall_forall in Hin1. apply Forall_forall. change (map ?g ?l) with (g <$> l).
    intros f (x & -> & Hx)%list_elem_of_fmap. specialize (H2 x Hx). specialize (Hin1 x Hx).
    cbn [contentFragment lf_LineOffset lf_Offset lf_MatchLength]. unfold cm_end in *. split; [done|]. split; [|lia].
    apply elem_of_cons in Hx as [->|Hx]; [lia|]. apply StronglySorted_inv in Hs as [_ Hap].
    rewrite Forall_forall in Hap. specialize (Hap x ltac:(set_solver)). unfold apart, cm_ok, cm_end in *. lia.
  - rewrite Ems. unfold fragments, extents. rewrite bind_cons. fold (fragments ls). rewrite Hfr.
    cbn [lm_LineFragments]. unfold extents. rewrite app_comm_cons, fmap_app. f_equal.
    change (map ?g ?l) with (g <$> l). by rewrite <- list_fmap_compose.
Qed.
End Provider.

(** ** Properties *)

(** C28: fillContentMatches distributes the matches of a document over its lines.
    For matches in document order that lie in the contents it returns (the panic
    about an infinite loop cannot happen, and both loops stop), every match appears
    exactly once and in order, and each line that is returned consists of whole
    lines of the file, starts after a newline, has the number of its first line, and
    contains its matches even when a match runs over several lines. *)
Theorem fillContentMatches_spec {F} `{IndexFile F} (d : indexData F) (idx : Z) (c : bytes) (p : contentProvider)
    (ms : list candidateMatch)
    (Hc : readContents d idx = Ok c) (Hn : fst <$> readNewlines d idx = Ok (newLinesIndices c))
    (Hsz : lenZ c < two32) (Hp : serves idx c p)
    (Hok : Forall cm_ok ms) (Hs : StronglySorted apart ms) (Hin : Forall (λ m, cm_end m <= lenZ c) ms) :
  ∃ ls p', fillContentMatches d p ms = Ok (ls, p') ∧ Forall (line_match c) ls ∧ fragments ls = extents ms.
Proof.
  destruct (fillContent_loop_spec d idx c Hc Hn (length ms) p ms) as (ls & p' & ? & _ & ? & ?); try done. by exists ls, p'.
Qed.

(** Witness: two matches in the second document of the shard, the first over the
    end of a line. *)
Definition toyLines : bytes := str "int" ++ [10] ++ str "Main()".
Definition toyMatches : list candidateMatch := [regexpCandidate false (1, 5); regexpCandidate false (8, 10)].

Lemma fillContentMatches_spec_witness :
  ∃ ls p', fillContentMatches toyShard (CP stats0 None 1 None None false None false 10) toyMatches = Ok (ls, p') ∧
    Forall (line_match toyLines) ls ∧ fragments ls = [(1, 4); (8, 2)].
Proof.
  apply (fillContentMatches_spec toyShard 1 toyLines (CP stats0 None 1 None None false None false 10) toyMatches).
  - vm_cast_no_check (@eq_refl (res bytes) (Ok toyLines)).
  - vm_cast_no_check (@eq_refl (res (list Z)) (Ok [3])).
  - reflexivity.
  - split; (reflexivity || by left).
  - repeat constructor; discriminate.
  - repeat constructor.
  - repeat constructor; discriminate.
Defined.
