(* ===== verification/Walk.v ===== *)
(** * Walking over the documents of a shard

    A search asks the match tree for the next document, prepares the tree for it
    and decides it. The theorem of this file is that the walk misses nothing and
    repeats nothing: [nextDoc] only jumps over documents that do not match, and
    a tree that has been moved forward means the same for the documents ahead. The
    leaves that iterate over posting lists are used through an interface,
    [stream], which the iterators of matchiter.go are shown to satisfy. *)

From Stdlib Require Import SpecFloat.
From S2P Require Import Prelude GoStd Bits Api HitIter MatchIter Query Section IndexBuilder IndexData Content MatchTree Eval Shard Decide IndexSearch.
Import utf8 binary.

(** ** Streams of candidates

    [Inv last i]: iterator [i] has gone through the documents up to [last], and
    will give [cands doc] for a document after it. *)
Record stream {I} `{MatchIterator I} (n : Z) (cands : Z → list candidateMatch) (Inv : Z → I → Prop) : Prop := {
  st_next : ∀ last i, Inv last i → ∃ m i', mi_nextDoc i = Ok (m, i') ∧ Inv last i' ∧
    ∀ doc, last < doc < n → doc < m → cands doc = [];
  st_prepare : ∀ last i doc, Inv last i → last < doc < n →
    ∃ i1 i2, mi_prepare i doc = Ok i1 ∧ mi_candidates i1 = Ok (cands doc, i2) ∧ Inv doc i2 }.

Lemma stream_none n : stream n (λ _, []) (λ _ (_ : noMatchTree), True).
Proof. split; [intros last i _; by exists maxUInt32, i|intros last i doc _ _; by exists i, i]. Qed.

Lemma stream_inl {I J} `{MatchIterator I, MatchIterator J} n cands (Inv : Z → I → Prop) :
  stream n cands Inv → stream n cands (λ last (i : I + J), match i with inl i => Inv last i | inr _ => False end).
Proof.
  intros [Hn Hp]. split.
  - intros last [i|] Hi; [|done]. destruct (Hn last i Hi) as (m & i' & E & ? & ?). exists m, (inl i').
    cbn [mi_nextDoc sum_match_iter]. by rewrite E.
  - intros last [i|] doc Hi Hd; [|done]. destruct (Hp last i doc Hi Hd) as (i1 & i2 & E1 & E2 & ?). exists (inl i1), (inl i2).
    cbn [mi_prepare mi_candidates sum_match_iter]. by rewrite E1, E2.
Qed.

Lemma stream_inr {I J} `{MatchIterator I, MatchIterator J} n cands (Inv : Z → J → Prop) :
  stream n cands Inv → stream n cands (λ last (i : I + J), match i with inr i => Inv last i | inl _ => False end).
Proof.
  intros [Hn Hp]. split.
  - intros last [|i] Hi; [done|]. destruct (Hn last i Hi) as (m & i' & E & ? & ?). exists m, (inr i').
    cbn [mi_nextDoc sum_match_iter]. by rewrite E.
  - intros last [|i] doc Hi Hd; [done|]. destruct (Hp last i doc Hi Hd) as (i1 & i2 & E1 & E2 & ?). exists (inr i1), (inr i2).
    cbn [mi_prepare mi_candidates sum_match_iter]. by rewrite E1, E2.
Qed.

(** The candidates of iterateNgrams carry the pattern. *)
Lemma stream_stamp n cands (Inv : Z → noMatchTree + ngramDocIterator hitIterator → Prop) (r : ngramIterationResults) :
  stream n cands Inv →
  stream n (λ doc, map (stamp r) (cands doc)) (λ last r', r' = set_ni_iter r (ni_iter r') ∧ Inv last (ni_iter r')).
Proof.
  intros [Hn Hp]. split.
  - intros last r' [Hr Hi]. destruct (Hn _ _ Hi) as (m & i' & E & Hi' & Hno). exists m, (set_ni_iter r' i').
    cbn [mi_nextDoc ngram_results_iter]. rewrite E. split; [done|]. split; [by rewrite Hr|].
    intros doc ? ?. by rewrite Hno.
  - intros last r' doc [Hr Hi] Hd. destruct (Hp _ _ _ Hi Hd) as (i1 & i2 & E1 & E2 & Hi').
    exists (set_ni_iter r' i1), (set_ni_iter r' i2). cbn [mi_prepare mi_candidates ngram_results_iter].
    rewrite E1. split; [done|]. unfold ngramResults_candidates. cbn [ni_iter set_ni_iter]. rewrite E2.
    split; [|by rewrite Hr]. cbn [mbind res_bind]. do 2 f_equal. apply map_ext. intros c. by rewrite Hr.
Qed.

(** ** Document iterators *)

Section DocStream.
Context {I : Type} `{HitIteratorOk I}.
Context (leftPad rightPad : Z) (ends : list Z) (L : list Z).
Hypothesis ends_sorted : StronglySorted Z.le ends.
Hypothesis ends_range : Forall (λ e, 0 <= e ∧ e + leftPad < two32 ∧ e + rightPad <= two32) ends.
Hypothesis ends_count : lenZ ends < 1073741824.
Hypothesis left_ok : 0 <= leftPad < two32.
Hypothesis right_ok : 1 <= rightPad.
Hypothesis hits_ok : hitlist L.

(** The first rune of a document and the one after its last. *)
Definition doc_start (doc : Z) : Z := if 0 <? doc then default 0 (ends !! Z.to_nat (doc - 1)) else 0.
Definition doc_end (doc : Z) : Z := default 0 (ends !! Z.to_nat doc).
Definition hits_in (doc : Z) : list candidateMatch :=
  doc_candidates leftPad rightPad doc (doc_start doc) (doc_end doc) L.

Lemma doc_start_ok doc : 0 <= doc < lenZ ends →
  fileStart ends doc = Ok (doc_start doc) ∧ 0 <= doc_start doc ∧ doc_start doc + leftPad < two32.
Proof.
  intros Hd. unfold fileStart, doc_start. destruct (Z.ltb_spec 0 doc); [|split; [done|lia]].
  destruct (lookup_lt_is_Some_2 ends (Z.to_nat (doc - 1))) as [e He]; [unfold lenZ in *; lia|].
  unfold index. rewrite decide_True by lia. rewrite He. simpl. split; [done|].
  rewrite Forall_lookup in ends_range. pose proof (ends_range _ _ He). lia.
Qed.

Lemma doc_end_ok doc : 0 <= doc < lenZ ends →
  ends !! Z.to_nat doc = Some (doc_end doc) ∧ doc_end doc + rightPad <= two32.
Proof.
  intros Hd. unfold doc_end. destruct (lookup_lt_is_Some_2 ends (Z.to_nat doc)) as [e He]; [unfold lenZ in *; lia|].
  rewrite He. split; [done|]. rewrite Forall_lookup in ends_range. pose proof (ends_range _ _ He). simpl. lia.
Qed.

(** Documents do not overlap. *)
Lemma doc_order a b : 0 <= a < b → b < lenZ ends → doc_end a <= doc_start b.
Proof.
  intros Hab Hb. unfold doc_end, doc_start. destruct (Z.ltb_spec 0 b); [|lia].
  destruct (lookup_lt_is_Some_2 ends (Z.to_nat a)) as [x Hx]; [unfold lenZ in *; lia|].
  destruct (lookup_lt_is_Some_2 ends (Z.to_nat (b - 1))) as [y Hy]; [unfold lenZ in *; lia|].
  rewrite Hx, Hy. simpl. apply (sorted_lookup ends (Z.to_nat a) (Z.to_nat (b - 1))); try done. lia.
Qed.

Lemma doc_bounds doc : 0 <= doc < lenZ ends → doc_start doc <= doc_end doc.
Proof.
  intros Hd. destruct (doc_end_ok doc Hd) as [He _]. unfold doc_start. destruct (Z.ltb_spec 0 doc).
  - destruct (lookup_lt_is_Some_2 ends (Z.to_nat (doc - 1))) as [x Hx]; [unfold lenZ in *; lia|]. rewrite Hx. simpl.
    apply (sorted_lookup ends (Z.to_nat (doc - 1)) (Z.to_nat doc)); try done. lia.
  - rewrite Forall_lookup in ends_range. pose proof (ends_range _ _ He). lia.
Qed.

(** Increasing lists with the same elements in a range are filtered alike. *)
Lemma fits_ext (l l' : list Z) s e : hitlist l → hitlist l' →
  (∀ p, s + leftPad <= p → p ∈ l ↔ p ∈ l') →
  filter (fits leftPad rightPad s e) l = filter (fits leftPad rightPad s e) l'.
Proof.
  intros Hl Hl' Hsame. apply increasing_ext; [by eapply hitlist_sublist, sublist_filter..|].
  intros p. rewrite !list_elem_of_filter. unfold fits. naive_solver lia.
Qed.

(** The hits up to document [last] may be gone; nothing is between [last] and the
    document the iterator is at. *)
Definition doc_inv (last : Z) (i : ngramDocIterator I) : Prop :=
  -1 <= last ∧ n_leftPad i = leftPad ∧ n_rightPad i = rightPad ∧ n_ends i = ends ∧
  0 <= n_fileIdx i <= lenZ ends ∧ (∀ doc, last < doc < n_fileIdx i → hits_in doc = []) ∧
  ∃ pos l, rep pos (n_iter i) l ∧ ∀ doc p, last < doc < lenZ ends → doc_start doc + leftPad <= p → p ∈ l ↔ p ∈ L.

Lemma doc_inv_hits last doc l : hitlist l → last < doc < lenZ ends →
  (∀ doc p, last < doc < lenZ ends → doc_start doc + leftPad <= p → p ∈ l ↔ p ∈ L) →
  doc_candidates leftPad rightPad doc (doc_start doc) (doc_end doc) l = hits_in doc.
Proof.
  intros Hinc Hd Hl. unfold hits_in, doc_candidates. f_equal. apply fits_ext; [done..|]. intros p Hp. by eapply Hl.
Qed.

Lemma doc_stream : stream (lenZ ends) hits_in doc_inv.
Proof.
  split.
  - intros last i (Hlast & E1 & E2 & Hends & Hf & Hno & pos & l & Hr & Hl).
    destruct (nextDoc_ok i pos l) as (m & i' & E & (F1 & F2 & F3) & Hr' & Hm & Hskip); [done|by rewrite Hends..|by rewrite E2|].
    rewrite ?E1, ?E2, Hends in *. exists m, i'. split; [done|].
    assert (∀ doc, last < doc < n_fileIdx i' → hits_in doc = []) as Hno'.
    { intros doc Hd. destruct (decide (doc < n_fileIdx i)); [by apply Hno; lia|].
      assert (doc < lenZ ends) by lia. destruct (doc_end_ok doc) as [He _]; [lia|].
      rewrite <- (doc_inv_hits last doc l); [by apply (Hskip doc _ (doc_end doc)); [lia|]|by eapply rep_hitlist|lia|done]. }
    split.
    + unfold doc_inv. rewrite F1, F2, F3. split_and!; try done; [lia..|]. by exists true, l.
    + intros doc Hd Hdm. apply Hno'. lia.
  - intros last i doc (Hlast & E1 & E2 & Hends & Hf & Hno & pos & l & Hr & Hl) Hd.
    destruct (doc_start_ok doc) as (Hs & Hs0 & Hs1); [lia|]. destruct (doc_end_ok doc) as (He & He1); [lia|].
    destruct (ngram_candidates_ok i pos l doc (doc_start doc) (doc_end doc)) as (i1 & i2 & Hp & Hc & (F1 & F2 & F3) & Hfi & l' & Hr' & Hl');
      rewrite ?E1, ?E2, ?Hends; try done; [u32_unfold; lia..|].
    rewrite E1, E2 in *. exists i1, i2. split; [done|].
    rewrite (doc_inv_hits last) in Hc by (done || by eapply rep_hitlist). split; [done|].
    unfold doc_inv. rewrite F1, F2, F3, Hfi. split_and!; try done; [lia..|].
    exists true, l'. split; [done|]. intros doc' p Hd' Hp'. pose proof (doc_order doc doc' ltac:(lia) ltac:(lia)).
    pose proof (doc_bounds doc ltac:(lia)).
    rewrite Hl' by lia. rewrite (Hl doc') by lia. split; [tauto|]. intros ?. split; [lia|done].
Qed.
End DocStream.

(** ** Candidates in symbol sections *)

Section TrimStream.
Context {I : Type} `{MatchIterator I} (ends : list Z) (size : Z) (secs : list DocumentSection).
Context (cands : Z → list candidateMatch) (Inv : Z → I → Prop).
Hypothesis ends_sorted : StronglySorted Z.le ends.
Hypothesis ends_range : Forall (λ e, 0 <= e < two32) ends.
Hypothesis size_ok : 1 <= size.
Hypothesis secs_ok : sections_ok secs.
Hypothesis inner : stream (lenZ ends) cands Inv.
Hypothesis cands_sorted : ∀ doc, 0 <= doc < lenZ ends → StronglySorted (λ a b, cm_runeOffset a <= cm_runeOffset b) (cands doc).
Hypothesis cands_fit : ∀ doc, 0 <= doc < lenZ ends →
  Forall (λ m, 0 <= cm_runeOffset m ∧ doc_start ends doc + cm_runeOffset m + size <= doc_end ends doc) (cands doc).

(** The sections that start from [s] on. *)
#[local] Abbreviation from s l := (filter (λ sec, s <= Start sec) l).

Definition in_sections (doc : Z) : list candidateMatch :=
  filter (λ m, Exists (MatchIter.inside size (doc_start ends doc + cm_runeOffset m)) (from (doc_start ends doc) secs)) (cands doc).

Definition trim_inv (last : Z) (i : trimBySectionMatchIter I) : Prop :=
  -1 <= last ∧ Inv last (ts_iter i) ∧ ts_patternSize i = size ∧ ts_fileEndRunes i = ends ∧ sections_ok (ts_sections i) ∧
  ∀ doc, last < doc < lenZ ends → from (doc_start ends doc) (ts_sections i) = from (doc_start ends doc) secs.

Lemma from_suffix s l1 l2 : Forall (λ sec, Start sec < s) l1 → from s (l1 ++ l2) = from s l2.
Proof.
  intros Hl. rewrite filter_app, filter_none; [done|]. intros sec Hs. rewrite Forall_forall in Hl. specialize (Hl _ Hs). lia.
Qed.

(** Sections that the loop drops end before the document does. *)
Lemma trim_loop_drops start e l ms :
  sections_ok l → 0 <= start → e < two32 → Forall (λ m, 0 <= cm_runeOffset m ∧ start + cm_runeOffset m + size <= e) ms →
  ∃ l1, l = l1 ++ snd (trim_loop start size l ms) ∧ Forall (λ sec, Start sec < e) l1.
Proof.
  intros [Hse Hdis] Hstart He. revert ms. induction l as [|sec l IHs]; intros ms Hb; [exists []; by destruct ms|].
  apply Forall_cons in Hse as [Hsec Hse]. apply StronglySorted_inv in Hdis as [Hdis _]. specialize (IHs Hse Hdis).
  induction ms as [|m ms IHm]; [by exists []|]. pose proof Hb as Hb0. apply Forall_cons in Hb as [Hmb Hb]. specialize (IHm Hb).
  rewrite trim_loop_cons. rewrite !(u32_id (start + _)) by (u32_unfold; lia).
  destruct (Z.leb_spec (End sec) (start + cm_runeOffset m)).
  - destruct (IHs (m :: ms) Hb0) as (l1 & E & Hl1). exists (sec :: l1). rewrite E at 1. split; [done|]. constructor; [lia|done].
  - destruct (Z.ltb_spec (start + cm_runeOffset m) (Start sec)); [done|]. by destruct (trim_loop start size (sec :: l) ms).
Qed.

Lemma trim_stream : stream (lenZ ends) in_sections trim_inv.
Proof.
  split.
  - intros last i (Hl & Hi & E1 & E2 & Hok & Hsec). destruct (st_next _ _ _ inner _ _ Hi) as (m & it' & E & Hi' & Hno).
    cbn [mi_nextDoc trim_iter]. rewrite E. eexists _, _. split; [done|]. split; [done|].
    intros doc Hd Hm. unfold in_sections. by rewrite Hno.
  - intros last i doc (Hl & Hi & E1 & E2 & Hok & Hsec) Hd.
    destruct (st_prepare _ _ _ inner _ _ doc Hi Hd) as (it1 & it2 & P1 & P2 & Hi').
    assert (Forall (λ e, 0 <= e ∧ e + 0 < two32 ∧ e + 0 <= two32) ends) as Hr by (eapply Forall_impl; [exact ends_range|]; simpl; lia).
    destruct (doc_start_ok 0 0 ends Hr ltac:(u32_unfold; lia) doc) as (Hs & Hs0 & _); [lia|].
    destruct (doc_end_ok 0 0 ends Hr doc) as (He & He'); [lia|].
    pose proof (cands_fit doc ltac:(lia)) as Hfit. rewrite Forall_lookup in ends_range. pose proof (ends_range _ _ He).
    destruct (skip_sections_ok (doc_start ends doc) _ Hok) as [Hok' Hskip].
    cbn [mi_prepare mi_candidates trim_iter]. unfold trim_prepare. rewrite P1, E2. cbn [mbind res_bind]. rewrite Hs.
    eexists _, _. split; [done|]. unfold trim_candidates. cbn [ts_fileEndRunes ts_doc ts_iter ts_sections ts_patternSize].
    rewrite Hs. cbn [mbind res_bind]. rewrite P2, E1. cbn [mbind res_bind].
    destruct (trim_loop_drops (doc_start ends doc) (doc_end ends doc) _ (cands doc) Hok' Hs0 ltac:(lia) Hfit) as (l1 & El & Hl1).
    rewrite (surjective_pairing (trim_loop _ _ _ _)), trim_loop_ok; try done.
    2: { by apply cands_sorted; lia. }
    2: { eapply Forall_impl; [exact Hfit|]. simpl. lia. }
    rewrite Hskip, Hsec by lia. split; [done|]. cbn [ts_iter ts_patternSize ts_fileEndRunes ts_sections].
    rewrite Hskip, Hsec in El, Hok' by lia.
    split_and!; [lia|done..| |].
    + rewrite El in Hok'. destruct Hok' as [Hf Hd']. apply Forall_app in Hf as [_ Hf]. split; [done|].
      by eapply StronglySorted_app_1_r.
    + intros doc' Hd'. assert (doc_end ends doc <= doc_start ends doc') as Hord by (eapply (doc_order ends); try done; lia).
      assert (doc_start ends doc <= doc_start ends doc') as Hord'.
      { pose proof (doc_bounds 0 0 ends ends_sorted Hr doc ltac:(lia)). lia. }
      transitivity (from (doc_start ends doc') (from (doc_start ends doc) secs)).
      * rewrite El at 2. rewrite from_suffix; [done|]. eapply Forall_impl; [exact Hl1|]. simpl. lia.
      * rewrite list_filter_filter. apply filter_ext_elem. intros sec _. lia.
Qed.
End TrimStream.

(** ** Trees *)

Section Trees.
Context `{RegexpEngine} `{UnicodeCase} {F : Type} `{IndexFile F} (d : indexData F) (n : Z).
Hypothesis count_ok : 0 <= n < maxUInt32.

(** What the tree says about a document, when it is moved there directly. *)
Definition sem (t : matchTree) (doc : Z) : res bool := t ← mt_prepare t doc; denote d doc t.

(** A node that visits every document has gone through those up to [last]. *)
Definition at_doc (last : Z) (firstDone : bool) (docID : Z) : Prop :=
  if firstDone then docID = last ∧ 0 <= last else last = -1.

(** The candidates of a substring carry the pattern, have no byte offset yet, and lie in the text of the document. *)
Definition candidate_of (s : Substring) (doc : Z) (m : candidateMatch) : Prop :=
  cm_caseSensitive m = CaseSensitive s ∧ cm_fileName m = FileName s ∧ cm_substrBytes m = Pattern s ∧
  cm_substrLowered m = toLower (Pattern s) ∧ cm_byteOffset m = 0 ∧ cm_byteMatchSz m = 0 ∧ 0 <= cm_runeOffset m ∧
  let ends := if FileName s then d_fileNameEndRunes d else d_fileEndRunes d in
  doc_start ends doc + cm_runeOffset m + RuneCount (Pattern s) <= doc_end ends doc.

Fixpoint wf (last : Z) (t : matchTree) : Prop :=
  match t with
  | docMatchTree _ docs _ => increasing docs
  | bruteForceMatchTree _ firstDone docID => at_doc last firstDone docID
  | andMatchTree _ cs | orMatchTree _ cs => foldr (λ c P, wf last c ∧ P) True cs
  | notMatchTree _ c | noVisitMatchTree _ c => wf last c
  | regexpMatchTree _ _ _ _ _ firstDone docID => at_doc last firstDone docID
  | substrMatchTree _ iter q _ _ _ _ =>
    ∃ cands Inv, stream n cands Inv ∧ Inv last iter ∧ ∀ doc, Forall (candidate_of q doc) (cands doc)
  | branchQueryMatchTree _ fileMasks _ firstDone docID => at_doc last firstDone docID ∧ lenZ fileMasks = n
  | noMatchTree_ _ _ => True
  end.

Lemma foldr_wf last cs : foldr (λ c P, wf last c ∧ P) True cs ↔ Forall (wf last) cs.
Proof. induction cs as [|c cs IH]; simpl; [by split|]. by rewrite Forall_cons, IH. Qed.

(** *** The parts of a meaning *)

Lemma prepareAll_Ok doc cs cs' :
  prepareAll mt_prepare doc cs = Ok cs' ↔ Forall2 (λ c c', mt_prepare c doc = Ok c') cs cs'.
Proof.
  revert cs'. induction cs as [|c cs IH]; intros cs'; cbn [prepareAll].
  - split; [intros [= <-]; constructor|by inversion 1].
  - rewrite bind_Ok. setoid_rewrite bind_Ok. split.
    + intros (c' & Hc & k & Hk & [= <-]). constructor; [done|]. by apply IH.
    + inversion 1 as [|? c' ? k Hc Hk]; subst. exists c'. split; [done|]. exists k. split; [by apply IH|done].
Qed.

Lemma sem_children (combine : list bool → bool) cs doc b :
  (cs' ← prepareAll mt_prepare doc cs; bs ← mapM (denote d doc) cs'; Ok (combine bs)) = Ok b ↔
  ∃ bs, Forall2 (λ c b, sem c doc = Ok b) cs bs ∧ b = combine bs.
Proof.
  split.
  - intros E. apply bind_Ok in E as (cs' & Hp%prepareAll_Ok & E). apply bind_Ok in E as (bs & Hd%mapM_Ok & [= <-]).
    exists bs. split; [|done]. revert bs Hd. unfold sem.
    induction Hp as [|c c' cs cs' Hc _ IH]; inversion 1; subst; constructor; [|by apply IH]. by rewrite Hc.
  - intros (bs & Hs & ->).
    assert (∃ cs', Forall2 (λ c c', mt_prepare c doc = Ok c') cs cs' ∧ Forall2 (λ c b, denote d doc c = Ok b) cs' bs)
      as (cs' & Hp%prepareAll_Ok & Hd%mapM_Ok).
    { induction Hs as [|c b cs bs Hc _ (cs' & ? & ?)]; [by exists []|]. apply bind_Ok in Hc as (c' & ? & ?).
      exists (c' :: cs'). by split; constructor. }
    rewrite Hp. cbn [mbind res_bind]. by rewrite Hd.
Qed.

Lemma sem_and i cs doc b :
  sem (andMatchTree i cs) doc = Ok b ↔ ∃ bs, Forall2 (λ c b, sem c doc = Ok b) cs bs ∧ b = forallb id bs.
Proof. rewrite <- sem_children. unfold sem. cbn [mt_prepare]. by destruct (prepareAll _ _ _). Qed.
Lemma sem_or i cs doc b :
  sem (orMatchTree i cs) doc = Ok b ↔ ∃ bs, Forall2 (λ c b, sem c doc = Ok b) cs bs ∧ b = existsb id bs.
Proof. rewrite <- sem_children. unfold sem. cbn [mt_prepare]. by destruct (prepareAll _ _ _). Qed.
Lemma sem_not i c doc b : sem (notMatchTree i c) doc = Ok b ↔ sem c doc = Ok (negb b).
Proof.
  unfold sem. cbn [mt_prepare]. destruct (mt_prepare c doc); try done. cbn [mbind res_bind denote].
  destruct (denote d doc a) as [x| | |]; cbn [mbind res_bind]; try done. split; [intros [= <-]|intros [= ->]]; by rewrite negb_involutive.
Qed.
Lemma sem_noVisit i c doc : sem (noVisitMatchTree i c) doc = sem c doc.
Proof. unfold sem. cbn [mt_prepare]. by destruct (mt_prepare c doc). Qed.
Lemma sem_brute i fd id doc : sem (bruteForceMatchTree i fd id) doc = Ok true.
Proof. done. Qed.
Lemma sem_branch i ms m fd id doc :
  sem (branchQueryMatchTree i ms m fd id) doc = (x ← index ms doc; Ok (negb (Z.land x m =? 0))).
Proof. done. Qed.

Lemma split_docs doc docs : increasing docs →
  splitDocs doc (dropDocs doc docs) = (if decide (doc ∈ docs) then [doc] else [], filter (λ x, doc < x) docs).
Proof.
  induction docs as [|x docs IH]; intros Hinc; [done|]. apply increasing_cons in Hinc as [Hinc Hx].
  cbn [dropDocs]. rewrite filter_cons. destruct (Z.ltb_spec x doc).
  - rewrite IH by done. rewrite (decide_False (P := doc < x)) by lia. f_equal.
    apply decide_ext. rewrite elem_of_cons. naive_solver lia.
  - cbn [splitDocs]. rewrite Forall_forall in Hx. assert (filter (λ y, doc < y) docs = docs) as Hf.
    { apply filter_all. intros y Hy. specialize (Hx y Hy). lia. }
    destruct (Z.eqb_spec x doc) as [->|].
    + rewrite (decide_False (P := doc < doc)), decide_True by (lia || set_solver). rewrite Hf.
      destruct docs as [|y docs]; [done|]. cbn [splitDocs]. specialize (Hx y ltac:(set_solver)).
      by destruct (Z.eqb_spec y doc); [lia|].
    + rewrite (decide_True (P := doc < x)), Hf by lia. rewrite decide_False; [done|].
      rewrite elem_of_cons. intros [->|Hy]; [done|]. specialize (Hx doc Hy). lia.
Qed.
Lemma sem_doc i docs cur doc : increasing docs → sem (docMatchTree i docs cur) doc = Ok (bool_decide (doc ∈ docs)).
Proof.
  intros Hinc. unfold sem. cbn [mt_prepare]. rewrite split_docs by done. cbn [mbind res_bind denote].
  do 2 f_equal. destruct (decide (doc ∈ docs)); [by rewrite !bool_decide_true|by rewrite !bool_decide_false by auto].
Qed.

Lemma sem_substr last cands (Inv : Z → substrIterator → Prop) i iter q cs fn cur ev doc :
  stream n cands Inv → Inv last iter → last < doc < n →
  sem (substrMatchTree i iter q cs fn cur ev) doc = (pruned ← prune_sem d doc (cands doc); Ok (bool_decide (pruned ≠ []))).
Proof.
  intros Hst Hi Hd. destruct (st_prepare _ _ _ Hst _ _ _ Hi Hd) as (i1 & i2 & E1 & E2 & _).
  unfold sem. cbn [mt_prepare]. rewrite E1. cbn [mbind res_bind]. rewrite E2. done.
Qed.

(** *** nextDoc *)

(** Moving a tree on keeps its meaning ahead. *)
Definition same_sem (last : Z) (t t' : matchTree) : Prop :=
  ∀ doc b, last < doc < n → sem t' doc = Ok b ↔ sem t doc = Ok b.
(** Documents before [m] do not match. *)
Definition skips (last : Z) (t : matchTree) (m : Z) : Prop :=
  ∀ doc, last < doc < n → doc < m → sem t doc ≠ Ok true.
Definition steps (last : Z) (t : matchTree) : Prop :=
  ∃ m t', mt_nextDoc t = Ok (m, t') ∧ wf last t' ∧ same_sem last t t' ∧ skips last t m.

Lemma same_sem_refl last t : same_sem last t t.
Proof. done. Qed.
Hint Resolve same_sem_refl : core.

Lemma same_children last cs cs' doc bs : Forall2 (same_sem last) cs cs' → last < doc < n →
  Forall2 (λ c b, sem c doc = Ok b) cs' bs ↔ Forall2 (λ c b, sem c doc = Ok b) cs bs.
Proof.
  intros Hs Hd. revert bs. induction Hs as [|c c' cs cs' Hc _ IH]; intros bs; [done|].
  split; inversion 1 as [|? b ? bs' Hb Hbs]; subst; (constructor; [by apply (Hc doc b Hd)|by apply IH]).
Qed.
Lemma same_and last i cs cs' : Forall2 (same_sem last) cs cs' → same_sem last (andMatchTree i cs) (andMatchTree i cs').
Proof. intros Hs doc b Hd. rewrite !sem_and. by setoid_rewrite (same_children last cs cs' doc _ Hs Hd). Qed.
Lemma same_or last i cs cs' : Forall2 (same_sem last) cs cs' → same_sem last (orMatchTree i cs) (orMatchTree i cs').
Proof. intros Hs doc b Hd. rewrite !sem_or. by setoid_rewrite (same_children last cs cs' doc _ Hs Hd). Qed.

Lemma nextAll_ok last better cs : Forall (steps last) cs → ∀ best,
  ∃ ms cs', nextAll mt_nextDoc better best cs = Ok (foldl (λ best m, if better m best then m else best) best ms, cs') ∧
    Forall (wf last) cs' ∧ Forall2 (same_sem last) cs cs' ∧ Forall2 (skips last) cs ms.
Proof.
  induction 1 as [|c cs (m & c' & Hc & Hw & Hs & Hk) _ IH]; intros best; cbn [nextAll].
  { exists [], []. split_and!; done || constructor. }
  rewrite Hc. cbn [mbind res_bind]. destruct (IH (if better m best then m else best)) as (ms & cs' & -> & ? & ? & ?).
  exists (m :: ms), (c' :: cs'). split_and!; [done|by constructor..].
Qed.

Lemma foldl_max ms : ∀ best, let r := foldl (λ b m : Z, if b <? m then m else b) best ms in r = best ∨ r ∈ ms.
Proof.
  induction ms as [|m ms IH]; intros best; simpl; [by left|]. destruct (IH (if best <? m then m else best)) as [->|Hin].
  - case_match; [right|left; done]. by left.
  - right. by right.
Qed.
Lemma foldl_min ms : ∀ best, let r := foldl (λ b m : Z, if m <? b then m else b) best ms in
  r <= best ∧ Forall (λ m, r <= m) ms.
Proof.
  induction ms as [|m ms IH]; intros best; simpl; [split; [lia|constructor]|].
  destruct (IH (if m <? best then m else best)) as [Hle Hf]. destruct (Z.ltb_spec m best); split; try lia; constructor; lia || done.
Qed.

(** A conjunction skips what one child skips, a disjunction what all skip. *)
Lemma skips_and last i cs m : -1 <= last → Forall2 (skips last) cs m →
  skips last (andMatchTree i cs) (foldl (λ b m, if b <? m then m else b) 0 m).
Proof.
  intros Hl Hs doc Hd Hdm (bs & Hb & Ht)%sem_and. destruct (foldl_max m 0) as [E|Hin]; [lia|].
  apply list_elem_of_lookup in Hin as [k Hk]. destruct (Forall2_lookup_r _ _ _ _ _ Hs Hk) as (c & Hc & Hsk).
  destruct (Forall2_lookup_l _ _ _ _ _ Hb Hc) as (b & Hbk & Hsem). apply (Hsk doc Hd Hdm). rewrite Hsem. f_equal.
  symmetry in Ht. rewrite forallb_forall in Ht. apply (Ht b). apply list_elem_of_In. by eapply list_elem_of_lookup_2.
Qed.
Lemma skips_or last i cs m : Forall2 (skips last) cs m →
  skips last (orMatchTree i cs) (foldl (λ b m, if m <? b then m else b) maxUInt32 m).
Proof.
  intros Hs doc Hd Hdm (bs & Hb & Ht)%sem_or. symmetry in Ht. apply existsb_exists in Ht as (b & Hin & Hbt).
  apply list_elem_of_In, list_elem_of_lookup in Hin as [k Hk]. destruct (Forall2_lookup_r _ _ _ _ _ Hb Hk) as (c & Hc & Hsem).
  destruct (Forall2_lookup_l _ _ _ _ _ Hs Hc) as (m' & Hm' & Hsk). destruct (foldl_min m maxUInt32) as [_ Hf].
  rewrite Forall_lookup in Hf. specialize (Hf _ _ Hm'). apply (Hsk doc Hd); [simpl in Hf; lia|].
  rewrite Hsem. unfold id in Hbt. by rewrite Hbt.
Qed.

Lemma nextBranchDoc_skips mask masks i k m : i <= k → k < nextBranchDoc i mask masks → masks !! Z.to_nat (k - i) = Some m →
  Z.land mask m = 0.
Proof.
  revert i. induction masks as [|x masks IH]; intros i Hik Hk Hm; [done|]. cbn [nextBranchDoc] in Hk.
  destruct (Z.eqb_spec (Z.land mask x) 0) as [E|E]; cbn [negb] in Hk; [|lia].
  destruct (decide (k = i)) as [->|]; [rewrite Z.sub_diag in Hm; by injection Hm as <-|].
  apply (IH (i + 1)); [lia|done|]. replace (Z.to_nat (k - i)) with (S (Z.to_nat (k - (i + 1)))) in Hm by lia. done.
Qed.

Lemma at_doc_next last fd id : -1 <= last < n → at_doc last fd id → (if fd then id ⊕ 1 else 0) = last + 1.
Proof. intros Hl. destruct fd; [intros [-> ?]; apply u32_id; u32_unfold; lia|intros ->; done]. Qed.

Lemma nextDoc_steps last t : -1 <= last < n → wf last t → steps last t.
Proof.
  intros Hl. induction t as [i cs IH|i cs IH|i c IH|i c IH|i l k|i a e|i re fn ev fd a e|i it q cs fn cur ev|i ms x a e|i t]
    using matchTree_ind'; intros Hw; unfold steps; cbn [mt_nextDoc wf] in *.
  - apply foldr_wf in Hw. assert (Forall (steps last) cs) as Hst by (rewrite Forall_forall in IH, Hw |- *; auto).
    destruct (nextAll_ok last (λ m max, max <? m) cs Hst 0) as (ms & cs' & -> & ? & ? & ?). cbn [mbind res_bind].
    eexists _, _. split; [done|]. split_and!; [by apply foldr_wf|by apply same_and|by apply skips_and; [lia|]].
  - apply foldr_wf in Hw. assert (Forall (steps last) cs) as Hst by (rewrite Forall_forall in IH, Hw |- *; auto).
    destruct (nextAll_ok last (λ m min, m <? min) cs Hst maxUInt32) as (ms & cs' & -> & ? & ? & ?). cbn [mbind res_bind].
    eexists _, _. split; [done|]. split_and!; [by apply foldr_wf|by apply same_or|by apply skips_or].
  - eexists _, _. split; [done|]. split_and!; [done..|]. intros doc ? ?. lia.
  - destruct (IH Hw) as (m & c' & -> & Hw' & Hs & Hk). cbn [mbind res_bind]. eexists _, _. split; [done|].
    split_and!; [done|intros doc b; rewrite !sem_noVisit; apply Hs|intros doc; rewrite sem_noVisit; apply Hk].
  - eexists _, _. split; [done|]. split_and!; [done..|]. intros doc Hd Hm. rewrite sem_doc by done. intros [= Hin%bool_decide_eq_true].
    destruct l as [|y l]; [by apply not_elem_of_nil in Hin|]. apply increasing_cons in Hw as [_ Hy]. rewrite Forall_forall in Hy.
    apply elem_of_cons in Hin as [->|Hin]; [lia|]. specialize (Hy _ Hin). lia.
  - eexists _, _. split; [done|]. split_and!; [done..|]. intros doc Hd Hm. rewrite (at_doc_next last) in Hm by done. lia.
  - eexists _, _. split; [done|]. split_and!; [done..|]. intros doc Hd Hm. rewrite (at_doc_next last) in Hm by done. lia.
  - destruct Hw as (cands & Inv & Hst & Hi & Hsh). destruct (st_next _ _ _ Hst _ _ Hi) as (m & it' & -> & Hi' & Hno). cbn [mbind res_bind].
    eexists _, _. split; [done|]. split_and!; [by exists cands, Inv| |].
    + intros doc b Hd. by rewrite !(sem_substr last cands Inv) by done.
    + intros doc Hd Hm. rewrite (sem_substr last cands Inv) by done. by rewrite Hno.
  - destruct Hw as [Ha Hms]. eexists _, _. split; [done|]. split_and!; [done..|]. intros doc Hd Hm.
    rewrite (at_doc_next last) in Hm by done. rewrite sem_branch. intros E. apply bind_Ok in E as (y & Hy & [= Hb]).
    apply index_lookup in Hy as [_ Hy]. apply negb_true_iff, Z.eqb_neq in Hb. apply Hb. rewrite Z.land_comm.
    eapply (nextBranchDoc_skips x (drop (Z.to_nat (last + 1)) ms) (last + 1) doc); [lia|done|].
    rewrite lookup_drop. by replace (Z.to_nat (last + 1) + Z.to_nat (doc - (last + 1)))%nat with (Z.to_nat doc) by lia.
  - eexists _, _. split; [done|]. split_and!; [done..|]. intros doc Hd Hm. done.
Qed.

(** *** prepare *)

(** The tree is moved to [doc], and is the same ahead. *)
Definition moves (last doc : Z) (t : matchTree) : Prop :=
  ∃ t', mt_prepare t doc = Ok t' ∧ wf doc t' ∧ same_sem doc t t'.

Lemma moves_children last doc cs : Forall (moves last doc) cs →
  ∃ cs', prepareAll mt_prepare doc cs = Ok cs' ∧ Forall (wf doc) cs' ∧ Forall2 (same_sem doc) cs cs'.
Proof.
  induction 1 as [|c cs (c' & Hc & Hw & Hs) _ (cs' & Hcs & ? & ?)]; cbn [prepareAll]; [by exists []|].
  exists (c' :: cs'). rewrite Hc. cbn [mbind res_bind]. rewrite Hcs. split_and!; [done|by constructor..].
Qed.

Lemma prepare_moves last doc t : -1 <= last < doc → doc < n → wf last t → moves last doc t.
Proof.
  intros Hl Hd. induction t as [i cs IH|i cs IH|i c IH|i c IH|i l k|i a e|i re fn ev fd a e|i it q cs fn cur ev|i ms x a e|i t]
    using matchTree_ind'; intros Hw; unfold moves; cbn [mt_prepare wf] in *.
  1, 2: apply foldr_wf in Hw; assert (Forall (moves last doc) cs) as Hst by (rewrite Forall_forall in IH, Hw |- *; auto);
    destruct (moves_children last doc cs Hst) as (cs' & -> & ? & ?); cbn [mbind res_bind]; eexists; (split; [done|]);
    (split; [by apply foldr_wf|by apply same_and || by apply same_or]).
  - destruct (IH Hw) as (c' & -> & Hw' & Hs). cbn [mbind res_bind]. eexists. split; [done|]. split; [done|].
    intros doc' b Hd'. rewrite !sem_not. by apply Hs.
  - destruct (IH Hw) as (c' & -> & Hw' & Hs). cbn [mbind res_bind]. eexists. split; [done|]. split; [done|].
    intros doc' b Hd'. rewrite !sem_noVisit. by apply Hs.
  - rewrite split_docs by done. eexists. split; [done|]. cbn [wf].
    assert (increasing (filter (λ x, doc < x) l)) as Hinc.
    { unfold increasing in *. induction Hw as [|y l Hy IHl Hf]; [constructor|]. rewrite filter_cons.
      case_decide; [|done]. constructor; [done|]. rewrite Forall_forall in Hf |- *. intros z [_ Hz]%list_elem_of_filter. auto. }
    split; [done|]. intros doc' b Hd'. rewrite !sem_doc by done.
    rewrite (bool_decide_ext (doc' ∈ filter _ l) (doc' ∈ l)); [done|]. rewrite list_elem_of_filter. naive_solver lia.
  - eexists. split; [done|]. split; [|done]. cbn [wf]. split; [done|lia].
  - eexists. split; [done|]. split; [|done]. cbn [wf]. split; [done|lia].
  - destruct Hw as (cands & Inv & Hst & Hi & Hsh). destruct (st_prepare _ _ _ Hst _ _ doc Hi) as (i1 & i2 & E1 & E2 & Hi'); [lia|].
    rewrite E1. cbn [mbind res_bind]. rewrite E2. cbn [mbind res_bind]. eexists. split; [done|]. split; [by exists cands, Inv|].
    intros doc' b Hd'. rewrite (sem_substr doc cands Inv), (sem_substr last cands Inv) by (done || lia). done.
  - destruct Hw as [Ha Hms]. eexists. split; [done|]. split; [|done]. cbn [wf]. split; [split; [done|lia]|done].
  - eexists. by split.
Qed.

(** *** Evaluation does not move a tree *)

Lemma prepare_erase t doc : mt_prepare (erase t) doc = mt_prepare t doc.
Proof.
  induction t as [i cs IH|i cs IH|i c IH|i c IH| | | | | |] using matchTree_ind'; try done; cbn [erase mt_prepare];
    try (by rewrite IH).
  all: assert (prepareAll mt_prepare doc (map erase cs) = prepareAll mt_prepare doc cs) as ->; [|done].
  all: induction IH as [|c cs Hc _ IHcs]; [done|]; cbn [map prepareAll]; by rewrite Hc, IHcs.
Qed.
Lemma wf_erase last t : wf last (erase t) ↔ wf last t.
Proof.
  induction t as [i cs IH|i cs IH|i c IH|i c IH| | | | | |] using matchTree_ind'; try done; cbn [erase wf].
  all: rewrite !foldr_wf, Forall_map; split; intros Hw; rewrite Forall_forall in IH, Hw |- *;
    intros c Hc; by apply (IH c Hc), Hw.
Qed.

Lemma decide_keeps last t p b s t' : decideDoc d t p = Ok (b, s, t') → wf last t →
  wf last t' ∧ ∀ doc, sem t' doc = sem t doc.
Proof.
  intros Hdec Hw. apply costLoop_erase in Hdec. split.
  - by rewrite <- wf_erase, Hdec, wf_erase.
  - intros doc. unfold sem. by rewrite <- (prepare_erase t'), Hdec, prepare_erase.
Qed.
End Trees.

(** ** The search loop *)

Section Loop.
Context `{RegexpEngine} `{UnicodeCase} `{SortAlg} {F : Type} `{IndexFile F} (d : indexData F).
Context (reString : Regexp → bytes) (q : Q).
Context (ctx : nat → bool) (opts : SearchOptions) (totalAtomCount : Z) (f : Z → bool).
#[local] Abbreviation n := (lenZ (d_fileBranchMasks d)).
Hypothesis count_ok : n < maxUInt32.
Hypothesis boundaries_ok : lenZ (d_boundaries d) = n + 1.

(** The documents after [last] and before [stop] that match, in order. *)
Definition matching (last stop : Z) : list Z := filter (λ doc, f doc = true) (seqZ (last + 1) (stop - last - 1)).

Lemma elem_of_matching last stop doc : doc ∈ matching last stop ↔ last < doc < stop ∧ f doc = true.
Proof. unfold matching. rewrite list_elem_of_filter, elem_of_seqZ. naive_solver lia. Qed.

Lemma matching_skip last doc stop : last < doc <= stop → (∀ k, last < k < doc → f k = false) →
  matching last stop = matching (doc - 1) stop.
Proof.
  intros Hd Hno. unfold matching. replace (stop - last - 1) with ((doc - last - 1) + (stop - (doc - 1) - 1)) by lia.
  rewrite seqZ_app, filter_app by lia. rewrite filter_none; [by replace (last + 1 + (doc - last - 1)) with (doc - 1 + 1) by lia|].
  intros k Hk%elem_of_seqZ. rewrite Hno by lia. done.
Qed.
Lemma matching_cons doc stop : doc < stop →
  matching (doc - 1) stop = if f doc then doc :: matching doc stop else matching doc stop.
Proof.
  intros Hd. unfold matching. rewrite seqZ_cons by lia. rewrite filter_cons.
  replace (Z.succ (doc - 1 + 1)) with (doc + 1) by lia. replace (Z.pred (stop - (doc - 1) - 1)) with (stop - doc - 1) by lia.
  replace (doc - 1 + 1) with doc by lia. case_decide as E; destruct (f doc); done.
Qed.

Lemma setDocument_ok p doc : 0 <= doc < n → ∃ p', setDocument d p doc = Ok p' ∧ cp_idx p' = doc ∧ cp__data p' = None.
Proof.
  intros Hd. unfold setDocument. rewrite u32_id by (u32_unfold; lia).
  destruct (lookup_lt_is_Some_2 (d_boundaries d) (Z.to_nat doc)) as [a Ha]; [unfold lenZ in *; lia|].
  destruct (lookup_lt_is_Some_2 (d_boundaries d) (Z.to_nat (doc + 1))) as [b Hb]; [unfold lenZ in *; lia|].
  unfold index. rewrite !decide_True by lia. rewrite Ha, Hb. cbn [mbind res_bind]. by eexists.
Qed.

(** Files whose score counts as important. *)
Definition important_files (files : list FileMatch) : Z :=
  lenZ (filter (λ fm, fgt (fm_Score fm) scoreImportantThreshold = true) files).

(** A search that stops early was interrupted, or found enough. *)
Definition enough (important : Z) (files : list FileMatch) (p : contentProvider) : Prop :=
  (∃ k, ctx k = true) ∨ so_ShardMaxMatchCount opts <= MatchCount (cp_stats p) ∨
  so_ShardMaxImportantMatch opts <= important + important_files files.

(** [m] is the failure of assembling the result of a document the tree accepts. *)
Definition fails_at {A} (doc : Z) (m : res A) : Prop :=
  ∃ last t1 p1 t0 p0 t known p, reached d reString q t0 ∧ wf d n last t1 ∧ last < doc ∧
    mt_prepare t1 doc = Ok t0 ∧ setDocument d p1 doc = Ok p0 ∧ decideDoc d t0 p0 = Ok (true, (p, known), t) ∧
    match fileMatchOf d (so_Whole opts) totalAtomCount doc t known p, m with
    | Err e, Err e' => e = e'
    | Panic w, Panic w' => w = w'
    | OutOfFuel, OutOfFuel => True
    | _, _ => False
    end.

Definition walked (last important : Z) (r : res (list FileMatch * matchTree * contentProvider)) : Prop :=
  match r with
  | Ok (files, _, p) => ∃ stop, last < stop <= n ∧
      Forall2 (λ doc fm, fileName d doc = Ok (fm_FileName fm)) (matching last stop) files ∧
      (stop < n → enough important files p)
  | r => ∃ doc, last < doc < n ∧ f doc = true ∧ fails_at doc r
  end.

Lemma fileMatchOf_name doc mt known p fm p' :
  fileMatchOf d (so_Whole opts) totalAtomCount doc mt known p = Ok (fm, p') → fileName d doc = Ok (fm_FileName fm).
Proof.
  unfold fileMatchOf. intros E. apply bind_Ok in E as (nm & Hnm & E). rewrite Hnm. f_equal.
  repeat match goal with
  | E : (_ ≫= _) = Ok _ |- _ => apply bind_Ok in E as (? & _ & E)
  | E : context [let '(_, _) := ?x in _] |- _ => destruct x
  end. by injection E as <- _.
Qed.

Lemma walked_more last doc important important' r :
  last < doc → (∀ k, last < k < doc → f k = false) → f doc = false → important = important' →
  walked doc important' r → walked last important r.
Proof.
  intros Hl Hno Hf <- Hw. assert (∀ stop, doc < stop → matching last stop = matching doc stop) as Hm.
  { intros stop Hs. rewrite (matching_skip last doc stop), matching_cons, Hf by (lia || done). done. }
  destruct r as [[[files t] p]| | |]; simpl in *.
  - destruct Hw as (stop & Hs & Hfs & He). exists stop. rewrite Hm by lia. split; [lia|done].
  - destruct Hw as (k & ? & ?). exists k. split; [lia|done].
  - destruct Hw as (k & ? & ?). exists k. split; [lia|done].
  - destruct Hw as (k & ? & ?). exists k. split; [lia|done].
Qed.

Lemma walked_found last doc important fm (r : res (list FileMatch * matchTree * contentProvider)) :
  last < doc → (∀ k, last < k < doc → f k = false) → f doc = true → fileName d doc = Ok (fm_FileName fm) →
  walked doc (if fgt (fm_Score fm) scoreImportantThreshold then important + 1 else important) r →
  walked last important ('(files, t, p) ← r; Ok (fm :: files, t, p)).
Proof.
  intros Hl Hno Hf Hfm Hw. destruct r as [[[files t] p]| | |]; simpl in *.
  - destruct Hw as (stop & Hs & Hfs & He). exists stop. split; [lia|]. split.
    + rewrite (matching_skip last doc stop), matching_cons, Hf by (lia || done). by constructor.
    + intros Hst. destruct (He Hst) as [?|[?|Hi]]; [by left|by right; left|right; right].
      unfold important_files in *. rewrite filter_cons.
      destruct (fgt (fm_Score fm) scoreImportantThreshold); [rewrite decide_True, lenZ_cons by done|rewrite decide_False by done]; lia.
  - destruct Hw as (k & ? & ?). exists k. split; [lia|done].
  - destruct Hw as (k & ? & ?). exists k. split; [lia|done].
  - destruct Hw as (k & ? & ?). exists k. split; [lia|done].
Qed.

Lemma searchLoop_walks (fuel : nat) : ∀ poll t p last important,
  -1 <= last < n → n - 1 - last < Z.of_nat fuel → reached d reString q t → wf d n last t →
  (∀ doc, last < doc < n → sem d t doc = Ok (f doc)) →
  walked last important (searchLoop d fuel ctx poll opts totalAtomCount t p last important).
Proof.
  induction fuel as [|fuel IH]; intros poll t p last important Hl Hfuel Hre Hw Hsem; [lia|]. cbn [searchLoop].
  rewrite (u32_id (lenZ (d_fileBranchMasks d))) by (u32_unfold; lia).
  destruct (nextDoc_steps d n ltac:(lia) last t Hl Hw) as (m & t1 & Hm & Hw1 & Hs1 & Hk). rewrite Hm. cbn [mbind res_bind].
  set (doc := if m <=? last then u32 (last + 1) else m).
  assert (last < doc ∧ ∀ k, last < k < doc → k < n → f k = false) as [Hld Hno].
  { unfold doc. destruct (Z.leb_spec m last); [rewrite u32_id by (u32_unfold; lia); split; [lia|intros; lia]|].
    split; [lia|]. intros k Hkd Hkn. specialize (Hk k ltac:(lia) ltac:(lia)). rewrite Hsem in Hk by lia. by destruct (f k). }
  clearbody doc. destruct (Z.leb_spec n doc) as [Hge|Hlt].
  { exists n. split; [lia|]. split; [|lia]. rewrite (matching_skip last n n); [|lia|intros; apply Hno; lia].
    unfold matching. replace (n - (n - 1) - 1) with 0 by lia. constructor. }
  destruct (ctx poll || _ || _) eqn:Estop.
  { exists doc. split; [lia|]. split; [rewrite (matching_skip last doc doc); [|lia|intros; apply Hno; lia]|].
    - unfold matching. replace (doc - (doc - 1) - 1) with 0 by lia. constructor.
    - intros _. unfold enough. rewrite !orb_true_iff, !Z.leb_le in Estop. simpl.
      destruct Estop as [[?|?]|?]; [left; eauto|right; left; lia|right; right; change (important_files []) with 0; lia]. }
  destruct (prepare_moves d n ltac:(lia) last doc t1 ltac:(lia) Hlt Hw1) as (t2 & Hp2 & Hw2 & Hs2). rewrite Hp2. cbn [mbind res_bind].
  destruct (setDocument_ok (mapStats (add_FilesConsidered 1) p) doc ltac:(lia)) as (p1 & Hp1 & Hidx & Hdata). rewrite Hp1. cbn [mbind res_bind].
  assert (reached d reString q t2) as Hre2 by (eapply reached_prepare; [|exact Hp2]; by eapply reached_next).
  assert (denote d doc t2 = Ok (f doc)) as Hden.
  { pose proof (Hsem doc ltac:(lia)) as Hd. rewrite <- (Hs1 doc _ ltac:(lia)) in Hd. unfold sem in Hd. by rewrite Hp2 in Hd. }
  destruct (decide_ok d t2 p1 (f doc)) as ([p2 known] & t3 & Hdec & _); [by eapply reached_NoDup|done|by rewrite Hidx|].
  rewrite Hdec. cbn [mbind res_bind]. destruct (decide_keeps d n _ _ _ _ _ _ Hdec Hw2) as [Hw3 Hs3].
  assert (∀ k, doc < k < n → sem d t3 k = Ok (f k)) as Hsem3.
  { intros k Hkd. rewrite Hs3. apply (Hs2 k); [lia|]. apply (Hs1 k); [lia|]. apply Hsem. lia. }
  assert (reached d reString q t3) as Hre3 by (by eapply reached_decide).
  destruct (f doc) eqn:Ef; cbn [negb].
  - destruct (fileMatchOf d (so_Whole opts) totalAtomCount doc t3 known p2) as [[fm p3]|e|w|] eqn:Efm; cbn [mbind res_bind].
    + eapply walked_found; [done|intros; apply Hno; lia|done|by eapply fileMatchOf_name|]. apply IH; try done; lia.
    + exists doc. split; [lia|]. split; [done|]. eexists last, t1, _, t2, p1, t3, known, p2. by rewrite Efm.
    + exists doc. split; [lia|]. split; [done|]. eexists last, t1, _, t2, p1, t3, known, p2. by rewrite Efm.
    + exists doc. split; [lia|]. split; [done|]. eexists last, t1, _, t2, p1, t3, known, p2. by rewrite Efm.
  - eapply walked_more; [exact Hld|intros; apply Hno; lia|done|done|]. apply IH; try done; lia.
Qed.
End Loop.

(** ** The trees of a shard *)

Lemma end_runes_bounds k ts : 0 <= k → StronglySorted Z.le (end_runes k ts) ∧ Forall (λ e, k <= e <= k + sum_runes ts) (end_runes k ts).
Proof.
  revert k. induction ts as [|t ts IH]; intros k Hk; cbn [end_runes]; [split; constructor|].
  assert (0 <= RuneCount t) by apply lenZ_nonneg. pose proof (sum_runes_nonneg ts).
  assert (sum_runes (t :: ts) = RuneCount t + sum_runes ts) as E by done.
  destruct (IH (k + RuneCount t)) as [Hs Hf]; [lia|]. split.
  - constructor; [done|]. eapply Forall_impl; [exact Hf|]. simpl. lia.
  - constructor; [lia|]. eapply Forall_impl; [exact Hf|]. simpl. lia.
Qed.

Lemma languageDocs_increasing code ls : ∀ k, 0 <= k → k + lenZ ls <= two32 →
  increasing (languageDocs k code ls) ∧ Forall (λ x, k <= x) (languageDocs k code ls).
Proof.
  induction ls as [|l ls IH]; intros k Hk Hl; cbn [languageDocs]; [split; constructor|].
  rewrite lenZ_cons in Hl. pose proof (lenZ_nonneg ls). destruct (IH (k + 1)) as [Hi Hf]; [lia..|].
  assert (Forall (λ x, k <= x) (languageDocs (k + 1) code ls)) by (eapply Forall_impl; [exact Hf|]; simpl; lia).
  destruct (l =? code); [|done]. rewrite u32_id by (u32_unfold; lia). split; [|constructor; [lia|done]].
  apply increasing_cons. split; [done|]. eapply Forall_impl; [exact Hf|]. simpl. lia.
Qed.

Section ShardTrees.
Context `{RegexpEngine} `{UnicodeCase} `{SortAlg} {F : Type} `{IndexFileOk F}.
Context (d : indexData F) (b : IndexBuilder) (docs : list Document) (Hd : shard_of d b docs).
Hypothesis secs_ok : sections_ok (d_runeDocSections d).
#[local] Abbreviation n := (lenZ docs).
#[local] Abbreviation texts filename := ((λ doc, if filename : bool then doc_Name doc else doc_Content doc) <$> docs).

(** Positions of the pattern do not overflow. *)
Definition pattern_fits (pattern : bytes) : Prop :=
  ∀ filename, sum_bytes (texts filename) + lenZ pattern < maxUInt32.

Lemma ends_ok filename (x y : Z) pattern : 0 <= x → 0 <= y → x + y <= lenZ pattern → pattern_fits pattern →
  StronglySorted Z.le (end_runes 0 (texts filename)) ∧
  Forall (λ e, 0 <= e ∧ e + x < two32 ∧ e + y <= two32) (end_runes 0 (texts filename)) ∧
  lenZ (end_runes 0 (texts filename)) = n ∧ sum_bytes (texts filename) < two32.
Proof.
  intros Hx Hy Hxy Hfit. specialize (Hfit filename). pose proof (lenZ_nonneg pattern).
  destruct (end_runes_bounds 0 (texts filename)) as [Hs Hf]; [lia|]. pose proof (sum_runes_le_bytes (texts filename)).
  split; [done|]. split_and!.
  - eapply Forall_impl; [exact Hf|]. simpl. u32_unfold. lia.
  - unfold lenZ. by rewrite length_end_runes, length_fmap.
  - u32_unfold. lia.
Qed.

Lemma hits_in_shape leftPad rightPad ends l doc : 0 <= leftPad → hitlist l →
  let cs := hits_in leftPad rightPad ends l doc in
  StronglySorted (λ a b, cm_runeOffset a <= cm_runeOffset b) cs ∧
  Forall (λ m, 0 <= cm_runeOffset m ∧ doc_start ends doc + cm_runeOffset m + (leftPad + rightPad) <= doc_end ends doc) cs.
Proof.
  intros Hl Hhit. unfold hits_in, doc_candidates. simpl.
  assert (increasing (filter (fits leftPad rightPad (doc_start ends doc) (doc_end ends doc)) l)) as Hf.
  { by eapply (hitlist_sublist l), sublist_filter. }
  split.
  - revert Hf. generalize (filter (fits leftPad rightPad (doc_start ends doc) (doc_end ends doc)) l). clear.
    induction 1 as [|p l _ IH Hp]; [constructor|]. rewrite fmap_cons. constructor; [done|]. rewrite Forall_fmap.
    eapply Forall_impl; [exact Hp|]. simpl. lia.
  - rewrite Forall_fmap. apply Forall_forall. intros p [[? ?] _]%list_elem_of_filter. simpl. lia.
Qed.

Lemma iterateNgrams_stamp s r it : iterateNgrams d s = Ok r → ni_iter r = inr it →
  r = NgramResults (inr it) (CaseSensitive s) (FileName s) (Pattern s) (toLower (Pattern s)).
Proof.
  unfold iterateNgrams. intros E Hit. apply bind_Ok in E as ([fs|] & _ & E); [|by injection E as <-].
  apply bind_Ok in E as (? & _ & E). destruct (if _ : bool then _ else _) as [i j].
  apply bind_Ok in E as (? & _ & E). apply bind_Ok in E as (? & _ & E). apply bind_Ok in E as (? & _ & E).
  injection E as <-. simpl in Hit. by injection Hit as <-.
Qed.

(** The iterator of a substring is a stream. *)
Lemma substring_stream s r : (3 <= length (runes (Pattern s)))%nat → pattern_fits (Pattern s) → iterateNgrams d s = Ok r →
  ∃ cands (Inv : Z → ngramIterationResults → Prop), stream n cands Inv ∧ Inv (-1) r ∧
    ∀ doc, StronglySorted (λ a b, cm_runeOffset a <= cm_runeOffset b) (cands doc) ∧ Forall (candidate_of d s doc) (cands doc).
Proof.
  intros Hlen Hfit Hr. destruct (ends_ok (FileName s) 0 0 _ ltac:(lia) ltac:(lia) (lenZ_nonneg _) Hfit) as (_ & _ & _ & Hsz).
  pose proof (shard_index_of d b docs (FileName s) Hd Hsz) as Hix.
  destruct (iterateNgrams_ok d (FileName s) _ Hix s eq_refl Hlen (Hfit _)) as (r' & Hr' & Hcase).
  rewrite Hr in Hr'. injection Hr' as <-. destruct Hcase as [[Hno _]|(fI & iter & l & pos & Hf0 & Hf3 & Hi & Hrep & _)].
  - pose proof (stream_stamp n _ _ r (stream_inl (J := ngramDocIterator hitIterator) n _ _ (stream_none n))) as Hst.
    eexists _, _. split; [exact Hst|]. cbv beta. rewrite Hno. split; [destruct r; simpl in *; by subst|].
    intros doc. split; constructor.
  - pose proof (decode_count_le (Pattern s)) as Hrc. fold (RuneCount (Pattern s)) in Hrc.
    destruct (ends_ok (FileName s) fI (RuneCount (Pattern s) - fI) (Pattern s) Hf0 ltac:(lia) ltac:(lia) Hfit) as (E1 & E2 & E3 & _).
    pose proof (rep_hitlist _ _ _ Hrep) as Hl. pose proof (so_count _ _ _ Hd). pose proof (lenZ_nonneg docs).
    pose proof (Hfit (FileName s)). pose proof (sum_bytes_nonneg (texts (FileName s))).
    set (R := RuneCount (Pattern s) - fI) in *.
    pose proof (doc_stream (I := hitIterator) fI R _ l E1 E2 ltac:(lia) ltac:(u32_unfold; lia) ltac:(lia) Hl) as Hst.
    rewrite E3 in Hst. pose proof (stream_stamp n _ _ r (stream_inr (I := noMatchTree) n _ _ Hst)) as Hst'.
    eexists _, _. split; [exact Hst'|]. cbv beta. rewrite Hi. split.
    + split; [destruct r; simpl in *; by subst|]. cbn [n_leftPad n_rightPad n_ends n_fileIdx n_iter]. unfold doc_inv.
      cbn [n_leftPad n_rightPad n_ends n_fileIdx n_iter]. split_and!; try (done || lia). by exists pos, l.
    + intros doc. rewrite (iterateNgrams_stamp s r _ Hr Hi).
      destruct (hits_in_shape fI R (end_runes 0 (texts (FileName s))) l doc Hf0 Hl) as [Hs Hf].
      replace (fI + R) with (RuneCount (Pattern s)) in Hf by lia. change (map ?g ?k) with (g <$> k). split.
      * clear -Hs. induction Hs as [|m ms _ IH Hm]; [constructor|]. rewrite fmap_cons. constructor; [done|].
        rewrite Forall_fmap. done.
      * rewrite Forall_fmap. apply Forall_forall. intros m Hm. rewrite Forall_forall in Hf. specialize (Hf m Hm).
        unfold hits_in, doc_candidates in Hm. apply list_elem_of_fmap in Hm as (p & -> & _).
        pose proof (io_ends _ _ _ Hix) as Hends. unfold compose, candidate_of. cbv zeta. rewrite Hends. simpl in *. tauto.
Qed.

(** The patterns of a query fit; [sub] is the condition on the query distilled
    from a regular expression. Symbols are searched in contents. *)
Definition leaf_ok (sub : Q → Prop) (q : Q) : Prop :=
  match q with
  | QSubstring s => pattern_fits (Pattern s)
  | QSymbol s => FileName s = false ∧ pattern_fits (Pattern s)
  | QRegexp re fileName _ caseSensitive =>
    ∀ subQ, RegexpToQuery re ngramSize = Ok subQ → sub (Map subQ (inherit fileName caseSensitive))
  | _ => True
  end.
Definition query_ok (q : Q) : Prop :=
  Forall (leaf_ok (λ q, Forall (leaf_ok (λ _, True)) (VisitAtoms q))) (VisitAtoms q).

(** What holds of the leaves holds of the trees built of them. *)
Lemma buildTree_all (W : matchTree → Prop) leaf (P : Q → Prop) :
  (∀ i cs, Forall W cs → W (andMatchTree i cs) ∧ W (orMatchTree i cs)) → (∀ i c, W c → W (notMatchTree i c)) →
  (∀ q k t k', P q → leaf q k = Ok (t, k') → W t) →
  ∀ q k t k', Forall P (VisitAtoms q) → buildTree leaf q k = Ok (t, k') → W t.
Proof.
  intros Hj Hnot Hleaf q.
  assert (∀ cs, Forall (λ q, ∀ k t k', Forall P (VisitAtoms q) → buildTree leaf q k = Ok (t, k') → W t) cs →
    Forall (λ c, Forall P (VisitAtoms c)) cs → ∀ k ts k', buildAll (buildTree leaf) cs k = Ok (ts, k') → Forall W ts) as Hall.
  { induction 1 as [|c cs Hc _ IH]; intros HP k ts k' E; cbn [buildAll] in E; [injection E as <- <-; constructor|].
    apply Forall_cons in HP as [HP1 HP2].
    apply bind_Ok in E as ([t k1] & Ht & E). apply bind_Ok in E as ([ts' k2] & Hts & [= <- <-]).
    constructor; [by eapply Hc|by eapply IH]. }
  induction q as [cs IH|cs IH|c IH|q Hq] using Q_ind'; intros k t k' HP E.
  - cbn [buildTree] in E. apply bind_Ok in E as ([ts k1] & Hts & [= <- <-]). eapply Hj, Hall; [exact IH|by apply (atoms_junction P true)|done].
  - cbn [buildTree] in E. apply bind_Ok in E as ([ts k1] & Hts & [= <- <-]). eapply Hj, Hall; [exact IH|by apply (atoms_junction P false)|done].
  - cbn [buildTree] in E. apply bind_Ok in E as ([t1 k1] & Ht & [= <- <-]). apply Hnot. by eapply IH.
  - apply (Hleaf q k t k'); [destruct q; try done; by apply Forall_cons in HP as [HP _]|by destruct q].
Qed.
Lemma buildTree_wf leaf (P : Q → Prop) :
  (∀ q k t k', P q → leaf q k = Ok (t, k') → wf d n (-1) t) →
  ∀ q k t k', Forall P (VisitAtoms q) → buildTree leaf q k = Ok (t, k') → wf d n (-1) t.
Proof. apply buildTree_all; [|done]. intros i cs Hcs. split; cbn [wf]; by apply foldr_wf. Qed.

Lemma long_pattern (s : bytes) : ngramSize <= RuneCount s → (3 <= length (runes s))%nat.
Proof. unfold RuneCount, runes, ngramSize, lenZ. rewrite length_fmap. lia. Qed.

Lemma newSubstring_wf s k t k' : pattern_fits (Pattern s) → newSubstringMatchTree d s k = Ok (t, k') → wf d n (-1) t.
Proof.
  intros Hfit. unfold newSubstringMatchTree. destruct (Z.ltb_spec (RuneCount (Pattern s)) ngramSize) as [|Hlen]; intros E.
  - apply bind_Ok in E as (re & _ & [= <- <-]). done.
  - apply bind_Ok in E as (r & Hr & [= <- <-]).
    destruct (substring_stream s r (long_pattern _ Hlen) Hfit Hr) as (cands & Inv & Hst & Hi & Hsh).
    cbn [wf]. eexists _, _. split; [exact (stream_inl _ _ _ Hst)|]. split; [done|]. intros doc. apply Hsh.
Qed.

(** The candidates of a symbol are those of the substring that lie in a section. *)
Lemma symbol_stream s r : FileName s = false → pattern_fits (Pattern s) → ngramSize <= RuneCount (Pattern s) →
  iterateNgrams d s = Ok r →
  ∃ cands (Inv : Z → ngramIterationResults → Prop), stream n cands Inv ∧ Inv (-1) r ∧
    (∀ doc, StronglySorted (λ a b, cm_runeOffset a <= cm_runeOffset b) (cands doc) ∧ Forall (candidate_of d s doc) (cands doc)) ∧
    ∃ Inv' : Z → trimBySectionMatchIter ngramIterationResults → Prop,
      stream n (in_sections (d_fileEndRunes d) (RuneCount (Pattern s)) (d_runeDocSections d) cands) Inv' ∧
      Inv' (-1) (newTrimByDocSectionIter (Pattern s) r (d_fileEndRunes d) (d_runeDocSections d)).
Proof.
  intros Efn Hfit Hlen Hr. destruct (substring_stream s r (long_pattern _ Hlen) Hfit Hr) as (cands & Inv & Hst & Hi & Hsh).
  exists cands, Inv. split_and!; [done..|]. pose proof (decode_count_le (Pattern s)) as Hrc. fold (RuneCount (Pattern s)) in Hrc.
  destruct (ends_ok false 0 0 (Pattern s) ltac:(lia) ltac:(lia) (lenZ_nonneg _) Hfit) as (E1 & E2 & E3 & Hsz).
  assert (end_runes 0 (texts false) = d_fileEndRunes d) as Hends by (symmetry; apply Hd).
  rewrite Hends in E1, E2, E3.
  pose proof (Hfit false) as Hb. pose proof (sum_bytes_nonneg (texts false)).
  exists (trim_inv (d_fileEndRunes d) (RuneCount (Pattern s)) (d_runeDocSections d) Inv). split.
  - rewrite <- E3 in Hst |- *. apply trim_stream; try done.
    + eapply Forall_impl; [exact E2|]. simpl. lia.
    + unfold ngramSize in Hlen. lia.
    + intros doc _. apply Hsh.
    + intros doc _. eapply Forall_impl; [apply Hsh|]. intros m (_ & _ & _ & _ & _ & _ & ? & Hend). rewrite Efn in Hend. done.
  - unfold trim_inv, newTrimByDocSectionIter. cbn [ts_iter ts_patternSize ts_fileEndRunes ts_sections].
    split_and!; try done. apply u32_id. unfold ngramSize in Hlen. u32_unfold. lia.
Qed.

Lemma newSymbol_wf s k r : FileName s = false → pattern_fits (Pattern s) → ngramSize <= RuneCount (Pattern s) →
  iterateNgrams d s = Ok r →
  wf d n (-1) (substrMatchTree k (inr (newTrimByDocSectionIter (Pattern s) r (d_fileEndRunes d) (d_runeDocSections d)))
               s (CaseSensitive s) (FileName s) [] false).
Proof.
  intros Efn Hfit Hlen Hr. destruct (symbol_stream s r Efn Hfit Hlen Hr) as (cands & Inv & _ & _ & Hsh & Inv' & Hst & Hi).
  cbn [wf]. eexists _, _. split; [exact (stream_inr _ _ _ Hst)|]. split; [done|]. intros doc.
  apply Forall_forall. intros m [_ Hm]%list_elem_of_filter. destruct (Hsh doc) as [_ Hc]. rewrite Forall_forall in Hc. by apply Hc.
Qed.

Lemma newLeaf_wf reString (P : Q → Prop) sub :
  (∀ q k t k', P q → sub q k = Ok (t, k') → wf d n (-1) t) →
  ∀ q k t k', leaf_ok P q → newLeaf d reString sub q k = Ok (t, k') → wf d n (-1) t.
Proof.
  intros Hsub q k t k' HP E. destruct q; cbn [newLeaf leaf_ok] in *; try done.
  - apply bind_Ok in E as (subQ & HQ & E). apply bind_Ok in E as ([st k1] & Ht & E).
    apply bind_Ok in E as (re' & _ & [= <- <-]). cbn [wf foldr at_doc]. split; [done|]. split; [|done].
    eapply Hsub; [|exact Ht]. by apply HP.
  - destruct HP as [Efn Hfit]. unfold newSubstringMatchTree in E.
    destruct (Z.ltb_spec (RuneCount (Pattern atom)) ngramSize) as [|Hlen].
    + by destruct (MustCompile _).
    + destruct (iterateNgrams d atom) as [r| | |] eqn:Hr; try done. cbn [mbind res_bind] in E. injection E as <- <-.
      by apply newSymbol_wf.
  - destruct (md_LanguageMap (d_metaData d) !! language); injection E as <- <-; cbn [wf]; [|done].
    pose proof (so_count _ _ _ Hd). apply languageDocs_increasing; [lia|]. rewrite (so_languageCount _ _ _ Hd). u32_unfold. lia.
  - destruct value; by injection E as <- <-.
  - by eapply newSubstring_wf.
  - injection E as <- <-. cbn [wf]. split; [done|apply (so_maskCount _ _ _ Hd)].
Qed.

Lemma newMatchTree_wf reString q k t k' : query_ok q → newMatchTree d reString q k = Ok (t, k') → wf d n (-1) t.
Proof.
  intros Hq. eapply buildTree_wf; [|exact Hq]. apply newLeaf_wf, buildTree_wf, newLeaf_wf. done.
Qed.
End ShardTrees.

(** ** Iterators do not count matches *)

Lemma posting_matches (i : postingIterator) s : MatchCount (it_updateStats i s) = MatchCount s.
Proof. destruct i; simpl; lia. Qed.
Lemma trigram_matches (i : trigramIterator) s : MatchCount (it_updateStats i s) = MatchCount s.
Proof.
  destruct i as [i|i]; [apply posting_matches|]. simpl. unfold merging_updateStats. revert s.
  induction (m_iters i) as [|j js IH]; intros s; [done|]. simpl. rewrite IH. apply posting_matches.
Qed.
Lemma hit_matches (i : hitIterator) s : MatchCount (it_updateStats i s) = MatchCount s.
Proof.
  destruct i as [i|i]; [apply trigram_matches|]. etrans; [apply (trigram_matches (d_i2 i))|apply trigram_matches].
Qed.
Lemma ngram_matches (i : ngramIterationResults) s : MatchCount (mi_updateStats i s) = MatchCount s.
Proof.
  destruct i as [[i|i] ? ? ? ?]; [done|].
  transitivity (MatchCount (it_updateStats (n_iter i) s) + 0); [done|]. rewrite hit_matches. lia.
Qed.
Lemma tree_matches `{RegexpEngine} t s : MatchCount (mt_updateStats t s) = MatchCount s.
Proof.
  revert s. induction t as [i cs IH|i cs IH|i c IH|i c IH| | | |i it q cs fn cur ev| |] using matchTree_ind'; intros s; try done;
    cbn [mt_updateStats]; try apply IH.
  1, 2: revert s; induction IH as [|c cs Hc _ IHcs]; intros s; [done|]; simpl; by rewrite IHcs, Hc.
  destruct it as [it|it]; apply ngram_matches.
Qed.

Lemma addRepos_keep (l : list (bytes * Repository)) r :
  let r' := foldl (λ r kv, addRepo r (snd kv)) r l in sr_Files r' = sr_Files r ∧ sr_Stats r' = sr_Stats r.
Proof. revert r. induction l as [|kv l IH]; intros r; [done|]. simpl. destruct (IH (addRepo r (snd kv))). done. Qed.

Lemma important_perm l l' : l ≡ₚ l' → important_files l = important_files l'.
Proof. intros E. unfold important_files, lenZ. by rewrite E. Qed.

Lemma shard_names {F} `{IndexFile F} (d : indexData F) b docs stop f files : shard_of d b docs → stop <= lenZ docs →
  Forall2 (λ doc fm, fileName d doc = Ok (fm_FileName fm)) (matching f (-1) stop) files →
  Forall2 (λ doc fm, doc_Name <$> docs !! Z.to_nat doc = Some (fm_FileName fm)) (matching f (-1) stop) files.
Proof.
  intros Hd Hs. assert (Forall (λ doc, 0 <= doc < lenZ docs) (matching f (-1) stop)) as Hr.
  { apply Forall_forall. intros doc [? _]%elem_of_matching. lia. }
  induction 1 as [|doc fm ms fs Hn _ IH]; [constructor|]. apply Forall_cons in Hr as [Hdoc Hr]. constructor; [|auto].
  destruct (lookup_lt_is_Some_2 docs (Z.to_nat doc)) as [dc Hdc]; [unfold lenZ in *; lia|].
  pose proof (so_names _ _ _ Hd _ _ Hdc) as Hn'. rewrite Z2Nat.id in Hn' by lia. rewrite Hn in Hn'. injection Hn' as ->.
  by rewrite Hdc.
Qed.

(** ** Searching a shard *)

Lemma Search_walks `{RegexpEngine} `{UnicodeCase} `{SortAlg} {F} `{IndexFileOk F}
    (d : indexData F) (b : IndexBuilder) (docs : list Document) (reString : Regexp → bytes) (ctx : nat → bool)
    (q q' : Q) (opts : SearchOptions) (t : matchTree) (k : nat) (f : Z → bool)
    (Hd : shard_of d b docs) (Hsecs : sections_ok (d_runeDocSections d)) (Hne : docs ≠ [])
    (Hctx : ctx 0%nat = false) (Hopt : so_EstimateDocCount opts = false)
    (Hq : simplify d q = Ok q') (Hq0 : q' ≠ QConst false) (Hok : query_ok docs (Map q' ExpandFileContent))
    (Ht : newMatchTree d reString (Map q' ExpandFileContent) 0 = Ok (t, k))
    (Hf : ∀ doc, 0 <= doc < lenZ docs → sem d t doc = Ok (f doc)) :
  match Search d reString ctx q opts with
  | Ok r => ∃ stop files, 0 <= stop <= lenZ docs ∧ sr_Files r ≡ₚ files ∧
      Forall2 (λ doc fm, doc_Name <$> docs !! Z.to_nat doc = Some (fm_FileName fm)) (matching f (-1) stop) files ∧
      (stop < lenZ docs → (∃ k, ctx k = true) ∨
         so_ShardMaxMatchCount (SetDefaults opts) <= MatchCount (sr_Stats r) ∨
         so_ShardMaxImportantMatch (SetDefaults opts) <= important_files (sr_Files r))
  | r => ∃ doc, 0 <= doc < lenZ docs ∧ f doc = true ∧
      fails_at d reString (Map q' ExpandFileContent) (SetDefaults opts) (lenZ (visitMatchTree t)) doc r
  end.
Proof.
  pose proof (so_count _ _ _ Hd) as Hcnt. pose proof (lenZ_nonneg docs) as Hnn. pose proof (so_maskCount _ _ _ Hd) as Hmasks.
  assert (lenZ (d_boundaries d) = lenZ docs + 1) as Hbounds.
  { rewrite (so_boundaries _ _ _ Hd), length_boundaries, lenZ_fmap; [done|]. by intros ?%fmap_nil_inv. }
  assert (walked d reString (Map q' ExpandFileContent) ctx (SetDefaults opts) (lenZ (visitMatchTree t)) f (-1) 0
    (searchLoop d (S (length (d_fileBranchMasks d))) ctx 1 (SetDefaults opts) (lenZ (visitMatchTree t)) t
       (newContentProvider stats0) (-1) 0)) as Hw.
  { apply searchLoop_walks; rewrite ?Hmasks; try done; [u32_unfold; lia|lia|unfold lenZ in *; lia|by eapply reached_new|
      by eapply newMatchTree_wf|]. intros doc ?. apply Hf. lia. }
  assert (lenZ (d_fileNameIndex d) ≠ 0) as Hnames.
  { destruct docs as [|doc0 docs']; [done|]. pose proof (so_names _ _ _ Hd 0%nat doc0 eq_refl) as Hn0.
    unfold fileName in Hn0. apply bind_Ok in Hn0 as (a & Ha & _). apply index_lookup in Ha as [_ Ha].
    apply lookup_lt_Some in Ha. unfold lenZ. lia. }
  unfold Eval.Search. destruct (Z.eqb_spec (lenZ (d_fileNameIndex d)) 0); [done|]. rewrite Hctx, Hq. cbn [mbind res_bind].
  assert (∀ A (x y : A), match q' with QConst false => x | _ => y end = y) as Hq1 by (by intros; destruct q' as [| | | | |[]| | | | | | | |]).
  rewrite Hq1. change (so_EstimateDocCount (SetDefaults opts)) with (so_EstimateDocCount opts). rewrite Hopt, Ht.
  cbn [mbind res_bind]. destruct (searchLoop _ _ _ _ _ _ _ _ _ _) as [[[files mt] p]| | |]; simpl in Hw |- *.
  - destruct Hw as (stop & Hs & Hfs & He). exists stop, files. rewrite Hmasks in *. split; [lia|].
    set (r0 := addRepo _ (d_repoMetaData d)).
    destruct (addRepos_keep (map_to_list (default ∅ (r_SubRepoMap (d_repoMetaData d)))) r0) as [-> ->].
    assert (sr_Files r0 ≡ₚ files) as Hperm by apply go_sort_perm.
    split; [done|]. split; [by eapply shard_names; [|lia|]|].
    intros Hst. destruct (He Hst) as [?|[?|?]]; [by left|right; left; by rewrite tree_matches|right; right].
    by rewrite (important_perm _ _ Hperm).
  - destruct Hw as (doc & ? & ? & ?). rewrite Hmasks in *. exists doc. split; [lia|done].
  - destruct Hw as (doc & ? & ? & ?). rewrite Hmasks in *. exists doc. split; [lia|done].
  - destruct Hw as (doc & ? & ? & ?). rewrite Hmasks in *. exists doc. split; [lia|done].
Qed.

(** ** Properties *)

(** Which documents a search visits. Let
    the shard answer for the documents [docs], let the match tree of the query
    mean [f] on each document, and let the search not be cancelled at its start.
    If [Search] returns, its files are the documents that
    satisfy [f], each once, up to the document at which it was cancelled or had
    found as much as the options ask for; and if it does not, the reason is a
    document that satisfies [f] and whose result cannot be assembled ([fails_at]). That the
    assembly succeeds on shards of valid text is a part of Search_finds. This covers the whole machinery of
    seeking in posting lists, with its leaps over documents and its state that only
    moves forward, for every shape of query. *)
Theorem Search_exact `{RegexpEngine} `{UnicodeCase} `{SortAlg} {F} `{IndexFileOk F}
    (d : indexData F) (b : IndexBuilder) (docs : list Document) (reString : Regexp → bytes) (ctx : nat → bool)
    (q q' : Q) (opts : SearchOptions) (t : matchTree) (k : nat) (f : Z → bool)
    (Hd : shard_of d b docs) (Hsecs : sections_ok (d_runeDocSections d)) (Hne : docs ≠ [])
    (Hctx : ctx 0%nat = false) (Hopt : so_EstimateDocCount opts = false)
    (Hq : simplify d q = Ok q') (Hq0 : q' ≠ QConst false) (Hok : query_ok docs (Map q' ExpandFileContent))
    (Ht : newMatchTree d reString (Map q' ExpandFileContent) 0 = Ok (t, k))
    (Hf : ∀ doc, 0 <= doc < lenZ docs → sem d t doc = Ok (f doc)) :
  match Search d reString ctx q opts with
  | Ok r => ∃ stop files, 0 <= stop <= lenZ docs ∧ sr_Files r ≡ₚ files ∧
      Forall2 (λ doc fm, doc_Name <$> docs !! Z.to_nat doc = Some (fm_FileName fm)) (matching f (-1) stop) files ∧
      (stop < lenZ docs → (∃ k, ctx k = true) ∨
         so_ShardMaxMatchCount (SetDefaults opts) <= MatchCount (sr_Stats r) ∨
         so_ShardMaxImportantMatch (SetDefaults opts) <= important_files (sr_Files r))
  | r => ∃ doc, 0 <= doc < lenZ docs ∧ f doc = true ∧
      fails_at d reString (Map q' ExpandFileContent) (SetDefaults opts) (lenZ (visitMatchTree t)) doc r
  end.
Proof. by apply (Search_walks d b docs reString ctx q q' opts t k f). Qed.

(** Witness: "main" in any case and not "pack" in files of language c, on the
    written and loaded shard. *)
Lemma toyShard_of : shard_of toyShard toyBuilder toyDocs.
Proof.
  destruct (@Write_loads merge_sort_alg indexFileFromOS _ _ toySink (λ _, true) (λ _ _, None)
    (toyMarshalMetadata (metadata_of toyBuilder 0 [])) toyMarshalRepository (λ _, Some (metadata_of toyBuilder 0 []))
    (λ _, Some toyRepository) toyBuilder toyDocs 0 [] toyWriter (FromOS toyOut)) as (d & HN & Hd & _).
  - done.
  - apply toyMetadata_ok.
  - apply toyRepository_ok.
  - apply toyBuilder_builds.
  - apply toyDocs_u32.
  - vm_compute. reflexivity.
  - split; vm_compute; reflexivity.
  - vm_compute. reflexivity.
  - vm_compute. reflexivity.
  - unfold toyShard. rewrite HN. exact Hd.
Qed.

Definition toySearchTree : @matchTree toyEngine :=
  match @newMatchTree toyEngine unicode_latin _ _ toyShard (λ _, []) (Map toyQuery ExpandFileContent) 0 with
  | Ok (t, _) => t
  | _ => @noMatchTree_ toyEngine 0 (NoMatch "")
  end.
Definition toyOptions : SearchOptions := MkSearchOptions false false 0 0 0 0 0 0.
#[local] Abbreviation toySearch :=
  (@Eval.Search toyEngine unicode_latin merge_sort_alg _ _ toyShard (λ _, []) (λ _, false) toyQuery toyOptions).

Lemma toySearch_ok : match toySearch with Ok _ => true | _ => false end = true.
Proof. vm_cast_no_check (eq_refl true). Qed.
Lemma toySecs_ok : sections_ok (d_runeDocSections toyShard).
Proof.
  assert (d_runeDocSections toyShard = [DocSec 8 12]) as -> by (vm_cast_no_check (eq_refl [DocSec 8 12])).
  split; repeat constructor; simpl; lia.
Qed.
Lemma toyQuery_ok : query_ok toyDocs (Map toyQuery ExpandFileContent).
Proof. repeat constructor; intros []; vm_compute; reflexivity. Qed.

Lemma Search_exact_witness :
  match toySearch with
  | Ok r => ∃ stop files, 0 <= stop <= 2 ∧ sr_Files r ≡ₚ files ∧
      Forall2 (λ doc fm, doc_Name <$> toyDocs !! Z.to_nat doc = Some (fm_FileName fm))
        (matching (λ doc, doc =? 1) (-1) stop) files ∧
      (stop < 2 → (∃ k : nat, false = true) ∨ 100000 <= MatchCount (sr_Stats r) ∨ 10 <= important_files (sr_Files r))
  | _ => False
  end.
Proof.
  generalize toySearch_ok. generalize (@Search_exact toyEngine unicode_latin merge_sort_alg _ _ _ toyShard toyBuilder toyDocs
    (λ _, []) (λ _, false) toyQuery toyQuery toyOptions toySearchTree 5 (λ doc, doc =? 1)).
  destruct toySearch as [r| | |]; [|discriminate 2..]. intros Hex _. apply Hex.
  - exact toyShard_of.
  - exact toySecs_ok.
  - intros [_ E]%app_nil. discriminate E.
  - reflexivity.
  - reflexivity.
  - vm_cast_no_check (@eq_refl (res Q) (Ok toyQuery)).
  - discriminate.
  - exact toyQuery_ok.
  - vm_cast_no_check (@eq_refl (res (@matchTree toyEngine * nat)) (Ok (toySearchTree, 5%nat))).
  - intros doc Hdoc. assert (doc = 0 ∨ doc = 1) as [->| ->] by (change (lenZ toyDocs) with 2 in Hdoc; lia).
    + vm_cast_no_check (@eq_refl (res bool) (Ok false)).
    + vm_cast_no_check (@eq_refl (res bool) (Ok true)).
Defined.
