(* ===== verification/Offsets.v ===== *)
(** * From rune offsets to byte offsets

    findOffset of contentprovider.go turns the rune offset of a candidate into a
    byte offset, from the byte offsets of every hundredth rune of all documents that
    the builder recorded. *)

From S2P Require Import Prelude GoStd Bits Api HitIter MatchIter Query Section IndexBuilder IndexData Shard IndexSearch Content MatchTree Eval Decide.
Import utf8 binary.

(** ** Decoding valid text *)

Definition valid_utf8 (t : bytes) : Prop := Forall (λ x, x ≠ (RuneError, 1)) (decode_all t).

(** A valid rune does not depend on what follows it. *)
Lemma DecodeRune_app t u : t ≠ [] → DecodeRune t ≠ (RuneError, 1) → DecodeRune (t ++ u) = DecodeRune t.
Proof.
  intros Hne Hv. destruct t as [|b0 [|b1 [|b2 [|b3 t]]]]; [done|..]; simpl in *; repeat case_match; try done; congruence.
Qed.
Lemma DecodeRune_prefix t u : DecodeRune (t ++ u) ≠ (RuneError, 1) → snd (DecodeRune (t ++ u)) <= lenZ t → t ≠ [] →
  DecodeRune t = DecodeRune (t ++ u).
Proof.
  intros Hv Hs Hne. destruct t as [|b0 [|b1 [|b2 [|b3 t]]]]; [done|..]; unfold lenZ in *; simpl in *;
    repeat case_match; simpl in *; try done; lia || congruence.
Qed.

Lemma decode_all_app t u : valid_utf8 t → decode_all (t ++ u) = decode_all t ++ decode_all u.
Proof.
  unfold valid_utf8. induction t as [|t Hne IH] using decode_ind; [done|]. rewrite (decode_all_cons t) by done.
  intros [Hv Ht]%Forall_cons. rewrite decode_all_cons by (by destruct t). rewrite (DecodeRune_app t u) by done.
  pose proof (DecodeRune_size t Hne) as [? ?]. simpl. f_equal. rewrite <- IH by done. f_equal.
  apply drop_app_le. unfold lenZ in *. lia.
Qed.

Lemma decode_all_join ts : Forall valid_utf8 ts → decode_all (mjoin ts) = mjoin (decode_all <$> ts).
Proof. induction 1 as [|t ts Ht _ IH]; [done|]. simpl. by rewrite decode_all_app, IH. Qed.

Lemma valid_join ts : Forall valid_utf8 ts → valid_utf8 (mjoin ts).
Proof.
  intros Hts. unfold valid_utf8. rewrite decode_all_join by done.
  induction Hts as [|t ts Ht _ IH]; [constructor|]. simpl. by apply Forall_app.
Qed.

(** Dropping whole runes. *)
Lemma decode_all_drop t k : decode_all (drop (Z.to_nat (total_size (take k (decode_all t)))) t) = drop k (decode_all t).
Proof.
  revert t. induction k as [|k IH]; intros t; [done|].
  destruct (decide (t = [])) as [->|Hne]; [by rewrite drop_nil|].
  rewrite !(decode_all_cons t) by done. pose proof (DecodeRune_size t Hne) as [? ?]. cbn [take drop].
  rewrite total_size_cons. set (sz := snd (DecodeRune t)) in *.
  pose proof (total_size_take k (drop (Z.to_nat sz) t)).
  rewrite Z2Nat.inj_add by lia. rewrite <- drop_drop. apply IH.
Qed.

(** ** The loop *)

Lemma skip_runes_ok (lft : nat) : ∀ off data rest,
  Forall (λ x, x ≠ (RuneError, 1)) (take lft (decode_all (data ++ rest))) → (lft <= length (decode_all (data ++ rest)))%nat →
  total_size (take lft (decode_all (data ++ rest))) <= lenZ data →
  0 <= off → off + total_size (take lft (decode_all (data ++ rest))) < two32 →
  skip_runes lft off data = Ok (off + total_size (take lft (decode_all (data ++ rest)))).
Proof.
  induction lft as [|lft IH]; intros off data rest Hv Hl Hsz Ho Hb.
  { rewrite take_0 in *. simpl. f_equal. unfold total_size. simpl. lia. }
  destruct (decide (data ++ rest = [])) as [E|Hne]; [rewrite E in Hl; unfold decode_all in Hl; cbn in Hl; lia|].
  pose proof (DecodeRune_size _ Hne) as [Hs1 Hs2].
  rewrite (decode_all_cons (data ++ rest)) in * by done. cbn [take length] in *. apply Forall_cons in Hv as [Hv0 Hv].
  rewrite total_size_cons in *. set (x := DecodeRune (data ++ rest)) in *.
  pose proof (total_size_take lft (drop (Z.to_nat (snd x)) (data ++ rest))) as Hnn.
  assert (0 < lenZ data) as Hpos by lia. assert (data ≠ []) as Hd by (intros ->; done).
  assert (DecodeRune data = x) as Hx by (apply DecodeRune_prefix; [done|fold x; lia|done]).
  assert (drop (Z.to_nat (snd x)) (data ++ rest) = drop (Z.to_nat (snd x)) data ++ rest) as Hdrop
    by (apply drop_app_le; unfold lenZ in *; lia).
  rewrite Hdrop in *. cbn [skip_runes]. rewrite Hx. destruct x as [r sz] eqn:Ex. simpl snd in *.
  rewrite slice_from_Ok by lia. cbn [mbind res_bind]. rewrite (u32_id sz), (u32_id (off + sz)) by (u32_unfold; lia).
  rewrite (IH _ _ rest); [f_equal; lia|done|lia| |lia|lia]. rewrite lenZ_drop. lia.
Qed.

(** ** The sampled offsets *)

#[local] Abbreviation sum := (foldr Z.add 0).

Lemma sum_app a b : sum (a ++ b) = sum a + sum b.
Proof. induction a as [|x a IH]; simpl; lia. Qed.

Lemma sampled_between sizes : ∀ idx off, 0 < idx mod 100 → idx mod 100 + lenZ sizes <= 100 → sampled idx off sizes = [].
Proof.
  induction sizes as [|s sizes IH]; intros idx off Hm Hl; [done|]. cbn [sampled]. unfold runeOffsetFrequency.
  rewrite lenZ_cons in Hl. pose proof (lenZ_nonneg sizes). destruct (Z.eqb_spec (idx mod 100) 0); [lia|].
  destruct (decide (sizes = [])) as [->|Hne]; [done|].
  assert (0 < lenZ sizes) by (destruct sizes; [done|]; rewrite lenZ_cons; pose proof (lenZ_nonneg sizes); lia).
  apply IH; Z.div_mod_to_equations; lia.
Qed.

Lemma sampled_lookup (i : nat) : ∀ idx off sizes, 0 <= idx → idx mod 100 = 0 → (100 * i < length sizes)%nat →
  sampled idx off sizes !! i = Some (off + sum (take (100 * i) sizes)).
Proof.
  induction i as [|i IH]; intros idx off sizes Hi Hm Hl.
  - destruct sizes as [|s sizes]; [simpl in Hl; lia|]. cbn [sampled]. unfold runeOffsetFrequency. rewrite Hm. simpl. f_equal. lia.
  - rewrite <- (take_drop 100 sizes) at 1. rewrite sampled_app.
    assert (lenZ (take 100 sizes) = 100) as Hl1 by (rewrite lenZ_take; unfold lenZ; lia).
    assert (sampled idx off (take 100 sizes) = [off]) as ->.
    { destruct (take 100 sizes) as [|s l]; [done|]. rewrite lenZ_cons in Hl1. cbn [sampled]. unfold runeOffsetFrequency.
      rewrite Hm. simpl. rewrite sampled_between; [done|..]; Z.div_mod_to_equations; lia. }
    cbn [app lookup list_lookup]. rewrite IH; [|lia|rewrite Hl1; Z.div_mod_to_equations; lia|rewrite length_drop; lia].
    f_equal. replace (100 * S i)%nat with (100 + 100 * i)%nat by lia. rewrite <- take_take_drop, sum_app. lia.
Qed.

(** ** All documents in a row *)

Lemma join_sizes (l : list bytes) : corpus_sizes l = snd <$> mjoin (decode_all <$> l).
Proof.
  induction l as [|t l IH]; [done|]. change (t :: l) with ([t] ++ l).
  rewrite corpus_sizes_app, IH, corpus_sizes_one, fmap_app, join_app, fmap_app. simpl. by rewrite app_nil_r.
Qed.

Section Corpus.
Context (ts : list bytes) (after : bytes).
Hypothesis ts_valid : Forall valid_utf8 ts.
Hypothesis ts_size : sum_bytes ts < two32.
#[local] Abbreviation D := (decode_all (mjoin ts)).

Lemma corpus_sizes_decode : corpus_sizes ts = snd <$> D.
Proof. by rewrite decode_all_join, join_sizes. Qed.

Lemma length_corpus : lenZ D = sum_runes ts.
Proof. by rewrite <- corpus_sizes_len, corpus_sizes_decode, lenZ_fmap. Qed.

Lemma corpus_total : total_size D = sum_bytes ts.
Proof. by rewrite total_size_sum, <- corpus_sizes_decode, corpus_sizes_sum. Qed.

(** Where rune [r] of text [i] is. *)
Lemma rune_place (i : nat) t (r : nat) : ts !! i = Some t → (r <= length (decode_all t))%nat →
  total_size (take (Z.to_nat (sum_runes (take i ts)) + r) D) = sum_bytes (take i ts) + total_size (take r (decode_all t)).
Proof.
  intros Hi Hr. rewrite decode_all_join by done. rewrite <- (take_drop_middle _ _ _ Hi) at 2.
  rewrite fmap_app, join_app, fmap_cons. cbn [mjoin list_join].
  assert (Forall valid_utf8 (take i ts)) as Hv by by apply Forall_take.
  assert (lenZ (mjoin (decode_all <$> take i ts)) = sum_runes (take i ts)) as Hl.
  { by rewrite <- corpus_sizes_len, join_sizes, lenZ_fmap. }
  assert (total_size (mjoin (decode_all <$> take i ts)) = sum_bytes (take i ts)) as Hs.
  { by rewrite <- corpus_sizes_sum, total_size_sum, join_sizes. }
  replace (Z.to_nat (sum_runes (take i ts))) with (length (mjoin (decode_all <$> take i ts))) by (unfold lenZ in Hl; lia).
  rewrite take_app_add, total_size_app, Hs. f_equal. f_equal. by apply take_app_le.
Qed.

(** Walking from the sampled rune reaches the rune. *)
Lemma window_ok (k : nat) (window rest : bytes) : (k < length D)%nat →
  let start := total_size (take (100 * (k / 100)) D) in
  window ++ rest = drop (Z.to_nat start) (mjoin ts ++ after) →
  total_size (take k D) - start <= lenZ window →
  skip_runes (k mod 100) start window = Ok (total_size (take k D)).
Proof.
  intros Hk start Hw Hsz.
  assert (k = 100 * (k / 100) + k mod 100)%nat as Ek by (apply Nat.div_mod; lia).
  pose proof (total_size_take (100 * (k / 100)) (mjoin ts)) as Hst. fold start in Hst.
  pose proof (total_size_take k (mjoin ts)) as Hkt. pose proof corpus_total as Htot. rewrite total_size_decode in Htot.
  assert (decode_all (window ++ rest) = drop (100 * (k / 100)) D ++ decode_all after) as Hdec.
  { rewrite Hw, drop_app_le by (unfold lenZ in Hst; lia). rewrite decode_all_app; unfold start; rewrite ?decode_all_drop; [done|].
    unfold valid_utf8. rewrite decode_all_drop. apply Forall_drop, valid_join, ts_valid. }
  assert (take (k mod 100) (decode_all (window ++ rest)) = take (k mod 100) (drop (100 * (k / 100)) D)) as Htk.
  { rewrite Hdec. apply take_app_le. rewrite length_drop. lia. }
  assert (total_size (take k D) = start + total_size (take (k mod 100) (drop (100 * (k / 100)) D))) as Hsum.
  { rewrite Ek at 1. rewrite <- take_take_drop, total_size_app. done. }
  rewrite (skip_runes_ok _ _ _ rest); rewrite ?Htk, ?Hsum; try done; try lia.
  - apply Forall_take, Forall_drop, valid_join, ts_valid.
  - rewrite Hdec, length_app, length_drop. lia.
Qed.
End Corpus.

(** ** Documents of a shard *)

Section Shard.
Context {F : Type} `{IndexFile F} (d : indexData F) (b : IndexBuilder) (docs : list Document) (Hd : shard_of d b docs).
Context (filename : bool).
#[local] Abbreviation text doc := (if filename then doc_Name doc else doc_Content doc).
#[local] Abbreviation texts := ((λ doc, text doc) <$> docs).

Lemma lenZ_join (l : list bytes) : lenZ (mjoin l) = sum_bytes l.
Proof. induction l as [|t l IH]; [done|]. simpl. rewrite lenZ_app. unfold sum_bytes in *. simpl in *. lia. Qed.

Lemma text_start (i : nat) doc : docs !! i = Some doc →
  index (if filename then d_fileNameIndex d else d_boundaries d) (Z.of_nat i) = Ok (sum_bytes (take i texts)).
Proof.
  intros Hi. rewrite (so_nameIndex _ _ _ Hd), (so_boundaries _ _ _ Hd).
  replace (if filename then _ else _) with (boundaries_of texts) by (by destruct filename).
  assert (texts !! i = Some (text doc)) as Ht by (by rewrite list_lookup_fmap, Hi).
  destruct (boundaries_lookup _ _ _ Ht) as [Hb _]. rewrite (index_nat _ _ _ Hb). f_equal. apply lenZ_join.
Qed.

Lemma runes_before (i : nat) doc r : docs !! i = Some doc → 0 <= r → r + sum_runes (take i texts) < two32 →
  (if 0 <? Z.of_nat i then e ← index (if filename then d_fileNameEndRunes d else d_fileEndRunes d) (Z.of_nat i ⊖ 1); Ok (r ⊕ e)
   else Ok r) = Ok (r + sum_runes (take i texts)).
Proof.
  intros Hi Hr Hb. pose proof (lookup_lt_Some _ _ _ Hi). pose proof (so_count _ _ _ Hd) as Hc. unfold lenZ in Hc.
  destruct (Z.ltb_spec 0 (Z.of_nat i)); [|assert (i = 0%nat) as -> by lia; f_equal; unfold sum_runes; simpl; lia].
  rewrite u32_id by (u32_unfold; lia). rewrite (so_endRunes _ _ _ Hd), (so_nameEndRunes _ _ _ Hd).
  replace (if filename then _ else _) with (end_runes 0 texts) by (by destruct filename).
  replace (Z.of_nat i - 1) with (Z.of_nat (i - 1)) by lia.
  destruct (lookup_lt_is_Some_2 docs (i - 1)) as [doc' Hi']; [lia|].
  assert (texts !! (i - 1)%nat = Some (text doc')) as Ht by (by rewrite list_lookup_fmap, Hi').
  rewrite (index_nat _ _ _ (end_runes_lookup 0 _ _ _ Ht)). cbn [mbind res_bind]. replace (S (i - 1)) with i by lia.
  f_equal. apply u32_id. pose proof (sum_runes_nonneg (take i texts)). u32_unfold. lia.
Qed.

Hypothesis texts_valid : Forall valid_utf8 texts.

(** The text has [r] runes before the byte at which rune [r] starts. *)
Lemma text_runes (i : nat) doc (r : nat) : docs !! i = Some doc → (r < length (decode_all (text doc)))%nat →
  (Z.to_nat (sum_runes (take i texts)) + r < length (decode_all (mjoin texts)))%nat.
Proof.
  intros Hi Hr. assert (texts !! i = Some (text doc)) as Ht by (by rewrite list_lookup_fmap, Hi).
  pose proof (length_corpus texts texts_valid) as Hl.
  assert (sum_runes texts = sum_runes (take i texts) + (RuneCount (text doc) + sum_runes (drop (S i) texts))) as Hs.
  { rewrite <- (take_drop_middle _ _ _ Ht) at 1. rewrite sum_runes_app. done. }
  pose proof (sum_runes_nonneg (take i texts)). pose proof (sum_runes_nonneg (drop (S i) texts)).
  unfold RuneCount, lenZ in *. lia.
Qed.

Lemma sample_at k : (k < length (decode_all (mjoin texts)))%nat →
  index (if filename then d_fileNameRuneOffsets d else d_runeOffsets d) (Z.of_nat k / runeOffsetFrequency)
  = Ok (total_size (take (100 * (k / 100)) (decode_all (mjoin texts)))).
Proof.
  intros Hk. rewrite (so_runeOffsets _ _ _ Hd), (so_nameRuneOffsets _ _ _ Hd).
  replace (if filename then _ else _) with (sampled 0 0 (corpus_sizes texts)) by (by destruct filename).
  rewrite corpus_sizes_decode by done. unfold runeOffsetFrequency. change 100 with (Z.of_nat 100). rewrite <- Nat2Z.inj_div.
  assert (100 * (k / 100) <= k)%nat by (apply Nat.Div0.mul_div_le).
  erewrite index_nat; [|apply sampled_lookup; [done|done|rewrite length_fmap; lia]].
  f_equal. by rewrite total_size_sum, fmap_take.
Qed.

(** Runes of one byte. *)
Lemma plain_offsets (i : nat) doc (r : nat) : docs !! i = Some doc → Forall (λ s, s <= 1) (corpus_sizes texts) →
  (r <= length (decode_all (text doc)))%nat → total_size (take r (decode_all (text doc))) = Z.of_nat r.
Proof.
  intros Hi Hpl Hr. assert (texts !! i = Some (text doc)) as Ht by (by rewrite list_lookup_fmap, Hi).
  rewrite <- (take_drop_middle _ _ _ Ht), corpus_sizes_app in Hpl. change (text doc :: ?l) with ([text doc] ++ l) in Hpl.
  rewrite corpus_sizes_app, corpus_sizes_one in Hpl. apply Forall_app in Hpl as [_ [Hpl _]%Forall_app].
  rewrite Forall_fmap in Hpl. pose proof (decode_sizes (text doc)) as Hsz. clear -Hpl Hsz Hr. revert r Hr.
  induction (decode_all (text doc)) as [|x ds IH]; intros [|r] Hr; try done; [simpl in Hr; lia|].
  apply Forall_cons in Hpl as [? Hpl], Hsz as [? Hsz]. cbn [take]. rewrite total_size_cons, IH by (done || (simpl in Hr; lia)).
  simpl in *. lia.
Qed.

(** The window of 300 bytes reaches the rune, if runes have at most three bytes. *)
Lemma window_size (k : nat) : (k < length (decode_all (mjoin texts)))%nat → Forall (λ s, s <= 3) (corpus_sizes texts) →
  total_size (take k (decode_all (mjoin texts))) - total_size (take (100 * (k / 100)) (decode_all (mjoin texts))) <= 300.
Proof.
  intros Hk Hs. rewrite corpus_sizes_decode in Hs by done. rewrite Forall_fmap in Hs. set (D := decode_all (mjoin texts)) in *.
  assert (k = 100 * (k / 100) + k mod 100)%nat as Ek by (apply Nat.div_mod; lia).
  rewrite Ek at 1. rewrite <- take_take_drop, total_size_app.
  assert (∀ m l, Forall ((λ s, s <= 3) ∘ snd) l → total_size (take m l) <= 3 * Z.of_nat m) as Hb.
  { clear. intros m l Hl. revert m. induction Hl as [|x l Hx _ IH]; intros [|m]; cbn [take]; rewrite ?total_size_cons;
      [done|unfold total_size; simpl; lia|unfold total_size; simpl; lia|]. specialize (IH m). simpl in Hx. lia. }
  specialize (Hb (k mod 100)%nat (drop (100 * (k / 100)) D) (Forall_drop _ _ _ Hs)).
  pose proof (Nat.mod_upper_bound k 100 ltac:(lia)). lia.
Qed.
End Shard.

(** Shards of plain ASCII need no window. *)
Lemma findOffset_at {F} `{IndexFile F} (d : indexData F) (b : IndexBuilder) (docs : list Document)
    (filename : bool) (after : bytes) (p : contentProvider) (i : nat) (doc : Document) (r : nat)
    (Hd : shard_of d b docs)
    (Hv : Forall valid_utf8 ((λ doc, if filename then doc_Name doc else doc_Content doc) <$> docs))
    (Hs : sum_bytes ((λ doc, if filename then doc_Name doc else doc_Content doc) <$> docs) < two32)
    (Hw : filename = false → md_PlainASCII (d_metaData d) = true ∨ Forall (λ s, s <= 3) (corpus_sizes (doc_Content <$> docs)) ∧
            contents_region d (mjoin (doc_Content <$> docs)) after ∧ 300 <= lenZ after)
    (Hi : docs !! i = Some doc) (Hp : cp_idx p = Z.of_nat i)
    (Hr : (r < length (decode_all (if filename then doc_Name doc else doc_Content doc)))%nat) :
  ∃ p', findOffset d p filename (Z.of_nat r)
    = Ok (total_size (take r (decode_all (if filename then doc_Name doc else doc_Content doc))), p').
Proof.
  unfold findOffset. rewrite Hp. destruct (md_PlainASCII (d_metaData d)) eqn:Epl.
  { exists p. do 2 f_equal. symmetry. eapply plain_offsets; [exact Hi| |lia].
    apply (so_plain _ _ _ Hd) in Epl as [? ?]. by destruct filename. }
  set (texts := (λ doc, if filename then doc_Name doc else doc_Content doc) <$> docs) in *.
  set (text := if filename then doc_Name doc else doc_Content doc) in *.
  assert (texts !! i = Some text) as Ht by (unfold texts; by rewrite list_lookup_fmap, Hi).
  pose proof (text_start d b docs Hd filename i doc Hi) as Hst. fold texts in Hst.
  assert (∃ c, index (d_boundaries d) (Z.of_nat i) = Ok c ∧
    (if filename then index (d_fileNameIndex d) (Z.of_nat i) else Ok c) = Ok (sum_bytes (take i texts))) as (c & -> & Hc).
  { pose proof (text_start d b docs Hd false i doc Hi) as Hc. eexists. split; [exact Hc|]. destruct filename; [exact Hst|done]. }
  cbn [mbind res_bind]. rewrite Hc. cbn [mbind res_bind].
  pose proof (text_runes docs filename Hv i doc r Hi Hr) as Hk. fold texts in Hk.
  set (k := (Z.to_nat (sum_runes (take i texts)) + r)%nat) in *. pose proof (sum_runes_nonneg (take i texts)).
  pose proof (length_corpus texts Hv) as Hlen. pose proof (sum_runes_le_bytes texts).
  assert (Z.of_nat r + sum_runes (take i texts) = Z.of_nat k) as Ek by (unfold k; lia).
  rewrite (runes_before d b docs Hd filename i doc) by first [done|lia|fold texts; unfold lenZ in *; lia]. fold texts.
  rewrite Ek. cbn [mbind res_bind]. pose proof (sample_at d b docs Hd filename Hv k Hk) as Hsam. fold texts in Hsam. rewrite Hsam.
  cbn [mbind res_bind]. set (start := total_size (take (100 * (k / 100)) (decode_all (mjoin texts)))) in *.
  replace (Z.to_nat (Z.of_nat k mod runeOffsetFrequency)) with (k mod 100)%nat
    by (unfold runeOffsetFrequency; change 100 with (Z.of_nat 100); rewrite <- Nat2Z.inj_mod; lia).
  pose proof (rune_place texts Hv i text r Ht ltac:(lia)) as Hpl. fold k in Hpl.
  pose proof (total_size_take (100 * (k / 100)) (mjoin texts)) as Hst2. fold start in Hst2. rewrite lenZ_join in Hst2.
  pose proof (total_size_take r text) as Htr. pose proof (total_size_take k (mjoin texts)) as Htk. rewrite lenZ_join in Htk.
  assert (total_size (take k (decode_all (mjoin texts))) ⊖ sum_bytes (take i texts) = total_size (take r (decode_all text))) as Hsub.
  { rewrite Hpl, Z.add_simpl_l. apply u32_id. pose proof (sum_bytes_nonneg (take i texts)). u32_unfold. lia. }
  destruct filename.
  - rewrite (so_nameContent _ _ _ Hd). change (doc_Name <$> docs) with texts. rewrite slice_from_Ok by (rewrite lenZ_join; lia).
    cbn [mbind res_bind]. rewrite (window_ok texts [] Hv Hs k _ []); [cbn [mbind res_bind]; exists p; by rewrite Hsub|done|by rewrite !app_nil_r|].
    fold start. rewrite lenZ_drop, lenZ_join. lia.
  - destruct (Hw eq_refl) as [?|(H3 & Hreg & Ha)]; [congruence|]. change (doc_Content <$> docs) with texts in *. unfold runeOffsetFrequency.
    pose proof (lenZ_join texts) as Hlj. rewrite Hreg by (rewrite ?lenZ_app; lia). cbn [caught mbind res_bind].
    rewrite (window_ok texts after Hv Hs k _ (drop (Z.to_nat (3 * 100)) (drop (Z.to_nat start) (mjoin texts ++ after))));
      [cbn [mbind res_bind]; eexists; by rewrite Hsub|done|apply take_drop|].
    assert (total_size (take k (decode_all (mjoin texts))) - start <= 300) as Hwin by exact (window_size docs false Hv k Hk H3).
    fold start. rewrite lenZ_take, lenZ_drop, lenZ_app. lia.
Qed.

(** ** Properties *)

(** C29: findOffset is exact. In a shard of valid UTF-8 texts whose runes have at
    most three bytes (for file names of any size), the byte offset returned for rune
    [r] of a document is the number of bytes of the runes before it, although the
    search starts at a sampled rune that may lie in an earlier document. *)
Theorem findOffset_exact {F} `{IndexFile F} (d : indexData F) (b : IndexBuilder) (docs : list Document)
    (filename : bool) (after : bytes) (p : contentProvider) (i : nat) (doc : Document) (r : nat)
    (Hd : shard_of d b docs)
    (Hv : Forall valid_utf8 ((λ doc, if filename then doc_Name doc else doc_Content doc) <$> docs))
    (Hs : sum_bytes ((λ doc, if filename then doc_Name doc else doc_Content doc) <$> docs) < two32)
    (Hw : filename = false → Forall (λ s, s <= 3) (corpus_sizes (doc_Content <$> docs)) ∧
            contents_region d (mjoin (doc_Content <$> docs)) after ∧ 300 <= lenZ after)
    (Hi : docs !! i = Some doc) (Hp : cp_idx p = Z.of_nat i)
    (Hr : (r < length (decode_all (if filename then doc_Name doc else doc_Content doc)))%nat) :
  ∃ p', findOffset d p filename (Z.of_nat r)
    = Ok (total_size (take r (decode_all (if filename then doc_Name doc else doc_Content doc))), p').
Proof. apply (findOffset_at d b docs filename after p i doc r); auto. Qed.

(** *** Shards with one document, for witnesses *)

Definition oneBuilder (content : bytes) : IndexBuilder :=
  match @NewIndexBuilder merge_sort_alg (λ _, true) None with
  | Ok b => fst (@Add merge_sort_alg (λ _ _, None) b (MkDocument (str "f") content [] [] [] [] []))
  | _ => emptyBuilder
  end.
Definition oneDoc (content : bytes) : Document :=
  @normalizeDoc merge_sort_alg (MkDocument (str "f") content [] [] [] [] []).
Definition oneWriter (content : bytes) : writer :=
  let b := oneBuilder content in
  match @Write merge_sort_alg toySink (toyMarshalMetadata (metadata_of b 0 [])) toyMarshalRepository b 0 [] with
  | Ok w => w
  | _ => MkWriter None [] 0
  end.
Definition oneShard (content : bytes) : indexData indexFileFromOS :=
  match @NewSearcher indexFileFromOS _ merge_sort_alg (λ _, Some (metadata_of (oneBuilder content) 0 []))
          (λ _, Some toyRepository) (FromOS (w_out (oneWriter content))) with
  | Ok d => d
  | _ => emptyShard
  end.

(** What follows the contents in the file. *)
Lemma os_region (d : indexData indexFileFromOS) pre cs after :
  os_contents (d_file d) = pre ++ cs ++ after → d_boundariesStart d = lenZ pre → lenZ (os_contents (d_file d)) < two32 →
  contents_region d cs after.
Proof.
  intros Hf Hs Hl off sz Ho Hz Hle. rewrite Hf, lenZ_app in Hl. pose proof (lenZ_nonneg pre).
  unfold readContentSlice, readSectionBlob. cbn [s_off s_sz]. rewrite Hs, u32_id by (u32_unfold; lia). simpl. rewrite Hf.
  rewrite (lenZ_app pre). destruct (Z.leb_spec (lenZ pre + off + sz) (lenZ pre + lenZ (cs ++ after))); [|lia]. rewrite orb_true_r. f_equal. f_equal.
  replace (Z.to_nat (lenZ pre + off)) with (length pre + Z.to_nat off)%nat by (unfold lenZ in *; lia). by rewrite drop_app_add.
Qed.

Definition cafe : bytes := [99; 97; 102; 195; 169; 10] ++ str "main".

Lemma cafe_shard : shard_of (oneShard cafe) (oneBuilder cafe) [oneDoc cafe].
Proof.
  destruct (@Write_loads merge_sort_alg indexFileFromOS _ _ toySink (λ _, true) (λ _ _, None)
    (toyMarshalMetadata (metadata_of (oneBuilder cafe) 0 [])) toyMarshalRepository (λ _, Some (metadata_of (oneBuilder cafe) 0 []))
    (λ _, Some toyRepository) (oneBuilder cafe) ([] ++ [oneDoc cafe]) 0 [] (oneWriter cafe) (FromOS (w_out (oneWriter cafe)))) as (d & HN & Hd & _).
  - done.
  - apply toyMetadata_ok.
  - apply toyRepository_ok.
  - eapply builds_add; [by apply (builds_new _ _ None)|].
    assert (snd (@Add merge_sort_alg (λ _ _, None)
      (match @NewIndexBuilder merge_sort_alg (λ _, true) None with Ok b => b | _ => emptyBuilder end)
      (MkDocument (str "f") cafe [] [] [] [] [])) = Ok ()) as E by (vm_compute; reflexivity).
    rewrite <- E. apply surjective_pairing.
  - constructor; [|constructor]. assert (doc_Symbols (oneDoc cafe) = []) as -> by (vm_compute; reflexivity). constructor.
  - vm_compute. reflexivity.
  - split; vm_compute; reflexivity.
  - vm_compute. reflexivity.
  - vm_compute. reflexivity.
  - unfold oneShard. rewrite HN. exact Hd.
Qed.

(** A match behind many runes of four bytes is lost. The 300 bytes that
    findOffset reads from the sampled rune need not reach the rune that is asked
    for; the walk then stops at their end, the candidate is compared at the wrong
    place, and a search for "main" does not find a file that consists of eighty
    emoji and "main". *)
Theorem wide_runes_missed `{RegexpEngine} :
  let wide := mjoin (replicate 80 [240; 159; 152; 128]) ++ str "main" in
  let d := oneShard wide in
  let q := QSubstring (MkSubstring (str "main") true false true) in
  readContents d 0 = Ok wide ∧ Contains wide (str "main") = true ∧
  runes wide !! 80%nat = Some 109 ∧ (fst <$> findOffset d (fresh 0) false 80) = Ok 300 ∧
  total_size (take 80 (decode_all wide)) = 320 ∧
  (sr_Files <$> @Eval.Search _ unicode_latin merge_sort_alg _ _ d (λ _, []) (λ _, false) q
                  (MkSearchOptions false false 0 0 0 0 0 0)) = Ok [].
Proof. split_and!; vm_compute; reflexivity. Qed.

(** Witness: in "café" and "main" on a line of its own, rune 5 is at byte 6. *)
Lemma cafe_region : ∃ after, contents_region (oneShard cafe) (mjoin (doc_Content <$> [oneDoc cafe])) after ∧ 300 <= lenZ after.
Proof.
  exists (drop (Z.to_nat (d_boundariesStart (oneShard cafe) + lenZ cafe)) (os_contents (d_file (oneShard cafe)))).
  split; [|vm_compute; discriminate].
  apply (os_region _ (take (Z.to_nat (d_boundariesStart (oneShard cafe))) (os_contents (d_file (oneShard cafe))))).
  - vm_compute. reflexivity.
  - vm_compute. reflexivity.
  - vm_compute. reflexivity.
Qed.

Lemma findOffset_exact_witness : ∃ p', findOffset (oneShard cafe) (fresh 0) false 5 = Ok (6, p').
Proof.
  destruct cafe_region as (after & Hreg & Ha).
  destruct (findOffset_exact (oneShard cafe) (oneBuilder cafe) [oneDoc cafe] false after (fresh 0) 0 (oneDoc cafe) 5) as (p' & Hp').
  - exact cafe_shard.
  - constructor; [|constructor]. assert (doc_Content (oneDoc cafe) = cafe) as -> by (vm_compute; reflexivity).
    unfold valid_utf8. vm_compute. repeat constructor; discriminate.
  - vm_compute. reflexivity.
  - intros _. split; [|done]. vm_compute. repeat constructor; discriminate.
  - reflexivity.
  - reflexivity.
  - vm_compute. lia.
  - exists p'. etransitivity; [exact Hp'|]. do 2 f_equal.
Defined.
