(* ===== verification/Meaning.v ===== *)
(** * What a search finds

    Joins the parts: queries (query/), trigram indexes (indexbuilder.go, indexdata.go), match trees (matchtree.go) and
    the search loop (eval.go). A query has a meaning on documents that mentions no index: a substring is in the name or
    the contents, a branch is one of the branches, and so on. The theorems of this file say that the search of a shard
    finds the documents that satisfy the query, and that it does not fail. *)

From Stdlib Require Import SpecFloat.
From S2P Require Import Prelude GoStd Bits Api HitIter MatchIter Query Section IndexBuilder IndexData Content MatchTree Eval Decide Shard IndexSearch Gather Lines Walk Offsets.
Import utf8 binary.

(** ** Valid UTF-8 *)

(** Encoding inverts decoding where the bytes are valid. *)
Lemma Encode_Decode p : p ≠ [] → Forall is_u8 p → DecodeRune p ≠ (RuneError, 1) →
  EncodeRune (fst (DecodeRune p)) = take (Z.to_nat (snd (DecodeRune p))) p.
Proof.
  intros Hne Hp Hv. unfold is_u8 in Hp. unfold EncodeRune, valid_rune, MaxRune, enc1, enc2, enc3, enc4.
  destruct p as [|b0 [|b1 [|b2 [|b3 t]]]]; [done|..]; repeat (apply Forall_cons in Hp as [? Hp]);
    simpl in *; utf8_unfold; repeat (case_match || case_decide); simpl in *; try done;
    rewrite ?andb_true_iff, ?andb_false_iff in *; try (exfalso; lia);
    repeat f_equal; Z.div_mod_to_equations; lia.
Qed.

Definition valid_text (t : bytes) : Prop := Forall is_u8 t ∧ valid_utf8 t.

Lemma encode_runes t : valid_text t → encode_all (runes t) = t.
Proof.
  intros [Hu Hv]. revert Hu Hv. unfold valid_utf8, runes, encode_all.
  induction t as [|t Hne IH] using decode_ind; intros Hu Hv; [done|].
  rewrite decode_all_cons in * by done. apply Forall_cons in Hv as [Hd Hv].
  rewrite !fmap_cons, mjoin_cons, Encode_Decode by done.
  rewrite IH by (done || by apply Forall_drop). apply take_drop.
Qed.

Lemma runes_app t u : valid_text t → runes (t ++ u) = runes t ++ runes u.
Proof. intros [_ Hv]. unfold runes. by rewrite decode_all_app, fmap_app. Qed.

(** The text from rune [j] on. *)
Lemma drop_runes t (j : nat) : valid_text t →
  let u := drop (Z.to_nat (total_size (take j (decode_all t)))) t in
  valid_text u ∧ runes u = drop j (runes t).
Proof.
  intros [Hu Hv] u. subst u. unfold valid_text, valid_utf8, runes in *. rewrite decode_all_drop. split; [split|].
  - by apply Forall_drop.
  - by apply Forall_drop.
  - by rewrite fmap_drop.
Qed.

Lemma lenZ_runes t : lenZ (runes t) = RuneCount t.
Proof. apply lenZ_fmap. Qed.
Lemma runes_nil t : runes t = [] → t = [].
Proof.
  intros E. destruct (decide (t = [])) as [|Hne]; [done|]. unfold runes in E. by rewrite decode_all_cons in E.
Qed.

(** Comparing bytes is comparing runes, even when the bytes may come from behind the text, as long as the text has as
    many runes as the pattern. *)
Lemma bytes_prefix (P u beyond : bytes) : valid_text P → valid_text u → RuneCount P <= RuneCount u →
  take (length P) (u ++ beyond) = P ↔ ∃ rest, runes u = runes P ++ rest.
Proof.
  intros HP Hu Hc. rewrite <- !lenZ_runes in Hc. unfold lenZ in Hc. split.
  - intros E. destruct (decide (length P <= length u)%nat) as [Hle|Hgt].
    + rewrite take_app_le in E by done. exists (runes (drop (length P) u)). rewrite <- runes_app by done.
      f_equal. rewrite <- E at 1. symmetry. apply take_drop.
    + exfalso. rewrite take_app_ge in E by lia. pose proof (runes_app u (take (length P - length u) beyond) Hu) as Hr.
      rewrite E in Hr. apply (f_equal length) in Hr. rewrite length_app in Hr.
      assert (runes (take (length P - length u) beyond) = []) as E0 by (apply nil_length_inv; lia).
      apply runes_nil in E0. rewrite E0, app_nil_r in E. subst u. lia.
  - intros [rest E]. assert (u = P ++ encode_all rest) as ->.
    { rewrite <- (encode_runes u), E by done. unfold encode_all. rewrite fmap_app, join_app. f_equal. by apply encode_runes. }
    rewrite <- app_assoc. apply take_app_length.
Qed.

(** ** Comparing runes *)

Section Runes.
Context `{UnicodeCase}.

Definition same_rune (cs : bool) (p c : Z) : bool := if cs then p =? c else ToLower p =? ToLower c.
(** [pattern] at rune [j] of [text]; somewhere in it. *)
Definition found_at (cs : bool) (pattern text : bytes) (j : nat) : bool :=
  prefixb (same_rune cs) (runes pattern) (drop j (runes text)).
Definition occurs (cs : bool) (pattern text : bytes) : bool := infixb (same_rune cs) (runes pattern) (runes text).

Lemma prefixb_Forall2 eqc p t : prefixb eqc p t = true ↔ ∃ w rest, t = w ++ rest ∧ Forall2 (λ x y, eqc x y = true) p w.
Proof.
  revert t. induction p as [|x p IH]; intros t; simpl.
  { split; [|done]. intros _. by exists [], t. }
  destruct t as [|y t]; [split; [done|]; intros (w & rest & E & Hw); destruct w; [inversion Hw|done]|].
  rewrite andb_true_iff, IH. split.
  - intros [Hx (w & rest & -> & Hw)]. exists (y :: w), rest. split; [done|by constructor].
  - intros (w & rest & E & Hw). inversion Hw as [|? ? ? w' Hx Hw']; subst. injection E as -> ->. split; [done|]. by exists w', rest.
Qed.
Lemma infixb_drop eqc p t : infixb eqc p t = true ↔ ∃ j, prefixb eqc p (drop j t) = true.
Proof.
  induction t as [|y t IH]; simpl.
  - rewrite orb_false_r. split; [by exists 0%nat|]. intros [j Hj]. by rewrite drop_nil in Hj.
  - rewrite orb_true_iff, IH. split.
    + intros [Hp|[j Hj]]; [by exists 0%nat|by exists (S j)].
    + intros [[|j] Hj]; [by left|right; by exists j].
Qed.

Lemma found_fits cs pattern text j : found_at cs pattern text j = true → runes pattern ≠ [] →
  Z.of_nat j + RuneCount pattern <= RuneCount text.
Proof.
  unfold found_at. intros (w & rest & E & Hw)%prefixb_Forall2 Hne. apply Forall2_length in Hw.
  rewrite <- !lenZ_runes. apply (f_equal length) in E. rewrite length_drop, length_app in E.
  destruct (runes pattern); [done|]. unfold lenZ. simpl in *. lia.
Qed.
Lemma occurs_found cs pattern text : occurs cs pattern text = true ↔ ∃ j, found_at cs pattern text j = true.
Proof. apply infixb_drop. Qed.

Lemma runes_toLower s : Forall (λ r, valid_rune (ToLower r)) (runes s) → runes (toLower s) = ToLower <$> runes s.
Proof.
  intros Hv. assert (toLower s = encode_all (ToLower <$> runes s)) as ->.
  { unfold toLower, encode_all. by rewrite <- list_fmap_compose. }
  apply runes_encode. by rewrite Forall_fmap.
Qed.

(** caseFoldingEqualsRunes of the lowered pattern. *)
Lemma fold_prefix pattern u : Forall (λ r, valid_rune (ToLower r)) (runes pattern) →
  ∃ n, caseFoldingEqualsRunes (toLower pattern) u = (n, prefixb (same_rune false) (runes pattern) (runes u)) ∧
    (prefixb (same_rune false) (runes pattern) (runes u) = true → 0 <= n <= lenZ u).
Proof.
  intros Hv. destruct (caseFoldingEqualsRunes (toLower pattern) u) as [n ok] eqn:E. exists n.
  assert (∀ n, caseFoldingEqualsRunes (toLower pattern) u = (n, true) →
    prefixb (same_rune false) (runes pattern) (runes u) = true ∧ 0 <= n <= lenZ u) as Hgo.
  { intros n' E'. unfold caseFoldingEqualsRunes in E'. apply caseFoldingEqualsRunes_loop_true in E' as (k & Hk & Hl & ->).
    split; [|pose proof (total_size_take k u); lia]. apply prefixb_Forall2. exists (fst <$> take k (decode_all u)), (fst <$> drop k (decode_all u)).
    split; [by rewrite <- fmap_app, take_drop|]. fold (runes (toLower pattern)) in Hk. rewrite runes_toLower in Hk by done.
    clear -Hk. revert Hk. generalize (fst <$> take k (decode_all u)). induction (runes pattern) as [|r rs IH]; intros [|c cs] Hk; try done.
    injection Hk as Hr Hk. constructor; [by apply Z.eqb_eq|by apply IH]. }
  destruct ok.
  - destruct (Hgo n E) as [-> ?]. by split.
  - destruct (prefixb _ _ _) eqn:Ep; [|by split]. exfalso.
    apply prefixb_Forall2 in Ep as (w & rest & Ew & Hw). unfold caseFoldingEqualsRunes in E.
    assert (caseFoldingEqualsRunes_loop (decode_all (toLower pattern)) (decode_all u) 0
      = (0 + total_size (take (length (runes pattern)) (decode_all u)), true)) as E2; [|by rewrite E in E2].
    apply caseFoldingEqualsRunes_loop_true. exists (length (runes pattern)). fold (runes (toLower pattern)).
    pose proof (runes_toLower pattern Hv) as Hr. split; [|split; [|done]].
    + rewrite Hr, fmap_take. fold (runes u). rewrite Ew, (Forall2_length _ _ _ Hw), take_app_length.
      clear -Hw. induction Hw as [|? ? ? ? Hx]; [done|]. apply Z.eqb_eq in Hx. rewrite !fmap_cons. by f_equal.
    + apply (f_equal length) in Hr. unfold runes in *. by rewrite !length_fmap in *.
Qed.
End Runes.

(** ** Symbols *)

(** The symbol sections of a document start and end between runes, and are in order. *)
Definition aligned (doc : Document) (ijs : list (nat * nat)) : Prop :=
  doc_Symbols doc = byte_sections (doc_Content doc) ijs ∧ sections_in (doc_Content doc) ijs.
(** The sections of a corpus, counted in runes. *)
Fixpoint corpus_sections (base : Z) (docs : list Document) (parts : list (list (nat * nat))) : list DocumentSection :=
  match docs, parts with
  | doc :: docs, ijs :: parts => rune_sections base ijs ++ corpus_sections (base + RuneCount (doc_Content doc)) docs parts
  | _, _ => []
  end.

Lemma corpus_sections_snoc base docs parts doc ijs : length docs = length parts →
  corpus_sections base (docs ++ [doc]) (parts ++ [ijs])
  = corpus_sections base docs parts ++ rune_sections (base + sum_runes (doc_Content <$> docs)) ijs.
Proof.
  revert base parts. induction docs as [|x docs IH]; intros base [|y parts] Hl; try done.
  - simpl. by rewrite app_nil_r, Z.add_0_r.
  - simpl. rewrite IH by (simpl in Hl; lia). rewrite <- app_assoc.
    change (sum_runes (doc_Content x :: (doc_Content <$> docs))) with (RuneCount (doc_Content x) + sum_runes (doc_Content <$> docs)).
    by rewrite Z.add_assoc.
Qed.

Lemma sum_runes_cons t ts : sum_runes (t :: ts) = RuneCount t + sum_runes ts.
Proof. done. Qed.
Lemma elem_of_corpus_sections base docs parts sec : length docs = length parts →
  sec ∈ corpus_sections base docs parts ↔ ∃ (k : nat) doc ijs ij, docs !! k = Some doc ∧ parts !! k = Some ijs ∧ ij ∈ ijs ∧
    sec = DocSec (base + sum_runes (doc_Content <$> take k docs) + Z.of_nat (fst ij))
                 (base + sum_runes (doc_Content <$> take k docs) + Z.of_nat (snd ij)).
Proof.
  revert base parts. induction docs as [|x docs IH]; intros base [|y parts] Hl; try done.
  { simpl. rewrite elem_of_nil. split; [done|]. by intros (k & ? & ? & ? & ? & _). }
  simpl. rewrite elem_of_app, IH by (simpl in Hl; lia). unfold rune_sections. rewrite list_elem_of_fmap. split.
  - intros [(ij & -> & Hij)|(k & doc & ijs & ij & Hk & Hp & Hij & ->)].
    + exists 0%nat, x, y, ij. split_and!; try done. cbn [take fmap list_fmap]. change (sum_runes []) with 0. f_equal; lia.
    + exists (S k), doc, ijs, ij. split_and!; try done. cbn [take]. rewrite ?fmap_cons, ?sum_runes_cons. f_equal; lia.
  - intros ([|k] & doc & ijs & ij & Hk & Hp & Hij & ->); cbn [lookup list_lookup] in *.
    + left. exists ij. simplify_eq. split; [|done]. cbn [take fmap list_fmap]. change (sum_runes []) with 0. f_equal; lia.
    + right. exists k, doc, ijs, ij. split_and!; try done. cbn [take]. rewrite ?fmap_cons, ?sum_runes_cons. f_equal; lia.
Qed.

(** The builder translates the sections of the documents to runes. *)
Lemma builds_sections `{SortAlg} validTemplate Rel b docs parts : builds validTemplate Rel b docs →
  sum_bytes (doc_Content <$> docs) < two32 → sum_bytes (doc_Name <$> docs) < two32 → Forall2 aligned docs parts →
  b_runeDocSections b = corpus_sections 0 docs parts.
Proof.
  intros Hb. revert parts. induction Hb as [r b Hnew|b docs doc b' Hb IH Hadd]; intros parts Hc Hn Hp.
  - inversion Hp; subst. unfold NewIndexBuilder, setRepository in Hnew. simpl in Hnew.
    destruct (Repository_verify _ _); try done. simpl in Hnew. case_match; [done|]. by injection Hnew as <-.
  - apply Forall2_app_inv_l in Hp as (parts' & last & Hp & Hlast & ->). inversion Hlast as [|? ijs ? l [Hsym Hin] Hnil]; subst.
    inversion Hnil; subst. rewrite !fmap_app, sum_bytes_app in Hc, Hn. cbn [fmap list_fmap] in Hc, Hn. rewrite sum_bytes_one in Hc, Hn.
    pose proof (lenZ_nonneg (doc_Content (normalizeDoc doc))). pose proof (lenZ_nonneg (doc_Name (normalizeDoc doc))).
    specialize (IH parts' ltac:(lia) ltac:(lia) Hp).
    pose proof (bo_content _ _ (builds_ok _ _ _ _ Hb ltac:(lia) ltac:(lia))) as Hix.
    destruct (Add_inv _ _ _ _ Hadd) as (content & name & runeSecs & nsecs & sub & mask & lm & code & Ec & _ & _ & _ & _ & ->).
    pose proof (newSearchableString_sections _ _ _ ijs Hix Hc Hin) as Hsec.
    rewrite <- Hsym, Ec in Hsec. simpl in Hsec. injection Hsec as ->.
    rewrite corpus_sections_snoc by (by eapply Forall2_length). cbn [b_runeDocSections].
    by rewrite IH, Z.add_0_l, (ix_runeCount _ _ Hix).
Qed.

(** What a builder knows of its repository: at most 64 branches; the paths of the sub-repositories are numbered. *)
Lemma builds_repo `{SortAlg} validTemplate Rel b docs : builds validTemplate Rel b docs →
  (length (r_Branches (b_repo b)) <= 64)%nat ∧ b_subRepoIndices b = populateSubRepoIndices (b_repo b) None.
Proof.
  induction 1 as [r b Hnew|b docs doc b' Hb IH Hadd].
  - unfold NewIndexBuilder, setRepository in Hnew. simpl in Hnew.
    destruct (Repository_verify _ _); try done. cbn [mbind res_bind] in Hnew.
    destruct (Z.ltb_spec 64 (lenZ (r_Branches (default repository0 r)))); [done|]. injection Hnew as <-. split; [|done].
    unfold lenZ in *. simpl. lia.
  - by destruct (Add_inv _ _ _ _ Hadd) as (content & name & runeSecs & nsecs & sub & mask & lm & code & _ & _ & _ & _ & _ & ->).
Qed.
Lemma subRepo_numbered `{SortAlg} repo path s : let n := lenZ (map_to_list (default ∅ (r_SubRepoMap repo))) in n < two32 →
  default ∅ (populateSubRepoIndices repo None) !! path = Some s → 0 <= s < n.
Proof.
  intros n Hn Hs. cbn [populateSubRepoIndices default] in Hs. apply elem_of_list_to_map_2 in Hs.
  apply elem_of_lookup_imap in Hs as (k & p & [= -> ->] & Hk). apply lookup_lt_Some in Hk. rewrite go_sort_perm, length_fmap in Hk.
  unfold n, lenZ in *. rewrite u32_id by (u32_unfold; lia). lia.
Qed.

Lemma rune_sections_ok base ijs (n : nat) : 0 <= base → StronglySorted (λ a b, (a <= b)%nat) (flat ijs) →
  Forall (λ j, (j <= n)%nat) (flat ijs) →
  sections_ok (rune_sections base ijs) ∧
  Forall (λ sec, base <= Start sec ∧ End sec <= base + Z.of_nat n) (rune_sections base ijs).
Proof.
  intros Hb. unfold sections_ok. induction ijs as [|[i j] ijs IH]; intros Hs Hn; [split_and!; constructor|].
  change (flat ((i, j) :: ijs)) with (i :: j :: flat ijs) in Hs, Hn.
  apply StronglySorted_inv in Hs as [Hs Hi]. apply StronglySorted_inv in Hs as [Hs Hj].
  apply Forall_cons in Hi as [Hij Hi]. apply Forall_cons in Hn as [Hni Hn]. apply Forall_cons in Hn as [Hnj Hn].
  destruct (IH Hs Hn) as ((Hf & Hd) & Hr). change (rune_sections base ((i, j) :: ijs))
    with (DocSec (base + Z.of_nat i) (base + Z.of_nat j) :: rune_sections base ijs).
  split_and!; constructor; simpl; try done; try lia.
  apply Forall_forall. intros sec (ij & -> & Hin)%list_elem_of_fmap. simpl. rewrite Forall_forall in Hj.
  assert (fst ij ∈ flat ijs) as Hx; [|specialize (Hj _ Hx); lia].
  unfold flat. apply list_elem_of_join. exists [fst ij; snd ij]. split; [left|]. apply list_elem_of_fmap. by exists ij.
Qed.

Lemma corpus_sections_ok base docs parts : 0 <= base → Forall2 aligned docs parts →
  sections_ok (corpus_sections base docs parts) ∧ Forall (λ sec, base <= Start sec) (corpus_sections base docs parts).
Proof.
  intros Hb Hp. revert base Hb. induction Hp as [|doc ijs docs parts [_ [Hs Hn]] _ IH]; intros base Hb; [repeat constructor|].
  assert (0 <= RuneCount (doc_Content doc)) as Hr by apply lenZ_nonneg. simpl.
  destruct (IH (base + RuneCount (doc_Content doc)) ltac:(lia)) as [[Hf Hd] Hge].
  destruct (rune_sections_ok base ijs _ Hb Hs Hn) as [[Hf1 Hd1] Hr1]. split; [split|].
  - by apply Forall_app.
  - apply StronglySorted_app_2; [|done..]. intros x1 x2 Hx1 Hx2. rewrite Forall_forall in Hr1, Hge.
    specialize (Hr1 _ Hx1). specialize (Hge _ Hx2). unfold RuneCount, lenZ in *. lia.
  - apply Forall_app. split; (eapply Forall_impl; [eassumption|]; simpl; lia).
Qed.

Lemma take_size_le t (a j : nat) : (a <= length (decode_all t))%nat → (j <= length (decode_all t))%nat →
  total_size (take a (decode_all t)) <= total_size (take j (decode_all t)) ↔ (a <= j)%nat.
Proof.
  assert (∀ a j, (a <= length (decode_all t))%nat → (j <= length (decode_all t))%nat → (a < j)%nat →
    total_size (take a (decode_all t)) < total_size (take j (decode_all t))) as Hlt.
  { intros x y Hx Hy Hxy. replace y with (x + (y - x))%nat by lia. rewrite <- take_take_drop, total_size_app.
    pose proof (decode_sizes t) as Hs. rewrite <- (take_drop x (decode_all t)) in Hs. apply Forall_app in Hs as [_ Hs].
    assert (length (drop x (decode_all t)) = length (decode_all t) - x)%nat as Hl by apply length_drop.
    destruct (drop x (decode_all t)) as [|e l]; [simpl in Hl; lia|]. destruct (y - x)%nat as [|k] eqn:Ek; [lia|].
    cbn [take]. rewrite total_size_cons. apply Forall_cons in Hs as [He Hs].
    pose proof (total_size_nonneg _ (Forall_take _ k _ Hs)). lia. }
  intros Ha Hj. split.
  - intros Hle. destruct (decide (a <= j)%nat) as [|Hn]; [done|]. specialize (Hlt j a Hj Ha ltac:(lia)). lia.
  - intros Hle. destruct (decide (a = j)) as [->|]; [lia|]. specialize (Hlt a j Ha Hj ltac:(lia)). lia.
Qed.

(** ** Candidates are compared exactly *)

Section Shard.
Context `{RegexpEngine} `{UnicodeCase} {F : Type} `{IndexFileOk F}.
Context (d : indexData F) (b : IndexBuilder) (docs : list Document) (Hd : shard_of d b docs).
#[local] Abbreviation text filename doc := (if filename : bool then doc_Name doc else doc_Content doc).
#[local] Abbreviation texts filename := ((λ doc, text filename doc) <$> docs).

(** Names and contents are valid UTF-8, and findOffset can read far enough. *)
Record searchable : Prop := {
  se_valid : ∀ doc, doc ∈ docs → valid_text (doc_Name doc) ∧ valid_text (doc_Content doc);
  se_window : md_PlainASCII (d_metaData d) = true ∨ Forall (λ s, s <= 3) (corpus_sizes (doc_Content <$> docs)) ∧
    ∃ after, contents_region d (mjoin (doc_Content <$> docs)) after ∧ 300 <= lenZ after;
  se_size : ∀ filename, sum_bytes (texts filename) < two32 }.
Context (Hse : searchable).

Lemma doc_data_ok (i : nat) doc filename : docs !! i = Some doc →
  ∃ beyond, doc_data d (Z.of_nat i) filename = Ok (text filename doc, beyond).
Proof.
  intros Hi. unfold doc_data, data. cbn [cp_idx cp__data fresh]. destruct filename.
  - pose proof (so_names _ _ _ Hd i doc Hi) as Hn. unfold fileName in Hn. apply bind_Ok in Hn as (a & -> & Hn).
    apply bind_Ok in Hn as (e & He & Hn). cbn [mbind res_bind].
    pose proof (lookup_lt_Some _ _ _ Hi). pose proof (so_count _ _ _ Hd). unfold lenZ in *.
    rewrite He. cbn [mbind res_bind]. rewrite Hn. by eexists.
  - pose proof (so_contents _ _ _ Hd i doc Hi) as Hc. pose proof Hc as Hr. unfold readContents in Hr.
    apply bind_Ok in Hr as (sec & -> & _). cbn [mbind res_bind]. rewrite Hc. cbn [caught mbind res_bind]. by eexists.
Qed.

Lemma text_valid (i : nat) doc filename : docs !! i = Some doc → valid_text (text filename doc).
Proof. intros Hi%list_elem_of_lookup_2. destruct (se_valid Hse doc Hi). by destruct filename. Qed.

Lemma doc_offset_ok (i : nat) doc filename (r : nat) : docs !! i = Some doc → sum_bytes (texts filename) < two32 →
  (r < length (decode_all (text filename doc)))%nat →
  doc_offset d (Z.of_nat i) filename (Z.of_nat r) = Ok (total_size (take r (decode_all (text filename doc)))).
Proof.
  intros Hi Hs Hr. unfold doc_offset. destruct (se_window Hse) as [Hpl|(H3 & after & Hreg & Ha)].
  - destruct (findOffset_at d b docs filename [] (fresh (Z.of_nat i)) i doc r) as (p & ->); try done; [|by intros; left].
    apply Forall_forall. intros t (x & -> & Hx)%list_elem_of_fmap. destruct (se_valid Hse x Hx) as [[_ ?] [_ ?]]. by destruct filename.
  - destruct (findOffset_at d b docs filename after (fresh (Z.of_nat i)) i doc r) as (p & ->); try done; [|by intros; right].
    apply Forall_forall. intros t (x & -> & Hx)%list_elem_of_fmap. destruct (se_valid Hse x Hx) as [[_ ?] [_ ?]]. by destruct filename.
Qed.

(** The range of runes of a document. *)
Lemma doc_range (i : nat) doc filename : docs !! i = Some doc →
  doc_end (end_runes 0 (texts filename)) (Z.of_nat i) - doc_start (end_runes 0 (texts filename)) (Z.of_nat i)
  = RuneCount (text filename doc).
Proof.
  intros Hi. assert (texts filename !! i = Some (text filename doc)) as Ht by (by rewrite list_lookup_fmap, Hi).
  unfold doc_end, doc_start. rewrite Nat2Z.id, (end_runes_lookup 0 _ _ _ Ht). cbn [default].
  rewrite (take_S_r _ _ _ Ht), sum_runes_app, sum_runes_one.
  destruct (Z.ltb_spec 0 (Z.of_nat i)).
  - destruct (lookup_lt_is_Some_2 (texts filename) (i - 1)) as [t' Ht']; [apply lookup_lt_Some in Ht; lia|].
    replace (Z.to_nat (Z.of_nat i - 1)) with (i - 1)%nat by lia. rewrite (end_runes_lookup 0 _ _ _ Ht'). simpl.
    replace (S (i - 1)) with i by lia. lia.
  - assert (i = 0%nat) as -> by lia. unfold sum_runes. simpl. lia.
Qed.

(** What is asked of a pattern. It fits into 32 bits and is valid UTF-8. Lower-casing and folding (package unicode) agree
    on its runes and those of the texts. The comparison of a case-sensitive pattern with more bytes than runes needs as many bytes
    behind the text. A pattern of one or two runes is matched as package regexp should match it. *)
Record substring_ok (s : Substring) : Prop := {
  sb_fits : pattern_fits docs (Pattern s);
  sb_valid : valid_text (Pattern s);
  sb_case : CaseSensitive s = false → ∀ r, r ∈ runes (Pattern s) → valid_rune (ToLower r) ∧
    ∀ doc c, doc ∈ docs → c ∈ runes (searched s doc) → ToLower r = ToLower c → ∃ k : nat, c = Nat.iter k SimpleFold r;
  sb_reach : CaseSensitive s = true → lenZ (Pattern s) = RuneCount (Pattern s) ∨
    ∀ i c beyond, 0 <= i < lenZ docs → doc_data d i (FileName s) = Ok (c, beyond) → lenZ (Pattern s) <= lenZ beyond;
  sb_short : RuneCount (Pattern s) < ngramSize →
    ∃ re, Compile (caseFlag (CaseSensitive s) ++ QuoteMeta (Pattern s)) = Some re ∧
      ∀ doc, doc ∈ docs → FindAllIndex re (searched s doc) ≠ [] ↔ occurs (CaseSensitive s) (Pattern s) (searched s doc) = true }.

(** A candidate that lies in the name or the contents of the document. *)
Definition lies_in (doc : Document) (m : candidateMatch) : Prop :=
  0 <= cm_byteOffset m ∧ 0 <= cm_byteMatchSz m ∧ cm_end m <= lenZ (text (cm_fileName m) doc).

Lemma fits_two32 s filename : pattern_fits docs (Pattern s) → sum_bytes (texts filename) + lenZ (Pattern s) < two32.
Proof. intros Hf. specialize (Hf filename). simpl in *. u32_unfold. lia. Qed.
Lemma text_le (i : nat) doc filename : docs !! i = Some doc → lenZ (text filename doc) <= sum_bytes (texts filename).
Proof.
  intros Hi. assert (texts filename !! i = Some (text filename doc)) as Ht by (by rewrite list_lookup_fmap, Hi).
  rewrite <- (take_drop i (texts filename)), (drop_S _ _ _ Ht), sum_bytes_app.
  pose proof (sum_bytes_nonneg (take i (texts filename))). pose proof (sum_bytes_nonneg (drop (S i) (texts filename))).
  unfold sum_bytes in *. simpl in *. lia.
Qed.

Lemma slice_Ok (t : bytes) x y : 0 <= x <= y → y <= lenZ t → slice t x y = Ok (take (Z.to_nat (y - x)) (drop (Z.to_nat x) t)).
Proof. intros. unfold slice. by rewrite decide_True by lia. Qed.

(** matchContent at the start of rune [j]. *)
Lemma matchContent_exact s (i : nat) doc m (j : nat) beyond : docs !! i = Some doc → substring_ok s →
  cm_caseSensitive m = CaseSensitive s → cm_fileName m = FileName s → cm_substrBytes m = Pattern s →
  cm_substrLowered m = toLower (Pattern s) → cm_byteOffset m = total_size (take j (decode_all (searched s doc))) →
  Z.of_nat j + RuneCount (Pattern s) <= RuneCount (searched s doc) →
  doc_data d (Z.of_nat i) (FileName s) = Ok (searched s doc, beyond) →
  ∃ m', matchContent m (searched s doc) beyond = Ok (found_at (CaseSensitive s) (Pattern s) (searched s doc) j, m') ∧
    (found_at (CaseSensitive s) (Pattern s) (searched s doc) j = true → lies_in doc m').
Proof.
  intros Hi Hs E1 E2 E3 E4 E5 Hj Hdata. pose proof (text_valid i doc (FileName s) Hi) as Hv. fold (searched s doc) in Hv.
  pose proof (fits_two32 s (FileName s) (sb_fits _ Hs)) as Hfit. pose proof (text_le i doc (FileName s) Hi) as Hle.
  fold (searched s doc) in Hle. pose proof (lenZ_nonneg (Pattern s)) as Hnn.
  destruct (drop_runes (searched s doc) j Hv) as [Hu Hru]. pose proof (total_size_take j (searched s doc)) as Hoff.
  rewrite <- E5 in Hoff, Hu, Hru. set (off := cm_byteOffset m) in *. set (u := drop (Z.to_nat off) (searched s doc)) in *.
  assert (RuneCount (Pattern s) <= RuneCount u) as Hcount.
  { rewrite <- (lenZ_runes u), Hru, lenZ_drop, lenZ_runes. lia. }
  assert (lenZ u = lenZ (searched s doc) - off) as Hlu by (unfold u; rewrite lenZ_drop; lia).
  unfold matchContent. rewrite E1, E3, E4. fold off. unfold found_at. rewrite <- Hru. destruct (CaseSensitive s) eqn:Ecs.
  - rewrite (u32_id (lenZ (Pattern s))), (u32_id (off + _)) by (u32_unfold; lia).
    assert (lenZ (Pattern s) <= lenZ u + lenZ beyond) as Hreach.
    { pose proof (decode_count_le u) as Hdu. fold (RuneCount u) in Hdu. pose proof (lenZ_nonneg beyond).
      destruct (sb_reach _ Hs Ecs) as [?|Hb]; [lia|]. pose proof (lookup_lt_Some _ _ _ Hi).
      specialize (Hb (Z.of_nat i) _ _ ltac:(unfold lenZ; lia) Hdata). pose proof (lenZ_nonneg u). lia. }
    rewrite slice_Ok by (rewrite ?lenZ_app; lia). cbn [mbind res_bind]. eexists.
    replace (off + lenZ (Pattern s) - off) with (lenZ (Pattern s)) by lia.
    rewrite drop_app_le by (unfold lenZ in *; lia). fold u.
    replace (Z.to_nat (lenZ (Pattern s))) with (length (Pattern s)) by (unfold lenZ; lia).
    pose proof (bytes_prefix (Pattern s) u beyond (sb_valid _ Hs) Hu Hcount) as Hbp.
    assert (prefixb (same_rune true) (runes (Pattern s)) (runes u) = true ↔ ∃ rest, runes u = runes (Pattern s) ++ rest) as Hp.
    { rewrite prefixb_Forall2. split.
      - intros (w & rest & E & Hw). exists rest. rewrite E. f_equal. clear -Hw. induction Hw as [|? ? ? ? Hx]; [done|]. apply Z.eqb_eq in Hx. by f_equal.
      - intros [rest E]. exists (runes (Pattern s)), rest. split; [done|]. clear. induction (runes (Pattern s)); constructor; [apply Z.eqb_refl|done]. }
    split.
    + do 2 f_equal. destruct (prefixb _ _ _).
      * apply bool_decide_true. symmetry. by apply Hbp, Hp.
      * apply bool_decide_false. intros E. symmetry in E. by apply Hbp, Hp in E.
    + intros (rest & Hr)%Hp. assert (lenZ (Pattern s) <= lenZ u).
      { rewrite <- (encode_runes u Hu), Hr. unfold encode_all. rewrite fmap_app, join_app, lenZ_app.
        change (mjoin (EncodeRune <$> runes (Pattern s))) with (encode_all (runes (Pattern s))).
        rewrite (encode_runes _ (sb_valid _ Hs)). pose proof (lenZ_nonneg (mjoin (EncodeRune <$> rest))). lia. }
      unfold lies_in, cm_end. cbn [set_byteMatchSz cm_byteOffset cm_byteMatchSz cm_fileName]. fold off. rewrite E2. fold (searched s doc). lia.
  - rewrite slice_from_Ok by lia. cbn [mbind res_bind]. fold u.
    destruct (fold_prefix (Pattern s) u) as (sz & -> & Hsz).
    { apply Forall_forall. intros r Hr. by apply (sb_case _ Hs Ecs). }
    eexists. split; [done|]. intros Hok. specialize (Hsz Hok). unfold lies_in, cm_end.
    cbn [set_byteMatchSz cm_byteOffset cm_byteMatchSz cm_fileName]. fold off. rewrite E2, u32_id by (u32_unfold; lia). fold (searched s doc). lia.
Qed.

Lemma candidate_exact s (i : nat) doc m : docs !! i = Some doc → substring_ok s → candidate_of d s (Z.of_nat i) m →
  1 <= RuneCount (Pattern s) →
  ∃ m', candidate_sem d (Z.of_nat i) m
    = Ok (found_at (CaseSensitive s) (Pattern s) (searched s doc) (Z.to_nat (cm_runeOffset m)), m') ∧
    (found_at (CaseSensitive s) (Pattern s) (searched s doc) (Z.to_nat (cm_runeOffset m)) = true → lies_in doc m').
Proof.
  intros Hi Hs (E1 & E2 & E3 & E4 & E5 & _ & Hr & Hend) Hpos1. pose proof (doc_range i doc (FileName s) Hi) as Hrange.
  assert ((if FileName s then d_fileNameEndRunes d else d_fileEndRunes d) = end_runes 0 (texts (FileName s))) as Hends
    by (destruct (FileName s); apply Hd).
  cbv zeta in Hend. rewrite Hends in Hend.
  fold (searched s doc) in Hrange. destruct (doc_data_ok i doc (FileName s) Hi) as (beyond & Hdata). fold (searched s doc) in Hdata.
  pose proof (fits_two32 s (FileName s) (sb_fits _ Hs)) as Hfit. pose proof (lenZ_nonneg (Pattern s)).
  set (j := Z.to_nat (cm_runeOffset m)). assert (Z.of_nat j = cm_runeOffset m) as Hj by lia.
  assert (Z.of_nat j + RuneCount (Pattern s) <= RuneCount (searched s doc)) as Hfits by (cbv zeta in Hend; lia).
  unfold candidate_sem. rewrite E5, Z.eqb_refl. cbn [andb].
  destruct (Z.ltb_spec 0 (cm_runeOffset m)) as [Hpos|Hzero].
  - rewrite E2, <- Hj, (doc_offset_ok i doc) by (done || lia || (fold (searched s doc); unfold RuneCount, lenZ in *; lia)).
    fold (searched s doc). cbn [mbind res_bind set_byteOffset cm_fileName]. rewrite E2, Hdata. cbn [mbind res_bind].
    by apply (matchContent_exact s i doc).
  - cbn [mbind res_bind]. rewrite E2, Hdata. cbn [mbind res_bind]. apply (matchContent_exact s i doc); try done.
    assert (j = 0%nat) as -> by lia. by rewrite E5.
Qed.

Lemma prune_exact s (i : nat) doc ms : docs !! i = Some doc → substring_ok s → 1 <= RuneCount (Pattern s) →
  Forall (candidate_of d s (Z.of_nat i)) ms →
  ∃ pruned, prune_sem d (Z.of_nat i) ms = Ok pruned ∧ Forall (lies_in doc) pruned ∧
    (pruned ≠ [] ↔ ∃ m, m ∈ ms ∧ found_at (CaseSensitive s) (Pattern s) (searched s doc) (Z.to_nat (cm_runeOffset m)) = true).
Proof.
  intros Hi Hs Hpos1. induction 1 as [|m ms Hm _ (pruned & E & Hin & Hiff)].
  { exists []. split; [done|]. split; [constructor|]. split; [done|]. by intros (m & ?%elem_of_nil & _). }
  destruct (candidate_exact s i doc m Hi Hs Hm Hpos1) as (m' & Em & Hlies). cbn [prune_sem]. rewrite Em. cbn [mbind res_bind].
  rewrite E. cbn [mbind res_bind]. eexists. split; [done|]. destruct (found_at _ _ _ (Z.to_nat (cm_runeOffset m))) eqn:Ef.
  - split; [constructor; [by apply Hlies|done]|]. split; [intros _|done]. exists m. split; [left|done].
  - split; [done|]. rewrite Hiff. split.
    + intros (x & Hx & ?). exists x. split; [by right|done].
    + intros (x & [->|Hx]%elem_of_cons & Hf); [congruence|by exists x].
Qed.

(** ** Meaning of the nodes *)

Lemma found_match s (i : nat) doc j : docs !! i = Some doc → substring_ok s →
  found_at (CaseSensitive s) (Pattern s) (searched s doc) j = true →
  match_at (CaseSensitive s) (runes (Pattern s)) (runes (searched s doc)) j.
Proof.
  intros Hi Hs (w & rest & E & Hw)%prefixb_Forall2 k r Hk. destruct (Forall2_lookup_l _ _ _ _ _ Hw Hk) as (c & Hc & Hsame).
  assert (runes (searched s doc) !! (j + k)%nat = Some c) as Hl.
  { rewrite <- lookup_drop, E. by apply lookup_app_l_Some. }
  exists c. split; [done|]. unfold folds, same_rune in *. destruct (CaseSensitive s) eqn:Ecs.
  - symmetry. by apply Z.eqb_eq.
  - apply Z.eqb_eq in Hsame. destruct (sb_case _ Hs Ecs r) as [_ Hfold]; [by eapply list_elem_of_lookup_2|].
    apply (Hfold doc); [by eapply list_elem_of_lookup_2..|done].
Qed.

(** The index gives every occurrence of a pattern of at least three runes. *)
Lemma candidates_complete s r cands (Inv : Z → ngramIterationResults → Prop) (i : nat) doc j :
  docs !! i = Some doc → substring_ok s → ngramSize <= RuneCount (Pattern s) → iterateNgrams d s = Ok r →
  stream (lenZ docs) cands Inv → Inv (-1) r → found_at (CaseSensitive s) (Pattern s) (searched s doc) j = true →
  ∃ m, m ∈ cands (Z.of_nat i) ∧ cm_runeOffset m = Z.of_nat j.
Proof.
  intros Hi Hs Hlen Hr Hst Hinv Hj. pose proof (fits_two32 s (FileName s) (sb_fits _ Hs)) as Hfit. pose proof (lenZ_nonneg (Pattern s)).
  destruct (search_complete d (FileName s) (texts (FileName s)) (shard_index_of d b docs (FileName s) Hd ltac:(lia)) s)
    as (r' & Er' & Hall); try done; [apply (sb_valid _ Hs)|by apply long_pattern|apply (sb_fits _ Hs)|].
  rewrite Hr in Er'. injection Er' as <-. pose proof (lookup_lt_Some _ _ _ Hi).
  assert (texts (FileName s) !! i = Some (searched s doc)) as Ht by (by rewrite list_lookup_fmap, Hi).
  destruct (Hall i _ j Ht (found_match s i doc j Hi Hs Hj)) as (r1 & cs & r2 & P1 & P2 & m & Hm & _ & Hoff).
  destruct (st_prepare _ _ _ Hst _ _ (Z.of_nat i) Hinv) as (i1 & i2 & Q1 & Q2 & _); [unfold lenZ; lia|].
  rewrite P1 in Q1. injection Q1 as <-. rewrite P2 in Q2. injection Q2 as <- _. by exists m.
Qed.

Lemma substring_meaning s r k (i : nat) doc : docs !! i = Some doc → substring_ok s → ngramSize <= RuneCount (Pattern s) →
  iterateNgrams d s = Ok r →
  sem d (substrMatchTree k (inl r) s (CaseSensitive s) (FileName s) [] false) (Z.of_nat i)
  = Ok (occurs (CaseSensitive s) (Pattern s) (searched s doc)).
Proof.
  intros Hi Hs Hlen Hr. pose proof (lookup_lt_Some _ _ _ Hi) as Hlt.
  destruct (substring_stream d b docs Hd s r (long_pattern _ Hlen) (sb_fits _ Hs) Hr) as (cands & Inv & Hst & Hinv & Hsh).
  destruct (Hsh (Z.of_nat i)) as [_ Hcand].
  destruct (prune_exact s i doc _ Hi Hs ltac:(unfold ngramSize in Hlen; lia) Hcand) as (pruned & Ep & _ & Hiff).
  rewrite (sem_substr d (lenZ docs) (-1) _ _ _ _ _ _ _ _ _ _ (stream_inl _ _ _ Hst)) by first [done|unfold lenZ; lia].
  rewrite Ep. cbn [mbind res_bind]. f_equal. apply eq_true_iff_eq. rewrite bool_decide_eq_true, Hiff, occurs_found. split.
  - intros (m & _ & Hf). by eexists.
  - intros [j Hj]. destruct (candidates_complete s r cands Inv i doc j Hi Hs Hlen Hr Hst Hinv Hj) as (m & Hm & Hoff).
    exists m. split; [done|]. by rewrite Hoff, Nat2Z.id.
Qed.

Lemma newSubstring_meaning s k : substring_ok s →
  ∃ t, newSubstringMatchTree d s k = Ok (t, S k) ∧
    ∀ (i : nat) doc, docs !! i = Some doc → sem d t (Z.of_nat i) = Ok (occurs (CaseSensitive s) (Pattern s) (searched s doc)).
Proof.
  intros Hs. unfold newSubstringMatchTree. destruct (Z.ltb_spec (RuneCount (Pattern s)) ngramSize) as [Hlt|Hge].
  - destruct (sb_short _ Hs Hlt) as (re & Hre & Hfind). unfold MustCompile. rewrite Hre. cbn [mbind res_bind].
    eexists. split; [done|]. intros i doc Hi. unfold sem. cbn [mt_prepare mbind res_bind denote].
    destruct (doc_data_ok i doc (FileName s) Hi) as (beyond & ->). fold (searched s doc). cbn [mbind res_bind]. f_equal.
    apply eq_true_iff_eq. rewrite bool_decide_eq_true. apply Hfind. by eapply list_elem_of_lookup_2.
  - pose proof (fits_two32 s (FileName s) (sb_fits _ Hs)) as Hfit. pose proof (lenZ_nonneg (Pattern s)).
    destruct (iterateNgrams_ok d (FileName s) _ (shard_index_of d b docs (FileName s) Hd ltac:(lia)) s eq_refl
      (long_pattern _ Hge) (sb_fits _ Hs _)) as (r & Hr & _).
    rewrite Hr. cbn [mbind res_bind]. eexists. split; [done|]. intros i doc Hi.
    by apply substring_meaning.
Qed.

(** *** Symbols *)

Context (parts : list (list (nat * nat))) (Hparts : Forall2 aligned docs parts).
Context (Hsecs : d_runeDocSections d = corpus_sections 0 docs parts).

(** The [n] runes from [j] on lie in a symbol. *)
Definition in_symbol (doc : Document) (j n : nat) : bool :=
  let off k := total_size (take k (decode_all (doc_Content doc))) in
  existsb (λ sec, (Start sec <=? off j) && (off (j + n)%nat <=? End sec)) (doc_Symbols doc).
Definition symbol_found (s : Substring) (doc : Document) : bool :=
  existsb (λ j, found_at (CaseSensitive s) (Pattern s) (doc_Content doc) j && in_symbol doc j (length (runes (Pattern s))))
    (seq 0 (length (runes (doc_Content doc)))).

Lemma doc_start_sum (i : nat) : (i <= length docs)%nat →
  doc_start (d_fileEndRunes d) (Z.of_nat i) = sum_runes (doc_Content <$> take i docs).
Proof.
  intros Hi. rewrite (so_endRunes _ _ _ Hd). unfold doc_start. destruct (Z.ltb_spec 0 (Z.of_nat i)).
  - replace (Z.to_nat (Z.of_nat i - 1)) with (i - 1)%nat by lia.
    destruct (lookup_lt_is_Some_2 docs (i - 1)) as [doc Hdoc]; [lia|].
    rewrite (end_runes_lookup 0 _ _ (doc_Content doc)) by (by rewrite list_lookup_fmap, Hdoc). simpl.
    replace (S (i - 1)) with i by lia. by rewrite fmap_take.
  - by assert (i = 0%nat) as -> by lia.
Qed.
Lemma sum_runes_mono (i k : nat) : (i <= k)%nat →
  sum_runes (doc_Content <$> take i docs) <= sum_runes (doc_Content <$> take k docs).
Proof.
  intros Hik. replace k with (i + (k - i))%nat by lia. rewrite <- take_take_drop, fmap_app, sum_runes_app.
  pose proof (sum_runes_nonneg (doc_Content <$> take (k - i) (drop i docs))). lia.
Qed.
Lemma sum_runes_next (i : nat) doc : docs !! i = Some doc →
  sum_runes (doc_Content <$> take (S i) docs) = sum_runes (doc_Content <$> take i docs) + RuneCount (doc_Content doc).
Proof. intros Hi. rewrite (take_S_r _ _ _ Hi), fmap_app, sum_runes_app. f_equal. apply sum_runes_one. Qed.

Lemma flat_elem ij ijs : ij ∈ ijs → fst ij ∈ flat ijs ∧ snd ij ∈ flat ijs.
Proof.
  intros Hij. unfold flat. split; apply list_elem_of_join; exists [fst ij; snd ij];
    (split; [set_solver|]; apply list_elem_of_fmap; by exists ij).
Qed.

(** Sections of other documents do not matter. *)
Lemma inside_symbol (i : nat) doc (j n : nat) : docs !! i = Some doc → (1 <= n)%nat → Z.of_nat (j + n) <= RuneCount (doc_Content doc) →
  let start := doc_start (d_fileEndRunes d) (Z.of_nat i) in
  Exists (MatchIter.inside (Z.of_nat n) (start + Z.of_nat j)) (filter (λ sec, start <= Start sec) (d_runeDocSections d))
  ↔ in_symbol doc j n = true.
Proof.
  intros Hi Hn Hj. cbv zeta. pose proof (lookup_lt_Some _ _ _ Hi). rewrite doc_start_sum by lia.
  pose proof (Forall2_length _ _ _ Hparts) as Hlen. destruct (Forall2_lookup_l _ _ _ _ _ Hparts Hi) as (ijs & Hijs & Hsym & Hin & Hle).
  set (start := sum_runes (doc_Content <$> take i docs)). pose proof (sum_runes_next i doc Hi) as Hnext. fold start in Hnext.
  assert (∀ k, k ∈ flat ijs → (k <= length (decode_all (doc_Content doc)))%nat) as Hb by (by apply Forall_forall).
  assert (∀ ij, ij ∈ ijs → (Z.of_nat (fst ij) <= Z.of_nat j ∧ Z.of_nat (j + n) <= Z.of_nat (snd ij) ↔
    total_size (take (fst ij) (decode_all (doc_Content doc))) <= total_size (take j (decode_all (doc_Content doc))) ∧
    total_size (take (j + n) (decode_all (doc_Content doc))) <= total_size (take (snd ij) (decode_all (doc_Content doc))))) as Hpos.
  { intros ij [Hx1 Hx2]%flat_elem. apply Hb in Hx1, Hx2. unfold RuneCount, lenZ in Hj. rewrite !take_size_le by lia. lia. }
  unfold in_symbol. rewrite existsb_elem, Hsym, Exists_exists. split.
  - intros (sec & [Hst Hsec]%list_elem_of_filter & Hi1 & Hi2). rewrite Hsecs in Hsec.
    apply elem_of_corpus_sections in Hsec as (k & dk & ijk & ij & Hk & Hpk & Hij & ->); [|done]. rewrite Z.add_0_l in *. cbn [Start End] in *.
    destruct (Forall2_lookup_lr _ _ _ _ _ _ Hparts Hk Hpk) as (_ & _ & Hlek). rewrite Forall_forall in Hlek.
    pose proof (flat_elem _ _ Hij) as [Hf1%Hlek Hf2%Hlek]. pose proof (sum_runes_next k dk Hk) as Hnk. unfold RuneCount, lenZ in Hnk.
    destruct (lt_eq_lt_dec k i) as [[Hki| ->]|Hki].
    + pose proof (sum_runes_mono (S k) i ltac:(lia)) as Hm. fold start in Hm. lia.
    + simplify_eq. eexists. split; [by apply list_elem_of_fmap; exists ij|]. fold start in Hi1, Hi2. cbn [Start End].
      rewrite andb_true_iff, !Z.leb_le. apply Hpos; [done|]. lia.
    + pose proof (sum_runes_mono (S i) k ltac:(lia)). lia.
  - intros (sec & (ij & -> & Hij)%list_elem_of_fmap & Hok). cbn [Start End] in Hok. rewrite andb_true_iff, !Z.leb_le in Hok.
    apply Hpos in Hok; [|done]. exists (DocSec (start + Z.of_nat (fst ij)) (start + Z.of_nat (snd ij))). split.
    + apply list_elem_of_filter. split; [simpl; lia|]. rewrite Hsecs. apply elem_of_corpus_sections; [done|]. by exists i, doc, ijs, ij.
    + split; simpl; lia.
Qed.

Lemma sections_sorted : sections_ok (d_runeDocSections d).
Proof. rewrite Hsecs. by apply corpus_sections_ok. Qed.

Lemma symbol_meaning reString sub s k : substring_ok s → FileName s = false → ngramSize <= RuneCount (Pattern s) →
  ∃ t, newLeaf d reString sub (QSymbol s) k = Ok (t, S k) ∧
    ∀ (i : nat) doc, docs !! i = Some doc → sem d t (Z.of_nat i) = Ok (symbol_found s doc).
Proof.
  intros Hs Efn Hlen. pose proof (fits_two32 s (FileName s) (sb_fits _ Hs)) as Hfit. pose proof (lenZ_nonneg (Pattern s)).
  destruct (iterateNgrams_ok d (FileName s) _ (shard_index_of d b docs (FileName s) Hd ltac:(lia)) s eq_refl
    (long_pattern _ Hlen) (sb_fits _ Hs _)) as (r & Hr & _).
  cbn [newLeaf]. unfold newSubstringMatchTree. destruct (Z.ltb_spec (RuneCount (Pattern s)) ngramSize); [lia|].
  rewrite Hr. cbn [mbind res_bind]. eexists. split; [done|]. intros i doc Hi. pose proof (lookup_lt_Some _ _ _ Hi).
  destruct (symbol_stream d b docs Hd sections_sorted s r Efn (sb_fits _ Hs) Hlen Hr) as (cands & Inv & Hst & Hinv & Hsh & Inv' & Hst' & Hinv').
  destruct (Hsh (Z.of_nat i)) as [_ Hcand]. set (size := RuneCount (Pattern s)) in *. unfold ngramSize in Hlen.
  assert (Z.of_nat (length (runes (Pattern s))) = size) as Hsize by apply lenZ_runes.
  assert (searched s doc = doc_Content doc) as Hsd by (unfold searched; by rewrite Efn).
  destruct (prune_exact s i doc (in_sections (d_fileEndRunes d) size (d_runeDocSections d) cands (Z.of_nat i)) Hi Hs ltac:(lia))
    as (pruned & Ep & _ & Hiff).
  { apply Forall_forall. intros m [_ Hm]%list_elem_of_filter. by eapply Forall_forall in Hcand. }
  rewrite (sem_substr d (lenZ docs) (-1) _ _ _ _ _ _ _ _ _ _ (stream_inr _ _ _ Hst')) by first [done|unfold lenZ; lia].
  rewrite Ep. cbn [mbind res_bind]. f_equal. apply eq_true_iff_eq. rewrite bool_decide_eq_true, Hiff. unfold symbol_found.
  rewrite existsb_elem, <- Hsd.
  assert (∀ j : nat, found_at (CaseSensitive s) (Pattern s) (searched s doc) j = true →
    (Exists (MatchIter.inside size (doc_start (d_fileEndRunes d) (Z.of_nat i) + Z.of_nat j))
       (filter (λ sec, doc_start (d_fileEndRunes d) (Z.of_nat i) <= Start sec) (d_runeDocSections d))
     ↔ in_symbol doc j (length (runes (Pattern s))) = true) ∧ (j < length (runes (searched s doc)))%nat) as Hsec.
  { intros j Hj. assert (Z.of_nat j + size <= RuneCount (searched s doc)) as Hfits.
    { eapply found_fits; [exact Hj|]. intros E. rewrite E in Hsize. simpl in Hsize. lia. }
    split; [|rewrite <- lenZ_runes in Hfits; unfold lenZ in Hfits; lia].
    rewrite <- (inside_symbol i doc j _ Hi) by (rewrite <- ?Hsd; lia). by rewrite Hsize. }
  split.
  - intros (m & [Hin Hm]%list_elem_of_filter & Hf). exists (Z.to_nat (cm_runeOffset m)).
    rewrite Forall_forall in Hcand. destruct (Hcand m Hm) as (_ & _ & _ & _ & _ & _ & Hoff & _).
    destruct (Hsec _ Hf) as [Hsec1 Hlt]. rewrite Z2Nat.id in Hsec1 by done. split; [apply elem_of_seq; lia|].
    rewrite Hf. by apply Hsec1.
  - intros (j & _ & [Hj Hsym]%andb_true_iff). destruct (Hsec j Hj) as [Hsec1 _].
    destruct (candidates_complete s r cands Inv i doc j Hi Hs Hlen Hr Hst Hinv Hj) as (m & Hm & Hoff).
    exists m. split; [|by rewrite Hoff, Nat2Z.id]. apply list_elem_of_filter. split; [|done]. rewrite Hoff. by apply Hsec1.
Qed.

(** *** Branches *)

Lemma land_nonzero x y : 0 <= x → 0 <= y → Z.land x y ≠ 0 ↔ ∃ t, 0 <= t ∧ Z.testbit x t = true ∧ Z.testbit y t = true.
Proof.
  intros Hx Hy. split.
  - intros Hne. assert (0 <= Z.land x y) as Hnn by (apply Z.land_nonneg; lia). exists (Z.log2 (Z.land x y)).
    split; [apply Z.log2_nonneg|]. rewrite <- andb_true_iff, <- Z.land_spec. apply Z.bit_log2. lia.
  - intros (t & _ & Hb) E. rewrite <- andb_true_iff, <- Z.land_spec, E, Z.bits_0 in Hb. done.
Qed.
Lemma bit_mask (k : nat) : (k < 64)%nat → u64 (Z.shiftl 1 (Z.of_nat k)) = 2 ^ Z.of_nat k.
Proof.
  intros Hk. rewrite Z.shiftl_1_l. apply Z.mod_small. split; [apply Z.pow_nonneg; lia|]. unfold two64.
  change 18446744073709551616 with (2 ^ 64). apply Z.pow_lt_mono_r; lia.
Qed.
(** [name] is the name of branch [k]. *)
Definition branch_at (branches : list RepositoryBranch) (name : bytes) (k : nat) : Prop :=
  ∃ br, branches !! k = Some br ∧ br_Name br = name.

Lemma branchMask_bits branches name : ∀ i, (i + length branches <= 64)%nat → NoDup (br_Name <$> branches) →
  0 <= branchMask_loop (Z.of_nat i) branches name ∧
  ∀ t, 0 <= t → Z.testbit (branchMask_loop (Z.of_nat i) branches name) t = true ↔
    ∃ k, branch_at branches name k ∧ t = Z.of_nat (i + k).
Proof.
  induction branches as [|br branches IH]; intros i Hi Hnd; cbn [branchMask_loop].
  { split; [done|]. intros t _. rewrite Z.bits_0. split; [done|]. by intros (k & (? & ? & _) & _). }
  simpl in Hi. rewrite fmap_cons in Hnd. apply NoDup_cons in Hnd as [Hnin Hnd]. case_decide as E.
  - rewrite bit_mask by lia. split; [apply Z.pow_nonneg; lia|]. intros t Ht. rewrite Z.pow2_bits_eqb, Z.eqb_eq by lia. split.
    + intros <-. exists 0%nat. split; [by exists br|lia].
    + intros ([|k] & (br' & Hk & E') & ->); [lia|]. destruct Hnin. rewrite E, <- E'. apply list_elem_of_fmap.
      exists br'. split; [done|]. by eapply list_elem_of_lookup_2.
  - replace (Z.of_nat i + 1) with (Z.of_nat (S i)) by lia. destruct (IH (S i) ltac:(lia) Hnd) as [Hnn Hbits]. split; [done|].
    intros t Ht. rewrite Hbits by done. split.
    + intros (k & Hk & ->). exists (S k). split; [done|lia].
    + intros ([|k] & Hk & ->); [destruct Hk as (? & [= <-] & ?); done|]. exists k. split; [done|lia].
Qed.

Lemma branchMasks_bits b0 brs : (length (r_Branches (b_repo b0)) <= 64)%nat → NoDup (br_Name <$> r_Branches (b_repo b0)) →
  ∀ mask m, 0 <= mask → branchMasks b0 brs mask = Ok m → 0 <= m ∧
    (∀ br, br ∈ brs → ∃ k, branch_at (r_Branches (b_repo b0)) br k) ∧
    ∀ t, 0 <= t → Z.testbit m t = true ↔ Z.testbit mask t = true ∨ ∃ br k, br ∈ brs ∧ branch_at (r_Branches (b_repo b0)) br k ∧ t = Z.of_nat k.
Proof.
  intros Hlen Hnd. induction brs as [|br brs IH]; intros mask m Hmask E; cbn [branchMasks] in E.
  { injection E as <-. split_and!; [done|by intros ? ?%elem_of_nil|]. intros t _. split; [by left|].
    intros [?|(? & ? & ?%elem_of_nil & _)]; done. }
  unfold branchMask in E. destruct (branchMask_bits (r_Branches (b_repo b0)) br 0 ltac:(lia) Hnd) as [Hnn Hbits].
  change (Z.of_nat 0) with 0 in *. set (bm := branchMask_loop 0 (r_Branches (b_repo b0)) br) in *.
  destruct (Z.eqb_spec bm 0) as [|Hne]; [done|].
  destruct (IH (Z.lor mask bm) m) as (Hm & Hall & Hspec); [apply Z.lor_nonneg; lia|done|]. split; [done|]. split.
  - intros x [->|Hx]%elem_of_cons; [|by apply Hall].
    assert (Z.testbit bm (Z.log2 bm) = true) as Hb by (apply Z.bit_log2; lia).
    apply Hbits in Hb as (k & Hk & _); [by exists k|apply Z.log2_nonneg].
  - intros t Ht. rewrite Hspec, Z.lor_spec, orb_true_iff, Hbits by done. split.
    + intros [[?|(k & Hk & ->)]|(x & k & Hx & Hk & ->)]; [by left|right; exists br, k; set_solver|right; exists x, k; set_solver].
    + intros [?|(x & k & [->|Hx]%elem_of_cons & Hk & ->)]; [by left; left|left; right; by exists k|right; by exists x, k].
Qed.

Context (Hnames : NoDup (br_Name <$> r_Branches (b_repo b))) (Hfew : (length (r_Branches (b_repo b)) <= 64)%nat).
#[local] Abbreviation branches := (r_Branches (b_repo b)).

Lemma branchIDs_lookup name m :
  d_branchIDs d !! name = Some m ↔ ∃ k, branch_at branches name k ∧ m = 2 ^ Z.of_nat k.
Proof.
  rewrite (so_branchIDs _ _ _ Hd).
  assert (NoDup (reverse (branchTable branches)).*1) as Hnd.
  { rewrite fmap_reverse, reverse_Permutation. 
    assert ((branchTable branches).*1 = br_Name <$> branches) as ->; [|done].
    unfold branchTable. rewrite fmap_imap. apply list_eq. intros j. rewrite list_lookup_imap, list_lookup_fmap. by destruct (_ !! j). }
  rewrite <- elem_of_list_to_map by done. rewrite elem_of_reverse. unfold branchTable. rewrite list_elem_of_lookup.
  setoid_rewrite list_lookup_imap. split.
  - intros (k & Hk). apply fmap_Some in Hk as (br & Hk & [= -> ->]). exists k. split; [by exists br|].
    apply bit_mask. apply lookup_lt_Some in Hk. lia.
  - intros (k & (br & Hk & <-) & ->). exists k. rewrite Hk. simpl. rewrite bit_mask; [done|]. apply lookup_lt_Some in Hk. lia.
Qed.

Lemma branchQueryMask_bits pattern : pattern ≠ str "HEAD" → 0 <= branchQueryMask d pattern ∧
  ∀ t, 0 <= t → Z.testbit (branchQueryMask d pattern) t = true ↔
    ∃ name k, branch_at branches name k ∧ Contains name pattern = true ∧ t = Z.of_nat k.
Proof.
  intros Hne. unfold branchQueryMask. rewrite decide_False by done.
  assert (∀ l : list (bytes * Z), (∀ nm, nm ∈ l → ∃ k, (k < 64)%nat ∧ snd nm = 2 ^ Z.of_nat k) →
    let m := foldr (λ nm mask, if Contains (fst nm) pattern then Z.lor mask (u64 (snd nm)) else mask) 0 l in
    0 <= m ∧ ∀ t, 0 <= t → Z.testbit m t = true ↔ ∃ nm, nm ∈ l ∧ Contains (fst nm) pattern = true ∧ Z.testbit (snd nm) t = true) as Hgo.
  { induction l as [|nm l IH]; intros Hl; cbv zeta; cbn [foldr].
    { split; [done|]. intros t _. rewrite Z.bits_0. split; [done|]. by intros (? & ?%elem_of_nil & _). }
    destruct IH as [Hnn Hbits]; [set_solver|]. cbv zeta in *. set (m := foldr _ 0 l) in *.
    destruct (Hl nm) as (k & Hk & E); [left|]. assert (u64 (snd nm) = snd nm) as Hu.
    { rewrite E, <- bit_mask by done. apply Z.mod_mod. done. }
    assert (0 <= snd nm) by (rewrite E; apply Z.pow_nonneg; lia). destruct (Contains (fst nm) pattern) eqn:Ec.
    - rewrite Hu. split; [apply Z.lor_nonneg; lia|]. intros t Ht. rewrite Z.lor_spec, orb_true_iff, Hbits by done. split.
      + intros [(x & Hx & ?)|?]; [exists x; set_solver|exists nm; set_solver].
      + intros (x & [->|Hx]%elem_of_cons & ? & ?); [by right|left; by exists x].
    - split; [done|]. intros t Ht. rewrite Hbits by done. split.
      + intros (x & Hx & ?). exists x. set_solver.
      + intros (x & [->|Hx]%elem_of_cons & ? & ?); [congruence|by exists x]. }
  destruct (Hgo (map_to_list (d_branchIDs d))) as [Hnn Hbits].
  { intros [name m] Hin%elem_of_map_to_list. apply branchIDs_lookup in Hin as (k & (br & Hk & _) & ->). exists k.
    split; [apply lookup_lt_Some in Hk; lia|done]. }
  split; [done|]. intros t Ht. rewrite Hbits by done. split.
  - intros ([name m] & Hin%elem_of_map_to_list & Hc & Hb). apply branchIDs_lookup in Hin as (k & Hk & ->). simpl in *.
    exists name, k. split_and!; try done. rewrite Z.pow2_bits_eqb, Z.eqb_eq in Hb by lia. done.
  - intros (name & k & Hk & Hc & ->). exists (name, 2 ^ Z.of_nat k). split_and!; [|done|simpl; by rewrite Z.pow2_bits_true by lia].
    apply elem_of_map_to_list, branchIDs_lookup. by exists k.
Qed.

(** The empty pattern matches every document; HEAD is the first branch of the repository, whatever its name. *)
Definition on_branch (pattern : bytes) (doc : Document) : bool :=
  if decide (pattern = str "HEAD") then match branches with br :: _ => bool_decide (br_Name br ∈ doc_Branches doc) | [] => false end
  else existsb (λ br, Contains br pattern) (doc_Branches doc).

Lemma branch_at_unique name name' k : branch_at branches name k → branch_at branches name' k → name = name'.
Proof. intros (br & Hk & <-) (br' & Hk' & <-). by simplify_eq. Qed.

Lemma branch_meaning pattern k (i : nat) doc : docs !! i = Some doc →
  sem d (branchQueryMatchTree k (d_fileBranchMasks d) (branchQueryMask d pattern) false 0) (Z.of_nat i) = Ok (on_branch pattern doc).
Proof.
  intros Hi. rewrite sem_branch, (so_masks _ _ _ Hd).
  destruct (Forall2_lookup_l _ _ _ _ _ (bo_masks _ _ (so_builder _ _ _ Hd)) Hi) as (m & Hm & Hmask).
  rewrite (index_nat _ _ _ Hm). cbn [mbind res_bind]. f_equal.
  destruct (branchMasks_bits b (doc_Branches doc) Hfew Hnames 0 m ltac:(lia) Hmask) as (Hnn & Hall & Hbits).
  apply eq_true_iff_eq. rewrite negb_true_iff, Z.eqb_neq. unfold on_branch.
  destruct (decide (pattern = str "HEAD")) as [->|Hne].
  - change (branchQueryMask d (str "HEAD")) with 1. rewrite land_nonzero by lia. split.
    + intros (t & Ht & Hb & Hone). assert (t = 0) as ->.
      { destruct (decide (t = 0)); [done|]. by rewrite (Z.bits_above_log2 1) in Hone by (simpl; lia). }
      apply Hbits in Hb as [Hb|(br & j & Hbr & (x & Hj & <-) & E)]; [done| |lia]. assert (j = 0%nat) as -> by lia.
      destruct branches as [|y l]; [done|]. injection Hj as ->. by apply bool_decide_true.
    + destruct branches as [|y l] eqn:El; [done|]. intros Hin%bool_decide_eq_true. exists 0. split_and!; [lia| |done].
      apply Hbits; [lia|]. right. exists (br_Name y), 0%nat. split_and!; try done. by exists y.
  - destruct (branchQueryMask_bits pattern Hne) as [Hqn Hqb]. rewrite land_nonzero, existsb_elem by done. split.
    + intros (t & Ht & Hb & Hq). apply Hqb in Hq as (name & j & Hj & Hc & ->); [|done].
      apply Hbits in Hb as [Hb|(br & j' & Hbr & Hj' & E)]; [by rewrite Z.bits_0 in Hb| |done].
      assert (j' = j) as -> by lia. exists br. split; [done|]. by rewrite (branch_at_unique _ _ _ Hj' Hj).
    + intros (br & Hbr & Hc). destruct (Hall br Hbr) as [j Hj]. exists (Z.of_nat j). split_and!; [lia|apply Hbits; [lia|]|apply Hqb; [lia|]].
      * right. by exists br, j.
      * by exists br, j.
Qed.

(** *** Languages *)

Lemma elem_of_languageDocs code ls : ∀ x y, 0 <= x → x + lenZ ls <= two32 →
  y ∈ languageDocs x code ls ↔ ∃ j : nat, y = x + Z.of_nat j ∧ ls !! j = Some code.
Proof.
  induction ls as [|l ls IH]; intros x y Hx Hl; cbn [languageDocs].
  { rewrite elem_of_nil. split; [done|]. by intros (? & _ & ?). }
  rewrite lenZ_cons in Hl. pose proof (lenZ_nonneg ls). specialize (IH (x + 1) y ltac:(lia) ltac:(lia)).
  destruct (Z.eqb_spec l code) as [->|Hne].
  - rewrite elem_of_cons, IH, u32_id by (u32_unfold; lia). split.
    + intros [->|(j & -> & Hj)]; [exists 0%nat|exists (S j)]; (split; [lia|done]).
    + intros ([|j] & -> & Hj); [left; lia|right; exists j; split; [lia|done]].
  - rewrite IH. split.
    + intros (j & -> & Hj). exists (S j). split; [lia|done].
    + intros ([|j] & -> & Hj); [by injection Hj|]. exists j. split; [lia|done].
Qed.

Lemma language_meaning reString sub language k :
  ∃ t, newLeaf d reString sub (QLanguage language) k = Ok (t, S k) ∧
    ∀ (i : nat) doc, docs !! i = Some doc → sem d t (Z.of_nat i) = Ok (bool_decide (doc_Language doc = language)).
Proof.
  cbn [newLeaf]. rewrite (so_languageMap _ _ _ Hd). pose proof (so_count _ _ _ Hd) as Hcnt. pose proof (so_languageCount _ _ _ Hd) as Hlc.
  destruct (b_languageMap b !! language) as [code|] eqn:El; (eexists; split; [done|]; intros i doc Hi);
    destruct (Forall2_lookup_l _ _ _ _ _ (bo_languages _ _ (so_builder _ _ _ Hd)) Hi) as (c & Hc & Hl).
  - pose proof (lenZ_nonneg docs).
    rewrite (sem_doc d (lenZ docs)) by first [apply languageDocs_increasing; [lia|u32_unfold; lia]|u32_unfold; lia]. f_equal. apply bool_decide_ext.
    rewrite elem_of_languageDocs by (lia || u32_unfold; lia). rewrite (so_languageCodes _ _ _ Hd). split.
    + intros (j & E & Hj). assert (j = i) as -> by lia. simplify_eq. by eapply (bo_inj _ _ (so_builder _ _ _ Hd)).
    + intros <-. exists i. split; [lia|]. by simplify_eq.
  - unfold sem. cbn [mt_prepare mbind res_bind denote]. f_equal. symmetry. apply bool_decide_false. intros <-. congruence.
Qed.

(** *** Regular expressions *)

Context (reString : Regexp → bytes).

Definition re_found (re : Regexp) (cs : bool) (t : bytes) : bool :=
  match Compile (caseFlag cs ++ reString re) with Some r => bool_decide (FindAllIndex r t ≠ []) | None => false end.

(** What is asked of a regular expression: it was parsed without FoldCase flags, it compiles, what package regexp matches is
    in its language, and its literals are patterns as above. *)
Record regexp_ok (re : Regexp) (filename cs : bool) : Prop := {
  rg_parsed : re_ok re = true;
  rg_compiles : ∃ r, Compile (caseFlag cs ++ reString re) = Some r ∧
    ∀ doc, doc ∈ docs → FindAllIndex r (text filename doc) ≠ [] →
      ∃ before w after, runes (text filename doc) = before ++ w ++ after ∧ lang (same_rune cs) (same_rune false) re w;
  rg_literals : ∀ subQ s, RegexpToQuery re ngramSize = Ok subQ → QSubstring s ∈ VisitAtoms subQ →
    substring_ok (MkSubstring (Pattern s) cs filename (Content s)) }.

(** The meaning of an atom whose text is chosen by its FileName flag. *)
Definition leaf_val (doc : Document) (q : Q) : bool :=
  match q with
  | QSubstring s => occurs (CaseSensitive s) (Pattern s) (searched s doc)
  | QRegexp re filename _ cs => re_found re cs (text filename doc)
  | QSymbol s => symbol_found s doc
  | QLanguage language => bool_decide (doc_Language doc = language)
  | QBranch pattern => on_branch pattern doc
  | _ => false
  end.
Definition leaf_fine (q : Q) : Prop :=
  match q with
  | QSubstring s => substring_ok s
  | QRegexp re filename _ cs => regexp_ok re filename cs
  | QSymbol s => substring_ok s ∧ FileName s = false ∧ ngramSize <= RuneCount (Pattern s)
  | QLanguage _ | QBranch _ | QConst _ => True
  | _ => False
  end.

(** A tree that means a query on every document. *)
Definition tree_means (q : Q) (t : matchTree) : Prop :=
  ∀ (i : nat) doc, docs !! i = Some doc → sem d t (Z.of_nat i) = Ok (Query.sem (leaf_val doc) q).

Lemma buildTree_means leaf (P : Q → Prop) :
  (∀ q k, is_atom q = true → P q → ∃ t k', leaf q k = Ok (t, k') ∧ tree_means q t) →
  ∀ q k, Forall P (VisitAtoms q) → ∃ t k', buildTree leaf q k = Ok (t, k') ∧ tree_means q t.
Proof.
  intros Hleaf q.
  assert (∀ cs, Forall (λ q, ∀ k, Forall P (VisitAtoms q) → ∃ t k', buildTree leaf q k = Ok (t, k') ∧ tree_means q t) cs →
    Forall (λ c, Forall P (VisitAtoms c)) cs → ∀ k, ∃ ts k', buildAll (buildTree leaf) cs k = Ok (ts, k') ∧ Forall2 tree_means cs ts) as Hall.
  { induction 1 as [|c cs Hc _ IH]; intros HP k; cbn [buildAll]; [by exists [], k|]. apply Forall_cons in HP as [HP1 HP2].
    destruct (Hc k HP1) as (t & k1 & -> & Ht). cbn [mbind res_bind]. destruct (IH HP2 k1) as (ts & k2 & -> & Hts).
    cbn [mbind res_bind]. eexists _, _. split; [done|by constructor]. }
  assert (∀ cs ts i doc, Forall2 tree_means cs ts → docs !! i = Some doc →
    Forall2 (λ c b, sem d c (Z.of_nat i) = Ok b) ts (Query.sem (leaf_val doc) <$> cs)) as Hsem.
  { intros cs ts i doc Hts Hi. induction Hts as [|c t cs ts Hc _ IH]; [constructor|]. rewrite fmap_cons. constructor; [by apply Hc|done]. }
  induction q as [cs IH|cs IH|c IH|q Hq] using Q_ind'; intros k HP.
  - apply (atoms_junction P true) in HP. cbn [buildTree]. destruct (Hall cs IH HP k) as (ts & k1 & -> & Hts). cbn [mbind res_bind].
    eexists _, _. split; [done|]. intros i doc Hi. apply sem_and. eexists. split; [by apply Hsem|].
    cbn [Query.sem]. clear. induction cs as [|c cs IH]; [done|]. rewrite fmap_cons. cbn [forallb]. by rewrite IH.
  - apply (atoms_junction P false) in HP. cbn [buildTree]. destruct (Hall cs IH HP k) as (ts & k1 & -> & Hts). cbn [mbind res_bind].
    eexists _, _. split; [done|]. intros i doc Hi. apply sem_or. eexists. split; [by apply Hsem|].
    cbn [Query.sem]. clear. induction cs as [|c cs IH]; [done|]. rewrite fmap_cons. cbn [existsb]. by rewrite IH.
  - cbn [buildTree]. destruct (IH k HP) as (t & k1 & -> & Ht). cbn [mbind res_bind]. eexists _, _. split; [done|].
    intros i doc Hi. apply sem_not. cbn [Query.sem]. rewrite negb_involutive. by apply Ht.
  - destruct (Hleaf q k) as (t & k' & E & Ht); [done|destruct q; try done; by apply Forall_cons in HP as [HP _]|].
    exists t, k'. split; [by destruct q|done].
Qed.

Lemma VisitAtoms_inherit filename cs q : VisitAtoms (Map q (inherit filename cs)) = inherit filename cs <$> VisitAtoms q.
Proof.
  assert (∀ l, Forall (λ q, VisitAtoms (Map q (inherit filename cs)) = inherit filename cs <$> VisitAtoms q) l →
    foldr (λ c acc, VisitAtoms c ++ acc) [] (map (λ sub, Map sub (inherit filename cs)) l)
    = inherit filename cs <$> foldr (λ c acc, VisitAtoms c ++ acc) [] l) as Hl.
  { induction 1 as [|c l Hc _ IH]; [done|]. cbn [map foldr]. by rewrite Hc, IH, fmap_app. }
  induction q as [l IH|l IH|c IH|q Hq] using Q_ind'; [by apply Hl..|done|by destruct q].
Qed.

(** The distilled query with its flags means what it means on the text. *)
Lemma sem_inherit doc filename cs q : Forall (λ a, match a with QSubstring _ | QConst _ => True | _ => False end) (VisitAtoms q) →
  Query.sem (leaf_val doc) (Map q (inherit filename cs)) = Query.sem (text_val (same_rune cs) (runes (text filename doc))) q.
Proof.
  induction q as [l IH|l IH|c IH|q Hq] using Q_ind'; intros Ha.
  - apply (atoms_junction _ true) in Ha. cbn [Map inherit Query.sem].
    induction IH as [|c l Hc _ IHl]; [done|]. apply Forall_cons in Ha as [Ha1 Ha2]. cbn [map forallb]. rewrite Hc by done. f_equal. by apply IHl.
  - apply (atoms_junction _ false) in Ha. cbn [Map inherit Query.sem].
    induction IH as [|c l Hc _ IHl]; [done|]. apply Forall_cons in Ha as [Ha1 Ha2]. cbn [map existsb]. rewrite Hc by done. f_equal. by apply IHl.
  - cbn [Map inherit Query.sem]. by rewrite IH.
  - destruct q; try done; cbn [VisitAtoms] in Ha; apply Forall_cons in Ha as [Ha _]; try done.
Qed.

Definition literal_fine (q : Q) : Prop :=
  match q with QSubstring s => substring_ok s | QConst _ => True | _ => False end.

Lemma newLeaf_means sub :
  (∀ q k, Forall literal_fine (VisitAtoms q) → ∃ t k', sub q k = Ok (t, k') ∧ tree_means q t) →
  ∀ q k, is_atom q = true → leaf_fine q → ∃ t k', newLeaf d reString sub q k = Ok (t, k') ∧ tree_means q t.
Proof.
  intros Hsub q k _ Hq. destruct q; try done; cbn [leaf_fine] in Hq.
  - destruct Hq as [Hp (r & Hr & Hlang) Hlit]. cbn [newLeaf].
    destruct (RegexpToQuery_holds (same_rune caseSensitive) (same_rune false) re ngramSize Hp) as (subQ & EQ & Hholds).
    rewrite EQ. cbn [mbind res_bind]. pose proof (RegexpToQuery_atoms _ _ _ EQ) as Hat.
    destruct (Hsub (Map subQ (inherit fileName caseSensitive)) k) as (t & k' & -> & Ht).
    { rewrite VisitAtoms_inherit, Forall_fmap. apply Forall_forall. intros a Ha. rewrite Forall_forall in Hat. specialize (Hat a Ha).
      destruct a; try done. cbn [compose inherit literal_fine]. by eapply Hlit. }
    cbn [mbind res_bind]. unfold MustCompile. rewrite Hr. cbn [mbind res_bind]. eexists _, _. split; [done|].
    intros i doc Hi. apply sem_and. exists [re_found re caseSensitive (text fileName doc);
      Query.sem (text_val (same_rune caseSensitive) (runes (text fileName doc))) subQ].
    unfold re_found. cbn [Query.sem leaf_val]. unfold re_found. rewrite Hr. split.
    + constructor; [|constructor; [|constructor]].
      * unfold sem. cbn [mt_prepare mbind res_bind denote]. destruct (doc_data_ok i doc fileName Hi) as (beyond & ->). done.
      * rewrite sem_noVisit, (Ht i doc Hi), sem_inherit by done. done.
    + cbn [forallb]. unfold id. rewrite andb_true_r. destruct (bool_decide_reflect (FindAllIndex r (text fileName doc) ≠ [])) as [Hf|]; [|done].
      destruct (Hlang doc) as (before & w & after & -> & Hw); [by eapply list_elem_of_lookup_2|done|]. by rewrite Hholds.
  - destruct Hq as (Hs & Efn & Hlen). destruct (symbol_meaning reString sub atom k Hs Efn Hlen) as (t & -> & Ht). by exists t, (S k).
  - destruct (language_meaning reString sub language k) as (t & -> & Ht). by exists t, (S k).
  - cbn [newLeaf]. destruct value; eexists _, _; (split; [done|]); intros i doc Hi; [apply sem_brute|done].
  - cbn [newLeaf]. destruct (newSubstring_meaning s k Hq) as (t & -> & Ht). by exists t, (S k).
  - cbn [newLeaf]. eexists _, _. split; [done|]. intros i doc Hi. by apply branch_meaning.
Qed.

Lemma newMatchTree_means q k : Forall leaf_fine (VisitAtoms q) → ∃ t k', newMatchTree d reString q k = Ok (t, k') ∧ tree_means q t.
Proof.
  apply buildTree_means. apply newLeaf_means. intros q' k' Hq'. eapply buildTree_means; [|exact Hq'].
  intros a n Ha Hf. destruct a; try done; cbn [literal_fine] in Hf; cbn [newLeaf].
  - destruct value; eexists _, _; (split; [done|]); intros i doc Hi; [apply sem_brute|done].
  - destruct (newSubstring_meaning s n Hf) as (t & -> & Ht). by exists t, (S n).
Qed.

(** ** Meaning of queries *)

(** The value of an atom on a document of the repository. A text atom without a flag may be in the name or in the
    contents. *)
Definition atom_val (doc : Document) (q : Q) : bool :=
  trivial_atom q ||
  match q with
  | QSubstring s =>
    if FileName s || Content s then leaf_val doc q
    else occurs (CaseSensitive s) (Pattern s) (doc_Name doc) || occurs (CaseSensitive s) (Pattern s) (doc_Content doc)
  | QRegexp re filename content cs =>
    if filename || content then leaf_val doc q else re_found re cs (doc_Name doc) || re_found re cs (doc_Content doc)
  | q => leaf_val doc q
  end.
(** The repository of the shard decides the atoms about repositories; a set without elements matches none. *)
Definition query_val (doc : Document) (q : Q) : bool :=
  match q with
  | QRepo pattern => Contains (r_Name (b_repo b)) pattern
  | QRepoSet set => default false (set !! r_Name (b_repo b))
  | q => atom_val doc q
  end.
Definition satisfies (q : Q) (doc : Document) : bool := Query.sem (query_val doc) q.

(** What is asked of the atoms of a query. *)
Definition atom_fine (q : Q) : Prop :=
  match q with
  | QSubstring s =>
    if FileName s || Content s then substring_ok s
    else substring_ok (MkSubstring (Pattern s) (CaseSensitive s) true (Content s)) ∧
         substring_ok (MkSubstring (Pattern s) (CaseSensitive s) (FileName s) true)
  | QRegexp re filename content cs =>
    if filename || content then regexp_ok re filename cs else regexp_ok re true cs ∧ regexp_ok re false cs
  | QSymbol s => substring_ok s ∧ FileName s = false ∧ ngramSize <= RuneCount (Pattern s)
  | QLanguage _ | QBranch _ | QConst _ | QRepo _ | QRepoSet _ => True
  | _ => False
  end.
Definition query_fine (q : Q) : Prop := Forall (λ a, trivial_atom a = true ∨ atom_fine a) (VisitAtoms q).

(** After simplification nothing is asked about the repository. *)
Definition shard_atom (q : Q) : Prop := match q with QRepo _ | QRepoSet _ => False | _ => trivial_atom q = true ∨ atom_fine q end.

Lemma simplifyAtom_val doc a : doc ∈ docs → is_atom a = true → Query.sem (query_val doc) (simplifyAtom d a) = Query.sem (query_val doc) a.
Proof.
  intros Hdoc Ha. destruct a; try done; cbn [simplifyAtom]; rewrite ?(so_repo _ _ _ Hd); try done.
  rewrite (so_languageMap _ _ _ Hd). destruct (b_languageMap b !! language) eqn:El; [done|].
  apply list_elem_of_lookup in Hdoc as [i Hi].
  destruct (Forall2_lookup_l _ _ _ _ _ (bo_languages _ _ (so_builder _ _ _ Hd)) Hi) as (c & _ & Hl).
  cbn [Query.sem query_val]. unfold atom_val. cbn [trivial_atom leaf_val orb]. symmetry. apply bool_decide_false. intros <-. congruence.
Qed.

Lemma atom_val_empty doc : empty_matches (atom_val doc).
Proof.
  unfold atom_val. split_and!.
  - intros s Hs. cbn [trivial_atom]. by rewrite bool_decide_true.
  - intros re f c cs Hre. cbn [trivial_atom]. by rewrite Hre.
  - done.
  - intros m Hm. cbn [trivial_atom]. by rewrite bool_decide_true.
Qed.
Lemma atom_val_either doc : name_or_content (atom_val doc).
Proof.
  unfold atom_val. split.
  - intros p cs. cbn [trivial_atom leaf_val FileName Content CaseSensitive Pattern orb searched]. destruct (bool_decide (p = [])); [done|]. done.
  - intros re cs. cbn [trivial_atom leaf_val orb]. by destruct (re_op re).
Qed.

Lemma simplified_atoms q q' : query_fine q → simplify d q = Ok q' → Forall shard_atom (VisitAtoms q') ∧ Forall (λ a, trivial_atom a = false) (VisitAtoms q').
Proof.
  intros Hq E. unfold simplify in E. split; [|by eapply Simplify_nontrivial].
  eapply Simplify_atoms; [by right|exact E|]. eapply Map_atoms; [| |exact Hq].
  - intros a Ha Hfine. destruct a; try done; cbn [simplifyAtom].
    all: try (case_match); constructor; try done; by right.
  - intros p Hp Hall. by destruct p.
Qed.

(** The expanded query has the atoms that newMatchTree can handle. *)
Lemma expanded_fine q : Forall shard_atom (VisitAtoms q) → Forall (λ a, trivial_atom a = false) (VisitAtoms q) →
  Forall leaf_fine (VisitAtoms (Map q ExpandFileContent)).
Proof.
  intros Hs Hn. apply (Map_atoms (λ a, shard_atom a ∧ trivial_atom a = false)); [| |by apply Forall_and].
  - intros a Ha [Hsa Hta]. assert (atom_fine a ∧ match a with QRepo _ | QRepoSet _ => False | _ => True end) as [Hf Hr].
    { destruct a; try done; destruct Hsa as [Ht|]; try done; congruence. }
    destruct a; try done; cbn [ExpandFileContent atom_fine] in *; try (by apply Forall_singleton).
    + destruct fileName, content; cbn [negb andb orb] in *; try (by apply Forall_singleton).
      destruct Hf as [Hf1 Hf2]. apply Forall_cons. split; [exact Hf1|]. by apply Forall_singleton.
    + destruct (FileName s) eqn:E1, (Content s) eqn:E2; cbn [negb andb orb] in *; try (by apply Forall_singleton).
      destruct Hf as [Hf1 Hf2]. apply Forall_cons. split; [exact Hf1|]. by apply Forall_singleton.
  - intros p Hp Hall. by destruct p.
Qed.

(** Queries that mean the same. *)
Lemma simplify_means q q' doc : doc ∈ docs → query_fine q → simplify d q = Ok q' →
  Query.sem (leaf_val doc) (Map q' ExpandFileContent) = satisfies q doc.
Proof.
  intros Hdoc Hq E. destruct (simplified_atoms q q' Hq E) as [Hs Hn]. unfold satisfies.
  transitivity (Query.sem (atom_val doc) (Map q' ExpandFileContent)).
  - apply sem_ext. pose proof (expanded_fine q' Hs Hn) as Hfine. destruct (Map_expanded (atom_val doc) q') as [_ Hbound].
    rewrite forallb_elem in Hbound. rewrite Forall_forall in Hfine. apply Forall_forall. intros a Ha _.
    specialize (Hfine a Ha). specialize (Hbound a Ha).
    assert (trivial_atom a = false) as Ht.
    { assert (Forall (λ a, trivial_atom a = false) (VisitAtoms (Map q' ExpandFileContent))) as Hall.
      { eapply Map_atoms; [| |exact Hn].
        - intros x Hx Htx. destruct x; try done; cbn [ExpandFileContent]; try (by repeat constructor);
            case_match; by repeat constructor.
        - intros p Hp Hall. by destruct p. }
      rewrite Forall_forall in Hall. by apply Hall. }
    unfold atom_val. rewrite Ht. cbn [orb]. destruct a; try done; cbn [bound_atom] in Hbound; by rewrite Hbound.
  - destruct (Map_expanded (atom_val doc) q') as [Hexp _]. rewrite Hexp by apply atom_val_either. unfold simplify in E.
    destruct (Simplify_spec (atom_val doc) (Map q (simplifyAtom d))) as (r & Er & _ & Hsem). rewrite E in Er. injection Er as <-.
    rewrite Hsem by apply atom_val_empty. transitivity (Query.sem (query_val doc) (Map q (simplifyAtom d))).
    + apply sem_ext. apply (Map_atoms (λ _, True)); [| |by apply Forall_true].
      * intros a Ha _. destruct a; try done; cbn [simplifyAtom]; try case_match; by repeat constructor.
      * intros p Hp Hall. by destruct p.
    + apply sem_Map; [by intros []|]. intros a Ha. by apply simplifyAtom_val.
Qed.

(** ** Assembling the result of a document *)

(** FindAllIndex returns places in the text. *)
Context (Hfind : ∀ r t, Forall (λ ab, 0 <= fst ab <= snd ab ∧ snd ab <= lenZ t) (FindAllIndex r t)).

Section Document.
Context (i : nat) (doc : Document) (Hi : docs !! i = Some doc).

(** All candidates in the tree lie in the document, and so do those that a comparison leaves. *)
Fixpoint tree_lies (t : matchTree) : Prop :=
  match t with
  | andMatchTree _ cs | orMatchTree _ cs => foldr (λ c P, tree_lies c ∧ P) True cs
  | notMatchTree _ c | noVisitMatchTree _ c => tree_lies c
  | regexpMatchTree _ _ _ _ found _ _ => Forall (lies_in doc) found
  | substrMatchTree _ _ _ _ _ current _ => Forall (lies_in doc) current ∧
      ∃ pruned, prune_sem d (Z.of_nat i) current = Ok pruned ∧ Forall (lies_in doc) pruned
  | _ => True
  end.
Lemma foldr_lies cs : foldr (λ c P, tree_lies c ∧ P) True cs ↔ Forall tree_lies cs.
Proof. induction cs as [|c cs IH]; simpl; [by split|]. by rewrite Forall_cons, IH. Qed.

Lemma found_lies t known : tree_lies t → Forall (lies_in doc) (found t known).
Proof.
  unfold found. assert (∀ cs, Forall (λ t, tree_lies t → Forall (lies_in doc) (mjoin (map nodeCandidates (visitMatches t known)))) cs →
    Forall tree_lies cs → Forall (lies_in doc) (mjoin (map nodeCandidates (mjoin (map (λ ch, if default false (known !! mt_id ch) then visitMatches ch known else []) cs))))) as Hcs.
  { induction 1 as [|c cs Hc _ IH]; intros Hl; [constructor|]. apply Forall_cons in Hl as [Hl1 Hl2]. cbn [map]. rewrite mjoin_cons, map_app, join_app.
    apply Forall_app. split; [|by apply IH]. destruct (default false _); [by apply Hc|constructor]. }
  induction t as [j cs IH|j cs IH|j c IH|j c IH| | | | | |] using matchTree_ind'; cbn [tree_lies visitMatches]; intros Hl; try (by constructor).
  - apply Hcs; [done|by apply foldr_lies].
  - apply Hcs; [done|by apply foldr_lies].
  - simpl. by rewrite app_nil_r.
  - simpl. destruct Hl as [Hl _]. by rewrite app_nil_r.
Qed.

#[local] Abbreviation serves := (serves (Z.of_nat i) (doc_Content doc)).
Lemma serves_cp_ok p : serves p → cp_ok d (Z.of_nat i) p.
Proof.
  intros [Hx _ Hdt _]. split; [done|]. destruct Hdt as [-> | ->]; [done|]. apply (so_contents _ _ _ Hd _ _ Hi).
Qed.
Lemma data_keeps p filename : serves p → ∃ beyond p', data d p filename = Ok (text filename doc, beyond, p') ∧ serves p'.
Proof.
  intros Hp. destruct (doc_data_ok i doc filename Hi) as (beyond & Hdata).
  destruct (data_ok d _ p filename _ _ (serves_cp_ok p Hp) Hdata) as (p' & E & _). exists beyond, p'. split; [done|]. destruct filename.
  - unfold data in E. apply bind_Ok in E as (? & _ & E). apply bind_Ok in E as (? & _ & E). apply bind_Ok in E as (? & _ & E).
    by injection E as _ _ <-.
  - destruct (data_serves d _ _ (so_contents _ _ _ Hd _ _ Hi) p Hp) as (spare & p2 & E2 & Hp2). rewrite E in E2. by injection E2 as _ ->.
Qed.
Lemma findOffset_keeps p filename r off p' : serves p → findOffset d p filename r = Ok (off, p') → serves p'.
Proof.
  intros Hp. unfold findOffset. case_match; [by intros [= _ <-]|]. intros E.
  repeat match type of E with (_ ≫= _) = Ok _ => apply bind_Ok in E as (? & _ & E) end.
  destruct filename.
  - repeat match type of E with (_ ≫= _) = Ok _ => apply bind_Ok in E as (? & _ & E) end. by injection E as _ <-.
  - repeat match type of E with (_ ≫= _) = Ok _ => apply bind_Ok in E as (? & _ & E) end. case_match.
    + repeat match type of E with (_ ≫= _) = Ok _ => apply bind_Ok in E as (? & _ & E) end. injection E as _ <-. by destruct Hp.
    + injection E as _ <-. by destruct Hp.
Qed.
Lemma prune_keeps ms : ∀ p pruned p', serves p → prune d p ms = Ok (pruned, p') → serves p'.
Proof.
  induction ms as [|m ms IH]; intros p pruned p' Hp E; cbn [prune] in E; [by injection E as _ <-|].
  apply bind_Ok in E as ([[ok m1] p1] & Hc & E). apply bind_Ok in E as ([pr p2] & Hpr & E). injection E as _ <-.
  eapply IH; [|exact Hpr]. unfold checkCandidate in Hc. apply bind_Ok in Hc as ([m2 p3] & Hm & Hc).
  assert (serves p3) as Hp3.
  { case_match; [|by injection Hm as _ <-]. apply bind_Ok in Hm as ([off p4] & Hoff & [= _ <-]). by eapply findOffset_keeps. }
  destruct (data_keeps p3 (cm_fileName m2) Hp3) as (beyond & p5 & E5 & Hp5). rewrite E5 in Hc. cbn [mbind res_bind] in Hc.
  apply bind_Ok in Hc as ([ok' m3] & _ & [= _ _ <-]). done.
Qed.

Lemma text_small filename : lenZ (text filename doc) < two32.
Proof. pose proof (text_le i doc filename Hi). pose proof (se_size Hse filename). lia. Qed.
Lemma regexp_lies r filename : Forall (lies_in doc) (map (regexpCandidate filename) (FindAllIndex r (text filename doc))).
Proof.
  change (map ?g ?l) with (g <$> l). rewrite Forall_fmap. pose proof (text_small filename) as Hs.
  eapply Forall_impl; [apply Hfind|]. intros [x y]. cbn [fst snd]. intros Hxy. unfold lies_in, cm_end, compose, regexpCandidate.
  cbn [fst snd cm_byteOffset cm_byteMatchSz cm_fileName]. rewrite !u32_id by (u32_unfold; lia). lia.
Qed.

#[local] Abbreviation evalState := (contentProvider * gmap nat bool)%type.
Definition lies_after (s : evalState) (t : matchTree) : Prop := serves (fst s) ∧ tree_lies t.

Lemma evalWith_lies (ev : evalState → res (bool * bool * evalState * matchTree)) t s v ok s' t' :
  (∀ s v ok s' t', serves (fst s) → ev s = Ok (v, ok, s', t') → lies_after s' t') →
  serves (fst s) → tree_lies t → evalWith ev t s = Ok (v, ok, s', t') → lies_after s' t'.
Proof.
  intros Hev Hp Hl. unfold evalWith. case_match; [by intros [= <- <- <- <-]|].
  intros Hb. apply bind_Ok in Hb as ([[[v0 ok0] s0] t0] & Ht0 & [= <- <- <- <-]).
  destruct (Hev _ _ _ _ _ Hp Ht0) as [Hp' Hl']. split; [by destruct ok0|done].
Qed.

Lemma matches_lies cost t : ∀ s v ok s' t', serves (fst s) → tree_lies t → matches d cost t s = Ok (v, ok, s', t') → lies_after s' t'.
Proof.
  unfold lies_after. induction t as [j cs IH|j cs IH|j c IH|j c IH|j l k|j a e|j re fn ev fd a e|j it q cs fn cur ev|j ms x a e|j t]
    using matchTree_ind'; intros s v ok s' t' Hp Hl Ht; cbn [matches tree_lies] in Ht, Hl.
  - apply bind_Ok in Ht as ([[[v0 ok0] s0] cs'] & Hcs & [= <- <- <- <-]). cbn [tree_lies]. rewrite foldr_lies in *.
    revert s v0 ok0 s0 cs' Hp Hcs. generalize true. induction IH as [|c cs Hc _ IHcs]; intros sure s v0 ok0 s0 cs' Hp Hcs; cbn [andLoop] in Hcs.
    { by injection Hcs as <- <- <- <-. }
    apply Forall_cons in Hl as [Hl1 Hl2]. apply bind_Ok in Hcs as ([[[v1 ok1] s1] c'] & Hc' & Hcs).
    apply evalWith_lies in Hc' as [Hp1 Hc']; [|intros; by eapply Hc|done..].
    destruct (ok1 && negb v1); [injection Hcs as <- <- <- <-; split; [done|by constructor]|].
    apply bind_Ok in Hcs as ([[[v2 ok2] s2] cs''] & Hcs' & [= <- <- <- <-]). apply IHcs in Hcs' as [? ?]; [|done..]. split; [done|by constructor].
  - apply bind_Ok in Ht as ([[[v0 ok0] s0] cs'] & Hcs & [= <- <- <- <-]). cbn [tree_lies]. rewrite foldr_lies in *.
    revert s v0 ok0 s0 cs' Hp Hcs. generalize true. generalize false.
    induction IH as [|c cs Hc _ IHcs]; intros acc sure s v0 ok0 s0 cs' Hp Hcs; cbn [orLoop] in Hcs.
    { by injection Hcs as <- <- <- <-. }
    apply Forall_cons in Hl as [Hl1 Hl2]. apply bind_Ok in Hcs as ([[[v1 ok1] s1] c'] & Hc' & Hcs).
    apply evalWith_lies in Hc' as [Hp1 Hc']; [|intros; by eapply Hc|done..].
    apply bind_Ok in Hcs as ([[[v2 ok2] s2] cs''] & Hcs' & [= <- <- <- <-]). apply IHcs in Hcs' as [? ?]; [|done..]. split; [done|by constructor].
  - apply bind_Ok in Ht as ([[[v0 ok0] s0] c'] & Hc & [= <- <- <- <-]). apply evalWith_lies in Hc; [done|intros; by eapply IH|done..].
  - apply bind_Ok in Ht as ([[[v0 ok0] s0] c'] & Hc & [= <- <- <- <-]). by eapply IH in Hc.
  - by injection Ht as <- <- <- <-.
  - by injection Ht as <- <- <- <-.
  - destruct (cost <? costRegexp); [by injection Ht as <- <- <- <-|].
    destruct (data_keeps (fst s) fn Hp) as (beyond & p' & E & Hp'). rewrite E in Ht. cbn [mbind res_bind] in Ht. injection Ht as <- <- <- <-.
    split; [done|]. cbn [tree_lies]. apply regexp_lies.
  - destruct Hl as (Hl & pruned & Hpr & Hprl). destruct cur as [|m0 cur]; [by injection Ht as <- <- <- <-; split; [done|]; split; [done|by exists pruned]|].
    repeat (case_match; [by injection Ht as <- <- <- <-; split; [done|]; split; [done|by exists pruned]|]).
    destruct (prune_ok d _ (fst s) _ _ (serves_cp_ok _ Hp) Hpr) as (p' & E & _). rewrite E in Ht. cbn [mbind res_bind] in Ht.
    injection Ht as <- <- <- <-. split; [by eapply prune_keeps|]. cbn [tree_lies]. split; [done|]. exists pruned. split; [|done]. by eapply prune_again.
  - apply bind_Ok in Ht as (m & _ & [= <- <- <- <-]). done.
  - by injection Ht as <- <- <- <-.
Qed.

Lemma decideDoc_lies t p v p' known t' : serves p → tree_lies t → decideDoc d t p = Ok (v, (p', known), t') → serves p' ∧ tree_lies t'.
Proof.
  intros Hp0 Hl0 E0. unfold decideDoc in E0. revert E0.
  assert (∀ n cost t p kn, serves p → tree_lies t → costLoop d n cost t (p, kn) = Ok (v, (p', known), t') → serves p' ∧ tree_lies t') as Hgo;
    [|by apply Hgo].
  clear t p Hp0 Hl0. induction n as [|n IH]; intros cost t p kn Hp Hl E; cbn [costLoop] in E; [by injection E as <- <- <- <-|].
  apply bind_Ok in E as ([[[v0 ok0] [p0 kn0]] t0] & Hm & E). destruct (matches_lies _ _ (p, kn) _ _ _ _ Hp Hl Hm) as [Hp0 Hl0].
  destruct (ok0 && negb v0); [by injection E as <- <- <- <-|]. destruct ((cost =? costMax) && negb ok0); [done|].
  by eapply IH in E.
Qed.

Context `{SortAlg}.

Lemma gather_lies t known : tree_lies t → let out := gatherMatches t known in
  Forall cm_ok out ∧ StronglySorted apart out ∧
  ∃ filename, Forall (λ c, cm_fileName c = filename) out ∧ Forall (λ c, cm_end c <= lenZ (text filename doc)) out.
Proof.
  intros Hl%(found_lies _ known) out. unfold out, gatherMatches. fold (found t known).
  assert (Forall (lies_in doc) (dropNames (found t known))) as Hdrop.
  { apply Forall_forall. intros c [Hc _]%dropNames_kept. rewrite Forall_forall in Hl. by apply Hl. }
  assert (Forall cm_ok (dropNames (found t known))) as Hok.
  { eapply Forall_impl; [exact Hdrop|]. intros c (? & ? & ?). pose proof (text_small (cm_fileName c)). split_and!; [done..|]. u32_unfold. lia. }
  destruct (mergeCandidates_spec _ Hok) as (Hok' & Hap & Huni & Htouch & _). split_and!; [done..|].
  destruct (dropNames_uniform (found t known)) as (filename & Hb & _). exists filename. split; [by apply Huni|].
  apply Forall_forall. intros c Hc. assert (Exists (λ c', touches c' (cm_end c)) (mergeCandidates (dropNames (found t known)))) as Hex.
  { apply Exists_exists. exists c. split; [done|]. rewrite Forall_forall in Hok'. destruct (Hok' c Hc) as (? & ? & _). unfold touches, cm_end. lia. }
  apply Htouch, Exists_exists in Hex as (c' & Hc' & _ & Hle). rewrite Forall_forall in Hdrop, Hb.
  destruct (Hdrop c' Hc') as (_ & _ & Hend). rewrite (Hb c' Hc') in Hend. lia.
Qed.

(** *** Scores *)

Definition fragment_in (line : bytes) (f : LineFragmentMatch) : Prop :=
  0 <= lf_LineOffset f ∧ 0 <= lf_MatchLength f ∧ lf_LineOffset f + lf_MatchLength f <= lenZ line.
Lemma classBoundary_ok line k : 1 <= k < lenZ line → ∃ v, classBoundary line k = Ok v.
Proof.
  intros Hk. unfold classBoundary. destruct (index_in line (k - 1)) as (x & -> & _); [lia|].
  destruct (index_in line k) as (y & -> & _); [lia|]. by eexists.
Qed.
Lemma fragmentScore_ok secs line f : fragment_in line f → ∃ v, fragmentScore secs line f = Ok v.
Proof.
  intros (Hf1 & Hf2 & Hf3). unfold fragmentScore.
  assert (∃ v, (if lf_LineOffset f <? lenZ line then if lf_LineOffset f =? 0 then Ok true else classBoundary line (lf_LineOffset f) else Ok false) = Ok v) as (sb & ->).
  { destruct (Z.ltb_spec (lf_LineOffset f) (lenZ line)); [|by eexists]. destruct (Z.eqb_spec (lf_LineOffset f) 0); [by eexists|].
    apply classBoundary_ok. lia. }
  cbn [mbind res_bind].
  assert (∃ v, (if 0 <? lf_LineOffset f + lf_MatchLength f then if lf_LineOffset f + lf_MatchLength f =? lenZ line then Ok true
    else classBoundary line (lf_LineOffset f + lf_MatchLength f) else Ok false) = Ok v) as (eb & ->).
  { destruct (Z.ltb_spec 0 (lf_LineOffset f + lf_MatchLength f)); [|by eexists].
    destruct (Z.eqb_spec (lf_LineOffset f + lf_MatchLength f) (lenZ line)); [by eexists|]. apply classBoundary_ok. lia. }
  cbn [mbind res_bind]. case_match; by eexists.
Qed.
Lemma setScores_ok secs ls : Forall (λ l, Forall (fragment_in (lm_Line l)) (lm_LineFragments l)) ls → ∃ ls', setScores secs ls = Ok ls'.
Proof.
  induction 1 as [|l ls Hl _ (ls' & IH)]; [by eexists|]. cbn [setScores].
  assert (∃ v, matchScore secs l = Ok v) as (v & ->).
  { unfold matchScore. generalize (float_of_Z 0). induction Hl as [|f fs Hf _ IHfs]; intros mx; cbn [maxScore_loop]; [by eexists|].
    destruct (fragmentScore_ok secs _ _ Hf) as (v & ->). cbn [mbind res_bind]. apply IHfs. }
  cbn [mbind res_bind]. rewrite IH. by eexists.
Qed.

Lemma docSections_keeps p : serves p → ∃ secs p', docSections d p = Ok (secs, p') ∧ serves p'.
Proof.
  intros Hp. unfold docSections. destruct (cp__sects p); [by eexists _, p|]. pose proof (so_sections _ _ _ Hd _ _ Hi) as Hs.
  apply fmap_Ok in Hs as ([secs sz] & Hr & _). destruct Hp as [Hx ? ? ?]. rewrite Hx, Hr. cbn [caught mbind res_bind].
  eexists _, _. split; [done|]. by split.
Qed.

Lemma fillMatches_ok p ms filename : ms ≠ [] → serves p → Forall cm_ok ms → StronglySorted apart ms →
  Forall (λ c, cm_fileName c = filename) ms → Forall (λ c, cm_end c <= lenZ (text filename doc)) ms →
  ∃ ls p', fillMatches d p ms = Ok (ls, p') ∧ serves p'.
Proof.
  intros Hne Hp Hok Hap Hfn Hend. unfold fillMatches. destruct ms as [|m ms]; [done|]. change (index (m :: ms) 0) with (Ok m : res candidateMatch).
  cbn [mbind res_bind]. pose proof Hfn as [Hfm _]%Forall_cons. rewrite Hfm.
  assert (∃ ls p', (if filename then name ← fileName d (cp_idx p); Ok ([MkLineMatch name 0 0 0 true (float_of_Z 0) (map nameFragment (m :: ms))], p)
    else fillContentMatches d p (m :: ms)) = Ok (ls, p') ∧ serves p' ∧ Forall (λ l, Forall (fragment_in (lm_Line l)) (lm_LineFragments l)) ls) as (ls & p' & -> & Hp' & Hls).
  { destruct filename.
    - rewrite (sv_idx _ _ _ Hp), (so_names _ _ _ Hd _ _ Hi). cbn [mbind res_bind]. eexists _, p. split; [done|]. split; [done|].
      apply Forall_singleton. cbn [lm_Line lm_LineFragments]. change (map ?g ?l) with (g <$> l). rewrite Forall_fmap.
      apply Forall_forall. intros c Hc. rewrite Forall_forall in Hok, Hend. specialize (Hok c Hc). specialize (Hend c Hc).
      unfold compose, fragment_in, nameFragment, cm_ok, cm_end in *. cbn [lf_LineOffset lf_MatchLength]. lia.
    - destruct (fillContent_loop_spec d _ _ (so_contents _ _ _ Hd _ _ Hi) (so_newlines _ _ _ Hd _ _ Hi) (length (m :: ms)) p (m :: ms) (text_small false))
        as (ls & p' & E & Hp' & Hlines & Hfr); try done. exists ls, p'. split; [exact E|]. split; [done|].
      apply Forall_forall. intros l Hl. rewrite Forall_forall in Hlines. specialize (Hlines l Hl). apply Forall_forall. intros f Hf.
      assert (0 <= lf_MatchLength f) as Hlen.
      { assert ((lf_Offset f, lf_MatchLength f) ∈ extents (m :: ms)) as Hin.
        { rewrite <- Hfr. unfold fragments. apply list_elem_of_bind. exists l. split; [|done]. apply list_elem_of_fmap. by exists f. }
        apply list_elem_of_fmap in Hin as (c & E' & Hc). injection E' as _ ->. rewrite Forall_forall in Hok. by destruct (Hok c Hc) as (_ & ? & _). }
      destruct (lk_fragments _ _ Hlines) as [_ Hfs]. rewrite Forall_forall in Hfs. destruct (Hfs f Hf) as (E1 & E2 & E3).
      pose proof (lk_bounds _ _ Hlines) as Hb. pose proof (lk_text _ _ Hlines) as Ht. unfold slice in Ht. case_decide; [|done].
      injection Ht as Ht. unfold fragment_in. rewrite <- Ht, lenZ_take, lenZ_drop. lia. }
  cbn [mbind res_bind]. destruct (docSections_keeps p' Hp') as (secs & p2 & -> & Hp2). cbn [mbind res_bind].
  destruct (setScores_ok secs ls Hls) as (ls' & ->). cbn [mbind res_bind]. by exists ls', p2.
Qed.

(** *** Branches and repositories of a document *)

Lemma lowestBit_bit fuel : ∀ idx mask, 0 <= idx → let r := lowestBit fuel idx mask in r = -1 ∨ idx <= r ∧ Z.testbit mask (r - idx) = true.
Proof.
  induction fuel as [|fuel IH]; intros idx mask Hidx; cbn [lowestBit]; [by left|]. destruct (mask =? 0); [by left|].
  destruct (Z.eqb_spec (Z.land mask 1) 0) as [E|E]; cbn [negb].
  - destruct (IH (idx + 1) (Z.shiftr mask 1) ltac:(lia)) as [->|[Hle Hb]]; [by left|right]. split; [lia|].
    rewrite Z.shiftr_spec in Hb by lia. by replace (lowestBit fuel (idx + 1) (Z.shiftr mask 1) - (idx + 1) + 1)
      with (lowestBit fuel (idx + 1) (Z.shiftr mask 1) - idx) in Hb by lia.
  - right. split; [lia|]. rewrite Z.sub_diag, Z.bit0_odd. change 1 with (Z.ones 1) in E. rewrite Z.land_ones in E by lia.
    change (2 ^ 1) with 2 in E. rewrite Zmod_odd in E. by destruct (Z.odd mask).
Qed.

Lemma doc_mask : ∃ m, index (d_fileBranchMasks d) (Z.of_nat i) = Ok m ∧ let r := lowestBit 64 0 m in r = -1 ∨ 0 <= r < lenZ branches.
Proof.
  destruct (Forall2_lookup_l _ _ _ _ _ (bo_masks _ _ (so_builder _ _ _ Hd)) Hi) as (m & Hm & Hmask). exists m.
  rewrite (so_masks _ _ _ Hd). split; [by apply index_nat|]. cbv zeta. destruct (lowestBit_bit 64 0 m ltac:(lia)) as [?|[Hle Hb]]; [by left|right].
  destruct (branchMasks_bits b (doc_Branches doc) Hfew Hnames 0 m ltac:(lia) Hmask) as (_ & _ & Hbits). rewrite Z.sub_0_r in Hb.
  apply Hbits in Hb as [Hb|(br & k & _ & (x & Hk & _) & E)]; [by rewrite Z.bits_0 in Hb| |done].
  apply lookup_lt_Some in Hk. unfold lenZ. lia.
Qed.

(** Sub-repositories are numbered, and have at least the branches of the repository. *)
Context (Hindex : ∀ path s, default ∅ (b_subRepoIndices b) !! path = Some s →
  0 <= s < lenZ (map_to_list (default ∅ (r_SubRepoMap (b_repo b))))).
Context (Hcount : lenZ (map_to_list (default ∅ (r_SubRepoMap (b_repo b)))) < two32).
Context (Hsubs : ∀ path sr, default ∅ (r_SubRepoMap (b_repo b)) !! path = Some sr → (length branches <= length (r_Branches sr))%nat).

Lemma docOrigin_ok : ∃ o, docOrigin d (Z.of_nat i) = Ok o.
Proof.
  unfold docOrigin, branchIndex. destruct doc_mask as (m & Hm & Hbit). rewrite Hm. cbn [mbind res_bind]. cbv zeta in Hbit.
  destruct (Forall2_lookup_l _ _ _ _ _ (bo_subRepos _ _ (so_builder _ _ _ Hd)) Hi) as (s & Hs & Hsub). apply Hindex in Hsub.
  rewrite (so_subRepos _ _ _ Hd), (index_nat _ _ _ Hs), (so_repo _ _ _ Hd). cbn [mbind res_bind].
  assert (∀ (brs : list RepositoryBranch) {A} (g : RepositoryBranch → A) e, (length branches <= length brs)%nat →
    ∃ o, (if 0 <=? lowestBit 64 0 m then br ← index brs (lowestBit 64 0 m); Ok (g br) else Ok e) = Ok o) as Hbr.
  { intros brs A g e Hlen. destruct (Z.leb_spec 0 (lowestBit 64 0 m)); [|by eexists].
    destruct (index_in brs (lowestBit 64 0 m)) as (br & -> & _); [unfold lenZ in *; lia|]. by eexists. }
  destruct (Z.ltb_spec 0 s); [|by apply (Hbr _ _ (λ br, ([], [], br_Version br)))].
  pose proof (so_subRepoPaths _ _ _ Hd) as Hperm.
  assert (lenZ (d_subRepoPaths d) = lenZ (map_to_list (default ∅ (r_SubRepoMap (b_repo b))))) as Hlen.
  { unfold lenZ. by rewrite Hperm, length_fmap. }
  rewrite Hlen, u32_id by (u32_unfold; lia). destruct (Z.leb_spec (lenZ (map_to_list (default ∅ (r_SubRepoMap (b_repo b))))) s); [lia|].
  destruct (index_in (d_subRepoPaths d) s) as (path & -> & Hpath); [lia|]. cbn [mbind res_bind].
  apply list_elem_of_lookup_2 in Hpath. rewrite Hperm in Hpath. apply list_elem_of_fmap in Hpath as ([path' sr] & -> & Hin%elem_of_map_to_list).
  cbn [fst]. rewrite Hin. by apply (Hbr _ _ (λ br, (path', r_Name sr, br_Version br))), (Hsubs path').
Qed.

Lemma gatherBranches_ok t known : ∃ brs, gatherBranches d (Z.of_nat i) t known = Ok brs.
Proof. unfold gatherBranches. destruct doc_mask as (m & -> & _). cbn [mbind res_bind]. case_match; by eexists. Qed.

Lemma fileMatchOf_ok whole total t known p : serves p → tree_lies t → ∃ r, fileMatchOf d whole total (Z.of_nat i) t known p = Ok r.
Proof.
  intros Hp Hl. unfold fileMatchOf. rewrite (so_names _ _ _ Hd _ _ Hi). cbn [mbind res_bind].
  rewrite (so_checksums _ _ _ Hd _ _ Hi). cbn [mbind res_bind]. destruct (so_languages _ _ _ Hd _ _ Hi) as (c & Hc & _).
  rewrite (index_nat _ _ _ Hc). cbn [mbind res_bind]. destruct docOrigin_ok as ([[sp sn] v] & ->). cbn [mbind res_bind].
  destruct (gather_lies t known Hl) as (Hok & Hap & filename & Hfn & Hend).
  assert (∃ ls p', fillMatches d p (match gatherMatches t known with [] => [nameCandidate (Z.of_nat i) (doc_Name doc)] | _ => gatherMatches t known end)
    = Ok (ls, p') ∧ serves p') as (ls & p' & E & Hp').
  { destruct (gatherMatches t known) as [|m ms] eqn:Eg; [|by eapply fillMatches_ok].
    pose proof (text_small true) as Hs. pose proof (lenZ_nonneg (doc_Name doc)). cbn beta iota in Hs.
    apply (fillMatches_ok p _ true); try done; repeat constructor; unfold cm_ok, cm_end, nameCandidate; cbn [cm_byteOffset cm_byteMatchSz];
      rewrite ?(u32_id (lenZ _)) by (u32_unfold; lia); u32_unfold; lia. }
  rewrite E. cbn [mbind res_bind]. destruct (orderLines _ _ _ _) as [mx ls']. destruct (gatherBranches_ok t known) as (brs & ->). cbn [mbind res_bind].
  destruct whole.
  - destruct (data_keeps p' false Hp') as (beyond & p2 & -> & _). by eexists.
  - by eexists.
Qed.

(** The queries of the substring nodes never change. *)
Fixpoint node_queries (t : matchTree) : list Substring :=
  match t with
  | andMatchTree _ cs | orMatchTree _ cs => mjoin (map node_queries cs)
  | notMatchTree _ c | noVisitMatchTree _ c => node_queries c
  | substrMatchTree _ _ q _ _ _ _ => [q]
  | _ => []
  end.
Lemma prepare_queries t k t' : mt_prepare t k = Ok t' → node_queries t' = node_queries t.
Proof.
  revert t'. induction t as [j cs IH|j cs IH|j c IH|j c IH|j l x|j a e|j re fn ev fd a e|j it q cs fn cur ev|j ms m a e|j t]
    using matchTree_ind'; intros t' Ht; cbn [mt_prepare] in Ht.
  1, 2: apply bind_Ok in Ht as (cs' & Hcs & [= <-]); cbn [node_queries]; revert cs' Hcs;
    induction IH as [|c cs Hc _ IHcs]; intros cs' Hcs; cbn [prepareAll] in Hcs; [by injection Hcs as <-|];
    apply bind_Ok in Hcs as (c' & Hc' & Hcs); apply bind_Ok in Hcs as (cs'' & Hcs' & [= <-]);
    cbn [map]; by rewrite !mjoin_cons, (Hc _ Hc'), (IHcs _ Hcs').
  3: by destruct (splitDocs k (dropDocs k l)); injection Ht as <-.
  5: { apply bind_Ok in Ht as (it' & _ & Ht). apply bind_Ok in Ht as ([cur' it''] & _ & [= <-]). done. }
  1, 2: apply bind_Ok in Ht as (c' & Hc & [= <-]); cbn [node_queries]; auto.
  all: by injection Ht as <-.
Qed.
Lemma nextDoc_queries t m t' : mt_nextDoc t = Ok (m, t') → node_queries t' = node_queries t.
Proof.
  revert m t'. induction t as [j cs IH|j cs IH|j c IH|j c IH|j l k|j a e|j re fn ev fd a e|j it q cs fn cur ev|j ms x a e|j t]
    using matchTree_ind'; intros m t' Ht; cbn [mt_nextDoc] in Ht.
  1, 2: apply bind_Ok in Ht as ([m' cs'] & Hcs & [= <- <-]); cbn [node_queries]; revert m' cs' Hcs;
    match goal with |- context [nextAll _ _ ?b _] => generalize b end;
    induction IH as [|c cs Hc _ IHcs]; intros best m' cs' Hcs; cbn [nextAll] in Hcs; [by injection Hcs as <- <-|];
    apply bind_Ok in Hcs as ([x c'] & Hc' & Hcs); apply bind_Ok in Hcs as ([y cs''] & Hcs' & [= <- <-]);
    cbn [map]; rewrite !mjoin_cons, (Hc _ _ Hc'); f_equal; by eapply IHcs.
  2: { apply bind_Ok in Ht as ([m' c'] & Hc & [= <- <-]). cbn [node_queries]. eauto. }
  5: { apply bind_Ok in Ht as ([m' it'] & _ & [= <- <-]). done. }
  all: by injection Ht as <- <-.
Qed.
Lemma erase_queries t : node_queries (erase t) = node_queries t.
Proof.
  induction t as [j cs IH|j cs IH|j c IH|j c IH| | | | | |] using matchTree_ind'; try done; cbn [erase node_queries];
    rewrite map_map; f_equal; apply map_ext_in; intros x Hx; rewrite Forall_forall in IH; apply IH; by apply list_elem_of_In.
Qed.

Definition searched_query (s : Substring) : Prop := substring_ok s ∧ 1 <= RuneCount (Pattern s).
Definition queries_fine (t : matchTree) : Prop := Forall searched_query (node_queries t).

Lemma newSubstring_queries s k t k' : substring_ok s → newSubstringMatchTree d s k = Ok (t, k') → queries_fine t.
Proof.
  intros Hs. unfold newSubstringMatchTree. destruct (Z.ltb_spec (RuneCount (Pattern s)) ngramSize) as [|Hge];
    intros E; apply bind_Ok in E as (r & _ & [= <- <-]); [constructor|]. apply Forall_singleton. split; [done|]. unfold ngramSize in Hge. lia.
Qed.
Lemma newLeaf_queries sub (P : Q → Prop) : (∀ q k t k', Forall P (VisitAtoms q) → sub q k = Ok (t, k') → queries_fine t) →
  ∀ q k t k', (match q with
               | QSubstring s | QSymbol s => substring_ok s
               | QRegexp re filename _ cs => ∀ subQ, RegexpToQuery re ngramSize = Ok subQ → Forall P (VisitAtoms (Map subQ (inherit filename cs)))
               | _ => True
               end) → newLeaf d reString sub q k = Ok (t, k') → queries_fine t.
Proof.
  intros Hsub q k t k' HP E. destruct q; cbn [newLeaf] in E; try done.
  - apply bind_Ok in E as (subQ & HQ & E). apply bind_Ok in E as ([st k1] & Ht & E). apply bind_Ok in E as (re' & _ & [= <- <-]).
    unfold queries_fine. cbn [node_queries map]. rewrite mjoin_cons. simpl. rewrite app_nil_r. eapply Hsub; [|exact Ht]. by apply HP.
  - apply bind_Ok in E as ([st k1] & Ht & E). apply newSubstring_queries in Ht; [|done]. repeat case_match; try done. by injection E as <- <-.
  - case_match; injection E as <- <-; constructor.
  - case_match; injection E as <- <-; constructor.
  - by eapply newSubstring_queries.
  - injection E as <- <-. constructor.
Qed.

Lemma queries_junction j cs : Forall queries_fine cs → queries_fine (andMatchTree j cs) ∧ queries_fine (orMatchTree j cs).
Proof.
  unfold queries_fine. cbn [node_queries]. intros Hcs. assert (Forall searched_query (mjoin (map node_queries cs))); [|done].
  induction Hcs as [|c cs Hc _ IH]; [constructor|]. cbn [map]. rewrite mjoin_cons. by apply Forall_app.
Qed.
Lemma newMatchTree_queries q k t k' : Forall leaf_fine (VisitAtoms q) → newMatchTree d reString q k = Ok (t, k') → queries_fine t.
Proof.
  intros Hq. eapply (buildTree_all queries_fine); [apply queries_junction|done| |exact Hq]. intros a n st n' Ha.
  apply (newLeaf_queries _ literal_fine).
  - intros p m u m' Hp. eapply (buildTree_all queries_fine); [apply queries_junction|done| |exact Hp].
    intros x y z w Hx. apply (newLeaf_queries _ (λ _, False)); [done|]. by destruct x.
  - destruct a; try done; cbn [leaf_fine] in Ha; [|by destruct Ha]. intros subQ HQ.
    rewrite VisitAtoms_inherit, Forall_fmap. pose proof (RegexpToQuery_atoms _ _ _ HQ) as Hat. apply Forall_forall. intros y Hy.
    rewrite Forall_forall in Hat. specialize (Hat y Hy). destruct y; try done. cbn [compose inherit literal_fine]. by eapply (rg_literals _ _ _ Ha).
Qed.
Lemma reached_queries q t : Forall leaf_fine (VisitAtoms q) → reached d reString q t → queries_fine t.
Proof.
  intros Hq. unfold queries_fine. induction 1 as [t n Hn|t m t' _ IH Hn|t k t' _ IH Hp|t p v s t' _ IH Hdec].
  - by eapply newMatchTree_queries.
  - by rewrite (nextDoc_queries _ _ _ Hn).
  - by rewrite (prepare_queries _ _ _ Hp).
  - by rewrite <- erase_queries, (costLoop_erase _ _ _ _ _ _ _ _ Hdec), erase_queries.
Qed.

(** A tree that was moved to the document. *)
Lemma prepare_lies last t t' : last < Z.of_nat i → wf d (lenZ docs) last t → queries_fine t → mt_prepare t (Z.of_nat i) = Ok t' → tree_lies t'.
Proof.
  intros Hlast. pose proof (lookup_lt_Some _ _ _ Hi) as Hlt. revert t'.
  assert (∀ cs, Forall (λ t, ∀ t', wf d (lenZ docs) last t → queries_fine t → mt_prepare t (Z.of_nat i) = Ok t' → tree_lies t') cs →
    Forall (wf d (lenZ docs) last) cs → Forall searched_query (mjoin (map node_queries cs)) →
    ∀ cs', prepareAll mt_prepare (Z.of_nat i) cs = Ok cs' → Forall tree_lies cs') as Hcs.
  { induction 1 as [|c cs Hc _ IH]; intros Hw Hq cs' E; cbn [prepareAll] in E; [by injection E as <-|]. apply Forall_cons in Hw as [Hw1 Hw2].
    cbn [map] in Hq. rewrite mjoin_cons in Hq. apply Forall_app in Hq as [Hq1 Hq2].
    apply bind_Ok in E as (c' & Hc' & E). apply bind_Ok in E as (cs'' & Hcs' & [= <-]). constructor; [by eapply Hc|by eapply IH]. }
  induction t as [j cs IH|j cs IH|j c IH|j c IH|j l x|j a e|j re fn ev fd a e|j it q cs fn cur ev|j ms m a e|j t]
    using matchTree_ind'; intros t' Hw Hq Ht; cbn [mt_prepare wf] in Ht, Hw.
  - apply bind_Ok in Ht as (cs' & Hcs' & [= <-]). cbn [tree_lies]. apply foldr_lies. eapply Hcs; [exact IH|by apply foldr_wf|exact Hq|exact Hcs'].
  - apply bind_Ok in Ht as (cs' & Hcs' & [= <-]). cbn [tree_lies]. apply foldr_lies. eapply Hcs; [exact IH|by apply foldr_wf|exact Hq|exact Hcs'].
  - apply bind_Ok in Ht as (c' & Hc & [= <-]). cbn [tree_lies]. apply IH; [exact Hw|exact Hq|exact Hc].
  - apply bind_Ok in Ht as (c' & Hc & [= <-]). cbn [tree_lies]. apply IH; [exact Hw|exact Hq|exact Hc].
  - by destruct (splitDocs _ _); injection Ht as <-.
  - by injection Ht as <-.
  - injection Ht as <-. cbn [tree_lies]. constructor.
  - destruct Hw as (cands & Inv & Hst & Hinv & Hsh). destruct (st_prepare _ _ _ Hst _ _ (Z.of_nat i) Hinv) as (i1 & i2 & E1 & E2 & _); [unfold lenZ; lia|].
    rewrite E1 in Ht. cbn [mbind res_bind] in Ht. rewrite E2 in Ht. cbn [mbind res_bind] in Ht. injection Ht as <-.
    apply Forall_singleton in Hq as [Hs Hlen]. destruct (prune_exact q i doc _ Hi Hs Hlen (Hsh _)) as (pruned & Ep & Hin & _).
    cbn [tree_lies]. split; [|by exists pruned]. eapply Forall_impl; [apply Hsh|]. intros m (_ & _ & _ & _ & E5 & E6 & _).
    unfold lies_in, cm_end. rewrite E5, E6. pose proof (lenZ_nonneg (text (cm_fileName m) doc)). lia.
  - by injection Ht as <-.
  - by injection Ht as <-.
Qed.

Lemma setDocument_serves p p' : setDocument d p (Z.of_nat i) = Ok p' → serves p'.
Proof.
  unfold setDocument. intros E. apply bind_Ok in E as (x & Hx & E). apply bind_Ok in E as (y & Hy & [= <-]).
  split; cbn [cp_idx cp_fileSize cp__data cp__nl]; try (by left); [done|].
  pose proof (lookup_lt_Some _ _ _ Hi). pose proof (so_count _ _ _ Hd) as Hcnt. unfold lenZ in Hcnt.
  assert ((doc_Content <$> docs) !! i = Some (doc_Content doc)) as Ht by (by rewrite list_lookup_fmap, Hi).
  destruct (boundaries_lookup _ _ _ Ht) as [Hb1 Hb2]. rewrite (so_boundaries _ _ _ Hd) in Hx, Hy.
  rewrite (index_nat _ _ _ Hb1) in Hx. injection Hx as <-.
  rewrite u32_id in Hy by (u32_unfold; lia). replace (Z.of_nat i + 1) with (Z.of_nat (S i)) in Hy by lia.
  rewrite (index_nat _ _ _ Hb2) in Hy. injection Hy as <-. rewrite Z.add_simpl_l.
  pose proof (text_small false). pose proof (lenZ_nonneg (doc_Content doc)). apply u32_id. u32_unfold. simpl in *. lia.
Qed.
End Document.

(** ** The search of a shard *)

Context `{SortAlg}.
Context (Hindex : ∀ path s, default ∅ (b_subRepoIndices b) !! path = Some s →
  0 <= s < lenZ (map_to_list (default ∅ (r_SubRepoMap (b_repo b))))).
Context (Hcount : lenZ (map_to_list (default ∅ (r_SubRepoMap (b_repo b)))) < two32).
Context (Hsubs : ∀ path sr, default ∅ (r_SubRepoMap (b_repo b)) !! path = Some sr → (length branches <= length (r_Branches sr))%nat).

Lemma leaf_fine_ok q : leaf_fine q → leaf_ok docs (λ q, Forall (leaf_ok docs (λ _, True)) (VisitAtoms q)) q.
Proof.
  destruct q; try done; cbn [leaf_fine leaf_ok].
  - intros Hre subQ HQ. rewrite VisitAtoms_inherit, Forall_fmap. pose proof (RegexpToQuery_atoms _ _ _ HQ) as Hat.
    apply Forall_forall. intros y Hy. rewrite Forall_forall in Hat. specialize (Hat y Hy). destruct y; try done.
    cbn [compose inherit leaf_ok]. apply (sb_fits _ (rg_literals _ _ _ Hre _ _ HQ Hy)).
  - intros (Hs & Hfn & _). split; [done|]. apply (sb_fits _ Hs).
  - intros Hs. apply (sb_fits _ Hs).
Qed.

Lemma fails_nowhere {A} q opts total doc (m : res A) : Forall leaf_fine (VisitAtoms q) → 0 <= doc < lenZ docs →
  ¬ fails_at d reString q opts total doc m.
Proof.
  intros Hq Hr (last & t1 & p1 & t0 & p0 & t & known & p & Hreach & Hw & Hlast & Hprep & Hset & Hdec & Hm). rewrite ?(so_maskCount _ _ _ Hd) in Hw.
  destruct (lookup_lt_is_Some_2 docs (Z.to_nat doc)) as [dc Hdc]; [unfold lenZ in *; lia|].
  set (i := Z.to_nat doc) in *. replace doc with (Z.of_nat i) in * by (unfold i; lia).
  assert (queries_fine t1) as Ht1. { unfold queries_fine. rewrite <- (prepare_queries _ _ _ Hprep). by eapply reached_queries. }
  pose proof (prepare_lies _ _ Hdc _ _ _ Hlast Hw Ht1 Hprep) as Hl0. pose proof (setDocument_serves _ _ Hdc _ _ Hset) as Hp0.
  destruct (decideDoc_lies _ _ Hdc _ _ _ _ _ _ Hp0 Hl0 Hdec) as [Hp Hl].
  destruct (fileMatchOf_ok _ _ Hdc Hindex Hcount Hsubs (so_Whole opts) total t known p Hp Hl) as (r & E). by rewrite E in Hm.
Qed.

Lemma filter_false {A} (P : A → bool) l : (∀ x, x ∈ l → P x = false) → filter (λ x, P x = true) l = [].
Proof.
  induction l as [|x l IH]; intros HP; [done|]. rewrite filter_cons, decide_False.
  - apply IH. intros y Hy. apply HP. by right.
  - rewrite HP; [done|left].
Qed.
Lemma matching_docs (P : Document → bool) (stop : nat) : (stop <= length docs)%nat →
  Forall2 (λ i doc, docs !! Z.to_nat i = Some doc)
    (matching (λ i, if docs !! Z.to_nat i is Some doc then P doc else false) (-1) (Z.of_nat stop))
    (filter (λ doc, P doc = true) (take stop docs)).
Proof.
  unfold matching. replace (Z.of_nat stop - -1 - 1) with (Z.of_nat stop) by lia. change (-1 + 1) with 0.
  induction stop as [|k IH]; intros Hk; [constructor|]. destruct (lookup_lt_is_Some_2 docs k Hk) as [doc Hdoc].
  replace (Z.of_nat (S k)) with (Z.of_nat k + 1) by lia. rewrite seqZ_app, (take_S_r _ _ _ Hdoc), !filter_app by lia.
  apply Forall2_app; [apply IH; lia|]. rewrite Z.add_0_l, seqZ_cons by lia. rewrite seqZ_nil by lia.
  rewrite !filter_cons, Nat2Z.id, Hdoc. destruct (decide (P doc = true)); repeat constructor. by rewrite Nat2Z.id.
Qed.

(** Some limit of the search was reached. *)
Definition limited (ctx : nat → bool) (opts : SearchOptions) (r : SearchResult) : Prop :=
  (∃ k, ctx k = true) ∨ so_ShardMaxMatchCount (SetDefaults opts) <= MatchCount (sr_Stats r) ∨
  so_ShardMaxImportantMatch (SetDefaults opts) <= important_files (sr_Files r).

Lemma Search_means ctx q opts : docs ≠ [] → ctx 0%nat = false → so_EstimateDocCount opts = false → query_fine q →
  ∃ r (stop : nat), Search d reString ctx q opts = Ok r ∧ (stop <= length docs)%nat ∧
    (fm_FileName <$> sr_Files r) ≡ₚ (doc_Name <$> filter (λ doc, satisfies q doc = true) (take stop docs)) ∧
    ((stop < length docs)%nat → limited ctx opts r).
Proof.
  intros Hne Hctx Hopt Hq. destruct (Simplify_spec (λ _, true) (Map q (simplifyAtom d))) as (q' & Eq & _).
  change (Simplify (Map q (simplifyAtom d))) with (simplify d q) in Eq.
  pose proof (λ doc Hdoc, simplify_means q q' doc Hdoc Hq Eq) as Hmean.
  destruct (simplified_atoms q q' Hq Eq) as [Hs Hn]. pose proof (expanded_fine q' Hs Hn) as Hfine.
  assert (q' = QConst false ∨ q' ≠ QConst false) as [->|Hq0] by (destruct q' as [| | | | |[]| | | | | | | |]; auto).
  { exists (emptyResult stats0), (length docs). split_and!; [|done| |lia].
    - unfold Search. rewrite Hctx, Eq. cbn [mbind res_bind]. by destruct (_ =? _).
    - rewrite firstn_all, filter_false; [done|]. intros doc Hdoc. by rewrite <- Hmean. }
  destruct (newMatchTree_means (Map q' ExpandFileContent) 0 Hfine) as (t & k & Ht & Hmt).
  set (f i := if docs !! Z.to_nat i is Some doc then satisfies q doc else false).
  assert (∀ i, 0 <= i < lenZ docs → sem d t i = Ok (f i)) as Hf.
  { intros i Hi. destruct (lookup_lt_is_Some_2 docs (Z.to_nat i)) as [doc Hdoc]; [unfold lenZ in *; lia|].
    pose proof (Hmt _ _ Hdoc) as Hsem. rewrite Z2Nat.id in Hsem by lia. rewrite Hsem, Hmean by (by eapply list_elem_of_lookup_2).
    unfold f. by rewrite Hdoc. }
  assert (query_ok docs (Map q' ExpandFileContent)) as Hok by (eapply Forall_impl; [exact Hfine|]; apply leaf_fine_ok).
  pose proof (Search_walks d b docs reString ctx q q' opts t k f Hd sections_sorted Hne Hctx Hopt Eq Hq0 Hok Ht Hf) as Hw.
  destruct (Search d reString ctx q opts) as [r|e|w|] eqn:E;
    [|by destruct Hw as (doc & Hr & _ & []%fails_nowhere)..].
  destruct Hw as (stop & files & Hstop & Hperm & Hnamed & Hlim). exists r, (Z.to_nat stop).
  assert (Z.to_nat stop <= length docs)%nat as Hle by (unfold lenZ in *; lia). split_and!; [done|done| |].
  - rewrite Hperm. pose proof (matching_docs (satisfies q) (Z.to_nat stop) Hle) as Hm. fold f in Hm. rewrite Z2Nat.id in Hm by lia.
    assert (fm_FileName <$> files = doc_Name <$> filter (λ doc, satisfies q doc = true) (take (Z.to_nat stop) docs)) as ->; [|done].
    apply list_eq_Forall2, Forall2_fmap. clear - Hm Hnamed. revert Hm. generalize (filter (λ doc, satisfies q doc = true) (take (Z.to_nat stop) docs)).
    induction Hnamed as [|i fm l fms Hi _ IH]; intros ds Hm; inversion Hm; subst; constructor; [|auto]. simplify_eq.
    by match goal with E : docs !! _ = Some _ |- _ => rewrite E in Hi; injection Hi end.
  - intros Hlt. apply Hlim. unfold lenZ in *. lia.
Qed.
End Shard.

(** ** Properties *)

(** C1: the search of a shard finds the documents that satisfy the query. Let the
    shard answer for the documents that were added to a builder, with valid UTF-8
    names and contents. Then [Search] ends without an error or a panic,
    and the files of its result are, each once, the documents that satisfy the query, up to the document at which it
    was cancelled or had found as much as the options ask for. The meaning of a query ([satisfies]) mentions neither the index
    nor the match tree: substrings occur in the name or the contents up to case, symbols in a section,
    regular expressions match as package regexp says, branches and languages are those of the document.
    The hypotheses say that the symbol sections are aligned to runes and ordered, branch names distinct, that each
    sub-repository has the branches of the repository, that package regexp finds places in the text, and what the atoms
    of the query satisfy ([query_fine]). *)
Theorem Search_finds `{RegexpEngine} `{UnicodeCase} `{SortAlg} {F} `{IndexFileOk F}
    (validTemplate : bytes → bool) (Rel : bytes → bytes → option bytes)
    (d : indexData F) (b : IndexBuilder) (docs : list Document) (parts : list (list (nat * nat)))
    (reString : Regexp → bytes) (ctx : nat → bool) (q : Q) (opts : SearchOptions)
    (Hb : builds validTemplate Rel b docs) (Hd : shard_of d b docs) (Hse : searchable d docs) (Hparts : Forall2 aligned docs parts)
    (Hnames : NoDup (br_Name <$> r_Branches (b_repo b)))
    (Hcount : lenZ (map_to_list (default ∅ (r_SubRepoMap (b_repo b)))) < two32)
    (Hsubs : ∀ path sr, default ∅ (r_SubRepoMap (b_repo b)) !! path = Some sr →
       (length (r_Branches (b_repo b)) <= length (r_Branches sr))%nat)
    (Hfind : ∀ r t, Forall (λ ab, 0 <= fst ab <= snd ab ∧ snd ab <= lenZ t) (FindAllIndex r t))
    (Hq : query_fine d docs reString q)
    (Hne : docs ≠ []) (Hctx : ctx 0%nat = false) (Hopt : so_EstimateDocCount opts = false) :
  ∃ r (stop : nat), Search d reString ctx q opts = Ok r ∧ (stop <= length docs)%nat ∧
    (fm_FileName <$> sr_Files r) ≡ₚ (doc_Name <$> filter (λ doc, satisfies b reString q doc = true) (take stop docs)) ∧
    ((stop < length docs)%nat → limited ctx opts r).
Proof.
  destruct (builds_repo _ _ _ _ Hb) as [Hfew Hidx]. pose proof (se_size _ _ Hse) as Hsz.
  apply (Search_means d b docs Hd Hse parts Hparts); try done.
  - rewrite (so_runeDocSections _ _ _ Hd). apply (builds_sections _ _ _ _ _ Hb (Hsz false) (Hsz true) Hparts).
  - intros path s. rewrite Hidx. by apply subRepo_numbered.
Qed.

(** Witness: files with "main" in their name or contents, in any case, where no symbol matches "main", package regexp finds "ain"
    and the contents do not have "pack". *)
Definition toyLiteral : Regexp := RE OpLiteral false [] (str "ain") 0 0.
Definition toyMain : Substring := MkSubstring (str "main") false false false.
Definition toyPack : Substring := MkSubstring (str "pack") true false true.
Definition toyFindQuery : Q :=
  QAnd [QSubstring toyMain; QNot (QSubstring toyPack); QNot (QSymbol (MkSubstring (str "main") true false true));
        QRegexp toyLiteral false true true; QOr [QLanguage (str "c"); QBranch (str "HEAD")]].
Definition toyString (_ : Regexp) : bytes := str "ain".
Definition validb (t : bytes) : bool :=
  forallb (λ x, (0 <=? x) && (x <? 256)) t && forallb (λ x, negb (bool_decide (x = (RuneError, 1)))) (decode_all t).
Lemma validb_ok t : validb t = true → valid_text t.
Proof.
  unfold validb. rewrite andb_true_iff, !forallb_elem. intros [H1 H2]. split; apply Forall_forall; intros x Hx.
  - apply H1 in Hx. unfold is_u8. lia.
  - apply H2, negb_true_iff, bool_decide_eq_false in Hx. done.
Qed.

Lemma toyDocs_eq : toyDocs = [MkDocument (str "f1") (str "package main") [] [] (str "go") [] [DocSec 8 12];
                              MkDocument (str "f2") (str "int" ++ [10] ++ str "Main()") [] [] (str "c") [] []].
Proof. vm_compute. reflexivity. Qed.
Lemma toyDocs_all (P : Document → bool) : forallb P toyDocs = true → ∀ doc, doc ∈ toyDocs → P doc = true.
Proof. intros HP. by apply forallb_elem. Qed.
Lemma toySearchable : searchable toyShard toyDocs.
Proof.
  split.
  - intros doc Hdoc. assert (validb (doc_Name doc) && validb (doc_Content doc) = true) as [? ?]%andb_true_iff; [|by split; apply validb_ok].
    revert doc Hdoc. apply toyDocs_all. vm_compute. reflexivity.
  - left. vm_cast_no_check (eq_refl true).
  - intros []; vm_compute; reflexivity.
Qed.

(** The checks of a pattern of three or more ASCII runes, by evaluation. *)
Definition foldReaches (p c : Z) : bool :=
  negb (@ToLower unicode_latin p =? @ToLower unicode_latin c) || existsb (λ k, c =? Nat.iter k (@SimpleFold unicode_latin) p) (seq 0 3).
Definition toyPattern (s : Substring) : bool :=
  (3 <=? RuneCount (Pattern s)) && (lenZ (Pattern s) =? RuneCount (Pattern s)) && (lenZ (Pattern s) <? 100) && validb (Pattern s) &&
  forallb (λ r, bool_decide (valid_rune (@ToLower unicode_latin r)) && forallb (λ doc, forallb (foldReaches r) (runes (searched s doc))) toyDocs)
    (runes (Pattern s)).
Lemma toyPattern_ok s : toyPattern s = true → @substring_ok toyEngine unicode_latin _ _ toyShard toyDocs s.
Proof.
  unfold toyPattern. rewrite !andb_true_iff, forallb_elem. intros [[[[H3 Hl] Hb] Hv] Hf]. split.
  - intros filename. assert (sum_bytes ((λ doc, if filename : bool then doc_Name doc else doc_Content doc) <$> toyDocs) < 100); [|u32_unfold; lia].
    destruct filename; vm_compute; reflexivity.
  - by apply validb_ok.
  - intros _ r Hr. apply Hf, andb_true_iff in Hr as [Hr Hc]. apply bool_decide_eq_true in Hr. split; [done|]. intros doc c Hdoc Hin E.
    rewrite forallb_elem in Hc. apply Hc in Hdoc. rewrite forallb_elem in Hdoc. apply Hdoc in Hin. unfold foldReaches in Hin.
    rewrite orb_true_iff, negb_true_iff, Z.eqb_neq in Hin. destruct Hin as [|Hin]; [done|].
    apply existsb_exists in Hin as (k & _ & Hk). exists k. by apply Z.eqb_eq.
  - intros _. left. by apply Z.eqb_eq.
  - unfold ngramSize. lia.
Qed.

Lemma toyEngine_bounds r t : Forall (λ ab, 0 <= fst ab <= snd ab ∧ snd ab <= lenZ t) (@FindAllIndex toyEngine r t).
Proof.
  simpl. destruct (Z.leb_spec 0 (Index t r)) as [Hi|]; [|constructor]. apply Forall_singleton. simpl.
  destruct (Index_Some t r _ eq_refl Hi) as (tl & Ht & _). pose proof (lenZ_nonneg r). pose proof (lenZ_nonneg tl).
  assert (lenZ (drop (Z.to_nat (Index t r)) t) = lenZ r + lenZ tl) as Hl by (by rewrite Ht, lenZ_app).
  pose proof (Index_bounds t r). unfold lenZ in *. rewrite length_drop in Hl. lia.
Qed.
Lemma toyLiteral_ok : @regexp_ok toyEngine unicode_latin _ _ toyShard toyDocs toyString toyLiteral false true.
Proof.
  split.
  - reflexivity.
  - exists (str "ain"). split; [reflexivity|]. rewrite toyDocs_eq. intros doc Hdoc _.
    repeat (apply elem_of_cons in Hdoc as [->|Hdoc]); [..|by apply elem_of_nil in Hdoc].
    + exists (str "package m"), (str "ain"), []. split; [reflexivity|]. apply lang_literal. repeat constructor.
    + exists (str "int" ++ [10] ++ str "M"), (str "ain"), (str "()"). split; [reflexivity|]. apply lang_literal. repeat constructor.
  - intros subQ s HQ Hs. injection HQ as <-. apply list_elem_of_singleton in Hs. injection Hs as ->. apply toyPattern_ok. vm_compute. reflexivity.
Qed.
Lemma toyFindQuery_fine : @query_fine toyEngine unicode_latin _ _ toyShard toyDocs toyString toyFindQuery.
Proof.
  repeat (apply Forall_cons; split); [..|apply Forall_nil; done]; right; cbn [atom_fine FileName Content toyMain toyPack orb]; try done.
  - split; apply toyPattern_ok; vm_compute; reflexivity.
  - apply toyPattern_ok; vm_compute; reflexivity.
  - split; [apply toyPattern_ok; vm_compute; reflexivity|]. split; [done|]. vm_compute. discriminate.
  - exact toyLiteral_ok.
Qed.
Lemma toyRepo_eq : b_repo toyBuilder = toyRepository.
Proof. vm_compute. reflexivity. Qed.

Lemma Search_finds_witness :
  (doc_Name <$> filter (λ doc, @satisfies toyEngine unicode_latin toyBuilder toyString toyFindQuery doc = true) toyDocs) = [str "f2"] ∧
  ∃ r (stop : nat), @Eval.Search toyEngine unicode_latin merge_sort_alg _ _ toyShard toyString (λ _, false) toyFindQuery toyOptions = Ok r ∧
    (stop <= 2)%nat ∧
    (fm_FileName <$> sr_Files r) ≡ₚ (doc_Name <$> filter (λ doc, @satisfies toyEngine unicode_latin toyBuilder toyString toyFindQuery doc = true) (take stop toyDocs)) ∧
    ((stop < 2)%nat → limited (λ _, false) toyOptions r).
Proof.
  split; [vm_compute; reflexivity|].
  apply (@Search_finds toyEngine unicode_latin merge_sort_alg _ _ _ (λ _, true) (λ _ _, None) toyShard toyBuilder toyDocs [[(8, 12)]; []]%nat).
  - exact toyBuilder_builds.
  - exact toyShard_of.
  - exact toySearchable.
  - rewrite toyDocs_eq. repeat constructor; simpl; lia.
  - rewrite toyRepo_eq. constructor.
  - rewrite toyRepo_eq. vm_compute. reflexivity.
  - rewrite toyRepo_eq. intros path sr _. simpl. lia.
  - exact toyEngine_bounds.
  - exact toyFindQuery_fine.
  - rewrite toyDocs_eq. discriminate.
  - reflexivity.
  - reflexivity.
Defined.
