(* ===== verification/Shards.v ===== *)
(** * shards/shards.go: searching many shards

    The weighted semaphore of golang.org/x/sync used as a read-write lock, the
    shardedSearcher with its concurrent searches, listings and replacements as a step
    relation, and the aggregation of the results of the shards. *)

From S2P Require Import Prelude GoStd Bits Api Query Content.

(** ** semaphore.Weighted

    A waiter is the number of the goroutine that waits and its weight;
    [sm_ready] are the waiters whose channel has been closed and that have not run
    yet. *)
Record Weighted := MkWeighted {
  sm_size : Z;
  sm_cur : Z;
  sm_waiters : list (nat * Z);
  sm_ready : list (nat * Z) }.

Definition NewWeighted (n : Z) : Weighted := MkWeighted n 0 [] [].

(** Acquire up to the point where it returns or blocks: [true] if the semaphore
    was acquired. *)
Definition Acquire (s : Weighted) (tid : nat) (n : Z) : bool * Weighted :=
  if (n <=? sm_size s - sm_cur s) && bool_decide (sm_waiters s = []) then
    (true, MkWeighted (sm_size s) (sm_cur s + n) (sm_waiters s) (sm_ready s))
  else if sm_size s <? n then (false, s)
  else (false, MkWeighted (sm_size s) (sm_cur s) (sm_waiters s ++ [(tid, n)]) (sm_ready s)).

(** The loop of Release. *)
Fixpoint notify (size cur : Z) (waiters ready : list (nat * Z)) : Weighted :=
  match waiters with
  | [] => MkWeighted size cur [] ready
  | w :: rest =>
    if size - cur <? snd w then MkWeighted size cur waiters ready
    else notify size (cur + snd w) rest (ready ++ [w])
  end.
Definition Release (s : Weighted) (n : Z) : res Weighted :=
  let cur := sm_cur s - n in
  if cur <? 0 then Panic "semaphore: bad release"
  else Ok (notify (sm_size s) cur (sm_waiters s) (sm_ready s)).

(** A waiter sees its channel closed, or its context done before that. *)
Definition wake (s : Weighted) (tid : nat) : Weighted :=
  MkWeighted (sm_size s) (sm_cur s) (sm_waiters s) (filter (λ w, fst w ≠ tid) (sm_ready s)).
Definition leave (s : Weighted) (tid : nat) : Weighted :=
  MkWeighted (sm_size s) (sm_cur s) (filter (λ w, fst w ≠ tid) (sm_waiters s)) (sm_ready s).

(** ** The searcher *)

(** A loaded shard is known by its handle. *)
Record rankedShard := RankedShard { rk_Searcher : nat; rk_rank : Z }.

(** The goroutines of one search or listing that are still going through shards:
    what is left in the feeder, the shards being searched, and the results that have
    been sent but not received. *)
Record crew := Crew { cw_feeder : list nat; cw_busy : list nat; cw_sent : list nat }.

Inductive thread :=
| Reader                          (** before rlock *)
| ReaderWaits                     (** blocked in rlock *)
| Reads (c : crew)                (** under rlock, collecting results *)
| Returned (c : crew)             (** has released the lock; its goroutines may still run *)
| Writer (key : bytes) (shard : option rankedShard)       (** before lock in replace *)
| WriterWaits (key : bytes) (shard : option rankedShard)
| Writes (key : bytes) (shard : option rankedShard)       (** under lock *)
| Wrote                           (** the map is updated; before unlock *)
| Done.

Record shardedSearcher := SS {
  ss_throttle : Weighted;
  ss_capacity : Z;
  ss_shards : gmap bytes rankedShard;
  ss_closed : gset nat;
  ss_next : nat;
  ss_threads : list thread }.

Definition newShardedSearcher (n : Z) : shardedSearcher := SS (NewWeighted n) n ∅ ∅ 0 [].

Definition set_thread (s : shardedSearcher) (w : Weighted) (tid : nat) (t : thread) : shardedSearcher :=
  SS w (ss_capacity s) (ss_shards s) (ss_closed s) (ss_next s) (<[tid := t]> (ss_threads s)).

Section Sharded.
Context `{SortAlg}.

Definition getShards (shards : gmap bytes rankedShard) : list rankedShard :=
  go_sort (λ a b, rk_rank b <? rk_rank a) (snd <$> map_to_list shards).

(** The body of replace, between lock and unlock. *)
Definition replace (s : shardedSearcher) (key : bytes) (shard : option rankedShard) : shardedSearcher :=
  let closed := match ss_shards s !! key with Some old => {[ rk_Searcher old ]} ∪ ss_closed s | None => ss_closed s end in
  let shards := match shard with None => delete key (ss_shards s) | Some sh => <[key := sh]> (ss_shards s) end in
  SS (ss_throttle s) (ss_capacity s) shards closed (ss_next s) (ss_threads s).

(** The goroutines of a reader at its start. *)
Definition start (shards : gmap bytes rankedShard) : crew := Crew (rk_Searcher <$> getShards shards) [] [].

(** [fails tid h]: the search of the shard [h] for the request [tid] returns an error. *)
Context (fails : nat → nat → bool).

(** New requests: a search or a listing, a file that has been loaded, one that is
    gone. *)
Inductive arrive : shardedSearcher → shardedSearcher → Prop :=
| arrive_reader s :
    arrive s (SS (ss_throttle s) (ss_capacity s) (ss_shards s) (ss_closed s) (ss_next s) (ss_threads s ++ [Reader]))
| arrive_loaded s key rank :
    arrive s (SS (ss_throttle s) (ss_capacity s) (ss_shards s) (ss_closed s) (S (ss_next s))
                (ss_threads s ++ [Writer key (Some (RankedShard (ss_next s) rank))]))
| arrive_dropped s key :
    arrive s (SS (ss_throttle s) (ss_capacity s) (ss_shards s) (ss_closed s) (ss_next s) (ss_threads s ++ [Writer key None])).

(** The context of a waiting reader is done. A writer has context.Background(). *)
Inductive cancel : shardedSearcher → shardedSearcher → Prop :=
| cancel_rlock s tid :
    ss_threads s !! tid = Some ReaderWaits → (tid, 1) ∉ sm_ready (ss_throttle s) →
    cancel s (set_thread s (leave (ss_throttle s) tid) tid Done).

Inductive advance : shardedSearcher → shardedSearcher → Prop :=
(* rlock and lock *)
| adv_rlock s tid ok w :
    ss_threads s !! tid = Some Reader → Acquire (ss_throttle s) tid 1 = (ok, w) →
    advance s (set_thread s w tid (if ok then Reads (start (ss_shards s)) else ReaderWaits))
| adv_rlocked s tid :
    ss_threads s !! tid = Some ReaderWaits → (tid, 1) ∈ sm_ready (ss_throttle s) →
    advance s (set_thread s (wake (ss_throttle s) tid) tid (Reads (start (ss_shards s))))
| adv_lock s tid key shard ok w :
    ss_threads s !! tid = Some (Writer key shard) → Acquire (ss_throttle s) tid (ss_capacity s) = (ok, w) →
    advance s (set_thread s w tid (if ok then Writes key shard else WriterWaits key shard))
| adv_locked s tid key shard :
    ss_threads s !! tid = Some (WriterWaits key shard) → (tid, ss_capacity s) ∈ sm_ready (ss_throttle s) →
    advance s (set_thread s (wake (ss_throttle s) tid) tid (Writes key shard))
(* a goroutine takes a shard; once a search has returned its context is done and the
   shard is not looked at, but the goroutines of a listing go on *)
| adv_take s tid c h feeder :
    ss_threads s !! tid = Some (Reads c) → cw_feeder c = h :: feeder →
    advance s (set_thread s (ss_throttle s) tid (Reads (Crew feeder (h :: cw_busy c) (cw_sent c))))
| adv_take_late s tid c h feeder (listing : bool) :
    ss_threads s !! tid = Some (Returned c) → cw_feeder c = h :: feeder →
    advance s (set_thread s (ss_throttle s) tid
      (Returned (if listing then Crew feeder (h :: cw_busy c) (cw_sent c) else Crew feeder (cw_busy c) (h :: cw_sent c))))
(* it sends the result *)
| adv_finish s tid t c h :
    ss_threads s !! tid = Some t → (t = Reads c ∨ t = Returned c) → h ∈ cw_busy c →
    let c' := Crew (cw_feeder c) (filter (λ x, x ≠ h) (cw_busy c)) (h :: cw_sent c) in
    advance s (set_thread s (ss_throttle s) tid (match t with Reads _ => Reads c' | _ => Returned c' end))
(* the loop over the results *)
| adv_receive s tid c h :
    ss_threads s !! tid = Some (Reads c) → h ∈ cw_sent c → fails tid h = false →
    advance s (set_thread s (ss_throttle s) tid (Reads (Crew (cw_feeder c) (cw_busy c) (filter (λ x, x ≠ h) (cw_sent c)))))
| adv_receive_error s tid c h w :
    ss_threads s !! tid = Some (Reads c) → h ∈ cw_sent c → fails tid h = true → Release (ss_throttle s) 1 = Ok w →
    advance s (set_thread s w tid (Returned c))
| adv_return s tid c w :
    ss_threads s !! tid = Some (Reads c) → cw_feeder c = [] → cw_busy c = [] → cw_sent c = [] →
    Release (ss_throttle s) 1 = Ok w → advance s (set_thread s w tid (Returned c))
(* replace *)
| adv_write s tid key shard :
    ss_threads s !! tid = Some (Writes key shard) →
    advance s (set_thread (replace s key shard) (ss_throttle s) tid Wrote)
| adv_unlock s tid w :
    ss_threads s !! tid = Some Wrote → Release (ss_throttle s) (ss_capacity s) = Ok w →
    advance s (set_thread s w tid Done).

Definition step (s s' : shardedSearcher) : Prop := arrive s s' ∨ cancel s s' ∨ advance s s'.
Definition reachable (n : Z) : shardedSearcher → Prop := rtc step (newShardedSearcher n).
End Sharded.

(** ** The lock *)

Definition total (l : list Z) : Z := foldr Z.add 0 l.

Lemma total_app a b : total (a ++ b) = total a + total b.
Proof. unfold total. induction a as [|x a IH]; simpl; lia. Qed.
Lemma total_insert l (i : nat) x y : l !! i = Some x → total (<[i := y]> l) = total l - x + y.
Proof.
  unfold total. revert i. induction l as [|z l IH]; intros [|i] Hi; simpl in *; try done; [injection Hi as ->; lia|].
  rewrite (IH i Hi). lia.
Qed.
Lemma total_nonneg l : Forall (λ y, 0 <= y) l → 0 <= total l.
Proof. unfold total. induction 1 as [|y l Hy _ IH]; simpl; lia. Qed.
Lemma total_elem l x : Forall (λ y, 0 <= y) l → x ∈ l → x <= total l.
Proof.
  induction 1 as [|y l Hy Hl IH]; intros Hx; [by apply not_elem_of_nil in Hx|].
  pose proof (total_nonneg l Hl). change (total (y :: l)) with (y + total l).
  apply elem_of_cons in Hx as [->|Hx]; [lia|]. specialize (IH Hx). lia.
Qed.

(** The waiters, served or not, in the order in which they came. *)
Definition queue (s : Weighted) : list (nat * Z) := sm_ready s ++ sm_waiters s.

(** [held] is the weight in the hands of goroutines that run. No wakeup is lost: the
    first waiter does not fit. *)
Record sem_ok (s : Weighted) (held : Z) : Prop := {
  so_cur : sm_cur s = held + total (snd <$> sm_ready s);
  so_held : 0 <= held;
  so_bound : sm_cur s <= sm_size s;
  so_weights : Forall (λ w, 1 <= snd w <= sm_size s) (queue s);
  so_nodup : NoDup (fst <$> queue s);
  so_front : match sm_waiters s with w :: _ => sm_size s - sm_cur s < snd w | [] => True end }.

Lemma enqueue_ok s held tid n :
  sem_ok s held → 1 <= n <= sm_size s → tid ∉ fst <$> queue s → (sm_waiters s = [] → sm_size s - sm_cur s < n) →
  let w := MkWeighted (sm_size s) (sm_cur s) (sm_waiters s ++ [(tid, n)]) (sm_ready s) in
  sem_ok w held ∧ queue w = queue s ++ [(tid, n)].
Proof.
  intros [Hc Hh Hb Hw Hn Hf] Hsz Hq He w.
  assert (queue w = queue s ++ [(tid, n)]) as Hqw by (unfold queue; simpl; by rewrite app_assoc).
  split; [|done]. split; rewrite ?Hqw; try done.
  - apply Forall_app. split; [done|]. by constructor.
  - rewrite fmap_app. apply NoDup_app. split; [done|]. split; [|apply NoDup_singleton].
    intros x Hx ->%list_elem_of_singleton. done.
  - simpl. destruct (sm_waiters s); [by apply He|done].
Qed.

Lemma Acquire_ok s held tid n ok w :
  sem_ok s held → 1 <= n <= sm_size s → tid ∉ fst <$> queue s → Acquire s tid n = (ok, w) →
  sm_size w = sm_size s ∧
  if ok then sem_ok w (held + n) ∧ queue w = queue s else sem_ok w held ∧ queue w = queue s ++ [(tid, n)].
Proof.
  intros Hs Hsz Hq. unfold Acquire. destruct (Z.ltb_spec (sm_size s) n); [lia|].
  destruct (Z.leb_spec n (sm_size s - sm_cur s)), (bool_decide_reflect (sm_waiters s = [])) as [E|E]; cbn [andb];
    intros Ha; injection Ha as <- <-; (split; [done|]); try (apply enqueue_ok; by try lia).
  split; [|done]. destruct Hs as [Hc Hh Hb Hw Hn Hf]. split; unfold queue in *; simpl; try done; [lia..|]. by rewrite E.
Qed.

Lemma notify_ok size held : ∀ waiters cur ready,
  cur = held + total (snd <$> ready) → 0 <= held → cur <= size → Forall (λ w, 1 <= snd w <= size) (ready ++ waiters) →
  NoDup (fst <$> ready ++ waiters) →
  let w := notify size cur waiters ready in
  sem_ok w held ∧ queue w = ready ++ waiters ∧ sm_size w = size.
Proof.
  induction waiters as [|x waiters IH]; intros cur ready Hc Hh Hb Hw Hn; cbn [notify].
  - split; [by split|done].
  - destruct (Z.ltb_spec (size - cur) (snd x)); [split; [by split|done]|].
    replace (ready ++ x :: waiters) with ((ready ++ [x]) ++ waiters) in * by (by rewrite <- app_assoc).
    apply IH; try done; [|lia]. rewrite fmap_app, total_app. unfold total at 2. simpl. lia.
Qed.

Lemma Release_ok s held n : sem_ok s held → 0 <= n <= held →
  ∃ w, Release s n = Ok w ∧ sem_ok w (held - n) ∧ queue w = queue s ∧ sm_size w = sm_size s.
Proof.
  intros [Hc Hh Hb Hw Hn Hf] Hr. unfold Release.
  assert (0 <= total (snd <$> sm_ready s)).
  { unfold queue in Hw. apply Forall_app in Hw as [Hw _]. apply total_nonneg, Forall_fmap.
    eapply Forall_impl; [exact Hw|]. simpl. lia. }
  destruct (Z.ltb_spec (sm_cur s - n) 0); [lia|]. eexists. split; [done|]. apply notify_ok; unfold queue in *; done || lia.
Qed.

Lemma wake_ok s held tid n : sem_ok s held → (tid, n) ∈ sm_ready s →
  sem_ok (wake s tid) (held + n) ∧ queue (wake s tid) = filter (λ w, fst w ≠ tid) (queue s) ∧ sm_size (wake s tid) = sm_size s.
Proof.
  intros [Hc Hh Hb Hw Hn Hf] Hin. unfold queue in Hw, Hn.
  apply list_elem_of_split in Hin as (l1 & l2 & E). rewrite E in Hc, Hw, Hn.
  rewrite <- app_assoc, fmap_app in Hn. apply NoDup_app in Hn as (Hn1 & Hn12 & Hn2). simpl in Hn2.
  apply NoDup_cons in Hn2 as [Hn3 Hn2].
  assert (filter (λ w, fst w ≠ tid) l1 = l1) as F1.
  { apply filter_all. intros [x y] Hx E1; simpl in E1; subst x. apply (Hn12 tid); [|by left]. apply list_elem_of_fmap. by exists (tid, y). }
  assert (filter (λ w, fst w ≠ tid) (l2 ++ sm_waiters s) = l2 ++ sm_waiters s) as F2.
  { apply filter_all. intros [x y] Hx E1; simpl in E1; subst x. apply Hn3. apply list_elem_of_fmap. by exists (tid, y). }
  assert (filter (λ w, fst w ≠ tid) l2 = l2 ∧ filter (λ w, fst w ≠ tid) (sm_waiters s) = sm_waiters s) as [F3 F4].
  { rewrite filter_app in F2. apply app_inj_1 in F2; [done|]. apply (f_equal length) in F2. rewrite !length_app in F2.
    pose proof (length_filter (λ w : nat * Z, fst w ≠ tid) l2). pose proof (length_filter (λ w : nat * Z, fst w ≠ tid) (sm_waiters s)).
    lia. }
  assert (sm_ready (wake s tid) = l1 ++ l2) as Hr.
  { simpl. rewrite E, filter_app, filter_cons, F1. by rewrite decide_False, F3 by (simpl; congruence). }
  assert (queue (wake s tid) = l1 ++ l2 ++ sm_waiters s) as Hq by (unfold queue; rewrite Hr; simpl; by rewrite app_assoc).
  rewrite <- app_assoc in Hw. apply Forall_app in Hw as [Hw1 Hw2]. apply Forall_cons in Hw2 as [Hw3 Hw2]. simpl in Hw3.
  split_and!; [|rewrite Hq|done].
  - split; rewrite ?Hq, ?Hr; simpl; try done; try lia.
    + rewrite fmap_app, total_app. rewrite fmap_app, total_app, fmap_cons in Hc.
      change (total (?x :: ?l)) with (x + total l) in Hc. simpl in Hc. lia.
    + by apply Forall_app.
    + rewrite fmap_app. apply NoDup_app. split; [done|]. split; [|done]. intros x Hx Hx'. apply (Hn12 x Hx). by right.
  - unfold queue. rewrite E, !filter_app, filter_cons, F1, F3, F4.
    rewrite decide_False by (simpl; congruence). by rewrite <- app_assoc.
Qed.

Lemma NoDup_filter_keys {K V} (P : K * V → Prop) `{∀ w, Decision (P w)} (l : list (K * V)) :
  NoDup (fst <$> l) → NoDup (fst <$> filter P l).
Proof.
  induction l as [|w l IH]; [done|]. rewrite fmap_cons, NoDup_cons, filter_cons. intros [Hw Hl]. case_decide; [|auto].
  rewrite fmap_cons, NoDup_cons. split; [|auto]. intros (x & E & [_ Hx]%list_elem_of_filter)%list_elem_of_fmap.
  apply Hw, list_elem_of_fmap. by exists x.
Qed.

Lemma leave_ok s held tid : sem_ok s held → (tid, 1) ∈ sm_waiters s →
  sem_ok (leave s tid) held ∧ queue (leave s tid) = filter (λ w, fst w ≠ tid) (queue s) ∧ sm_size (leave s tid) = sm_size s.
Proof.
  intros [Hc Hh Hb Hw Hn Hf] Hin.
  assert (filter (λ w, fst w ≠ tid) (sm_ready s) = sm_ready s) as F.
  { apply filter_all. intros [x y] Hx E1; simpl in E1; subst x. unfold queue in Hn. rewrite fmap_app in Hn.
    apply NoDup_app in Hn as (_ & Hn & _). apply (Hn tid); apply list_elem_of_fmap; [by exists (tid, y)|by exists (tid, 1)]. }
  assert (queue (leave s tid) = filter (λ w, fst w ≠ tid) (queue s)) as Hq.
  { unfold queue. rewrite filter_app, F. done. }
  split_and!; [|done..]. split; rewrite ?Hq; try done.
  - rewrite Forall_forall in Hw |- *. intros w [_ Hin']%list_elem_of_filter. by apply Hw.
  - by apply NoDup_filter_keys.
  - simpl. destruct (sm_waiters s) as [|w l] eqn:E; [done|]. rewrite filter_cons. case_decide as Hd; [done|].
    assert (w = (tid, 1)) as ->.
    { apply elem_of_cons in Hin as [<-|Hin]; [done|]. exfalso. unfold queue in Hn. rewrite E, fmap_app in Hn.
      apply NoDup_app in Hn as (_ & _ & Hn). rewrite fmap_cons in Hn. apply NoDup_cons in Hn as [Hn _]. apply Hn.
      apply list_elem_of_fmap. by exists (tid, 1). }
    simpl in Hf. destruct (filter _ l) as [|w' l'] eqn:El; [done|].
    assert (w' ∈ queue s) as Hw'.
    { unfold queue. rewrite E. apply elem_of_app. right. right. eapply (list_elem_of_filter (λ w, fst w ≠ tid)).
      rewrite El. by left. }
    rewrite Forall_forall in Hw. specialize (Hw w' Hw'). lia.
Qed.

(** ** Goroutines and the lock *)

Definition weight (n : Z) (t : thread) : Z :=
  match t with Reads _ => 1 | Writes _ _ | Wrote => n | _ => 0 end.
Definition wants (n : Z) (t : thread) : option Z :=
  match t with ReaderWaits => Some 1 | WriterWaits _ _ => Some n | _ => None end.

(** Those in the queue of the semaphore are those that wait. *)
Definition queue_ok (n : Z) (q : list (nat * Z)) (ts : list thread) : Prop :=
  ∀ tid k, (tid, k) ∈ q ↔ ∃ t, ts !! tid = Some t ∧ wants n t = Some k.

Lemma queue_keep n q ts tid t t' : queue_ok n q ts → ts !! tid = Some t → wants n t = None → wants n t' = None →
  queue_ok n q (<[tid := t']> ts).
Proof.
  intros Hq Ht Hn Hn' i k. rewrite (Hq i k). destruct (decide (i = tid)) as [->|Hne].
  - rewrite list_lookup_insert_eq by (by eapply lookup_lt_Some). rewrite Ht. naive_solver congruence.
  - by rewrite list_lookup_insert_ne.
Qed.
Lemma queue_push n q ts tid t t' k : queue_ok n q ts → ts !! tid = Some t → wants n t = None → wants n t' = Some k →
  queue_ok n (q ++ [(tid, k)]) (<[tid := t']> ts).
Proof.
  intros Hq Ht Hn Hn' i j. rewrite elem_of_app, list_elem_of_singleton, (Hq i j). destruct (decide (i = tid)) as [->|Hne].
  - rewrite list_lookup_insert_eq by (by eapply lookup_lt_Some). rewrite Ht. naive_solver congruence.
  - rewrite list_lookup_insert_ne by done. naive_solver.
Qed.
Lemma queue_pop n q ts tid t t' : queue_ok n q ts → ts !! tid = Some t → wants n t' = None →
  queue_ok n (filter (λ w, fst w ≠ tid) q) (<[tid := t']> ts).
Proof.
  intros Hq Ht Hn' i j. rewrite list_elem_of_filter, (Hq i j). simpl. destruct (decide (i = tid)) as [->|Hne].
  - rewrite list_lookup_insert_eq by (by eapply lookup_lt_Some). naive_solver congruence.
  - rewrite list_lookup_insert_ne by done. naive_solver.
Qed.
Lemma queue_spawn n q ts t : queue_ok n q ts → wants n t = None → queue_ok n q (ts ++ [t]).
Proof.
  intros Hq Hn i k. rewrite (Hq i k). split; intros (t' & Ht' & Hk).
  - exists t'. split; [by apply lookup_app_l_Some|done].
  - apply lookup_app_Some in Ht' as [?|[_ Ht']]; [by exists t'|]. apply list_lookup_singleton_Some in Ht' as [_ ->]. congruence.
Qed.
Lemma queue_absent n q ts tid t : queue_ok n q ts → ts !! tid = Some t → wants n t = None → tid ∉ fst <$> q.
Proof.
  intros Hq Ht Hn ([i k] & -> & Hin)%list_elem_of_fmap. apply Hq in Hin as (t' & Ht' & Hk). simpl in *. congruence.
Qed.

Record lock_inv (n : Z) (s : shardedSearcher) : Prop := {
  li_cap : ss_capacity s = n ∧ sm_size (ss_throttle s) = n;
  li_sem : sem_ok (ss_throttle s) (total (weight n <$> ss_threads s));
  li_queue : queue_ok n (queue (ss_throttle s)) (ss_threads s) }.

Lemma lock_inv_set n s w tid t t' : lock_inv n s → ss_threads s !! tid = Some t →
  sm_size w = sm_size (ss_throttle s) → sem_ok w (total (weight n <$> ss_threads s) - weight n t + weight n t') →
  queue_ok n (queue w) (<[tid := t']> (ss_threads s)) → lock_inv n (set_thread s w tid t').
Proof.
  intros [[Hc Hz] Hs Hq] Ht Hsz Hw Hqw. split; simpl; [split; [done|congruence]| |done].
  rewrite list_fmap_insert, (total_insert _ _ (weight n t)) by (by rewrite list_lookup_fmap, Ht). done.
Qed.

Lemma lock_inv_spawn n s next t : lock_inv n s → weight n t = 0 → wants n t = None →
  lock_inv n (SS (ss_throttle s) (ss_capacity s) (ss_shards s) (ss_closed s) next (ss_threads s ++ [t])).
Proof.
  intros [Hc Hs Hq] H0 Hn. split; simpl; [done| |by apply queue_spawn]. rewrite fmap_app, total_app. simpl. rewrite H0.
  by replace (total (weight n <$> ss_threads s) + total [0]) with (total (weight n <$> ss_threads s)) by (unfold total; simpl; lia).
Qed.

Lemma held_at_least n ts tid t : 1 <= n → ts !! tid = Some t → weight n t <= total (weight n <$> ts).
Proof.
  intros Hn Ht. apply total_elem.
  - apply Forall_fmap, Forall_true. intros []; simpl; lia.
  - apply list_elem_of_fmap. exists t. split; [done|]. by eapply list_elem_of_lookup_2.
Qed.

(** The moves of a thread: it asks for the lock, is woken, keeps or gives back what it
    has. *)
Lemma lock_inv_acquire n s tid t got waits k ok w : 1 <= k <= n → lock_inv n s → ss_threads s !! tid = Some t →
  Acquire (ss_throttle s) tid k = (ok, w) → weight n t = 0 → wants n t = None →
  weight n got = k → wants n got = None → weight n waits = 0 → wants n waits = Some k →
  lock_inv n (set_thread s w tid (if ok then got else waits)).
Proof.
  intros Hk Hinv Ht Ha Hwt Hnt Hwg Hng Hww Hnw. pose proof Hinv as [[Hc Hz] Hs Hq].
  destruct (Acquire_ok _ _ tid k _ _ Hs ltac:(lia) (queue_absent _ _ _ _ _ Hq Ht Hnt) Ha) as [Hsz Hcase].
  destruct ok; destruct Hcase as [Hw Hqw]; eapply lock_inv_set; try done; rewrite ?Hqw, ?Hwt, ?Hwg, ?Hww, ?Z.sub_0_r, ?Z.add_0_r;
    try done; [by eapply queue_keep|by eapply queue_push].
Qed.

Lemma lock_inv_wake n s tid t t' k : lock_inv n s → ss_threads s !! tid = Some t → (tid, k) ∈ sm_ready (ss_throttle s) →
  weight n t = 0 → weight n t' = k → wants n t' = None → lock_inv n (set_thread s (wake (ss_throttle s) tid) tid t').
Proof.
  intros Hinv Ht Hr Hwt Hwt' Hnt'. pose proof Hinv as [[Hc Hz] Hs Hq]. destruct (wake_ok _ _ _ _ Hs Hr) as (Hw & Hqw & Hsz).
  eapply lock_inv_set; try done; rewrite ?Hqw, ?Hwt, ?Hwt', ?Z.sub_0_r; [done|by eapply queue_pop].
Qed.

Lemma lock_inv_keep n s tid t t' : lock_inv n s → ss_threads s !! tid = Some t → weight n t = weight n t' →
  wants n t = None → wants n t' = None → lock_inv n (set_thread s (ss_throttle s) tid t').
Proof.
  intros Hinv Ht Hwt Hnt Hnt'. pose proof Hinv as [[Hc Hz] Hs Hq]. eapply lock_inv_set; try done; [|by eapply queue_keep].
  rewrite Hwt. by replace (_ - weight n t' + weight n t') with (total (weight n <$> ss_threads s)) by lia.
Qed.

Lemma lock_inv_release n s tid t t' k w : 1 <= n → 1 <= k → lock_inv n s → ss_threads s !! tid = Some t →
  Release (ss_throttle s) k = Ok w → weight n t = k → weight n t' = 0 → wants n t = None → wants n t' = None →
  lock_inv n (set_thread s w tid t').
Proof.
  intros Hn Hk Hinv Ht Hrl Hwt Hwt' Hnt Hnt'. pose proof Hinv as [[Hc Hz] Hs Hq].
  pose proof (held_at_least n _ _ _ Hn Ht) as Hge.
  destruct (Release_ok _ _ k Hs ltac:(lia)) as (w' & Hrl' & Hw & Hqw & Hsz). rewrite Hrl in Hrl'. injection Hrl' as <-.
  eapply lock_inv_set; try done; rewrite ?Hqw, ?Hwt, ?Hwt', ?Z.add_0_r; [done|by eapply queue_keep].
Qed.

Section Runs.
Context `{SortAlg} (fails : nat → nat → bool) (n : Z) (Hn : 1 <= n).

Lemma lock_inv_advance s s' : lock_inv n s → advance fails s s' → lock_inv n s'.
Proof using Hn.
  intros Hinv Hstep. revert Hinv.
  destruct Hstep as [s tid ok w Ht Ha|s tid Ht Hr|s tid key shard ok w Ht Ha|s tid key shard Ht Hr|s tid c h fd Ht Hf|s tid c h fd b Ht Hf|
    s tid t c h Ht Hc' Hh c'|s tid c h Ht Hh Hok|s tid c h w Ht Hh Hfl Hrl|s tid c w Ht H1 H2 H3 Hrl|s tid key shard Ht|s tid w Ht Hrl];
    intros Hinv; pose proof Hinv as [[Hc Hz] Hs Hq]; try (by eapply lock_inv_keep).
  - eapply (lock_inv_acquire n s tid Reader _ _ 1); try done; lia.
  - by eapply lock_inv_wake.
  - rewrite Hc in Ha. eapply (lock_inv_acquire n s tid _ _ _ n); try done; lia.
  - rewrite Hc in Hr. by eapply lock_inv_wake.
  - eapply lock_inv_keep; try done; by destruct Hc' as [-> | ->].
  - by eapply (lock_inv_release n s tid _ _ 1).
  - by eapply (lock_inv_release n s tid _ _ 1).
  - assert (lock_inv n (replace s key shard)) as Hinv' by (by split). by eapply (lock_inv_keep n (replace s key shard)).
  - rewrite Hc in Hrl. by eapply (lock_inv_release n s tid _ _ n).
Qed.

Lemma lock_inv_step s s' : lock_inv n s → step fails s s' → lock_inv n s'.
Proof using Hn.
  intros Hinv [Hv|[Hc|Ha]]; [revert Hinv; destruct Hv; intros Hinv; by apply lock_inv_spawn| |by eapply lock_inv_advance].
  revert Hinv. destruct Hc as [s tid Ht Hr]. intros Hinv. pose proof Hinv as [_ Hs Hq].
  assert ((tid, 1) ∈ sm_waiters (ss_throttle s)) as Hin.
  { assert ((tid, 1) ∈ queue (ss_throttle s)) as [?|?]%elem_of_app by (apply Hq; by exists ReaderWaits); done. }
  destruct (leave_ok _ _ _ Hs Hin) as (Hw & Hqw & Hsz). eapply lock_inv_set; try done; rewrite ?Hqw; simpl.
  - by rewrite Z.sub_0_r, Z.add_0_r.
  - by eapply queue_pop.
Qed.

Lemma lock_inv_reachable s : reachable fails n s → lock_inv n s.
Proof using Hn.
  assert (∀ s0, rtc (step fails) s0 s → lock_inv n s0 → lock_inv n s) as Hrun.
  { intros s0. induction 1 as [|s0 s1 s2 Hst _ IH]; [done|]. intros Hi. apply IH. by eapply lock_inv_step. }
  intros Hr. eapply Hrun; [exact Hr|]. split; simpl; [done| |].
  - split; simpl; unfold total; simpl; try lia; constructor.
  - intros tid k. split; [by intros ?%not_elem_of_nil|]. intros (t & Ht & _). done.
Qed.

(** ** Progress *)

Definition finished (t : thread) : Prop :=
  match t with Returned c => cw_feeder c = [] ∧ cw_busy c = [] | Done => True | _ => False end.

Lemma holder_advances s tid t : lock_inv n s → ss_threads s !! tid = Some t → 1 <= weight n t → ∃ s', advance fails s s'.
Proof using Hn.
  intros [[Hc Hz] Hs Hq] Ht Hw. pose proof (held_at_least n _ _ _ Hn Ht) as Hge.
  destruct (Release_ok _ _ (weight n t) Hs ltac:(lia)) as (w & Hrl & _).
  destruct t as [| |c| | | |key shard| |]; simpl in Hw, Hrl; try lia.
  - destruct c as [[|h fd] busy sent]; [|eexists; by eapply adv_take].
    destruct busy as [|h busy]; [|eexists; eapply (adv_finish _ _ _ _ _ h); [exact Ht|by left|by left]].
    destruct sent as [|h sent]; [eexists; by eapply adv_return|].
    destruct (fails tid h) eqn:Ef; eexists; [eapply adv_receive_error|eapply adv_receive]; try done; by left.
  - eexists. by eapply adv_write.
  - eexists. eapply adv_unlock; [done|]. by rewrite Hc.
Qed.

Lemma total_pos l : 1 <= total l → ∃ x, x ∈ l ∧ 1 <= x.
Proof.
  unfold total. induction l as [|x l IH]; simpl; [lia|]. intros Hl. destruct (decide (1 <= x)) as [|Hx].
  - exists x. split; [by left|done].
  - destruct (IH ltac:(lia)) as (y & Hy & ?). exists y. split; [by right|done].
Qed.

Lemma someone_advances s w : lock_inv n s → w ∈ queue (ss_throttle s) → ∃ s', advance fails s s'.
Proof using Hn.
  intros Hinv Hw. pose proof Hinv as [[Hc Hz] Hs Hq].
  destruct (sm_ready (ss_throttle s)) as [|[tid k] rest] eqn:Er.
  - assert (w ∈ sm_waiters (ss_throttle s)) as Hw' by (unfold queue in Hw; by rewrite Er in Hw).
    destruct Hs as [Hcur Hh Hb Hws Hnd Hf]. rewrite Er in Hcur. change (total (snd <$> [])) with 0 in Hcur.
    destruct (sm_waiters (ss_throttle s)) as [|x rest] eqn:Ew; [by apply not_elem_of_nil in Hw'|].
    assert (x ∈ queue (ss_throttle s)) as Hx by (unfold queue; rewrite Er, Ew; by left).
    rewrite Forall_forall in Hws. specialize (Hws x Hx).
    assert (1 <= total (weight n <$> ss_threads s)) as Hpos by lia.
    destruct (total_pos _ Hpos) as (y & (t & -> & [tid Ht]%list_elem_of_lookup)%list_elem_of_fmap & Hy).
    by eapply holder_advances.
  - assert ((tid, k) ∈ sm_ready (ss_throttle s)) as Hin by (rewrite Er; by left).
    assert ((tid, k) ∈ queue (ss_throttle s)) as Hin' by (unfold queue; apply elem_of_app; by left).
    apply Hq in Hin' as (t & Ht & Hk). destruct t; simpl in Hk; try done; injection Hk as <-; eexists.
    + by eapply adv_rlocked.
    + eapply adv_locked; [done|]. by rewrite Hc.
Qed.

Lemma unfinished_advances s tid t : lock_inv n s → ss_threads s !! tid = Some t → ¬ finished t → ∃ s', advance fails s s'.
Proof using Hn.
  intros Hinv Ht Hf. pose proof Hinv as [[Hc Hz] Hs Hq].
  destruct t as [| |c|c|key shard|key shard|key shard| |]; simpl in Hf.
  - destruct (Acquire (ss_throttle s) tid 1) as [ok w] eqn:E. eexists. by eapply adv_rlock.
  - eapply (someone_advances s (tid, 1)); [done|]. apply Hq. by exists ReaderWaits.
  - eapply holder_advances; [done..|]. simpl. lia.
  - destruct c as [[|h fd] busy sent]; [|eexists; by eapply (adv_take_late _ _ _ _ _ _ true)].
    destruct busy as [|h busy]; [exfalso; by apply Hf|].
    eexists. eapply (adv_finish _ _ _ _ _ h); [exact Ht|by right|by left].
  - destruct (Acquire (ss_throttle s) tid (ss_capacity s)) as [ok w] eqn:E. eexists. by eapply adv_lock.
  - eapply (someone_advances s (tid, n)); [done|]. apply Hq. by exists (WriterWaits key shard).
  - eapply holder_advances; [done..|]. simpl. lia.
  - eapply holder_advances; [done..|]. simpl. lia.
  - done.
Qed.

(** What a run without new requests uses up: the calls to the lock, then the shards. *)
Definition phase (t : thread) : nat :=
  match t with
  | Writer _ _ => 4 | Reader | WriterWaits _ _ => 3 | ReaderWaits | Writes _ _ => 2 | Reads _ | Wrote => 1 | Returned _ | Done => 0
  end.
Definition todo (t : thread) : nat :=
  match t with Reads c | Returned c => 3 * length (cw_feeder c) + 2 * length (cw_busy c) + length (cw_sent c) | _ => 0 end.
Definition measure (s : shardedSearcher) : nat * nat :=
  (sum_list_with phase (ss_threads s), sum_list_with todo (ss_threads s)).
Definition less (a b : nat * nat) : Prop := (a.1 < b.1)%nat ∨ (a.1 = b.1 ∧ (a.2 < b.2)%nat).

Lemma less_wf : well_founded less.
Proof.
  intros [a b]. revert b. induction (lt_wf a) as [a _ IHa]. intros b. induction (lt_wf b) as [b _ IHb].
  constructor. intros [a' b'] [Hl|[E Hl]]; simpl in *; [by apply IHa|]. subst a'. by apply IHb.
Qed.

Lemma sum_insert (f : thread → nat) ts tid t t' : ts !! tid = Some t →
  (sum_list_with f (<[tid := t']> ts) + f t = sum_list_with f ts + f t')%nat.
Proof. revert tid. induction ts as [|x ts IH]; intros [|tid] Ht; simpl in *; try done; [injection Ht as ->; lia|]. specialize (IH tid Ht). lia. Qed.

Lemma less_set s w tid t t' : ss_threads s !! tid = Some t →
  less (phase t', todo t') (phase t, todo t) → less (measure (set_thread s w tid t')) (measure s).
Proof.
  intros Ht Hl. pose proof (sum_insert phase _ _ _ t' Ht). pose proof (sum_insert todo _ _ _ t' Ht).
  unfold less, measure in *. simpl in *. lia.
Qed.

Lemma length_remove (h : nat) (l : list nat) : h ∈ l → (length (filter (λ x, x ≠ h) l) < length l)%nat.
Proof. intros Hh. apply length_filter_lt with h; [done|]. intros Hne. by apply Hne. Qed.

Lemma advance_less s s' : advance fails s s' → less (measure s') (measure s).
Proof.
  intros [s0 tid ok w Ht Ha|s0 tid Ht Hr|s0 tid key shard ok w Ht Ha|s0 tid key shard Ht Hr|s0 tid c h fd Ht Hf|s0 tid c h fd b Ht Hf|
    s0 tid t c h Ht Hc' Hh c'|s0 tid c h Ht Hh Hok|s0 tid c h w Ht Hh Hfl Hrl|s0 tid c w Ht H1 H2 H3 Hrl|s0 tid key shard Ht|s0 tid w Ht Hrl];
    try (eapply less_set; [done|]; unfold less; simpl; lia).
  - eapply less_set; [done|]. unfold less. destruct ok; simpl; lia.
  - eapply less_set; [done|]. unfold less. destruct ok; simpl; lia.
  - eapply less_set; [done|]. unfold less. simpl. rewrite Hf. simpl. lia.
  - eapply less_set; [done|]. unfold less. destruct b; simpl; rewrite Hf; simpl; lia.
  - pose proof (length_remove _ _ Hh). eapply less_set; [done|]. unfold less. destruct Hc' as [-> | ->]; simpl; lia.
  - pose proof (length_remove _ _ Hh). eapply less_set; [done|]. unfold less. simpl. lia.
  - apply (less_set (replace s0 key shard) _ _ (Writes key shard)); [done|]. unfold less. simpl. lia.
Qed.

Lemma runs_finite s : Acc (flip (advance fails)) s.
Proof.
  remember (measure s) as m eqn:E. revert s E. induction (less_wf m) as [m _ IH]. intros s ->. constructor.
  intros s' Hs'. eapply IH; [by apply advance_less|done].
Qed.

(** C21: the searcher does not get stuck. In every state that searches, listings and
    replacements of shards can reach, with failing searches and canceled
    contexts, a run without new requests is finite, and it ends only when every search and
    every replacement has returned and no goroutine is left. *)
Theorem searcher_progress s : reachable fails n s →
  Acc (flip (advance fails)) s ∧
  (∀ s', rtc (advance fails) s s' → (∀ s'', ¬ advance fails s' s'') → Forall finished (ss_threads s')).
Proof using Hn.
  intros Hr. split; [apply runs_finite|]. intros s' Hrun Hstuck.
  assert (lock_inv n s') as Hinv.
  { apply lock_inv_reachable. unfold reachable. etrans; [exact Hr|]. eapply rtc_subrel; [|exact Hrun]. intros ? ? ?. right. by right. }
  apply Forall_lookup. intros tid t Ht.
  destruct t as [| |c|[fd busy sent]| | | | |]; try done;
    try (exfalso; edestruct (unfinished_advances s' tid) as [s'' Hs'']; [done|exact Ht|by intros ?|by eapply Hstuck]).
  simpl. destruct fd as [|h fd], busy as [|h' busy]; try done;
    exfalso; edestruct (unfinished_advances s' tid) as [s'' Hs'']; try done; try (by intros [??]); by eapply Hstuck.
Qed.
End Runs.

(** ** No search meets a closed shard *)

Definition pending (t : thread) : option nat :=
  match t with
  | Writer _ (Some sh) | WriterWaits _ (Some sh) | Writes _ (Some sh) => Some (rk_Searcher sh)
  | _ => None
  end.
Definition uses (t : thread) : list nat :=
  match t with Reads c | Returned c => cw_feeder c ++ cw_busy c | _ => [] end.

Definition served (shards : gmap bytes rankedShard) (h : nat) : Prop := ∃ key sh, shards !! key = Some sh ∧ rk_Searcher sh = h.

(** The shards in the map, those about to be put there and the closed ones are
    different; a goroutine has only shards of the map. *)
Record handle_inv (s : shardedSearcher) : Prop := {
  hi_served : ∀ h, served (ss_shards s) h → (h < ss_next s)%nat ∧ h ∉ ss_closed s;
  hi_inj : ∀ k1 k2 sh1 sh2, ss_shards s !! k1 = Some sh1 → ss_shards s !! k2 = Some sh2 →
             rk_Searcher sh1 = rk_Searcher sh2 → k1 = k2;
  hi_pending : ∀ tid t h, ss_threads s !! tid = Some t → pending t = Some h →
                 (h < ss_next s)%nat ∧ h ∉ ss_closed s ∧ ¬ served (ss_shards s) h;
  hi_once : ∀ i j t u h, ss_threads s !! i = Some t → ss_threads s !! j = Some u →
              pending t = Some h → pending u = Some h → i = j;
  hi_closed : ∀ h, h ∈ ss_closed s → (h < ss_next s)%nat;
  hi_uses : ∀ tid t h, ss_threads s !! tid = Some t → h ∈ uses t → served (ss_shards s) h }.

Lemma lookup_set {A} (ts : list A) tid t t' i u : ts !! tid = Some t → <[tid := t']> ts !! i = Some u →
  (i = tid ∧ u = t') ∨ (i ≠ tid ∧ ts !! i = Some u).
Proof.
  intros Ht. destruct (decide (i = tid)) as [->|Hne].
  - rewrite list_lookup_insert_eq by (by eapply lookup_lt_Some). intros E. injection E as <-. by left.
  - rewrite list_lookup_insert_ne by done. by right.
Qed.

(** A thread that moves without touching the map. *)
Lemma handle_inv_set s w tid t t' : handle_inv s → ss_threads s !! tid = Some t →
  (pending t' = None ∨ pending t' = pending t) → (∀ h, h ∈ uses t' → served (ss_shards s) h) → handle_inv (set_thread s w tid t').
Proof.
  intros [Hs Hi Hp Ho Hc Hu] Ht Hpt Hut. split; simpl; try done.
  - intros i u h [[-> ->]|[_ Hl]]%(lookup_set _ _ _ _ _ _ Ht) Hpu; [|by eapply Hp]. eapply Hp; [exact Ht|]. destruct Hpt; congruence.
  - intros i j u v h [[-> ->]|[Hi1 Hl1]]%(lookup_set _ _ _ _ _ _ Ht) [[-> ->]|[Hj1 Hl2]]%(lookup_set _ _ _ _ _ _ Ht) Hu1 Hu2; [done| | |by eapply Ho].
    + eapply Ho; [exact Ht|exact Hl2| |exact Hu2]. destruct Hpt; congruence.
    + eapply Ho; [exact Hl1|exact Ht|exact Hu1|]. destruct Hpt; congruence.
  - intros i u h [[-> ->]|[_ Hl]]%(lookup_set _ _ _ _ _ _ Ht) Hin; [by apply Hut|by eapply Hu].
Qed.

Lemma handle_inv_spawn s next t : handle_inv s → (ss_next s <= next)%nat → uses t = [] →
  (∀ h, pending t = Some h → h = ss_next s ∧ (h < next)%nat) →
  handle_inv (SS (ss_throttle s) (ss_capacity s) (ss_shards s) (ss_closed s) next (ss_threads s ++ [t])).
Proof.
  intros [Hs Hi Hp Ho Hc Hu] Hle Hut Hpt.
  assert (∀ i u, (ss_threads s ++ [t]) !! i = Some u → ss_threads s !! i = Some u ∨ (i = length (ss_threads s) ∧ u = t)) as Hl.
  { intros i u [?|[Hge E]]%lookup_app_Some; [by left|]. apply list_lookup_singleton_Some in E as [E <-]. right. split; [lia|done]. }
  split; simpl; try done.
  - intros h Hh. destruct (Hs h Hh). split; [lia|done].
  - intros i u h Hiu Hpu. destruct (Hl _ _ Hiu) as [Hiu'|[-> ->]].
    + destruct (Hp _ _ _ Hiu' Hpu) as (? & ? & ?). split; [lia|done].
    + destruct (Hpt h Hpu) as [-> Hlt]. split; [done|]. split.
      * intros Hcl%Hc. lia.
      * intros Hsv. destruct (Hs _ Hsv). lia.
  - intros i j u v h Hiu Hjv Hpu Hpv.
    destruct (Hl _ _ Hiu) as [Hiu'|[-> ->]], (Hl _ _ Hjv) as [Hjv'|[-> ->]]; [by eapply Ho| | |done].
    + destruct (Hpt h Hpv) as [-> _]. destruct (Hp _ _ _ Hiu' Hpu). lia.
    + destruct (Hpt h Hpu) as [-> _]. destruct (Hp _ _ _ Hjv' Hpv). lia.
  - intros h Hh. specialize (Hc h Hh). lia.
  - intros i u h Hiu Hin. destruct (Hl _ _ Hiu) as [Hiu'|[-> ->]]; [by eapply Hu|]. rewrite Hut in Hin. by apply not_elem_of_nil in Hin.
Qed.

(** replace, when nobody uses a shard: the old shard is closed, the new one served. *)
Lemma served_replace s key shard h : handle_inv s → served (ss_shards (replace s key shard)) h →
  (∃ sh, shard = Some sh ∧ rk_Searcher sh = h) ∨ (served (ss_shards s) h ∧ ∀ old, ss_shards s !! key = Some old → rk_Searcher old ≠ h).
Proof.
  intros Hinv (k & sh & Hk & <-). unfold replace in Hk. simpl in Hk. destruct shard as [sh'|].
  - apply lookup_insert_Some in Hk as [[<- <-]|[Hne Hk]]; [left; by exists sh'|]. right. split; [by exists k, sh|].
    intros old Ho E. apply Hne. by eapply (hi_inj s Hinv).
  - apply lookup_delete_Some in Hk as [Hne Hk]. right. split; [by exists k, sh|].
    intros old Ho E. apply Hne. by eapply (hi_inj s Hinv).
Qed.

Lemma closed_replace s key shard h : h ∈ ss_closed (replace s key shard) ↔
  h ∈ ss_closed s ∨ ∃ old, ss_shards s !! key = Some old ∧ rk_Searcher old = h.
Proof. unfold replace. simpl. destruct (ss_shards s !! key) as [old|]; set_solver. Qed.

Lemma handle_inv_write s tid key shard : handle_inv s → ss_threads s !! tid = Some (Writes key shard) →
  (∀ i t, ss_threads s !! i = Some t → uses t = []) → handle_inv (set_thread (replace s key shard) (ss_throttle s) tid Wrote).
Proof.
  intros Hinv Ht Hnone. pose proof Hinv as [Hs Hi Hp Ho Hc Hu].
  assert (∀ sh, shard = Some sh → (rk_Searcher sh < ss_next s)%nat ∧ rk_Searcher sh ∉ ss_closed s ∧ ¬ served (ss_shards s) (rk_Searcher sh)) as Hnew.
  { intros sh ->. by eapply Hp. }
  split; cbn [set_thread ss_shards ss_closed ss_next ss_threads]; change (ss_next (replace s key shard)) with (ss_next s);
    change (ss_threads (replace s key shard)) with (ss_threads s).
  - intros h Hh. rewrite closed_replace. destruct (served_replace _ _ _ _ Hinv Hh) as [(sh & E & <-)|[Hsv Hne]].
    + destruct (Hnew sh E) as (? & Hncl & Hnsv). split; [done|]. intros [?|(old & Hold & E')]; [done|]. apply Hnsv. by exists key, old.
    + destruct (Hs h Hsv) as [? Hncl]. split; [done|]. intros [?|(old & Hold & E')]; [done|]. by eapply Hne.
  - assert (∀ k sh sh', ss_shards s !! k = Some sh → shard = Some sh' → rk_Searcher sh ≠ rk_Searcher sh') as Hfresh.
    { intros k sh sh' Hk E Heq. destruct (Hnew sh' E) as (_ & _ & Hns). apply Hns. by exists k, sh. }
    intros k1 k2 sh1 sh2 Hk1 Hk2 E. unfold replace in Hk1, Hk2. simpl in Hk1, Hk2. destruct shard as [sh|].
    + apply lookup_insert_Some in Hk1 as [[<- <-]|[Hn1 Hk1]], Hk2 as [[<- <-]|[Hn2 Hk2]]; [done| | |by eapply Hi].
      * exfalso. by eapply (Hfresh k2 sh2 sh).
      * exfalso. by eapply (Hfresh k1 sh1 sh).
    + apply lookup_delete_Some in Hk1 as [_ Hk1], Hk2 as [_ Hk2]. by eapply Hi.
  - intros i t h [[-> ->]|[Hne Hl]]%(lookup_set _ _ _ _ _ _ Ht) Hpt; [done|]. destruct (Hp _ _ _ Hl Hpt) as (? & Hncl & Hns).
    split; [done|]. rewrite closed_replace. split.
    + intros [?|(old & Hold & E')]; [done|]. apply Hns. by exists key, old.
    + intros Hsv. destruct (served_replace _ _ _ _ Hinv Hsv) as [(sh & -> & <-)|[? _]]; [|done]. apply Hne. by eapply Ho.
  - intros i j t u h [[-> ->]|[_ Hl1]]%(lookup_set _ _ _ _ _ _ Ht) [[-> ->]|[_ Hl2]]%(lookup_set _ _ _ _ _ _ Ht) Hp1 Hp2; try done. by eapply Ho.
  - intros h [?|(old & Hold & <-)]%closed_replace; [by apply Hc|]. apply Hs. by exists key, old.
  - intros i t h [[-> ->]|[_ Hl]]%(lookup_set _ _ _ _ _ _ Ht) Hin; [by apply not_elem_of_nil in Hin|].
    rewrite (Hnone _ _ Hl) in Hin. by apply not_elem_of_nil in Hin.
Qed.

Section Safety.
Context `{SortAlg} (fails : nat → nat → bool) (n : Z) (Hn : 1 <= n).

Lemma exclusive s i j t u : lock_inv n s → ss_threads s !! i = Some t → ss_threads s !! j = Some u →
  weight n t = n → 1 <= weight n u → i = j.
Proof using Hn.
  intros [[Hc Hz] [Hcur Hh Hb Hw _ _] _] Hi Hj Ht Hu. destruct (decide (i = j)) as [|Hne]; [done|exfalso].
  assert (<[i := Done]> (ss_threads s) !! j = Some u) as Hj' by (by rewrite list_lookup_insert_ne).
  pose proof (held_at_least n _ _ _ Hn Hj') as Hge. rewrite list_fmap_insert in Hge.
  rewrite (total_insert _ _ (weight n t)) in Hge by (by rewrite list_lookup_fmap, Hi). simpl in Hge.
  unfold queue in Hw. apply Forall_app in Hw as [Hw _].
  assert (0 <= total (snd <$> sm_ready (ss_throttle s))); [|lia].
  apply total_nonneg, Forall_fmap. eapply Forall_impl; [exact Hw|]. simpl. lia.
Qed.

Lemma start_served shards h : h ∈ uses (Reads (start shards)) → served shards h.
Proof.
  simpl. rewrite app_nil_r. intros (sh & -> & Hsh)%list_elem_of_fmap. unfold getShards in Hsh.
  rewrite go_sort_perm in Hsh. apply list_elem_of_fmap in Hsh as ([k sh'] & -> & Hk). apply elem_of_map_to_list in Hk.
  by exists k, sh'.
Qed.

(** A search that has returned has left nothing behind, when no shard fails. *)
Definition returned_clean (s : shardedSearcher) : Prop :=
  ∀ tid c, ss_threads s !! tid = Some (Returned c) → uses (Returned c) = [].

Lemma clean_set s w tid t t' : returned_clean s → ss_threads s !! tid = Some t → (∀ c, t' = Returned c → uses t' = []) →
  returned_clean (set_thread s w tid t').
Proof. intros Hcl Ht Hc i c [[-> <-]|[_ Hl]]%(lookup_set _ _ _ _ _ _ Ht); [by eapply Hc|by eapply Hcl]. Qed.
Lemma clean_spawn s shards closed next w cap t : returned_clean s → (∀ c, t ≠ Returned c) →
  returned_clean (SS w cap shards closed next (ss_threads s ++ [t])).
Proof. intros Hcl Hne i c [Hl|[_ Hl]]%lookup_app_Some; [by eapply Hcl|]. apply list_lookup_singleton_Some in Hl as [_ E]. by destruct (Hne c). Qed.

Lemma clean_step s s' : (∀ tid h, fails tid h = false) → returned_clean s → step fails s s' → returned_clean s'.
Proof.
  intros Hok Hcl [Hv|[Hc|Ha]]; revert Hcl.
  - destruct Hv; intros Hcl; by apply clean_spawn.
  - destruct Hc; intros Hcl; by eapply clean_set.
  - destruct Ha as [s tid ok w Ht Ha|s tid Ht Hr|s tid key shard ok w Ht Ha|s tid key shard Ht Hr|s tid c h fd Ht Hf|s tid c h fd b Ht Hf|
      s tid t c h Ht Hc' Hh c'|s tid c h Ht Hh Hfl|s tid c h w Ht Hh Hfl Hrl|s tid c w Ht H1 H2 H3 Hrl|s tid key shard Ht|s tid w Ht Hrl];
      intros Hcl; try (by eapply clean_set); try (by eapply clean_set; [done..|destruct ok]).
    + specialize (Hcl _ _ Ht). simpl in Hcl. rewrite Hf in Hcl. done.
    + eapply clean_set; [done..|]. destruct Hc' as [-> | ->]; [done|]. specialize (Hcl _ _ Ht). simpl in Hcl.
      apply app_eq_nil in Hcl as [_ Hcl]. rewrite Hcl in Hh. by apply not_elem_of_nil in Hh.
    + by rewrite Hok in Hfl.
    + eapply clean_set; [done..|]. intros c' E. simpl. by rewrite H1, H2.
Qed.

Lemma handle_inv_step s s' : (∀ tid h, fails tid h = false) → lock_inv n s → returned_clean s → handle_inv s → step fails s s' → handle_inv s'.
Proof using Hn.
  intros Hok Hlk Hcl Hinv [Hv|[Hc|Ha]]; revert Hlk Hcl Hinv.
  - destruct Hv; intros _ _ Hinv; apply handle_inv_spawn; try done; simpl; try lia; intros h E; try done. injection E as <-. lia.
  - destruct Hc; intros _ _ Hinv. eapply handle_inv_set; try done; [by left|]. by intros h ?%not_elem_of_nil.
  - assert (∀ h : nat, h ∈ [] → False) as Hnil by (by intros h ?%not_elem_of_nil).
    destruct Ha as [s tid ok w Ht Ha|s tid Ht Hr|s tid key shard ok w Ht Ha|s tid key shard Ht Hr|s tid c h fd Ht Hf|s tid c h fd b Ht Hf|
      s tid t c h Ht Hc' Hh c'|s tid c h Ht Hh Hfl|s tid c h w Ht Hh Hfl Hrl|s tid c w Ht H1 H2 H3 Hrl|s tid key shard Ht|s tid w Ht Hrl];
      intros Hlk Hcl Hinv; try pose proof (hi_uses s Hinv _ _ _ Ht) as Hus.
    + eapply handle_inv_set; try done; destruct ok; try (by left); [apply start_served|]. intros h ?%Hnil. done.
    + eapply handle_inv_set; try done; [by left|]. apply start_served.
    + eapply handle_inv_set; try done; destruct ok; try (by right); intros h ?%Hnil; done.
    + eapply handle_inv_set; try done; [by right|]. intros h ?%Hnil. done.
    + eapply handle_inv_set; try done; [by left|]. intros x Hx. eapply (hi_uses s Hinv _ _ _ Ht). simpl in *. rewrite Hf. set_solver.
    + specialize (Hcl _ _ Ht). simpl in Hcl. by rewrite Hf in Hcl.
    + eapply handle_inv_set; try done; [left; by destruct Hc' as [-> | ->]|]. intros x Hx. eapply (hi_uses s Hinv _ _ _ Ht).
      destruct Hc' as [-> | ->]; simpl in *; apply elem_of_app in Hx as [Hx|[_ Hx]%list_elem_of_filter]; set_solver.
    + eapply handle_inv_set; try done; [by left|]. intros x Hx. by eapply (hi_uses s Hinv _ _ _ Ht).
    + by rewrite Hok in Hfl.
    + eapply handle_inv_set; try done; [by left|]. intros x Hx. by eapply (hi_uses s Hinv _ _ _ Ht).
    + apply handle_inv_write; try done. intros i t Hi. destruct t as [| |c|c| | | | |]; try done; [|by eapply Hcl].
      exfalso. assert (i = tid) as -> by (symmetry; by eapply exclusive). congruence.
    + eapply handle_inv_set; try done; [by left|]. intros h ?%Hnil. done.
Qed.

(** C10: a shard is closed only when nobody searches it. In every state that
    searches, listings and replacements can reach while no shard returns an error, the
    shards that the goroutines of a search have or will take are open, and a
    goroutine that replaces a shard is alone in holding the lock. *)
Theorem no_search_of_closed s : (∀ tid h, fails tid h = false) → reachable fails n s →
  (∀ tid t h, ss_threads s !! tid = Some t → h ∈ uses t → h ∉ ss_closed s) ∧
  (∀ i j key shard u, ss_threads s !! i = Some (Writes key shard) → ss_threads s !! j = Some u → 1 <= weight n u → i = j).
Proof using Hn.
  intros Hok Hr. pose proof (lock_inv_reachable fails n Hn s Hr) as Hlk. split; [|intros; by eapply exclusive].
  assert (∀ s0, rtc (step fails) s0 s → lock_inv n s0 ∧ returned_clean s0 ∧ handle_inv s0 → handle_inv s) as Hrun.
  { intros s0. induction 1 as [|s0 s1 s2 Hst _ IH]; [by intros (_ & _ & ?)|]. intros (Hl & Hc & Hh). apply IH; [done..|].
    split_and!; [by eapply lock_inv_step|by eapply clean_step|by eapply handle_inv_step]. }
  assert (handle_inv s) as Hinv.
  { eapply Hrun; [exact Hr|]. split_and!; [by apply (lock_inv_reachable fails n Hn), rtc_refl|by intros ?|].
    split; simpl; try (by intros []); try done; try (by intros h (k & sh & Hk & _)); set_solver. }
  intros tid t h Ht Hh. by apply (hi_served s Hinv), (hi_uses s Hinv _ _ _ Ht).
Qed.
End Safety.

(** ** A run *)

#[local] Existing Instance merge_sort_alg.

(** A step of a run by the rule [r], its premises by evaluation. *)
Ltac evaluate := match goal with |- rtc _ ?s _ => let s' := eval vm_compute in s in change s with s' end.
Tactic Notation "arrives" uconstr(r) := eapply rtc_l; [left; apply r|]; evaluate.
Tactic Notation "advances" uconstr(r) :=
  eapply rtc_l; [right; right; eapply r; first [reflexivity | by left | by right; left]|]; evaluate.

(** A search that gets an error from one shard returns at once and gives up the
    lock, while its goroutines still search other shards. Two shards are loaded, a search
    runs on both, the first fails, and a replacement closes the second while it is
    being searched. *)
Theorem error_return_unsafe : ∃ s tid c, reachable (λ _ h, h =? 0)%nat 2 s ∧
  ss_threads s !! tid = Some (Returned c) ∧ 1%nat ∈ cw_busy c ∧ 1%nat ∈ ss_closed s.
Proof.
  eexists _, 2%nat, _. split.
  { unfold reachable. arrives (arrive_loaded _ (str "a") 1).
    advances (adv_lock _ _ 0). advances (adv_write _ _ 0).
    advances (adv_unlock _ _ 0).
    arrives (arrive_loaded _ (str "b") 0).
    advances (adv_lock _ _ 1). advances (adv_write _ _ 1).
    advances (adv_unlock _ _ 1).
    arrives arrive_reader. advances (adv_rlock _ _ 2).
    advances (adv_take _ _ 2). advances (adv_take _ _ 2). advances (adv_finish _ _ 2 _ _ 0).
    advances (adv_receive_error _ _ 2 _ 0). arrives (arrive_dropped _ (str "b")).
    advances (adv_lock _ _ 3). advances (adv_write _ _ 3). apply rtc_refl. }
  split; [reflexivity|]. split; [by left|]. apply (bool_decide_unpack _). vm_compute. exact I.
Qed.

(** A search that runs while a drop of its shard waits for the lock. *)
Lemma busy_run (fails : nat → nat → bool) : ∃ s, reachable fails 2 s ∧ uses <$> (ss_threads s !! 1%nat) = Some [0%nat] ∧
  ss_threads s !! 2%nat = Some (WriterWaits (str "a") None).
Proof.
  eexists. split.
  { unfold reachable. arrives (arrive_loaded _ (str "a") 1).
    advances (adv_lock _ _ 0). advances (adv_write _ _ 0). advances (adv_unlock _ _ 0).
    arrives arrive_reader. advances (adv_rlock _ _ 1). advances (adv_take _ _ 1).
    arrives (arrive_dropped _ (str "a")). advances (adv_lock _ _ 2). apply rtc_refl. }
  split; reflexivity.
Qed.

Lemma searcher_progress_witness : ∃ s, ¬ Forall finished (ss_threads s) ∧
  (∀ s', rtc (advance (λ _ _, true)) s s' → (∀ s'', ¬ advance (λ _ _, true) s' s'') → Forall finished (ss_threads s')).
Proof.
  destruct (busy_run (λ _ _, true)) as (s & Hr & _ & Ht). exists s. split.
  - intros Hf. exact (Forall_lookup_1 _ _ _ _ Hf Ht).
  - apply (searcher_progress (λ _ _, true) 2 ltac:(lia) s Hr).
Defined.

Lemma no_search_of_closed_witness : ∃ s t, ss_threads s !! 1%nat = Some t ∧ 0%nat ∈ uses t ∧ 0%nat ∉ ss_closed s.
Proof.
  destruct (busy_run (λ _ _, false)) as (s & Hr & Hu & _). apply fmap_Some in Hu as (t & Ht & Hu). exists s, t.
  assert (0%nat ∈ uses t) as Hin by (rewrite <- Hu; by left). split_and!; [done..|].
  by eapply (no_search_of_closed (λ _ _, false) 2 ltac:(lia) s (λ _ _, eq_refl) Hr).
Defined.
