(* ===== verification/Aggregate.v ===== *)
(** * shards/shards.go and shards/watcher.go: results and files of many shards

    The results of the shards put together by Search and List, the rank of a shard, and the
    watcher that keeps the served shards in step with the files of the
    index directory. *)

From S2P Require Import Prelude GoStd Bits Api Query Section IndexBuilder Content IndexData Eval Shard Shards.

(** ** Search *)

(** What searchOneShard sends: a shard that panics counts as a crash. *)
Definition crashedResult : SearchResult := MkSearchResult (add_Crashes 1 stats0) [] ∅ ∅.
Definition searchOneShard (r : res SearchResult) : res SearchResult :=
  match r with Panic _ => Ok crashedResult | r => r end.

(** The body of the loop over the results; [canceled] once cancel has been called. *)
Definition aggregateOne (opts : SearchOptions) (agg : SearchResult * bool) (r : SearchResult) : SearchResult * bool :=
  let '(a, canceled) := agg in
  let stats := Stats_Add (sr_Stats a) (sr_Stats r) in
  let urls := if lenZ (sr_Files r) =? 0 then sr_RepoURLs a else sr_RepoURLs r ∪ sr_RepoURLs a in
  let fragments := if lenZ (sr_Files r) =? 0 then sr_LineFragments a else sr_LineFragments r ∪ sr_LineFragments a in
  (MkSearchResult stats (sr_Files a ++ sr_Files r) urls fragments,
   canceled || (so_TotalMaxMatchCount opts <? MatchCount stats)).

(** The loop, over the results in the order in which they arrive. *)
Fixpoint aggregateLoop (opts : SearchOptions) (agg : SearchResult * bool) (rs : list (res SearchResult))
    : res (SearchResult * bool) :=
  match rs with
  | [] => Ok agg
  | r :: rs => r ← searchOneShard r; aggregateLoop opts (aggregateOne opts agg r) rs
  end.

Definition displayed (opts : SearchOptions) (files : list FileMatch) : list FileMatch :=
  let max := so_MaxDocDisplayCount opts in
  if (0 <? max) && (max <? lenZ files) then take (Z.to_nat max) files else files.

Section Results.
Context `{SortAlg}.

(** shardedSearcher.Search once the lock is held; the copies of the slices are the
    slices. *)
Definition SearchShards (opts : SearchOptions) (rs : list (res SearchResult)) : res SearchResult :=
  '(a, _) ← aggregateLoop opts (emptyResult stats0, false) rs;
  Ok (MkSearchResult (sr_Stats a) (displayed opts (SortFilesByScore (sr_Files a))) (sr_RepoURLs a) (sr_LineFragments a)).

(** ** List *)

Definition listOneShard (r : res RepoList) : res RepoList :=
  match r with Panic _ => Ok (MkRepoList [] 1) | r => r end.

Definition addEntry (uniq : gmap bytes RepoListEntry) (r : RepoListEntry) : gmap bytes RepoListEntry :=
  let name := r_Name (rle_Repository r) in
  match uniq !! name with
  | None => <[name := r]> uniq
  | Some prev => <[name := MkRepoListEntry (rle_Repository prev) (rle_IndexMetadata prev) (RepoStats_Add (rle_Stats prev) (rle_Stats r))]> uniq
  end.

Fixpoint listLoop (crashes : Z) (uniq : gmap bytes RepoListEntry) (rs : list (res RepoList))
    : res (Z * gmap bytes RepoListEntry) :=
  match rs with
  | [] => Ok (crashes, uniq)
  | r :: rs => r ← listOneShard r; listLoop (crashes + rl_Crashes r) (foldl addEntry uniq (rl_Repos r)) rs
  end.

(** The order of a range over a map is not specified; this is one. *)
Definition ListShards (rs : list (res RepoList)) : res RepoList :=
  '(crashes, uniq) ← listLoop 0 ∅ rs;
  Ok (MkRepoList (snd <$> map_to_list uniq) crashes).

(** [r]: what the shard answers to List with the query that every repository
    satisfies. *)
Definition shardRank (r : res RepoList) : res Z :=
  match r with
  | Ok rl => Ok (match rl_Repos rl with [] => 0 | e :: _ => r_Rank (rle_Repository e) end)
  | Err _ => Ok 0
  | Panic w => Panic w
  | OutOfFuel => OutOfFuel
  end.
End Results.

(** ** The watcher *)

Section Watcher.
Context `{SortAlg}.

(** encoding/json. *)
Context (unmarshalMetadata : bytes → option IndexMetadata) (unmarshalRepository : bytes → option Repository).
(** [contentsAt k mtime]: the contents of the file [k] as it was written at [mtime], unless os.Open fails. *)
Context (contentsAt : bytes → Z → option bytes).
(** The searcher that is made of it, an object with an identity of its own. *)
Context (handle : bytes → Z → nat).

Definition loadShard (k : bytes) (mtime : Z) : res (indexData mmapedIndexFile) :=
  contents ← match contentsAt k mtime with Some c => Ok c | None => Err "open" end;
  f ← NewIndexFile contents;
  NewSearcher unmarshalMetadata unmarshalRepository f.

(** load, with the rank that replace asks for. *)
Definition loader_load (s : shardedSearcher) (km : bytes * Z) : res shardedSearcher :=
  match loadShard (fst km) (snd km) with
  | Err _ => Ok s
  | Ok d =>
    rank ← shardRank (Eval.List d (QRepo []));
    Ok (replace s (fst km) (Some (RankedShard (handle (fst km) (snd km)) rank)))
  | Panic w => Panic w
  | OutOfFuel => OutOfFuel
  end.
Definition loader_drop (s : shardedSearcher) (k : bytes) : shardedSearcher := replace s k None.

Fixpoint loadAll (s : shardedSearcher) (l : list (bytes * Z)) : res shardedSearcher :=
  match l with
  | [] => Ok s
  | km :: l => s ← loader_load s km; loadAll s l
  end.

(** The modification times of the files found. *)
Definition statFiles (fs : list bytes) (lstat : bytes → option Z) : gmap bytes Z :=
  foldl (λ ts fn, match lstat fn with Some t => <[fn := t]> ts | None => ts end) ∅ fs.

(** The files to load, with the new timestamps, and those to drop. *)
Definition changed (timestamps ts : gmap bytes Z) : list (bytes * Z) :=
  filter (λ km, timestamps !! fst km ≠ Some (snd km)) (map_to_list ts).
Definition gone (timestamps ts : gmap bytes Z) : list bytes :=
  fst <$> filter (λ km, ts !! fst km = None) (map_to_list timestamps).

Definition scan (glob : res (list bytes)) (lstat : bytes → option Z) (timestamps : gmap bytes Z) (s : shardedSearcher)
    : res (gmap bytes Z * shardedSearcher) :=
  fs ← glob;
  let ts := statFiles fs lstat in
  let toLoad := changed timestamps ts in
  let timestamps := foldl (λ m km, <[fst km := snd km]> m) timestamps toLoad in
  let toDrop := gone timestamps ts in
  let timestamps := foldl (λ m k, delete k m) timestamps toDrop in
  let s := foldl loader_drop s toDrop in
  s ← loadAll s toLoad;
  Ok (timestamps, s).
End Watcher.

(** ** The sum of the shards *)

Lemma aggregateLoop_ok opts rs oks : searchOneShard <$> rs = Ok <$> oks → ∀ agg,
  aggregateLoop opts agg rs = Ok (foldl (aggregateOne opts) agg oks).
Proof.
  revert oks. induction rs as [|r rs IH]; intros [|o oks] E agg; try done. rewrite !fmap_cons in E. injection E as E1 E2.
  cbn [aggregateLoop]. rewrite E1. simpl. by apply IH.
Qed.

Lemma aggregateLoop_first_error opts rs e rest : Forall (λ r, ∃ o, searchOneShard r = Ok o) rs → ∀ agg,
  aggregateLoop opts agg (rs ++ Err e :: rest) = Err e.
Proof. induction 1 as [|r rs [o Ho] _ IH]; intros agg; [done|]. simpl. rewrite Ho. apply IH. Qed.

Lemma Stats_sum_foldl (l : list Stats) a : foldl Stats_Add a l = Stats_Add a (foldr Stats_Add stats0 l).
Proof.
  revert a. induction l as [|x l IH]; intros a; simpl; [by rewrite Stats_Add_0|]. rewrite IH. by rewrite Stats_Add_assoc.
Qed.
#[local] Instance Stats_sum_proper : Proper ((≡ₚ) ==> (=)) (foldr Stats_Add stats0).
Proof.
  intros l l'. induction 1 as [|x l l' _ IH|x y l|l l' l'' _ IH1 _ IH2]; simpl; try congruence.
  by rewrite !Stats_Add_assoc, (Stats_Add_comm y x).
Qed.

(** The part of the aggregate that does not depend on the options. *)
Definition named (project : SearchResult → gmap bytes bytes) (o : SearchResult) (k : bytes) : Prop :=
  sr_Files o ≠ [] ∧ is_Some (project o !! k).

Lemma named_or (project : SearchResult → gmap bytes bytes) (m : gmap bytes bytes) o k :
  is_Some ((if lenZ (sr_Files o) =? 0 then m else project o ∪ m) !! k) ↔ is_Some (m !! k) ∨ named project o k.
Proof.
  unfold named. destruct (sr_Files o) as [|f fs]; simpl; [naive_solver|].
  replace (lenZ (f :: fs) =? 0) with false by (symmetry; apply Z.eqb_neq; unfold lenZ; simpl; lia).
  rewrite lookup_union_is_Some. naive_solver.
Qed.

Lemma aggregate_fold opts oks : ∀ agg,
  let a := foldl (aggregateOne opts) agg oks in
  sr_Stats a.1 = foldl Stats_Add (sr_Stats agg.1) (sr_Stats <$> oks) ∧
  sr_Files a.1 = sr_Files agg.1 ++ concat (sr_Files <$> oks) ∧
  (∀ k, is_Some (sr_RepoURLs a.1 !! k) ↔ is_Some (sr_RepoURLs agg.1 !! k) ∨ Exists (λ o, named sr_RepoURLs o k) oks) ∧
  (∀ k, is_Some (sr_LineFragments a.1 !! k) ↔ is_Some (sr_LineFragments agg.1 !! k) ∨ Exists (λ o, named sr_LineFragments o k) oks).
Proof.
  induction oks as [|o oks IH]; intros [a c]; simpl.
  - rewrite app_nil_r. split_and!; try done; intros k; rewrite Exists_nil; naive_solver.
  - destruct (IH (aggregateOne opts (a, c) o)) as (Hs & Hf & Hu & Hl). simpl in Hs, Hf, Hu, Hl.
    rewrite Hs, Hf, <- app_assoc. split_and!; try done; intros k; [rewrite Hu|rewrite Hl];
      rewrite named_or, Exists_cons; naive_solver.
Qed.

Section ResultsSpec.
Context `{SortAlg}.

(** The files that are shown: the first ones, up to a limit above 0. *)
Definition cutAt (max : Z) (all shown : list FileMatch) : Prop := (0 < max → shown = take (Z.to_nat max) all) ∧ (max <= 0 → shown = all).
Lemma displayed_cut opts files : cutAt (so_MaxDocDisplayCount opts) files (displayed opts files).
Proof.
  unfold displayed. set (max := so_MaxDocDisplayCount opts). split; intros Hm; [|by rewrite (proj2 (Z.ltb_ge _ _) Hm)].
  rewrite (proj2 (Z.ltb_lt _ _) Hm). cbn [andb]. destruct (max <? lenZ files) eqn:E; [done|]. apply Z.ltb_ge in E. unfold lenZ in E. rewrite take_ge; [done|lia].
Qed.

Lemma SearchShards_union opts rs oks : searchOneShard <$> rs ≡ₚ Ok <$> oks →
  ∃ r sorted, SearchShards opts rs = Ok r ∧
    sr_Stats r = foldr Stats_Add stats0 (sr_Stats <$> oks) ∧
    sorted ≡ₚ concat (sr_Files <$> oks) ∧ cutAt (so_MaxDocDisplayCount opts) sorted (sr_Files r) ∧
    (∀ k, is_Some (sr_RepoURLs r !! k) ↔ Exists (λ o, named sr_RepoURLs o k) oks) ∧
    (∀ k, is_Some (sr_LineFragments r !! k) ↔ Exists (λ o, named sr_LineFragments o k) oks).
Proof.
  intros Hp. apply Permutation_map_inv in Hp as (oks' & E & Hp). symmetry in Hp. unfold SearchShards.
  rewrite (aggregateLoop_ok opts rs oks' E). destruct (aggregate_fold opts oks' (emptyResult stats0, false)) as (Hs & Hf & Hu & Hl).
  destruct (foldl _ _ oks') as [a c]. simpl in *. eexists _, (SortFilesByScore (sr_Files a)). split; [done|]. simpl.
  assert (∀ P, Exists P oks' ↔ Exists P oks) as Hex by (intros P; by rewrite Hp). split_and!.
  - rewrite Hs, Stats_sum_foldl, Stats_Add_comm, Stats_Add_0. by rewrite Hp.
  - unfold SortFilesByScore. by rewrite go_sort_perm, Hf, Hp.
  - apply displayed_cut.
  - intros k. rewrite Hu, lookup_empty, Hex. naive_solver.
  - intros k. rewrite Hl, lookup_empty, Hex. naive_solver.
Qed.

(** A search of many shards is the union of the searches of the shards, in whatever
    order their results arrive. When no shard returns an error (one that panics counts
    as a crash), the statistics are the sum, the files are those of all shards, cut off
    after MaxDocDisplayCount once they are sorted, and a repository has its
    URL templates exactly when a shard with files names it; the first error that
    arrives is the result otherwise. *)
Theorem SearchShards_spec opts rs :
  (∀ oks, searchOneShard <$> rs ≡ₚ Ok <$> oks →
     ∃ r sorted, SearchShards opts rs = Ok r ∧
       sr_Stats r = foldr Stats_Add stats0 (sr_Stats <$> oks) ∧
       sorted ≡ₚ concat (sr_Files <$> oks) ∧ cutAt (so_MaxDocDisplayCount opts) sorted (sr_Files r) ∧
       (∀ k, is_Some (sr_RepoURLs r !! k) ↔ Exists (λ o, named sr_RepoURLs o k) oks) ∧
       (∀ k, is_Some (sr_LineFragments r !! k) ↔ Exists (λ o, named sr_LineFragments o k) oks)) ∧
  (∀ before e rest, rs = before ++ Err e :: rest → Forall (λ r, ∃ o, searchOneShard r = Ok o) before →
     SearchShards opts rs = Err e).
Proof.
  split; [apply SearchShards_union|].
  intros before e rest -> Hb. unfold SearchShards. by rewrite aggregateLoop_first_error.
Qed.
End ResultsSpec.

(** ** Repositories *)

(** The entries of one repository in one. *)
Definition mergeEntry (prev r : RepoListEntry) : RepoListEntry :=
  MkRepoListEntry (rle_Repository prev) (rle_IndexMetadata prev) (RepoStats_Add (rle_Stats prev) (rle_Stats r)).
Definition merged (es : list RepoListEntry) : option RepoListEntry :=
  match es with [] => None | e :: es => Some (foldl mergeEntry e es) end.
Definition entry_name (e : RepoListEntry) : bytes := r_Name (rle_Repository e).
Definition entries_of (name : bytes) (rls : list RepoList) : list RepoListEntry :=
  filter (λ e, entry_name e = name) (concat (rl_Repos <$> rls)).

Lemma merged_snoc es e : merged (es ++ [e]) = Some (match merged es with Some p => mergeEntry p e | None => e end).
Proof. destruct es as [|x es]; [done|]. simpl. by rewrite foldl_app. Qed.

Lemma merged_name name es e : Forall (λ x, entry_name x = name) es → merged es = Some e → entry_name e = name.
Proof.
  destruct es as [|x es]; [done|]. intros [Hx _]%Forall_cons E. injection E as <-. revert x Hx.
  induction es as [|y es IH]; intros x Hx; simpl; [done|]. by apply IH.
Qed.

Lemma uniq_lookup es name : foldl addEntry ∅ es !! name = merged (filter (λ e, entry_name e = name) es).
Proof.
  induction es as [|e es IH] using rev_ind; [done|]. rewrite foldl_app, filter_app, filter_cons. cbn [foldl].
  generalize dependent (foldl addEntry ∅ es). intros m IH. unfold addEntry. cbv zeta. fold (entry_name e). case_decide as Hd.
  - cbn [filter]. rewrite merged_snoc, <- IH, Hd. destruct (m !! name); by rewrite lookup_insert_eq.
  - cbn [filter]. rewrite app_nil_r, <- IH. destruct (m !! entry_name e); by rewrite lookup_insert_ne.
Qed.

Lemma listLoop_ok rs rls : listOneShard <$> rs = Ok <$> rls → ∀ crashes uniq,
  listLoop crashes uniq rs = Ok (crashes + foldr Z.add 0 (rl_Crashes <$> rls), foldl addEntry uniq (concat (rl_Repos <$> rls))).
Proof.
  revert rls. induction rs as [|r rs IH]; intros [|o rls] E crashes uniq; try done; [simpl; by rewrite Z.add_0_r|].
  rewrite !fmap_cons in E. injection E as E1 E2. cbn [listLoop]. rewrite E1. simpl. rewrite (IH _ E2), foldl_app. by rewrite Z.add_assoc.
Qed.

(** A listing of many shards has one entry for each repository that a shard lists,
    with the documents, bytes and shards of all its shards added up and the crashes
    counted, when no shard returns an error. *)
Theorem ListShards_spec rs rls : listOneShard <$> rs = Ok <$> rls →
  ∃ l, ListShards rs = Ok l ∧ rl_Crashes l = foldr Z.add 0 (rl_Crashes <$> rls) ∧
    NoDup (entry_name <$> rl_Repos l) ∧
    (∀ e, e ∈ rl_Repos l ↔ merged (entries_of (entry_name e) rls) = Some e).
Proof.
  intros Hok. unfold ListShards. rewrite (listLoop_ok _ _ Hok). simpl. eexists. split; [done|]. simpl. split; [done|].
  set (uniq := foldl addEntry ∅ (concat (rl_Repos <$> rls))).
  assert (∀ k e, uniq !! k = Some e → entry_name e = k) as Hkey.
  { intros k e He. unfold uniq in He. rewrite uniq_lookup in He. eapply merged_name; [|exact He].
    apply Forall_forall. by intros x [? _]%list_elem_of_filter. }
  split.
  - replace (entry_name <$> (snd <$> map_to_list uniq)) with (fst <$> map_to_list uniq); [apply NoDup_fst_map_to_list|].
    rewrite <- list_fmap_compose. apply list_fmap_ext. intros i [k e] Hi. apply list_elem_of_lookup_2, elem_of_map_to_list in Hi.
    simpl. symmetry. by apply Hkey.
  - intros e. unfold entries_of. rewrite <- uniq_lookup. fold uniq. rewrite list_elem_of_fmap. split.
    + intros ([k e'] & -> & Hin). apply elem_of_map_to_list in Hin. simpl. by rewrite (Hkey _ _ Hin).
    + intros He. exists (entry_name e, e). split; [done|]. by apply elem_of_map_to_list.
Qed.

(** ** The files of the index directory *)

(** A shard is ranked by its repository: shardRank asks with the pattern that every name
    contains. *)
Lemma shardRank_List {F} (d : indexData F) : shardRank (Eval.List d (QRepo [])) = Ok (r_Rank (d_repoMetaData d)).
Proof.
  unfold Eval.List, simplify. simpl Map. unfold simplifyAtom.
  replace (Contains (r_Name (d_repoMetaData d)) []) with true; [done|]. unfold Contains. by destruct (r_Name (d_repoMetaData d)).
Qed.

Section Mirror.
Context `{SortAlg} (unmarshalMetadata : bytes → option IndexMetadata) (unmarshalRepository : bytes → option Repository).
Context (contentsAt : bytes → Z → option bytes) (handle : bytes → Z → nat).
#[local] Abbreviation loadShard' := (loadShard unmarshalMetadata unmarshalRepository contentsAt).
#[local] Abbreviation loadAll' := (loadAll unmarshalMetadata unmarshalRepository contentsAt handle).
#[local] Abbreviation scan' := (scan unmarshalMetadata unmarshalRepository contentsAt handle).

(** The shard that a load puts in place. *)
Definition loaded (k : bytes) (mtime : Z) : option rankedShard :=
  match loadShard' k mtime with
  | Ok d => Some (RankedShard (handle k mtime) (r_Rank (d_repoMetaData d)))
  | _ => None
  end.

Lemma loader_load_ok s k t : settled (loadShard' k t) →
  loader_load unmarshalMetadata unmarshalRepository contentsAt handle s (k, t) =
  Ok (match loaded k t with Some sh => replace s k (Some sh) | None => s end).
Proof.
  unfold loader_load, loaded. cbn [fst snd]. destruct (loadShard' k t) as [d| | |]; try done. intros _. by rewrite shardRank_List.
Qed.

Lemma loadShard_short k t c : contentsAt k t = Some c → 4 <= lenZ c < 8 → ∃ w, loadShard' k t = Panic w.
Proof.
  intros Hc Hl. destruct (NewIndexFile_short c Hl) as (data & E & Hd). destruct (readTOC_short c data Hl Hd) as (w & Ew). exists w.
  unfold loadShard. rewrite Hc. cbn [mbind res_bind]. rewrite E. cbn [mbind res_bind]. unfold NewSearcher. by rewrite Ew.
Qed.

(** A file whose load does not return takes the scan with it. *)
Lemma loadAll_panic l1 k t l2 w : Forall (λ km, settled (loadShard' km.1 km.2)) l1 → loadShard' k t = Panic w → ∀ s,
  loadAll' s (l1 ++ (k, t) :: l2) = Panic w.
Proof.
  intros Hl Hp. induction Hl as [|[k0 t0] l1 H0 _ IH]; intros s; simpl; [|rewrite loader_load_ok by done; apply IH].
  unfold loader_load. simpl. by rewrite Hp.
Qed.

Lemma loadAll_ok l : NoDup (fst <$> l) → Forall (λ km, settled (loadShard' km.1 km.2)) l → ∀ s, ∃ s', loadAll' s l = Ok s' ∧
  (∀ k, (∀ t, (k, t) ∉ l) → ss_shards s' !! k = ss_shards s !! k) ∧
  (∀ k t, (k, t) ∈ l → ss_shards s' !! k = match loaded k t with Some sh => Some sh | None => ss_shards s !! k end).
Proof.
  induction l as [|[k0 t0] l IH]; [intros _ _ s; exists s; split_and!; [done|done|by intros k t ?%not_elem_of_nil]|].
  rewrite fmap_cons, NoDup_cons. intros [Hk0 Hnd] [Hl0 Hls]%Forall_cons s. simpl. rewrite loader_load_ok by done. simpl.
  set (s1 := match loaded k0 t0 with Some sh => replace s k0 (Some sh) | None => s end).
  assert (∀ k, ss_shards s1 !! k = if decide (k = k0) then match loaded k0 t0 with Some sh => Some sh | None => ss_shards s !! k end
    else ss_shards s !! k) as Hs1.
  { intros k. unfold s1. destruct (loaded k0 t0); simpl; case_decide as Hd; try done; subst; by rewrite ?lookup_insert_eq, ?lookup_insert_ne. }
  assert (∀ t, (k0, t) ∉ l) as Hnot.
  { intros t Hin. apply Hk0. apply list_elem_of_fmap. by exists (k0, t). }
  destruct (IH Hnd Hls s1) as (s' & Hl & Hout & Hin). exists s'. split; [done|]. split.
  - intros k Hk. rewrite Hout, Hs1 by (intros t Ht; apply (Hk t); by right). rewrite decide_False; [done|].
    intros ->. apply (Hk t0). by left.
  - intros k t [E|Hkt]%elem_of_cons.
    + injection E as -> ->. rewrite Hout, Hs1 by done. by rewrite decide_True.
    + rewrite (Hin k t Hkt), Hs1. rewrite decide_False; [done|]. intros ->. by apply (Hnot t).
Qed.

Lemma dropAll_lookup l k : ∀ s, ss_shards (foldl loader_drop s l) !! k = if decide (k ∈ l) then None else ss_shards s !! k.
Proof.
  induction l as [|k0 l IH]; intros s; [done|]. simpl. rewrite IH. unfold loader_drop, replace. simpl.
  destruct (decide (k = k0)) as [->|Hne].
  - rewrite lookup_delete_eq. rewrite (decide_True (P := k0 ∈ k0 :: l)) by (by left). by case_decide.
  - rewrite lookup_delete_ne by done. apply decide_ext. rewrite elem_of_cons. naive_solver.
Qed.

Lemma stamp_lookup (l : list (bytes * Z)) (m : gmap bytes Z) k : NoDup (fst <$> l) →
  (∀ t, (k, t) ∈ l → foldl (λ m km, <[fst km := snd km]> m) m l !! k = Some t) ∧
  ((∀ t, (k, t) ∉ l) → foldl (λ m km, <[fst km := snd km]> m) m l !! k = m !! k).
Proof.
  revert m. induction l as [|[k0 t0] l IH]; intros m; [split; [by intros t ?%not_elem_of_nil|done]|].
  rewrite fmap_cons, NoDup_cons. intros [Hk0 Hnd]. simpl. destruct (IH (<[k0 := t0]> m) Hnd) as [Hin Hout]. split.
  - intros t [E|Ht]%elem_of_cons; [injection E as -> ->|by apply Hin]. rewrite Hout, lookup_insert_eq; [done|].
    intros t Ht. apply Hk0, list_elem_of_fmap. by exists (k0, t).
  - intros Hn. rewrite Hout by (intros t Ht; apply (Hn t); by right). apply lookup_insert_ne. intros ->. apply (Hn t0). by left.
Qed.

Lemma unstamp_lookup (l : list bytes) (m : gmap bytes Z) k : foldl (λ m k, delete k m) m l !! k = if decide (k ∈ l) then None else m !! k.
Proof.
  revert m. induction l as [|k0 l IH]; intros m; [done|]. simpl. rewrite IH. destruct (decide (k = k0)) as [->|Hne].
  - rewrite lookup_delete_eq. rewrite (decide_True (P := k0 ∈ k0 :: l)) by (by left). by case_decide.
  - rewrite lookup_delete_ne by done. apply decide_ext. rewrite elem_of_cons. naive_solver.
Qed.

Lemma elem_of_changed timestamps ts k t : (k, t) ∈ changed timestamps ts ↔ ts !! k = Some t ∧ timestamps !! k ≠ Some t.
Proof. unfold changed. rewrite list_elem_of_filter, elem_of_map_to_list. simpl. naive_solver. Qed.
Lemma elem_of_gone timestamps ts k : k ∈ gone timestamps ts ↔ is_Some (timestamps !! k) ∧ ts !! k = None.
Proof.
  unfold gone. rewrite list_elem_of_fmap. split.
  - intros ([k' t] & -> & [Hn Hin]%list_elem_of_filter). apply elem_of_map_to_list in Hin. simpl in *. by split; [exists t|].
  - intros [[t Ht] Hn]. exists (k, t). split; [done|]. apply list_elem_of_filter. by rewrite elem_of_map_to_list.
Qed.
Lemma NoDup_changed timestamps ts : NoDup (fst <$> changed timestamps ts).
Proof. apply NoDup_filter_keys, NoDup_fst_map_to_list. Qed.

(** C23: after a scan the searcher serves the files that are there. If every new or changed file can be
    opened or gives an error (loading neither panics nor loops), the scan returns. The
    timestamps are those of the files; the shard of a file that is gone is dropped, that of
    a file that has not changed is kept, and a new or changed file is loaded, while one
    that cannot be loaded leaves what was served before. So if the searcher served
    just the files it knew of, and the files of the directory can be loaded, it serves just the files
    of the directory. A file whose load panics, as one of four to seven bytes does, ends the program. *)
Theorem scan_spec fs lstat timestamps s :
  let ts := statFiles fs lstat in
  (Forall (λ km, settled (loadShard' km.1 km.2)) (changed timestamps ts) →
   ∃ s', scan' (Ok fs) lstat timestamps s = Ok (ts, s') ∧
    (∀ k, ss_shards s' !! k =
      match ts !! k with
      | None => if timestamps !! k is Some _ then None else ss_shards s !! k
      | Some t => if decide (timestamps !! k = Some t) then ss_shards s !! k
                  else match loaded k t with Some sh => Some sh | None => ss_shards s !! k end
      end) ∧
    ((∀ k t, ts !! k = Some t → is_Some (loaded k t)) → (∀ k, ss_shards s !! k = timestamps !! k ≫= loaded k) →
     ∀ k, ss_shards s' !! k = ts !! k ≫= loaded k)) ∧
  (∀ l1 k t l2 w, changed timestamps ts = l1 ++ (k, t) :: l2 → Forall (λ km, settled (loadShard' km.1 km.2)) l1 →
   loadShard' k t = Panic w → scan' (Ok fs) lstat timestamps s = Panic w).
Proof.
  intros ts. split; [intros Hset|intros l1 k t l2 w El Hl1 Hp; unfold scan; cbn [mbind res_bind]; fold ts; rewrite El; by erewrite loadAll_panic].
  unfold scan. cbn [mbind res_bind]. fold ts. set (stamped := foldl _ timestamps (changed timestamps ts)).
  assert (∀ k, stamped !! k = match ts !! k with Some t => Some t | None => timestamps !! k end) as Hst.
  { intros k. destruct (stamp_lookup (changed timestamps ts) timestamps k (NoDup_changed _ _)) as [Hin Hout].
    destruct (ts !! k) as [t|] eqn:Ek; [destruct (decide (timestamps !! k = Some t)) as [Ht|Ht]|].
    - rewrite <- Ht. apply Hout. intros t' [E Hne]%elem_of_changed. congruence.
    - apply Hin. by apply elem_of_changed.
    - apply Hout. intros t' [E Hne]%elem_of_changed. congruence. }
  assert (∀ k, k ∈ gone stamped ts ↔ is_Some (timestamps !! k) ∧ ts !! k = None) as Hgone.
  { intros k. rewrite elem_of_gone, Hst. split; intros [? E]; rewrite E in *; done. }
  destruct (loadAll_ok (changed timestamps ts) (NoDup_changed _ _) Hset (foldl loader_drop s (gone stamped ts))) as (s' & -> & Hout & Hin).
  simpl. exists s'.
  assert (∀ k, ss_shards s' !! k =
      match ts !! k with
      | None => if timestamps !! k is Some _ then None else ss_shards s !! k
      | Some t => if decide (timestamps !! k = Some t) then ss_shards s !! k
                  else match loaded k t with Some sh => Some sh | None => ss_shards s !! k end
      end) as Hk.
  { intros k. pose proof (dropAll_lookup (gone stamped ts) k s) as Hd. destruct (ts !! k) as [t|] eqn:Ek.
    - rewrite decide_False in Hd by (rewrite Hgone; by intros [_ ?]; congruence).
      case_decide as Ht; [rewrite Hout; [done|]; intros t' [E Hne]%elem_of_changed; congruence|].
      rewrite (Hin k t), Hd by (by apply elem_of_changed). done.
    - rewrite Hout by (intros t' [E Hne]%elem_of_changed; congruence). rewrite Hd.
      destruct (timestamps !! k) eqn:Et; [rewrite decide_True|rewrite decide_False]; rewrite ?Hgone, ?Et; [done|by split|done|].
      by intros [[? ?] _]. }
  split_and!; [|done|].
  - do 2 f_equal. apply map_eq. intros k. rewrite unstamp_lookup, Hst. destruct (ts !! k) eqn:Ek.
    + rewrite decide_False; [done|]. rewrite Hgone, Ek. by intros [_ ?].
    + case_decide as Hg; [done|]. destruct (timestamps !! k) eqn:Et; [|done]. destruct Hg. by rewrite Hgone, Et.
  - intros Hall Hm k. rewrite Hk. destruct (ts !! k) as [t|] eqn:Ek; simpl.
    + destruct (Hall k t Ek) as [sh Hsh]. case_decide as Ht; [by rewrite Hm, Ht|]. by rewrite Hsh.
    + destruct (timestamps !! k) eqn:Et; [done|]. by rewrite Hm, Et.
Qed.
End Mirror.

(** ** Examples *)

Definition toyEntry (name : bytes) (docs : Z) : RepoListEntry :=
  MkRepoListEntry (MkRepository name [] [] None [] [] [] ∅ 7) (MkIndexMetadata 15 1 0 true ∅ []) (MkRepoStats 1 1 docs 10 20).

(** Two shards of a repository, one of another and one that crashes. *)
Lemma ListShards_spec_witness :
  ∃ l, ListShards [Ok (MkRepoList [toyEntry (str "a") 2] 0); Panic "index"; Ok (MkRepoList [toyEntry (str "b") 1] 0);
                   Ok (MkRepoList [toyEntry (str "a") 3] 0)] = Ok l ∧
    rl_Crashes l = 1 ∧ NoDup (entry_name <$> rl_Repos l) ∧ mergeEntry (toyEntry (str "a") 2) (toyEntry (str "a") 3) ∈ rl_Repos l.
Proof.
  destruct (ListShards_spec
    [Ok (MkRepoList [toyEntry (str "a") 2] 0); Panic "index"; Ok (MkRepoList [toyEntry (str "b") 1] 0); Ok (MkRepoList [toyEntry (str "a") 3] 0)]
    [MkRepoList [toyEntry (str "a") 2] 0; MkRepoList [] 1; MkRepoList [toyEntry (str "b") 1] 0; MkRepoList [toyEntry (str "a") 3] 0]
    eq_refl) as (l & Hl & Hc & Hn & He).
  exists l. split_and!; [exact Hl|exact Hc|exact Hn|]. apply He. reflexivity.
Defined.

(** A directory with a changed, an unchanged and a broken file, and one that is gone. *)
#[local] Existing Instance merge_sort_alg.
Definition toyContents (k : bytes) (mtime : Z) : option bytes := Some (if decide (k = str "broken") then str "not an index" else toyOut).
Definition toyStat (k : bytes) : option Z :=
  if decide (k = str "same") then Some 1 else if decide (k = str "vanished") then None else Some 5.
#[local] Abbreviation toyLoad := (loadShard (λ _, Some (metadata_of toyBuilder 0 [])) (λ _, Some toyRepository) toyContents).

Lemma toyLoad_changed : r_Rank ∘ d_repoMetaData <$> toyLoad (str "changed") 5 = Ok 0.
Proof. vm_compute. reflexivity. Qed.
Lemma toyLoad_broken : ∃ e, toyLoad (str "broken") 5 = Err e.
Proof. vm_compute. by eexists. Qed.

Lemma toy_settled km :
  km ∈ changed (list_to_map [(str "same", 1); (str "changed", 2); (str "gone", 1)])
         (statFiles [str "same"; str "changed"; str "broken"; str "vanished"] toyStat) → settled (toyLoad km.1 km.2).
Proof.
  intros Hin. assert (km ∈ [(str "changed", 5); (str "broken", 5)]) as [->|[->|[]%not_elem_of_nil]%elem_of_cons]%elem_of_cons.
  { match type of Hin with _ ∈ ?l => let l' := eval vm_compute in l in change l with l' in Hin end. set_solver. }
  - pose proof toyLoad_changed as Hc. by destruct (toyLoad _ _).
  - destruct toyLoad_broken as [e Hb]. cbn [fst snd]. by rewrite Hb.
Qed.

Lemma scan_spec_witness :
  let before := SS (NewWeighted 2) 2 (list_to_map [(str "same", RankedShard 1 7); (str "changed", RankedShard 2 7); (str "gone", RankedShard 3 7)]) ∅ 4 [] in
  ∃ s, scan (λ _, Some (metadata_of toyBuilder 0 [])) (λ _, Some toyRepository) toyContents (λ _, Z.to_nat)
         (Ok [str "same"; str "changed"; str "broken"; str "vanished"]) toyStat
         (list_to_map [(str "same", 1); (str "changed", 2); (str "gone", 1)]) before
       = Ok (list_to_map [(str "same", 1); (str "changed", 5); (str "broken", 5)], s) ∧
    ss_shards s !! str "same" = Some (RankedShard 1 7) ∧ ss_shards s !! str "changed" = Some (RankedShard 5 0) ∧
    ss_shards s !! str "gone" = None ∧ ss_shards s !! str "broken" = None.
Proof.
  intros before.
  destruct (scan_spec (λ _, Some (metadata_of toyBuilder 0 [])) (λ _, Some toyRepository) toyContents (λ _, Z.to_nat)
    [str "same"; str "changed"; str "broken"; str "vanished"] toyStat
    (list_to_map [(str "same", 1); (str "changed", 2); (str "gone", 1)]) before) as [Hscan _].
  destruct Hscan as (s & Hs & Hk & _); [apply Forall_forall, toy_settled|].
  exists s. split; [exact Hs|]. rewrite !Hk. split_and!; vm_compute; reflexivity.
Defined.
