(* ===== verification/Corpus.v ===== *)
(** * Searching all shards

    Joins the search of one shard (Meaning) with the aggregation over many (Aggregate): what shardedSearcher.Search of
    shards/shards.go returns for the documents of all shards together. *)

From S2P Require Import Prelude GoStd Bits Api HitIter MatchIter Query Section IndexBuilder IndexData Content MatchTree Eval Decide Shard IndexSearch Gather Lines Walk Offsets Meaning Aggregate.

Section Corpus.
Context `{RegexpEngine} `{UnicodeCase} `{SortAlg} {F : Type} `{IndexFileOk F}.
Context (validTemplate : bytes → bool) (Rel : bytes → bytes → option bytes) (reString : Regexp → bytes).

(** A loaded shard, with the builder that wrote it and the documents that were added to it; [se_parts] are the symbol sections in
    runes. [se_ctx] tells whether the context is done each time the search of this shard asks. *)
Record served := MkServed {
  se_data : indexData F;
  se_builder : IndexBuilder;
  se_docs : list Document;
  se_parts : list (list (nat * nat));
  se_ctx : nat → bool }.

(** What [Search_means] asks of a shard and a query. *)
Record served_ok (q : Q) (s : served) : Prop := {
  ok_builds : builds validTemplate Rel (se_builder s) (se_docs s);
  ok_shard : shard_of (se_data s) (se_builder s) (se_docs s);
  ok_searchable : searchable (se_data s) (se_docs s);
  ok_parts : Forall2 aligned (se_docs s) (se_parts s);
  ok_names : NoDup (br_Name <$> r_Branches (b_repo (se_builder s)));
  ok_count : lenZ (map_to_list (default ∅ (r_SubRepoMap (b_repo (se_builder s))))) < two32;
  ok_subs : ∀ path sr, default ∅ (r_SubRepoMap (b_repo (se_builder s))) !! path = Some sr →
    (length (r_Branches (b_repo (se_builder s))) <= length (r_Branches sr))%nat;
  ok_query : query_fine (se_data s) (se_docs s) reString q;
  ok_docs : se_docs s ≠ [] }.
Context (Hfind : ∀ r t, Forall (λ ab, 0 <= fst ab <= snd ab ∧ snd ab <= lenZ t) (FindAllIndex r t)).

Definition searchServed (q : Q) (opts : SearchOptions) (s : served) : res SearchResult :=
  Search (se_data s) reString (se_ctx s) q opts.

(** The result of one shard: the documents that satisfy the query among the first [stop], all of them unless a limit was
    reached. *)
Definition answers (q : Q) (opts : SearchOptions) (s : served) (r : SearchResult) : Prop :=
  ∃ stop : nat, (stop <= length (se_docs s))%nat ∧
    (fm_FileName <$> sr_Files r) ≡ₚ (doc_Name <$> filter (λ doc, satisfies (se_builder s) reString q doc = true) (take stop (se_docs s))) ∧
    ((stop < length (se_docs s))%nat → limited (se_ctx s) opts r).

Lemma searchServed_answers q opts s : so_EstimateDocCount opts = false → served_ok q s →
  ∃ r, searchServed q opts s = Ok r ∧ answers q opts s r.
Proof.
  intros Hopt []. destruct (se_ctx s 0%nat) eqn:Hctx.
  - assert (∃ r, searchServed q opts s = Ok r ∧ sr_Files r = []) as (r & E & Ef).
    { unfold searchServed, Search. rewrite Hctx. destruct (_ =? 0); by eexists. }
    exists r. split; [done|]. exists 0%nat. split_and!; [lia|by rewrite Ef|]. intros _. left. by exists 0%nat.
  - destruct (builds_repo _ _ _ _ ok_builds0) as [Hfew Hidx]. pose proof (se_size _ _ ok_searchable0) as Hsz.
    assert (∃ r (stop : nat), Search (se_data s) reString (se_ctx s) q opts = Ok r ∧ (stop <= length (se_docs s))%nat ∧
      (fm_FileName <$> sr_Files r) ≡ₚ (doc_Name <$> filter (λ doc, satisfies (se_builder s) reString q doc = true) (take stop (se_docs s))) ∧
      ((stop < length (se_docs s))%nat → limited (se_ctx s) opts r)) as (r & stop & E & Hr); [|exists r; split; [done|]; by exists stop].
    apply (Search_means (se_data s) (se_builder s) (se_docs s) ok_shard0 ok_searchable0 (se_parts s) ok_parts0); try done.
    + rewrite (so_runeDocSections _ _ _ ok_shard0). apply (builds_sections _ _ _ _ _ ok_builds0 (Hsz false) (Hsz true) ok_parts0).
    + intros path k. rewrite Hidx. by apply subRepo_numbered.
Qed.

(** The names of the documents that satisfy the query among the first [stop] of a shard. *)
Definition found_names (q : Q) (s : served) (stop : nat) : list bytes :=
  doc_Name <$> filter (λ doc, satisfies (se_builder s) reString q doc = true) (take stop (se_docs s)).
(** Where the search of a shard stopped: at its end, unless a limit was reached. *)
Definition stopped (q : Q) (opts : SearchOptions) (s : served) (stop : nat) : Prop :=
  stop = length (se_docs s) ∨ ∃ o, searchServed q opts s = Ok o ∧ limited (se_ctx s) opts o.

Lemma searchAll q opts shards : so_EstimateDocCount opts = false → Forall (served_ok q) shards →
  ∃ oks stops, searchServed q opts <$> shards = Ok <$> oks ∧ Forall2 (stopped q opts) shards stops ∧
    fm_FileName <$> concat (sr_Files <$> oks) ≡ₚ concat (zip_with (found_names q) shards stops).
Proof.
  intros Hopt. induction 1 as [|s shards Hs _ (oks & stops & E & Hst & Hf)]; [by exists [], []|].
  destruct (searchServed_answers q opts s Hopt Hs) as (r & Er & stop & Hle & Hr & Hlim). exists (r :: oks), (stop :: stops).
  rewrite !fmap_cons, Er, E. split_and!; [done| |].
  - constructor; [|done]. destruct (decide (stop = length (se_docs s))); [by left|]. right. exists r. split; [done|]. apply Hlim. lia.
  - cbn [concat zip_with]. rewrite fmap_app. by rewrite Hr, Hf.
Qed.

(** C2: a search over all shards finds the documents that satisfy the query. For shards that each answer for the documents of a
    builder, and whatever the order in which their results arrive, the search returns no error, and its files, before they are cut to
    a MaxDocDisplayCount above 0, are the documents of all shards that satisfy the query, each once, in
    each shard up to the document where the search was cancelled or had found enough. *)
Theorem search_corpus q opts shards rs (Hopt : so_EstimateDocCount opts = false) (Hok : Forall (served_ok q) shards)
    (Hrs : rs ≡ₚ searchServed q opts <$> shards) :
  ∃ r sorted stops, SearchShards opts rs = Ok r ∧ cutAt (so_MaxDocDisplayCount opts) sorted (sr_Files r) ∧ Forall2 (stopped q opts) shards stops ∧
    fm_FileName <$> sorted ≡ₚ concat (zip_with (found_names q) shards stops).
Proof.
  destruct (searchAll q opts shards Hopt Hok) as (oks & stops & E & Hst & Hf). rewrite E in Hrs.
  destruct (SearchShards_union opts rs oks) as (r & sorted & Er & _ & Hsort & Hfiles & _).
  { rewrite Hrs, <- list_fmap_compose. done. }
  exists r, sorted, stops. split_and!; try done. by rewrite Hsort.
Qed.
End Corpus.

(** Witness: the written and loaded shard twice, the second result first. *)
Definition toyServed : served := MkServed toyShard toyBuilder toyDocs [[(8, 12)]; []]%nat (λ _, false).
Lemma toyServed_ok : @served_ok toyEngine unicode_latin merge_sort_alg _ _ (λ _, true) (λ _ _, None) toyString toyFindQuery toyServed.
Proof.
  split; cbn [se_data se_builder se_docs se_parts toyServed]; rewrite ?toyRepo_eq.
  - exact toyBuilder_builds.
  - exact toyShard_of.
  - exact toySearchable.
  - rewrite toyDocs_eq. repeat constructor; simpl; lia.
  - constructor.
  - vm_compute. reflexivity.
  - intros path sr _. simpl. lia.
  - exact toyFindQuery_fine.
  - rewrite toyDocs_eq. discriminate.
Qed.

Lemma search_corpus_witness :
  let search := @searchServed toyEngine unicode_latin merge_sort_alg _ _ toyString toyFindQuery toyOptions in
  @found_names toyEngine unicode_latin indexFileFromOS toyString toyFindQuery toyServed 2 = [str "f2"] ∧
  ∃ r sorted stops, @SearchShards merge_sort_alg toyOptions [search toyServed; search toyServed] = Ok r ∧
    cutAt (so_MaxDocDisplayCount toyOptions) sorted (sr_Files r) ∧
    Forall2 (@stopped toyEngine unicode_latin merge_sort_alg _ _ toyString toyFindQuery toyOptions) [toyServed; toyServed] stops ∧
    fm_FileName <$> sorted ≡ₚ concat (zip_with (@found_names toyEngine unicode_latin indexFileFromOS toyString toyFindQuery) [toyServed; toyServed] stops).
Proof.
  intros search. split; [vm_compute; reflexivity|].
  apply (@search_corpus toyEngine unicode_latin merge_sort_alg _ _ _ (λ _, true) (λ _ _, None)).
  - exact toyEngine_bounds.
  - reflexivity.
  - repeat apply Forall_cons_2; [exact toyServed_ok..|apply Forall_nil_2].
  - reflexivity.
Defined.
