(* ===== verification/Heap.v ===== *)
(** * container/heap

    Go's binary heaps, over the interface that a client implements: [HeapInterface] has
    its operations and [HeapLaws] says which list of keys they work on. The theory is
    about that list: sifting up and down restores the heap order, and the root of a heap is
    least. *)

From Stdlib Require Import ZifyNat.
From S2P Require Import Prelude GoStd.

#[local] Ltac Zify.zify_post_hook ::= Z.to_euclidean_division_equations.

(** ** The operations *)

Class HeapInterface (S : Type) := {
  h_Len : S → nat;
  h_Less : S → nat → nat → bool;
  h_Swap : S → nat → nat → S }.

Definition parent (j : nat) : nat := ((j - 1) / 2)%nat.

Section Operations.
Context {T : Type} `{HeapInterface T}.

Fixpoint up_loop (fuel : nat) (h : T) (j : nat) : T :=
  match fuel with
  | O => h
  | S fuel =>
    let i := parent j in
    if (i =? j)%nat || negb (h_Less h j i) then h else up_loop fuel (h_Swap h i j) i
  end.
(** The index decreases. *)
Definition up (h : T) (j : nat) : T := up_loop (S j) h j.

Fixpoint down_loop (fuel : nat) (h : T) (i n : nat) : T * nat :=
  match fuel with
  | O => (h, i)
  | S fuel =>
    let j1 := (2 * i + 1)%nat in
    if (n <=? j1)%nat then (h, i)
    else
      let j2 := (j1 + 1)%nat in
      let j := if (j2 <? n)%nat && h_Less h j2 j1 then j2 else j1 in
      if negb (h_Less h j i) then (h, i) else down_loop fuel (h_Swap h i j) j n
  end.
(** The index grows up to [n]. *)
Definition down (h : T) (i0 n : nat) : T * bool :=
  let '(h, i) := down_loop (S n) h i0 n in (h, (i0 <? i)%nat).

Definition heap_Fix (h : T) (i : nat) : T :=
  let '(h, moved) := down h i (h_Len h) in if (moved : bool) then h else up h i.
End Operations.

(** ** The heap order *)

Lemma parent_lt k : (0 < k)%nat → (parent k < k)%nat.
Proof. unfold parent. lia. Qed.

Definition swap {A} `{Inhabited A} (l : list A) (i j : nat) : list A := <[i := l !!! j]> (<[j := l !!! i]> l).

Lemma swap_lookup {A} `{Inhabited A} (l : list A) i j a b k : l !! i = Some a → l !! j = Some b →
  swap l i j !! k = if decide (k = i) then Some b else if decide (k = j) then Some a else l !! k.
Proof.
  intros Ha Hb. pose proof (lookup_lt_Some _ _ _ Ha). pose proof (lookup_lt_Some _ _ _ Hb). unfold swap.
  rewrite (list_lookup_total_correct _ _ _ Ha), (list_lookup_total_correct _ _ _ Hb).
  repeat case_decide; subst; rewrite ?list_lookup_insert_eq, ?list_lookup_insert_ne by (rewrite ?length_insert; done); try done.
  by rewrite list_lookup_insert_eq.
Qed.
Lemma fmap_swap {A B} `{Inhabited A, Inhabited B} (f : A → B) (l : list A) i j : (i < length l)%nat → (j < length l)%nat →
  f <$> swap l i j = swap (f <$> l) i j.
Proof.
  intros [a Ha]%lookup_lt_is_Some_2 [b Hb]%lookup_lt_is_Some_2. apply list_eq. intros k.
  rewrite list_lookup_fmap, (swap_lookup _ _ _ a b), (swap_lookup _ _ _ (f a) (f b)) by (by rewrite ?list_lookup_fmap, ?Ha, ?Hb).
  repeat case_decide; try done. by rewrite list_lookup_fmap.
Qed.

Section Order.
Context {A : Type} `{Inhabited A} (lt : A → A → bool) (Hlt : weak_order lt).

Lemma lt_asym x y : lt x y = true → lt y x = false.
Proof using Hlt. destruct Hlt as (_ & _ & Ha). apply Ha. Qed.
Lemma le_trans x y z : lt y x = false → lt z y = false → lt z x = false.
Proof using Hlt. destruct Hlt as (_ & Ht & _). apply Ht. Qed.

Lemma length_swap (l : list A) i j : length (swap l i j) = length l.
Proof. unfold swap. by rewrite !length_insert. Qed.
Lemma swap_fst (l : list A) i j : (i < length l)%nat → swap l i j !!! i = l !!! j.
Proof. intros. unfold swap. apply list_lookup_total_insert_eq. by rewrite length_insert. Qed.
Lemma swap_snd (l : list A) i j : (i < length l)%nat → (j < length l)%nat → swap l i j !!! j = l !!! i.
Proof.
  intros. unfold swap. destruct (decide (i = j)) as [->|]; [apply list_lookup_total_insert_eq; by rewrite length_insert|].
  rewrite list_lookup_total_insert_ne by done. by apply list_lookup_total_insert_eq.
Qed.
Lemma swap_other (l : list A) i j k : k ≠ i → k ≠ j → swap l i j !!! k = l !!! k.
Proof. intros. unfold swap. by rewrite !list_lookup_total_insert_ne. Qed.
Lemma swap_perm (l : list A) i j : (i < length l)%nat → (j < length l)%nat → swap l i j ≡ₚ l.
Proof.
  intros Hi Hj. apply Permutation_inj. split; [apply length_swap|].
  exists (λ k, if decide (k = i) then j else if decide (k = j) then i else k). split.
  - intros x y. repeat case_decide; congruence.
  - intros k. destruct (decide (k < length l)%nat) as [Hk|Hk].
    + rewrite (list_lookup_lookup_total_lt (swap l i j)) by (by rewrite length_swap).
      repeat case_decide; subst; rewrite ?list_lookup_lookup_total_lt by done; f_equal.
      * by rewrite swap_fst.
      * by rewrite swap_snd.
      * by rewrite swap_other.
    + repeat case_decide; subst; try lia. rewrite !lookup_ge_None_2; rewrite ?length_swap; by try lia.
Qed.

(** The element at [i] is not before its parent. *)
Definition ord (l : list A) (i : nat) : Prop := (0 < i)%nat → lt (l !!! i) (l !!! parent i) = false.
Definition heap (n : nat) (l : list A) : Prop := ∀ i, (i < n)%nat → ord l i.

(** A heap but for the element at [j]: it may be before its parent, or it may be before its
    parent and after its children. *)
Definition grand (n : nat) (l : list A) (j : nat) : Prop :=
  ∀ k, (0 < k < n)%nat → parent k = j → (0 < j)%nat → lt (l !!! k) (l !!! parent j) = false.
Definition up_pre (n : nat) (l : list A) (j : nat) : Prop := (∀ k, (k < n)%nat → k ≠ j → ord l k) ∧ grand n l j.
Definition fix_pre (n : nat) (l : list A) (j : nat) : Prop :=
  (∀ k, (k < n)%nat → k ≠ j → parent k ≠ j → ord l k) ∧ grand n l j.

Lemma heap_root n l k : heap n l → (k < n)%nat → lt (l !!! k) (l !!! 0%nat) = false.
Proof using Hlt.
  intros Hh. induction (lt_wf k) as [k _ IH]. intros Hk. destruct (decide (k = 0%nat)) as [->|Hne].
  - destruct Hlt as (Hirr & _). apply Hirr.
  - apply (le_trans _ (l !!! parent k)); [apply IH; unfold parent; lia|]. apply Hh; lia.
Qed.

Lemma heap_fix_pre n l j x : heap n l → (j < length l)%nat → fix_pre n (<[j := x]> l) j.
Proof using Hlt.
  intros Hh Hj. split.
  - intros k Hk Hkj Hpk Hk0. rewrite !list_lookup_total_insert_ne by done. by apply Hh.
  - intros k [Hk0 Hk] Hp Hj0. assert (parent k ≠ k ∧ parent j ≠ j) as [H1 H2] by (unfold parent in *; lia).
    rewrite !list_lookup_total_insert_ne by congruence. apply (le_trans _ (l !!! j)); [apply Hh; unfold parent in *; lia|].
    rewrite <- Hp. by apply Hh.
Qed.

Lemma up_step n l j : (j < n)%nat → (n <= length l)%nat → (0 < j)%nat → up_pre n l j → lt (l !!! j) (l !!! parent j) = true →
  up_pre n (swap l (parent j) j) (parent j).
Proof using Hlt.
  intros Hj Hn Hj0 [Hord Hgr] Hlt'. set (i := parent j) in *. assert (i < j)%nat as Hij by (unfold i, parent; lia).
  pose proof (lt_asym _ _ Hlt') as Hle.
  assert (∀ k, (0 < k < n)%nat → parent k = i → k ≠ j → lt (l !!! k) (l !!! i) = false) as Hsib.
  { intros k Hk Hp Hkj. rewrite <- Hp. apply Hord; [lia|done|lia]. }
  split.
  - intros k Hk Hki Hk0. destruct (decide (k = j)) as [->|Hkj].
    + fold i. rewrite swap_snd, swap_fst by lia. done.
    + rewrite (swap_other l i j k) by done. destruct (decide (parent k = i)) as [Hp|Hp].
      * rewrite Hp, swap_fst by lia. apply (le_trans _ (l !!! i)); [done|]. by apply Hsib.
      * destruct (decide (parent k = j)) as [Hp'|Hp'].
        -- rewrite Hp', swap_snd by lia. by apply Hgr.
        -- rewrite swap_other by done. by apply Hord.
  - intros k Hk Hp Hi0. rewrite (swap_other l i j (parent i)) by (unfold parent in *; lia).
    assert (lt (l !!! i) (l !!! parent i) = false) as Hoi by (apply Hord; lia).
    destruct (decide (k = j)) as [->|Hkj]; [by rewrite swap_snd by lia|].
    rewrite swap_other by (unfold parent in *; lia). apply (le_trans _ (l !!! i)); [done|by apply Hsib].
Qed.

(** The smaller child of [i]. *)
Definition child (n : nat) (l : list A) (i : nat) : nat :=
  let j1 := (2 * i + 1)%nat in if ((j1 + 1 <? n)%nat && lt (l !!! (j1 + 1)%nat) (l !!! j1)) then (j1 + 1)%nat else j1.

Lemma child_least n l i : (2 * i + 1 < n)%nat →
  (child n l i < n)%nat ∧ parent (child n l i) = i ∧ (i < child n l i)%nat ∧
  ∀ k, (0 < k < n)%nat → parent k = i → lt (l !!! k) (l !!! child n l i) = false.
Proof using Hlt.
  intros Hn. unfold child. set (j1 := (2 * i + 1)%nat) in *. destruct Hlt as (Hirr & _ & Has).
  assert (∀ k, (0 < k)%nat → parent k = i → k = j1 ∨ k = (j1 + 1)%nat) as Hk by (unfold parent; lia).
  destruct (Nat.ltb_spec (j1 + 1) n), (lt (l !!! (j1 + 1)%nat) (l !!! j1)) eqn:E; cbn [andb];
    (split_and!; [lia|unfold parent; lia|lia|]); intros k [Hk0 Hkn] Hp; destruct (Hk k Hk0 Hp) as [->| ->]; auto; lia.
Qed.

Lemma down_stop n l i : fix_pre n l i → ((n <= 2 * i + 1)%nat ∨ lt (l !!! child n l i) (l !!! i) = false) →
  ∀ k, (k < n)%nat → k ≠ i → ord l k.
Proof using Hlt.
  intros [Hord _] Hs k Hk Hki Hk0. destruct (decide (parent k = i)) as [Hp|Hp]; [|by apply Hord].
  destruct Hs as [?|Hs]; [unfold parent in Hp; lia|].
  destruct (child_least n l i) as (_ & _ & _ & Hl); [unfold parent in Hp; lia|]. rewrite Hp.
  apply (le_trans _ (l !!! child n l i)); [done|]. by apply Hl.
Qed.

Lemma down_step n l i : (n <= length l)%nat → (2 * i + 1 < n)%nat → fix_pre n l i → lt (l !!! child n l i) (l !!! i) = true →
  fix_pre n (swap l i (child n l i)) (child n l i) ∧ ord (swap l i (child n l i)) (child n l i).
Proof using Hlt.
  intros Hn Hi [Hord Hgr] Hlt'. destruct (child_least n l i Hi) as (Hj & Hp & Hij & Hl).
  set (j := child n l i) in *. pose proof (lt_asym _ _ Hlt') as Hle. assert (parent i ≠ i ∨ i = 0%nat) as Hpi by (unfold parent; lia).
  split; [split|].
  - intros k Hk Hkj Hpk Hk0. destruct (decide (k = i)) as [->|Hki].
    + rewrite swap_fst, (swap_other l i j (parent i)) by (unfold parent in *; lia). apply Hgr; [lia|done|lia].
    + rewrite (swap_other l i j k) by done. destruct (decide (parent k = i)) as [Hpk'|Hpk'].
      * rewrite Hpk', swap_fst by lia. apply Hl; [lia|done].
      * rewrite swap_other by done. by apply Hord.
  - intros k Hk Hpk _. rewrite Hp, swap_fst by lia. rewrite swap_other by (unfold parent in *; lia).
    rewrite <- Hpk. apply Hord; unfold parent in *; lia.
  - intros _. rewrite Hp, swap_snd, swap_fst by lia. done.
Qed.
End Order.

(** ** The operations restore the order *)

(** [h_keys] is the list of keys that an implementation holds, [h_inv] its own
    invariant. *)
Class HeapLaws (T : Type) `{HeapInterface T} {A : Type} `{Inhabited A} (lt : A → A → bool) := {
  h_keys : T → list A;
  h_inv : T → Prop;
  h_order : weak_order lt;
  h_len h : h_inv h → h_Len h = length (h_keys h);
  h_less h i j : h_inv h → (i < h_Len h)%nat → (j < h_Len h)%nat → h_Less h i j = lt (h_keys h !!! i) (h_keys h !!! j);
  h_swap h i j : h_inv h → (i < h_Len h)%nat → (j < h_Len h)%nat →
    h_inv (h_Swap h i j) ∧ h_keys (h_Swap h i j) = swap (h_keys h) i j }.

Section Restore.
Context {T : Type} `{HeapInterface T} {A : Type} `{Inhabited A} (lt : A → A → bool) `{!HeapLaws T lt}.

(** [h'] comes from [h] by exchanging elements below [n]. *)
Inductive swaps (n : nat) : T → T → Prop :=
| swaps_refl h : swaps n h h
| swaps_step h i j h' : (i < n)%nat → (j < n)%nat → swaps n (h_Swap h i j) h' → swaps n h h'.

Lemma swaps_keep n h h' : swaps n h h' → (n <= h_Len h)%nat → h_inv h → h_inv h' ∧ h_keys h' ≡ₚ h_keys h ∧ h_Len h' = h_Len h.
Proof.
  induction 1 as [h|h i j h' Hi Hj _ IH]; intros Hn Hinv; [done|]. destruct (h_swap h i j Hinv) as [Hinv' Hk]; [lia..|].
  pose proof (h_len h Hinv) as Hlen. assert (h_Len (h_Swap h i j) = h_Len h) as Hl' by (rewrite (h_len _ Hinv'), Hk, length_swap; lia).
  destruct IH as (Hh' & Hp & Hl); [lia|done|]. split; [done|]. rewrite Hp, Hl, Hk. split; [apply swap_perm; lia|done].
Qed.

Lemma up_loop_ok n : ∀ fuel h j, (j < fuel)%nat → (j < n)%nat → h_inv h → h_Len h = n → up_pre lt n (h_keys h) j →
  swaps n h (up_loop fuel h j) ∧ heap lt n (h_keys (up_loop fuel h j)).
Proof.
  induction fuel as [|fuel IH]; intros h j Hf Hj Hinv Hn Hpre; [lia|]. cbn [up_loop].
  pose proof (h_len h Hinv) as Hlen. destruct (Nat.eqb_spec (parent j) j) as [Hp|Hp]; cbn [orb].
  { split; [constructor|]. intros k Hk. destruct (decide (k = j)) as [->|Hkj]; [unfold parent in Hp; intros ?; lia|by apply Hpre]. }
  assert (parent j < j)%nat as Hlt by (unfold parent in *; lia).
  rewrite (h_less h j (parent j) Hinv) by lia. destruct (lt (h_keys h !!! j) (h_keys h !!! parent j)) eqn:E; cbn [negb].
  - destruct (h_swap h (parent j) j Hinv) as [Hinv' Hk]; [lia..|].
    destruct (IH (h_Swap h (parent j) j) (parent j)) as [Hs Hh]; [lia|lia|done| | |].
    + by rewrite (h_len _ Hinv'), Hk, length_swap, <- Hlen.
    + rewrite Hk. apply up_step; [apply h_order|lia..|done|done].
    + split; [|done]. eapply swaps_step; [| |exact Hs]; lia.
  - split; [constructor|]. intros k Hk. destruct (decide (k = j)) as [->|Hkj]; [by intros _|by apply Hpre].
Qed.

Lemma up_ok h j : (j < h_Len h)%nat → h_inv h → up_pre lt (h_Len h) (h_keys h) j →
  swaps (h_Len h) h (up h j) ∧ heap lt (h_Len h) (h_keys (up h j)).
Proof. intros. apply (up_loop_ok (h_Len h)); auto with lia. Qed.

(** Sifting down either does nothing, and then only the parent may be too large, or
    makes a heap. *)
Lemma down_loop_ok n : ∀ fuel h i, (n <= fuel + i)%nat → (i < n)%nat → h_inv h → (n <= h_Len h)%nat → fix_pre lt n (h_keys h) i →
  let '(h', i') := down_loop fuel h i n in
  swaps n h h' ∧ (i <= i')%nat ∧
  (i' = i → h' = h ∧ ∀ k, (k < n)%nat → k ≠ i → ord lt (h_keys h) k) ∧
  (i' ≠ i ∨ ord lt (h_keys h) i → heap lt n (h_keys h')).
Proof.
  induction fuel as [|fuel IH]; intros h i Hf Hi Hinv Hn Hpre; [lia|]. cbn [down_loop].
  pose proof (h_len h Hinv) as Hlen. pose proof (h_order (lt := lt)) as Hord.
  assert (∀ c : bool, (∀ k, (k < n)%nat → k ≠ i → ord lt (h_keys h) k) → swaps n h h ∧ (i <= i)%nat ∧
    (i = i → h = h ∧ ∀ k, (k < n)%nat → k ≠ i → ord lt (h_keys h) k) ∧ (i ≠ i ∨ ord lt (h_keys h) i → heap lt n (h_keys h))) as Hstop.
  { intros _ Hk. split_and!; [constructor|done|done|]. intros [?|Ho] k Hkn; [done|]. destruct (decide (k = i)) as [->|]; auto. }
  destruct (Nat.leb_spec n (2 * i + 1)) as [Hle|Hgt]; [apply (Hstop true), (down_stop lt Hord _ _ _ Hpre); by left|].
  set (j := if _ && h_Less h (2 * i + 1 + 1) (2 * i + 1) then (2 * i + 1 + 1)%nat else (2 * i + 1)%nat).
  assert (j = child lt n (h_keys h) i) as ->.
  { unfold j, child. destruct (Nat.ltb_spec (2 * i + 1 + 1) n); [|done]. by rewrite (h_less h) by (done || lia). }
  destruct (child_least lt Hord n (h_keys h) i Hgt) as (Hj & Hp & Hij & _).
  rewrite (h_less h) by (done || lia). destruct (lt (h_keys h !!! child lt n (h_keys h) i) (h_keys h !!! i)) eqn:E; cbn [negb].
  - destruct (h_swap h i (child lt n (h_keys h) i) Hinv) as [Hinv' Hk]; [lia..|].
    destruct (down_step lt Hord n (h_keys h) i) as [Hfp Ho]; [lia|done|done|done|].
    rewrite <- Hk in Hfp, Ho. specialize (IH (h_Swap h i (child lt n (h_keys h) i)) (child lt n (h_keys h) i)).
    destruct (down_loop fuel _ _ n) as [h' i']. destruct IH as (Hs & Hi' & _ & Hh); [lia|lia|done| |done|].
    { rewrite (h_len _ Hinv'), Hk, length_swap. lia. }
    split_and!; [|lia|lia|intros _; apply Hh; by right]. eapply swaps_step; [| |exact Hs]; lia.
  - apply (Hstop true), (down_stop lt Hord _ _ _ Hpre). by right.
Qed.

(** Fix after the key at [i] has changed. *)
Lemma heap_Fix_ok h i : (i < h_Len h)%nat → h_inv h → fix_pre lt (h_Len h) (h_keys h) i →
  swaps (h_Len h) h (heap_Fix h i) ∧ heap lt (h_Len h) (h_keys (heap_Fix h i)).
Proof.
  intros Hi Hinv Hpre. unfold heap_Fix, down.
  pose proof (down_loop_ok (h_Len h) (S (h_Len h)) h i ltac:(lia) Hi Hinv ltac:(lia) Hpre) as Hd.
  destruct (down_loop _ h i _) as [h' i']. destruct Hd as (Hs & Hle & Hstop & Hh).
  destruct (Nat.ltb_spec i i') as [Hlt|Hge]; [split; [done|]; apply Hh; left; lia|].
  destruct Hstop as [-> Hord]; [lia|]. apply up_ok; [done|done|]. by split; [|apply Hpre].
Qed.

(** Sifting the root down within the first [n] elements. *)
Lemma down_root_ok h n : (n <= h_Len h)%nat → h_inv h → fix_pre lt n (h_keys h) 0 →
  swaps n h (fst (down h 0 n)) ∧ heap lt n (h_keys (fst (down h 0 n))).
Proof.
  intros Hn Hinv Hpre. unfold down. destruct (decide (n = 0%nat)) as [->|Hne]; [split; [constructor|intros i; lia]|].
  pose proof (down_loop_ok n (S n) h 0 ltac:(lia) ltac:(lia) Hinv Hn Hpre) as Hd.
  destruct (down_loop _ h 0 n) as [h' i']. destruct Hd as (Hs & _ & _ & Hh). split; [done|]. apply Hh. right. intros ?. lia.
Qed.
End Restore.
