(* ===== verification/Queue.v ===== *)
(** * cmd/zoekt-sourcegraph-indexserver/queue.go: which repository to index next

    The queue keeps its items in a map and, by pointer, in a binary heap. An item is known
    here by the name of its repository, which is its key in the map; the heap is a
    list of names, and an update of an item through one is seen through the other. *)

From S2P Require Import Prelude GoStd Heap.

Record queueItem := MkItem {
  qi_repoName : bytes;
  qi_indexedCommit : bytes;
  qi_latestCommit : bytes;
  qi_heapIdx : Z;
  qi_seq : Z }.

Record Queue := MkQueue { q_items : gmap bytes queueItem; q_pq : list bytes; q_seq : Z }.
Definition queue0 : Queue := MkQueue ∅ [] 0.

Definition newItem (name : bytes) : queueItem := MkItem name [] [] (-1) 0.

(** The item a name points to. *)
Definition item (q : Queue) (name : bytes) : queueItem := default (newItem name) (q_items q !! name).
Definition update (q : Queue) (name : bytes) (f : queueItem → queueItem) : Queue :=
  MkQueue (<[name := f (item q name)]> (q_items q)) (q_pq q) (q_seq q).

Definition set_heapIdx (i : Z) (it : queueItem) : queueItem :=
  MkItem (qi_repoName it) (qi_indexedCommit it) (qi_latestCommit it) i (qi_seq it).
Definition set_seq (s : Z) (it : queueItem) : queueItem :=
  MkItem (qi_repoName it) (qi_indexedCommit it) (qi_latestCommit it) (qi_heapIdx it) s.
Definition set_latest (c : bytes) (it : queueItem) : queueItem :=
  MkItem (qi_repoName it) (qi_indexedCommit it) c (qi_heapIdx it) (qi_seq it).
Definition set_indexed (c : bytes) (it : queueItem) : queueItem :=
  MkItem (qi_repoName it) c (qi_latestCommit it) (qi_heapIdx it) (qi_seq it).

(** get: the queue with an item for the name. *)
Definition get (q : Queue) (name : bytes) : Queue := update q name id.

(** ** pqueue *)

Definition isIndexed (it : queueItem) : bool := bool_decide (qi_indexedCommit it = qi_latestCommit it).

Definition lessItem (x y : queueItem) : bool :=
  if Bool.eqb (isIndexed x) (isIndexed y) then qi_seq x <? qi_seq y else negb (isIndexed x).
Definition pq_Less (q : Queue) (i j : nat) : bool := lessItem (item q (q_pq q !!! i)) (item q (q_pq q !!! j)).

Definition pq_Swap (q : Queue) (i j : nat) : Queue :=
  let q := MkQueue (q_items q) (swap (q_pq q) i j) (q_seq q) in
  let q := update q (q_pq q !!! i) (set_heapIdx (Z.of_nat i)) in
  update q (q_pq q !!! j) (set_heapIdx (Z.of_nat j)).

Definition pq_Push (q : Queue) (name : bytes) : Queue :=
  let q' := update q name (set_heapIdx (lenZ (q_pq q))) in
  MkQueue (q_items q') (q_pq q ++ [name]) (q_seq q).

Definition pq_Pop (q : Queue) : bytes * Queue :=
  let n := length (q_pq q) in
  let name := q_pq q !!! (n - 1)%nat in
  let q' := update q name (set_heapIdx (-1)) in
  (name, MkQueue (q_items q') (take (n - 1) (q_pq q)) (q_seq q)).

#[export] Instance pqueue_heap : HeapInterface Queue := {
  h_Len q := length (q_pq q);
  h_Less := pq_Less;
  h_Swap := pq_Swap }.

(** heap.Push and heap.Pop. *)
Definition heap_Push (q : Queue) (name : bytes) : Queue :=
  let q := pq_Push q name in up q (h_Len q - 1).
Definition heap_Pop (q : Queue) : bytes * Queue :=
  let n := (h_Len q - 1)%nat in
  let q := h_Swap q 0 n in
  pq_Pop (fst (down q 0 n)).

(** ** Queue *)

(** The repository and commit, if there is one. *)
Definition Pop (q : Queue) : option (bytes * bytes) * Queue :=
  if decide (q_pq q = []) then (None, q)
  else let '(name, q) := heap_Pop q in (Some (qi_repoName (item q name), qi_latestCommit (item q name)), q).

Definition Len (q : Queue) : nat := length (q_pq q).

Definition AddOrUpdate (q : Queue) (repoName commit : bytes) : Queue :=
  let q := get q repoName in
  let q := update q repoName (set_latest commit) in
  if qi_heapIdx (item q repoName) <? 0 then
    let seq := q_seq q + 1 in
    let q := MkQueue (q_items q) (q_pq q) seq in
    heap_Push (update q repoName (set_seq seq)) repoName
  else heap_Fix q (Z.to_nat (qi_heapIdx (item q repoName))).

Definition SetIndexed (q : Queue) (repoName indexed : bytes) : Queue :=
  let q := get q repoName in
  let q := update q repoName (set_indexed indexed) in
  if 0 <=? qi_heapIdx (item q repoName) then heap_Fix q (Z.to_nat (qi_heapIdx (item q repoName))) else q.

(** ** What a client sees

    A repository has an indexed and a latest commit and, when it is queued, the number it got
    when it entered the queue. *)

Record entry := Entry { e_indexed : bytes; e_latest : bytes; e_queued : option Z }.
Definition entry_of (it : queueItem) : entry :=
  Entry (qi_indexedCommit it) (qi_latestCommit it) (if qi_heapIdx it <? 0 then None else Some (qi_seq it)).
Definition view (q : Queue) : gmap bytes entry := entry_of <$> q_items q.
Definition entry0 : entry := Entry [] [] None.

(** Stale repositories first, then in the order of arrival. *)
Definition before (x y : entry) : Prop :=
  match e_queued x, e_queued y with
  | Some s, Some t =>
    let ix := bool_decide (e_indexed x = e_latest x) in let iy := bool_decide (e_indexed y = e_latest y) in
    (ix = false ∧ iy = true) ∨ (ix = iy ∧ s < t)
  | _, _ => False
  end.

Inductive op := OpPop | OpAdd (name commit : bytes) | OpSetIndexed (name indexed : bytes).

(** The specification: a map of repositories and the last number given. *)
Inductive spec : gmap bytes entry * Z → op → option (bytes * bytes) → gmap bytes entry * Z → Prop :=
| spec_pop_empty m seq : (∀ name e, m !! name = Some e → e_queued e = None) → spec (m, seq) OpPop None (m, seq)
| spec_pop m seq name e s : m !! name = Some e → e_queued e = Some s →
    (∀ name' e', m !! name' = Some e' → is_Some (e_queued e') → name' ≠ name → before e e') →
    spec (m, seq) OpPop (Some (name, e_latest e)) (<[name := Entry (e_indexed e) (e_latest e) None]> m, seq)
| spec_add_new m seq name commit : e_queued (default entry0 (m !! name)) = None →
    spec (m, seq) (OpAdd name commit) None
      (<[name := Entry (e_indexed (default entry0 (m !! name))) commit (Some (seq + 1))]> m, seq + 1)
| spec_add_queued m seq name commit e s : m !! name = Some e → e_queued e = Some s →
    spec (m, seq) (OpAdd name commit) None (<[name := Entry (e_indexed e) commit (Some s)]> m, seq)
| spec_set m seq name indexed :
    spec (m, seq) (OpSetIndexed name indexed) None
      (<[name := Entry indexed (e_latest (default entry0 (m !! name))) (e_queued (default entry0 (m !! name)))]> m, seq).

Definition exec (q : Queue) (o : op) : option (bytes * bytes) * Queue :=
  match o with
  | OpPop => Pop q
  | OpAdd name commit => (None, AddOrUpdate q name commit)
  | OpSetIndexed name indexed => (None, SetIndexed q name indexed)
  end.

(** ** Pointers and indices agree *)

Definition key (it : queueItem) : bool * Z := (isIndexed it, qi_seq it).
Definition key_lt (x y : bool * Z) : bool := if Bool.eqb x.1 y.1 then x.2 <? y.2 else negb x.1.

Record coherent (q : Queue) : Prop := {
  co_pq : ∀ i name, q_pq q !! i = Some name → ∃ it, q_items q !! name = Some it ∧ qi_heapIdx it = Z.of_nat i;
  co_item : ∀ name it, q_items q !! name = Some it →
    qi_repoName it = name ∧ -1 <= qi_heapIdx it ∧ (0 <= qi_heapIdx it → q_pq q !! Z.to_nat (qi_heapIdx it) = Some name) }.

Definition keys (q : Queue) : list (bool * Z) := (λ name, key (item q name)) <$> q_pq q.

Lemma key_order : weak_order key_lt.
Proof.
  unfold weak_order, key_lt. split_and!.
  - intros [[] ?]; simpl; apply Z.ltb_irrefl.
  - intros [[] ?] [[] ?] [[] ?]; simpl; rewrite ?Z.ltb_ge; try done; lia.
  - intros [[] ?] [[] ?]; simpl; rewrite ?Z.ltb_ge, ?Z.ltb_lt; try done; lia.
Qed.

Lemma item_update q name f name' : item (update q name f) name' = if decide (name' = name) then f (item q name) else item q name'.
Proof. unfold item, update. simpl. case_decide as Hd; [subst; by rewrite lookup_insert_eq|by rewrite lookup_insert_ne]. Qed.

Lemma coherent_item q i name : coherent q → q_pq q !! i = Some name → qi_heapIdx (item q name) = Z.of_nat i ∧ is_Some (q_items q !! name).
Proof. intros Hc Hi. destruct (co_pq q Hc i name Hi) as (it & Hit & Hx). unfold item. rewrite Hit. simpl. by eauto. Qed.

Lemma coherent_inj q i j name : coherent q → q_pq q !! i = Some name → q_pq q !! j = Some name → i = j.
Proof. intros Hc Hi Hj. destruct (coherent_item q i name Hc Hi), (coherent_item q j name Hc Hj). lia. Qed.

Lemma items_update q name f name' : q_items (update q name f) !! name' =
  if decide (name' = name) then Some (f (item q name)) else q_items q !! name'.
Proof. unfold update. simpl. case_decide as Hd; [subst; apply lookup_insert_eq|by rewrite lookup_insert_ne]. Qed.

(** The items after an exchange. *)
Lemma items_Swap q i j a b name : q_pq q !! i = Some a → q_pq q !! j = Some b →
  q_items (pq_Swap q i j) !! name =
  if decide (name = a) then Some (set_heapIdx (Z.of_nat j) (item q a))
  else if decide (name = b) then Some (set_heapIdx (Z.of_nat i) (item q b)) else q_items q !! name.
Proof.
  intros Ha Hb. unfold pq_Swap. cbv zeta.
  pose proof (lookup_lt_Some _ _ _ Ha) as Hi. pose proof (lookup_lt_Some _ _ _ Hb) as Hj.
  change (q_pq (update ?x ?y ?z)) with (q_pq x). cbn [q_pq].
  rewrite swap_snd, swap_fst by done. rewrite (list_lookup_total_correct _ _ _ Ha), (list_lookup_total_correct _ _ _ Hb).
  rewrite items_update. case_decide as Hda.
  - rewrite item_update. case_decide as Hab; [subst; f_equal; unfold set_heapIdx, item; by simpl|done].
  - rewrite items_update. by case_decide.
Qed.

Lemma pq_Swap_pq q i j : q_pq (pq_Swap q i j) = swap (q_pq q) i j.
Proof. done. Qed.

(** The fields other than [heapIdx] stay. *)
Lemma view_Swap q i j a b : coherent q → q_pq q !! i = Some a → q_pq q !! j = Some b → view (pq_Swap q i j) = view q.
Proof.
  intros Hc Ha Hb. apply map_eq. intros name. unfold view. rewrite !lookup_fmap, (items_Swap q i j a b) by done.
  destruct (co_pq q Hc i a Ha) as (x & Hx & Hxi), (co_pq q Hc j b Hb) as (y & Hy & Hyj).
  assert (∀ z k k', qi_heapIdx z = Z.of_nat k → entry_of (set_heapIdx (Z.of_nat k') z) = entry_of z) as Hsame.
  { intros z k k' Hz. unfold entry_of, set_heapIdx. simpl. rewrite Hz. destruct (Z.ltb_spec (Z.of_nat k') 0), (Z.ltb_spec (Z.of_nat k) 0); done || lia. }
  unfold item. rewrite Hx, Hy. simpl. repeat case_decide; subst; rewrite ?Hx, ?Hy; simpl; by rewrite ?(Hsame x i), ?(Hsame y j) by done.
Qed.

Lemma key_Swap q i j a b name : q_pq q !! i = Some a → q_pq q !! j = Some b →
  key (item (pq_Swap q i j) name) = key (item q name).
Proof.
  intros Ha Hb. unfold item at 1. rewrite (items_Swap q i j a b name Ha Hb). repeat case_decide; subst; done.
Qed.

Lemma coherent_Swap q i j a b : coherent q → q_pq q !! i = Some a → q_pq q !! j = Some b → coherent (pq_Swap q i j).
Proof.
  intros Hc Ha Hb. destruct (co_pq q Hc i a Ha) as (x & Hx & Hxi), (co_pq q Hc j b Hb) as (y & Hy & Hyj).
  assert (item q a = x ∧ item q b = y) as [Ex Ey] by (unfold item; by rewrite Hx, Hy).
  split.
  - intros k name. rewrite pq_Swap_pq, (swap_lookup _ _ _ a b) by done. rewrite (items_Swap q i j a b name Ha Hb), Ex, Ey.
    repeat case_decide; subst; intros E; try (injection E as <-); try (eexists; split; [done|simpl]; done).
    + eexists. split; [done|]. simpl. congruence.
    + exfalso. eauto using coherent_inj.
    + exfalso. eauto using coherent_inj.
    + by apply (co_pq q Hc).
  - destruct (co_item q Hc a x Hx) as [Ea _], (co_item q Hc b y Hy) as [Eb _].
    intros name it. rewrite pq_Swap_pq, (items_Swap q i j a b name Ha Hb), Ex, Ey.
    rewrite !(swap_lookup _ _ _ a b) by done. destruct (decide (name = a)) as [->|Hna]; [|destruct (decide (name = b)) as [->|Hnb]];
      intros E; try (injection E as <-; simpl; rewrite Nat2Z.id; split; [done|split; [lia|intros _]]; repeat case_decide; congruence).
    destruct (co_item q Hc name it E) as (Hn & Hge & Hpq). split; [done|]. split; [done|]. intros H0.
    specialize (Hpq H0). repeat case_decide; congruence.
Qed.

#[local] Instance key_inhabited : Inhabited (bool * Z) := populate (true, 0).

#[export] Instance pqueue_laws : HeapLaws Queue key_lt.
Proof.
  refine {| h_keys := keys; h_inv := coherent |}.
  - apply key_order.
  - intros q _. unfold keys. by rewrite length_fmap.
  - intros q i j _ Hi Hj. unfold keys. simpl in *. by rewrite !(list_lookup_total_fmap (λ name, key (item q name))).
  - intros q i j Hc Hi Hj. simpl in *. destruct (lookup_lt_is_Some_2 _ _ Hi) as [a Ha], (lookup_lt_is_Some_2 _ _ Hj) as [b Hb].
    split; [by eapply coherent_Swap|]. unfold keys. rewrite pq_Swap_pq, <- fmap_swap by done.
    apply list_fmap_ext. intros k name _. by eapply key_Swap.
Defined.

Lemma swaps_view n q q' : swaps n q q' → (n <= length (q_pq q))%nat → coherent q →
  view q' = view q ∧ q_seq q' = q_seq q ∧ (∀ k, (n <= k)%nat → q_pq q' !! k = q_pq q !! k).
Proof.
  induction 1 as [q|q i j q' Hi Hj _ IH]; intros Hn Hc; [done|].
  destruct (lookup_lt_is_Some_2 (q_pq q) i ltac:(lia)) as [a Ha], (lookup_lt_is_Some_2 (q_pq q) j ltac:(lia)) as [b Hb].
  destruct IH as (-> & -> & Hk); simpl in *.
  - by rewrite length_swap.
  - by eapply coherent_Swap.
  - split; [by eapply view_Swap|]. split; [done|]. intros k Hge. rewrite Hk by done. rewrite (swap_lookup _ _ _ a b) by done.
    rewrite !decide_False by lia. done.
Qed.

(** ** Updates of an item *)

Lemma item_name q name : coherent q → qi_repoName (item q name) = name ∧ -1 <= qi_heapIdx (item q name) ∧
  (0 <= qi_heapIdx (item q name) → q_pq q !! Z.to_nat (qi_heapIdx (item q name)) = Some name).
Proof.
  intros Hc. unfold item. destruct (q_items q !! name) as [it|] eqn:E; simpl; [by apply (co_item q Hc)|]. split_and!; [done|lia|lia].
Qed.

Definition keeps (f : queueItem → queueItem) : Prop := ∀ it, qi_repoName (f it) = qi_repoName it ∧ qi_heapIdx (f it) = qi_heapIdx it.

Lemma coherent_update q name f : coherent q → keeps f → coherent (update q name f).
Proof.
  intros Hc Hf. destruct (Hf (item q name)) as [Hn Hi]. destruct (item_name q name Hc) as (Hn' & Hge & Hpq). split.
  - intros i name' Hname. change (q_pq (update q name f)) with (q_pq q) in Hname. rewrite items_update.
    destruct (decide (name' = name)) as [->|Hne]; [|by apply (co_pq q Hc)]. eexists. split; [done|].
    rewrite Hi. by apply coherent_item.
  - intros name' it. rewrite items_update. change (q_pq (update q name f)) with (q_pq q).
    destruct (decide (name' = name)) as [->|Hne]; [|by apply (co_item q Hc)]. intros E. injection E as <-. rewrite Hn, Hi. by split_and!.
Qed.

Lemma view_update q name f : view (update q name f) = <[name := entry_of (f (item q name))]> (view q).
Proof. unfold view, update. simpl. apply fmap_insert. Qed.

Lemma keys_update_out q name f : coherent q → qi_heapIdx (item q name) < 0 → keys (update q name f) = keys q.
Proof.
  intros Hc Hi. unfold keys. change (q_pq (update q name f)) with (q_pq q). apply list_fmap_ext. intros k name' Hk.
  rewrite item_update. case_decide as Hd; [subst|done]. destruct (coherent_item q k name Hc Hk). lia.
Qed.

Lemma keys_update_in q name f i : coherent q → q_pq q !! i = Some name →
  keys (update q name f) = <[i := key (f (item q name))]> (keys q).
Proof.
  intros Hc Hi. unfold keys. change (q_pq (update q name f)) with (q_pq q). apply list_eq. intros k.
  rewrite list_lookup_fmap. destruct (decide (k = i)) as [->|Hne].
  - rewrite Hi, list_lookup_insert_eq by (rewrite length_fmap; by eapply lookup_lt_Some). simpl. by rewrite item_update, decide_True.
  - rewrite list_lookup_insert_ne, list_lookup_fmap by done. destruct (q_pq q !! k) as [name'|] eqn:Hk; [|done]. simpl.
    rewrite item_update, decide_False; [done|]. intros ->. apply Hne. by eapply coherent_inj.
Qed.

Definition fresh (m : gmap bytes entry) (seq : Z) : Prop :=
  (∀ name e s, m !! name = Some e → e_queued e = Some s → s <= seq) ∧
  (∀ n1 n2 e1 e2 s, m !! n1 = Some e1 → m !! n2 = Some e2 → e_queued e1 = Some s → e_queued e2 = Some s → n1 = n2).

Record queue_ok (q : Queue) : Prop := {
  qk_coherent : coherent q;
  qk_heap : heap key_lt (length (q_pq q)) (keys q);
  qk_fresh : fresh (view q) (q_seq q) }.

(** An update of a queued item, and Fix. *)
Lemma Fix_ok q name f : queue_ok q → keeps f → 0 <= qi_heapIdx (item q name) →
  let q' := heap_Fix (update q name f) (Z.to_nat (qi_heapIdx (item q name))) in
  coherent q' ∧ heap key_lt (length (q_pq q')) (keys q') ∧ q_seq q' = q_seq q ∧ view q' = <[name := entry_of (f (item q name))]> (view q).
Proof.
  intros [Hc Hh _] Hf Hi q'. destruct (item_name q name Hc) as (_ & _ & Hpq). specialize (Hpq Hi).
  set (i := Z.to_nat (qi_heapIdx (item q name))) in *. pose proof (coherent_update q name f Hc Hf) as Hc1.
  pose proof (lookup_lt_Some _ _ _ Hpq) as Hlt.
  destruct (heap_Fix_ok key_lt (update q name f) i) as [Hs Hheap].
  - exact Hlt.
  - exact Hc1.
  - change (h_keys (update q name f)) with (keys (update q name f)). rewrite (keys_update_in q name f i Hc Hpq).
    apply heap_fix_pre; [apply key_order|exact Hh|]. unfold keys. by rewrite length_fmap.
  - destruct (swaps_keep key_lt _ _ _ Hs) as (Hc' & _ & Hl); [done|exact Hc1|]. simpl in Hl, Hc'.
    destruct (swaps_view _ _ _ Hs) as (Hv & Hq & _); [done|exact Hc1|]. fold q' in Hc', Hl, Hv, Hq, Hheap.
    split_and!; [done| |done|by rewrite Hv, view_update]. by rewrite Hl.
Qed.


Lemma update_get q name f : update (get q name) name f = update q name f.
Proof. unfold get, update at 1. rewrite item_update, decide_True by done. unfold update. simpl. by rewrite insert_insert_eq. Qed.

(** A new number, and Push. *)
Lemma Push_ok q name : coherent q → heap key_lt (length (q_pq q)) (keys q) → qi_heapIdx (item q name) < 0 →
  let q' := heap_Push q name in
  coherent q' ∧ heap key_lt (length (q_pq q')) (keys q') ∧ q_seq q' = q_seq q ∧
  view q' = <[name := Entry (qi_indexedCommit (item q name)) (qi_latestCommit (item q name)) (Some (qi_seq (item q name)))]> (view q).
Proof.
  intros Hc Hh Hi q'. set (n := length (q_pq q)) in *. set (q1 := pq_Push q name).
  assert (∀ k, q_pq q !! k ≠ Some name) as Hout by (intros k Hk; destruct (coherent_item q k name Hc Hk); lia).
  assert (q_pq q1 = q_pq q ++ [name]) as Hpq by done. destruct (item_name q name Hc) as (Hname & _ & _).
  assert (∀ name', q_items q1 !! name' = if decide (name' = name) then Some (set_heapIdx (Z.of_nat n) (item q name)) else q_items q !! name') as Hit
    by (intros name'; apply items_update).
  assert (coherent q1) as Hc1.
  { split.
    - intros i name' [Hk|[Hge Hk]]%lookup_app_Some; rewrite Hit.
      + rewrite decide_False by (intros ->; by eapply Hout). by apply (co_pq q Hc).
      + apply list_lookup_singleton_Some in Hk as [Hi0 <-]. rewrite decide_True by done. eexists. split; [done|]. simpl. fold n in Hge, Hi0. lia.
    - intros name' it. rewrite Hit, Hpq. case_decide as Hd; intros E.
      + injection E as <-. subst name'. simpl. split; [done|]. split; [lia|]. intros _. rewrite Nat2Z.id, lookup_app_r by done.
        unfold n. by rewrite Nat.sub_diag.
      + destruct (co_item q Hc name' it E) as (? & ? & Hp). split_and!; [done..|]. intros Hi0. apply lookup_app_l_Some. by apply Hp. }
  assert (keys q1 = keys q ++ [key (item q name)]) as Hk1.
  { unfold keys. rewrite Hpq, fmap_app. f_equal.
    - apply list_fmap_ext. intros k name' Hk. unfold item. rewrite Hit. rewrite decide_False; [done|]. intros ->. by eapply Hout.
    - simpl. unfold item at 1. by rewrite Hit, decide_True. }
  assert (h_Len q1 = S n) as Hlen by (change (h_Len q1) with (length (q_pq q ++ [name])); rewrite length_app; simpl; unfold n; lia).
  destruct (up_ok key_lt q1 n) as [Hs Hheap]; [lia|exact Hc1| |].
  { change (h_keys q1) with (keys q1). rewrite Hlen, Hk1.
    assert (∀ k, (k < n)%nat → (keys q ++ [key (item q name)]) !!! k = keys q !!! k) as Hl
      by (intros k Hk; apply lookup_total_app_l; unfold keys; by rewrite length_fmap).
    split.
    - intros k Hk Hkn Hk0. pose proof (parent_lt k Hk0).
      rewrite !Hl by lia. apply Hh; lia.
    - intros k Hk Hp. pose proof (parent_lt k ltac:(lia)). lia. }
  assert (q' = up q1 n) as Hq' by (unfold q', heap_Push; fold q1; rewrite Hlen; f_equal; simpl; lia).
  rewrite <- Hq' in Hs, Hheap.
  destruct (swaps_keep key_lt _ _ _ Hs) as (Hc' & _ & Hl); [done|exact Hc1|].
  destruct (swaps_view _ _ _ Hs) as (Hv & Hq & _); [done|exact Hc1|].
  split_and!; [exact Hc'| |exact Hq|].
  - simpl in Hl. rewrite Hl. exact Hheap.
  - rewrite Hv. apply map_eq. intros name'. unfold view. rewrite lookup_fmap, Hit. case_decide as Hd.
    + subst. rewrite lookup_insert_eq. simpl. unfold entry_of, set_heapIdx. simpl. by replace (Z.of_nat n <? 0) with false by lia.
    + rewrite lookup_insert_ne by done. by rewrite lookup_fmap.
Qed.

Lemma view_item q name : default entry0 (view q !! name) = entry_of (item q name).
Proof. unfold view, item. rewrite lookup_fmap. by destruct (q_items q !! name). Qed.

Lemma queued_item q name : coherent q → 0 <= qi_heapIdx (item q name) →
  view q !! name = Some (entry_of (item q name)) ∧ e_queued (entry_of (item q name)) = Some (qi_seq (item q name)).
Proof.
  intros Hc Hi. destruct (item_name q name Hc) as (_ & _ & Hp). destruct (coherent_item q _ name Hc (Hp Hi)) as [_ [it Hit]].
  unfold view, item in *. rewrite lookup_fmap, Hit in *. simpl in *. split; [done|]. unfold entry_of. simpl.
  by replace (qi_heapIdx it <? 0) with false by lia.
Qed.

Lemma fresh_insert m seq seq' name e : fresh m seq → seq <= seq' →
  (∀ s, e_queued e = Some s → s <= seq' ∧ ∀ name' e', name' ≠ name → m !! name' = Some e' → e_queued e' ≠ Some s) →
  fresh (<[name := e]> m) seq'.
Proof.
  intros [Hle Hinj] Hseq He. split.
  - intros name' e' s [[<- <-]|[Hne Hl]]%lookup_insert_Some Hs; [by apply He|]. specialize (Hle _ _ _ Hl Hs). lia.
  - intros n1 n2 e1 e2 s [[<- <-]|[Hne1 Hl1]]%lookup_insert_Some [[<- <-]|[Hne2 Hl2]]%lookup_insert_Some Hs1 Hs2; [done| | |by eapply Hinj].
    + by eapply (proj2 (He s Hs1)) in Hs2.
    + by eapply (proj2 (He s Hs2)) in Hs1.
Qed.

Lemma fresh_spec st o out st' : spec st o out st' → fresh st.1 st.2 → fresh st'.1 st'.2.
Proof.
  assert (∀ m seq name e s, fresh m seq → m !! name = Some e → e_queued e = Some s →
    s <= seq ∧ ∀ name' e', name' ≠ name → m !! name' = Some e' → e_queued e' ≠ Some s) as Hold.
  { intros m seq name e s [Hle Hinj] He Hs. split; [by eapply Hle|]. intros name' e' Hne He' Hs'. apply Hne. by eapply Hinj. }
  destruct 1 as [|m seq name e s He Hs _|m seq name commit Hq|m seq name commit e s He Hs|m seq name indexed]; simpl; intros Hf; [done|..].
  - eapply fresh_insert; [done|lia|done].
  - eapply fresh_insert; [done|lia|]. intros s E. injection E as <-. split; [lia|]. intros name' e' _ He' Hs'.
    pose proof (proj1 Hf _ _ _ He' Hs'). lia.
  - eapply fresh_insert; [done|lia|]. intros s' E. injection E as <-. by eapply Hold.
  - eapply fresh_insert; [done|lia|]. simpl. intros s' Hs'. destruct (m !! name) as [e|] eqn:E; [|done]. by eapply Hold.
Qed.

Lemma Add_refines q name commit : queue_ok q →
  coherent (AddOrUpdate q name commit) ∧ heap key_lt (length (q_pq (AddOrUpdate q name commit))) (keys (AddOrUpdate q name commit)) ∧
  spec (view q, q_seq q) (OpAdd name commit) None (view (AddOrUpdate q name commit), q_seq (AddOrUpdate q name commit)).
Proof.
  intros Hok. pose proof Hok as [Hc Hh Hf]. unfold AddOrUpdate. cbv zeta. rewrite update_get, item_update, decide_True by done.
  change (qi_heapIdx (set_latest commit (item q name))) with (qi_heapIdx (item q name)).
  destruct (Z.ltb_spec (qi_heapIdx (item q name)) 0) as [Hi|Hi].
  - set (q1 := update q name (set_latest commit)). set (q2 := update _ name (set_seq (q_seq q1 + 1))).
    assert (q2 = MkQueue (q_items (update q name (λ it, set_seq (q_seq q + 1) (set_latest commit it)))) (q_pq q) (q_seq q + 1)) as Hq2.
    { assert (∀ s, item (MkQueue (q_items q1) (q_pq q1) s) name = set_latest commit (item q name)) as Hi1.
      { intros s. trans (item q1 name); [reflexivity|]. unfold q1. by rewrite item_update, decide_True. }
      unfold q2, update at 1. cbn [q_items q_pq q_seq]. rewrite Hi1. unfold q1, update. cbn [q_items q_pq q_seq].
      by rewrite insert_insert_eq. }
    assert (item q2 name = set_seq (q_seq q + 1) (set_latest commit (item q name))) as Hit.
    { rewrite Hq2. unfold item at 1. simpl. by rewrite lookup_insert_eq. }
    assert (coherent (update q name (λ it, set_seq (q_seq q + 1) (set_latest commit it)))) as [Hc1 Hc2] by (by apply coherent_update).
    destruct (Push_ok q2 name) as (Hc' & Hh' & Hs' & Hv').
    + rewrite Hq2. by split.
    + rewrite Hq2. change (keys (MkQueue ?i ?p ?s)) with (keys (MkQueue i p (q_seq q))).
      change (MkQueue _ (q_pq q) (q_seq q)) with (update q name (λ it, set_seq (q_seq q + 1) (set_latest commit it))).
      by rewrite keys_update_out.
    + by rewrite Hit.
    + split_and!; [done..|]. rewrite Hv', Hs', Hit. simpl.
      assert (∀ e, <[name := e]> (view q2) = <[name := e]> (view q)) as Hvq.
      { intros e. rewrite Hq2. unfold view. simpl. rewrite fmap_insert. by rewrite insert_insert_eq. }
      rewrite Hvq. replace (q_seq q2) with (q_seq q + 1) by (by rewrite Hq2). pose proof (view_item q name) as Hvi.
      replace (qi_indexedCommit (item q name)) with (e_indexed (default entry0 (view q !! name))) by (by rewrite Hvi).
      apply spec_add_new. rewrite Hvi. unfold entry_of. simpl. by replace (qi_heapIdx (item q name) <? 0) with true by lia.
  - destruct (Fix_ok q name (set_latest commit) Hok) as (Hc' & Hh' & Hs' & Hv'); [by split|done|].
    split_and!; [done..|]. rewrite Hv', Hs'. destruct (queued_item q name Hc Hi) as [He Hs].
    replace (entry_of (set_latest commit (item q name))) with (Entry (e_indexed (entry_of (item q name))) commit (Some (qi_seq (item q name)))).
    + by eapply spec_add_queued.
    + unfold entry_of. simpl. by replace (qi_heapIdx (item q name) <? 0) with false by lia.
Qed.

Lemma Set_refines q name indexed : queue_ok q →
  coherent (SetIndexed q name indexed) ∧ heap key_lt (length (q_pq (SetIndexed q name indexed))) (keys (SetIndexed q name indexed)) ∧
  spec (view q, q_seq q) (OpSetIndexed name indexed) None (view (SetIndexed q name indexed), q_seq (SetIndexed q name indexed)).
Proof.
  intros Hok. pose proof Hok as [Hc Hh Hf]. unfold SetIndexed. cbv zeta. rewrite update_get, item_update, decide_True by done.
  change (qi_heapIdx (set_indexed indexed (item q name))) with (qi_heapIdx (item q name)).
  assert (spec (view q, q_seq q) (OpSetIndexed name indexed) None (<[name := entry_of (set_indexed indexed (item q name))]> (view q), q_seq q)) as Hsp.
  { pose proof (view_item q name) as Hvi. replace (entry_of (set_indexed indexed (item q name))) with
      (Entry indexed (e_latest (default entry0 (view q !! name))) (e_queued (default entry0 (view q !! name)))) by (by rewrite Hvi).
    apply spec_set. }
  destruct (Z.leb_spec 0 (qi_heapIdx (item q name))) as [Hi|Hi].
  - destruct (Fix_ok q name (set_indexed indexed) Hok) as (Hc' & Hh' & Hs' & Hv'); [by split|done|].
    split_and!; [done..|]. by rewrite Hv', Hs'.
  - split_and!; [by apply coherent_update| |by rewrite view_update]. by rewrite keys_update_out.
Qed.

(** The item at the root comes first. *)
Lemma root_first q name name' e' : queue_ok q → q_pq q !! 0%nat = Some name → view q !! name' = Some e' → is_Some (e_queued e') →
  name' ≠ name → before (entry_of (item q name)) e'.
Proof.
  intros [Hc Hh Hf] Hroot He' [s' Hs'] Hne.
  assert (e' = entry_of (item q name')) as -> by (rewrite <- view_item, He'; done).
  assert (0 <= qi_heapIdx (item q name')) as Hi'.
  { unfold entry_of in Hs'. simpl in Hs'. destruct (Z.ltb_spec (qi_heapIdx (item q name')) 0); [done|lia]. }
  destruct (item_name q name' Hc) as (_ & _ & Hpq). specialize (Hpq Hi'). set (k := Z.to_nat (qi_heapIdx (item q name'))) in *.
  destruct (queued_item q name' Hc Hi') as [_ Hq']. destruct (coherent_item q 0 name Hc Hroot) as [Hi _].
  destruct (queued_item q name Hc ltac:(lia)) as [He Hq].
  pose proof (heap_root key_lt key_order _ _ k Hh ltac:(by eapply lookup_lt_Some)) as Hle.
  unfold keys in Hle. rewrite !list_lookup_total_alt, !list_lookup_fmap, Hpq, Hroot in Hle. simpl in Hle.
  assert (qi_seq (item q name) ≠ qi_seq (item q name')) as Hseq.
  { intros E. rewrite E in Hq. apply Hne. by eapply (proj2 Hf name' name). }
  unfold before. rewrite Hq, Hq'. unfold key_lt, key, isIndexed in Hle. simpl in Hle |- *.
  destruct (bool_decide (qi_indexedCommit (item q name) = _)), (bool_decide (qi_indexedCommit (item q name') = _)); simpl in Hle;
    try done; try (rewrite Z.ltb_ge in Hle; right; split; [done|lia]); by left.
Qed.

Lemma pq_Pop_ok q n name : coherent q → length (q_pq q) = S n → q_pq q !! n = Some name → heap key_lt n (keys q) →
  let q' := snd (pq_Pop q) in
  fst (pq_Pop q) = name ∧ coherent q' ∧ heap key_lt (length (q_pq q')) (keys q') ∧ q_seq q' = q_seq q ∧
  item q' name = set_heapIdx (-1) (item q name) ∧
  view q' = <[name := Entry (qi_indexedCommit (item q name)) (qi_latestCommit (item q name)) None]> (view q).
Proof.
  intros Hc Hlen Hn Hh.
  assert (pq_Pop q = (name, MkQueue (q_items (update q name (set_heapIdx (-1)))) (take n (q_pq q)) (q_seq q))) as ->.
  { unfold pq_Pop. rewrite Hlen. simpl. rewrite Nat.sub_0_r. by rewrite (list_lookup_total_correct _ _ _ Hn). }
  intros q'. simpl in q'.
  assert (∀ name', q_items q' !! name' = if decide (name' = name) then Some (set_heapIdx (-1) (item q name)) else q_items q !! name') as Hit
    by (intros name'; apply (items_update q)).
  assert (q_pq q' = take n (q_pq q)) as Hpq by done.
  assert (length (q_pq q') = n) as Hl by (rewrite Hpq, length_take; lia).
  assert (∀ k x, take n (q_pq q) !! k = Some x → q_pq q !! k = Some x ∧ x ≠ name) as Htake.
  { intros k x Hk. apply lookup_take_Some in Hk as [Hk Hkn]. split; [done|]. intros ->. pose proof (coherent_inj q k n name Hc Hk Hn). lia. }
  split_and!; [done| | |done| |].
  - split.
    + intros k x Hk. rewrite Hpq in Hk. apply Htake in Hk as [Hk Hx]. rewrite Hit, decide_False by done. by apply (co_pq q Hc).
    + intros x it. rewrite Hit. case_decide as Hd; intros E.
      * injection E as <-. subst x. simpl. split; [by apply item_name|]. split; [lia|lia].
      * destruct (co_item q Hc x it E) as (? & ? & Hp). split_and!; [done..|]. intros Hi0. specialize (Hp Hi0). rewrite Hpq.
        apply lookup_take_Some. split; [done|]. pose proof (lookup_lt_Some _ _ _ Hp). assert (Z.to_nat (qi_heapIdx it) ≠ n) by congruence. lia.
  - assert (keys q' = take n (keys q)) as Hk.
    { unfold keys. rewrite Hpq, <- fmap_take. apply list_fmap_ext. intros k x Hk. apply Htake in Hk as [_ Hx].
      unfold item. by rewrite Hit, decide_False. }
    rewrite Hl, Hk. intros k Hkn Hk0. pose proof (parent_lt k Hk0). rewrite !lookup_total_take, !decide_True by lia. by apply Hh.
  - unfold item at 1. by rewrite Hit, decide_True.
  - apply map_eq. intros x. unfold view. rewrite lookup_fmap, Hit. case_decide as Hd.
    + rewrite Hd. by rewrite lookup_insert_eq.
    + by rewrite lookup_insert_ne, lookup_fmap by done.
Qed.

Lemma Pop_refines q : queue_ok q →
  let '(out, q') := Pop q in
  coherent q' ∧ heap key_lt (length (q_pq q')) (keys q') ∧ spec (view q, q_seq q) OpPop out (view q', q_seq q').
Proof.
  intros Hok. pose proof Hok as [Hc Hh Hf]. unfold Pop. destruct (decide (q_pq q = [])) as [E|Hne].
  { split_and!; [done..|]. apply spec_pop_empty. intros name e He. unfold view in He. rewrite lookup_fmap in He.
    apply fmap_Some in He as (it & Hit & ->). unfold entry_of. simpl. destruct (Z.ltb_spec (qi_heapIdx it) 0); [done|].
    destruct (co_item q Hc name it Hit) as (_ & _ & Hp). rewrite E in Hp. specialize (Hp ltac:(lia)). done. }
  destruct (q_pq q) as [|name rest] eqn:Epq; [done|]. rewrite <- Epq in *. unfold heap_Pop. cbv zeta.
  assert (h_Len q = S (length rest)) as Hlen by (simpl; by rewrite Epq). set (n := (h_Len q - 1)%nat).
  assert (n = length rest) as Hn by (unfold n; lia). assert (q_pq q !! 0%nat = Some name) as Hroot by (by rewrite Epq).
  destruct (lookup_lt_is_Some_2 (q_pq q) n) as [lastname Hlast]; [rewrite Epq; simpl; lia|].
  pose proof (coherent_Swap q 0 n name lastname Hc Hroot Hlast) as Hc1. pose proof (view_Swap q 0 n name lastname Hc Hroot Hlast) as Hv1.
  assert (keys (pq_Swap q 0 n) = swap (keys q) 0 n) as Hk1 by (apply (@h_swap Queue _ _ _ key_lt pqueue_laws q 0 n Hc); rewrite Hlen; lia).
  assert (length (keys q) = S n) as Hlk by (unfold keys; rewrite length_fmap; simpl in Hlen; lia).
  destruct (down_root_ok key_lt (pq_Swap q 0 n) n) as [Hs Hheap].
  - simpl. rewrite length_swap. simpl in Hlen. lia.
  - exact Hc1.
  - change (h_keys (pq_Swap q 0 n)) with (keys (pq_Swap q 0 n)). rewrite Hk1. split; [|intros k ? ? ?; lia].
    intros k Hk Hk0 Hpk Hpos. pose proof (parent_lt k Hpos). rewrite !swap_other by lia. apply Hh; [simpl in Hlen; lia|done].
  - change (h_Swap q 0 n) with (pq_Swap q 0 n). set (q2 := fst (down (pq_Swap q 0 n) 0 n)) in *.
    assert (n <= h_Len (pq_Swap q 0 n))%nat as Hnl by (simpl; rewrite length_swap; simpl in Hlen; lia).
    destruct (swaps_keep key_lt _ _ _ Hs Hnl) as (Hc2 & _ & Hl2); [exact Hc1|].
    destruct (swaps_view _ _ _ Hs Hnl Hc1) as (Hv2 & Hq2 & Hpq2).
    destruct (pq_Pop_ok q2 n name Hc2) as (Hname & Hc3 & Hh3 & Hs3 & Hi3 & Hv3).
    + simpl in Hl2. rewrite Hl2, length_swap. simpl in Hlen. lia.
    + rewrite Hpq2 by lia. rewrite pq_Swap_pq, (swap_lookup _ _ _ name lastname) by done. repeat case_decide; try done. subst n. congruence.
    + exact Hheap.
    + destruct (pq_Pop q2) as [name' q3]. simpl in *. subst name'. split_and!; [done..|].
      destruct (coherent_item q 0 name Hc Hroot) as [Hi0 _]. destruct (queued_item q name Hc ltac:(lia)) as [He Hqd].
      assert (entry_of (item q2 name) = entry_of (item q name)) as Hitem by (rewrite <- !view_item; by rewrite Hv2, Hv1).
      replace (qi_repoName (item q3 name)) with name by (symmetry; by apply item_name).
      rewrite Hi3, Hv3, Hs3, Hq2, Hv2, Hv1. unfold set_heapIdx. cbn [qi_latestCommit].
      injection Hitem as -> -> _. eapply (spec_pop _ _ name (entry_of (item q name))); [done|done|].
      intros name' e' He' Hq' Hne'. by eapply root_first.
Qed.

(** ** Any sequence of operations *)

Fixpoint exec_all (q : Queue) (ops : list op) : list (option (bytes * bytes)) * Queue :=
  match ops with
  | [] => ([], q)
  | o :: ops => let '(out, q) := exec q o in let '(outs, q) := exec_all q ops in (out :: outs, q)
  end.

Inductive spec_all : gmap bytes entry * Z → list op → list (option (bytes * bytes)) → gmap bytes entry * Z → Prop :=
| spec_nil st : spec_all st [] [] st
| spec_cons st o out st' ops outs st'' : spec st o out st' → spec_all st' ops outs st'' → spec_all st (o :: ops) (out :: outs) st''.

Lemma exec_refines q o : queue_ok q →
  let '(out, q') := exec q o in queue_ok q' ∧ spec (view q, q_seq q) o out (view q', q_seq q').
Proof.
  intros Hok. assert (∀ out q', coherent q' → heap key_lt (length (q_pq q')) (keys q') → spec (view q, q_seq q) o out (view q', q_seq q') →
    queue_ok q' ∧ spec (view q, q_seq q) o out (view q', q_seq q')) as Hmk.
  { intros out q' Hc Hh Hs. split; [|done]. split; [done..|]. apply (fresh_spec _ _ _ _ Hs). by apply qk_fresh. }
  destruct o as [|name commit|name indexed]; simpl.
  - pose proof (Pop_refines q Hok) as Hp. destruct (Pop q) as [out q']. destruct Hp as (? & ? & ?). by apply Hmk.
  - destruct (Add_refines q name commit Hok) as (? & ? & ?). by apply Hmk.
  - destruct (Set_refines q name indexed Hok) as (? & ? & ?). by apply Hmk.
Qed.

(** C11: the queue does what its comment promises. Over any sequence of Pop, AddOrUpdate and
    SetIndexed from the empty queue, its answers are those of the abstract queue: Pop
    gives a queued repository that is stale, if there is one, and of those the one that
    entered first, with its latest commit; a repository enters once however often it
    is added; SetIndexed moves but never adds one. The pointers into the heap and the
    heap indices in the items stay in agreement throughout. *)
Theorem Queue_refines ops :
  let '(outs, q) := exec_all queue0 ops in queue_ok q ∧ spec_all (∅, 0) ops outs (view q, q_seq q).
Proof.
  assert (∀ q, queue_ok q → let '(outs, q') := exec_all q ops in queue_ok q' ∧ spec_all (view q, q_seq q) ops outs (view q', q_seq q')) as Hall.
  { induction ops as [|o ops IH]; intros q Hok; simpl; [split; [done|constructor]|].
    pose proof (exec_refines q o Hok) as He. destruct (exec q o) as [out q1]. destruct He as [Hok1 Hs].
    specialize (IH q1 Hok1). destruct (exec_all q1 ops) as [outs q2]. destruct IH as [Hok2 Hs2]. split; [done|]. by econstructor. }
  apply (Hall queue0). split.
  - split; [by intros i name|by intros name it].
  - intros i Hi. simpl in Hi. lia.
  - split; by intros.
Qed.
