(* ===== verification/Ctags.v ===== *)
(** * ctags/parse.go, ctags/json.go, build/ctags.go: symbols of a document

    Lines of exuberant-ctags and replies of universal-ctags become entries, and entries
    become the symbol sections of a document. The ctags process is a parameter: what it
    prints. *)

From S2P Require Import Prelude GoStd GoText Bits Api HitIter MatchIter Query Section IndexBuilder IndexData Content MatchTree Eval Decide Shard Gather Lines.

(** ** ctags.Entry and Parse *)

Record Entry := MkEntry {
  en_Sym : bytes;
  en_Path : bytes;
  en_Line : Z;
  en_Kind : bytes;
  en_Language : bytes;
  en_Parent : bytes;
  en_ParentType : bytes;
  en_FileLimited : bool }.

Definition set_FileLimited (e : Entry) : Entry :=
  MkEntry (en_Sym e) (en_Path e) (en_Line e) (en_Kind e) (en_Language e) (en_Parent e) (en_ParentType e) true.
Definition set_Parent (parent typ : bytes) (e : Entry) : Entry :=
  MkEntry (en_Sym e) (en_Path e) (en_Line e) (en_Kind e) (en_Language e) parent typ (en_FileLimited e).

(** The body of the loop over the fields. *)
Definition parseField (e : Entry) (f : bytes) : Entry :=
  let e := if decide (f = str "file:") then set_FileLimited e else e in
  if HasPrefix f (str "class:") then set_Parent (TrimPrefix f (str "class:")) (str "class") e
  else if HasPrefix f (str "enum:") then set_Parent (TrimPrefix f (str "enum:")) (str "enum") e
  else e.

Definition Parse (inp : bytes) : res Entry :=
  let fields := SplitByte 9 inp in
  if lenZ fields <? 3 then Err "too few fields"
  else
    sym ← index fields 0;
    path ← index fields 1;
    lstr ← index fields 2;
    if lenZ lstr <? 2 then Err "got linenum field"
    else
      num ← slice lstr 0 (lenZ lstr - 2);
      l ← ParseInt num;
      kind ← index fields 3;
      rest ← slice_from fields 3;
      Ok (foldl parseField (MkEntry sym path l kind [] [] [] false) rest).

(** ** Replies of universal-ctags *)

Record reply := MkReply { rp_Typ : bytes; rp_Name : bytes; rp_Path : bytes; rp_Language : bytes; rp_Line : Z; rp_Kind : bytes }.
Definition reply0 : reply := MkReply [] [] [] [] 0 [].

(** What the process will still print, whether it has been waited for, and what it has been
    sent. *)
Record ctagsProcess := MkProcess { pr_out : list bytes; pr_waited : bool; pr_in : bytes }.

Section Interactive.
(** encoding/json, and the outcome of the process when it ends. *)
Context (unmarshal : bytes → res reply) (marshal : bytes → Z → bytes) (exit : option string).

(** Wait may be called once. *)
Definition read (p : ctagsProcess) : res reply * ctagsProcess :=
  match pr_out p with
  | [] =>
    (if pr_waited p then Err "exec: Wait was already called"
     else match exit with Some e => Err e | None => Ok reply0 end, MkProcess [] true (pr_in p))
  | line :: out =>
    let p := MkProcess out (pr_waited p) (pr_in p) in
    if decide (line = str "(null)") then (Ok reply0, p) else (unmarshal line, p)
  end.

(** A request for a file, with its contents. *)
Definition post (p : ctagsProcess) (name content : bytes) : ctagsProcess :=
  MkProcess (pr_out p) (pr_waited p) (pr_in p ++ marshal name (lenZ content) ++ [10] ++ content).

Definition entryOf (r : reply) : Entry := MkEntry (rp_Name r) (rp_Path r) (rp_Line r) (rp_Kind r) (rp_Language r) [] [] false.

Fixpoint replies (fuel : nat) (p : ctagsProcess) : res (list Entry) * ctagsProcess :=
  match fuel with
  | O => (OutOfFuel, p)
  | S fuel =>
    match read p with
    | (Ok rep, p) =>
      if decide (rp_Typ rep = str "completed") then (Ok [], p)
      else let '(es, p) := replies fuel p in ((λ es, entryOf rep :: es) <$> es, p)
    | (Err e, p) => (Err e, p)
    | (Panic w, p) => (Panic w, p)
    | (OutOfFuel, p) => (OutOfFuel, p)
    end
  end.

(** Each turn reads a line; the end of the output is seen at most twice. *)
Definition proc_Parse (p : ctagsProcess) (name content : bytes) : res (list Entry) * ctagsProcess :=
  replies (length (pr_out p) + 2) (post p name content).
End Interactive.

(** ** Sections *)

(** One entry: the section if there is one, with the new [lastEnd], [lastLine] and
    [lastIntraEnd]. *)
Definition tagStep (content : bytes) (nls : list Z) (st : Z * Z * Z) (t : Entry)
    : res (option DocumentSection * (Z * Z * Z)) :=
  let '(lastEnd, lastLine, lastIntraEnd) := st in
  if en_Line t <=? 0 then Ok (None, st)
  else
    let lineIdx := en_Line t - 1 in
    if lenZ nls <=? lineIdx then Err "linenum for entry out of range"
    else
      lineOff ← (if 0 <? lineIdx then n ← index nls (lineIdx - 1); Ok (n ⊕ 1) else Ok 0);
      end_ ← index nls lineIdx;
      line ← slice content lineOff end_;
      '(line, lastIntraEnd) ← (if lastLine =? lineIdx then line ← slice_from line lastIntraEnd; Ok (line, lastIntraEnd)
                               else Ok (line, 0));
      let intraOff := lastIntraEnd + Index line (en_Sym t) in
      if intraOff <? 0 then Ok (None, (lastEnd, lastLine, lastIntraEnd))
      else
        let start := lineOff ⊕ u32 intraOff in
        if start <? lastEnd then Ok (None, (lastEnd, lastLine, lastIntraEnd))
        else
          let endSym := start ⊕ u32 (lenZ (en_Sym t)) in
          Ok (Some (DocSec start endSym), (endSym, lineIdx, intraOff + lenZ (en_Sym t))).

Fixpoint tags_loop (content : bytes) (nls : list Z) (st : Z * Z * Z) (tags : list Entry) : res (list DocumentSection) :=
  match tags with
  | [] => Ok []
  | t :: tags =>
    '(sec, st) ← tagStep content nls st t;
    secs ← tags_loop content nls st tags;
    Ok (match sec with Some s => s :: secs | None => secs end)
  end.

Definition tagsToSections (content : bytes) (tags : list Entry) : res (list DocumentSection) :=
  tags_loop content (newLinesIndices content ++ [u32 (lenZ content)]) (0, 0, 0) tags.

(** ** Adding symbols to documents *)

Definition set_Language (lang : bytes) (d : Document) : Document :=
  MkDocument (doc_Name d) (doc_Content d) (doc_Branches d) (doc_SubRepositoryPath d) lang (doc_SkipReason d) (doc_Symbols d).
Definition set_Symbols (secs : list DocumentSection) (d : Document) : Document :=
  MkDocument (doc_Name d) (doc_Content d) (doc_Branches d) (doc_SubRepositoryPath d) (doc_Language d) (doc_SkipReason d) secs.

(** ctagsAddSymbolsParser for one document; [parse] is the parser with its state. The
    language is set even where the sections then fail. *)
Definition addSymbolsDoc {S} (parse : S → bytes → bytes → res (list Entry) * S) (p : S) (d : Document) : res Document * S :=
  if decide (doc_Symbols d ≠ []) then (Ok d, p)
  else
    let '(r, p) := parse p (doc_Name d) (doc_Content d) in
    (es ← r;
     match es with
     | [] => Ok d
     | e :: _ =>
       secs ← tagsToSections (doc_Content d) es;
       Ok (set_Symbols secs (set_Language (ToLower (en_Language e)) d))
     end, p).
Fixpoint ctagsAddSymbolsParser {S} (parse : S → bytes → bytes → res (list Entry) * S) (p : S) (todo : list Document)
    : res (list Document) * S :=
  match todo with
  | [] => (Ok [], p)
  | d :: todo =>
    let '(r, p) := addSymbolsDoc parse p d in
    match r with
    | Ok d => let '(ds, p) := ctagsAddSymbolsParser parse p todo in ((λ ds, d :: ds) <$> ds, p)
    | Err e => (Err e, p)
    | Panic w => (Panic w, p)
    | OutOfFuel => (OutOfFuel, p)
    end
  end.

(** The same with the output of a ctags command, which [run] gives for the files it is
    called with. *)
Section Batch.
Context (run : list (bytes * bytes) → res bytes).

Fixpoint parseLines (lines : list bytes) : res (list Entry) :=
  match lines with
  | [] => Ok []
  | l :: lines =>
    if lenZ l =? 0 then parseLines lines
    else
      e ← Parse l;
      es ← parseLines lines;
      Ok (if lenZ (en_Sym e) =? 1 then es else e :: es)
  end.

Definition runCTags (inputs : list (bytes * bytes)) : res (list Entry) :=
  match filter (λ nc : bytes * bytes, nc.2 ≠ []) inputs with
  | [] => Ok []
  | files => out ← run files; parseLines (SplitByte 10 out)
  end.

(** Chunks of files whose names have just over 100 KB together; the files are in the order
    in which the map is gone through. *)
Fixpoint chunkLoop (cur : list (bytes * bytes)) (sz : Z) (inputs : list (bytes * bytes)) : res (list Entry) :=
  match inputs with
  | [] => runCTags cur
  | (k, v) :: inputs =>
    let cur := cur ++ [(k, v)] in
    let sz := sz + lenZ k in
    if 102400 <? sz then r ← runCTags cur; r' ← chunkLoop [] 0 inputs; Ok (r ++ r')
    else chunkLoop cur sz inputs
  end.
Definition runCTagsChunked (inputs : list (bytes * bytes)) : res (list Entry) := chunkLoop [] 0 inputs.

(** The first document of each name that has no symbols. *)
Fixpoint pathIndices (i : nat) (todo : list Document) (seen : gmap bytes nat) : gmap bytes nat :=
  match todo with
  | [] => seen
  | d :: todo =>
    let seen := if decide (doc_Symbols d ≠ []) then seen
                else match seen !! doc_Name d with Some _ => seen | None => <[doc_Name d := i]> seen end in
    pathIndices (S i) todo seen
  end.

Definition addTags (indices : gmap bytes nat) (contents : gmap bytes bytes) (todo : list Document) (ktags : bytes * list Entry)
    : res (list Document) :=
  let '(k, tags) := ktags in
  secs ← tagsToSections (default [] (contents !! k)) tags;
  let i := default 0%nat (indices !! k) in
  match todo !! i with
  | None => Panic "index out of range"
  | Some d => Ok (<[i := match tags with
                         | [] => set_Symbols secs d
                         | t :: _ => set_Language (ToLower (en_Language t)) (set_Symbols secs d)
                         end]> todo)
  end.
Fixpoint addAllTags (indices : gmap bytes nat) (contents : gmap bytes bytes) (todo : list Document) (l : list (bytes * list Entry))
    : res (list Document) :=
  match l with
  | [] => Ok todo
  | kt :: l => todo ← addTags indices contents todo kt; addAllTags indices contents todo l
  end.

Definition ctagsAddSymbols (todo : list Document) : res (list Document) :=
  let indices := pathIndices 0 todo ∅ in
  let contents := omap (λ i : nat, doc_Content <$> todo !! i) indices in
  entries ← runCTagsChunked (map_to_list contents);
  let fileTags := foldl (λ m e, <[en_Path e := default [] (m !! en_Path e) ++ [e]]> m) (∅ : gmap bytes (list Entry)) entries in
  addAllTags indices contents todo (map_to_list fileTags).
End Batch.

(** ** Lines of tags *)

Lemma parseField_keeps fs e : let e' := foldl parseField e fs in
  en_Sym e' = en_Sym e ∧ en_Path e' = en_Path e ∧ en_Line e' = en_Line e ∧ en_Kind e' = en_Kind e.
Proof.
  revert e. induction fs as [|f fs IH]; intros e; [done|]. simpl. destruct (IH (parseField e f)) as (-> & -> & -> & ->).
  unfold parseField. by repeat case_match.
Qed.

Lemma Parse_fields fields inp sym path num suffix l : SplitByte 9 inp = sym :: path :: (num ++ suffix) :: fields →
  length suffix = 2%nat → ParseInt num = Ok l →
  Parse inp = match fields with
              | [] => Panic "index out of range"
              | kind :: _ => Ok (foldl parseField (MkEntry sym path l kind [] [] [] false) fields)
              end.
Proof.
  intros Hs Hl Hn. unfold Parse. rewrite Hs. rewrite !lenZ_cons. pose proof (lenZ_nonneg fields).
  replace (1 + (1 + (1 + lenZ fields)) <? 3) with false by lia.
  assert (∀ i a, (sym :: path :: (num ++ suffix) :: fields) !! Z.to_nat i = Some a → 0 <= i →
    index (sym :: path :: (num ++ suffix) :: fields) i = Ok a) as Hi by (intros i a Ha Hi; by apply index_lookup).
  rewrite (Hi 0 sym), (Hi 1 path), (Hi 2 (num ++ suffix)) by done. cbn [mbind res_bind].
  assert (lenZ suffix = 2) as Hl2 by (unfold lenZ; lia). rewrite lenZ_app, Hl2. pose proof (lenZ_nonneg num).
  replace (lenZ num + 2 <? 2) with false by lia. replace (lenZ num + 2 - 2) with (0 + lenZ num) by lia.
  pose proof (slice_app [] num suffix) as Hsl. simpl app in Hsl. change (lenZ ([] : bytes)) with 0 in Hsl. rewrite Hsl.
  cbn [mbind res_bind]. rewrite Hn. cbn [mbind res_bind]. destruct fields as [|kind fields]; [done|].
  rewrite (Hi 3 kind) by done. cbn [mbind res_bind]. by rewrite slice_from_Ok by (rewrite !lenZ_cons; unfold lenZ; lia).
Qed.

(** A line of ctags with a kind is parsed into its fields. A line that has only
    the symbol, the path and the line number passes the check of the number of fields and
    then panics, since the fourth field is read too. *)
Theorem Parse_spec sym path num suffix l (kind : bytes) (rest : list bytes)
    (Htabs : Forall (λ f, 9 ∉ f) (sym :: path :: (num ++ suffix) :: kind :: rest))
    (Hsuffix : length suffix = 2%nat) (Hnum : ParseInt num = Ok l) :
  let line := sym ++ [9] ++ path ++ [9] ++ num ++ suffix in
  Parse line = Panic "index out of range" ∧
  ∃ e, Parse (line ++ mjoin ((λ f, 9 :: f) <$> kind :: rest)) = Ok e ∧
       en_Sym e = sym ∧ en_Path e = path ∧ en_Line e = l ∧ en_Kind e = kind.
Proof.
  apply Forall_cons in Htabs as [Hs Htabs]. apply Forall_cons in Htabs as [Hp Htabs]. apply Forall_cons in Htabs as [Hn Htabs].
  intros line. split.
  - rewrite (Parse_fields [] _ sym path num suffix l); try done. unfold line. simpl.
    rewrite !SplitByte_app by done. by rewrite SplitByte_none.
  - assert (∀ fs a, Forall (λ f, 9 ∉ f) fs → 9 ∉ a → SplitByte 9 (a ++ mjoin ((λ f, 9 :: f) <$> fs)) = a :: fs) as Hfs.
    { induction fs as [|f fs IH]; intros a Hf Ha; [simpl; by rewrite app_nil_r, SplitByte_none|].
      apply Forall_cons in Hf as [Hf Hfs]. rewrite fmap_cons. change (mjoin ((9 :: f) :: ?l)) with (9 :: (f ++ mjoin l)).
      rewrite SplitByte_app by done. f_equal. by apply IH. }
    rewrite (Parse_fields (kind :: rest) _ sym path num suffix l); try done.
    + eexists. split; [done|]. apply parseField_keeps.
    + unfold line. rewrite <- !app_assoc. change ([9] ++ ?x) with (9 :: x).
      rewrite SplitByte_app by done. change ([9] ++ ?x) with (9 :: x). rewrite SplitByte_app by done.
      do 2 f_equal. rewrite app_assoc. by apply Hfs.
Qed.

(** ** Lines of the document *)

Lemma increasing_lookup l (i j : nat) x y : increasing l → l !! i = Some x → l !! j = Some y → (i < j)%nat → x < y.
Proof.
  intros Hl. revert i j. induction Hl as [|z l Hl IH Hz]; intros i j Hx Hy Hij; [done|].
  destruct i as [|i], j as [|j]; simpl in *; try lia; [|by eapply (IH i j); [..|lia]].
  injection Hx as <-. rewrite Forall_forall in Hz. apply Hz. by eapply list_elem_of_lookup_2.
Qed.

Lemma count_below (l : list Z) (i : nat) x : (i <= length l)%nat →
  (∀ k n, l !! k = Some n → (k < i)%nat → n < x) → (∀ k n, l !! k = Some n → (i <= k)%nat → x <= n) →
  lenZ (filter (λ n, n < x) l) = Z.of_nat i.
Proof.
  intros Hi Hlo Hhi. rewrite <- (take_drop i l), filter_app, filter_all, filter_none, app_nil_r.
  - unfold lenZ. rewrite length_take. lia.
  - intros n [k Hk]%list_elem_of_lookup. rewrite lookup_drop in Hk. specialize (Hhi _ _ Hk ltac:(lia)). lia.
  - intros n [k Hk]%list_elem_of_lookup. apply lookup_take_Some in Hk as [Hk Hki]. by eapply Hlo.
Qed.

Section Tags.
Context (content : bytes) (Hlen : lenZ content < two32).

Definition line_ends : list Z := newLinesIndices content ++ [u32 (lenZ content)].
Definition line_start (i : Z) : res Z := if 0 <? i then n ← index line_ends (i - 1); Ok (n ⊕ 1) else Ok 0.

(** Line [i] is the bytes from [b] to [e]. *)
Definition is_line (i b e : Z) : Prop :=
  0 <= b <= e ∧ e <= lenZ content ∧ (∀ x, b <= x <= e → newlines_before content x = i) ∧
  line_start i = Ok b ∧ index line_ends i = Ok e.

Lemma line_ends_ok : increasing line_ends ∧ (∀ k n, line_ends !! k = Some n → 0 <= n <= lenZ content) ∧
  lenZ line_ends = lenZ (newLinesIndices content) + 1.
Proof using Hlen.
  pose proof (lenZ_nonneg content). destruct (newLines_bounds 0 content ltac:(lia) ltac:(lia)) as [Hinc Hb].
  fold (newLinesIndices content) in Hinc, Hb. unfold line_ends. rewrite u32_id by (u32_unfold; lia). split_and!.
  - apply StronglySorted_app_2; [|done|repeat constructor]. intros x y Hx ->%list_elem_of_singleton.
    rewrite Forall_forall in Hb. specialize (Hb x Hx). lia.
  - intros k n [Hk|[_ Hk]]%lookup_app_Some.
    + rewrite Forall_forall in Hb. specialize (Hb n (list_elem_of_lookup_2 _ _ _ Hk)). lia.
    + apply list_lookup_singleton_Some in Hk as [_ <-]. lia.
  - rewrite lenZ_app. unfold lenZ. simpl. lia.
Qed.

Lemma line_exists i : 0 <= i < lenZ line_ends → ∃ b e, is_line i b e.
Proof using Hlen.
  intros Hi. pose proof (lenZ_nonneg content) as Hnn. destruct line_ends_ok as (Hinc & Hr & Hll).
  destruct (lookup_lt_is_Some_2 line_ends (Z.to_nat i)) as [e He]; [unfold lenZ in Hi; lia|].
  assert (∃ b, line_start i = Ok b ∧ 0 <= b <= e ∧ ∀ k n, line_ends !! k = Some n → (k < Z.to_nat i)%nat → n < b) as (b & Hb & Hbe & Hlo).
  { unfold line_start. destruct (Z.ltb_spec 0 i) as [Hi0|Hi0]; [|exists 0; split_and!; try done; [by apply (Hr _ _ He)|intros; lia]].
    destruct (lookup_lt_is_Some_2 line_ends (Z.to_nat (i - 1))) as [p Hp]; [unfold lenZ in Hi; lia|].
    pose proof (increasing_lookup _ _ _ _ _ Hinc Hp He ltac:(lia)) as Hpe. pose proof (Hr _ _ Hp). pose proof (Hr _ _ He).
    exists (p + 1). rewrite (proj2 (index_lookup line_ends (i - 1) p)) by (split; [lia|done]). cbn [mbind res_bind].
    rewrite u32_id by (u32_unfold; lia). split_and!; [done|lia|lia|]. intros k n Hk Hki.
    destruct (decide (k = Z.to_nat (i - 1))) as [->|]; [assert (n = p) by congruence; lia|].
    pose proof (increasing_lookup _ _ _ _ _ Hinc Hk Hp ltac:(lia)). lia. }
  exists b, e. pose proof (Hr _ _ He). split_and!; [lia..| |done|by apply index_lookup; split; [lia|]].
  intros x Hx. rewrite <- (count_newLines 0 content x) by lia. replace (0 + x) with x by lia. fold (newLinesIndices content).
  assert (∀ k n, newLinesIndices content !! k = Some n → line_ends !! k = Some n) as Hsub.
  { intros k n Hk. unfold line_ends. by apply lookup_app_l_Some. }
  rewrite (count_below _ (Z.to_nat i) x); [lia|unfold lenZ in *; lia| |].
  - intros k n Hk Hki. specialize (Hlo k n (Hsub _ _ Hk) Hki). lia.
  - intros k n Hk%Hsub Hki. destruct (decide (k = Z.to_nat i)) as [->|]; [assert (n = e) by congruence; lia|].
    pose proof (increasing_lookup _ _ _ _ _ Hinc He Hk ltac:(lia)). lia.
Qed.

(** ** The sections of the tags *)

Definition text (s : DocumentSection) : bytes := take (Z.to_nat (End s - Start s)) (drop (Z.to_nat (Start s)) content).

Record tags_inv (lastEnd lastLine lastIntraEnd : Z) : Prop := {
  ti_end : 0 <= lastEnd <= lenZ content;
  ti_intra : lastIntraEnd = 0 ∨ (0 < lastIntraEnd ∧ ∃ b e, is_line lastLine b e ∧ b + lastIntraEnd = lastEnd ∧ lastEnd <= e) }.

Definition section_of (lastEnd : Z) (s : DocumentSection) (t : Entry) : Prop :=
  lastEnd <= Start s <= End s ∧ End s <= lenZ content ∧ text s = en_Sym t ∧ newlines_before content (Start s) = en_Line t - 1.

Lemma is_line_inj i b e b' e' : is_line i b e → is_line i b' e' → b' = b ∧ e' = e.
Proof. intros (_ & _ & _ & Hb & He) (_ & _ & _ & Hb' & He'). rewrite Hb in Hb'. rewrite He in He'. by simplify_eq. Qed.

Lemma tagStep_ok lastEnd lastLine lastIntraEnd t : tags_inv lastEnd lastLine lastIntraEnd →
  match tagStep content line_ends (lastEnd, lastLine, lastIntraEnd) t with
  | Ok (sec, (lastEnd', lastLine', lastIntraEnd')) =>
    tags_inv lastEnd' lastLine' lastIntraEnd' ∧
    match sec with None => lastEnd' = lastEnd | Some s => section_of lastEnd s t ∧ End s = lastEnd' end
  | Err _ => lenZ (newLinesIndices content) + 1 < en_Line t
  | _ => False
  end.
Proof using Hlen.
  intros Hinv. pose proof Hinv as [He0 Hi0]. unfold tagStep. destruct (Z.leb_spec (en_Line t) 0) as [|Hl]; [done|].
  destruct line_ends_ok as (_ & _ & Hll). destruct (Z.leb_spec (lenZ line_ends) (en_Line t - 1)) as [|Hl2]; [lia|].
  destruct (line_exists (en_Line t - 1)) as (b & e & Hline); [lia|]. pose proof Hline as (Hbe & Hec & Hcnt & Hb & He).
  fold (line_start (en_Line t - 1)). rewrite Hb, He. cbn [mbind res_bind].
  unfold slice at 1. rewrite decide_True by lia. cbn [mbind res_bind].
  set (line := take (Z.to_nat (e - b)) (drop (Z.to_nat b) content)).
  assert (lenZ line = e - b) as Hline_len by (unfold line, lenZ in *; rewrite length_take, length_drop; lia).
  assert (∃ k, (if lastLine =? en_Line t - 1 then line ← slice_from line lastIntraEnd; Ok (line, lastIntraEnd) else Ok (line, 0))
    = Ok (drop (Z.to_nat k) line, k) ∧ 0 <= k <= e - b ∧ tags_inv lastEnd lastLine k ∧ (0 < k → b + k = lastEnd)) as (k & -> & Hk & Hinv' & Hkb).
  { destruct (Z.eqb_spec lastLine (en_Line t - 1)) as [E|E].
    - assert (0 <= lastIntraEnd <= e - b ∧ (0 < lastIntraEnd → b + lastIntraEnd = lastEnd)) as [Hle Hpos].
      { destruct Hi0 as [->|(Hp & b' & e' & Hl' & Hbl & Hel)]; [lia|]. rewrite E in Hl'. destruct (is_line_inj _ _ _ _ _ Hline Hl') as [-> ->]. lia. }
      exists lastIntraEnd. rewrite slice_from_Ok by lia. done.
    - exists 0. rewrite drop_0. split_and!; [done|lia|lia| |lia]. by split; [|left]. }
  cbn [mbind res_bind]. set (rest := drop (Z.to_nat k) line).
  assert (lenZ rest = e - b - k) as Hrest by (unfold rest; rewrite lenZ_drop by lia; lia).
  pose proof (Index_bounds rest (en_Sym t)) as Hib. destruct (Z.ltb_spec (k + Index rest (en_Sym t)) 0) as [|Hoff]; [done|].
  rewrite (u32_id (k + _)), (u32_id (b + _)) by (u32_unfold; lia).
  destruct (Z.ltb_spec (b + (k + Index rest (en_Sym t))) lastEnd) as [|Hge]; [done|].
  assert (0 <= Index rest (en_Sym t)) as Hfound by lia.
  destruct (Index_Some rest (en_Sym t) _ eq_refl Hfound) as (tl & Hd & _).
  assert (k + Index rest (en_Sym t) + lenZ (en_Sym t) <= e - b) as Hfit.
  { apply (f_equal lenZ) in Hd. rewrite lenZ_drop, lenZ_app in Hd by lia. pose proof (lenZ_nonneg tl). lia. }
  pose proof (lenZ_nonneg (en_Sym t)) as Hsym. set (o := Index rest (en_Sym t)) in *.
  rewrite (u32_id (lenZ _)), (u32_id (b + (k + o) + _)) by (u32_unfold; lia).
  split; [split; [lia|]|].
  - destruct (decide (k + o + lenZ (en_Sym t) = 0)); [by left|right]. split; [lia|]. exists b, e. split; [done|]. lia.
  - split; [|done]. unfold section_of. simpl. split_and!; [lia..| |apply Hcnt; lia].
    unfold text. simpl. replace (b + (k + o) + lenZ (en_Sym t) - (b + (k + o))) with (lenZ (en_Sym t)) by lia.
    unfold rest, line in Hd. rewrite drop_drop, skipn_firstn_comm, drop_drop in Hd.
    replace (Z.to_nat (b + (k + o))) with (Z.to_nat b + (Z.to_nat k + Z.to_nat o))%nat by lia.
    apply (f_equal (take (length (en_Sym t)))) in Hd. rewrite take_app_length, take_take in Hd. unfold lenZ. rewrite Nat2Z.id.
    by rewrite Nat.min_l in Hd by (unfold lenZ in *; lia).
Qed.


Lemma tags_loop_ok tags : ∀ lastEnd lastLine lastIntraEnd, tags_inv lastEnd lastLine lastIntraEnd →
  match tags_loop content line_ends (lastEnd, lastLine, lastIntraEnd) tags with
  | Ok secs => StronglySorted (λ s s', End s <= Start s') secs ∧ Forall (λ s, ∃ t, t ∈ tags ∧ section_of lastEnd s t) secs
  | Err _ => ∃ t, t ∈ tags ∧ lenZ (newLinesIndices content) + 1 < en_Line t
  | _ => False
  end.
Proof using Hlen.
  induction tags as [|t tags IH]; intros lastEnd lastLine lastIntraEnd Hinv; cbn [tags_loop]; [split; constructor|].
  pose proof (tagStep_ok _ _ _ t Hinv) as Ht. destruct (tagStep _ _ _ t) as [[sec [[lastEnd' lastLine'] lastIntraEnd']]|e| |]; simpl;
    [|by exists t; split; [left|]|done..].
  destruct Ht as [Hinv' Hsec]. specialize (IH _ _ _ Hinv').
  destruct (tags_loop _ _ _ tags) as [secs|e| |]; simpl; [|destruct IH as (t' & ? & ?); exists t'; split; [by right|done]|done..].
  destruct IH as [Hsort Hall].
  assert (∀ s, (∃ t', t' ∈ tags ∧ section_of lastEnd' s t') → lastEnd <= lastEnd' → ∃ t', t' ∈ t :: tags ∧ section_of lastEnd s t') as Hmono.
  { intros s (t' & Ht' & (Ha & Hb)) Hle. exists t'. split; [by right|]. split; [lia|done]. }
  destruct sec as [s|].
  - destruct Hsec as [Hs Hend]. pose proof Hs as ((Ha & Hb) & _). split; constructor.
    + done.
    + eapply Forall_impl; [exact Hall|]. intros s' (t' & _ & ((Hc & _) & _)). lia.
    + exists t. split; [by left|done].
    + eapply Forall_impl; [exact Hall|]. intros s' Hs'. apply Hmono; [done|lia].
  - subst lastEnd'. split; [done|]. eapply Forall_impl; [exact Hall|]. intros s' Hs'. apply Hmono; [done|lia].
Qed.
End Tags.

(** C35: the symbol sections of a document are sorted, apart and inside the document, and
    each one is an occurrence of the symbol of a tag on the line of that tag. The only
    error is a line number behind the last line; no tag, however wrong its line or its
    symbol, makes the slicing panic. *)
Theorem tagsToSections_spec content tags (Hlen : lenZ content < two32) :
  match tagsToSections content tags with
  | Ok secs => StronglySorted (λ s s', End s <= Start s') secs ∧
      Forall (λ s, 0 <= Start s <= End s ∧ End s <= lenZ content ∧
        ∃ t, t ∈ tags ∧ text content s = en_Sym t ∧ newlines_before content (Start s) = en_Line t - 1) secs
  | Err _ => ∃ t, t ∈ tags ∧ lenZ (newLinesIndices content) + 1 < en_Line t
  | _ => False
  end.
Proof.
  unfold tagsToSections. fold (line_ends content). pose proof (tags_loop_ok content Hlen tags 0 0 0) as Hl.
  destruct (tags_loop _ _ _ tags) as [secs|e| |]; try apply Hl; try (split; [pose proof (lenZ_nonneg content); lia|by left]).
  destruct Hl as [Hs Ha]; [split; [pose proof (lenZ_nonneg content); lia|by left]|]. split; [done|].
  eapply Forall_impl; [exact Ha|]. intros s (t & Ht & (? & ? & ? & ?)). split_and!; [lia..|]. by exists t.
Qed.

(** Two symbols on a line, one on the next, a symbol that is not there and a tag without
    a line. *)
Definition toyTag (sym : string) (line : Z) : Entry := MkEntry (str sym) [] line [] (str "Go") [] [] false.
Definition toySource : bytes := str "func a, b" ++ [10] ++ str "type c".
Lemma tagsToSections_spec_witness :
  match tagsToSections toySource [toyTag "a" 1; toyTag "b" 1; toyTag "zz" 1; toyTag "c" 2; toyTag "a" 0] with
  | Ok secs => secs = [DocSec 5 6; DocSec 8 9; DocSec 15 16] ∧ StronglySorted (λ s s', End s <= Start s') secs
  | _ => False
  end.
Proof.
  pose proof (tagsToSections_spec toySource [toyTag "a" 1; toyTag "b" 1; toyTag "zz" 1; toyTag "c" 2; toyTag "a" 0] eq_refl) as Hs.
  assert (tagsToSections toySource [toyTag "a" 1; toyTag "b" 1; toyTag "zz" 1; toyTag "c" 2; toyTag "a" 0]
    = Ok [DocSec 5 6; DocSec 8 9; DocSec 15 16]) as E by (vm_compute; reflexivity).
  rewrite E in Hs |- *. split; [reflexivity|apply Hs].
Defined.

Lemma Parse_spec_witness :
  Parse (str "main" ++ [9] ++ str "m.go" ++ [9] ++ str "12" ++ [59; 34]) = Panic "index out of range" ∧
  ∃ e, Parse ((str "main" ++ [9] ++ str "m.go" ++ [9] ++ str "12" ++ [59; 34]) ++ mjoin ((λ f, 9 :: f) <$> [str "f"; str "file:"])) = Ok e ∧
       en_Sym e = str "main" ∧ en_Path e = str "m.go" ∧ en_Line e = 12 ∧ en_Kind e = str "f".
Proof.
  apply (Parse_spec (str "main") (str "m.go") (str "12") [59; 34] 12 (str "f") [str "file:"]); [|reflexivity|reflexivity].
  repeat constructor; apply (bool_decide_unpack _); vm_compute; exact I.
Defined.

(** ** Replies *)

(** What the lines before the end of an answer stand for. *)
Definition reads_as (unmarshal : bytes → res reply) (line : bytes) (r : reply) : Prop :=
  (line = str "(null)" ∧ r = reply0) ∨ (line ≠ str "(null)" ∧ unmarshal line = Ok r).

Lemma replies_ok unmarshal exit lines rs last fin waited inp rest : ∀ fuel, (length lines < fuel)%nat →
  Forall2 (λ l r, reads_as unmarshal l r ∧ rp_Typ r ≠ str "completed") lines rs →
  reads_as unmarshal last fin → rp_Typ fin = str "completed" →
  replies unmarshal exit fuel (MkProcess (lines ++ last :: rest) waited inp) = (Ok (entryOf <$> rs), MkProcess rest waited inp).
Proof.
  assert (∀ line r out, reads_as unmarshal line r → read unmarshal exit (MkProcess (line :: out) waited inp) = (Ok r, MkProcess out waited inp)) as Hread.
  { intros line r out Hr. unfold read. simpl. destruct Hr as [[-> ->]|[Hne Hu]]; [done|]. by rewrite decide_False, Hu. }
  intros fuel Hf Hall Hfin Hc. revert fuel Hf. induction Hall as [|l r lines rs [Hr Hnc] _ IH]; intros [|fuel] Hf; simpl in Hf; try lia; cbn [app replies].
  - rewrite (Hread _ _ _ Hfin). by rewrite decide_True.
  - rewrite (Hread _ _ _ Hr), decide_False by done. by rewrite IH by lia.
Qed.

Lemma replies_stop unmarshal exit : (∀ l, match unmarshal l with Ok _ | Err _ => True | _ => False end) →
  ∀ fuel p, (length (pr_out p) + (if pr_waited p then 0 else 1) < fuel)%nat →
  match fst (replies unmarshal exit fuel p) with Ok _ | Err _ => True | _ => False end.
Proof.
  intros Hu. induction fuel as [|fuel IH]; intros [out waited inp] Hf; simpl in Hf; [lia|]. cbn [replies]. unfold read. simpl.
  assert (∀ r p, (length (pr_out p) + (if pr_waited p then 0 else 1) < fuel)%nat →
    match fst (let '(es, p) := replies unmarshal exit fuel p in ((λ es, entryOf r :: es) <$> es, p)) with Ok _ | Err _ => True | _ => False end) as Hgo.
  { intros r p Hp. specialize (IH p Hp). by destruct (replies unmarshal exit fuel p) as [[] ?]. }
  destruct out as [|line out]; [|case_decide as Hd; [|specialize (Hu line); destruct (unmarshal line) as [r| | |]]]; simpl in *; try done.
  - destruct waited; [done|]. destruct exit; [done|]. apply Hgo. simpl. lia.
  - apply Hgo. simpl. lia.
  - case_decide; [done|]. apply Hgo. simpl. lia.
Qed.

(** A parser of the process stops, and when its answer is there it takes just that answer and
    leaves the process ready for the next request. *)
Lemma proc_Parse_ok unmarshal marshal exit p name content :
  (∀ l, match unmarshal l with Ok _ | Err _ => True | _ => False end) →
  match fst (proc_Parse unmarshal marshal exit p name content) with Ok _ | Err _ => True | _ => False end ∧
  (∀ lines rs last fin rest, pr_out p = lines ++ last :: rest →
     Forall2 (λ l r, reads_as unmarshal l r ∧ rp_Typ r ≠ str "completed") lines rs →
     reads_as unmarshal last fin → rp_Typ fin = str "completed" →
     proc_Parse unmarshal marshal exit p name content
     = (Ok (entryOf <$> rs), MkProcess rest (pr_waited p) (pr_in (post marshal p name content)))).
Proof.
  intros Hu. unfold proc_Parse. split.
  - apply replies_stop; [done|]. simpl. destruct (pr_waited p); lia.
  - intros lines rs last fin rest Hout Hall Hfin Hc. unfold post at 1. rewrite Hout.
    eapply replies_ok; try done. rewrite length_app. lia.
Qed.

(** The entries that Parse makes have no language, so a batch run of ctags clears the language
    of every document it finds symbols in. *)
Lemma Parse_no_language inp e : Parse inp = Ok e → en_Language e = [].
Proof.
  assert (∀ fs e, en_Language (foldl parseField e fs) = en_Language e) as Hf.
  { induction fs as [|f fs IH]; intros e'; [done|]. simpl. rewrite IH. unfold parseField. by repeat case_match. }
  unfold Parse. case_match; [done|]. intros (sym & _ & H1)%bind_Ok. apply bind_Ok in H1 as (path & _ & H1).
  apply bind_Ok in H1 as (lstr & _ & H1). case_match; [done|]. apply bind_Ok in H1 as (num & _ & H1).
  apply bind_Ok in H1 as (l & _ & H1). apply bind_Ok in H1 as (kind & _ & H1). apply bind_Ok in H1 as (rest & _ & H1).
  injection H1 as <-. by rewrite Hf.
Qed.
