(* ===== verification/Build.v ===== *)
(** * build/builder.go: shards of a repository

    The Builder collects documents, cuts them into shards, builds the shards one after the other or
    in goroutines, and puts them into the index directory when all have succeeded. The index
    directory is a map from file names to contents; names are relative to IndexDir. *)

From Stdlib Require Import SpecFloat.
From stdpp Require Import pretty.
From S2P Require Import Prelude GoStd GoText Bits Api HitIter MatchIter Query Section IndexBuilder IndexData Content MatchTree Eval Decide Shard Gather Lines Ctags.

(** ** Options *)

Record Options := MkOptions {
  op_SizeMax : Z;
  op_Parallelism : Z;
  op_ShardMax : Z;
  op_RepositoryDescription : Repository;
  op_SubRepositories : option (gmap bytes Repository);
  op_CTags : bytes;
  op_CTagsMustSucceed : bool }.

Definition set_Name (r : Repository) (name : bytes) : Repository :=
  MkRepository name (r_URL r) (r_Branches r) (r_SubRepoMap r) (r_CommitURLTemplate r) (r_FileURLTemplate r)
    (r_LineFragmentTemplate r) (r_RawConfig r) (r_Rank r).

(** [urlName]: url.Parse, and filepath.Join of the host and the path. The paths of ctags
    that are looked up are thrown away. *)
Definition SetDefaults (urlName : bytes → option bytes) (o : Options) : Options :=
  let repo := op_RepositoryDescription o in
  let repo := if decide (r_Name repo = [] ∧ r_URL repo ≠ []) then
                match urlName (r_URL repo) with Some name => set_Name repo name | None => repo end
              else repo in
  MkOptions (if op_SizeMax o =? 0 then 131072 else op_SizeMax o)
    (if op_Parallelism o =? 0 then 1 else op_Parallelism o)
    (if op_ShardMax o =? 0 then 134217728 else op_ShardMax o)
    repo (op_SubRepositories o) [] (op_CTagsMustSucceed o).

(** [sha1]: hexadecimal digits. *)
Definition shardName (sha1 : bytes → bytes) (o : Options) (n : Z) : bytes :=
  let abs := QueryEscape (r_Name (op_RepositoryDescription o)) in
  let abs := if 200 <? lenZ abs then take 200 abs ++ take 8 (sha1 abs) else abs in
  abs ++ str "_v" ++ decimal IndexFormatVersion ++ str "." ++ decimal5 n ++ str ".zoekt".

(** ** Order of documents *)

Definition squashRange (j : Z) : float64 := let x := float_of_Z j in fdiv x (fadd (float_of_Z 1) x).

Definition rank (d : Document) (origIdx : Z) : list float64 :=
  [ float_of_Z (if Contains (doc_Name d) (str "test") then 1 else 0);
    fsub (float_of_Z 1) (squashRange (lenZ (doc_Symbols d)));
    squashRange (lenZ (doc_Content d));
    squashRange (lenZ (doc_Name d));
    fsub (float_of_Z 1) (squashRange (lenZ (doc_Branches d)));
    squashRange origIdx ].

Fixpoint rankLess (r1 r2 : list float64) : bool :=
  match r1, r2 with
  | x :: r1, y :: r2 => if SFltb x y then true else if SFltb y x then false else rankLess r1 r2
  | _, _ => false
  end.

Section Order.
Context `{SortAlg}.
Definition sortDocuments (todo : list Document) : list Document :=
  fst <$> go_sort (λ a b, rankLess (snd a) (snd b)) (imap (λ i d, (d, rank d (Z.of_nat i))) todo).
End Order.

(** ** The builder *)

Abbreviation directory := (gmap bytes bytes).

(** [bl_building] are the goroutines that are building a shard. *)
Record Builder := MkBuilder_ {
  bl_opts : Options;
  bl_nextShardNum : Z;
  bl_todo : list Document;
  bl_size : Z;
  bl_building : list (Z * list Document);
  bl_buildError : option string;
  bl_finishedShards : gmap bytes bytes }.

(** The builder and the index directory. *)
Record bstate := BS { bs_builder : Builder; bs_dir : directory }.

Section Builder.
Context `{SortAlg}.
(** What Add and Write of the index builder need. *)
Context (validTemplate : bytes → bool) (Rel : bytes → bytes → option bytes).
Context (sink : bytes → bytes → nat * option string).
Context (marshalMetadata : IndexMetadata → option bytes) (marshalRepository : Repository → option bytes).
Context (now : Z) (version : bytes).
Context (sha1 : bytes → bytes) (urlName : bytes → option bytes).
(** ctags: the documents as it leaves them, and its error. *)
Context (ctags : list Document → list Document * option string).
(** ioutil.TempFile: the random number it appends to the name. *)
Context (random : directory → bytes → Z).
(** Errors of the file system: when a shard is written (and whether the temporary file is there
    by then), when a file is renamed, and when one cannot be removed. *)
Context (writeFails : Z → option (bool * string)) (renameFails : bytes → option string) (removeFails : bytes → bool).

Definition newShardBuilder (o : Options) : res IndexBuilder :=
  NewIndexBuilder validTemplate (Some (set_SubRepoMap (op_RepositoryDescription o) (op_SubRepositories o))).

Definition NewBuilder (o : Options) : res Builder :=
  let o := SetDefaults urlName o in
  if decide (r_Name (op_RepositoryDescription o) = []) then Err "builder: must set Name"
  else if op_Parallelism o <? 0 then Panic "makechan: size out of range"
  else if bool_decide (op_CTags o = []) && op_CTagsMustSucceed o then Err "ctags binary not found, but CTagsMustSucceed set."
  else _ ← newShardBuilder o; Ok (MkBuilder_ o 0 [] 0 [] None ∅).

Fixpoint addAll (b : IndexBuilder) (docs : list Document) : res IndexBuilder :=
  match docs with
  | [] => Ok b
  | d :: docs =>
    match IndexBuilder.Add Rel b d with
    | (b, Ok _) => addAll b docs
    | (_, Err e) => Err e
    | (_, Panic w) => Panic w
    | (_, OutOfFuel) => OutOfFuel
    end
  end.

Definition tempName (dir : directory) (fn : bytes) : bytes := fn ++ decimal (random dir fn).

(** The temporary and the final name of the shard that is written, or an error; the temporary
    file stays where the error comes after its creation. *)
Definition writeShard (dir : directory) (n : Z) (fn : bytes) (ib : IndexBuilder) : res (bytes * bytes) * directory :=
  let temp := tempName dir fn in
  match writeFails n with
  | Some (created, e) => (Err e, if (created : bool) then <[temp := []]> dir else dir)
  | None =>
    match Write sink marshalMetadata marshalRepository ib now version with
    | Ok w => (Ok (temp, fn), <[temp := w_out w]> dir)
    | Err e => (Err e, <[temp := []]> dir)
    | Panic w => (Panic w, <[temp := []]> dir)
    | OutOfFuel => (OutOfFuel, <[temp := []]> dir)
    end
  end.

Definition buildShard (o : Options) (todo : list Document) (n : Z) (dir : directory) : res (bytes * bytes) * directory :=
  let '(todo, err) := if decide (op_CTags o = []) then (todo, None) else ctags todo in
  match (if op_CTagsMustSucceed o then err else None) with
  | Some e => (Err e, dir)
  | None =>
    match (b ← newShardBuilder o; addAll b (sortDocuments todo)) with
    | Ok ib => writeShard dir n (shardName sha1 o n) ib
    | Err e => (Err e, dir)
    | Panic w => (Panic w, dir)
    | OutOfFuel => (OutOfFuel, dir)
    end
  end.

(** A shard is built: what the end of flush, or of its goroutine, records. A panic ends
    the program. *)
Definition recordShard (b : Builder) (building : list (Z * list Document)) (r : res (bytes * bytes)) (keepFirst : bool) : res Builder :=
  match r with
  | Ok (temp, final) =>
    Ok (MkBuilder_ (bl_opts b) (bl_nextShardNum b) (bl_todo b) (bl_size b) building
          (if keepFirst then bl_buildError b else None) (<[temp := final]> (bl_finishedShards b)))
  | Err e =>
    Ok (MkBuilder_ (bl_opts b) (bl_nextShardNum b) (bl_todo b) (bl_size b) building
          (if keepFirst then Some (default e (bl_buildError b)) else Some e) (bl_finishedShards b))
  | Panic w => Panic w
  | OutOfFuel => OutOfFuel
  end.

Definition flush (s : bstate) : res bstate :=
  let b := bs_builder s in
  let todo := bl_todo b in
  let b := MkBuilder_ (bl_opts b) (bl_nextShardNum b) [] 0 (bl_building b) (bl_buildError b) (bl_finishedShards b) in
  match bl_buildError b with
  | Some _ => Ok (BS b (bs_dir s))
  | None =>
    if bool_decide (todo = []) && (0 <? bl_nextShardNum b) then Ok (BS b (bs_dir s))
    else
      let shard := bl_nextShardNum b in
      let b := MkBuilder_ (bl_opts b) (shard + 1) [] 0 (bl_building b) None (bl_finishedShards b) in
      if 1 <? op_Parallelism (bl_opts b) then
        Ok (BS (MkBuilder_ (bl_opts b) (shard + 1) [] 0 (bl_building b ++ [(shard, todo)]) None (bl_finishedShards b)) (bs_dir s))
      else
        let '(r, dir) := buildShard (bl_opts b) todo shard (bs_dir s) in
        b ← recordShard b (bl_building b) r false; Ok (BS b dir)
  end.

(** The goroutine at position [i] ends. *)
Definition built (s : bstate) (i : nat) : res bstate :=
  let b := bs_builder s in
  match bl_building b !! i with
  | None => Panic "no such goroutine"
  | Some (shard, todo) =>
    let '(r, dir) := buildShard (bl_opts b) todo shard (bs_dir s) in
    b ← recordShard b (delete i (bl_building b)) r true; Ok (BS b dir)
  end.

(** A document that is too large or not text keeps its place, with the reason. *)
Definition markDoc (o : Options) (doc : Document) : Document :=
  if op_SizeMax o <? lenZ (doc_Content doc) then
    MkDocument (doc_Name doc) (doc_Content doc) (doc_Branches doc) (doc_SubRepositoryPath doc) (doc_Language doc)
      (str "document size " ++ str (pretty (lenZ (doc_Content doc))) ++ str " larger than limit " ++ str (pretty (op_SizeMax o))) (doc_Symbols doc)
  else
    match CheckText (doc_Content doc) with
    | Err e => MkDocument (doc_Name doc) (doc_Content doc) (doc_Branches doc) (doc_SubRepositoryPath doc) (str "binary") (str e) (doc_Symbols doc)
    | _ => doc
    end.

Definition docSize (doc : Document) : Z := lenZ (doc_Name doc) + lenZ (doc_Content doc).

Definition Builder_Add (s : bstate) (doc : Document) : res bstate :=
  let b := bs_builder s in
  let doc := markDoc (bl_opts b) doc in
  let size := bl_size b + docSize doc in
  let s := BS (MkBuilder_ (bl_opts b) (bl_nextShardNum b) (bl_todo b ++ [doc]) size (bl_building b) (bl_buildError b) (bl_finishedShards b))
             (bs_dir s) in
  if op_ShardMax (bl_opts b) <? size then flush s else Ok s.

Definition Builder_AddFile (s : bstate) (name content : bytes) : res bstate :=
  Builder_Add s (MkDocument name content [] [] [] [] []).

(** The versions in the index, from the first shard; [open] is os.Open and NewIndexFile. *)
Definition IndexVersions {F} `{IndexFile F} (open : directory → bytes → option F) (unmarshalMetadata : bytes → option IndexMetadata)
    (unmarshalRepository : bytes → option Repository) (o : Options) (dir : directory) : list RepositoryBranch :=
  match open dir (shardName sha1 o 0) with
  | None => []
  | Some f =>
    match ReadMetadata unmarshalMetadata unmarshalRepository f with
    | Ok (repo, index) => if md_IndexFeatureVersion index =? FeatureVersion then r_Branches repo else []
    | _ => []
    end
  end.

(** ** Finish *)

Definition renameShard (acc : directory * option string) (tf : bytes * bytes) : directory * option string :=
  let '(dir, err) := acc in
  let '(temp, final) := tf in
  match renameFails final, dir !! temp with
  | None, Some f => (<[final := f]> (delete temp dir), err)
  | Some e, _ => (dir, Some e)
  | None, None => (dir, Some "no such file")
  end.

Definition removeTemp (dir : directory) (tf : bytes * bytes) : directory :=
  if removeFails (fst tf) then dir else delete (fst tf) dir.

(** One file per turn, so as many turns as there are files are enough. *)
Fixpoint deleteRemainingShards (fuel : nat) (o : Options) (n : Z) (dir : directory) : res directory :=
  match fuel with
  | O => OutOfFuel
  | S fuel =>
    let name := shardName sha1 o n in
    match dir !! name with
    | None => Ok dir
    | Some _ => deleteRemainingShards fuel o (n + 1) (if removeFails name then dir else delete name dir)
    end
  end.

(** Finish after building.Wait: the directory and the error. *)
Definition publish (s : bstate) : res (directory * option string) :=
  let b := bs_builder s in
  match bl_buildError b with
  | Some e => Ok (foldl removeTemp (bs_dir s) (map_to_list (bl_finishedShards b)), Some e)
  | None =>
    let '(dir, err) := foldl renameShard (bs_dir s, None) (map_to_list (bl_finishedShards b)) in
    if 0 <? bl_nextShardNum b then
      dir ← deleteRemainingShards (S (size dir)) (bl_opts b) (bl_nextShardNum b) dir; Ok (dir, err)
    else Ok (dir, err)
  end.

(** ** Runs *)

(** Calls of Add and ends of goroutines before Finish, with the documents that have been added. *)
Inductive runs (b0 : Builder) (dir0 : directory) : bstate → list Document → Prop :=
| runs_new : runs b0 dir0 (BS b0 dir0) []
| runs_add s docs doc s' : runs b0 dir0 s docs → Builder_Add s doc = Ok s' → runs b0 dir0 s' (docs ++ [doc])
| runs_built s docs i s' : runs b0 dir0 s docs → (i < length (bl_building (bs_builder s)))%nat → built s i = Ok s' → runs b0 dir0 s' docs.
End Builder.

(** ** Names *)

Section Names.
Context (sha1 : bytes → bytes) (o : Options).

Lemma shardName_inj n m : 0 <= n → 0 <= m → shardName sha1 o n = shardName sha1 o m → n = m.
Proof.
  intros Hn Hm. unfold shardName. intros E. apply app_inv_head in E. do 3 apply app_inv_head in E.
  apply app_inv_tail in E. by apply decimal5_inj.
Qed.

(** A temporary file is not a shard. *)
Lemma temp_not_shard n r m : 0 <= r → shardName sha1 o n ++ decimal r ≠ shardName sha1 o m.
Proof.
  intros Hr E. destruct (decimal_last r) as (a & d & Ed & Hd). specialize (Hd Hr). rewrite Ed in E. apply (f_equal last) in E.
  unfold shardName in E. rewrite !app_assoc in E. change (str ".zoekt") with ((str ".zoek" : bytes) ++ [116]) in E.
  rewrite !app_assoc, !last_snoc in E. injection E as E. lia.
Qed.
End Names.

(** NewBuilder panics on a negative number of goroutines only, and with CTagsMustSucceed it never makes a builder. *)
Lemma NewBuilder_returns `{SortAlg} validTemplate urlName o :
  match NewBuilder validTemplate urlName o with Ok _ | Err _ => True | Panic _ => op_Parallelism o < 0 | OutOfFuel => False end.
Proof.
  unfold NewBuilder. case_decide; [done|]. destruct (Z.ltb_spec (op_Parallelism (SetDefaults urlName o)) 0) as [Hp|].
  - unfold SetDefaults in Hp. cbn [op_Parallelism] in Hp. destruct (Z.eqb_spec (op_Parallelism o) 0); lia.
  - destruct (bool_decide _ && _); [done|]. unfold newShardBuilder, NewIndexBuilder, setRepository, Repository_verify. simpl.
    destruct (_ && _); simpl; [|done]. by destruct (64 <? _).
Qed.
Lemma NewBuilder_requires_ctags `{SortAlg} validTemplate urlName o : op_CTagsMustSucceed o = true → 0 <= op_Parallelism o →
  ∃ e, NewBuilder validTemplate urlName o = Err e.
Proof.
  intros Hc Hp. unfold NewBuilder. case_decide; [by eexists|]. unfold SetDefaults. cbn [op_Parallelism op_CTags op_CTagsMustSucceed]. rewrite Hc.
  rewrite (proj2 (Z.ltb_ge _ _)) by (destruct (Z.eqb_spec (op_Parallelism o) 0); lia). by eexists.
Qed.

Lemma NewBuilder_plain `{SortAlg} validTemplate urlName o : r_Name (op_RepositoryDescription o) ≠ [] → 0 <= op_Parallelism o → op_CTagsMustSucceed o = false →
  forallb validTemplate [r_FileURLTemplate (op_RepositoryDescription o); r_LineFragmentTemplate (op_RepositoryDescription o); r_CommitURLTemplate (op_RepositoryDescription o)] = true →
  lenZ (r_Branches (op_RepositoryDescription o)) <= 64 → is_Ok (NewBuilder validTemplate urlName o).
Proof.
  intros Hn Hp Hc Ht Hb. unfold NewBuilder, SetDefaults, newShardBuilder, NewIndexBuilder, setRepository, Repository_verify.
  cbn [op_Parallelism op_RepositoryDescription op_CTags op_CTagsMustSucceed op_SubRepositories]. rewrite (decide_False (P := _ ∧ _)) by (by intros [? _]).
  rewrite decide_False by done. rewrite (proj2 (Z.ltb_ge _ _)) by (destruct (Z.eqb_spec (op_Parallelism o) 0); lia). rewrite Hc, andb_false_r.
  cbn [default from_option id set_SubRepoMap r_FileURLTemplate r_LineFragmentTemplate r_CommitURLTemplate r_Branches]. rewrite Ht. simpl.
  rewrite (proj2 (Z.ltb_ge _ _)) by done. by eexists.
Qed.

(** ** What a run keeps *)

Section Runs.
Context `{SortAlg}.
Context (validTemplate : bytes → bool) (Rel : bytes → bytes → option bytes).
Context (sink : bytes → bytes → nat * option string).
Context (marshalMetadata : IndexMetadata → option bytes) (marshalRepository : Repository → option bytes).
Context (now : Z) (version : bytes).
Context (sha1 : bytes → bytes) (urlName : bytes → option bytes).
Context (ctags : list Document → list Document * option string).
Context (random : directory → bytes → Z).
Context (writeFails : Z → option (bool * string)) (renameFails : bytes → option string) (removeFails : bytes → bool).

(** TempFile appends a number that makes a new name. *)
Hypothesis random_new : ∀ dir fn, 0 <= random dir fn ∧ dir !! tempName random dir fn = None.

#[local] Abbreviation buildShard' := (buildShard validTemplate Rel sink marshalMetadata marshalRepository now version sha1 ctags random writeFails).
#[local] Abbreviation flush' := (flush validTemplate Rel sink marshalMetadata marshalRepository now version sha1 ctags random writeFails).
#[local] Abbreviation built' := (built validTemplate Rel sink marshalMetadata marshalRepository now version sha1 ctags random writeFails).
#[local] Abbreviation Add' := (Builder_Add validTemplate Rel sink marshalMetadata marshalRepository now version sha1 ctags random writeFails).
#[local] Abbreviation runs' := (runs validTemplate Rel sink marshalMetadata marshalRepository now version sha1 ctags random writeFails).

(** The bytes of a shard for the documents [chunk]: what Write makes of a builder to which they were
    added, in the order of their ranks. *)
Definition shard_for (chunk : list Document) (f : bytes) : Prop :=
  ∃ docs b w, docs ≡ₚ chunk ∧ builds validTemplate Rel b (normalizeDoc <$> docs) ∧
    Write sink marshalMetadata marshalRepository b now version = Ok w ∧ f = w_out w.

Lemma sortDocuments_perm todo : sortDocuments todo ≡ₚ todo.
Proof.
  unfold sortDocuments. rewrite go_sort_perm.
  replace (fst <$> _) with todo; [done|]. apply list_eq. intros i. rewrite list_lookup_fmap, list_lookup_imap. by destruct (todo !! i).
Qed.

Lemma addAll_builds docs : ∀ b ib old, builds validTemplate Rel b old → addAll Rel b docs = Ok ib →
  builds validTemplate Rel ib (old ++ (normalizeDoc <$> docs)).
Proof.
  induction docs as [|d docs IH]; intros b ib old Hb; simpl; [intros E; injection E as <-; by rewrite app_nil_r|].
  destruct (IndexBuilder.Add Rel b d) as [b' [[]| | |]] eqn:Ea; try done. intros E.
  rewrite cons_middle, app_assoc. eapply IH; [|exact E]. by eapply builds_add.
Qed.

(** A successful build leaves one new file. *)
Lemma buildShard_ok o todo n dir temp final dir' : op_CTags o = [] → buildShard' o todo n dir = (Ok (temp, final), dir') →
  final = shardName sha1 o n ∧ temp = tempName random dir final ∧ ∃ f, shard_for todo f ∧ dir' = <[temp := f]> dir.
Proof.
  intros Ho. unfold buildShard. rewrite decide_True by done.
  replace (if op_CTagsMustSucceed o then None else None) with (@None string) by (by destruct (op_CTagsMustSucceed o)).
  destruct (newShardBuilder validTemplate o) as [b| | |] eqn:En; simpl; try done.
  destruct (addAll Rel b (sortDocuments todo)) as [ib| | |] eqn:Ea; try done. unfold writeShard.
  destruct (writeFails n) as [[]|]; [done|]. destruct (Write _ _ _ ib now version) as [w| | |] eqn:Ew; try done.
  intros E. simplify_eq. split_and!; [done..|]. exists (w_out w). split; [|done]. exists (sortDocuments todo), ib, w.
  split_and!; [apply sortDocuments_perm| |done..]. change (normalizeDoc <$> sortDocuments todo) with ([] ++ (normalizeDoc <$> sortDocuments todo)).
  eapply addAll_builds; [|exact Ea]. by eapply builds_new.
Qed.

(** A build that fails leaves the directory or a temporary file more. *)
Lemma buildShard_err o todo n dir e dir' : op_CTags o = [] → buildShard' o todo n dir = (Err e, dir') →
  dir' = dir ∨ ∃ f, dir' = <[tempName random dir (shardName sha1 o n) := f]> dir.
Proof.
  intros Ho. unfold buildShard. rewrite decide_True by done.
  replace (if op_CTagsMustSucceed o then None else None) with (@None string) by (by destruct (op_CTagsMustSucceed o)).
  destruct (b ← newShardBuilder validTemplate o; addAll Rel b (sortDocuments todo)) as [ib| | |]; try (intros E; simplify_eq; by left).
  unfold writeShard. destruct (writeFails n) as [[[] ?]|]; try (intros E; simplify_eq; eauto; fail).
  destruct (Write _ _ _ ib now version); intros E; simplify_eq; eauto.
Qed.

Definition total_docs (docs : list Document) : Z := foldr (λ d n, docSize d + n) 0 docs.

(** A chunk is cut after the document that makes it too large. *)
Definition fits (b0 : Builder) (c : list Document) : Prop := ∀ pre d, c = pre ++ [d] → total_docs pre <= op_ShardMax (bl_opts b0).
Definition over (b0 : Builder) (c : list Document) : Prop := op_ShardMax (bl_opts b0) < total_docs c.

(** The documents of the shards: every shard but the last one goes over the limit, each does so with its
    last document only, and none is empty unless there are no documents at all. *)
Record cut_at_limit (b0 : Builder) (chunks : list (list Document)) : Prop := {
  cut_some : chunks ≠ [];
  cut_over : ∀ n c, chunks !! n = Some c → (S n < length chunks)%nat → over b0 c;
  cut_fits : Forall (fits b0) chunks;
  cut_nonempty : concat chunks ≠ [] → [] ∉ chunks }.

Record builder_inv (b0 : Builder) (dir0 : directory) (s : bstate) (docs : list Document) (chunks : list (list Document)) : Prop := {
  bi_opts : bl_opts (bs_builder s) = bl_opts b0;
  bi_next : bl_nextShardNum (bs_builder s) = lenZ chunks;
  bi_docs : bl_buildError (bs_builder s) = None → concat chunks ++ bl_todo (bs_builder s) = markDoc (bl_opts b0) <$> docs;
  bi_size : bl_size (bs_builder s) = total_docs (bl_todo (bs_builder s));
  bi_chunks : Forall (fits b0) (bl_todo (bs_builder s) :: chunks);
  bi_building : ∀ n c, (n, c) ∈ bl_building (bs_builder s) → 0 <= n ∧ chunks !! Z.to_nat n = Some c;
  bi_nodup : NoDup (fst <$> bl_building (bs_builder s));
  bi_finished : ∀ temp final, bl_finishedShards (bs_builder s) !! temp = Some final →
    ∃ n r c f, 0 <= r ∧ 0 <= n ∧ temp = final ++ decimal r ∧ final = shardName sha1 (bl_opts b0) n ∧ chunks !! Z.to_nat n = Some c ∧
      n ∉ fst <$> bl_building (bs_builder s) ∧ dir0 !! temp = None ∧ bs_dir s !! temp = Some f ∧ shard_for c f;
  bi_once : ∀ t1 t2 final, bl_finishedShards (bs_builder s) !! t1 = Some final → bl_finishedShards (bs_builder s) !! t2 = Some final → t1 = t2;
  bi_all : bl_buildError (bs_builder s) = None → ∀ n, 0 <= n < lenZ chunks →
    n ∈ (fst <$> bl_building (bs_builder s)) ∨ ∃ temp, bl_finishedShards (bs_builder s) !! temp = Some (shardName sha1 (bl_opts b0) n);
  bi_dir : ∀ f x, dir0 !! f = Some x → bs_dir s !! f = Some x;
  bi_new : ∀ f, is_Some (bs_dir s !! f) → is_Some (dir0 !! f) ∨
    (∃ n r, 0 <= r ∧ f = shardName sha1 (bl_opts b0) n ++ decimal r) ∧
    (bl_buildError (bs_builder s) = None → is_Some (bl_finishedShards (bs_builder s) !! f)) }.

Context (b0 : Builder) (dir0 : directory).

(** NewBuilder never leaves a ctags to run. *)
Section Invariant.
Hypothesis Hctags : op_CTags (bl_opts b0) = [].

Lemma fits_nil : fits b0 [].
Proof. intros pre d E. by destruct pre. Qed.

Lemma inv_clear s docs chunks : builder_inv b0 dir0 s docs chunks →
  bl_buildError (bs_builder s) ≠ None ∨ bl_todo (bs_builder s) = [] →
  let b := bs_builder s in
  builder_inv b0 dir0 (BS (MkBuilder_ (bl_opts b) (bl_nextShardNum b) [] 0 (bl_building b) (bl_buildError b) (bl_finishedShards b)) (bs_dir s)) docs chunks.
Proof.
  intros [] Hd b. split; simpl; try done.
  - intros He. destruct Hd as [?|Hd]; [done|]. rewrite <- bi_docs0 by done. by rewrite Hd.
  - apply Forall_cons in bi_chunks0 as [_ ?]. constructor; [apply fits_nil|done].
Qed.

Lemma inv_enqueue s docs chunks : builder_inv b0 dir0 s docs chunks → bl_buildError (bs_builder s) = None →
  let b := bs_builder s in
  builder_inv b0 dir0 (BS (MkBuilder_ (bl_opts b) (bl_nextShardNum b + 1) [] 0 (bl_building b ++ [(bl_nextShardNum b, bl_todo b)]) None
    (bl_finishedShards b)) (bs_dir s)) docs (chunks ++ [bl_todo b]).
Proof.
  intros [] He b. fold b in He, bi_opts0, bi_next0, bi_docs0, bi_size0, bi_chunks0, bi_building0, bi_nodup0, bi_finished0, bi_once0, bi_all0, bi_new0.
  assert (bl_nextShardNum b ∉ fst <$> bl_building b) as Hnew.
  { intros ([n c] & E & Hin)%list_elem_of_fmap. simpl in E. destruct (bi_building0 n c Hin) as [_ Hl%lookup_lt_Some].
    rewrite <- E, bi_next0 in Hl. unfold lenZ in Hl. lia. }
  assert (∀ n c, chunks !! n = Some c → (chunks ++ [bl_todo b]) !! n = Some c) as Hl by (intros; by apply lookup_app_l_Some).
  split; simpl; try done.
  - rewrite lenZ_app, bi_next0. done.
  - intros _. rewrite concat_app. simpl. rewrite !app_nil_r. by apply bi_docs0.
  - apply Forall_cons in bi_chunks0 as [? ?]. constructor; [apply fits_nil|]. apply Forall_app. split; [done|by constructor].
  - intros n c [Hin|E%list_elem_of_singleton]%elem_of_app; [destruct (bi_building0 n c Hin); auto|]. simplify_eq.
    rewrite bi_next0. split; [apply lenZ_nonneg|]. unfold lenZ. rewrite Nat2Z.id, lookup_app_r by done. by rewrite Nat.sub_diag.
  - rewrite fmap_app. apply NoDup_app. split; [done|]. split; [|apply NoDup_singleton]. intros x Hx ->%list_elem_of_singleton. done.
  - intros temp final Hf. destruct (bi_finished0 temp final Hf) as (n & r & c & f & Hr & Hn & Ht & Hfi & Hc & Hnb & Hrest).
    exists n, r, c, f. split_and!; auto; try apply Hrest. rewrite fmap_app. intros [?|E%list_elem_of_singleton]%elem_of_app; [done|].
    simpl in E. apply lookup_lt_Some in Hc. rewrite E, bi_next0 in Hc. unfold lenZ in Hc. lia.
  - intros _ n Hn. rewrite lenZ_app in Hn. change (lenZ [bl_todo b]) with 1 in Hn. rewrite fmap_app.
    destruct (decide (n = lenZ chunks)) as [->|].
    + left. apply elem_of_app. right. simpl. rewrite bi_next0. by left.
    + destruct (bi_all0 He n ltac:(lia)) as [?|?]; [left; apply elem_of_app; by left|by right].
  - intros f Hf. destruct (bi_new0 f Hf) as [?|[? Hfin]]; [by left|right]. split; [done|]. intros _. by apply Hfin.
Qed.

(** The goroutines that are left when the one at [i] has ended. *)
Lemma building_delete (l : list (Z * list Document)) i n c : l !! i = Some (n, c) → NoDup (fst <$> l) →
  (∀ m d, (m, d) ∈ delete i l → (m, d) ∈ l) ∧ n ∉ fst <$> delete i l ∧ NoDup (fst <$> delete i l) ∧
  (∀ m, m ∈ fst <$> l → m = n ∨ m ∈ fst <$> delete i l) ∧ (∀ m, m ∈ fst <$> delete i l → m ∈ fst <$> l).
Proof.
  intros Hi Hnd. pose proof (delete_Permutation _ _ _ Hi) as Hp. split_and!.
  - intros m d Hin. rewrite Hp. by right.
  - rewrite Hp in Hnd. by apply NoDup_cons in Hnd as [? _].
  - rewrite Hp in Hnd. by apply NoDup_cons in Hnd as [_ ?].
  - intros m Hm. rewrite Hp, fmap_cons in Hm. by apply elem_of_cons in Hm.
  - intros m Hm. rewrite Hp, fmap_cons. by right.
Qed.

Lemma temp_fresh s docs chunks fn : builder_inv b0 dir0 s docs chunks →
  let temp := tempName random (bs_dir s) fn in
  dir0 !! temp = None ∧ bl_finishedShards (bs_builder s) !! temp = None.
Proof using random_new.
  intros [] temp. destruct (random_new (bs_dir s) fn) as [_ Hfresh]. fold temp in Hfresh. split.
  - destruct (dir0 !! temp) eqn:E; [|done]. by rewrite (bi_dir0 _ _ E) in Hfresh.
  - destruct (bl_finishedShards (bs_builder s) !! temp) as [fin|] eqn:E; [|done].
    destruct (bi_finished0 _ _ E) as (?&?&?&?&_&_&_&_&_&_&_&Hd&_). congruence.
Qed.

(** A goroutine ends with a shard, or with an error. *)
Lemma inv_record_ok s docs chunks i n c f : builder_inv b0 dir0 s docs chunks → bl_building (bs_builder s) !! i = Some (n, c) → shard_for c f →
  let b := bs_builder s in let fn := shardName sha1 (bl_opts b0) n in let temp := tempName random (bs_dir s) fn in
  builder_inv b0 dir0 (BS (MkBuilder_ (bl_opts b) (bl_nextShardNum b) (bl_todo b) (bl_size b) (delete i (bl_building b)) (bl_buildError b)
    (<[temp := fn]> (bl_finishedShards b))) (<[temp := f]> (bs_dir s))) docs chunks.
Proof using random_new.
  intros Hinv Hi Hf b fn temp. destruct (temp_fresh s docs chunks fn Hinv) as [Hd0 Hfin0]. fold temp b in Hd0, Hfin0.
  destruct (random_new (bs_dir s) fn) as [Hr _]. destruct Hinv. fold b in bi_finished0, bi_once0, bi_all0, bi_new0.
  destruct (building_delete _ _ _ _ Hi bi_nodup0) as (Hsub & Hout & Hnd & Hcase & Hin). destruct (bi_building0 n c (list_elem_of_lookup_2 _ _ _ Hi)) as [Hn Hc].
  assert (∀ t, bl_finishedShards b !! t ≠ Some fn) as Hfn.
  { intros t Ht. destruct (bi_finished0 _ _ Ht) as (m & r & d & g & _ & Hm & _ & E & _ & Hnb & _).
    apply shardName_inj in E; [|done..]. subst m. apply Hnb, list_elem_of_fmap. exists (n, c). split; [done|]. by eapply list_elem_of_lookup_2. }
  split; simpl; try done; auto.
  - intros t fin [[<- <-]|[Hne Ht]]%lookup_insert_Some.
    + exists n, (random (bs_dir s) fn), c, f. rewrite lookup_insert_eq. by split_and!.
    + destruct (bi_finished0 _ _ Ht) as (m & r & d & g & ? & ? & ? & ? & ? & Hnb & ? & ? & ?).
      exists m, r, d, g. rewrite lookup_insert_ne by done. split_and!; try done. intros Hm. by apply Hnb, Hin.
  - intros t1 t2 fin Ht1 Ht2. apply lookup_insert_Some in Ht1 as [[<- E1]|[? Ht1]], Ht2 as [[<- E2]|[? Ht2]]; try done.
    + rewrite <- E1 in Ht2. by apply Hfn in Ht2.
    + rewrite <- E2 in Ht1. by apply Hfn in Ht1.
    + by eapply bi_once0.
  - intros He m Hm. destruct (bi_all0 He m Hm) as [[->|?]%Hcase|[t Ht]]; [right; exists temp; by rewrite lookup_insert_eq|by left|].
    right. exists t. rewrite lookup_insert_ne; [done|]. intros <-. congruence.
  - intros g x Hg. rewrite lookup_insert_ne; [by apply bi_dir0|]. intros <-. congruence.
  - intros g. destruct (decide (g = temp)) as [->|Hgt].
    + intros _. right. split; [|by rewrite lookup_insert_eq]. by exists n, (random (bs_dir s) fn).
    + rewrite !lookup_insert_ne by done. apply bi_new0.
Qed.

Lemma inv_record_err s docs chunks i n c e dir' : builder_inv b0 dir0 s docs chunks → bl_building (bs_builder s) !! i = Some (n, c) →
  let b := bs_builder s in let temp := tempName random (bs_dir s) (shardName sha1 (bl_opts b0) n) in
  dir' = bs_dir s ∨ (∃ f, dir' = <[temp := f]> (bs_dir s)) →
  builder_inv b0 dir0 (BS (MkBuilder_ (bl_opts b) (bl_nextShardNum b) (bl_todo b) (bl_size b) (delete i (bl_building b)) (Some e)
    (bl_finishedShards b)) dir') docs chunks.
Proof using random_new.
  intros Hinv Hi b temp Hdir. destruct (temp_fresh s docs chunks (shardName sha1 (bl_opts b0) n) Hinv) as [Hd0 Hfin0]. fold temp b in Hd0, Hfin0.
  destruct (random_new (bs_dir s) (shardName sha1 (bl_opts b0) n)) as [Hr _]. destruct Hinv. fold b in bi_finished0, bi_once0, bi_all0, bi_new0.
  destruct (building_delete _ _ _ _ Hi bi_nodup0) as (Hsub & Hout & Hnd & Hcase & Hin).
  assert (∀ t, t ≠ temp → dir' !! t = bs_dir s !! t) as Hkeep.
  { intros t Ht. destruct Hdir as [->|[f ->]]; [done|]. by rewrite lookup_insert_ne. }
  split; simpl; try done; auto.
  - intros t fin Ht. destruct (bi_finished0 _ _ Ht) as (m & r & d & g & ? & ? & ? & ? & ? & Hnb & ? & ? & ?).
    exists m, r, d, g. rewrite Hkeep by congruence. split_and!; try done. intros Hm. by apply Hnb, Hin.
  - intros g x Hg. rewrite Hkeep by congruence. by apply bi_dir0.
  - intros g Hg. destruct (decide (g = temp)) as [->|Hgt].
    + right. split; [|done]. by exists n, (random (bs_dir s) (shardName sha1 (bl_opts b0) n)).
    + rewrite Hkeep in Hg by done. destruct (bi_new0 g Hg) as [?|[? _]]; [by left|by right].
Qed.

Lemma inv_built s docs chunks i s' : builder_inv b0 dir0 s docs chunks → built' s i = Ok s' →
  builder_inv b0 dir0 s' docs chunks ∧ bl_size (bs_builder s') = bl_size (bs_builder s).
Proof using random_new Hctags.
  intros Hinv Hb. unfold built in Hb. destruct (bl_building (bs_builder s) !! i) as [[n c]|] eqn:Ei; [|done].
  rewrite (bi_opts _ _ _ _ _ Hinv) in Hb.
  destruct (buildShard' (bl_opts b0) c n (bs_dir s)) as [[[temp final]|e| |] dir'] eqn:Eb; simpl in Hb; try done; injection Hb as <-.
  - apply buildShard_ok in Eb as (-> & -> & f & Hf & ->); [|done]. split; [|done]. by eapply inv_record_ok.
  - apply buildShard_err in Eb; [|done]. split; [|done]. by eapply inv_record_err.
Qed.

(** Building in place is building in a goroutine that ends at once. *)
Lemma flush_cases s s' : flush' s = Ok s' →
  let b := bs_builder s in
  (s' = BS (MkBuilder_ (bl_opts b) (bl_nextShardNum b) [] 0 (bl_building b) (bl_buildError b) (bl_finishedShards b)) (bs_dir s) ∧
   (bl_buildError b ≠ None ∨ bl_todo b = [] ∧ 0 < bl_nextShardNum b)) ∨
  (bl_buildError b = None ∧ (bl_todo b ≠ [] ∨ bl_nextShardNum b <= 0) ∧
   let s1 := BS (MkBuilder_ (bl_opts b) (bl_nextShardNum b + 1) [] 0 (bl_building b ++ [(bl_nextShardNum b, bl_todo b)]) None (bl_finishedShards b)) (bs_dir s) in
   s' = s1 ∨ built' s1 (length (bl_building b)) = Ok s').
Proof.
  intros Hf b. unfold flush in Hf. fold b in Hf. cbn [bl_buildError bl_nextShardNum bl_opts bl_building bl_finishedShards] in Hf.
  destruct (bl_buildError b) as [e|] eqn:Ee.
  { injection Hf as <-. left. split; [done|by left]. }
  destruct (bool_decide_reflect (bl_todo b = [])) as [E|E], (Z.ltb_spec 0 (bl_nextShardNum b)); cbn [andb] in Hf.
  { injection Hf as <-. left. split; [done|by right]. }
  all: right; split; [done|]; split; [auto|]; cbv zeta; destruct (1 <? op_Parallelism (bl_opts b)); [injection Hf as <-; by left|right].
  all: unfold built; cbn [bs_builder bl_building bl_opts bs_dir]; rewrite list_lookup_middle by done;
    rewrite delete_middle, app_nil_r; destruct (buildShard' _ _ _ _) as [[[temp final]|e| |] dir']; done.
Qed.

Lemma inv_flush s docs chunks s' : builder_inv b0 dir0 s docs chunks → flush' s = Ok s' →
  (∃ chunks', builder_inv b0 dir0 s' docs chunks' ∧
     (bl_buildError (bs_builder s) = None → bl_buildError (bs_builder s') = None → chunks' ≠ []) ∧
     (chunks' = chunks ∨ chunks' = chunks ++ [bl_todo (bs_builder s)] ∧ (bl_todo (bs_builder s) ≠ [] ∨ chunks = []))) ∧
  bl_size (bs_builder s') = 0 ∧ (bl_buildError (bs_builder s') = None → bl_todo (bs_builder s') = []).
Proof using random_new Hctags.
  intros Hinv Hf. destruct (flush_cases s s' Hf) as [[-> Hc]|(He & Hne & Hs)].
  - split; [|done]. exists chunks. split_and!; [| |by left].
    + apply inv_clear; [done|]. destruct Hc as [?|[? _]]; [by left|by right].
    + intros He _ ->. destruct Hc as [?|[_ Hn]]; [done|]. rewrite (bi_next _ _ _ _ _ Hinv) in Hn. unfold lenZ in Hn. simpl in Hn. lia.
  - pose proof (inv_enqueue s docs chunks Hinv He) as Hinv1.
    assert (bl_todo (bs_builder s) ≠ [] ∨ chunks = []) as Hne'.
    { destruct Hne as [?|Hn]; [by left|right]. rewrite (bi_next _ _ _ _ _ Hinv) in Hn. destruct chunks; [done|]. unfold lenZ in Hn. simpl in Hn. lia. }
    destruct Hs as [->|Hb].
    + split; [|done]. eexists. split; [exact Hinv1|]. split; [intros _ _ E%app_nil; by destruct E|by right].
    + destruct (inv_built _ _ _ _ _ Hinv1 Hb) as [Hinv2 Hsz]. split.
      { eexists. split; [exact Hinv2|]. split; [intros _ _ E%app_nil; by destruct E|by right]. }
      split; [by rewrite Hsz|]. intros _. unfold built in Hb. cbn [bs_builder bl_building] in Hb.
      rewrite list_lookup_middle in Hb by done. destruct (buildShard' _ _ _ _) as [[[temp final]|e| |] dir']; simpl in Hb; simplify_eq; done.
Qed.

Lemma total_docs_app a b : total_docs (a ++ b) = total_docs a + total_docs b.
Proof. unfold total_docs. induction a as [|x a IH]; simpl; lia. Qed.

Lemma inv_add s docs chunks doc s' : builder_inv b0 dir0 s docs chunks → bl_size (bs_builder s) <= op_ShardMax (bl_opts b0) →
  0 <= op_ShardMax (bl_opts b0) → Forall (over b0) chunks → Add' s doc = Ok s' →
  (∃ chunks', builder_inv b0 dir0 s' (docs ++ [doc]) chunks' ∧ Forall (over b0) chunks') ∧ bl_size (bs_builder s') <= op_ShardMax (bl_opts b0).
Proof using random_new Hctags.
  intros Hinv Hsz Hmax Hover Ha. unfold Builder_Add in Ha.
  assert (builder_inv b0 dir0 (BS (MkBuilder_ (bl_opts (bs_builder s)) (bl_nextShardNum (bs_builder s))
    (bl_todo (bs_builder s) ++ [markDoc (bl_opts (bs_builder s)) doc]) (bl_size (bs_builder s) + docSize (markDoc (bl_opts (bs_builder s)) doc))
    (bl_building (bs_builder s)) (bl_buildError (bs_builder s)) (bl_finishedShards (bs_builder s))) (bs_dir s)) (docs ++ [doc]) chunks) as Hinv1.
  { destruct Hinv. split; simpl; try done.
    - intros He. rewrite fmap_app, app_assoc, bi_docs0 by done. simpl. by rewrite bi_opts0.
    - rewrite total_docs_app, bi_size0. unfold total_docs at 3. simpl. lia.
    - apply Forall_cons in bi_chunks0 as [_ ?]. constructor; [|done]. intros pre d E. apply app_inj_tail in E as [<- _]. by rewrite <- bi_size0. }
  destruct (op_ShardMax (bl_opts (bs_builder s)) <? _) eqn:Ec.
  - destruct (inv_flush _ _ _ _ Hinv1 Ha) as ((chunks' & ? & _ & Hc) & -> & _). split; [|done]. exists chunks'. split; [done|].
    destruct Hc as [->|[-> _]]; [done|]. apply Forall_app. split; [done|]. apply Forall_singleton. unfold over.
    rewrite <- (bi_size _ _ _ _ _ Hinv1), <- (bi_opts _ _ _ _ _ Hinv1). by apply Z.ltb_lt in Ec.
  - injection Ha as <-. split; [by exists chunks|]. simpl. apply Z.ltb_ge in Ec. by rewrite (bi_opts _ _ _ _ _ Hinv) in Ec |- *.
Qed.

(** *** Finish *)

Definition built_step (s s' : bstate) : Prop := ∃ i, (i < length (bl_building (bs_builder s)))%nat ∧ built' s i = Ok s'.
(** flush, and building.Wait. *)
Definition finishes (s s2 : bstate) : Prop := ∃ s1, flush' s = Ok s1 ∧ rtc built_step s1 s2 ∧ bl_building (bs_builder s2) = [].

Lemma inv_new o : NewBuilder validTemplate urlName o = Ok b0 → 0 <= op_ShardMax (bl_opts b0) →
  builder_inv b0 dir0 (BS b0 dir0) [] [] ∧ bl_size b0 <= op_ShardMax (bl_opts b0).
Proof.
  unfold NewBuilder. case_decide; [done|]. do 2 (case_match; [done|]). intros (ib & _ & E)%bind_Ok Hmax. injection E as E.
  assert (bl_nextShardNum b0 = 0 ∧ bl_todo b0 = [] ∧ bl_size b0 = 0 ∧ bl_building b0 = [] ∧ bl_finishedShards b0 = ∅)
    as (Hn & Ht & Hs & Hb & Hf) by (by rewrite <- E).
  split; [|by rewrite Hs]. split; simpl; rewrite ?Hn, ?Ht, ?Hs, ?Hb, ?Hf; try done; try (by intros ? ? ?%not_elem_of_nil).
  - constructor; [apply fits_nil|constructor].
  - constructor.
  - intros _ n Hr. unfold lenZ in Hr. simpl in Hr. lia.
  - by left.
Qed.

Lemma inv_runs o s docs : NewBuilder validTemplate urlName o = Ok b0 → 0 <= op_ShardMax (bl_opts b0) → runs' b0 dir0 s docs →
  (∃ chunks, builder_inv b0 dir0 s docs chunks ∧ Forall (over b0) chunks) ∧ bl_size (bs_builder s) <= op_ShardMax (bl_opts b0).
Proof using random_new Hctags.
  intros Hnew Hmax. induction 1 as [|s docs doc s' _ [(chunks & IH & Hover) Hsz] Ha|s docs i s' _ [(chunks & IH & Hover) Hsz] _ Hb].
  - destruct (inv_new o Hnew Hmax) as [? ?]. split; [exists []; by split; [|constructor]|done].
  - by eapply inv_add.
  - destruct (inv_built _ _ _ _ _ IH Hb) as [? ->]. split; [by exists chunks|done].
Qed.

Lemma built_keeps s s' : built_step s s' → bl_todo (bs_builder s') = bl_todo (bs_builder s) ∧
  (bl_buildError (bs_builder s') = None → bl_buildError (bs_builder s) = None).
Proof.
  intros (i & _ & Hb). unfold built in Hb. destruct (bl_building (bs_builder s) !! i) as [[n c]|]; [|done].
  destruct (buildShard' _ _ _ _) as [[[temp final]|e| |] dir']; simpl in Hb; simplify_eq; done.
Qed.

(** When Finish has waited, every document is in a shard that is built, or there is an error. *)
Lemma inv_finishes s docs chunks s2 : builder_inv b0 dir0 s docs chunks → finishes s s2 →
  ∃ chunks', builder_inv b0 dir0 s2 docs chunks' ∧
    (bl_buildError (bs_builder s2) = None → chunks' ≠ [] ∧ bl_todo (bs_builder s2) = []) ∧
    (chunks' = chunks ∨ chunks' = chunks ++ [bl_todo (bs_builder s)] ∧ (bl_todo (bs_builder s) ≠ [] ∨ chunks = [])).
Proof using random_new Hctags.
  intros Hinv (s1 & Hf & Hrun & _). destruct (inv_flush _ _ _ _ Hinv Hf) as ((chunks' & Hinv1 & Hne & Hc) & _ & Htodo).
  assert (bl_buildError (bs_builder s1) = None → bl_buildError (bs_builder s) = None) as Herr.
  { intros He1. destruct (flush_cases s s1 Hf) as [[-> _]|[? _]]; done. }
  exists chunks'. assert (bl_buildError (bs_builder s1) = None → chunks' ≠ [] ∧ bl_todo (bs_builder s1) = []) as Hgood by auto.
  clear Hne Htodo Herr Hf.
  enough (builder_inv b0 dir0 s2 docs chunks' ∧ (bl_buildError (bs_builder s2) = None → chunks' ≠ [] ∧ bl_todo (bs_builder s2) = [])) as [? ?] by done.
  clear Hc. induction Hrun as [|s1 s1' s2 Hst _ IH]; [done|].
  destruct (built_keeps _ _ Hst) as [Ht He]. destruct Hst as (i & _ & Hb). destruct (inv_built _ _ _ _ _ Hinv1 Hb) as [Hinv1' _].
  apply IH; [done|]. intros He'. destruct (Hgood (He He')). split; [done|]. by rewrite Ht.
Qed.

End Invariant.

Lemma renames l : ∀ dir err, NoDup (fst <$> l) → NoDup (snd <$> l) → (∀ t, t ∈ fst <$> l → t ∉ snd <$> l) →
  (∀ t, t ∈ fst <$> l → is_Some (dir !! t)) →
  let '(dir', err') := foldl (renameShard renameFails) (dir, err) l in
  err' = None → err = None ∧ (∀ t f, (t, f) ∈ l → dir' !! f = dir !! t) ∧ (∀ t, t ∈ fst <$> l → dir' !! t = None) ∧
    (∀ g, g ∉ fst <$> l → g ∉ snd <$> l → dir' !! g = dir !! g).
Proof.
  induction l as [|[t f] l IH]; intros dir err Hnt Hnf Hdis Hin; cbn [foldl].
  { intros ->. split_and!; [done|by intros ? ? ?%not_elem_of_nil|by intros ? ?%not_elem_of_nil|done]. }
  rewrite fmap_cons in Hnt, Hnf, Hdis, Hin |- *. rewrite fmap_cons in Hdis |- *. simpl in Hnt, Hnf, Hdis, Hin |- *.
  apply NoDup_cons in Hnt as [Ht Hnt], Hnf as [Hf Hnf]. destruct (Hin t ltac:(by left)) as [x Hx].
  assert (t ≠ f ∧ t ∉ snd <$> l) as [Htf Htl] by (apply not_elem_of_cons, Hdis; by left).
  assert (f ∉ fst <$> l) as Hfl by (intros Hf'; apply (Hdis f); [by right|by left]).
  cbn [renameShard]. destruct (renameFails f) as [e|].
  { specialize (IH dir (Some e) Hnt Hnf). destruct (foldl _ _ l) as [dir' err']. intros E. destruct IH as [? _]; try done.
    - intros t' Ht' Hs. apply (Hdis t'); by right.
    - intros t' Ht'. apply Hin. by right. }
  rewrite Hx. specialize (IH (<[f := x]> (delete t dir)) err Hnt Hnf). destruct (foldl _ _ l) as [dir' err']. intros E.
  destruct IH as (He & Hl & Hd & Ho); [|..|done|].
  - intros t' Ht' Hs. apply (Hdis t'); by right.
  - intros t' Ht'. rewrite lookup_insert_ne, lookup_delete_ne by (intros ->; contradiction). apply Hin. by right.
  - split; [done|]. split; [|split].
    + intros t' f' [E'|Hin']%elem_of_cons.
      * simplify_eq. by rewrite Ho, lookup_insert_eq.
      * assert (t' ∈ fst <$> l) as Ht' by (apply list_elem_of_fmap; by exists (t', f')).
        rewrite (Hl t' f' Hin'), lookup_insert_ne, lookup_delete_ne by (intros ->; contradiction). done.
    + intros t' [->|Ht']%elem_of_cons; [|by apply Hd]. rewrite Ho, lookup_insert_ne by done. apply lookup_delete_eq.
    + intros g [Hg1 Hg2]%not_elem_of_cons [Hg3 Hg4]%not_elem_of_cons. by rewrite Ho, lookup_insert_ne, lookup_delete_ne.
Qed.

(** The removal of old shards goes on up to the first number that has none. *)
Lemma deleteRemaining_ok o : ∀ fuel n (dir : directory) (V : gset bytes), 0 <= n → (size (dom dir ∖ V) < fuel)%nat →
  (∀ j, n <= j → shardName sha1 o j ∉ V) →
  ∃ dir' stop, deleteRemainingShards sha1 removeFails fuel o n dir = Ok dir' ∧ n <= stop ∧ dir !! shardName sha1 o stop = None ∧
    (∀ j, n <= j < stop → let name := shardName sha1 o j in is_Some (dir !! name) ∧ dir' !! name = if removeFails name then dir !! name else None) ∧
    (∀ g, (∀ j, n <= j < stop → g ≠ shardName sha1 o j) → dir' !! g = dir !! g).
Proof.
  induction fuel as [|fuel IH]; intros n dir V Hn Hf HV; [lia|]. cbn [deleteRemainingShards].
  set (name := shardName sha1 o n). destruct (dir !! name) as [x|] eqn:E; [|exists dir, n; split_and!; auto; lia].
  assert (name ∉ V) as HnV by (apply HV; lia).
  set (dir1 := if removeFails name then dir else delete name dir).
  assert (dom dir1 ∖ (V ∪ {[name]}) ⊆ (dom dir ∖ V) ∖ {[name]}) as Hsub by (unfold dir1; intros g; destruct (removeFails name); rewrite ?dom_delete_L, !elem_of_difference, ?not_elem_of_union; tauto).
  assert (name ∈ dom dir ∖ V) as Hin by (apply elem_of_difference; split; [by apply elem_of_dom|done]).
  apply subseteq_size in Hsub. rewrite (size_difference (dom dir ∖ V)) in Hsub by (by apply singleton_subseteq_l). rewrite size_singleton in Hsub.
  assert (size (dom dir ∖ V) ≠ 0)%nat as Hpos by (intros E0%size_empty_inv; by apply E0 in Hin; apply elem_of_empty in Hin).
  assert (∀ g, g ≠ name → dir1 !! g = dir !! g) as Hdir1 by (intros g Hg; unfold dir1; destruct (removeFails name); [done|by rewrite lookup_delete_ne]).
  assert (∀ j, n + 1 <= j → shardName sha1 o j ≠ name) as Hname by (intros j Hj Ej%shardName_inj; lia).
  destruct (IH (n + 1) dir1 (V ∪ {[name]})) as (dir' & stop & Hd & Hle & Hstop & Hgone & Hother); [lia|lia| |].
  { intros j Hj. apply not_elem_of_union. split; [apply HV; lia|]. intros Ej%elem_of_singleton. by apply (Hname j). }
  exists dir', stop. split; [exact Hd|]. split_and!; [lia|by rewrite <- Hdir1 by (apply Hname; lia)| |].
  - intros j Hj. destruct (decide (j = n)) as [->|].
    + rewrite Hother by (intros k Hk; apply not_eq_sym, Hname; lia). fold name. split; [by exists x|].
      unfold dir1. destruct (removeFails name); [done|apply lookup_delete_eq].
    + cbv zeta. rewrite <- !Hdir1 by (apply Hname; lia). apply Hgone. lia.
  - intros g Hg. rewrite Hother by (intros j Hj; apply Hg; lia). apply Hdir1, Hg. lia.
Qed.

Lemma new_ctags o : NewBuilder validTemplate urlName o = Ok b0 → op_CTags (bl_opts b0) = [].
Proof. unfold NewBuilder. case_decide; [done|]. do 2 (case_match; [done|]). intros (ib & _ & E)%bind_Ok. injection E as E. by rewrite <- E. Qed.

Lemma finished_lists s docs chunks : builder_inv b0 dir0 s docs chunks →
  let l := map_to_list (bl_finishedShards (bs_builder s)) in
  NoDup (fst <$> l) ∧ NoDup (snd <$> l) ∧ (∀ t, t ∈ fst <$> l → t ∉ snd <$> l) ∧ (∀ t, t ∈ fst <$> l → is_Some (bs_dir s !! t)) ∧
  (∀ t, t ∈ fst <$> l → dir0 !! t = None ∧ ∀ n, t ≠ shardName sha1 (bl_opts b0) n) ∧
  (∀ f, f ∈ snd <$> l → ∃ n, 0 <= n < lenZ chunks ∧ f = shardName sha1 (bl_opts b0) n).
Proof.
  intros [] l. assert (∀ t, t ∈ fst <$> l → ∃ f, bl_finishedShards (bs_builder s) !! t = Some f) as Ht.
  { intros t ([t' f] & -> & Hin%elem_of_map_to_list)%list_elem_of_fmap. by exists f. }
  assert (∀ f, f ∈ snd <$> l → ∃ t, bl_finishedShards (bs_builder s) !! t = Some f) as Hf.
  { intros f ([t f'] & -> & Hin%elem_of_map_to_list)%list_elem_of_fmap. by exists t. }
  assert (∀ t, t ∈ fst <$> l → dir0 !! t = None ∧ ∀ n, t ≠ shardName sha1 (bl_opts b0) n) as Htemp.
  { intros t [f Hl]%Ht. destruct (bi_finished0 _ _ Hl) as (m & r & c & g & Hr & _ & -> & -> & _ & _ & H0 & _). split; [done|].
    intros n. by apply temp_not_shard. }
  assert (∀ f, f ∈ snd <$> l → ∃ n, 0 <= n < lenZ chunks ∧ f = shardName sha1 (bl_opts b0) n) as Hfinal.
  { intros f [t Hl]%Hf. destruct (bi_finished0 _ _ Hl) as (m & r & c & g & _ & Hm & _ & -> & Hc%lookup_lt_Some & _). exists m.
    split; [unfold lenZ; lia|done]. }
  split_and!; [apply NoDup_fst_map_to_list| | | |done|done].
  - apply NoDup_fmap_2_strong; [|apply NoDup_map_to_list]. intros [t1 f1] [t2 f2] H1%elem_of_map_to_list H2%elem_of_map_to_list E.
    simpl in E. subst f2. f_equal. by eapply bi_once0.
  - intros t Hin (n & _ & E)%Hfinal. destruct (Htemp t Hin) as [_ Hne]. by apply (Hne n).
  - intros t [f Hl]%Ht. destruct (bi_finished0 _ _ Hl) as (?&?&?&g&_&_&_&_&_&_&_&Hd&_). by exists g.
Qed.

(** Chunks that went over the limit, with the rest at the end, are cut at the limit. *)
Lemma cut_runs chunks0 todo chunks : 0 <= op_ShardMax (bl_opts b0) → Forall (over b0) chunks0 → Forall (fits b0) chunks → chunks ≠ [] →
  chunks = chunks0 ∨ chunks = chunks0 ++ [todo] ∧ (todo ≠ [] ∨ chunks0 = []) → cut_at_limit b0 chunks.
Proof.
  intros Hmax Hover Hfits Hne Hc. assert ([] ∉ chunks0) as Hnil.
  { intros Hin. rewrite Forall_forall in Hover. specialize (Hover _ Hin). unfold over, total_docs in Hover. simpl in Hover. lia. }
  destruct Hc as [->|[-> Ht]]; split; try done.
  - intros n c Hl _. rewrite Forall_forall in Hover. eapply Hover, list_elem_of_lookup_2, Hl.
  - intros n c Hl Hn. rewrite length_app in Hn. simpl in Hn. rewrite lookup_app_l in Hl by lia.
    rewrite Forall_forall in Hover. eapply Hover, list_elem_of_lookup_2, Hl.
  - intros Hcon [?|E%list_elem_of_singleton]%elem_of_app; [done|]. subst todo. destruct Ht as [?| ->]; done.
Qed.

(** C6: Finish puts the repository's new shards in place of the old ones. Let
    documents be added to a new builder and Finish wait until every shard is built, in
    whatever order its goroutines end. Then Finish returns; and if it returns no error, the
    documents, each with the mark of those that are not indexed, are in shards that are numbered from 0 without gaps, in the
    order in which they came: every shard but the last goes over the limit, and each only with its last document. Each file has the bytes that Write makes of the documents of its shard.
    The old shards with the numbers that follow are removed one after the other up to the first number
    that had no shard; one stays only if the file system fails to remove it. No temporary file is left, and no other file is touched. *)
Theorem Finish_publishes o s docs s2 (Hnew : NewBuilder validTemplate urlName o = Ok b0) (Hmax : 0 <= op_ShardMax (bl_opts b0))
    (Hrun : runs' b0 dir0 s docs) (Hfin : finishes s s2) (Hok : bl_buildError (bs_builder s2) = None) :
  ∃ dir err, publish sha1 renameFails removeFails s2 = Ok (dir, err) ∧
  (err = None → ∃ chunks stop, let name := shardName sha1 (bl_opts b0) in
    concat chunks = markDoc (bl_opts b0) <$> docs ∧ cut_at_limit b0 chunks ∧
    (∀ n c, chunks !! n = Some c → ∃ f, dir !! name (Z.of_nat n) = Some f ∧ shard_for c f) ∧
    lenZ chunks <= stop ∧ dir0 !! name stop = None ∧
    (∀ n, lenZ chunks <= n < stop → is_Some (dir0 !! name n) ∧ dir !! name n = if removeFails (name n) then dir0 !! name n else None) ∧
    (∀ g, (∀ n, 0 <= n < stop → g ≠ name n) → dir !! g = dir0 !! g)).
Proof using random_new.
  pose proof (new_ctags o Hnew) as Hct. destruct (inv_runs Hct o s docs Hnew Hmax Hrun) as [(chunks0 & Hinv0 & Hover) _].
  destruct (inv_finishes Hct _ _ _ _ Hinv0 Hfin) as (chunks & Hinv & Hgood & Hcut). destruct (Hgood Hok) as [Hne Htodo].
  destruct (finished_lists _ _ _ Hinv) as (Hn1 & Hn2 & Hdis & Hin & Htemp & Hfinal). unfold publish. rewrite Hok.
  pose proof (renames (map_to_list (bl_finishedShards (bs_builder s2))) (bs_dir s2) None Hn1 Hn2 Hdis Hin) as Hren.
  destruct (foldl _ _ _) as [dir1 err]. set (l := map_to_list (bl_finishedShards (bs_builder s2))) in *.
  assert (0 < lenZ chunks) as Hpos by (destruct chunks; [done|]; rewrite lenZ_cons; pose proof (lenZ_nonneg chunks); lia).
  pose proof (bi_next _ _ _ _ _ Hinv) as Hnext. pose proof (bi_opts _ _ _ _ _ Hinv) as Hopts.
  destruct (Z.ltb_spec 0 (bl_nextShardNum (bs_builder s2))); [|lia]. rewrite Hnext, Hopts.
  destruct (deleteRemaining_ok (bl_opts b0) (S (size dir1)) (lenZ chunks) dir1 ∅) as (dir & stop & Hdel & Hle & Hstop & Hold & Hother);
    [lia|rewrite difference_empty_L, size_dom; lia|set_solver|].
  rewrite Hdel. simpl. exists dir, err. split; [done|]. intros He. destruct (Hren He) as (_ & Hmoved & Hgone & Hrest). exists chunks, stop.
  assert (∀ g, (∀ n, 0 <= n < lenZ chunks → g ≠ shardName sha1 (bl_opts b0) n) → dir1 !! g = dir0 !! g) as Hsame.
  { intros g Hg. destruct (decide (g ∈ fst <$> l)) as [Hgl|Hgl]; [destruct (Htemp g Hgl) as [-> _]; by apply Hgone|].
    rewrite Hrest; [|done|]; [|intros (n & Hn & ->)%Hfinal; by apply (Hg n)].
    destruct (dir0 !! g) as [x|] eqn:E; [by apply (bi_dir _ _ _ _ _ Hinv)|]. destruct (bs_dir s2 !! g) as [x|] eqn:E2; [|done]. exfalso.
    destruct (bi_new _ _ _ _ _ Hinv g ltac:(by exists x)) as [[y Hy]|[_ Hf]]; [congruence|]. destruct (Hf Hok) as [f Hf'].
    apply Hgl, list_elem_of_fmap. exists (g, f). split; [done|]. by apply elem_of_map_to_list. }
  assert (∀ n, lenZ chunks <= n → dir1 !! shardName sha1 (bl_opts b0) n = dir0 !! shardName sha1 (bl_opts b0) n) as Hsame'.
  { intros n Hn. apply Hsame. intros m Hm E. apply shardName_inj in E; lia. }
  pose proof (bi_chunks _ _ _ _ _ Hinv) as [_ Hfits]%Forall_cons.
  split_and!; [| | |done|by rewrite <- Hsame'| |].
  - pose proof (bi_docs _ _ _ _ _ Hinv Hok) as Hd. by rewrite Htodo, app_nil_r in Hd.
  - by eapply cut_runs.
  - intros n c Hc. pose proof (lookup_lt_Some _ _ _ Hc) as Hlt. destruct Hfin as (s1 & _ & _ & Hb).
    destruct (bi_all _ _ _ _ _ Hinv Hok (Z.of_nat n)) as [Hbad|[temp Ht]]; [unfold lenZ; lia|rewrite Hb in Hbad; by apply not_elem_of_nil in Hbad|].
    destruct (bi_finished _ _ _ _ _ Hinv _ _ Ht) as (m & r & c' & f & _ & Hm & _ & E & Hc' & _ & _ & Hf & Hsh).
    apply shardName_inj in E; [|lia|done]. subst m. rewrite Nat2Z.id, Hc in Hc'. injection Hc' as <-. exists f. split; [|done].
    rewrite Hother; [|intros j Hj E; apply shardName_inj in E; unfold lenZ in *; lia].
    rewrite (Hmoved temp); [done|]. by apply elem_of_map_to_list.
  - intros n Hn. rewrite <- !Hsame' by lia. by apply Hold.
  - intros g Hg. rewrite Hother by (intros j Hj; apply Hg; lia). apply Hsame. intros n Hn. apply Hg. lia.
Qed.

(** C24: a failed build changes nothing. If building some shard fails, Finish returns that
    error, every file that was in the directory is there with its contents, and any other
    file is a temporary one. *)
Theorem Finish_atomic o s docs s2 e (Hnew : NewBuilder validTemplate urlName o = Ok b0) (Hmax : 0 <= op_ShardMax (bl_opts b0))
    (Hrun : runs' b0 dir0 s docs) (Hfin : finishes s s2) (Herr : bl_buildError (bs_builder s2) = Some e) :
  ∃ dir, publish sha1 renameFails removeFails s2 = Ok (dir, Some e) ∧ (∀ g x, dir0 !! g = Some x → dir !! g = Some x) ∧
    (∀ g, is_Some (dir !! g) → is_Some (dir0 !! g) ∨ ∃ n r, 0 <= r ∧ g = shardName sha1 (bl_opts b0) n ++ decimal r).
Proof using random_new.
  pose proof (new_ctags o Hnew) as Hct. destruct (inv_runs Hct o s docs Hnew Hmax Hrun) as [(chunks0 & Hinv0 & _) _].
  destruct (inv_finishes Hct _ _ _ _ Hinv0 Hfin) as (chunks & Hinv & _).
  destruct (finished_lists _ _ _ Hinv) as (_ & _ & _ & _ & Htemp & _). unfold publish. rewrite Herr.
  assert (∀ l dir g, foldl (removeTemp removeFails) dir l !! g = dir !! g ∨ (g ∈ fst <$> l ∧ foldl (removeTemp removeFails) dir l !! g = None)) as Hrem.
  { induction l as [|[t f] l IH]; intros dir g; [by left|]. cbn [foldl]. rewrite fmap_cons, elem_of_cons. simpl.
    destruct (IH (removeTemp removeFails dir (t, f)) g) as [Hk|[? ?]]; [|by right; split; [right|]].
    rewrite Hk. unfold removeTemp. simpl. destruct (removeFails t); [by left|]. destruct (decide (g = t)) as [->|].
    - right. split; [by left|apply lookup_delete_eq].
    - left. by apply lookup_delete_ne. }
  eexists. split; [done|]. split.
  - intros g x Hg. destruct (Hrem (map_to_list (bl_finishedShards (bs_builder s2))) (bs_dir s2) g) as [->|[Hin _]].
    + by apply (bi_dir _ _ _ _ _ Hinv).
    + destruct (Htemp g Hin) as [? _]. congruence.
  - intros g Hg. destruct (Hrem (map_to_list (bl_finishedShards (bs_builder s2))) (bs_dir s2) g) as [E|[_ E]]; rewrite E in Hg; [|by destruct Hg].
    destruct (bi_new _ _ _ _ _ Hinv g Hg) as [?|[? _]]; [by left|by right].
Qed.
End Runs.

(** ** Examples *)

(** A number for a temporary file that is not in use. *)
Definition freshNumber (dir : directory) (fn : bytes) : Z :=
  Z.of_N (infinite_fresh ((λ g, Z.to_N (default 0 (digits 0 (drop (length fn) g)))) <$> elements (dom dir))).

Lemma freshNumber_new dir fn : 0 <= freshNumber dir fn ∧ dir !! tempName freshNumber dir fn = None.
Proof.
  split; [unfold freshNumber; lia|]. destruct (dir !! tempName freshNumber dir fn) eqn:E; [exfalso|done].
  unfold tempName, freshNumber in E. set (xs := _ <$> elements (dom dir)) in E. apply (infinite_is_fresh xs). unfold xs at 2.
  apply list_elem_of_fmap. exists (fn ++ decimal (Z.of_N (infinite_fresh xs))). split.
  - rewrite drop_app_length, decimal_digits by lia. simpl. by rewrite N2Z.id.
  - apply elem_of_elements, elem_of_dom. by rewrite E.
Qed.

(** A repository with two old shards gets one new shard, built in a goroutine. *)
#[local] Existing Instance merge_sort_alg.
Definition toyOpts : Options := MkOptions 0 2 0 (set_Name repository0 (str "r/x")) None [] false.
Definition toyDoc' : Document := MkDocument (str "f") (str "abc") [] [] [] [] [].
Definition toySink (out c : bytes) : nat * option string := (length c, None).
Definition toyDir : directory :=
  {[ str "r%2Fx_v15.00000.zoekt" := [1]; str "r%2Fx_v15.00001.zoekt" := [2]; str "other" := [3] ]}.
Definition toyNew : res Builder := NewBuilder (λ _, true) (λ _, None) toyOpts.
#[local] Abbreviation toyAdd :=
  (Builder_Add (λ _, true) (λ _ _, None) toySink (λ _, Some []) (λ _, Some []) 0 [] (λ s, s) (λ ds, (ds, None)) freshNumber).
#[local] Abbreviation toyFlush :=
  (flush (λ _, true) (λ _ _, None) toySink (λ _, Some []) (λ _, Some []) 0 [] (λ s, s) (λ ds, (ds, None)) freshNumber).
#[local] Abbreviation toyBuilt :=
  (built (λ _, true) (λ _ _, None) toySink (λ _, Some []) (λ _, Some []) 0 [] (λ s, s) (λ ds, (ds, None)) freshNumber).

Definition toyRun (fails : Z → option (bool * string)) : res (Builder * bstate * bstate * bstate) :=
  b ← toyNew;
  s ← toyAdd fails (BS b toyDir) toyDoc';
  s1 ← toyFlush fails s;
  s2 ← toyBuilt fails s1 0;
  Ok (b, s, s1, s2).

(** The run ends with the state [s2], without goroutines, and with the error [err]. *)
Definition toyEnds (fails : Z → option (bool * string)) (err : option string) : Prop :=
  match toyRun fails with
  | Ok (b, s, s1, s2) =>
    bl_buildError (bs_builder s2) = err ∧ bl_building (bs_builder s2) = [] ∧ 0 <= op_ShardMax (bl_opts b) ∧
    (0 < length (bl_building (bs_builder s1)))%nat
  | _ => False
  end.
Lemma toyEnds_ok : toyEnds (λ _, None) None.
Proof. vm_compute. split_and!; [reflexivity..|discriminate|]. apply le_n. Qed.
Lemma toyEnds_err : toyEnds (λ _, Some (true, "disk full")) (Some "disk full").
Proof. vm_compute. split_and!; [reflexivity..|discriminate|]. apply le_n. Qed.

#[local] Abbreviation toyRuns := (runs (λ _, true) (λ _ _, None) toySink (λ _, Some []) (λ _, Some []) 0 [] (λ s, s) (λ ds, (ds, None)) freshNumber).
#[local] Abbreviation toyFinishes := (finishes (λ _, true) (λ _ _, None) toySink (λ _, Some []) (λ _, Some []) 0 [] (λ s, s) (λ ds, (ds, None)) freshNumber).

Lemma toyEnds_runs fails err : toyEnds fails err → ∃ b s s2, toyNew = Ok b ∧ toyRuns fails b toyDir s [toyDoc'] ∧ toyFinishes fails s s2 ∧
  bl_buildError (bs_builder s2) = err ∧ 0 <= op_ShardMax (bl_opts b).
Proof.
  unfold toyEnds, toyRun. destruct toyNew as [b| | |] eqn:Hn; [|intros []..]. cbn [mbind res_bind].
  destruct (toyAdd fails (BS b toyDir) toyDoc') as [s| | |] eqn:Ha; [|intros []..]. cbn [mbind res_bind].
  destruct (toyFlush fails s) as [s1| | |] eqn:Hf; [|intros []..]. cbn [mbind res_bind].
  destruct (toyBuilt fails s1 0) as [s2| | |] eqn:Hb; [|intros []..]. cbn [mbind res_bind]. intros (He & Hbl & Hm & Hl).
  exists b, s, s2. split_and!; [done| | |done|done].
  - change [toyDoc'] with ([] ++ [toyDoc']). eapply runs_add; [apply runs_new|exact Ha].
  - exists s1. split_and!; [done| |done]. apply rtc_once. exists 0%nat. split; [exact Hl|exact Hb].
Qed.

Lemma Finish_publishes_witness : ∃ b s2 dir err, publish (λ s, s) (λ _, None) (λ _, false) s2 = Ok (dir, err) ∧
  (err = None → ∃ chunks, concat chunks = markDoc (bl_opts b) <$> [toyDoc'] ∧ cut_at_limit b chunks ∧
    ∀ n c, chunks !! n = Some c → is_Some (dir !! shardName (λ s, s) (bl_opts b) (Z.of_nat n))).
Proof.
  destruct (toyEnds_runs _ _ toyEnds_ok) as (b & s & s2 & Hn & Hr & Hf & He & Hm). exists b, s2.
  destruct (Finish_publishes (λ _, true) (λ _ _, None) toySink (λ _, Some []) (λ _, Some []) 0 [] (λ s, s) (λ _, None) (λ ds, (ds, None)) freshNumber
    (λ _, None) (λ _, None) (λ _, false) freshNumber_new b toyDir toyOpts s [toyDoc'] s2 Hn Hm Hr Hf He) as (dir & err & Hp & Hres).
  exists dir, err. split; [exact Hp|]. intros Herr. destruct (Hres Herr) as (chunks & stop & Hc & Hcut & Hfiles & _). exists chunks.
  split_and!; [exact Hc|exact Hcut|]. intros n c Hnc. destruct (Hfiles n c Hnc) as (f & Hfl & _). by exists f.
Defined.

Lemma Finish_atomic_witness : ∃ s2 dir, publish (λ s, s) (λ _, None) (λ _, false) s2 = Ok (dir, Some "disk full"%string) ∧
  ∀ g x, toyDir !! g = Some x → dir !! g = Some x.
Proof.
  destruct (toyEnds_runs _ _ toyEnds_err) as (b & s & s2 & Hn & Hr & Hf & He & Hm). exists s2.
  destruct (Finish_atomic (λ _, true) (λ _ _, None) toySink (λ _, Some []) (λ _, Some []) 0 [] (λ s, s) (λ _, None) (λ ds, (ds, None)) freshNumber
    (λ _, Some (true, "disk full"%string)) (λ _, None) (λ _, false) freshNumber_new b toyDir toyOpts s [toyDoc'] s2 "disk full" Hn Hm Hr Hf He)
    as (dir & Hp & Hd & _).
  exists dir. split; [exact Hp|exact Hd].
Defined.
