(* ===== verification/Web.v ===== *)
(** * web/: the HTML front end

    The data of the pages (web/api.go), the formatting of results (web/snippets.go) and the handlers
    (web/server.go). A handler works on the state of the server and returns the body of the page or
    an error. The searcher is a class; templates, which html/template parses and executes, are
    parameters. *)

From S2P Require Import Prelude GoStd GoText Bits Api HitIter MatchIter Query Parse Section IndexBuilder IndexData Content MatchTree Eval Decide Shard Gather Lines Walk.

(** ** The searcher a server uses *)

(** Its answers may depend on a state of its own: shards come and go. *)
Class Searcher (S : Type) := {
  Searcher_Search : S → Q → SearchOptions → res SearchResult * S;
  Searcher_List : S → Q → res RepoList * S }.

(** ** Data of the pages *)

Record LastInput := MkLastInput { li_Query : bytes; li_Num : Z; li_AutoFocus : bool }.

Record Fragment := MkFragment { fr_Pre : bytes; fr_Match : bytes; fr_Post : bytes }.
Record Match := MkMatch { ma_URL : bytes; ma_FileName : bytes; ma_LineNum : Z; ma_Fragments : list Fragment }.
Record FileMatch := MkFileView {
  fv_FileName : bytes;
  fv_Repo : bytes;
  fv_ResultID : bytes;
  fv_Language : bytes;
  fv_DuplicateID : bytes;
  fv_Branches : list bytes;
  fv_Matches : list Match;
  fv_URL : bytes }.

(** Without the printed forms of the query and the options and without the durations. *)
Record ResultInput := MkResultInput {
  ri_Last : LastInput;
  ri_QueryStr : bytes;
  ri_Stats : Stats;
  ri_FileMatches : list FileMatch }.

Record SearchBoxInput := MkSearchBoxInput { sb_Last : LastInput; sb_Stats : RepoStats; sb_Version : bytes; sb_Uptime : Z }.

Record Branch := MkBranchView { bv_Name : bytes; bv_Version : bytes; bv_URL : bytes }.
Record Repository := MkRepoView {
  rv_Name : bytes;
  rv_URL : bytes;
  rv_IndexTime : Z;
  rv_Branches : list Branch;
  rv_Files : Z;
  rv_Size : Z }.
Record RepoListInput := MkRepoListInput { rp_Last : LastInput; rp_Stats : RepoStats; rp_Repos : list Repository }.
Record PrintInput := MkPrintInput { pi_Repo : bytes; pi_Name : bytes; pi_Lines : list bytes; pi_Last : LastInput }.

(** ** Functions of the templates *)

Definition HumanUnit (orig : Z) : bytes :=
  if 10737418240 <? orig then Itoa (orig ÷ 1073741824) ++ str "G"
  else if 10485760 <? orig then Itoa (orig ÷ 1048576) ++ str "M"
  else if 10240 <? orig then Itoa (orig ÷ 1024) ++ str "K"
  else Itoa orig.
Definition LimitPre (limit : Z) (pre : bytes) : res bytes :=
  if lenZ pre <? limit then Ok pre
  else tail ← slice_from pre (lenZ pre - limit);
    Ok (str "...(" ++ Itoa (lenZ pre - limit) ++ str " bytes skipped)..." ++ tail).
Definition LimitPost (limit : Z) (post : bytes) : res bytes :=
  if lenZ post <? limit then Ok post
  else head ← slice post 0 limit; Ok (head ++ str "...(" ++ Itoa (lenZ post - limit) ++ str " bytes skipped)...").

Definition defaultNumResults : Z := 50.
(** 30 seconds. *)
Definition statsStaleNess : Z := 30000000000.

(** Go's int. *)
Definition i64 (x : Z) : Z := (x + 2 ^ 63) mod 2 ^ 64 - 2 ^ 63.

(** ** Results *)

Inductive TplData := TplMap (m : gmap bytes bytes) | TplBranch (b : RepositoryBranch).

Section Format.
Context `{SortAlg}.
(** html/template: templates, Parse, the parse of the empty text, and Execute. *)
Context {T : Type} (parseTemplate : bytes → option T) (emptyTemplate : T) (Execute : T → TplData → option bytes).

(** The template and the cache with it. *)
Definition getTemplate (str : bytes) (cache : gmap bytes T) : T * gmap bytes T :=
  match cache !! str with
  | Some t => (t, cache)
  | None => let t := default emptyTemplate (parseTemplate str) in (t, <[str := t]> cache)
  end.
Definition getTemplates (texts : gmap bytes bytes) (cache : gmap bytes T) : gmap bytes T * gmap bytes T :=
  foldl (λ acc kv, let '(t, cache) := getTemplate (snd kv) (snd acc) in (<[fst kv := t]> (fst acc), cache))
    (∅, cache) (map_to_list texts).

Definition getFragment (localPrint : bool) (fragmentMap : gmap bytes T) (repo : bytes) (linenum : Z) : bytes :=
  if localPrint then str "#l" ++ Itoa linenum
  else match fragmentMap !! repo with
       | Some tpl => default [] (Execute tpl (TplMap {[ str "LineNumber" := Itoa linenum ]}))
       | None => []
       end.

Definition printValues (repo filename query : bytes) (branches : list bytes) : Values :=
  let v := Values_Add (str "q") query (Values_Add (str "f") filename (Values_Add (str "r") repo ∅)) in
  match branches with [] => v | b :: _ => Values_Add (str "b") b v end.
Definition getURL (localPrint : bool) (query : bytes) (templateMap : gmap bytes T) (repo filename : bytes) (branches : list bytes)
    (version : bytes) : bytes :=
  if localPrint then str "print?" ++ Encode (printValues repo filename query branches)
  else match templateMap !! repo with
       | Some tpl =>
         default [] (Execute tpl (TplMap (<[str "Branch" := default [] (head branches)]>
           (<[str "Version" := version]> {[ str "Path" := filename ]}))))
       | None => []
       end.

(** The fragments of a line; [lastEnd] is where the one before ends. *)
Fixpoint formatFragments (line : bytes) (lastEnd : Z) (l : list LineFragmentMatch) : res (list Fragment) :=
  match l with
  | [] => Ok []
  | f :: l' =>
    let o := lf_LineOffset f in
    let e := o + lf_MatchLength f in
    pre ← slice line lastEnd o;
    m ← slice line o e;
    post ← (if bool_decide (l' = []) then slice_from line e else Ok []);
    rest ← formatFragments line e l';
    Ok (MkFragment pre m post :: rest)
  end.

Definition formatLine (fragment : Z → bytes) (f : Api.FileMatch) (url : bytes) (m : LineMatch) : res Match :=
  let fragment := fragment (lm_LineNumber m) in
  let fragment := if HasPrefix fragment (str "#") || HasPrefix fragment (str ";") then fragment else str "#" ++ fragment in
  frags ← formatFragments (lm_Line m) 0 (lm_LineFragments m);
  Ok (MkMatch (url ++ fragment) (fm_FileName f) (lm_LineNumber m) frags).

Definition fileURL (url : bytes → bytes → list bytes → bytes → bytes) (f : Api.FileMatch) : res bytes :=
  if bool_decide (fm_SubRepositoryName f = []) then Ok (url (fm_Repository f) (fm_FileName f) (fm_Branches f) (fm_Version f))
  else
    fn ← slice_from (fm_FileName f) (lenZ (fm_SubRepositoryPath f));
    Ok (url (fm_SubRepositoryName f) (TrimPrefix fn (str "/")) (fm_Branches f) (fm_Version f)).

Definition resultID (f : Api.FileMatch) : bytes := fm_Repository f ++ str ":" ++ fm_FileName f.
(** One file: its view and the table of checksums. *)
Definition formatFile (fragment : bytes → Z → bytes) (url : bytes → bytes → list bytes → bytes → bytes)
    (seenFiles : gmap bytes bytes) (f : Api.FileMatch) : res (FileMatch * gmap bytes bytes) :=
  let '(dup, seenFiles) := match seenFiles !! fm_Checksum f with
                           | Some dup => (dup, seenFiles)
                           | None => ([], <[fm_Checksum f := resultID f]> seenFiles)
                           end in
  u ← fileURL url f;
  ms ← mapM (formatLine (fragment (fm_Repository f)) f u) (fm_LineMatches f);
  Ok (MkFileView (fm_FileName f) (fm_Repository f) (resultID f) (fm_Language f) dup (fm_Branches f) ms u, seenFiles).
Fixpoint formatFiles (fragment : bytes → Z → bytes) (url : bytes → bytes → list bytes → bytes → bytes)
    (seenFiles : gmap bytes bytes) (l : list Api.FileMatch) : res (list FileMatch) :=
  match l with
  | [] => Ok []
  | f :: l =>
    '(v, seenFiles) ← formatFile fragment url seenFiles f;
    vs ← formatFiles fragment url seenFiles l; Ok (v :: vs)
  end.

Definition formatResults (result : SearchResult) (query : bytes) (localPrint : bool) (cache : gmap bytes T)
    : res (list FileMatch) * gmap bytes T :=
  let '(templateMap, cache) := if localPrint then (∅, cache) else getTemplates (sr_RepoURLs result) cache in
  let '(fragmentMap, cache) := if localPrint then (∅, cache) else getTemplates (sr_LineFragments result) cache in
  (formatFiles (getFragment localPrint fragmentMap) (getURL localPrint query templateMap) ∅ (sr_Files result), cache).
End Format.

(** ** The server *)

(** HTML and RPC, which only NewMux reads, are its arguments; the templates are given by the functions
    that execute them. *)
Record Server (S T : Type) := MkServer {
  s_Searcher : S;
  s_Print : bool;
  s_Version : bytes;
  s_HostCustomQueries : gmap bytes bytes;
  s_startTime : Z;
  s_templateCache : gmap bytes T;
  s_lastStats : option RepoStats;
  s_lastStatsTS : Z }.
Arguments MkServer {S T}.
Arguments s_Searcher {S T}.
Arguments s_Print {S T}.
Arguments s_Version {S T}.
Arguments s_HostCustomQueries {S T}.
Arguments s_startTime {S T}.
Arguments s_templateCache {S T}.
Arguments s_lastStats {S T}.
Arguments s_lastStatsTS {S T}.

(** What the handlers read of a request. *)
Record Request := MkRequest { rq_RawQuery : bytes; rq_Host : bytes }.

(** net.SplitHostPort, of which the host is used and an error ignored. *)
Definition splitHost (hp : bytes) : bytes :=
  let i := last (filter (λ k, hp !! k = Some 58) (seq 0 (length hp))) in
  match i, hp with
  | Some i, 91 :: _ =>
    match CutByte 93 hp with
    | (pre, Some _) =>
      let e := length pre in
      if bool_decide (S e = i) then
        if Contains (drop 1 hp) [91] || Contains (drop (S e) hp) [93] then [] else drop 1 pre
      else []
    | (_, None) => []
    end
  | Some i, _ =>
    let host := take i hp in
    if Contains host [58] || Contains hp [91] || Contains hp [93] then [] else host
  | None, _ => []
  end.

Section Handlers.
Context `{SortAlg} {A T : Type} `{Searcher A}.
Context (parseTemplate : bytes → option T) (emptyTemplate : T) (Execute : T → TplData → option bytes).
(** The templates of the pages. *)
Context (renderResult : ResultInput → res bytes) (renderRepoList : RepoListInput → res bytes)
  (renderSearch renderAbout : SearchBoxInput → res bytes) (renderPrint : PrintInput → res bytes).
(** syntax.Parse as query.Parse calls it and without flags, and Regexp.String. *)
Context (syntaxParse syntaxParse0 : bytes → option Regexp) (reString : Regexp → bytes).
#[local] Abbreviation Srv := (Server A T).

Definition set_Searcher (x : A) (s : Srv) : Srv :=
  MkServer x (s_Print s) (s_Version s) (s_HostCustomQueries s) (s_startTime s) (s_templateCache s) (s_lastStats s) (s_lastStatsTS s).
Definition set_templateCache (x : gmap bytes T) (s : Srv) : Srv :=
  MkServer (s_Searcher s) (s_Print s) (s_Version s) (s_HostCustomQueries s) (s_startTime s) x (s_lastStats s) (s_lastStatsTS s).
Definition set_lastStats (x : option RepoStats) (ts : Z) (s : Srv) : Srv :=
  MkServer (s_Searcher s) (s_Print s) (s_Version s) (s_HostCustomQueries s) (s_startTime s) (s_templateCache s) x ts.

Definition search (q : Q) (opts : SearchOptions) : M Srv SearchResult := λ s,
  let '(r, x) := Searcher_Search (s_Searcher s) q opts in (r, set_Searcher x s).
Definition list_ (q : Q) : M Srv RepoList := λ s,
  let '(r, x) := Searcher_List (s_Searcher s) q in (r, set_Searcher x s).
Definition format (result : SearchResult) (query : bytes) (localPrint : bool) : M Srv (list FileMatch) := λ s,
  let '(r, c) := formatResults parseTemplate emptyTemplate Execute result query localPrint (s_templateCache s) in
  (r, set_templateCache c s).
Definition template (text : bytes) : M Srv T := λ s,
  let '(t, c) := getTemplate parseTemplate emptyTemplate text (s_templateCache s) in (Ok t, set_templateCache c s).

(** The number of results asked for. *)
Definition getNum (qvals : Values) : Z :=
  match ParseInt (Values_Get qvals (str "num")) with
  | Ok num => if num <=? 0 then defaultNumResults else num
  | _ => defaultNumResults
  end.

(** *** Lists of repositories *)

Definition nameLess (x y : RepoListEntry) : bool := string_less (r_Name (rle_Repository x)) (r_Name (rle_Repository y)).
Definition sizeLess (x y : RepoListEntry) : bool := rs_ContentBytes (rle_Stats x) <? rs_ContentBytes (rle_Stats y).
Definition timeLess (x y : RepoListEntry) : bool := md_IndexTime (rle_IndexMetadata x) <? md_IndexTime (rle_IndexMetadata y).

Definition sortRepos (order : bytes) (repos : list RepoListEntry) : res (list RepoListEntry) :=
  if bool_decide (order ∈ [str ""; str "name"; str "revname"]) then Ok (go_sort nameLess repos)
  else if bool_decide (order ∈ [str "size"; str "revsize"]) then Ok (go_sort sizeLess repos)
  else if bool_decide (order ∈ [str "time"; str "revtime"]) then Ok (go_sort timeLess repos)
  else Err "got unknown sort key, allowed [rev]name, [rev]time, [rev]size".
(** The loop that swaps the ends until they meet. *)
Fixpoint reverseLoop {B} (fuel : nat) (l : list B) (i j : Z) : res (list B) :=
  if i <? j then
    match fuel with
    | O => OutOfFuel
    | S fuel =>
      x ← index l i; y ← index l j;
      reverseLoop fuel (<[Z.to_nat j := x]> (<[Z.to_nat i := y]> l)) (i + 1) (j - 1)
    end
  else Ok l.
Definition orderRepos (order : bytes) (repos : list RepoListEntry) : res (list RepoListEntry) :=
  repos ← sortRepos order repos;
  if HasPrefix order (str "rev") then reverseLoop (length repos) repos 0 (lenZ repos - 1) else Ok repos.

Definition branchView (t : T) (b : RepositoryBranch) : res Branch :=
  match Execute t (TplBranch b) with
  | Some url => Ok (MkBranchView (br_Name b) (br_Version b) url)
  | None => Err "template"
  end.
Definition repoView (r : RepoListEntry) : M Srv Repository :=
  t ← template (r_CommitURLTemplate (rle_Repository r));
  bs ← lift (mapM (branchView t) (r_Branches (rle_Repository r)));
  mret (MkRepoView (r_Name (rle_Repository r)) (r_URL (rle_Repository r)) (md_IndexTime (rle_IndexMetadata r)) bs
          (rs_Documents (rle_Stats r)) (rs_ContentBytes (rle_Stats r))).

Definition serveListReposErr (q : Q) (qStr : bytes) (r : Request) : M Srv bytes :=
  repos ← list_ q;
  repos ← lift (orderRepos (Values_Get (ParseQuery (rq_RawQuery r)) (str "order")) (rl_Repos repos));
  let aggregate := foldl (λ a e, RepoStats_Add a (rle_Stats e)) (MkRepoStats (lenZ repos) 0 0 0 0) repos in
  views ← mapM repoView repos;
  lift (renderRepoList (MkRepoListInput (MkLastInput qStr 0 true) aggregate views)).

(** *** Searches *)

Definition isRepo (q : Q) : bool := match q with QRepo _ => true | _ => false end.
Definition repoOnly (q : Q) : bool := forallb isRepo (VisitAtoms q).

(** The options of the search, from the estimated number of documents. *)
Definition limits (num numdocs : Z) : res SearchOptions :=
  let o := SetDefaults (MkSearchOptions false false 0 0 0 0 10000000000 0) in
  '(shardMax, totalMax, shardImp, totalImp) ←
    (if 10000 <? numdocs then
       if (numdocs ÷ 1000 =? 0) || (numdocs ÷ 500 =? 0) then Panic "integer divide by zero"
       else Ok (i64 (i64 (num * 5) + i64 (5 * num) ÷ (numdocs ÷ 1000)), so_TotalMaxMatchCount o,
                i64 (num ÷ 20 + num ÷ (numdocs ÷ 500)), so_TotalMaxImportantMatch o)
     else let n := i64 (numdocs + i64 (num * 100)) in Ok (n, n, n, n));
  Ok (MkSearchOptions false false shardMax totalMax shardImp totalImp (so_MaxWallTime o) num).

Definition serveSearchErr (r : Request) : M Srv bytes :=
  let qvals := ParseQuery (rq_RawQuery r) in
  let queryStr := Values_Get qvals (str "q") in
  if bool_decide (queryStr = []) then lift (Err "no query found")
  else
    q ← lift (Parse.Parse syntaxParse reString queryStr);
    if repoOnly q then serveListReposErr q queryStr r
    else
      let num := getNum qvals in
      estimate ← search q (MkSearchOptions true false 0 0 0 0 0 0);
      sOpts ← lift (limits num (ShardFilesConsidered (sr_Stats estimate)));
      result ← search q sOpts;
      localPrint ← gets s_Print;
      fileMatches ← format result queryStr localPrint;
      lift (renderResult (MkResultInput (MkLastInput queryStr num true) queryStr (sr_Stats result) fileMatches)).

(** *** The entry page *)

(** [now] and [now'] are the readings of the clock. *)
Definition fetchStats (now now' : Z) : M Srv RepoStats :=
  cached ← gets (λ s, if statsStaleNess <? now - s_lastStatsTS s then None else s_lastStats s);
  match cached with
  | Some stats => mret stats
  | None =>
    repos ← list_ (QConst true);
    let stats := foldl (λ a e, RepoStats_Add a (rle_Stats e)) (MkRepoStats 0 0 0 0 0) (rl_Repos repos) in
    let names : gset bytes := list_to_set ((λ e, r_Name (rle_Repository e)) <$> rl_Repos repos) in
    let stats := MkRepoStats (Z.of_nat (size names)) (rs_Shards stats) (rs_Documents stats) (rs_IndexBytes stats) (rs_ContentBytes stats) in
    _ ← modify (set_lastStats (Some stats) now'); mret stats
  end.

Definition customQuery (custom : gmap bytes bytes) (host : bytes) : bytes :=
  let c := default [] (custom !! host) in
  if bool_decide (c = []) then default [] (custom !! splitHost host) else c.
Definition serveSearchBoxErr (now now' now'' : Z) (r : Request) : M Srv bytes :=
  stats ← fetchStats now now';
  s ← gets id;
  let query := Values_Get (ParseQuery (rq_RawQuery r)) (str "q") in
  let query := if bool_decide (query = []) then
                 let custom := customQuery (s_HostCustomQueries s) (rq_Host r) in
                 if bool_decide (custom = []) then [] else custom ++ str " "
               else query in
  lift (renderSearch (MkSearchBoxInput (MkLastInput query defaultNumResults true) stats (s_Version s) (now'' - s_startTime s))).
Definition serveAboutErr (now now' now'' : Z) : M Srv bytes :=
  stats ← fetchStats now now';
  s ← gets id;
  lift (renderAbout (MkSearchBoxInput (MkLastInput [] 0 false) stats (s_Version s) (now'' - s_startTime s))).

(** *** Whole files *)

Definition printQuery (qvals : Values) : res Q :=
  match syntaxParse0 (str "^" ++ QuoteMeta (Values_Get qvals (str "f")) ++ str "$") with
  | None => Err "regexp"
  | Some re =>
    let b := Values_Get qvals (str "b") in
    Ok (QAnd ([QRegexp re true false true; QRepo (Values_Get qvals (str "r"))] ++ (if bool_decide (b = []) then [] else [QBranch b])))
  end.
Definition servePrintErr (r : Request) : M Srv bytes :=
  print ← gets s_Print;
  if negb print then lift (Err "no printing template defined.")
  else
    let qvals := ParseQuery (rq_RawQuery r) in
    q ← lift (printQuery qvals);
    result ← search q (MkSearchOptions false true 0 0 0 0 0 0);
    match sr_Files result with
    | [f] => lift (renderPrint (MkPrintInput (fm_Repository f) (fm_FileName f) (SplitByte 10 (fm_Content f))
                                  (MkLastInput (Values_Get qvals (str "q")) (getNum qvals) false)))
    | _ => lift (Err "ambiguous result")
    end.

(** *** Answers *)

Inductive Response := Body (b : bytes) | Teapot (e : string).
(** The handlers proper: the body, or the error under http.StatusTeapot. No code makes a
    SuggestQueryError, for which serveSearch has a page of its own. *)
Definition respond (h : M Srv bytes) : M Srv Response := λ s,
  match h s with
  | (Ok b, s) => (Ok (Body b), s)
  | (Err e, s) => (Ok (Teapot e), s)
  | (Panic w, s) => (Panic w, s)
  | (OutOfFuel, s) => (OutOfFuel, s)
  end.
Definition serveSearch (r : Request) : M Srv Response := respond (serveSearchErr r).
Definition servePrint (r : Request) : M Srv Response := respond (servePrintErr r).
Definition serveSearchBox (now now' now'' : Z) (r : Request) : M Srv Response := respond (serveSearchBoxErr now now' now'' r).
Definition serveAbout (now now' now'' : Z) : M Srv Response := respond (serveAboutErr now now' now'').

(** Which handler serves which path. [lookup]: the templates that are defined; the map of the source is walked in any order. *)
Inductive Handler := HSearch | HSearchBox | HAbout | HRPC | HPrint.
Definition NewMux (lookup : bytes → bool) (html rpc : bool) (now : Z) (s : Srv) : res (list (bytes * Handler) * Srv) :=
  if negb (lookup (str "print")) then Err "missing template 'print'"
  else if forallb lookup [str "didyoumean"; str "results"; str "print"; str "search"; str "repolist"; str "about"] then
    Ok ((if html then [(str "/search", HSearch); (str "/", HSearchBox); (str "/about", HAbout)] else []) ++
        (if rpc then [(str "/rpc", HRPC)] else []) ++ (if s_Print s then [(str "/print", HPrint)] else []),
        MkServer (s_Searcher s) (s_Print s) (s_Version s) (s_HostCustomQueries s) now ∅ (s_lastStats s) (s_lastStatsTS s))
  else Err "missing template".
End Handlers.

(** ** Lines and their fragments *)

(** Fragments in order, apart, and within the line. *)
Fixpoint inLine (line : bytes) (lastEnd : Z) (l : list LineFragmentMatch) : Prop :=
  match l with
  | [] => True
  | f :: l => lastEnd <= lf_LineOffset f ∧ 0 <= lf_MatchLength f ∧ lf_LineOffset f + lf_MatchLength f <= lenZ line ∧
      inLine line (lf_LineOffset f + lf_MatchLength f) l
  end.
(** What the page shows of a fragment, and the bytes a fragment of a line stands for. *)
Definition shown (f : Fragment) : bytes := fr_Pre f ++ fr_Match f ++ fr_Post f.
Definition matched (line : bytes) (f : LineFragmentMatch) : bytes :=
  take (Z.to_nat (lf_MatchLength f)) (drop (Z.to_nat (lf_LineOffset f)) line).

Lemma slice_drop {A} (l : list A) i j : 0 <= i <= j → j <= lenZ l →
  ∃ a, slice l i j = Ok a ∧ a = take (Z.to_nat (j - i)) (drop (Z.to_nat i) l) ∧ a ++ drop (Z.to_nat j) l = drop (Z.to_nat i) l.
Proof.
  intros Hi Hj. unfold slice. rewrite decide_True by lia. eexists. split; [done|]. split; [done|].
  replace (Z.to_nat j) with (Z.to_nat i + Z.to_nat (j - i))%nat by lia.
  by rewrite <- drop_drop, take_drop.
Qed.

Lemma formatFragments_ok line l lastEnd : 0 <= lastEnd <= lenZ line → inLine line lastEnd l →
  ∃ frs, formatFragments line lastEnd l = Ok frs ∧ fr_Match <$> frs = matched line <$> l ∧
    (l ≠ [] → mjoin (shown <$> frs) = drop (Z.to_nat lastEnd) line).
Proof.
  revert lastEnd. induction l as [|f l IH]; intros lastEnd Hl Hin; [by exists []|]. destruct Hin as (H1 & H2 & H3 & Hin).
  cbn [formatFragments]. set (o := lf_LineOffset f) in *. set (e := o + lf_MatchLength f) in *.
  destruct (slice_drop line lastEnd o) as (pre & -> & _ & Hpre); [lia|lia|].
  destruct (slice_drop line o e) as (m & -> & Hm & Hpost); [lia|lia|]. cbn [mbind res_bind].
  destruct (IH e) as (frs & Hfrs & Hms & Hsh); [lia|done|].
  destruct l as [|f' l]; cbn [bool_decide decide_rel].
  - rewrite bool_decide_true by done. rewrite slice_from_Ok by lia. cbn [mbind res_bind]. rewrite Hfrs. simpl in Hms.
    apply fmap_nil_inv in Hms as ->. cbn [mbind res_bind]. eexists. split; [done|]. split.
    + cbn. f_equal. rewrite Hm. unfold matched, e. do 2 f_equal. fold o. lia.
    + intros _. rewrite <- Hpre, <- Hpost. cbn. by rewrite app_nil_r, ?app_assoc.
  - rewrite bool_decide_false by done. cbn [mbind res_bind]. rewrite Hfrs. cbn [mbind res_bind]. eexists. split; [done|]. split.
    + rewrite fmap_cons, Hms. cbn [fr_Match]. rewrite (fmap_cons _ f). f_equal. rewrite Hm. unfold matched, e. do 2 f_equal. fold o. lia.
    + intros _. rewrite fmap_cons, mjoin_cons, Hsh by done. unfold shown. cbn [fr_Pre fr_Match fr_Post].
      by rewrite app_nil_r, <- app_assoc, Hpost, Hpre.
Qed.

(** The lines of contents have their fragments in order. *)
Lemma line_fragments_in c l ms : line_match c l → Forall cm_ok ms → StronglySorted apart ms →
  (λ f, (lf_Offset f, lf_MatchLength f)) <$> lm_LineFragments l = extents ms → inLine (lm_Line l) 0 (lm_LineFragments l).
Proof.
  intros [[Hb Hc] Ht _ _ _ _ [_ Hf]] Hok Hs.
  assert (lenZ (lm_Line l) = lm_LineEnd l - lm_LineStart l) as Hlen.
  { unfold slice in Ht. case_decide; [|done]. injection Ht as <-. rewrite lenZ_take, lenZ_drop. lia. }
  assert (∀ fs ms lastEnd, Forall (λ f, lf_LineOffset f = lf_Offset f - lm_LineStart l ∧ lm_LineStart l <= lf_Offset f ∧
            lf_Offset f + lf_MatchLength f <= lm_LineEnd l) fs → Forall cm_ok ms → StronglySorted apart ms →
          (λ f, (lf_Offset f, lf_MatchLength f)) <$> fs = extents ms → Forall (λ m, lastEnd + lm_LineStart l <= cm_byteOffset m) ms →
          inLine (lm_Line l) lastEnd fs) as Hgen.
  { induction fs as [|f fs IH]; intros [|m ms'] lastEnd Hfs Hms Hss E Hle; try done.
    apply Forall_cons in Hfs as [(Ho & Hst & He) Hfs]. apply Forall_cons in Hms as [(Hm1 & Hm2 & Hm3) Hms].
    apply StronglySorted_inv in Hss as [Hss Hap]. apply Forall_cons in Hle as [Hle _]. injection E as E1 E2 E3.
    split; [lia|]. split; [lia|]. split; [lia|]. apply (IH ms'); try done. eapply Forall_impl; [exact Hap|].
    intros m' Hm'. unfold apart, cm_end in Hm'. lia. }
  intros E. apply (Hgen _ ms 0); try done. assert (Forall (λ m, lm_LineStart l <= cm_byteOffset m) ms) as Hall.
  { clear -Hf E. revert ms E. generalize dependent (lm_LineFragments l). induction l0 as [|f fs IH]; intros Hf [|m ms] E; try done.
    apply Forall_cons in Hf as [(_ & Hst & _) Hf]. injection E as E1 E2 E3. constructor; [lia|]. by apply IH. }
  eapply Forall_impl; [exact Hall|]. simpl. lia.
Qed.

(** The bytes of a match in the contents. *)
Definition matchText (c : bytes) (m : candidateMatch) : bytes :=
  take (Z.to_nat (cm_byteMatchSz m)) (drop (Z.to_nat (cm_byteOffset m)) c).

Lemma matched_text c l f : line_match c l → f ∈ lm_LineFragments l → 0 <= lf_MatchLength f →
  matched (lm_Line l) f = take (Z.to_nat (lf_MatchLength f)) (drop (Z.to_nat (lf_Offset f)) c).
Proof.
  intros [[Hb Hc] Ht _ _ _ _ [_ Hf]] Hin Hpos. rewrite Forall_forall in Hf. destruct (Hf f Hin) as (Ho & Hst & He).
  unfold slice in Ht. case_decide; [|done]. injection Ht as <-. unfold matched. rewrite skipn_firstn_comm, take_take, drop_drop.
  f_equal; [lia|]. f_equal. lia.
Qed.

Lemma content_lines c ls ms : Forall (line_match c) ls → Forall cm_ok ms → StronglySorted apart ms → fragments ls = extents ms →
  Forall (λ l, inLine (lm_Line l) 0 (lm_LineFragments l)) ls ∧
  mjoin ((λ l, matched (lm_Line l) <$> lm_LineFragments l) <$> ls) = matchText c <$> ms.
Proof.
  intros Hls. revert ms. induction Hls as [|l ls Hl Hls IH]; intros ms Hok Hs E.
  { destruct ms; [|done]. split; constructor. }
  change (fragments (l :: ls)) with (((λ f, (lf_Offset f, lf_MatchLength f)) <$> lm_LineFragments l) ++ fragments ls) in E.
  symmetry in E. apply fmap_app_inv in E as (ms1 & ms2 & E1 & E2 & ->). apply Forall_app in Hok as [Hok1 Hok2].
  apply StronglySorted_app in Hs as (_ & Hs1 & Hs2). destruct (IH ms2 Hok2 Hs2 E2) as [Hin Htxt].
  split; [constructor; [by apply (line_fragments_in c l ms1)|done]|].
  rewrite fmap_cons, mjoin_cons, Htxt, fmap_app. f_equal.
  assert (∀ fs ms, fs ⊆ lm_LineFragments l → Forall cm_ok ms → (λ f, (lf_Offset f, lf_MatchLength f)) <$> fs = extents ms →
            matched (lm_Line l) <$> fs = matchText c <$> ms) as Hgen; [|by eapply Hgen].
  induction fs as [|f fs IHf]; intros [|m ms'] Hsub Hm Em; try done. injection Em as Em1 Em2 Em3.
  apply Forall_cons in Hm as [(_ & Hm2 & _) Hm]. rewrite !fmap_cons. f_equal.
  - rewrite (matched_text c) by (done || (apply Hsub; constructor) || lia). unfold matchText. by rewrite Em1, Em2.
  - apply IHf; [|done|done]. intros f' ?. apply Hsub. by constructor.
Qed.

Lemma formatLines_ok fragment f url ls : Forall (λ l, inLine (lm_Line l) 0 (lm_LineFragments l)) ls →
  ∃ ws, mapM (formatLine fragment f url) ls = Ok ws ∧
    Forall2 (λ l w, ma_FileName w = fm_FileName f ∧ ma_LineNum w = lm_LineNumber l ∧
      fr_Match <$> ma_Fragments w = matched (lm_Line l) <$> lm_LineFragments l ∧
      (lm_LineFragments l ≠ [] → mjoin (shown <$> ma_Fragments w) = lm_Line l)) ls ws.
Proof.
  induction 1 as [|l ls Hl _ (ws & Hws & HF)]; [by exists []|].
  destruct (formatFragments_ok (lm_Line l) (lm_LineFragments l) 0) as (frs & Hfrs & Hm & Hsh); [pose proof (lenZ_nonneg (lm_Line l)); lia|done|].
  eexists (_ :: ws). split; [apply mapM_Ok; constructor; [unfold formatLine; by rewrite Hfrs|by apply mapM_Ok]|].
  constructor; [|done]. simpl. rewrite drop_0 in Hsh. auto.
Qed.

(** ** Files *)

(** The first of [l] with checksum [c], by its id. *)
Definition firstWith (l : list Api.FileMatch) (c : bytes) : option bytes :=
  resultID <$> head (filter (λ g, fm_Checksum g = c) l).
(** The name of a file within the repository that its URL is about, and that repository. *)
Definition fileTarget (f : Api.FileMatch) : bytes * bytes :=
  if bool_decide (fm_SubRepositoryName f = []) then (fm_Repository f, fm_FileName f)
  else (fm_SubRepositoryName f, TrimPrefix (drop (length (fm_SubRepositoryPath f)) (fm_FileName f)) (str "/")).
(** A file whose name is under the path of its sub-repository, with lines whose fragments are in order. *)
Definition wfFile (f : Api.FileMatch) : Prop :=
  (fm_SubRepositoryName f ≠ [] → lenZ (fm_SubRepositoryPath f) <= lenZ (fm_FileName f)) ∧
  Forall (λ l, inLine (lm_Line l) 0 (lm_LineFragments l)) (fm_LineMatches f).

(** The view of a file behind the files [before]. *)
Record viewOf (url : bytes → bytes → list bytes → bytes → bytes) (before : list Api.FileMatch) (f : Api.FileMatch) (v : FileMatch)
    : Prop := {
  vo_name : fv_FileName v = fm_FileName f ∧ fv_Repo v = fm_Repository f ∧ fv_ResultID v = resultID f;
  vo_url : fv_URL v = url (fst (fileTarget f)) (snd (fileTarget f)) (fm_Branches f) (fm_Version f);
  vo_duplicate : fv_DuplicateID v = default [] (firstWith before (fm_Checksum f));
  vo_lines : Forall2 (λ l w, ma_FileName w = fm_FileName f ∧ ma_LineNum w = lm_LineNumber l ∧
    fr_Match <$> ma_Fragments w = matched (lm_Line l) <$> lm_LineFragments l ∧
    (lm_LineFragments l ≠ [] → mjoin (shown <$> ma_Fragments w) = lm_Line l)) (fm_LineMatches f) (fv_Matches v) }.

Lemma firstWith_snoc before f c :
  firstWith (before ++ [f]) c = match firstWith before c with Some id => Some id | None => if decide (fm_Checksum f = c) then Some (resultID f) else None end.
Proof.
  unfold firstWith. rewrite filter_app. destruct (filter _ before) as [|g gs]; [|done]. simpl. rewrite filter_cons, filter_nil. by case_decide.
Qed.

Lemma formatFile_ok fragment url seen before f : wfFile f → (∀ c, seen !! c = firstWith before c) →
  ∃ v seen', formatFile fragment url seen f = Ok (v, seen') ∧ viewOf url before f v ∧ ∀ c, seen' !! c = firstWith (before ++ [f]) c.
Proof.
  intros [Hp Hl] Hseen. unfold formatFile.
  destruct (formatLines_ok (fragment (fm_Repository f)) f (url (fst (fileTarget f)) (snd (fileTarget f)) (fm_Branches f) (fm_Version f)) _ Hl)
    as (ws & Hws & HF).
  assert (fileURL url f = Ok (url (fst (fileTarget f)) (snd (fileTarget f)) (fm_Branches f) (fm_Version f))) as Hu.
  { unfold fileURL, fileTarget. case_bool_decide as Hn; [done|]. specialize (Hp Hn). rewrite slice_from_Ok by (pose proof (lenZ_nonneg (fm_SubRepositoryPath f)); lia).
    cbn [mbind res_bind fst snd]. unfold lenZ. by rewrite Nat2Z.id. }
  destruct (seen !! fm_Checksum f) as [dup|] eqn:Ed; cbn [mbind res_bind]; rewrite Hu; cbn [mbind res_bind]; rewrite Hws; cbn [mbind res_bind];
    (eexists _, _; split; [done|]; split; [by split; rewrite <- ?Hseen, ?Ed|]); intros c; rewrite firstWith_snoc, <- Hseen.
  - destruct (seen !! c) eqn:Ec; [done|]. rewrite decide_False; [done|]. congruence.
  - destruct (decide (fm_Checksum f = c)) as [<-|Hne]; [by rewrite lookup_insert_eq, Ed|].
    rewrite lookup_insert_ne by done. by destruct (seen !! c).
Qed.

Lemma formatFiles_ok fragment url seen before l : Forall wfFile l → (∀ c, seen !! c = firstWith before c) →
  ∃ vs, formatFiles fragment url seen l = Ok vs ∧ length vs = length l ∧
    ∀ i f, l !! i = Some f → ∃ v, vs !! i = Some v ∧ viewOf url (before ++ take i l) f v.
Proof.
  intros Hl. revert seen before. induction Hl as [|f l Hf _ IH]; intros seen before Hseen; [by exists []|].
  destruct (formatFile_ok fragment url seen before f Hf Hseen) as (v & seen' & E & Hv & Hs').
  destruct (IH seen' (before ++ [f]) Hs') as (vs & Evs & Hlen & Hvs). exists (v :: vs).
  cbn [formatFiles]. rewrite E. cbn [mbind res_bind]. rewrite Evs. split; [done|]. split; [simpl; lia|].
  intros [|i] g Hg; simpl in Hg.
  - injection Hg as <-. exists v. split; [done|]. by rewrite app_nil_r.
  - destruct (Hvs i g Hg) as (w & Hw & Hvw). exists w. split; [done|]. simpl. by rewrite <- app_assoc in Hvw.
Qed.

Section Templates.
Context {T : Type} (parseTemplate : bytes → option T) (emptyTemplate : T).
(** A template that does not parse counts as the empty one. *)
Definition parsed (text : bytes) : T := default emptyTemplate (parseTemplate text).
(** The cache holds what parsing again would give. *)
Definition cacheOK (cache : gmap bytes T) : Prop := map_Forall (λ text t, t = parsed text) cache.

Lemma getTemplate_ok text cache : cacheOK cache →
  ∃ cache', getTemplate parseTemplate emptyTemplate text cache = (parsed text, cache') ∧ cacheOK cache'.
Proof.
  intros Hc. unfold getTemplate. destruct (cache !! text) as [t|] eqn:E; [exists cache; by rewrite (Hc _ _ E)|].
  eexists. split; [done|]. by apply map_Forall_insert_2.
Qed.
Lemma getTemplates_ok texts cache : cacheOK cache →
  ∃ cache', getTemplates parseTemplate emptyTemplate texts cache = (parsed <$> texts, cache') ∧ cacheOK cache'.
Proof.
  intros Hc. unfold getTemplates.
  assert (∀ l m cache, cacheOK cache → NoDup l.*1 → (∀ kv, kv ∈ l → m !! fst kv = None) → ∃ cache',
    foldl (λ acc kv, let '(t, cache) := getTemplate parseTemplate emptyTemplate (snd kv) (snd acc) in (<[fst kv := t]> (fst acc), cache)) (m, cache) l
      = ((parsed <$> (list_to_map l : gmap bytes bytes)) ∪ m, cache') ∧ cacheOK cache') as Hgen.
  { clear. induction l as [|[k text] l IH]; intros m cache Hc Hnd Hm.
    - exists cache. split; [|done]. simpl. by rewrite fmap_empty, (left_id_L ∅ (∪)).
    - apply NoDup_cons in Hnd as [Hk Hnd]. destruct (getTemplate_ok text cache Hc) as (c1 & E1 & Hc1). simpl. rewrite E1.
      destruct (IH (<[k := parsed text]> m) c1 Hc1 Hnd) as (c2 & E2 & Hc2).
      { intros [k' t'] Hin. simpl. rewrite lookup_insert_ne; [apply (Hm (k', t')); by constructor|].
        intros <-. apply Hk. apply list_elem_of_fmap. by exists (k, t'). }
      exists c2. split; [|done]. rewrite E2. f_equal. rewrite fmap_insert. apply map_eq. intros k'.
      destruct (decide (k' = k)) as [->|Hne].
      + rewrite lookup_union_r, lookup_insert_eq; [symmetry; apply lookup_union_Some_l, lookup_insert_eq|].
        rewrite lookup_fmap. apply fmap_None, not_elem_of_list_to_map_1. done.
      + by rewrite !lookup_union, !lookup_insert_ne by done. }
  destruct (Hgen (map_to_list texts) ∅ cache Hc (NoDup_fst_map_to_list texts)) as (c' & E & Hc'); [done|].
  exists c'. split; [|done]. rewrite E. by rewrite list_to_map_to_list, (right_id_L ∅ (∪)).
Qed.
End Templates.

(** ** Lists of repositories *)

Lemma insert_app_mid {A} (a : list A) x b y : <[length a := y]> (a ++ x :: b) = a ++ y :: b.
Proof. rewrite insert_app_r_alt by lia. by rewrite Nat.sub_diag. Qed.

(** Swapping the ends of the middle part of a list reverses that part. *)
Lemma reverseLoop_mid {A} fuel (a m b : list A) : (length m <= 2 * fuel + 1)%nat →
  reverseLoop fuel (a ++ m ++ b) (lenZ a) (lenZ a + lenZ m - 1) = Ok (a ++ reverse m ++ b).
Proof.
  revert a m b. induction fuel as [|fuel IH]; intros a m b Hf; cbn [reverseLoop].
  - destruct (Z.ltb_spec (lenZ a) (lenZ a + lenZ m - 1)); [unfold lenZ in *; lia|]. destruct m as [|x [|y m]]; [done|done|simpl in Hf; lia].
  - destruct m as [|x m]; [rewrite (proj2 (Z.ltb_ge _ _)) by (change (lenZ []) with 0; lia); done|].
    destruct m as [|y m _] using rev_ind; [rewrite (proj2 (Z.ltb_ge _ _)) by (change (lenZ [x]) with 1; lia); done|].
    rewrite lenZ_cons, lenZ_app. change (lenZ [y]) with 1. pose proof (lenZ_nonneg m). rewrite (proj2 (Z.ltb_lt _ _)) by lia.
    replace (lenZ a + (1 + (lenZ m + 1)) - 1) with (lenZ (a ++ x :: m)) by (rewrite lenZ_app, lenZ_cons; lia).
    assert (index (a ++ (x :: m ++ [y]) ++ b) (lenZ a) = Ok x) as ->.
    { apply index_lookup. split; [apply lenZ_nonneg|]. unfold lenZ. rewrite Nat2Z.id. by apply list_lookup_middle. }
    assert (index (a ++ (x :: m ++ [y]) ++ b) (lenZ (a ++ x :: m)) = Ok y) as ->.
    { apply index_lookup. split; [apply lenZ_nonneg|]. unfold lenZ. rewrite Nat2Z.id.
      replace (a ++ (x :: m ++ [y]) ++ b) with ((a ++ x :: m) ++ y :: b) by (by rewrite <- ?app_assoc; simpl; rewrite <- ?app_assoc).
      by apply list_lookup_middle. }
    cbn [mbind res_bind]. unfold lenZ at 1 2. rewrite !Nat2Z.id. simpl app. rewrite insert_app_mid.
    replace (a ++ y :: (m ++ [y]) ++ b) with ((a ++ y :: m) ++ y :: b) by (by rewrite <- ?app_assoc; simpl; rewrite <- ?app_assoc).
    replace (length (a ++ x :: m)) with (length (a ++ y :: m)) by (by rewrite !length_app). rewrite insert_app_mid.
    replace ((a ++ y :: m) ++ x :: b) with ((a ++ [y]) ++ m ++ x :: b) by (by rewrite <- ?app_assoc).
    replace (lenZ a + 1) with (lenZ (a ++ [y])) by (by rewrite lenZ_app).
    replace (lenZ (a ++ x :: m) - 1) with (lenZ (a ++ [y]) + lenZ m - 1) by (rewrite !lenZ_app, !lenZ_cons, lenZ_nil; lia).
    rewrite IH by (simpl in Hf; rewrite length_app in Hf; simpl in Hf; lia).
    rewrite reverse_cons, reverse_app. simpl. by rewrite <- !app_assoc.
Qed.
Lemma reverseLoop_ok {A} (l : list A) : reverseLoop (length l) l 0 (lenZ l - 1) = Ok (reverse l).
Proof.
  pose proof (reverseLoop_mid (length l) [] l [] ltac:(lia)) as E. simpl in E. by rewrite !app_nil_r, Z.add_0_l in E.
Qed.

(** The order a list of repositories is asked for in. *)
Definition repoLess (order : bytes) : option (RepoListEntry → RepoListEntry → bool) :=
  if bool_decide (order ∈ [str ""; str "name"; str "revname"]) then Some nameLess
  else if bool_decide (order ∈ [str "size"; str "revsize"]) then Some sizeLess
  else if bool_decide (order ∈ [str "time"; str "revtime"]) then Some timeLess else None.
Lemma repoLess_weak order less : repoLess order = Some less → weak_order less.
Proof.
  unfold repoLess. repeat case_bool_decide; intros [= <-].
  - destruct string_less_weak as (Hi & Ht & Ha). unfold weak_order, nameLess. split_and!; intros; [apply Hi|by eapply Ht|by apply Ha].
  - apply weak_order_key.
  - apply weak_order_key.
Qed.

Lemma orderRepos_ok `{SortAlg} order repos : match repoLess order with
  | Some less => ∃ l, orderRepos order repos = Ok l ∧ l ≡ₚ repos ∧
      StronglySorted (not_less less) (if HasPrefix order (str "rev") then reverse l else l)
  | None => ∃ e, orderRepos order repos = Err e
  end.
Proof.
  destruct (repoLess order) as [less|] eqn:E.
  - assert (sortRepos order repos = Ok (go_sort less repos)) as Hs.
    { unfold repoLess in E. unfold sortRepos. repeat case_bool_decide; by simplify_eq. }
    unfold orderRepos. rewrite Hs. cbn [mbind res_bind]. pose proof (go_sort_strongly less repos (repoLess_weak _ _ E)) as Hss.
    destruct (HasPrefix order _).
    + rewrite reverseLoop_ok. eexists. split; [done|]. rewrite reverse_involutive. split; [|done].
      by rewrite reverse_Permutation, go_sort_perm.
    + eexists. split; [done|]. split; [apply go_sort_perm|done].
  - unfold orderRepos, sortRepos. unfold repoLess in E. repeat case_bool_decide; try done. by eexists.
Qed.

(** ** Limits *)

Lemma i64_id x : - 2 ^ 63 <= x < 2 ^ 63 → i64 x = x.
Proof. intros. unfold i64. rewrite Z.mod_small; lia. Qed.

Lemma quot_pos x y : 0 <= x → 0 < y → 0 <= x ÷ y ∧ x ÷ y <= x.
Proof.
  intros Hx Hy. rewrite Z.quot_div_nonneg by lia. split; [by apply Z.div_pos; lia|].
  apply Z.div_le_upper_bound; nia.
Qed.

(** The limits for [num] results, when nothing overflows. *)
Lemma limits_large num numdocs : 0 < num <= 2 ^ 59 → 10000 < numdocs < 2 ^ 62 → ∃ imp,
  limits num numdocs = Ok (MkSearchOptions false false (num * 5 + (5 * num) / (numdocs / 1000)) 1000000 imp 100 10000000000 num) ∧
  imp = num / 20 + num / (numdocs / 500).
Proof.
  intros Hn Hd. unfold limits. rewrite (proj2 (Z.ltb_lt _ _)) by lia. rewrite !(Z.quot_div_nonneg numdocs) by lia.
  assert (10 <= numdocs / 1000) by (apply Z.div_le_lower_bound; lia).
  assert (20 <= numdocs / 500) by (apply Z.div_le_lower_bound; lia).
  rewrite !(proj2 (Z.eqb_neq _ _)) by lia. cbn [orb mbind res_bind].
  destruct (quot_pos (num * 5) (numdocs / 1000)) as [? ?]; [lia|lia|].
  destruct (quot_pos num (numdocs / 500)) as [? ?]; [lia|lia|]. destruct (quot_pos num 20) as [? ?]; [lia|lia|].
  rewrite (i64_id (5 * num)), (i64_id (num * 5)) by lia. replace (5 * num) with (num * 5) by lia.
  rewrite !i64_id by lia. rewrite !Z.quot_div_nonneg by lia. by eexists.
Qed.
Lemma limits_small num numdocs : 0 <= numdocs <= 10000 →
  limits num numdocs = let n := i64 (numdocs + i64 (num * 100)) in Ok (MkSearchOptions false false n n n n 10000000000 num).
Proof. intros Hd. unfold limits. by rewrite (proj2 (Z.ltb_ge _ _)) by lia. Qed.

(** ** Links to files *)

Lemma printValues_get repo name query branches :
  let v := printValues repo name query branches in
  Values_Get v (str "r") = repo ∧ Values_Get v (str "f") = name ∧ Values_Get v (str "q") = query ∧
  Values_Get v (str "b") = default [] (head branches) ∧ Values_Get v (str "num") = [].
Proof. destruct branches as [|b branches]; done. Qed.
Lemma byteValues_Add k x v : Forall is_u8 k → Forall is_u8 x → byteValues v → byteValues (Values_Add k x v).
Proof.
  intros Hk Hx Hv. apply map_Forall_insert_2; [|done]. split; [done|]. apply Forall_app. split; [|by repeat constructor].
  destruct (v !! k) as [xs|] eqn:E; [|constructor]. by apply (Hv _ _ E).
Qed.
Lemma str_bytes s : Forall is_u8 (str s).
Proof.
  unfold str. apply Forall_fmap, Forall_forall. intros a _. pose proof (Ascii.nat_ascii_bounded a). unfold is_u8. simpl. lia.
Qed.
Lemma printValues_bytes repo name query branches :
  Forall is_u8 repo → Forall is_u8 name → Forall is_u8 query → Forall (Forall is_u8) branches → byteValues (printValues repo name query branches).
Proof.
  intros Hr Hn Hq Hb. unfold printValues.
  assert (byteValues (Values_Add (str "q") query (Values_Add (str "f") name (Values_Add (str "r") repo ∅)))) as Hv.
  { repeat apply byteValues_Add; try done; apply str_bytes. }
  destruct Hb as [|b branches Hb _]; [done|]. apply byteValues_Add; [apply str_bytes|done|done].
Qed.

(** A search whose limit of matches is not positive finds no file. *)
Lemma no_matches_allowed `{RegexpEngine} `{UnicodeCase} `{SortAlg} {F} `{IndexFile F} (d : indexData F) (reString : Regexp → bytes)
    (ctx : nat → bool) (q : Q) (opts : SearchOptions) r :
  so_ShardMaxMatchCount (SetDefaults opts) <= 0 → Eval.Search d reString ctx q opts = Ok r → sr_Files r = [].
Proof.
  intros Hm. unfold Eval.Search. destruct (_ =? 0); [by intros [= <-]|]. destruct (ctx 0%nat); [by intros [= <-]|].
  intros Hr. apply bind_Ok in Hr as (q' & _ & Hr).
  assert (∀ fuel mt mt' p n files, searchLoop d fuel ctx 1 (SetDefaults opts) n mt (newContentProvider stats0) (-1) 0 = Ok (files, mt', p) → files = []) as Hloop.
  { intros [|fuel] mt mt' p n files; [done|]. cbn [searchLoop]. intros E. apply bind_Ok in E as ([nd mt1] & _ & E). cbn beta iota zeta in E.
    destruct (_ <=? _) in E; [by injection E as <-|].
    destruct (so_ShardMaxMatchCount (SetDefaults opts) <=? MatchCount (cp_stats (newContentProvider stats0))) eqn:El;
      [|apply Z.leb_gt in El; change (MatchCount _) with 0 in El; lia].
    rewrite orb_true_r in E. by injection E as <-. }
  assert (∀ r (l : list (bytes * Api.Repository)), sr_Files (foldl (λ r kv, addRepo r (snd kv)) r l) = sr_Files r) as Hadd.
  { clear. intros r l. revert r. induction l as [|kv l IH]; intros r; [done|]. simpl. by rewrite IH. }
  destruct q'; try destruct value; try (by injection Hr as <-).
  all: destruct (so_EstimateDocCount _) in Hr; [by injection Hr as <-|]; apply bind_Ok in Hr as ([mt k] & _ & Hr); cbn beta iota zeta in Hr;
    apply bind_Ok in Hr as ([[files mt'] p] & El & Hr); apply Hloop in El as ->; injection Hr as <-; cbn [sr_Files]; rewrite Hadd; simpl;
    apply Permutation_nil_r, go_sort_perm.
Qed.

(** ** Properties *)

(** C27: formatting shows what was found. For a result whose files lie under their sub-repositories
    and whose lines have their fragments in order and within the line, formatResults returns (no slice is out of
    range), with one view per file, in order: under the name, repository and URL of the
    file, marked as a duplicate exactly when an earlier file has the same checksum, and then of the
    first such file; each line is shown in full, byte for byte, with exactly the
    matched bytes marked. What the cache of templates holds makes no difference. *)
Theorem formatResults_spec `{SortAlg} {T} (parseTemplate : bytes → option T) (emptyTemplate : T) (Execute : T → TplData → option bytes)
    (result : SearchResult) (query : bytes) (localPrint : bool) (cache : gmap bytes T)
    (Hcache : cacheOK parseTemplate emptyTemplate cache) (Hwf : Forall wfFile (sr_Files result)) :
  ∃ views cache',
    formatResults parseTemplate emptyTemplate Execute result query localPrint cache = (Ok views, cache') ∧
    cacheOK parseTemplate emptyTemplate cache' ∧ length views = length (sr_Files result) ∧
    ∀ i f, sr_Files result !! i = Some f → ∃ v, views !! i = Some v ∧
      viewOf (getURL Execute localPrint query (parsed parseTemplate emptyTemplate <$> sr_RepoURLs result)) (take i (sr_Files result)) f v.
Proof.
  unfold formatResults. destruct localPrint.
  - destruct (formatFiles_ok (getFragment Execute true ∅) (getURL Execute true query ∅) ∅ [] (sr_Files result) Hwf) as (vs & E & Hl & Hv); [done|].
    rewrite E. exists vs, cache. by split_and!.
  - destruct (getTemplates_ok _ _ (sr_RepoURLs result) cache Hcache) as (c1 & -> & Hc1).
    destruct (getTemplates_ok _ _ (sr_LineFragments result) c1 Hc1) as (c2 & -> & Hc2).
    destruct (formatFiles_ok (getFragment Execute false (parsed parseTemplate emptyTemplate <$> sr_LineFragments result))
      (getURL Execute false query (parsed parseTemplate emptyTemplate <$> sr_RepoURLs result)) ∅ [] (sr_Files result) Hwf)
      as (vs & E & Hl & Hv); [done|]. rewrite E. exists vs, c2. by split_and!.
Qed.

(** C26: from a match to the page. The lines into which a document's matches are
    distributed (by fillContentMatches) are formatted without fault: together they mark exactly the bytes of
    the matches, in order, each line is shown as it is in the document, and it is
    numbered by the newlines before it. *)
Theorem highlights_exact {F} `{IndexFile F} (d : indexData F) (idx : Z) (c : bytes) (p : contentProvider)
    (ms : list candidateMatch) (fragment : Z → bytes) (f : Api.FileMatch) (url : bytes)
    (Hc : readContents d idx = Ok c) (Hn : fst <$> readNewlines d idx = Ok (newLinesIndices c))
    (Hsz : lenZ c < two32) (Hp : serves idx c p)
    (Hok : Forall cm_ok ms) (Hs : StronglySorted apart ms) (Hin : Forall (λ m, cm_end m <= lenZ c) ms) :
  ∃ ls p' ws, fillContentMatches d p ms = Ok (ls, p') ∧ mapM (formatLine fragment f url) ls = Ok ws ∧
    mjoin ((λ w, fr_Match <$> ma_Fragments w) <$> ws) = matchText c <$> ms ∧
    Forall2 (λ l w, line_match c l ∧ mjoin (shown <$> ma_Fragments w) = lm_Line l ∧
      ma_LineNum w = 1 + newlines_before c (lm_LineStart l)) ls ws.
Proof.
  destruct (fillContent_loop_spec d idx c Hc Hn (length ms) p ms) as (ls & p' & E & _ & Hls & Hf); try done.
  destruct (content_lines c ls ms Hls Hok Hs Hf) as [Hwf Ht].
  destruct (formatLines_ok fragment f url ls Hwf) as (ws & Ews & HF). exists ls, p', ws. split_and!; try done.
  - rewrite <- Ht. f_equal. clear -HF. induction HF as [|l w ls ws (_ & _ & Hm & _) _ IH]; [done|]. rewrite !fmap_cons, IH. by f_equal.
  - clear -HF Hls. induction HF as [|l w ls ws (_ & Hnum & _ & Hsh) _ IH]; [constructor|]. apply Forall_cons in Hls as [Hl Hls].
    constructor; [|auto]. split; [done|]. destruct Hl as [_ _ _ _ Hno _ [Hne _]]. split; [auto|]. by rewrite Hnum, Hno.
Qed.

(** C36: the link of a file asks for this file. In a server that prints files itself, the URL made for a file is [print?]
    with an encoded query, whatever bytes the names have. A request with that query makes one search, for the whole contents of the files whose name matches the quoted and anchored
    name, in the repositories and branches that contain the names of the repository and of the first branch as substrings. The
    answer is determined by the result of this search: if it has one file, the page of that file, with lines that joined by newlines are its contents, and with the
    original query; if it has none or several, the error that the result is ambiguous; and an error of the search is passed on. *)
Theorem print_link_roundtrip `{SortAlg} {A T} `{Searcher A} (Execute : T → TplData → option bytes) (renderPrint : PrintInput → res bytes)
    (syntaxParse0 : bytes → option Regexp) (query repo name version host : bytes) (branches : list bytes) (templates : gmap bytes T)
    (s : Server A T) (re : Regexp)
    (Hb : Forall (Forall is_u8) (repo :: name :: query :: branches)) (Hp : s_Print s = true)
    (Hre : syntaxParse0 (str "^" ++ QuoteMeta name ++ str "$") = Some re) :
  ∃ raw, getURL Execute true query templates repo name branches version = str "print?" ++ raw ∧
    let inBranch := match branches with [] | [] :: _ => [] | b :: _ => [QBranch b] end in
    let '(answer, x) := Searcher_Search (s_Searcher s) (QAnd (QRegexp re true false true :: QRepo repo :: inBranch)) (MkSearchOptions false true 0 0 0 0 0 0) in
    let '(page, s') := servePrintErr renderPrint syntaxParse0 (MkRequest raw host) s in
    s' = set_Searcher x s ∧
    match answer with
    | Ok r => (∀ g, sr_Files r = [g] → ∃ lines, Join [10] lines = fm_Content g ∧ Forall (λ l, 10 ∉ l) lines ∧
                 page = renderPrint (MkPrintInput (fm_Repository g) (fm_FileName g) lines (MkLastInput query 50 false))) ∧
              (length (sr_Files r) ≠ 1%nat → page = Err "ambiguous result")
    | Err e => page = Err e
    | Panic w => page = Panic w
    | OutOfFuel => page = OutOfFuel
    end.
Proof.
  repeat (apply Forall_cons in Hb as [? Hb]). pose proof (printValues_bytes repo name query branches) as Hv.
  destruct (printValues_get repo name query branches) as (Gr & Gf & Gq & Gb & Gn).
  exists (Encode (printValues repo name query branches)). split; [done|]. intros inBranch.
  unfold servePrintErr, printQuery, getNum, mbind, M_bind, gets. rewrite Hp. cbn [negb rq_RawQuery].
  rewrite !Encode_ParseQuery by auto. rewrite Gr, Gf, Gq, Gb, Gn, Hre. unfold lift, search.
  assert ((if bool_decide (default [] (head branches) = []) then [] else [QBranch (default [] (head branches))]) = inBranch) as ->
    by (unfold inBranch; by destruct branches as [|[|]]). cbn [app].
  destruct (Searcher_Search _ _ _) as [[r| | |] x]; try done. destruct (sr_Files r) as [|g [|g' fs]]; split; try done.
  split; [|done]. intros ? [= <-]. exists (SplitByte 10 (fm_Content g)). split_and!; [apply Join_Split|apply SplitByte_pieces|done].
Qed.

(** The limits of a search. For up to 2^56 requested results the computation of the limits divides by no zero and
    overflows nothing: as many documents are displayed as were asked for, every shard may report at least five matches
    for each, and no limit is zero or negative; on a corpus of at most 10000 documents
    no shard is cut off before all its documents and a hundred matches per result. *)
Theorem limits_spec (num numdocs : Z) (Hnum : 0 < num <= 2 ^ 56) (Hdocs : 0 <= numdocs < 2 ^ 62) :
  ∃ o, limits num numdocs = Ok o ∧ so_MaxDocDisplayCount o = num ∧ so_EstimateDocCount o = false ∧
    5 * num <= so_ShardMaxMatchCount o ∧ 0 < so_TotalMaxMatchCount o ∧
    0 < so_ShardMaxImportantMatch (SetDefaults o) ∧ 0 < so_TotalMaxImportantMatch o ∧
    (numdocs <= 10000 → so_ShardMaxMatchCount o = numdocs + 100 * num ∧ so_ShardMaxImportantMatch o = numdocs + 100 * num) ∧
    (10000 < numdocs → so_ShardMaxMatchCount o <= 5 * num + num / 2).
Proof.
  destruct (decide (numdocs <= 10000)).
  - rewrite limits_small by lia. rewrite (i64_id (num * 100)), i64_id by lia. eexists. split; [done|]. simpl.
    destruct (Z.eqb_spec (numdocs + num * 100) 0); lia.
  - destruct (limits_large num numdocs) as (imp & -> & ->); [lia|lia|]. eexists. split; [done|].
    assert (10 <= numdocs / 1000) by (apply Z.div_le_lower_bound; lia).
    assert (20 <= numdocs / 500) by (apply Z.div_le_lower_bound; lia).
    assert (0 <= 5 * num / (numdocs / 1000) <= num / 2).
    { split; [apply Z.div_pos; lia|]. apply Z.div_le_lower_bound; [lia|]. Z.div_mod_to_equations. nia. }
    assert (0 <= num / 20) by (apply Z.div_pos; lia). assert (0 <= num / (numdocs / 500)) by (apply Z.div_pos; lia).
    simpl. destruct (Z.eqb_spec (num / 20 + num / (numdocs / 500)) 0); lia.
Qed.

(** A number of results between 2^63/100 and 2^64/100 overflows: on a small corpus the limits become
    negative, and every shard then returns no file at all, whatever matches. *)
Theorem huge_num_finds_nothing `{RegexpEngine} `{UnicodeCase} `{SortAlg} {F} `{IndexFile F} (d : indexData F) (reString : Regexp → bytes)
    (ctx : nat → bool) (q : Q) (num numdocs : Z) (r : SearchResult)
    (Hnum : 92233720368547758 < num < 184467440737095400) (Hdocs : 0 <= numdocs <= 10000)
    (Hr : (o ← limits num numdocs; Eval.Search d reString ctx q o) = Ok r) :
  sr_Files r = [].
Proof.
  rewrite limits_small in Hr by done. cbn [mbind res_bind] in Hr. eapply no_matches_allowed; [|exact Hr]. unfold SetDefaults.
  cbn [so_ShardMaxMatchCount]. assert (i64 (num * 100) = num * 100 - 2 ^ 64) as E.
  { unfold i64. rewrite <- (Z.mod_unique (num * 100 + 2 ^ 63) (2 ^ 64) 1 (num * 100 - 2 ^ 63)); lia. }
  rewrite E, i64_id by lia. destruct (Z.eqb_spec (numdocs + (num * 100 - 2 ^ 64)) 0); lia.
Qed.

(** *** Repositories and statistics *)

Definition totals (repos : Z) (l : list RepoListEntry) : RepoStats := foldl (λ a e, RepoStats_Add a (rle_Stats e)) (MkRepoStats repos 0 0 0 0) l.
Lemma totals_perm n l k : l ≡ₚ k → totals n l = totals n k.
Proof.
  intros Hp. unfold totals. generalize (MkRepoStats n 0 0 0 0). induction Hp as [|x l k _ IH|x y l|l k m _ IH1 _ IH2]; intros a; simpl.
  - done.
  - apply IH.
  - f_equal. unfold RepoStats_Add. simpl. f_equal; lia.
  - by rewrite IH1.
Qed.

(** A row of the list of repositories. *)
Record rowOf (e : RepoListEntry) (v : Repository) : Prop := {
  ro_name : rv_Name v = r_Name (rle_Repository e) ∧ rv_URL v = r_URL (rle_Repository e);
  ro_stats : rv_Size v = rs_ContentBytes (rle_Stats e) ∧ rv_Files v = rs_Documents (rle_Stats e) ∧
    rv_IndexTime v = md_IndexTime (rle_IndexMetadata e);
  ro_branches : Forall2 (λ b w, bv_Name w = br_Name b ∧ bv_Version w = br_Version b) (r_Branches (rle_Repository e)) (rv_Branches v) }.

Section Rows.
Context {A T : Type} (parseTemplate : bytes → option T) (emptyTemplate : T) (Execute : T → TplData → option bytes).
#[local] Abbreviation row := (repoView (A := A) parseTemplate emptyTemplate Execute).

Lemma branchViews_ok t bs : (∀ b, is_Some (Execute t (TplBranch b))) →
  ∃ ws, mapM (branchView Execute t) bs = Ok ws ∧ Forall2 (λ b w, bv_Name w = br_Name b ∧ bv_Version w = br_Version b) bs ws.
Proof.
  intros He. induction bs as [|b bs (ws & Hws & HF)]; [by exists []|]. destruct (He b) as [url Hu].
  exists (MkBranchView (br_Name b) (br_Version b) url :: ws). split; [|by constructor].
  apply mapM_Ok. constructor; [unfold branchView; by rewrite Hu|by apply mapM_Ok].
Qed.
Lemma repoView_ok e s : (∀ t b, is_Some (Execute t (TplBranch b))) →
  ∃ v s', row e s = (Ok v, s') ∧ rowOf e v ∧ s_Searcher s' = s_Searcher s.
Proof.
  intros He. unfold repoView, mbind, M_bind, template.
  destruct (getTemplate _ _ _ _) as [t c]. destruct (branchViews_ok t (r_Branches (rle_Repository e)) (He t)) as (ws & Hws & HF).
  unfold lift. rewrite Hws. eexists _, _. split; [done|]. by split.
Qed.
Lemma repoViews_ok l s : (∀ t b, is_Some (Execute t (TplBranch b))) →
  ∃ vs s', mapM row l s = (Ok vs, s') ∧ Forall2 rowOf l vs ∧ s_Searcher s' = s_Searcher s.
Proof.
  intros He. revert s. induction l as [|e l IH]; intros s; [by eexists [], s|].
  destruct (repoView_ok e s He) as (v & s1 & E1 & Hv & Hs1). destruct (IH s1) as (vs & s2 & E2 & Hvs & Hs2).
  exists (v :: vs), s2. split; [|split; [by constructor|congruence]]. cbn [mapM]. unfold mbind, M_bind in E2 |- *. by rewrite E1, E2.
Qed.
End Rows.

(** A list of repositories shows every repository the searcher lists exactly once, in the order asked for (by name, size or
    time of indexing, or the reverse of one of them), with their statistics added up; an order that is
    not known is an error. The loop that reverses the list terminates. *)
Theorem serveListRepos_spec `{SortAlg} {A T} `{Searcher A} (parseTemplate : bytes → option T) (emptyTemplate : T)
    (Execute : T → TplData → option bytes) (renderRepoList : RepoListInput → res bytes) (q : Q) (qStr : bytes) (r : Request)
    (s : Server A T) (rl : RepoList) (x : A)
    (Hlist : Searcher_List (s_Searcher s) q = (Ok rl, x)) (Hexec : ∀ t b, is_Some (Execute t (TplBranch b))) :
  let order := Values_Get (ParseQuery (rq_RawQuery r)) (str "order") in
  match repoLess order with
  | Some less => ∃ entries rows s',
      serveListReposErr parseTemplate emptyTemplate Execute renderRepoList q qStr r s =
        (renderRepoList (MkRepoListInput (MkLastInput qStr 0 true) (totals (lenZ (rl_Repos rl)) (rl_Repos rl)) rows), s') ∧
      s_Searcher s' = x ∧ entries ≡ₚ rl_Repos rl ∧ Forall2 rowOf entries rows ∧
      StronglySorted (not_less less) (if HasPrefix order (str "rev") then reverse entries else entries)
  | None => ∃ e s', serveListReposErr parseTemplate emptyTemplate Execute renderRepoList q qStr r s = (Err e, s')
  end.
Proof.
  intros order. pose proof (orderRepos_ok order (rl_Repos rl)) as Ho. unfold serveListReposErr, mbind, M_bind, list_, lift.
  rewrite Hlist. fold order. destruct (repoLess order) as [less|].
  - destruct Ho as (l & -> & Hp & Hs). destruct (repoViews_ok parseTemplate emptyTemplate Execute l (set_Searcher x s) Hexec) as (vs & s' & E & HF & Hx).
    unfold mbind, M_bind in E. rewrite E. exists l, vs, s'. split; [|done]. do 2 f_equal. f_equal. unfold lenZ. rewrite (Permutation_length Hp).
    by apply totals_perm.
  - destruct Ho as [e ->]. by eexists _, _.
Qed.

(** The statistics of the entry page: those of all repositories, counted by name, at most
    30 seconds old. *)
Lemma fetchStats_fresh {A T} `{Searcher A} (s : Server A T) st now now' : s_lastStats s = Some st → now - s_lastStatsTS s <= statsStaleNess →
  fetchStats now now' s = (Ok st, s).
Proof.
  intros E Hn. unfold fetchStats, mbind, M_bind, gets. rewrite (proj2 (Z.ltb_ge _ _)) by lia. by rewrite E.
Qed.
Lemma fetchStats_stale {A T} `{Searcher A} (s : Server A T) now now' rl x : statsStaleNess < now - s_lastStatsTS s →
  Searcher_List (s_Searcher s) (QConst true) = (Ok rl, x) →
  ∃ st, fetchStats now now' s = (Ok st, set_lastStats (Some st) now' (set_Searcher x s)) ∧
    rs_Repos st = Z.of_nat (size (list_to_set ((λ e, r_Name (rle_Repository e)) <$> rl_Repos rl) : gset bytes)) ∧
    rs_Documents st = rs_Documents (totals 0 (rl_Repos rl)) ∧ rs_ContentBytes st = rs_ContentBytes (totals 0 (rl_Repos rl)).
Proof.
  intros Hn E. unfold fetchStats, mbind, M_bind, gets, list_, modify. rewrite (proj2 (Z.ltb_lt _ _)) by lia. rewrite E.
  eexists. split; [done|]. done.
Qed.

(** Witnesses. *)

Definition toyExecute (t : bytes) (d : TplData) : option bytes := Some t.
Definition toyFile (name : string) (sum : Z) : Api.FileMatch :=
  MkFileMatch (float_of_Z 1) (str name) (str "repo") [str "main"]
    [MkLineMatch (str "int main()") 0 10 1 false (float_of_Z 1) [MkLineFragment 0 0 3; MkLineFragment 4 4 4]]
    (str "int main()") [sum] (str "C") [] [] (str "v1").
Definition toyResult : SearchResult :=
  MkSearchResult stats0 [toyFile "a.c" 1; toyFile "b.c" 2; toyFile "c.c" 1] {[ str "repo" := str "http://host" ]} ∅.

Lemma formatResults_spec_witness :
  let parse := (Some : bytes → option bytes) in
  ∃ views cache', @formatResults merge_sort_alg bytes parse [] toyExecute toyResult (str "q") false ∅ = (Ok views, cache') ∧
    (∃ v, views !! 2%nat = Some v ∧ fv_DuplicateID v = str "repo:a.c" ∧ fv_URL v = str "http://host") ∧
    cacheOK parse [] cache'.
Proof.
  intros parse. destruct (@formatResults_spec merge_sort_alg bytes parse [] toyExecute toyResult (str "q") false ∅)
    as (views & cache' & E & Hc & _ & Hv).
  - apply map_Forall_empty.
  - repeat constructor; simpl; try done; lia.
  - exists views, cache'. split; [exact E|]. split; [|exact Hc].
    destruct (Hv 2%nat (toyFile "c.c" 1) eq_refl) as (v & Hvv & [_ Hu Hd _]). exists v. split; [exact Hvv|].
    split; [rewrite Hd; vm_compute; reflexivity|rewrite Hu; vm_compute; reflexivity].
Defined.

Lemma highlights_exact_witness :
  ∃ ls p' ws, fillContentMatches toyShard (CP stats0 None 1 None None false None false 10) toyMatches = Ok (ls, p') ∧
    mapM (formatLine (λ n, Itoa n) (toyFile "a.c" 1) []) ls = Ok ws ∧
    mjoin ((λ w, fr_Match <$> ma_Fragments w) <$> ws) = [str "nt" ++ [10] ++ str "M"; str "()"] ∧
    Forall2 (λ l w, line_match toyLines l ∧ mjoin (shown <$> ma_Fragments w) = lm_Line l ∧
      ma_LineNum w = 1 + newlines_before toyLines (lm_LineStart l)) ls ws.
Proof.
  apply (highlights_exact toyShard 1 toyLines (CP stats0 None 1 None None false None false 10) toyMatches (λ n, Itoa n) (toyFile "a.c" 1) []).
  - vm_cast_no_check (@eq_refl (res bytes) (Ok toyLines)).
  - vm_cast_no_check (@eq_refl (res (list Z)) (Ok [3])).
  - reflexivity.
  - split; (reflexivity || by left).
  - repeat constructor; discriminate.
  - repeat constructor.
  - repeat constructor; discriminate.
Defined.

Definition toyRepoEntry (name : string) (size : Z) : RepoListEntry :=
  MkRepoListEntry (MkRepository (str name) [] [MkBranch (str "main") (str "v1")] None (str "http://host") [] [] ∅ 0)
    (MkIndexMetadata 0 0 size false ∅ []) (MkRepoStats 0 1 1 size size).
Definition toyRepos : list RepoListEntry := [toyRepoEntry "r" 5; toyRepoEntry "s" 7].
(** A searcher that has one answer. *)
#[local] Instance toySearcher : Searcher SearchResult := {|
  Searcher_Search s q o := (Ok s, s);
  Searcher_List s q := (Ok (MkRepoList toyRepos 0), s) |}.
Definition toyServer : Server SearchResult bytes :=
  MkServer (MkSearchResult stats0 [toyFile "a.c" 1] ∅ ∅) true [] ∅ 0 ∅ None 0.
Definition toyRE : Regexp := RE OpEmptyMatch false [] [] 0 0.

Lemma print_link_roundtrip_witness :
  ∃ raw lines, @getURL merge_sort_alg bytes toyExecute true (str "main") ∅ (str "repo") (str "a&b c.c") [str "x=y"] [] = str "print?" ++ raw ∧
    fst (@servePrintErr SearchResult bytes toySearcher (λ p, Ok (Join [10] (pi_Lines p))) (λ _, Some toyRE) (MkRequest raw []) toyServer) = Ok (Join [10] lines) ∧
    Join [10] lines = str "int main()" ∧ Forall (λ l, 10 ∉ l) lines.
Proof.
  destruct (@print_link_roundtrip merge_sort_alg SearchResult bytes toySearcher toyExecute (λ p, Ok (Join [10] (pi_Lines p))) (λ _, Some toyRE)
    (str "main") (str "repo") (str "a&b c.c") [] [] [str "x=y"] ∅ toyServer toyRE) as (raw & Hu & Hpage).
  - vm_compute. repeat constructor; discriminate.
  - reflexivity.
  - reflexivity.
  - exists raw. cbv zeta in Hpage. cbn [Searcher_Search toySearcher] in Hpage. destruct (servePrintErr _ _ _ _) as [page s'].
    destruct Hpage as (_ & Hone & _). destruct (Hone (toyFile "a.c" 1) eq_refl) as (lines & Hj & Hl & ->). exists lines. split_and!; [exact Hu|reflexivity|exact Hj|exact Hl].
Defined.

Lemma limits_spec_witness : ∃ o, limits 50 20000 = Ok o ∧ so_ShardMaxMatchCount o <= 275 ∧ 250 <= so_ShardMaxMatchCount o.
Proof.
  destruct (limits_spec 50 20000) as (o & E & _ & _ & H5 & _ & _ & _ & _ & Hb); [lia|lia|].
  exists o. split; [exact E|]. split; [apply Hb; lia|exact H5].
Defined.

#[local] Abbreviation hugeSearch :=
  (o ← limits 100000000000000000 2; @Eval.Search toyEngine unicode_latin merge_sort_alg _ _ toyShard (λ _, []) (λ _, false) toyQuery o).
Lemma hugeSearch_ok : match hugeSearch with Ok _ => true | _ => false end = true.
Proof. vm_cast_no_check (eq_refl true). Qed.
Lemma huge_num_finds_nothing_witness : match hugeSearch with Ok r => sr_Files r = [] | _ => False end.
Proof.
  generalize hugeSearch_ok. generalize (@huge_num_finds_nothing toyEngine unicode_latin merge_sort_alg _ _ toyShard (λ _, []) (λ _, false) toyQuery
    100000000000000000 2). destruct hugeSearch as [r| | |]; [|discriminate 2..]. intros Hn _. apply Hn.
  - split; reflexivity.
  - split; discriminate.
  - reflexivity.
Defined.

Lemma serveListRepos_spec_witness :
  ∃ entries rows s',
    @serveListReposErr merge_sort_alg SearchResult bytes toySearcher Some [] toyExecute (λ i, Ok (Itoa (lenZ (rp_Repos i)))) (QConst true) []
      (MkRequest (str "order=revsize") []) toyServer = (Ok (Itoa (lenZ rows)), s') ∧ s_Searcher s' = s_Searcher toyServer ∧
    entries ≡ₚ toyRepos ∧ Forall2 rowOf entries rows ∧ StronglySorted (not_less sizeLess) (reverse entries).
Proof.
  apply (@serveListRepos_spec merge_sort_alg SearchResult bytes toySearcher Some [] toyExecute (λ i, Ok (Itoa (lenZ (rp_Repos i)))) (QConst true) []
    (MkRequest (str "order=revsize") []) toyServer (MkRepoList toyRepos 0) (s_Searcher toyServer)).
  - reflexivity.
  - intros t b. exists t. reflexivity.
Defined.
