(* ===== verification/Rpc.v ===== *)
(** * rpc/: searching another server

    rpc/rpc.go and rpc/internal/srv/srv.go: a Searcher that sends its queries over a connection to another server, which searches with its own
    Searcher. What encoding/gob makes of a query (query/query.go), the handlers, and the client with its connection as a step relation for concurrent calls. *)

From S2P Require Import Prelude GoStd Bits Api Query Web.

(** ** Queries on the wire *)

Section Wire.
(** Regexp.String and syntax.Parse of package regexp/syntax. *)
Context (reString : Regexp → bytes) (reParse : bytes → option Regexp).

(** Regexp.GobEncode and Regexp.GobDecode: the expression travels as text. *)
Record gobRegexp := MkGobRegexp { gr_FileName : bool; gr_Content : bool; gr_CaseSensitive : bool; gr_RegexpString : bytes }.
Definition GobEncode (re : Regexp) (fileName content caseSensitive : bool) : gobRegexp := MkGobRegexp fileName content caseSensitive (reString re).
Definition GobDecode (g : gobRegexp) : res Q :=
  match reParse (gr_RegexpString g) with
  | Some re => Ok (QRegexp re (gr_FileName g) (gr_Content g) (gr_CaseSensitive g))
  | None => Err "syntax"
  end.

(** The types that registerGob names; a value of another type cannot be sent. *)
Definition registered (q : Q) : bool :=
  match q with
  | QAnd _ | QOr _ | QRegexp _ _ _ _ | QLanguage _ | QConst _ | QRepo _ | QRepoSet _ | QSubstring _ | QNot _ | QBranch _ => true
  | QNil | QSymbol _ | QCase _ | QOrOperator => false
  end.
(** What the server decodes of what the client encodes. *)
Fixpoint transfer (q : Q) : res Q :=
  if negb (registered q) then Err "gob: type not registered for interface"
  else match q with
       | QRegexp re fileName content caseSensitive => GobDecode (GobEncode re fileName content caseSensitive)
       | QAnd children => cs ← mapM (λ c, transfer c) children; Ok (QAnd cs)
       | QOr children => cs ← mapM (λ c, transfer c) children; Ok (QOr cs)
       | QNot child => c ← transfer child; Ok (QNot c)
       | q => Ok q
       end.

(** ** The server, and calls that reach it *)

Context {S : Type} `{Searcher S}.
(** Searcher.Search and Searcher.List of srv.go: the reply is set unless there is an error. *)
Definition srv_Search (s : S) (q : Q) (opts : SearchOptions) : res (option SearchResult) * S :=
  let '(r, s) := Searcher_Search s q opts in (r ← r; Ok (Some r), s).
Definition srv_List (s : S) (q : Q) : res (option RepoList) * S := let '(r, s) := Searcher_List s q in (r ← r; Ok (Some r), s).
(** client.Search and client.List over a connection that works. A panic of the searcher takes the server down. *)
Definition rpc_Search (s : S) (q : Q) (opts : SearchOptions) : res (option SearchResult) * S :=
  match transfer q with Ok q => srv_Search s q opts | Err e => (Err e, s) | Panic w => (Panic w, s) | OutOfFuel => (OutOfFuel, s) end.
Definition rpc_List (s : S) (q : Q) : res (option RepoList) * S :=
  match transfer q with Ok q => srv_List s q | Err e => (Err e, s) | Panic w => (Panic w, s) | OutOfFuel => (OutOfFuel, s) end.

(** Queries that can be sent: no symbols, nor the parser's own; expressions that parse to themselves. *)
Fixpoint sendable (q : Q) : Prop :=
  match q with
  | QRegexp re _ _ _ => reParse (reString re) = Some re
  | QAnd children | QOr children => foldr (λ c, and (sendable c)) True children
  | QNot child => sendable child
  | QNil | QSymbol _ | QCase _ | QOrOperator => False
  | _ => True
  end.
Fixpoint hasSymbol (q : Q) : bool :=
  match q with
  | QSymbol _ => true
  | QAnd children | QOr children => existsb (λ c, hasSymbol c) children
  | QNot child => hasSymbol child
  | _ => false
  end.

Lemma transfer_children children : Forall (λ c, sendable c → transfer c = Ok c) children → foldr (λ c, and (sendable c)) True children → mapM (λ c, transfer c) children = Ok children.
Proof. induction 1 as [|c cs Hc _ IH]; [done|]. cbn [foldr mapM]. intros [H1 H2]. rewrite (Hc H1). cbn [mbind res_bind]. by rewrite (IH H2). Qed.
Lemma symbol_children children : Forall (λ c, hasSymbol c = true → ∀ q, transfer c ≠ Ok q) children → existsb (λ c, hasSymbol c) children = true → ∀ qs, mapM (λ c, transfer c) children ≠ Ok qs.
Proof.
  induction 1 as [|c cs Hc _ IH]; [done|]. cbn [existsb mapM]. intros [Hs|Hs]%orb_true_iff qs.
  - destruct (transfer c) as [q| | |] eqn:E; cbn [mbind res_bind]; try done. by destruct (Hc Hs q).
  - destruct (transfer c) as [q| | |]; cbn [mbind res_bind]; try done. destruct (mapM _ cs) as [qs'| | |] eqn:E; cbn [mbind res_bind]; try done. by destruct (IH Hs qs').
Qed.
Lemma transfer_sendable q : sendable q → transfer q = Ok q.
Proof.
  induction q as [cs IH|cs IH|c IH|q Hq] using Q_ind'; intros Hs; cbn [transfer registered negb].
  - by rewrite transfer_children.
  - by rewrite transfer_children.
  - by rewrite (IH Hs).
  - destruct q; try done. cbn [transfer registered negb GobDecode GobEncode gr_RegexpString gr_FileName gr_Content gr_CaseSensitive]. unfold GobDecode, GobEncode. cbn. cbn in Hs. by rewrite Hs.
Qed.
Lemma transfer_symbol q : hasSymbol q = true → ∀ q', transfer q ≠ Ok q'.
Proof.
  induction q as [cs IH|cs IH|c IH|q Hq] using Q_ind'; intros Hs q'; cbn [transfer registered negb hasSymbol] in *.
  - destruct (mapM _ cs) as [qs| | |] eqn:E; cbn [mbind res_bind]; try done. by destruct (symbol_children cs IH Hs qs).
  - destruct (mapM _ cs) as [qs| | |] eqn:E; cbn [mbind res_bind]; try done. by destruct (symbol_children cs IH Hs qs).
  - destruct (transfer c) as [q| | |] eqn:E; cbn [mbind res_bind]; try done. by destruct (IH Hs q).
  - by destruct q.
Qed.
End Wire.

(** ** The client *)

(** The connection and its generation. Connections are numbered in the order in which they were made. *)
Record client := MkClient { c_cl : option nat; c_gen : Z }.
(** What is outside: the number of connections made so far, and those that were shut down. *)
Record world := MkWorld { w_made : nat; w_shut : gset nat }.

(** getRPCClient under the lock; [dials]: whether DialHTTPPathTimeout succeeds. The client that is returned may be nil. *)
Definition getRPCClient (dials : bool) (gen : Z) (c : client) (w : world) : (option (option nat) * Z) * client * world :=
  if negb (gen =? c_gen c) then ((Some (c_cl c), c_gen c), c, w)
  else if dials then
    let c := MkClient (Some (w_made w)) (c_gen c + 1) in
    ((Some (c_cl c), c_gen c), c, MkWorld (S (w_made w)) (w_shut w))
  else ((None, c_gen c), c, w).

(** Where a call is: at its start, calling for the first time, pausing for 100 ms, calling again (with the connection of the first attempt, if there was
    one), or back with the answer or an error of the server, rpc.ErrShutdown, an error of dialling or of the context. A call on a nil client panics. *)
Inductive result := Answer | ErrShutdown | DialError | ContextError | NilClient.
Inductive thread :=
| Begin
| Calling (gen : Z) (cl : option nat)
| Pausing (gen : Z) (tried : option nat)
| CallingAgain (tried cl : option nat)
| Back (r : result) (tried : option nat).
Record rpcState := MkRpc { rs_client : client; rs_world : world; rs_threads : list thread }.

(** One step of a call: [dials] and [cancelled] are the outcomes of dialling and of the context. A connection that is shut down answers with ErrShutdown; one that is
    not, with a reply or another error. *)
Definition callStep (dials cancelled : bool) (t : thread) (c : client) (w : world) : thread * client * world :=
  match t with
  | Begin =>
    let '(r, gen, c, w) := getRPCClient dials 0 c w in
    (match r with Some cl => Calling gen cl | None => Pausing gen None end, c, w)
  | Calling gen cl =>
    (match cl with
     | None => Back NilClient None
     | Some k => if bool_decide (k ∈ w_shut w) then Pausing gen cl else Back Answer cl
     end, c, w)
  | Pausing gen tried =>
    if cancelled then (Back ContextError tried, c, w)
    else
      let '(r, gen, c, w) := getRPCClient dials gen c w in
      (match r with Some cl => CallingAgain tried cl | None => Back DialError tried end, c, w)
  | CallingAgain tried cl =>
    (match cl with
     | None => Back NilClient tried
     | Some k => if bool_decide (k ∈ w_shut w) then Back ErrShutdown tried else Back Answer tried
     end, c, w)
  | Back r tried => (Back r tried, c, w)
  end.

(** A new call; a step of a call; a connection that goes down, also by Close of the client. *)
Inductive rpcStep : rpcState → rpcState → Prop :=
| step_new c w ts : rpcStep (MkRpc c w ts) (MkRpc c w (ts ++ [Begin]))
| step_call c w ts i t dials cancelled t' c' w' : ts !! i = Some t → callStep dials cancelled t c w = (t', c', w') → rpcStep (MkRpc c w ts) (MkRpc c' w' (<[i := t']> ts))
| step_shut c w ts k : (k < w_made w)%nat → rpcStep (MkRpc c w ts) (MkRpc c (MkWorld (w_made w) ({[k]} ∪ w_shut w)) ts).
Definition rpcStart : rpcState := MkRpc (MkClient None 0) (MkWorld 0 ∅) [].

(** *** The invariant *)

(** A connection that is tried was made, and one whose call is given up was shut down; the second try is on a later one. *)
Definition threadOk (c : client) (w : world) (t : thread) : Prop :=
  match t with
  | Begin => True
  | Calling gen cl => ∃ k, cl = Some k ∧ gen = Z.of_nat k + 1 ∧ (k < w_made w)%nat
  | Pausing gen tried => match tried with None => gen = 0 | Some k => gen = Z.of_nat k + 1 ∧ (k < w_made w)%nat ∧ k ∈ w_shut w end
  | CallingAgain tried cl => ∃ k, cl = Some k ∧ (k < w_made w)%nat ∧ ∀ k', tried = Some k' → (k' < k)%nat ∧ k' ∈ w_shut w
  | Back r _ => r ≠ NilClient
  end.
Definition rpcInv (s : rpcState) : Prop :=
  let c := rs_client s in let w := rs_world s in
  c_gen c = Z.of_nat (w_made w) ∧ c_cl c = (if decide (w_made w = 0%nat) then None else Some (w_made w - 1)%nat) ∧
  (∀ k, (S k < w_made w)%nat → k ∈ w_shut w) ∧ Forall (threadOk c w) (rs_threads s).

(** The world only grows. *)
Definition later (w w' : world) : Prop := (w_made w <= w_made w')%nat ∧ w_shut w ⊆ w_shut w'.
Lemma threadOk_later c c' w w' t : later w w' → threadOk c w t → threadOk c' w' t.
Proof.
  intros [Hm Hs]. destruct t as [|gen cl|gen tried|tried cl|r tried]; cbn [threadOk]; try done.
  - intros (k & ? & ? & ?). exists k. split_and!; [done..|lia].
  - destruct tried as [k|]; [|done]. intros (? & ? & ?). split_and!; [done|lia|set_solver].
  - intros (k & ? & ? & Ht). exists k. split_and!; [done|lia|]. intros k' Hk'. destruct (Ht k' Hk'). split; [done|set_solver].
Qed.
(** getRPCClient returns the newest connection, one that the caller has not tried. *)
Lemma getRPCClient_ok dials gen tried c w ts : rpcInv (MkRpc c w ts) → threadOk c w (Pausing gen tried) →
  let '(r, gen', c', w') := getRPCClient dials gen c w in
  later w w' ∧ rpcInv (MkRpc c' w' ts) ∧
  match r with
  | Some cl => ∃ k, cl = Some k ∧ gen' = Z.of_nat k + 1 ∧ (k < w_made w')%nat ∧ ∀ k', tried = Some k' → (k' < k)%nat
  | None => gen' = gen
  end.
Proof.
  intros (Hg & Hc & Hs & Ht) Hp. cbn [rs_client rs_world rs_threads] in *. unfold getRPCClient. destruct (Z.eqb_spec gen (c_gen c)) as [Eg|Eg]; cbn [negb].
  - destruct dials; [|split_and!; [split; [lia|done]|done|done]]. assert (later w (MkWorld (S (w_made w)) (w_shut w))) as Hl by (split; cbn [w_made w_shut]; [lia|done]).
    split; [done|]. split.
    + split_and!; cbn [rs_client rs_world rs_threads c_gen c_cl w_made w_shut]; [lia|by rewrite decide_False, Nat.sub_succ, Nat.sub_0_r by lia| |].
      * intros k Hk. destruct (decide (S k = w_made w)) as [Ek|?]; [|apply Hs; lia]. cbn [threadOk] in Hp. destruct tried as [k'|]; [|lia].
        destruct Hp as (E1 & E2 & E3). replace k with k' by lia. done.
      * eapply Forall_impl; [exact Ht|]. intros t. by apply threadOk_later.
    + exists (w_made w). cbn [c_gen c_cl w_made]. split_and!; [done|lia|lia|]. intros k' ->. cbn [threadOk] in Hp. lia.
  - split_and!; [split; [lia|done]|done|]. cbn [threadOk] in Hp. destruct (decide (w_made w = 0%nat)) as [E0|E0].
    + exfalso. destruct tried as [k|]; [lia|]. lia.
    + rewrite Hc. exists (w_made w - 1)%nat. split_and!; [done|lia|lia|]. intros k' ->. lia.
Qed.
Lemma callStep_ok dials cancelled t c w ts t' c' w' : rpcInv (MkRpc c w ts) → threadOk c w t → callStep dials cancelled t c w = (t', c', w') →
  later w w' ∧ rpcInv (MkRpc c' w' ts) ∧ threadOk c' w' t'.
Proof.
  intros Hinv Ht. assert (later w w) as Hrefl by (split; [lia|done]). destruct t as [|gen cl|gen tried|tried cl|r tried]; cbn [callStep].
  - pose proof (getRPCClient_ok dials 0 None c w ts Hinv eq_refl) as H. destruct (getRPCClient dials 0 c w) as [[[r gen'] c1] w1]. destruct H as (Hl & Hi & Hr). intros [= <- <- <-].
    split_and!; [done..|]. destruct r as [cl|]; [|exact Hr]. destruct Hr as (k & -> & ? & ? & _). by exists k.
  - destruct Ht as (k & -> & Hg & Hk). case_bool_decide as Hsh; intros [= <- <- <-]; split_and!; try done.
  - destruct cancelled; [intros [= <- <- <-]; by split_and!|]. pose proof (getRPCClient_ok dials gen tried c w ts Hinv Ht) as H.
    destruct (getRPCClient dials gen c w) as [[[r gen'] c1] w1]. destruct H as (Hl & Hi & Hr). intros [= <- <- <-]. split_and!; [done..|]. destruct r as [cl|]; [|done].
    destruct Hr as (k & -> & _ & ? & Hlt). exists k. split_and!; [done..|]. intros k' ->. split; [by apply Hlt|]. destruct Ht as (_ & _ & ?). destruct Hl. set_solver.
  - destruct Ht as (k & -> & Hk & _). case_bool_decide as Hsh; intros [= <- <- <-]; by split_and!.
  - intros [= <- <- <-]. by split_and!.
Qed.
Lemma rpcInv_step s s' : rpcInv s → rpcStep s s' → rpcInv s'.
Proof.
  intros Hinv Hst. destruct Hst as [c w ts|c w ts i t dials cancelled t' c' w' Hi Hcall|c w ts k Hk].
  - destruct Hinv as (? & ? & ? & Ht). split_and!; try done. apply Forall_app. split; [done|]. by apply Forall_singleton.
  - pose proof Hinv as (_ & _ & _ & Ht). cbn [rs_threads rs_client rs_world] in Ht. pose proof (proj1 (Forall_lookup _ _) Ht i t Hi) as Hti.
    destruct (callStep_ok _ _ _ _ _ ts _ _ _ Hinv Hti Hcall) as (Hl & (? & ? & ? & Ht') & Hok). split_and!; try done. by apply Forall_insert.
  - destruct Hinv as (? & ? & Hs & Ht). cbn [rs_client rs_world rs_threads] in *. split_and!; cbn [rs_client rs_world rs_threads w_made w_shut]; try done; [set_solver|].
    eapply Forall_impl; [exact Ht|]. intros t. apply threadOk_later. split; cbn [w_made w_shut]; [lia|set_solver].
Qed.

Lemma rpcInv_run s s' : rtc rpcStep s s' → rpcInv s → rpcInv s'.
Proof. induction 1; eauto using rpcInv_step. Qed.

(** ** Properties *)

(** C22: the connections of a client. However calls, pauses and failures of connections interleave, at most one connection of the client has not been shut down, so
    that none is replaced while it works and concurrent calls do not each dial anew; no call is made on a nil connection; and the second attempt of a call is
    on a connection made after the first one, which has been shut down. *)
Theorem client_connections (s : rpcState) (Hreach : rtc rpcStep rpcStart s) :
  let w := rs_world s in
  (∀ k k', (k < w_made w)%nat → k ∉ w_shut w → (k' < w_made w)%nat → k' ∉ w_shut w → k = k') ∧
  (∀ t tried, t ∈ rs_threads s → t ≠ Back NilClient tried) ∧
  (∀ k tried cl, CallingAgain (Some tried) cl ∈ rs_threads s → cl = Some k → tried ∈ w_shut w ∧ (tried < k < w_made w)%nat).
Proof.
  intros w. assert (rpcInv s) as (_ & _ & Hs & Ht).
  { apply (rpcInv_run rpcStart); [done|]. split_and!; [done|done|cbn [rs_world rpcStart w_made]; lia|constructor]. }
  fold w in Hs, Ht. rewrite Forall_forall in Ht. split_and!.
  - intros k k' H1 H2 H3 H4. destruct (decide (S k < w_made w)%nat) as [H5|H5]; [by destruct (H2 (Hs k H5))|].
    destruct (decide (S k' < w_made w)%nat) as [H6|H6]; [by destruct (H4 (Hs k' H6))|]. lia.
  - intros t tried Hin ->. by apply Ht in Hin.
  - intros k tried cl Hin ->. apply Ht in Hin as (k' & [= <-] & ? & Hk). destruct (Hk tried eq_refl). split; [done|lia].
Qed.

(** A remote search is a search: for a query that can be sent, the answer and the state of the server's searcher are those of its own Search; a query with a symbol is never
    answered, since its type is not registered with gob, and does not reach the searcher. *)
Theorem rpc_Search_same {S} `{Searcher S} (reString : Regexp → bytes) (reParse : bytes → option Regexp) (s : S) (q : Q) (opts : SearchOptions) :
  (sendable reString reParse q → rpc_Search reString reParse s q opts = (Some <$> fst (Searcher_Search s q opts), snd (Searcher_Search s q opts))) ∧
  (hasSymbol q = true → snd (rpc_Search reString reParse s q opts) = s ∧ ∀ r, fst (rpc_Search reString reParse s q opts) ≠ Ok r).
Proof.
  unfold rpc_Search, srv_Search. split; intros Hq.
  - rewrite transfer_sendable by done. destruct (Searcher_Search s q opts) as [r s']. by destruct r.
  - pose proof (transfer_symbol reString reParse q Hq) as Hn. destruct (transfer reString reParse q) as [q'| | |]; try done. by destruct (Hn q').
Qed.

(** Witness: a call whose first connection goes down calls again. *)
Definition toyRetry : rpcState := MkRpc (MkClient (Some 1%nat) 2) (MkWorld 2 {[0%nat]}) [CallingAgain (Some 0%nat) (Some 1%nat)].
Lemma toyRetry_reached : rtc rpcStep rpcStart toyRetry.
Proof.
  eapply rtc_l; [apply step_new|]. eapply rtc_l; [apply (step_call _ _ _ 0 Begin true false); reflexivity|]. eapply rtc_l; [apply (step_shut _ _ _ 0); cbn [w_made]; lia|].
  eapply rtc_l; [apply (step_call _ _ _ 0 (Calling 1 (Some 0%nat)) true false); reflexivity|].
  eapply rtc_l; [apply (step_call _ _ _ 0 (Pausing 1 (Some 0%nat)) true false); reflexivity|]. apply rtc_refl.
Qed.
Lemma client_connections_witness : 0%nat ∈ w_shut (rs_world toyRetry) ∧ (0 < 1 < w_made (rs_world toyRetry))%nat.
Proof. apply (proj2 (proj2 (client_connections toyRetry toyRetry_reached)) 1%nat 0%nat (Some 1%nat)); [left|reflexivity]. Defined.

(** Close of a client that has not called yet: there is no connection to close. *)
Example nothing_to_close : c_cl (rs_client rpcStart) = None.
Proof. reflexivity. Qed.
