(* ===== verification/Git.v ===== *)
(** * gitindex/: from git repositories to documents

    The walk through the trees of a commit and of its submodules (gitindex/tree.go, over the tree walker of
    the vendored go-git), .gitmodules (submodule.go), the cache of repositories (cache.go), the filter of names (filter.go) and
    the indexing of a repository (git.go). What a repository stores is a class. *)

From S2P Require Import Prelude GoStd GoText Bits Api HitIter MatchIter Query Section IndexBuilder IndexData Content MatchTree Eval Decide Shard Gather Lines Ctags Build.

(** ** What git stores *)

(** filemode.FileMode *)
Definition mode_Empty : Z := 0.
Definition mode_Dir : Z := 16384.
Definition mode_Regular : Z := 33188.
Definition mode_Deprecated : Z := 33204.
Definition mode_Executable : Z := 33261.
Definition mode_Symlink : Z := 40960.
Definition mode_Submodule : Z := 57344.

Record TreeEntry := MkTreeEntry { te_Name : bytes; te_Mode : Z; te_Hash : bytes }.
(** The size of a blob, and its contents unless they cannot be read. *)
Record Blob := MkBlob { blob_Size : Z; blob_Reader : option bytes }.

(** The objects of a repository, by their hashes; None if an object is missing. *)
Class GitRepo (R : Type) := {
  TreeObject : R → bytes → option (list TreeEntry);
  (** the hash of the tree of a commit *)
  CommitObject : R → bytes → option bytes;
  BlobObject : R → bytes → option Blob;
  (** names of commits, and the branches *)
  ResolveRevision : R → bytes → string + bytes;
  Head : R → option bytes;
  Branches : R → option (list bytes) }.

(** url.URL, of which only these parts are used; the others are in [u_rest]. *)
Record URL := MkURL { u_Host : bytes; u_Path : bytes; u_rest : bytes }.

Definition orErr {A} (e : string) (o : option A) : res A := match o with Some a => Ok a | None => Err e end.

(** ** The tree walker of go-git *)

Inductive walked := WEntry (name : bytes) (e : TreeEntry) | WEOF | WErr.
(** The entries left in each directory on the way, the innermost first, and its path. *)
Record TreeWalker := MkWalker { w_stack : list (list TreeEntry); w_base : bytes }.

Definition maxTreeDepth : Z := 1024.
Definition NewTreeWalker (t : list TreeEntry) : TreeWalker := MkWalker [t] [].

Section Walker.
Context `{GitRepo R} (repo : R).

(** [seen] is empty and stays so. *)
Fixpoint Next (stack : list (list TreeEntry)) (base : bytes) : walked * TreeWalker :=
  match stack with
  | [] => (WEOF, MkWalker [] base)
  | iter :: rest =>
    if maxTreeDepth <? lenZ stack - 1 then (WErr, MkWalker stack base)
    else match iter with
         | [] => Next rest (Clean (SplitDir base))
         | e :: iter =>
           let name := PathJoin [base; te_Name e] in
           if te_Mode e =? mode_Dir then
             match TreeObject repo (te_Hash e) with
             | None => (WEOF, MkWalker (iter :: rest) base)
             | Some t => (WEntry name e, MkWalker (t :: iter :: rest) name)
             end
           else (WEntry name e, MkWalker (iter :: rest) base)
         end
  end.
End Walker.

(** ** Submodules and the cache of repositories *)

Record SubmoduleEntry := MkSubmodule { sm_Path : bytes; sm_URL : bytes; sm_Branch : bytes }.
(** The decoded form of a configuration file: sections, subsections, options. *)
Record Subsection := MkSubsection { ss_Name : bytes; ss_Options : list (bytes * bytes) }.
Record ConfigSection := MkConfigSection { cs_Name : bytes; cs_Options : list (bytes * bytes); cs_Subsections : list Subsection }.

Definition submoduleOption (e : SubmoduleEntry) (kv : bytes * bytes) : SubmoduleEntry :=
  if bool_decide (fst kv = str "branch") then MkSubmodule (sm_Path e) (sm_URL e) (snd kv)
  else if bool_decide (fst kv = str "path") then MkSubmodule (snd kv) (sm_URL e) (sm_Branch e)
  else if bool_decide (fst kv = str "url") then MkSubmodule (sm_Path e) (snd kv) (sm_Branch e)
  else e.
Definition submodulesOf (m : gmap bytes SubmoduleEntry) (s : ConfigSection) : gmap bytes SubmoduleEntry :=
  if bool_decide (cs_Name s = str "submodule") then
    foldl (λ m ss, <[ss_Name ss := foldl submoduleOption (MkSubmodule [] [] []) (ss_Options ss)]> m) m (cs_Subsections s)
  else m.
(** [decode]: the decoder of go-git. *)
Definition ParseGitModules (decode : bytes → option (list ConfigSection)) (content : bytes) : res (gmap bytes SubmoduleEntry) :=
  match decode content with
  | None => Err "config"
  | Some sections => Ok (foldl submodulesOf ∅ sections)
  end.

Record RepoCache (R : Type) := MkRepoCache { rc_baseDir : bytes; rc_repos : gmap bytes R }.
Arguments MkRepoCache {R}.
Arguments rc_baseDir {R}.
Arguments rc_repos {R}.
Definition NewRepoCache {R} (dir : bytes) : RepoCache R := MkRepoCache dir ∅.
Definition repoKeyStr (key : bytes) : bytes := if HasSuffix key (str ".git") then key else key ++ str ".git".
Definition repoKey (u : URL) : bytes := repoKeyStr (PathJoin [u_Host u; u_Path u]).
Definition Path (baseDir name : bytes) : bytes := PathJoin [baseDir; repoKeyStr name].
Definition RepoCache_Path {R} (rc : RepoCache R) (u : URL) : bytes := PathJoin [rc_baseDir rc; repoKey u].
Definition Open {R} (PlainOpen : bytes → option R) (u : URL) : M (RepoCache R) R := λ rc,
  let dir := RepoCache_Path rc u in
  let key := repoKey u in
  match rc_repos rc !! key with
  | Some r => (Ok r, rc)
  | None =>
    match PlainOpen dir with
    | Some r => (Ok r, MkRepoCache (rc_baseDir rc) (<[key := r]> (rc_repos rc)))
    | None => (Err "open", rc)
    end
  end.

(** Filter of names; a regular expression is given by what it matches. *)
Record Filter := MkFilter { f_inc : option (bytes → bool); f_exc : option (bytes → bool) }.
Definition Include (f : Filter) (name : bytes) : bool :=
  match f_inc f with Some inc => inc name | None => true end && match f_exc f with Some exc => negb (exc name) | None => true end.
Definition NewFilter (compile : bytes → res (bytes → bool)) (includeRegex excludeRegex : bytes) : res Filter :=
  inc ← (if bool_decide (includeRegex = []) then Ok None else Some <$> compile includeRegex);
  exc ← (if bool_decide (excludeRegex = []) then Ok None else Some <$> compile excludeRegex);
  Ok (MkFilter inc exc).

(** ** Files of a tree *)

(** A blob at a place in the final tree, and the repository it came from. *)
Record fileKey := MkFileKey { fk_SubRepoPath : bytes; fk_Path : bytes; fk_ID : bytes }.
#[global] Instance fileKey_eq_dec : EqDecision fileKey.
Proof. solve_decision. Defined.
#[global] Instance fileKey_countable : Countable fileKey.
Proof.
  apply (inj_countable' (λ k, (fk_SubRepoPath k, fk_Path k, fk_ID k)) (λ '(a, b, c), MkFileKey a b c)). by intros [].
Defined.
Definition FullPath (k : fileKey) : bytes := PathJoin [fk_SubRepoPath k; fk_Path k].
Record BlobLocation (R : Type) := MkBlobLocation { bl_Repo : R; bl_URL : option URL }.
Arguments MkBlobLocation {R}.
Arguments bl_Repo {R}.
Arguments bl_URL {R}.

(** Nil maps read as empty ones; a nil cache is None. *)
Record repoWalker (R : Type) := MkRepoWalker {
  rw_repo : R;
  rw_repoURL : option URL;
  rw_tree : gmap fileKey (BlobLocation R);
  rw_submodules : gmap bytes SubmoduleEntry;
  rw_subRepoVersions : gmap bytes bytes;
  rw_repoCache : option (RepoCache R);
  rw_ignoreMissingSubmodules : bool }.
Arguments MkRepoWalker {R}.
Arguments rw_repo {R}.
Arguments rw_repoURL {R}.
Arguments rw_tree {R}.
Arguments rw_submodules {R}.
Arguments rw_subRepoVersions {R}.
Arguments rw_repoCache {R}.
Arguments rw_ignoreMissingSubmodules {R}.

Section Tree.
Context {R : Type} `{GitRepo R}.
(** url.Parse (nil after an error) and URL.String; PlainOpen and the configuration decoder of go-git. *)
Context (urlParse : bytes → option URL) (urlString : URL → bytes).
Context (PlainOpen : bytes → option R) (decode : bytes → option (list ConfigSection)).
#[local] Abbreviation RW := (repoWalker R).
#[local] Abbreviation files := (gmap fileKey (BlobLocation R) * gmap bytes bytes)%type.

Definition set_tree (t : gmap fileKey (BlobLocation R)) (w : RW) : RW :=
  MkRepoWalker (rw_repo w) (rw_repoURL w) t (rw_submodules w) (rw_subRepoVersions w) (rw_repoCache w) (rw_ignoreMissingSubmodules w).
Definition set_submodules (m : gmap bytes SubmoduleEntry) (w : RW) : RW :=
  MkRepoWalker (rw_repo w) (rw_repoURL w) (rw_tree w) m (rw_subRepoVersions w) (rw_repoCache w) (rw_ignoreMissingSubmodules w).
Definition set_subRepoVersions (v : gmap bytes bytes) (w : RW) : RW :=
  MkRepoWalker (rw_repo w) (rw_repoURL w) (rw_tree w) (rw_submodules w) v (rw_repoCache w) (rw_ignoreMissingSubmodules w).
Definition set_repoCache (c : option (RepoCache R)) (w : RW) : RW :=
  MkRepoWalker (rw_repo w) (rw_repoURL w) (rw_tree w) (rw_submodules w) (rw_subRepoVersions w) c (rw_ignoreMissingSubmodules w).

Definition newRepoWalker (r : R) (repoURL : bytes) (repoCache : option (RepoCache R)) : RW :=
  MkRepoWalker r (urlParse repoURL) ∅ ∅ ∅ repoCache true.

Definition subURL (w : RW) (relURL : bytes) : res URL :=
  match rw_repoURL w with
  | None => Err "no URL for base repo."
  | Some u =>
    if HasPrefix relURL (str "../") then Ok (MkURL (u_Host u) (PathJoin [u_Path u; relURL]) (u_rest u))
    else match urlParse relURL with Some u => Ok u | None => Err "url" end
  end.

(** Tree.File for a name without slashes: the last entry of that name, if it is a blob. *)
Definition treeFile (repo : R) (t : list TreeEntry) (name : bytes) : option Blob :=
  e ← last (filter (λ e, te_Name e = name) t); BlobObject repo (te_Hash e).
Definition parseModuleMap (t : list TreeEntry) : M RW () := λ w,
  match treeFile (rw_repo w) t (str ".gitmodules") with
  | None => (Ok (), w)
  | Some b =>
    match blob_Reader b with
    | None => (Err "blob", w)
    | Some c =>
      match ParseGitModules decode c with
      | Ok mods => (Ok (), set_submodules (foldl (λ m ke, <[sm_Path (snd ke) := snd ke]> m) ∅ (map_to_list mods)) w)
      | Err e => (Err e, w)
      | Panic y => (Panic y, w)
      | OutOfFuel => (OutOfFuel, w)
      end
    end
  end.

Definition openSub (u : URL) : M RW R := λ w,
  match rw_repoCache w with
  | None => (Panic "nil pointer dereference", w)
  | Some rc => let '(r, rc) := Open PlainOpen u rc in (r, set_repoCache (Some rc) w)
  end.

Section Entry.
(** TreeToFiles, for the submodules. *)
Context (TreeToFiles : R → list TreeEntry → bytes → M (option (RepoCache R)) files).

Definition inSub (subRepo : R) (t : list TreeEntry) (url : bytes) : M RW files := λ w,
  let '(r, rc) := TreeToFiles subRepo t url (rw_repoCache w) in (r, set_repoCache rc w).
Definition placeFile (p : bytes) (m : gmap fileKey (BlobLocation R)) (kl : fileKey * BlobLocation R) :=
  <[MkFileKey (PathJoin [p; fk_SubRepoPath (fst kl)]) (fk_Path (fst kl)) (fk_ID (fst kl)) := snd kl]> m.
Definition placeVersion (p : bytes) (m : gmap bytes bytes) (kv : bytes * bytes) := <[PathJoin [p; fst kv] := snd kv]> m.

Definition handleSubmodule (p id : bytes) : M RW () :=
  w ← gets Datatypes.id;
  submod ← lift (orErr "no entry for submodule path" (rw_submodules w !! p));
  u ← lift (subURL w (sm_URL submod));
  subRepo ← openSub u;
  treeHash ← lift (orErr "commit" (CommitObject subRepo id));
  tree ← lift (orErr "tree" (TreeObject subRepo treeHash));
  _ ← modify (λ w, set_subRepoVersions (<[p := id]> (rw_subRepoVersions w)) w);
  sub ← inSub subRepo tree (urlString u);
  modify (λ w, set_subRepoVersions (foldl (placeVersion p) (rw_subRepoVersions w) (map_to_list (snd sub)))
                 (set_tree (foldl (placeFile p) (rw_tree w) (map_to_list (fst sub))) w)).

(** The error is dropped whether or not ignoreMissingSubmodules is set. *)
Definition tryHandleSubmodule (p id : bytes) : M RW () := recover (handleSubmodule p id) ().

Definition handleEntry (p : bytes) (e : TreeEntry) : M RW () :=
  w ← gets Datatypes.id;
  _ ← (if (te_Mode e =? mode_Submodule) && bool_decide (is_Some (rw_repoCache w)) then tryHandleSubmodule p (te_Hash e) else mret ());
  if (te_Mode e =? mode_Regular) || (te_Mode e =? mode_Executable) then
    modify (λ w, set_tree (<[MkFileKey [] p (te_Hash e) := MkBlobLocation (rw_repo w) (rw_repoURL w)]> (rw_tree w)) w)
  else mret ().

(** The loop of TreeToFiles: an error of Next other than io.EOF is overlooked, and the
    entry that comes with it, an empty one, is handled. *)
Fixpoint treeLoop (fuel : nat) (tw : TreeWalker) : M RW () := λ w,
  match fuel with
  | O => (OutOfFuel, w)
  | S fuel =>
    match Next (rw_repo w) (w_stack tw) (w_base tw) with
    | (WEOF, _) => (Ok (), w)
    | (WErr, tw) => (_ ← handleEntry [] (MkTreeEntry [] mode_Empty []); treeLoop fuel tw) w
    | (WEntry name e, tw) => (_ ← handleEntry name e; treeLoop fuel tw) w
    end
  end.
End Entry.

(** [depth]: how deep submodules are nested. [steps]: how long a walk may be. *)
Fixpoint TreeToFiles (depth steps : nat) (r : R) (t : list TreeEntry) (repoURL : bytes) : M (option (RepoCache R)) files := λ rc,
  match depth with
  | O => (OutOfFuel, rc)
  | S depth =>
    let rw := newRepoWalker r repoURL rc in
    let '(res, rw) := (_ ← parseModuleMap t; treeLoop (TreeToFiles depth steps) steps (NewTreeWalker t)) rw in
    ((λ _, (rw_tree rw, rw_subRepoVersions rw)) <$> res, rw_repoCache rw)
  end.

(** BlobLocation.Blob and blobContents *)
Definition blobContents (b : Blob) : res bytes := orErr "blob" (blob_Reader b).
Definition BlobLocation_Blob (l : BlobLocation R) (id : bytes) : res bytes :=
  b ← orErr "object not found" (BlobObject (bl_Repo l) id); blobContents b.
End Tree.

(** ** Descriptions of repositories *)

Definition set_URL (r : Repository) (url : bytes) : Repository :=
  MkRepository (r_Name r) url (r_Branches r) (r_SubRepoMap r) (r_CommitURLTemplate r) (r_FileURLTemplate r)
    (r_LineFragmentTemplate r) (r_RawConfig r) (r_Rank r).
Definition set_Templates (r : Repository) (commit file line : bytes) : Repository :=
  MkRepository (r_Name r) (r_URL r) (r_Branches r) (r_SubRepoMap r) commit file line (r_RawConfig r) (r_Rank r).
Definition set_Branches (r : Repository) (bs : list RepositoryBranch) : Repository :=
  MkRepository (r_Name r) (r_URL r) bs (r_SubRepoMap r) (r_CommitURLTemplate r) (r_FileURLTemplate r)
    (r_LineFragmentTemplate r) (r_RawConfig r) (r_Rank r).
Definition set_RawConfig (r : Repository) (m : gmap bytes bytes) (rank : Z) : Repository :=
  MkRepository (r_Name r) (r_URL r) (r_Branches r) (r_SubRepoMap r) (r_CommitURLTemplate r) (r_FileURLTemplate r)
    (r_LineFragmentTemplate r) m rank.

(** What the configuration of a repository holds: the options of its section zoekt and the URLs of its remotes. *)
Record GitConfig := MkGitConfig { gc_zoekt : list (bytes * bytes); gc_remotes : gmap bytes (list bytes) }.
Definition configLookupString (sec : list (bytes * bytes)) (key : bytes) : bytes :=
  default [] (snd <$> head (filter (λ o, fst o = key) sec)).
Definition configLookupRemoteURL (cfg : GitConfig) (key : bytes) : bytes :=
  default [] (head (default [] (gc_remotes cfg !! key))).

Section Describe.
Context (urlParse : bytes → option URL) (urlString : URL → bytes).
(** The rank of a repository with that many stars, forks, watchers and subscribers. *)
Context (rankOf : Z → Z).

Definition setTemplates (u : URL) (typ : bytes) : M Repository () := λ repo,
  let s := urlString u in
  let repo := set_URL repo s in
  if bool_decide (typ = str "gitiles") then
    (Ok (), set_Templates repo (s ++ str "/+/{{.Version}}") (s ++ str "/+/{{.Version}}/{{.Path}}") (str "#{{.LineNumber}}"))
  else if bool_decide (typ = str "github") then
    (Ok (), set_Templates repo (s ++ str "/commit/{{.Version}}") (s ++ str "/blob/{{.Version}}/{{.Path}}") (str "#L{{.LineNumber}}"))
  else if bool_decide (typ = str "cgit") then
    (Ok (), set_Templates repo (s ++ str "/commit/?id={{.Version}}") (s ++ str "/tree/{{.Path}}/?id={{.Version}}") (str "#n{{.LineNumber}}"))
  else if bool_decide (typ = str "gitweb") then
    (Ok (), set_Templates repo (s ++ str ";a=commit;h={{.Version}}") (s ++ str ";a=blob;f={{.Path}};hb={{.Version}}") (str "#l{{.LineNumber}}"))
  else if bool_decide (typ = str "source.bazel.build") then
    (Ok (), set_Templates repo (s ++ str "/+/{{.Version}}") (s ++ str "/+/{{.Version}}:{{.Path}}") (str ";l={{.LineNumber}}"))
  else (Err "URL scheme type unknown", repo).

(** The source also changes the path of the URL it is given, which nobody reads afterwards. *)
Definition SetTemplatesFromOrigin (u : URL) : M Repository () := λ desc,
  let path := TrimSuffix (u_Path u) (str ".git") in
  let desc := set_Name desc (PathJoin [u_Host u; path]) in
  if HasSuffix (u_Host u) (str ".googlesource.com") then setTemplates u (str "gitiles") desc
  else if bool_decide (u_Host u = str "github.com") then setTemplates (MkURL (u_Host u) path (u_rest u)) (str "github") desc
  else (Err "unknown git hosting site", desc).

Definition traction (sec : list (bytes * bytes)) : Z :=
  foldl (λ n key, match ParseInt (configLookupString sec key) with Ok f => n + f | _ => n end) 0
    [str "github-stars"; str "github-forks"; str "github-watchers"; str "github-subscribers"].
(** [config]: git.PlainOpen and its Config. *)
Definition setTemplatesFromConfig (config : option GitConfig) : M Repository () :=
  cfg ← lift (orErr "config" config);
  let sec := gc_zoekt cfg in
  let webURLStr := configLookupString sec (str "web-url") in
  let webURLType := configLookupString sec (str "web-url-type") in
  _ ← (if bool_decide (webURLType ≠ [] ∧ webURLStr ≠ []) then
         webURL ← lift (orErr "url" (urlParse webURLStr)); setTemplates webURL webURLType
       else if bool_decide (webURLStr ≠ []) then modify (λ desc, set_URL desc webURLStr)
       else mret ());
  let name := configLookupString sec (str "name") in
  let remoteURL := configLookupRemoteURL cfg (str "origin") in
  done ← (if bool_decide (name ≠ []) then _ ← modify (λ desc, set_Name desc name); mret false
          else if bool_decide (remoteURL = []) then mret true
          else u ← lift (orErr "url" (urlParse remoteURL)); _ ← SetTemplatesFromOrigin u; mret false);
  if (done : bool) then mret ()
  else modify (λ desc,
    let n := traction sec in
    let n := if Contains (r_Name desc) (str "googlesource.com/") && (n =? 0) then 1000 else n in
    set_RawConfig desc (foldl (λ m o, <[fst o := snd o]> m) (r_RawConfig desc) sec) (if 0 <? n then rankOf n else r_Rank desc)).
End Describe.

(** ** Indexing a repository *)

#[global] Instance RepositoryBranch_eq_dec : EqDecision RepositoryBranch.
Proof. solve_decision. Defined.

(** Submodules is never read. *)
Record GitOptions := MkGitOptions {
  go_RepoDir : bytes;
  go_Submodules : bool;
  go_Incremental : bool;
  go_AllowMissingBranch : bool;
  go_RepoCacheDir : bytes;
  go_BuildOptions : Options;
  go_BranchPrefix : bytes;
  go_Branches : list bytes }.

Definition uniqLoop (acc : list bytes * option bytes) (s : bytes) : list bytes * option bytes :=
  (if bool_decide (snd acc = Some s) then fst acc else fst acc ++ [s], Some s).
(** The result is built in the array of the argument, behind the element that is read. *)
Definition uniq (ss : list bytes) : list bytes := fst (foldl uniqLoop ([], None) ss).

Definition zeroHash : bytes := replicate 40 48.
Definition isMissingBranchError {A} (r : res A) : bool := match r with Err e => String.eqb e "reference not found" | _ => false end.

Section Index.
Context {R : Type} `{GitRepo R} `{SortAlg}.
Context (urlParse : bytes → option URL) (urlString : URL → bytes).
Context (PlainOpen : bytes → option R) (decode : bytes → option (list ConfigSection)) (config : bytes → option GitConfig) (rankOf : Z → Z).
(** html/template: whether a template parses. *)
Context (validTemplate : bytes → bool).
(** filepath.Match; url.Parse with filepath.Join as SetDefaults of the builder uses them; Options.IndexVersions. *)
Context (Match : bytes → bytes → option bool) (urlName : bytes → option bytes) (IndexVersions : Options → list RepositoryBranch).
Context (depth steps : nat).

Fixpoint matchBranches (b prefix : bytes) (names : list bytes) : res (list bytes) :=
  match names with
  | [] => Ok []
  | name :: names =>
    matched ← orErr "syntax error in pattern" (Match b name);
    rest ← matchBranches b prefix names;
    Ok (if (matched : bool) then TrimPrefix name prefix :: rest else rest)
  end.
Definition expandBranch (repo : R) (prefix b : bytes) : res (list bytes) :=
  if bool_decide (b = str "HEAD") then ref ← orErr "reference not found" (Head repo); Ok [TrimPrefix ref prefix]
  else if Contains b [42] then names ← orErr "reference" (Branches repo); matchBranches b prefix names
  else Ok [b].
Definition expandBranches (repo : R) (bs : list bytes) (prefix : bytes) : res (list bytes) :=
  mjoin <$> mapM (expandBranch repo prefix) bs.

(** The hash of a commit, and that of its tree. *)
Definition getCommit (repo : R) (prefix ref : bytes) : res (bytes * bytes) :=
  sha1 ← match ResolveRevision repo ref with
         | inr sha1 => Ok sha1
         | inl _ => match ResolveRevision repo (PathJoin [prefix; ref]) with inr sha1 => Ok sha1 | inl e => Err e end
         end;
  tree ← orErr "object not found" (CommitObject repo sha1);
  Ok (sha1, tree).

(** What the loop over the branches collects. *)
Record collected := MkCollected {
  co_branches : list RepositoryBranch;
  co_repos : gmap fileKey (BlobLocation R);
  co_branchMap : gmap fileKey (list bytes);
  co_branchVersions : gmap bytes (gmap bytes bytes) }.
Definition addFiles (b : bytes) (files : gmap fileKey (BlobLocation R)) (c : collected) : collected :=
  foldl (λ c kv, MkCollected (co_branches c) (<[fst kv := snd kv]> (co_repos c))
                   (<[fst kv := default [] (co_branchMap c !! fst kv) ++ [b]]> (co_branchMap c)) (co_branchVersions c))
    c (map_to_list files).
Definition addBranch (b sha1 : bytes) (files : gmap fileKey (BlobLocation R)) (subVersions : gmap bytes bytes) (c : collected) : collected :=
  let c := addFiles b files c in
  MkCollected (co_branches c ++ [MkBranch b sha1]) (co_repos c) (co_branchMap c) (<[b := subVersions]> (co_branchVersions c)).
Definition collectBranch (repo : R) (o : GitOptions) (url b : bytes) (c : collected) (rc : option (RepoCache R))
    : res (collected * option (RepoCache R)) :=
  let commit := getCommit repo (go_BranchPrefix o) b in
  if go_AllowMissingBranch o && isMissingBranchError commit then Ok (c, rc)
  else
    '(sha1, treeHash) ← commit;
    tree ← orErr "object not found" (TreeObject repo treeHash);
    let '(r, rc) := TreeToFiles urlParse urlString PlainOpen decode depth steps repo tree url rc in
    '(files, subVersions) ← r;
    Ok (addBranch b sha1 files subVersions c, rc).
Fixpoint collectBranches (repo : R) (o : GitOptions) (url : bytes) (bs : list bytes) (c : collected) (rc : option (RepoCache R)) : res collected :=
  match bs with
  | [] => Ok c
  | b :: bs => '(c, rc) ← collectBranch repo o url b c rc; collectBranches repo o url bs c rc
  end.

(** The descriptions of the repository and the submodules, by path. *)
Definition subRepository (desc : Repository) (path : bytes) (location : BlobLocation R) : res Repository :=
  if bool_decide (path = []) then Ok desc
  else match bl_URL location with
       | None => Panic "nil pointer dereference"
       | Some u => Ok (snd (SetTemplatesFromOrigin urlString u (set_URL repository0 (urlString u))))
       end.
Definition subRepositories (desc : Repository) (c : collected) : res (gmap bytes Repository) :=
  let reposByPath := foldl (λ m kl, <[fk_SubRepoPath (fst kl) := snd kl]> m) (∅ : gmap bytes (BlobLocation R)) (map_to_list (co_repos c)) in
  l ← mapM (λ pl, r ← subRepository desc (fst pl) (snd pl);
                  Ok (fst pl, set_Branches r (r_Branches r ++
                    ((λ br, MkBranch (br_Name br) (default zeroHash (default ∅ (co_branchVersions c !! br_Name br) !! fst pl)))
                       <$> r_Branches desc)))) (map_to_list reposByPath);
  Ok (list_to_map l).

(** The documents of a key. *)
Definition keyDocument (sizeMax : Z) (c : collected) (k : fileKey) : res Document :=
  match co_repos c !! k with
  | None => Panic "nil pointer dereference"
  | Some location =>
    let brs := default [] (co_branchMap c !! k) in
    blob ← orErr "object not found" (BlobObject (bl_Repo location) (fk_ID k));
    if sizeMax <? blob_Size blob then
      Ok (MkDocument (FullPath k) [] brs (fk_SubRepoPath k) []
            (str "file size " ++ Itoa (blob_Size blob) ++ str " exceeds maximum size " ++ Itoa sizeMax) [])
    else
      contents ← blobContents blob;
      Ok (MkDocument (FullPath k) contents brs (fk_SubRepoPath k) [] [] [])
  end.
Definition fileNames (c : collected) : list bytes := (λ kl, FullPath (fst kl)) <$> map_to_list (co_repos c).
Definition fileKeys (c : collected) (name : bytes) : list fileKey :=
  filter (λ k, FullPath k = name) (fst <$> map_to_list (co_repos c)).
Definition indexKeys (c : collected) : list fileKey := mjoin (fileKeys c <$> uniq (go_sort string_less (fileNames c))).

Definition set_Description (o : Options) (r : Repository) (subs : option (gmap bytes Repository)) : Options :=
  MkOptions (op_SizeMax o) (op_Parallelism o) (op_ShardMax o) r subs (op_CTags o) (op_CTagsMustSucceed o).
(** None when the index is up to date (a nil and an empty list of branches are not told apart). Otherwise the options with which the builder is made, and the documents that are
    added to it, in order, before Finish. *)
Definition IndexGitRepo (o : GitOptions) : res (option (Options * list Document)) :=
  let bo := Build.SetDefaults urlName (go_BuildOptions o) in
  if bool_decide (go_RepoDir o = []) then Err "gitindex: must set RepoDir"
  else
    repo ← orErr "open" (PlainOpen (go_RepoDir o));
    let desc := snd (setTemplatesFromConfig urlParse urlString rankOf (config (go_RepoDir o)) (op_RepositoryDescription bo)) in
    branches ← expandBranches repo (go_Branches o) (go_BranchPrefix o);
    c ← collectBranches repo o (r_URL desc) branches (MkCollected (r_Branches desc) ∅ ∅ ∅) (Some (NewRepoCache (go_RepoCacheDir o)));
    let desc := set_Branches desc (co_branches c) in
    let bo := set_Description bo desc (op_SubRepositories bo) in
    if go_Incremental o && bool_decide (IndexVersions bo = r_Branches desc) then Ok None
    else
      subs ← subRepositories desc c;
      let bo := set_Description bo desc (Some subs) in
      _ ← NewBuilder validTemplate urlName bo;
      docs ← mapM (keyDocument (op_SizeMax bo) c) (indexKeys c);
      Ok (Some (bo, docs)).
End Index.

(** ** Listing a tree *)

(** The entries below a tree with their paths, in the order of git: every directory before what it holds. [n] bounds
    the nesting of directories. *)
Inductive listing `{GitRepo R} (repo : R) : nat → list bytes → list TreeEntry → list (list bytes * TreeEntry) → Prop :=
| ls_nil n c : listing repo n c [] []
| ls_leaf n c e es l : isName (te_Name e) → te_Mode e ≠ mode_Dir → listing repo n c es l →
    listing repo n c (e :: es) ((c ++ [te_Name e], e) :: l)
| ls_dir n c e es t l1 l2 : isName (te_Name e) → te_Mode e = mode_Dir → TreeObject repo (te_Hash e) = Some t →
    listing repo n (c ++ [te_Name e]) t l1 → listing repo (S n) c es l2 →
    listing repo (S n) c (e :: es) ((c ++ [te_Name e], e) :: l1 ++ l2).

Section Walk.
Context {R : Type} `{GitRepo R} (repo : R).

(** What is left of a walk, and the base path it has. *)
Inductive pending : list (list TreeEntry) → list bytes → list (list bytes * TreeEntry) → Prop :=
| pend_nil : pending [] [] []
| pend_root n it l : listing repo n [] it l → Z.of_nat n <= maxTreeDepth → pending [it] [] l
| pend_sub n it st c d l1 l2 : listing repo n (c ++ [d]) it l1 → lenZ st + Z.of_nat n <= maxTreeDepth → isName d →
    st ≠ [] → pending st c l2 → pending (it :: st) (c ++ [d]) (l1 ++ l2).
Definition isBase (base : bytes) (c : list bytes) : Prop := c = [] ∧ base = [46] ∨ base = Join [47] c.

Lemma isBase_name base c n : isBase base c → Forall isName c → isName n → PathJoin [base; n] = Join [47] (c ++ [n]).
Proof. intros [[-> ->]| ->] Hc Hn; [by apply PathJoin_dot|by apply PathJoin_name]. Qed.
Lemma isBase_up base c d : isBase base (c ++ [d]) → Forall isName c → isName d → isBase (Clean (SplitDir base)) c.
Proof.
  intros [[E _]| ->] Hc Hd; [by apply app_nil in E as [_ ?]|]. rewrite Clean_SplitDir by done. case_decide; [by left|by right].
Qed.

Lemma pending_normal st c l : pending st c l → Forall isName c.
Proof. induction 1; [done|done|]. apply Forall_app. split; [done|]. by constructor. Qed.

(** The walk stands in the directory [c], with the entries [es] left in it. *)
Lemma Next_entry st c e es l1 l2 n base : listing repo n c (e :: es) l1 → lenZ st + Z.of_nat n <= maxTreeDepth →
  Forall isName c → isBase base c → (∀ es' l, listing repo n c es' l → pending (es' :: st) c (l ++ l2)) →
  ∃ l1' st' base' c', l1 = (c ++ [te_Name e], e) :: l1' ∧
    Next repo ((e :: es) :: st) base = (WEntry (Join [47] (c ++ [te_Name e])) e, MkWalker st' base') ∧
    pending st' c' (l1' ++ l2) ∧ isBase base' c'.
Proof.
  intros Hl Hn Hc Hb Hp. cbn [Next]. rewrite (proj2 (Z.ltb_ge _ _)) by (rewrite lenZ_cons; lia).
  inversion Hl as [|? ? ? ? l Hne Hm Hes|n' ? ? ? t la lb Hne Hm Ht Hla Hlb]; subst.
  - rewrite (proj2 (Z.eqb_neq _ _)) by done. rewrite (isBase_name _ c) by done. eexists _, _, _, c. split_and!; [done|done|by apply Hp|done].
  - rewrite (proj2 (Z.eqb_eq _ _)) by done. rewrite (isBase_name _ c), Ht by done. eexists _, _, _, (c ++ [te_Name e]).
    split_and!; [done|done| |by right]. rewrite <- app_assoc. apply (pend_sub n'); [done|rewrite lenZ_cons; lia|done|done|by apply Hp].
Qed.

Lemma Next_pending st c l base : pending st c l → isBase base c →
  match l with
  | [] => ∃ tw, Next repo st base = (WEOF, tw)
  | (p, e) :: l => ∃ st' base' c', Next repo st base = (WEntry (Join [47] p) e, MkWalker st' base') ∧ pending st' c' l ∧ isBase base' c'
  end.
Proof.
  intros Hp. revert base. induction Hp as [|n it l Hl Hn|n it st c d l1 l2 Hl Hn Hd Hst Hp IH]; intros base Hb.
  - by eexists.
  - destruct it as [|e es].
    { inversion Hl; subst. eexists. cbn [Next]. done. }
    destruct (Next_entry [] [] e es l [] n base) as (l1' & st' & base' & c' & -> & E & Hp' & Hb'); try done.
    { intros es' l' Hl'. rewrite app_nil_r. by apply (pend_root n). }
    rewrite app_nil_r in Hp'. by exists st', base', c'.
  - pose proof (pending_normal _ _ _ Hp) as Hc. destruct it as [|e es].
    { inversion Hl; subst. assert (Next repo ([] :: st) base = Next repo st (Clean (SplitDir base))) as ->.
      { cbn [Next]. rewrite (proj2 (Z.ltb_ge _ _)) by (rewrite lenZ_cons; lia). done. }
      apply IH. by eapply isBase_up. }
    assert (Forall isName (c ++ [d])) as Hcd by (apply Forall_app; split; [done|by constructor]).
    destruct (Next_entry st (c ++ [d]) e es l1 l2 n base) as (l1' & st' & base' & c' & -> & E & Hp' & Hb'); try done.
    { intros es' l' Hl'. by apply (pend_sub n). }
    simpl. by exists st', base', c'.
Qed.
End Walk.

(** ** Handling the entries *)

Section Files.
Context {R : Type} `{GitRepo R}.
Context (urlParse : bytes → option URL) (urlString : URL → bytes).
Context (PlainOpen : bytes → option R) (decode : bytes → option (list ConfigSection)).
#[local] Abbreviation RW := (repoWalker R).
#[local] Abbreviation files := (gmap fileKey (BlobLocation R) * gmap bytes bytes)%type.

(** The submodules of a tree by path; None when .gitmodules cannot be read or parsed. *)
Definition modulesOf (r : R) (t : list TreeEntry) : option (gmap bytes SubmoduleEntry) :=
  match treeFile r t (str ".gitmodules") with
  | None => Some ∅
  | Some b =>
    c ← blob_Reader b; sections ← decode c;
    Some (foldl (λ m ke, <[sm_Path (snd ke) := snd ke]> m) ∅ (map_to_list (foldl submodulesOf ∅ sections)))
  end.
(** The tree that a submodule entry at [p] stands for, with its repository and URL; [base] is the root of the cache. *)
Definition submoduleAt (base : bytes) (r : R) (t : list TreeEntry) (url p id : bytes) (u : URL) (r' : R) (t' : list TreeEntry) : Prop :=
  ∃ mods sub h, modulesOf r t = Some mods ∧ mods !! p = Some sub ∧
    subURL urlParse (newRepoWalker urlParse r url None) (sm_URL sub) = Ok u ∧
    PlainOpen (PathJoin [base; repoKey u]) = Some r' ∧ CommitObject r' id = Some h ∧ TreeObject r' h = Some t'.

Definition isFile (e : TreeEntry) : bool := (te_Mode e =? mode_Regular) || (te_Mode e =? mode_Executable).
(** The files of a tree and, through submodules, of other trees; a tree whose .gitmodules is broken has none. *)
Inductive provides (base : bytes) : R → list TreeEntry → bytes → fileKey → BlobLocation R → Prop :=
| pv_file r t url n l p e mods : modulesOf r t = Some mods → listing r n [] t l → (p, e) ∈ l → isFile e = true →
    provides base r t url (MkFileKey [] (Join [47] p) (te_Hash e)) (MkBlobLocation r (urlParse url))
| pv_sub r t url n l p e u r' t' k loc : listing r n [] t l → (p, e) ∈ l → te_Mode e = mode_Submodule →
    submoduleAt base r t url (Join [47] p) (te_Hash e) u r' t' → provides base r' t' (urlString u) k loc →
    provides base r t url (MkFileKey (PathJoin [Join [47] p; fk_SubRepoPath k]) (fk_Path k) (fk_ID k)) loc.

(** Trees that can be walked: all objects are there, directories nest at most 1024 deep and submodules less than [d]. *)
Inductive walkable (base : bytes) (steps : nat) : nat → R → list TreeEntry → bytes → Prop :=
| walk_tree d r t url n l : listing r n [] t l → Z.of_nat n <= maxTreeDepth → (length l < steps)%nat →
    (∀ p e u r' t', (p, e) ∈ l → te_Mode e = mode_Submodule → submoduleAt base r t url (Join [47] p) (te_Hash e) u r' t' →
       walkable base steps d r' t' (urlString u)) →
    walkable base steps (S d) r t url.

Lemma listing_unique (r : R) n c t l : listing r n c t l → ∀ n' l', listing r n' c t l' → l' = l.
Proof.
  induction 1 as [n c|n c e es l Hn Hm _ IH|n c e es t l1 l2 Hn Hm Ht _ IH1 _ IH2]; intros n' l' Hl'; inversion Hl'; subst; try done.
  - f_equal. by eapply IH.
  - simplify_eq. f_equal. f_equal; [by eapply IH1|by eapply IH2].
Qed.

(** The cache holds what opening again would give. *)
Definition rcOK (base : bytes) (rc : RepoCache R) : Prop :=
  rc_baseDir rc = base ∧ map_Forall (λ key r, PlainOpen (PathJoin [base; key]) = Some r) (rc_repos rc).
Lemma Open_ok base u rc : rcOK base rc → ∃ rc', rcOK base rc' ∧ Open PlainOpen u rc = (orErr "open" (PlainOpen (PathJoin [base; repoKey u])), rc').
Proof.
  intros [Hb Hc]. unfold Open, RepoCache_Path. rewrite Hb. destruct (rc_repos rc !! repoKey u) as [r|] eqn:E.
  - exists rc. by rewrite (Hc _ _ E).
  - destruct (PlainOpen _) as [r|] eqn:Ep; [|by exists rc]. eexists. split; [|done].
    split; [done|]. by apply map_Forall_insert_2.
Qed.

(** *** Merging the files of a submodule *)

Lemma placeFiles_elem p m (l : list (fileKey * BlobLocation R)) k loc :
  foldl (placeFile p) m l !! k = Some loc → m !! k = Some loc ∨
    ∃ k', (k', loc) ∈ l ∧ k = MkFileKey (PathJoin [p; fk_SubRepoPath k']) (fk_Path k') (fk_ID k').
Proof.
  revert m. induction l as [|[k' loc'] l IH]; intros m; [auto|]. simpl. intros [Hm|(k2 & Hk2 & ->)]%IH.
  - unfold placeFile in Hm. simpl in Hm. apply lookup_insert_Some in Hm as [[<- <-]|[_ Hm]]; [|auto]. right. exists k'. split; [constructor|done].
  - right. exists k2. split; [by constructor|done].
Qed.
Lemma placeFiles_keeps p m (l : list (fileKey * BlobLocation R)) k : is_Some (m !! k) → is_Some (foldl (placeFile p) m l !! k).
Proof.
  revert m. induction l as [|kl l IH]; intros m Hm; [done|]. simpl. apply IH. unfold placeFile. rewrite lookup_insert_is_Some'. auto.
Qed.
Lemma placeFiles_all p m (l : list (fileKey * BlobLocation R)) k loc : (k, loc) ∈ l →
  is_Some (foldl (placeFile p) m l !! MkFileKey (PathJoin [p; fk_SubRepoPath k]) (fk_Path k) (fk_ID k)).
Proof.
  revert m. induction l as [|[k' loc'] l IH]; intros m; [by intros ?%not_elem_of_nil|]. simpl.
  intros [[= <- <-]|Hl]%elem_of_cons; [|by apply IH]. apply placeFiles_keeps. unfold placeFile. simpl. rewrite lookup_insert_is_Some'. auto.
Qed.

(** *** One entry *)

Section Entries.
Context (base : bytes) (steps d : nat) (sub : R → list TreeEntry → bytes → M (option (RepoCache R)) files).
Context (r : R) (t : list TreeEntry) (url : bytes).

(** What TreeToFiles answers for a tree: its files, or an error when .gitmodules is broken. *)
Definition answers (r : R) (t : list TreeEntry) (url : bytes) (x : res files) : Prop :=
  match x with
  | Ok (fs, _) => is_Some (modulesOf r t) ∧ (∀ k loc, fs !! k = Some loc → provides base r t url k loc) ∧
      (∀ k loc, provides base r t url k loc → is_Some (fs !! k))
  | Err _ => modulesOf r t = None
  | _ => False
  end.
Context (Hsub : ∀ r t url rc, walkable base steps d r t url → rcOK base rc →
  ∃ x rc', sub r t url (Some rc) = (x, Some rc') ∧ rcOK base rc' ∧ answers r t url x).

Record walkerOK (w : RW) : Prop := {
  wo_repo : rw_repo w = r;
  wo_url : rw_repoURL w = urlParse url;
  wo_modules : modulesOf r t = Some (rw_submodules w);
  wo_cache : ∃ rc, rw_repoCache w = Some rc ∧ rcOK base rc }.

Definition addsFile (p : bytes) (e : TreeEntry) (k : fileKey) (loc : BlobLocation R) : Prop :=
  isFile e = true ∧ k = MkFileKey [] p (te_Hash e) ∧ loc = MkBlobLocation r (urlParse url).
Definition addsSub (p id : bytes) (k : fileKey) (loc : BlobLocation R) : Prop :=
  ∃ u r' t' k', submoduleAt base r t url p id u r' t' ∧ provides base r' t' (urlString u) k' loc ∧
    k = MkFileKey (PathJoin [p; fk_SubRepoPath k']) (fk_Path k') (fk_ID k').
(** The files grow by those that satisfy [P]. *)
Definition grows (P : fileKey → BlobLocation R → Prop) (w w' : RW) : Prop :=
  (∀ k loc, rw_tree w' !! k = Some loc → rw_tree w !! k = Some loc ∨ P k loc) ∧
  (∀ k, is_Some (rw_tree w !! k) ∨ (∃ loc, P k loc) → is_Some (rw_tree w' !! k)).

Lemma submodule_unique p id u r1 t1 u' r2 t2 :
  submoduleAt base r t url p id u r1 t1 → submoduleAt base r t url p id u' r2 t2 → u = u' ∧ r1 = r2 ∧ t1 = t2.
Proof.
  intros (m1 & s1 & h1 & Hm1 & Hs1 & Hu1 & Ho1 & Hc1 & Ht1) (m2 & s2 & h2 & Hm2 & Hs2 & Hu2 & Ho2 & Hc2 & Ht2).
  assert (u = u') as -> by (assert (s1 = s2) as -> by congruence; congruence).
  assert (r1 = r2) as -> by congruence. split_and!; congruence.
Qed.

Lemma grows_none (P : fileKey → BlobLocation R → Prop) w w' : rw_tree w' = rw_tree w → (∀ k loc, ¬ P k loc) → grows P w w'.
Proof. intros E HP. split; rewrite E; [auto|]. intros k [?|[loc ?%HP]]; done. Qed.

Lemma handleSubmodule_ok p id w : walkerOK w →
  (∀ u r' t', submoduleAt base r t url p id u r' t' → walkable base steps d r' t' (urlString u)) →
  ∃ x w', handleSubmodule urlParse urlString PlainOpen sub p id w = (x, w') ∧ settled x ∧ walkerOK w' ∧ grows (addsSub p id) w w'.
Proof.
  intros Hw Hwalk. pose proof Hw as [Hr Hu Hm (rc & Hc & Hrc)].
  assert (∀ w', walkerOK w' → rw_tree w' = rw_tree w → (∀ u r' t', ¬ submoduleAt base r t url p id u r' t') → grows (addsSub p id) w w') as Hstop.
  { intros w' _ E Hno. apply grows_none; [done|]. intros k loc (u & r' & t' & k' & Hs & _). by apply Hno in Hs. }
  unfold handleSubmodule, mbind, M_bind, gets, lift, modify, openSub, inSub, Datatypes.id.
  destruct (rw_submodules w !! p) as [sm|] eqn:Esm; cbn [orErr].
  2: { eexists _, w. split_and!; try done. apply Hstop; try done. intros u r' t' (mods & s & h & ? & ? & _). congruence. }
  assert (subURL urlParse w (sm_URL sm) = subURL urlParse (newRepoWalker urlParse r url None) (sm_URL sm)) as ->.
  { unfold subURL. by rewrite Hu. }
  destruct (subURL _ _ (sm_URL sm)) as [u|e| |] eqn:Eu.
  2: { eexists _, w. split_and!; try done. apply Hstop; try done. intros u' r' t' (mods & s & h & ? & ? & ? & _). congruence. }
  2,3: exfalso; revert Eu; unfold subURL; repeat case_match; congruence.
  rewrite Hc. destruct (Open_ok base u rc Hrc) as (rc1 & Hrc1 & ->).
  destruct (PlainOpen (PathJoin [base; repoKey u])) as [r'|] eqn:Eo; cbn [orErr].
  2: { eexists _, _. split_and!; try done; [by split; [..|exists rc1]|]. apply Hstop; [by split; [..|exists rc1]|done|].
       intros u' r' t' (mods & s & h & ? & ? & ? & ? & _). congruence. }
  assert (walkerOK (set_repoCache (Some rc1) w)) as Hw1 by (split; [done..|by exists rc1]).
  destruct (CommitObject r' id) as [h|] eqn:Eh; cbn [orErr].
  2: { eexists _, _. split_and!; try done. apply Hstop; try done. intros u' r2 t' (mods & s & h & ? & ? & ? & ? & ? & _). congruence. }
  destruct (TreeObject r' h) as [t'|] eqn:Et; cbn [orErr].
  2: { eexists _, _. split_and!; try done. apply Hstop; try done. intros u' r2 t' (mods & s & h' & ? & ? & ? & ? & ? & ?). congruence. }
  assert (submoduleAt base r t url p id u r' t') as Hat by (by exists (rw_submodules w), sm, h).
  cbn [rw_repoCache set_repoCache set_subRepoVersions].
  destruct (Hsub r' t' (urlString u) rc1 (Hwalk u r' t' Hat) Hrc1) as (x & rc2 & -> & Hrc2 & Hx).
  destruct x as [[fs vs]|e| |]; [| |done|done].
  - destruct Hx as (_ & Hx1 & Hx2). eexists _, _. split; [done|]. split; [done|]. split; [split; [done..|by exists rc2]|]. split; simpl.
    + intros k loc Hk. apply placeFiles_elem in Hk as [?|(k' & Hk' & ->)]; [by left|]. right. apply elem_of_map_to_list in Hk'.
      exists u, r', t', k'. auto.
    + intros k [Hk|(loc & u2 & r2 & t2 & k' & Hat2 & Hp & ->)]; [by apply placeFiles_keeps|].
      destruct (submodule_unique _ _ _ _ _ _ _ _ Hat Hat2) as (<- & <- & <-). destruct (Hx2 _ _ Hp) as [loc' Hloc].
      eapply placeFiles_all. by apply elem_of_map_to_list.
  - eexists _, _. split; [done|]. split; [done|]. split; [split; [done..|by exists rc2]|]. apply grows_none; [done|].
    intros k loc (u2 & r2 & t2 & k' & Hat2 & Hp & _). destruct (submodule_unique _ _ _ _ _ _ _ _ Hat Hat2) as (<- & <- & <-).
    simpl in Hx. inversion Hp; subst; [congruence|].
    match goal with Hs : submoduleAt _ _ _ _ _ _ _ _ _ |- _ => destruct Hs as (? & ? & ? & ? & _) end. congruence.
Qed.

Definition addsEntry (p : bytes) (e : TreeEntry) (k : fileKey) (loc : BlobLocation R) : Prop :=
  addsFile p e k loc ∨ te_Mode e = mode_Submodule ∧ addsSub p (te_Hash e) k loc.
Lemma grows_trans P Q w1 w2 w3 : grows P w1 w2 → grows Q w2 w3 → grows (λ k loc, P k loc ∨ Q k loc) w1 w3.
Proof.
  intros [H1 H2] [H3 H4]. split.
  - intros k loc [Hk|?]%H3; [|auto]. destruct (H1 _ _ Hk); auto.
  - intros k Hk. apply H4. destruct Hk as [Hk|[loc [Hk|Hk]]]; [left; apply H2; auto|left; apply H2; eauto|eauto].
Qed.
Lemma grows_iff (P Q : fileKey → BlobLocation R → Prop) w w' : (∀ k loc, P k loc ↔ Q k loc) → grows P w w' → grows Q w w'.
Proof.
  intros E [H1 H2]. split; [intros k loc Hk; rewrite <- E; auto|]. intros k Hk. apply H2. destruct Hk as [?|[loc ?]]; [auto|]. right. exists loc. by apply E.
Qed.

Lemma handleEntry_ok p e w : walkerOK w →
  (te_Mode e = mode_Submodule → ∀ u r' t', submoduleAt base r t url p (te_Hash e) u r' t' → walkable base steps d r' t' (urlString u)) →
  ∃ w', handleEntry urlParse urlString PlainOpen sub p e w = (Ok (), w') ∧ walkerOK w' ∧ grows (addsEntry p e) w w'.
Proof.
  intros Hw Hwalk. pose proof Hw as [_ _ _ (rc & Hc & _)].
  assert (∃ w1, (if (te_Mode e =? mode_Submodule) && bool_decide (is_Some (rw_repoCache w))
            then tryHandleSubmodule urlParse urlString PlainOpen sub p (te_Hash e) else mret ()) w = (Ok (), w1) ∧ walkerOK w1 ∧
          grows (λ k loc, te_Mode e = mode_Submodule ∧ addsSub p (te_Hash e) k loc) w w1) as (w1 & E1 & Hw1 & Hg1).
  { rewrite Hc, (bool_decide_true (is_Some (Some rc))), andb_true_r by done. destruct (Z.eqb_spec (te_Mode e) mode_Submodule) as [Em|Em].
    - destruct (handleSubmodule_ok p (te_Hash e) w Hw (Hwalk Em)) as (x & w1 & E & Hx & Hw1 & Hg). exists w1.
      unfold tryHandleSubmodule, recover. rewrite E. split; [by destruct x as [[]| | |]|]. split; [done|].
      eapply grows_iff; [|exact Hg]. tauto.
    - exists w. split; [done|]. split; [done|]. apply grows_none; [done|]. tauto. }
  unfold handleEntry, mbind, M_bind, gets, modify, Datatypes.id. rewrite E1. pose proof Hw1 as [Hr1 Hu1 Hm1 Hc1].
  change ((te_Mode e =? mode_Regular) || (te_Mode e =? mode_Executable)) with (isFile e). destruct (isFile e) eqn:Ef.
  - eexists. split; [done|]. split; [by split|]. rewrite Hr1, Hu1.
    eapply grows_iff; [|eapply grows_trans; [exact Hg1|]]; [intros k loc; unfold addsEntry; apply or_comm|]. split; simpl.
    + intros k loc [[<- <-]|[_ Hk]]%lookup_insert_Some; [right; by split|by left].
    + intros k Hk. rewrite lookup_insert_is_Some'. destruct Hk as [?|(loc & _ & -> & _)]; auto.
  - exists w1. split; [done|]. split; [done|]. eapply grows_iff; [|exact Hg1]. intros k loc. unfold addsEntry, addsFile. rewrite Ef. naive_solver.
Qed.

Lemma treeLoop_ok fuel st c l b w : pending r st c l → isBase b c → (length l < fuel)%nat → walkerOK w →
  (∀ p e, (p, e) ∈ l → te_Mode e = mode_Submodule → ∀ u r' t', submoduleAt base r t url (Join [47] p) (te_Hash e) u r' t' →
     walkable base steps d r' t' (urlString u)) →
  ∃ w', treeLoop urlParse urlString PlainOpen sub fuel (MkWalker st b) w = (Ok (), w') ∧ walkerOK w' ∧
    grows (λ k loc, ∃ p e, (p, e) ∈ l ∧ addsEntry (Join [47] p) e k loc) w w'.
Proof.
  revert st c l b w. induction fuel as [|fuel IH]; intros st c l b w Hp Hb Hf Hw Hwalk; [lia|].
  cbn [treeLoop w_stack w_base]. rewrite (wo_repo _ Hw). pose proof (Next_pending r st c l b Hp Hb) as HN.
  destruct l as [|[p e] l].
  - destruct HN as [tw ->]. exists w. split; [done|]. split; [done|]. apply grows_none; [done|]. intros k loc (p & e & ?%not_elem_of_nil & _). done.
  - destruct HN as (st' & b' & c' & -> & Hp' & Hb'). destruct (handleEntry_ok (Join [47] p) e w Hw) as (w1 & E1 & Hw1 & Hg1).
    { apply Hwalk. constructor. }
    destruct (IH st' c' l b' w1) as (w2 & E2 & Hw2 & Hg2); [done|done|simpl in Hf; lia|done|intros p' e' Hin; apply Hwalk; by constructor|].
    exists w2. unfold mbind, M_bind. rewrite E1. unfold mbind, M_bind in E2. rewrite E2. split; [done|]. split; [done|].
    eapply grows_iff; [|eapply grows_trans; [exact Hg1|exact Hg2]]. intros k loc. split.
    + intros [?|(p' & e' & ? & ?)]; [exists p, e; split; [constructor|done]|exists p', e'; split; [by constructor|done]].
    + intros (p' & e' & [[= -> ->]|?]%elem_of_cons & ?); [by left|right; by exists p', e'].
Qed.
End Entries.

Lemma provides_listing base r t url n l mods k loc : listing r n [] t l → modulesOf r t = Some mods →
  provides base r t url k loc ↔ ∃ p e, (p, e) ∈ l ∧ addsEntry base r t url (Join [47] p) e k loc.
Proof.
  intros Hl Hm. split.
  - destruct 1 as [r t url n' l' p e mods' _ Hl' Hin Hf|r t url n' l' p e u r' t' k loc Hl' Hin Hme Hat Hp];
      rewrite (listing_unique _ _ _ _ _ Hl _ _ Hl') in Hin; exists p, e; (split; [done|]).
    + left. by split.
    + right. split; [done|]. by exists u, r', t', k.
  - intros (p & e & Hin & [(Hf & -> & ->)|(Hme & u & r' & t' & k' & Hat & Hp & ->)]).
    + by eapply pv_file.
    + by eapply pv_sub.
Qed.

(** TreeToFiles answers, for every tree that can be walked. *)
Lemma TreeToFiles_ok base steps depth r t url rc : walkable base steps depth r t url → rcOK base rc →
  ∃ x rc', TreeToFiles urlParse urlString PlainOpen decode depth steps r t url (Some rc) = (x, Some rc') ∧ rcOK base rc' ∧ answers base r t url x.
Proof.
  revert r t url rc. induction depth as [|d IH]; intros r t url rc Hw Hrc; [by inversion Hw|].
  inversion Hw as [d' r0 t0 url0 n l Hl Hn Hlen Hsubs]; subst. cbn [TreeToFiles]. unfold mbind, M_bind at 1.
  assert (∀ mods, modulesOf r t = Some mods → ∃ x rc',
    (let '(res, rw) := treeLoop urlParse urlString PlainOpen (TreeToFiles urlParse urlString PlainOpen decode d steps) steps (NewTreeWalker t)
                         (set_submodules mods (newRepoWalker urlParse r url (Some rc))) in
     ((λ _ : (), (rw_tree rw, rw_subRepoVersions rw)) <$> res, rw_repoCache rw)) = (x, Some rc') ∧ rcOK base rc' ∧ answers base r t url x) as Hgo.
  { intros mods Hm. destruct (treeLoop_ok base steps d (TreeToFiles urlParse urlString PlainOpen decode d steps) r t url IH steps [t] [] l []
      (set_submodules mods (newRepoWalker urlParse r url (Some rc)))) as (w' & E & [_ _ _ (rc' & Hc & Hrc')] & Hg1 & Hg2);
      [by eapply pend_root|by right|done|split; [done|done|done|by exists rc]|intros p e Hin Hme u r' t'; by apply Hsubs|].
    unfold NewTreeWalker. rewrite E. eexists _, rc'. rewrite Hc. split; [done|]. split; [done|]. simpl. split_and!.
    - by exists mods.
    - intros k loc Hk. apply (provides_listing _ _ _ _ _ _ _ _ _ Hl Hm). destruct (Hg1 k loc Hk) as [Hk'|?]; [|done].
      simpl in Hk'. by rewrite lookup_empty in Hk'.
    - intros k loc Hp. apply Hg2. right. exists loc. by apply (provides_listing _ _ _ _ _ _ _ _ _ Hl Hm). }
  unfold modulesOf in Hgo. unfold parseModuleMap, ParseGitModules. cbn [rw_repo newRepoWalker].
  destruct (treeFile r t (str ".gitmodules")) as [b|] eqn:Eb; [|by apply Hgo].
  assert (∀ e, modulesOf r t = None → ∃ x rc', ((λ _ : (), (rw_tree (newRepoWalker urlParse r url (Some rc)), rw_subRepoVersions (newRepoWalker urlParse r url (Some rc))))
    <$> Err e, rw_repoCache (newRepoWalker urlParse r url (Some rc))) = (x, Some rc') ∧ rcOK base rc' ∧ answers base r t url x) as Hbad.
  { intros e Hm. eexists _, rc. split; [done|]. split; [done|]. exact Hm. }
  unfold modulesOf in Hbad. rewrite Eb in Hbad. destruct (blob_Reader b) as [c|]; [|by apply Hbad]. cbn [mbind option_bind] in *.
  destruct (decode c) as [secs|]; [|by apply Hbad]. by apply Hgo.
Qed.
End Files.

(** ** Names of files, each once *)

Fixpoint dedup (last : option bytes) (l : list bytes) : list bytes :=
  match l with
  | [] => []
  | s :: l => if bool_decide (last = Some s) then dedup (Some s) l else s :: dedup (Some s) l
  end.
Lemma uniq_dedup ss : uniq ss = dedup None ss.
Proof.
  unfold uniq. assert (∀ ss acc last, fst (foldl uniqLoop (acc, last) ss) = acc ++ dedup last ss) as ->; [|done].
  clear. induction ss as [|s ss IH]; intros acc last; simpl; [by rewrite app_nil_r|].
  change (uniqLoop (acc, last) s) with (if bool_decide (last = Some s) then acc else acc ++ [s], Some s). rewrite IH. case_bool_decide; [done|].
  by rewrite <- app_assoc.
Qed.
Lemma elem_of_dedup last l x : x ∈ dedup last l → x ∈ l.
Proof.
  revert last. induction l as [|s l IH]; intros last; [done|]. simpl. rewrite elem_of_cons. case_bool_decide; [eauto|].
  rewrite elem_of_cons. intros [?|?]; eauto.
Qed.
Lemma dedup_complete last l x : x ∈ l → last ≠ Some x → x ∈ dedup last l.
Proof.
  revert last. induction l as [|s l IH]; intros last; [by intros ?%not_elem_of_nil|]. rewrite elem_of_cons. intros Hx Hl. simpl.
  destruct (decide (x = s)) as [->|Hne].
  - rewrite bool_decide_false by done. constructor.
  - destruct Hx as [?|Hx]; [done|]. assert (x ∈ dedup (Some s) l) by (apply IH; [done|congruence]). case_bool_decide; [done|by constructor].
Qed.
#[local] Abbreviation ordered := (StronglySorted (not_less string_less)).
Lemma dedup_first last l : ordered (last :: l) → last ∉ dedup (Some last) l.
Proof.
  intros [Hs Hl]%StronglySorted_inv. revert Hs Hl. induction l as [|s l IH]; intros Hs Hl; [by intros ?%not_elem_of_nil|].
  apply StronglySorted_inv in Hs as [Hs Hsl]. apply Forall_cons in Hl as [Hls Hl]. simpl. case_bool_decide as E.
  - injection E as <-. by apply IH.
  - rewrite not_elem_of_cons. split; [congruence|]. intros Hin%elem_of_dedup. apply E. f_equal.
    rewrite Forall_forall in Hsl. specialize (Hsl _ Hin). by apply string_less_total.
Qed.
Lemma dedup_sorted last l : ordered l → ordered (dedup last l) ∧ NoDup (dedup last l).
Proof.
  revert last. induction l as [|s l IH]; intros last Hs; [split; constructor|].
  pose proof Hs as [Hs' Hl]%StronglySorted_inv. destruct (IH (Some s) Hs') as [H1 H2]. simpl. case_bool_decide; [done|]. split.
  - constructor; [done|]. rewrite Forall_forall in Hl |- *. intros x Hx%elem_of_dedup. auto.
  - constructor; [by apply dedup_first|done].
Qed.

(** uniq keeps each element of a sorted list once. *)
Lemma uniq_ok l : ordered l → ordered (uniq l) ∧ NoDup (uniq l) ∧ ∀ x, x ∈ uniq l ↔ x ∈ l.
Proof.
  intros Hs. rewrite uniq_dedup. destruct (dedup_sorted None l Hs) as [H1 H2]. split_and!; [done|done|].
  intros x. split; [apply elem_of_dedup|]. intros Hx. by apply dedup_complete.
Qed.

Section Documents.
Context {R : Type} `{GitRepo R} `{SortAlg}.

(** Every key once, in the order of the names. *)
Lemma indexKeys_ok (c : collected (R := R)) :
  NoDup (indexKeys c) ∧ (∀ k, k ∈ indexKeys c ↔ is_Some (co_repos c !! k)) ∧ ordered (FullPath <$> indexKeys c).
Proof.
  unfold indexKeys. destruct (uniq_ok (go_sort string_less (fileNames c))) as (Ho & Hnd & Hin); [apply go_sort_strongly, string_less_weak|].
  assert (∀ n k, k ∈ fileKeys c n ↔ FullPath k = n ∧ is_Some (co_repos c !! k)) as Hk.
  { intros n k. unfold fileKeys. rewrite list_elem_of_filter, list_elem_of_fmap. split; intros [? Hk]; (split; [done|]).
    - destruct Hk as ([k' l] & -> & Hk%elem_of_map_to_list). by exists l.
    - destruct Hk as [l Hk]. exists (k, l). split; [done|]. by apply elem_of_map_to_list. }
  assert (∀ k, k ∈ mjoin (fileKeys c <$> uniq (go_sort string_less (fileNames c))) ↔ is_Some (co_repos c !! k)) as Hall.
  { intros k. rewrite list_elem_of_join. split.
    - intros (l & Hkl & (n & -> & _)%list_elem_of_fmap). by apply Hk in Hkl as [_ ?].
    - intros Hs. exists (fileKeys c (FullPath k)). split; [by apply Hk|]. apply list_elem_of_fmap. exists (FullPath k). split; [done|].
      rewrite Hin, go_sort_perm. unfold fileNames. destruct Hs as [loc Hs]. apply list_elem_of_fmap. exists (k, loc). split; [done|].
      by apply elem_of_map_to_list. }
  split_and!; [|done|].
  - clear Hall Hin Ho. induction Hnd as [|n ns Hn _ IH]; [constructor|]. rewrite fmap_cons, mjoin_cons. apply NoDup_app. split_and!; [| |done].
    + unfold fileKeys. apply NoDup_filter, NoDup_fst_map_to_list.
    + intros k [<- _]%Hk (l & Hkl & (n' & -> & Hn')%list_elem_of_fmap)%list_elem_of_join. apply Hk in Hkl as [E _]. congruence.
  - clear Hall Hin Hnd. induction Ho as [|n ns _ IH Hn]; [constructor|]. rewrite fmap_cons, mjoin_cons, fmap_app.
    apply StronglySorted_app. split_and!; [| |done].
    + intros x y (k & -> & [<- _]%Hk)%list_elem_of_fmap (k' & -> & (l & Hkl & (n' & -> & Hn')%list_elem_of_fmap)%list_elem_of_join)%list_elem_of_fmap.
      apply Hk in Hkl as [-> _]. rewrite Forall_forall in Hn. by apply Hn.
    + assert (∀ ks, Forall (λ k, FullPath k = n) ks → ordered (FullPath <$> ks)) as Hsame.
      { induction 1 as [|k ks Hkn Hks IHk]; [constructor|]. simpl. constructor; [done|]. apply Forall_fmap. eapply Forall_impl; [exact Hks|].
        intros k' Hk'. simpl. unfold not_less. rewrite Hkn, Hk'. apply (proj1 string_less_weak). }
      apply Hsame, Forall_forall. by intros k [? _]%Hk.
Qed.

(** *** What the branches hold *)

(** The collection is that of the branches [fs], with their files. *)
Record collectedOK (fs : list (bytes * gmap fileKey (BlobLocation R))) (c : collected (R := R)) : Prop := {
  ck_repos : ∀ k, is_Some (co_repos c !! k) ↔ ∃ bf, bf ∈ fs ∧ is_Some (snd bf !! k);
  ck_location : ∀ k loc, co_repos c !! k = Some loc → ∃ bf, bf ∈ fs ∧ snd bf !! k = Some loc;
  ck_branches : ∀ k, default [] (co_branchMap c !! k) = fst <$> filter (λ bf, is_Some (snd bf !! k)) fs }.

Lemma addFiles_lookup b files (c : collected (R := R)) k :
  co_repos (addFiles b files c) !! k = (match files !! k with Some l => Some l | None => co_repos c !! k end) ∧
  co_branchMap (addFiles b files c) !! k =
    (match files !! k with Some _ => Some (default [] (co_branchMap c !! k) ++ [b]) | None => co_branchMap c !! k end) ∧
  co_branches (addFiles b files c) = co_branches c.
Proof.
  unfold addFiles. rewrite <- (list_to_map_to_list files) at 2 4. pose proof (NoDup_fst_map_to_list files) as Hnd.
  induction (map_to_list files) as [|[k' l] xs IH] in c, Hnd |- *; [simpl; by rewrite lookup_empty|].
  apply NoDup_cons in Hnd as [Hk' Hnd]. cbn [foldl fst snd list_to_map foldr]. destruct (IH (MkCollected (co_branches c) (<[k' := l]> (co_repos c))
    (<[k' := default [] (co_branchMap c !! k') ++ [b]]> (co_branchMap c)) (co_branchVersions c)) Hnd) as (-> & -> & ->). simpl.
  destruct (decide (k = k')) as [->|Hne].
  - rewrite !lookup_insert_eq. rewrite (not_elem_of_list_to_map_1 xs k') by done. done.
  - by rewrite !(lookup_insert_ne _ k' k) by done.
Qed.
Lemma addFiles_ok fs c b files : collectedOK fs c → collectedOK (fs ++ [(b, files)]) (addFiles b files c).
Proof.
  intros [H1 H2 H3]. split.
  - intros k. destruct (addFiles_lookup b files c k) as (-> & _ & _). split.
    + destruct (files !! k) as [l|] eqn:E.
      * intros _. exists (b, files). split; [apply elem_of_app; right; constructor|]. simpl. by rewrite E.
      * intros (bf & ? & ?)%H1. exists bf. split; [|done]. apply elem_of_app. auto.
    + intros (bf & [Hin|Hin]%elem_of_app & Hk); [|apply list_elem_of_singleton in Hin as ->; simpl in Hk; destruct (files !! k); [done|by destruct Hk]].
      destruct (files !! k); [done|]. apply H1. by exists bf.
  - intros k loc. destruct (addFiles_lookup b files c k) as (-> & _ & _). destruct (files !! k) as [l|] eqn:E.
    + intros [= <-]. exists (b, files). split; [apply elem_of_app; right; constructor|done].
    + intros (bf & ? & ?)%H2. exists bf. split; [|done]. apply elem_of_app. auto.
  - intros k. destruct (addFiles_lookup b files c k) as (_ & -> & _). rewrite filter_app, fmap_app, filter_cons, filter_nil. simpl.
    destruct (files !! k) as [l|] eqn:E.
    + rewrite decide_True by done. simpl. by rewrite H3.
    + rewrite decide_False by (by intros []). simpl. by rewrite app_nil_r.
Qed.
Lemma addBranch_ok fs c b sha1 files vs : collectedOK fs c → collectedOK (fs ++ [(b, files)]) (addBranch b sha1 files vs c).
Proof. intros [H1 H2 H3]%(addFiles_ok _ _ b files). by split. Qed.
Lemma addBranch_names b sha1 files vs (c : collected (R := R)) :
  br_Name <$> co_branches (addBranch b sha1 files vs c) = (br_Name <$> co_branches c) ++ [b].
Proof. unfold addBranch. simpl. destruct (addFiles_lookup b files c (MkFileKey [] [] [])) as (_ & _ & ->). by rewrite fmap_app. Qed.

Context (urlParse : bytes → option URL) (urlString : URL → bytes).
Context (PlainOpen : bytes → option R) (decode : bytes → option (list ConfigSection)) (depth steps : nat).
Context (repo : R) (o : GitOptions) (url : bytes).
#[local] Abbreviation provided := (provides urlParse urlString PlainOpen decode (go_RepoCacheDir o)).

(** The commit of a branch is skipped when the branch is missing and that is allowed. *)
Definition present (b : bytes) : Prop := go_AllowMissingBranch o && isMissingBranchError (getCommit repo (go_BranchPrefix o) b) = false.
#[global] Instance present_dec b : Decision (present b).
Proof. unfold present. apply _. Defined.
(** [files] are those of the tree of the branch [b]. *)
Definition branchFiles (bf : bytes * gmap fileKey (BlobLocation R)) : Prop :=
  ∃ sha1 h t, getCommit repo (go_BranchPrefix o) (fst bf) = Ok (sha1, h) ∧ TreeObject repo h = Some t ∧
    (∀ k loc, snd bf !! k = Some loc → provided repo t url k loc) ∧ (∀ k loc, provided repo t url k loc → is_Some (snd bf !! k)).
Context (Hwalk : ∀ b sha1 h t, getCommit repo (go_BranchPrefix o) b = Ok (sha1, h) → TreeObject repo h = Some t →
  walkable urlParse urlString PlainOpen decode (go_RepoCacheDir o) steps depth repo t url).

Lemma getCommit_settled b : settled (getCommit repo (go_BranchPrefix o) b).
Proof. unfold getCommit. by destruct (ResolveRevision _ _); [destruct (ResolveRevision _ _)|]; cbn [mbind res_bind]; try destruct (CommitObject _ _). Qed.

Lemma collectBranches_ok bs fs c rc : collectedOK fs c → rcOK PlainOpen (go_RepoCacheDir o) rc →
  match collectBranches urlParse urlString PlainOpen decode depth steps repo o url bs c (Some rc) with
  | Ok c' => ∃ fs', collectedOK (fs ++ fs') c' ∧ Forall branchFiles fs' ∧ fst <$> fs' = filter present bs ∧
      br_Name <$> co_branches c' = (br_Name <$> co_branches c) ++ (fst <$> fs')
  | Err _ => True
  | _ => False
  end.
Proof.
  revert fs c rc. induction bs as [|b bs IH]; intros fs c rc Hc Hrc; cbn [collectBranches].
  { exists []. rewrite !app_nil_r. by split_and!. }
  unfold collectBranch. rewrite filter_cons. destruct (go_AllowMissingBranch o && isMissingBranchError (getCommit repo (go_BranchPrefix o) b)) eqn:Em.
  { rewrite decide_False by (unfold present; by rewrite Em). cbn [mbind res_bind]. by apply IH. }
  rewrite decide_True by done. pose proof (getCommit_settled b) as Hset.
  destruct (getCommit repo (go_BranchPrefix o) b) as [[sha1 h]| | |] eqn:Eg; cbn [mbind res_bind]; try done.
  destruct (TreeObject repo h) as [t|] eqn:Et; cbn [orErr mbind res_bind]; [|done].
  destruct (TreeToFiles_ok urlParse urlString PlainOpen decode _ _ _ _ _ _ rc (Hwalk b sha1 h t Eg Et) Hrc) as (x & rc' & -> & Hrc' & Hx).
  destruct x as [[files vs]| | |]; cbn [mbind res_bind]; try done. destruct Hx as (_ & Hx1 & Hx2).
  specialize (IH (fs ++ [(b, files)]) (addBranch b sha1 files vs c) rc' (addBranch_ok _ _ _ _ _ _ Hc) Hrc').
  destruct (collectBranches _ _ _ _ _ _ _ _ _ _ _ _) as [c'| | |]; try done.
  destruct IH as (fs' & Hc' & Hfs & E1 & E2). exists ((b, files) :: fs'). rewrite <- app_assoc in Hc'. split_and!; [done| | |].
  - constructor; [by exists sha1, h, t|done].
  - by rewrite fmap_cons, E1.
  - by rewrite E2, addBranch_names, <- app_assoc.
Qed.

Lemma provides_url (Hurl : ∀ u, is_Some (urlParse (urlString u))) base r t u k loc :
  provides urlParse urlString PlainOpen decode base r t u k loc → is_Some (urlParse u) ∨ fk_SubRepoPath k ≠ [] → is_Some (bl_URL loc).
Proof.
  induction 1 as [r t u n l p e mods _ _ _ _|r t u n l p e u' r' t' k loc _ _ _ _ _ IH]; simpl.
  - intros [?|?]; done.
  - intros _. apply IH. left. apply Hurl.
Qed.
End Documents.

(** ** Walks that do not end *)

Section Deep.
Context {R : Type} `{GitRepo R}.
Context (urlParse : bytes → option URL) (urlString : URL → bytes).
Context (PlainOpen : bytes → option R) (decode : bytes → option (list ConfigSection)).

(** A path of [n] directories below a tree, behind whatever other entries. *)
Inductive deeper (repo : R) : nat → list TreeEntry → Prop :=
| deeper_any t : deeper repo 0 t
| deeper_dir n es e t : e ∈ es → te_Mode e = mode_Dir → TreeObject repo (te_Hash e) = Some t → deeper repo n t → deeper repo (S n) es.
(** The objects of all directories below a tree are there. *)
Inductive complete (repo : R) : list TreeEntry → Prop :=
| complete_nil : complete repo []
| complete_leaf e es : te_Mode e ≠ mode_Dir → complete repo es → complete repo (e :: es)
| complete_dir e es t : te_Mode e = mode_Dir → TreeObject repo (te_Hash e) = Some t → complete repo t → complete repo es → complete repo (e :: es).

(** Some directory on the stack leads too deep, and the walk gets there. *)
Definition doomed (repo : R) (stack : list (list TreeEntry)) : Prop :=
  ∃ above it below n, stack = above ++ it :: below ∧ deeper repo n it ∧ Z.of_nat n + lenZ below = maxTreeDepth + 1 ∧
    Forall (complete repo) (above ++ [it]).

Lemma doomed_Next repo stack base : doomed repo stack → ∃ stack' base', doomed repo stack' ∧
  (Next repo stack base = (WErr, MkWalker stack' base') ∨ ∃ name e, Next repo stack base = (WEntry name e, MkWalker stack' base')).
Proof.
  intros (above & it & below & n & -> & Hd & Hn & Hc). revert base. induction above as [|i above IH]; intros base; cbn [app Next].
  - destruct (Z.ltb_spec maxTreeDepth (lenZ (it :: below) - 1)) as [|Hle]; [exists (it :: below), base; split; [by exists [], it, below, n|by left]|].
    rewrite lenZ_cons in Hle. destruct Hd as [|n es e t He Hm Ht Hd]; [lia|]. cbn [app] in Hc. apply Forall_cons_1 in Hc as [Hc _]. destruct Hc as [|e0 es Hm0 Hes|e0 es t0 Hm0 Ht0 Hct Hes].
    + by apply not_elem_of_nil in He.
    + rewrite (proj2 (Z.eqb_neq _ _)) by done. apply elem_of_cons in He as [->|He]; [done|]. eexists _, base. split; [|right; by eexists _, _].
      exists [], es, below, (S n). split_and!; [done|by eapply deeper_dir|done|by apply Forall_singleton].
    + rewrite (proj2 (Z.eqb_eq _ _)), Ht0 by done. eexists _, _. split; [|right; by eexists _, _]. apply elem_of_cons in He as [->|He].
      * assert (t0 = t) as -> by congruence. exists [], t, (es :: below), n. split_and!; [done|done|rewrite lenZ_cons; lia|by apply Forall_singleton].
      * exists [t0], es, below, (S n). split_and!; [done|by eapply deeper_dir|done|by repeat apply Forall_cons_2].
  - cbn [app] in Hc. apply Forall_cons in Hc as [Hi Hc]. assert (∀ i', Forall (complete repo) i' → doomed repo (i' ++ above ++ it :: below)) as Hdoom.
    { intros i' Hi'. exists (i' ++ above), it, below, n. rewrite <- !app_assoc. split_and!; [done..|]. by apply Forall_app. }
    destruct (Z.ltb_spec maxTreeDepth (lenZ (i :: above ++ it :: below) - 1)); [exists (i :: above ++ it :: below), base; split; [by apply (Hdoom [i]), Forall_singleton|by left]|].
    destruct Hi as [|e0 es Hm0 Hes|e0 es t0 Hm0 Ht0 Hct Hes]; [by apply IH| |].
    + rewrite (proj2 (Z.eqb_neq _ _)) by done. eexists _, _. split; [by apply (Hdoom [es]), Forall_singleton|right; by eexists _, _].
    + rewrite (proj2 (Z.eqb_eq _ _)), Ht0 by done. eexists _, _. split; [by apply (Hdoom [t0; es]); repeat apply Forall_cons_2|right; by eexists _, _].
Qed.

Section Loop.
Context (sub : R → list TreeEntry → bytes → M (option (RepoCache R)) (gmap fileKey (BlobLocation R) * gmap bytes bytes)).
Hypothesis sub_no_panic : ∀ r t url rc y, fst (sub r t url rc) ≠ Panic y.

Lemma handleSubmodule_keeps p id w x w' : is_Some (rw_repoCache w) → handleSubmodule urlParse urlString PlainOpen sub p id w = (x, w') →
  rw_repo w' = rw_repo w ∧ ∀ y, x ≠ Panic y.
Proof using sub_no_panic.
  intros [rc Hrc]. unfold handleSubmodule, mbind, M_bind, gets, lift, openSub, inSub, modify, Datatypes.id. rewrite Hrc.
  destruct (rw_submodules w !! p) as [sm|]; cbn [orErr]; [|by intros [= <- <-]].
  unfold subURL. destruct (rw_repoURL w) as [u0|]; [|by intros [= <- <-]].
  match goal with |- context [if ?b then Ok ?u1 else ?r1] => destruct (if b then Ok u1 else r1) as [u| | |] eqn:Eu end;
    [|by intros [= <- <-]|by repeat case_match|by repeat case_match].
  unfold Open. destruct (match rc_repos rc !! repoKey u with Some _ => _ | None => _ end) as [[r| | |] rc1] eqn:Eo;
    [|by intros [= <- <-]|by repeat case_match|by repeat case_match].
  destruct (CommitObject r id) as [h|]; cbn [orErr]; [|by intros [= <- <-]].
  destruct (TreeObject r h) as [t|]; cbn [orErr]; [|by intros [= <- <-]].
  match goal with |- context [sub ?a ?b ?c ?d] => pose proof (sub_no_panic a b c d) as Hsub; destruct (sub a b c d) as [[fs| | y|] rc2] end;
    [by intros [= <- <-]|by intros [= <- <-]|by destruct (Hsub y)|by intros [= <- <-]].
Qed.

Lemma handleEntry_keeps p e w : ∃ x w', handleEntry urlParse urlString PlainOpen sub p e w = (x, w') ∧ rw_repo w' = rw_repo w ∧ (x = Ok () ∨ x = OutOfFuel).
Proof using sub_no_panic.
  unfold handleEntry, mbind, M_bind, gets, modify, mret, M_ret, Datatypes.id.
  destruct ((te_Mode e =? mode_Submodule) && bool_decide (is_Some (rw_repoCache w))) eqn:Eb.
  - apply andb_true_iff in Eb as [_ Hrc%bool_decide_eq_true_1]. unfold tryHandleSubmodule, recover.
    destruct (handleSubmodule urlParse urlString PlainOpen sub p (te_Hash e) w) as [x w1] eqn:E. destruct (handleSubmodule_keeps _ _ _ _ _ Hrc E) as [Hr Hx].
    destruct x as [[]| |y|]; [| |by destruct (Hx y)|by eexists _, _; split_and!; [done|done|right]].
    all: destruct (_ || _); eexists _, _; split_and!; [done|done|by left|done|done|by left].
  - destruct (_ || _); eexists _, _; split_and!; [done|done|by left|done|done|by left].
Qed.

(** Beyond the limit the walker gives the same error for ever, and the loop overlooks it. *)
Lemma doomed_loop fuel : ∀ stack base w, doomed (rw_repo w) stack →
  fst (treeLoop urlParse urlString PlainOpen sub fuel (MkWalker stack base) w) = OutOfFuel.
Proof using sub_no_panic.
  induction fuel as [|fuel IH]; intros stack base w Hd; [done|]. cbn [treeLoop w_stack w_base].
  destruct (doomed_Next (rw_repo w) stack base Hd) as (stack' & base' & Hd' & [->|(name & e & ->)]); unfold mbind, M_bind.
  - destruct (handleEntry_keeps [] (MkTreeEntry [] mode_Empty []) w) as (x & w' & -> & Hr & [-> | ->]); [|done]. apply IH. by rewrite Hr.
  - destruct (handleEntry_keeps name e w) as (x & w' & -> & Hr & [-> | ->]); [|done]. apply IH. by rewrite Hr.
Qed.

Lemma treeLoop_no_panic fuel : ∀ tw w y, fst (treeLoop urlParse urlString PlainOpen sub fuel tw w) ≠ Panic y.
Proof using sub_no_panic.
  induction fuel as [|fuel IH]; intros tw w y; [done|]. cbn [treeLoop].
  destruct (Next (rw_repo w) (w_stack tw) (w_base tw)) as [[name e| |] tw']; unfold mbind, M_bind; [|done|].
  - destruct (handleEntry_keeps name e w) as (x & w' & -> & _ & [-> | ->]); [apply IH|done].
  - destruct (handleEntry_keeps [] (MkTreeEntry [] mode_Empty []) w) as (x & w' & -> & _ & [-> | ->]); [apply IH|done].
Qed.
End Loop.

Lemma parseModuleMap_returns t w : ∃ x w', parseModuleMap decode t w = (x, w') ∧ rw_repo w' = rw_repo w ∧
  if modulesOf decode (rw_repo w) t then x = Ok () else ∃ e, x = Err e.
Proof.
  unfold parseModuleMap, modulesOf, ParseGitModules. destruct (treeFile _ _ _) as [b|]; [|by eexists _, _].
  destruct (blob_Reader b) as [c|]; simpl; [|by eexists _, _; split_and!; [done|done|eexists]].
  destruct (decode c); simpl; eexists _, _; (split_and!; [done|done|]); [done|by eexists].
Qed.

Lemma TreeToFiles_no_panic depth steps : ∀ r t url rc y, fst (TreeToFiles urlParse urlString PlainOpen decode depth steps r t url rc) ≠ Panic y.
Proof.
  induction depth as [|depth IH]; intros r t url rc y; [done|]. cbn [TreeToFiles]. unfold mbind at 1, M_bind at 1.
  destruct (parseModuleMap_returns t (newRepoWalker urlParse r url rc)) as (x & w' & -> & _ & Hx).
  destruct (modulesOf _ _ _); [subst x|by destruct Hx as [e ->]].
  pose proof (treeLoop_no_panic _ IH steps (NewTreeWalker t) w') as Hl. destruct (treeLoop _ _ _ _ _ _ _) as [[| |y'|] w'']; simpl; try done.
  intros E. injection E as ->. by apply (Hl y).
Qed.
End Deep.

(** ** Properties *)

(** C18: the files of a tree. For a tree whose objects are there, with directories nested at most 1024 deep and
    submodules less than [depth] deep, TreeToFiles returns: an error exactly when .gitmodules cannot be read or parsed, and
    otherwise the regular and executable files of the tree, each with its path and hash, and
    below the path of every submodule that can be opened the files of that submodule, with the
    repository that has their contents; nothing else. The iterator with its stack of directories and the cache of repositories
    do not show. *)
Theorem TreeToFiles_exact {R} `{GitRepo R} (urlParse : bytes → option URL) (urlString : URL → bytes) (PlainOpen : bytes → option R)
    (decode : bytes → option (list ConfigSection)) (dir : bytes) (steps depth : nat) (r : R) (t : list TreeEntry) (url : bytes)
    (Hwalk : walkable urlParse urlString PlainOpen decode dir steps depth r t url) :
  match TreeToFiles urlParse urlString PlainOpen decode depth steps r t url (Some (NewRepoCache dir)) with
  | (Ok (files, _), _) => is_Some (modulesOf decode r t) ∧
      (∀ k loc, files !! k = Some loc → provides urlParse urlString PlainOpen decode dir r t url k loc) ∧
      (∀ k loc, provides urlParse urlString PlainOpen decode dir r t url k loc → is_Some (files !! k))
  | (Err _, _) => modulesOf decode r t = None
  | _ => False
  end.
Proof.
  destruct (TreeToFiles_ok urlParse urlString PlainOpen decode dir steps depth r t url (NewRepoCache dir) Hwalk) as (x & rc' & -> & _ & Hx);
    [split; [done|apply map_Forall_empty]|]. destruct x as [[fs vs]| | |]; exact Hx.
Qed.

(** C39: a tree with a path of more than 1024 directories is never finished, wherever in the tree the path is. The objects of its directories are
    there, and its .gitmodules, if any, can be parsed. Below 1024 directories the walker returns an error that is not
    io.EOF, TreeToFiles overlooks it and calls again, and no number of steps is enough. *)
Theorem deep_tree_diverges {R} `{GitRepo R} (urlParse : bytes → option URL) (urlString : URL → bytes) (PlainOpen : bytes → option R)
    (decode : bytes → option (list ConfigSection)) (depth steps : nat) (r : R) (t : list TreeEntry) (url : bytes) (rc : option (RepoCache R))
    (Hdeep : deeper r 1025 t) (Hall : complete r t) (Hmod : is_Some (modulesOf decode r t)) :
  fst (TreeToFiles urlParse urlString PlainOpen decode depth steps r t url rc) = OutOfFuel.
Proof.
  destruct depth as [|depth]; [done|]. cbn [TreeToFiles]. unfold mbind at 1, M_bind at 1.
  destruct (parseModuleMap_returns decode t (newRepoWalker urlParse r url rc)) as (x & w' & -> & Hr & Hx). simpl in Hr, Hx.
  destruct Hmod as [mods Hmod]. rewrite Hmod in Hx. subst x.
  assert (fst (treeLoop urlParse urlString PlainOpen (TreeToFiles urlParse urlString PlainOpen decode depth steps) steps (MkWalker [t] []) w') = OutOfFuel) as Hl.
  { apply doomed_loop; [apply TreeToFiles_no_panic|]. rewrite Hr. exists [], t, [], 1025%nat. split_and!; [done|done|done|by apply Forall_singleton]. }
  unfold NewTreeWalker. destruct (treeLoop _ _ _ _ _ _ _) as [y w'']. simpl in Hl. by subst y.
Qed.

(** A document for a file in the trees [fs] of the branches: under its full path, with the branches that have it, in order, and
    its contents, or a reason why not when it is too large. *)
Definition documentOf {R} `{GitRepo R} (sizeMax : Z) (fs : list (bytes * gmap fileKey (BlobLocation R))) (k : fileKey) (doc : Document) : Prop :=
  doc_Name doc = FullPath k ∧ doc_SubRepositoryPath doc = fk_SubRepoPath k ∧
  doc_Branches doc = fst <$> filter (λ bf, is_Some (snd bf !! k)) fs ∧
  ∃ bf loc blob, bf ∈ fs ∧ snd bf !! k = Some loc ∧ BlobObject (bl_Repo loc) (fk_ID k) = Some blob ∧
    if sizeMax <? blob_Size blob then doc_Content doc = [] ∧ doc_SkipReason doc ≠ []
    else blob_Reader blob = Some (doc_Content doc) ∧ doc_SkipReason doc = [].

Section IndexFacts.
Context {R : Type} `{GitRepo R} `{SortAlg}.
Lemma keyDocument_ok sizeMax fs (c : collected (R := R)) k : collectedOK fs c → is_Some (co_repos c !! k) →
  match keyDocument sizeMax c k with Ok doc => documentOf sizeMax fs k doc | Err _ => True | _ => False end.
Proof.
  intros [_ Hl Hb] [loc Hk]. unfold keyDocument. rewrite Hk. destruct (BlobObject _ _) as [blob|] eqn:Eb; cbn [orErr mbind res_bind]; [|done].
  destruct (Hl k loc Hk) as (bf & Hbf & Hloc). destruct (sizeMax <? blob_Size blob) eqn:Es.
  - split_and!; [done|done|apply Hb|]. exists bf, loc, blob. rewrite Es. done.
  - unfold blobContents. destruct (blob_Reader blob) as [x|] eqn:Er; cbn [orErr mbind res_bind]; [|done].
    split_and!; [done|done|apply Hb|]. exists bf, loc, blob. by rewrite Es.
Qed.
Lemma mapM_settled {A B} (f : A → res B) l : (∀ x, x ∈ l → settled (f x)) → settled (mapM f l).
Proof.
  induction l as [|x l IH]; intros Hf; [done|]. apply settled_bind; [apply Hf; constructor|]. intros y _. apply settled_bind; [|done].
  apply IH. intros z Hz. apply Hf. by constructor.
Qed.
Lemma keyDocuments_ok sizeMax fs (c : collected (R := R)) ks : collectedOK fs c → (∀ k, k ∈ ks → is_Some (co_repos c !! k)) →
  match mapM (keyDocument sizeMax c) ks with Ok docs => Forall2 (documentOf sizeMax fs) ks docs | Err _ => True | _ => False end.
Proof.
  intros Hc Hks. assert (settled (mapM (keyDocument sizeMax c) ks)) as Hs.
  { apply mapM_settled. intros k Hk%Hks. pose proof (keyDocument_ok sizeMax fs c k Hc Hk). by destruct (keyDocument _ _ _). }
  destruct (mapM _ _) as [docs| | |] eqn:E; try done. clear Hs. apply mapM_Ok in E. induction E as [|k doc ks docs Hd _ IH]; [constructor|]. constructor.
  - pose proof (keyDocument_ok sizeMax fs c k Hc (Hks k ltac:(constructor))) as Hk. by rewrite Hd in Hk.
  - apply IH. intros k' Hk'. apply Hks. by constructor.
Qed.

Lemma matchBranches_settled (Match : bytes → bytes → option bool) b prefix names : settled (matchBranches Match b prefix names).
Proof.
  induction names as [|n names IH]; [done|]. cbn [matchBranches]. apply settled_bind; [by destruct (Match b n)|]. intros m _.
  by apply settled_bind.
Qed.
Lemma expandBranches_settled (Match : bytes → bytes → option bool) (repo : R) bs prefix : settled (expandBranches Match repo bs prefix).
Proof.
  unfold expandBranches. apply settled_fmap, mapM_settled. intros b _. unfold expandBranch. case_bool_decide; [by destruct (Head repo)|].
  destruct (Contains b [42]); [|done]. apply settled_bind; [by destruct (Branches repo)|]. intros names _. apply matchBranches_settled.
Qed.

Lemma subRepositories_settled urlString desc (c : collected (R := R)) :
  (∀ k loc, co_repos c !! k = Some loc → fk_SubRepoPath k ≠ [] → is_Some (bl_URL loc)) → settled (subRepositories urlString desc c).
Proof.
  intros Hurl. unfold subRepositories. apply settled_bind; [|done]. apply mapM_settled. intros [path loc] Hin%elem_of_map_to_list. simpl.
  apply settled_bind; [|done]. unfold subRepository. case_bool_decide as Hp; [done|].
  assert (∃ k, co_repos c !! k = Some loc ∧ fk_SubRepoPath k = path) as (k & Hk & Ek).
  { assert (∀ (l : list (fileKey * BlobLocation R)) (m : gmap bytes (BlobLocation R)), foldl (λ m kl, <[fk_SubRepoPath (fst kl) := snd kl]> m) m l !! path = Some loc →
      m !! path = Some loc ∨ ∃ k, (k, loc) ∈ l ∧ fk_SubRepoPath k = path) as Hgen.
    { clear. induction l as [|[k loc'] l IH]; intros m; [auto|]. simpl. intros [[[E <-]|[_ Hm]]%lookup_insert_Some|(k' & ? & ?)]%IH; [|auto|].
      - right. exists k. split; [constructor|done].
      - right. exists k'. split; [by constructor|done]. }
    destruct (Hgen _ _ Hin) as [Hm|(k & Hk & Ek)]; [by rewrite lookup_empty in Hm|]. exists k. split; [by apply elem_of_map_to_list|done]. }
  destruct (Hurl k loc Hk) as [u ->]; [congruence|done].
Qed.
End IndexFacts.

(** Options that ask for ctags are refused by NewBuilder. *)
Lemma IndexGitRepo_requires_ctags {R} `{GitRepo R} `{SortAlg} urlParse urlString (PlainOpen : bytes → option R) decode config rankOf validTemplate Match urlName IndexVersions depth steps o :
  op_CTagsMustSucceed (go_BuildOptions o) = true → 0 <= op_Parallelism (go_BuildOptions o) →
  match IndexGitRepo urlParse urlString PlainOpen decode config rankOf validTemplate Match urlName IndexVersions depth steps o with Ok (Some _) => False | _ => True end.
Proof.
  intros Hc Hp. destruct (IndexGitRepo _ _ _ _ _ _ _ _ _ _ _ _ o) as [[[bo docs]|]| | |] eqn:E; try done. unfold IndexGitRepo in E.
  case_bool_decide; [done|]. apply bind_Ok in E as (repo & _ & E). apply bind_Ok in E as (branches & _ & E). apply bind_Ok in E as (c & _ & E). cbv zeta in E.
  destruct (_ && _) in E; [done|]. apply bind_Ok in E as (subs & _ & E). apply bind_Ok in E as (b & Eb & _).
  match type of Eb with NewBuilder _ _ ?bo = _ => destruct (NewBuilder_requires_ctags validTemplate urlName bo) as [e Ee] end; [exact Hc| |congruence].
  unfold set_Description, Build.SetDefaults. cbn [op_Parallelism]. destruct (Z.eqb_spec (op_Parallelism (go_BuildOptions o)) 0); lia.
Qed.

(** C7: the documents of a repository. When the trees of its branches can be walked, IndexGitRepo does not loop, and it panics only when a negative
    number of goroutines is asked for. Unless it fails or
    finds the index up to date, it makes a builder, and the documents it adds to it are, in the order of their names, one for each file (a path, a hash, and the
    submodule it comes from) in the trees of the branches that were asked for and are there: under its full path, with
    exactly the branches that have it, and with its contents, or without them and with a reason when it is larger than
    the limit. *)
Theorem IndexGitRepo_documents {R} `{GitRepo R} `{SortAlg} (urlParse : bytes → option URL) (urlString : URL → bytes) (PlainOpen : bytes → option R)
    (decode : bytes → option (list ConfigSection)) (config : bytes → option GitConfig) (rankOf : Z → Z) (validTemplate : bytes → bool) (Match : bytes → bytes → option bool)
    (urlName : bytes → option bytes) (IndexVersions : Options → list RepositoryBranch) (depth steps : nat) (o : GitOptions) (repo : R) :
  let desc := snd (setTemplatesFromConfig urlParse urlString rankOf (config (go_RepoDir o))
                     (op_RepositoryDescription (Build.SetDefaults urlName (go_BuildOptions o)))) in
  PlainOpen (go_RepoDir o) = Some repo →
  (∀ u, is_Some (urlParse (urlString u))) →
  (∀ b sha1 h t, getCommit repo (go_BranchPrefix o) b = Ok (sha1, h) → TreeObject repo h = Some t →
     walkable urlParse urlString PlainOpen decode (go_RepoCacheDir o) steps depth repo t (r_URL desc)) →
  match IndexGitRepo urlParse urlString PlainOpen decode config rankOf validTemplate Match urlName IndexVersions depth steps o with
  | Ok (Some (bo, docs)) => is_Ok (NewBuilder validTemplate urlName bo) ∧ ∃ branches fs keys, expandBranches Match repo (go_Branches o) (go_BranchPrefix o) = Ok branches ∧
      fst <$> fs = filter (present repo o) branches ∧ Forall (branchFiles urlParse urlString PlainOpen decode repo o (r_URL desc)) fs ∧
      NoDup keys ∧ (∀ k, k ∈ keys ↔ ∃ bf, bf ∈ fs ∧ is_Some (snd bf !! k)) ∧
      Forall2 (documentOf (op_SizeMax bo) fs) keys docs ∧ StronglySorted (not_less string_less) (doc_Name <$> docs) ∧
      br_Name <$> r_Branches (op_RepositoryDescription bo) = (br_Name <$> r_Branches desc) ++ (fst <$> fs)
  | Ok None => go_Incremental o = true
  | Err _ => True
  | Panic _ => op_Parallelism (go_BuildOptions o) < 0
  | OutOfFuel => False
  end.
Proof.
  intros desc Ho Hurl Hwalk. unfold IndexGitRepo. case_bool_decide; [done|]. rewrite Ho. cbn [orErr mbind res_bind]. fold desc.
  pose proof (expandBranches_settled Match repo (go_Branches o) (go_BranchPrefix o)) as Hexp.
  destruct (expandBranches _ _ _ _) as [branches| | |]; cbn [mbind res_bind]; try done.
  pose proof (collectBranches_ok urlParse urlString PlainOpen decode depth steps repo o (r_URL desc) Hwalk branches []
    (MkCollected (r_Branches desc) ∅ ∅ ∅) (NewRepoCache (go_RepoCacheDir o))) as Hcol.
  match type of Hcol with ?A → ?B → _ => assert A as HA; [|assert B as HB by (split; [done|apply map_Forall_empty]); specialize (Hcol HA HB)] end.
  { split; simpl; [|by intros k loc Hk; rewrite lookup_empty in Hk|done]. intros k. rewrite lookup_empty. split; [by intros []|intros (bf & ?%not_elem_of_nil & _); done]. }
  destruct (collectBranches _ _ _ _ _ _ _ _ _ _ _ _) as [c| | |]; cbn [mbind res_bind]; try done.
  destruct Hcol as (fs & Hc & Hfs & Enames & Ebr). simpl app in Hc.
  destruct (go_Incremental o && _) eqn:Ei; [by apply andb_true_iff in Ei as [-> _]|].
  pose proof (subRepositories_settled urlString (set_Branches desc (co_branches c)) c) as Hsubs.
  match type of Hsubs with ?A → _ => assert A as HA' end.
  { intros k loc Hk Hp. destruct (ck_location _ _ Hc k loc Hk) as (bf & Hbf & Hloc). rewrite Forall_forall in Hfs.
    destruct (Hfs bf Hbf) as (sha1 & h & t & _ & _ & Hpr & _). eapply (provides_url urlParse urlString PlainOpen decode); eauto. }
  specialize (Hsubs HA'). destruct (subRepositories _ _ _) as [subs| | |]; cbn [mbind res_bind]; try done.
  match goal with |- context [NewBuilder ?vt ?un ?bo] => pose proof (NewBuilder_returns vt un bo) as Hnew; destruct (NewBuilder vt un bo) as [b| | |] eqn:Eb end;
    cbn [mbind res_bind]; [|done|by unfold set_Description, Build.SetDefaults in Hnew; cbn [op_Parallelism] in Hnew; destruct (Z.eqb_spec (op_Parallelism (go_BuildOptions o)) 0); lia|done].
  destruct (indexKeys_ok c) as (Hnd & Hin & Hord).
  match goal with |- match (mapM (keyDocument ?sm c) _ ≫= _) with _ => _ end => pose proof (keyDocuments_ok sm fs c (indexKeys c) Hc) as Hdocs end.
  specialize (Hdocs ltac:(intros k; apply Hin)). destruct (mapM _ (indexKeys c)) as [docs| | |]; cbn [mbind res_bind]; try done.
  split; [by exists b|]. exists branches, fs, (indexKeys c). split_and!; try done.
  - intros k. rewrite Hin. apply (ck_repos _ _ Hc).
  - replace (doc_Name <$> docs) with (FullPath <$> indexKeys c); [done|]. clear -Hdocs.
    induction Hdocs as [|k doc ks docs (Hn & _) _ IH]; [done|]. by rewrite !fmap_cons, IH, Hn.
Qed.

(** Witnesses. *)

(** Two repositories: one with a directory and a submodule, and that submodule. *)
#[local] Instance toyGit : GitRepo bool := {|
  TreeObject r h := if bool_decide (h = [1]) then
      Some [MkTreeEntry (str ".gitmodules") mode_Regular [9]; MkTreeEntry (str "dir") mode_Dir [2]; MkTreeEntry (str "mod") mode_Submodule [5]]
    else if bool_decide (h = [2]) then Some [MkTreeEntry (str "b.c") mode_Executable [10]]
    else if bool_decide (h = [6]) then Some [MkTreeEntry (str "s.c") mode_Regular [11]] else None;
  CommitObject r h := if bool_decide (h = [3]) then Some [1] else if bool_decide (h = [5]) then Some [6] else None;
  BlobObject r h := Some (MkBlob 3 (Some [97; 98; 99]));
  ResolveRevision r ref := inr [3];
  Head r := Some (str "refs/heads/main");
  Branches r := Some [str "main"] |}.
Definition toyParse (s : bytes) : option URL := Some (MkURL s [] []).
Definition toyOpen (p : bytes) : option bool := Some (negb (bool_decide (p = str "repo"))).
Definition toyDecode (c : bytes) : option (list ConfigSection) :=
  Some [MkConfigSection (str "submodule") [] [MkSubsection (str "m") [(str "path", str "mod"); (str "url", str "sub")]]].
Definition toyTree : list TreeEntry := default [] (TreeObject false [1]).

Lemma toy_names : isName (str ".gitmodules") ∧ isName (str "dir") ∧ isName (str "mod") ∧ isName (str "b.c") ∧ isName (str "s.c").
Proof. split_and!; apply (@bool_decide_unpack _ (isName_dec _)); vm_compute; reflexivity. Qed.
Lemma toy_walkable url : walkable toyParse u_Host toyOpen toyDecode [] 10 2 false toyTree url.
Proof.
  destruct toy_names as (H1 & H2 & H3 & H4 & H5).
  eapply (walk_tree _ _ _ _ _ _ _ _ _ _ 1).
  - eapply ls_leaf; [exact H1|done|]. eapply ls_dir; [exact H2|done|done| |].
    + eapply ls_leaf; [exact H4|done|]. apply ls_nil.
    + eapply ls_leaf; [exact H3|done|]. apply ls_nil.
  - done.
  - simpl. lia.
  - intros p e u r' t' Hin Hm (mods & sm & h & _ & _ & _ & _ & Hc & Ht). repeat (apply elem_of_cons in Hin as [[= -> ->]|Hin]; [try discriminate Hm|]).
    2: by apply not_elem_of_nil in Hin.
    injection Hc as <-. injection Ht as <-. eapply (walk_tree _ _ _ _ _ _ _ _ _ _ 0); [eapply ls_leaf; [exact H5|done|apply ls_nil]|done|simpl; lia|].
    intros p e u' r2 t2 Hin' Hm'. apply elem_of_cons in Hin' as [[= -> ->]|Hin']; [discriminate Hm'|by apply not_elem_of_nil in Hin'].
Qed.

Lemma TreeToFiles_exact_witness :
  match TreeToFiles toyParse u_Host toyOpen toyDecode 2 10 false toyTree (str "http://host") (Some (NewRepoCache [])) with
  | (Ok (files, _), _) => is_Some (files !! MkFileKey (str "mod") (str "s.c") [11]) ∧
      ∀ k loc, files !! k = Some loc → provides toyParse u_Host toyOpen toyDecode [] false toyTree (str "http://host") k loc
  | _ => False
  end.
Proof.
  pose proof (TreeToFiles_exact toyParse u_Host toyOpen toyDecode [] 10 2 false toyTree (str "http://host") (toy_walkable _)) as Hex.
  destruct (TreeToFiles _ _ _ _ _ _ _ _ _ _) as [[[files vs]|e| |] rc]; [|discriminate Hex|destruct Hex|destruct Hex].
  destruct Hex as (_ & Hsound & Hall). split; [|exact Hsound].
  pose proof (toy_walkable (str "http://host")) as Hw. inversion Hw as [d r t url n l Hl Hn Hlen _]; subst.
  destruct toy_names as (H1 & H2 & H3 & H4 & H5).
  assert (([str "mod"], MkTreeEntry (str "mod") mode_Submodule [5]) ∈ l) as Hin.
  { inversion Hl as [|? ? ? ? ? ? Hm Hl1|]; subst; [|discriminate]. inversion Hl1 as [|? ? ? ? ? ? Hm2 _|? ? ? ? ? ? ? ? ? Ht Hl2 Hl3]; subst; [by destruct Hm2|].
    inversion Hl3; subst; [|discriminate]. right. right. apply elem_of_app. right. left. }
  apply (Hall (MkFileKey (PathJoin [Join [47] [str "mod"]; []]) (str "s.c") [11]) (MkBlobLocation true (toyParse (str "sub")))).
  eapply (pv_sub toyParse u_Host toyOpen toyDecode [] false toyTree (str "http://host") n l _ _ (MkURL (str "sub") [] []) true
    [MkTreeEntry (str "s.c") mode_Regular [11]] (MkFileKey [] (str "s.c") [11])); [exact Hl|exact Hin|reflexivity| |].
  - eexists _, _, [6]. split_and!; [vm_compute; reflexivity|vm_compute; reflexivity|reflexivity|vm_compute; reflexivity|reflexivity|reflexivity].
  - apply (pv_file toyParse u_Host toyOpen toyDecode [] true [MkTreeEntry (str "s.c") mode_Regular [11]] (str "sub") 0
      [([str "s.c"], MkTreeEntry (str "s.c") mode_Regular [11])] [str "s.c"] (MkTreeEntry (str "s.c") mode_Regular [11]) ∅); [vm_compute; reflexivity| |left|reflexivity].
    apply (ls_leaf true 0 []); [exact H5|discriminate|apply ls_nil].
Defined.

(** A chain of more than 1024 directories, each behind a file. *)
#[local] Instance deepGit : GitRepo () := {|
  TreeObject r h := if (length h <=? 1100)%nat then Some (MkTreeEntry (str "a") mode_Regular [] :: if (length h =? 1100)%nat then [] else [MkTreeEntry (str "d") mode_Dir (0 :: h)]) else None;
  CommitObject r h := None;
  BlobObject r h := None;
  ResolveRevision r ref := inl "reference not found"%string;
  Head r := None;
  Branches r := None |}.
Lemma deep_tree n : ∀ h, (length h + n = 1100)%nat → ∃ t, TreeObject () h = Some t ∧ complete () t ∧ deeper () n t ∧ treeFile () t (str ".gitmodules") = None.
Proof.
  induction n as [|n IH]; intros h Hh; simpl.
  - destruct (Nat.leb_spec (length h) 1100); [|lia]. destruct (Nat.eqb_spec (length h) 1100); [|lia]. eexists. split_and!; [done| |apply deeper_any|done].
    apply complete_leaf; [done|apply complete_nil].
  - destruct (Nat.leb_spec (length h) 1100); [|lia]. destruct (Nat.eqb_spec (length h) 1100); [lia|]. destruct (IH (0 :: h)) as (t & Ht & Hc & Hd & _); [simpl; lia|].
    eexists. split_and!; [done| | |done].
    + apply complete_leaf; [done|]. eapply complete_dir; [done|exact Ht|done|apply complete_nil].
    + eapply deeper_dir; [right; left|done|exact Ht|done].
Qed.
Lemma deep_tree_diverges_witness : ∃ t, TreeObject () (replicate 75 0) = Some t ∧
  fst (TreeToFiles (R := ()) toyParse u_Host (λ _, Some ()) toyDecode 1 3000 () t [] None) = OutOfFuel.
Proof.
  destruct (deep_tree 1025 (replicate 75 0) ltac:(by rewrite length_replicate)) as (t & Ht & Hc & Hd & Hm). exists t. split; [exact Ht|].
  apply (deep_tree_diverges toyParse u_Host (λ _, Some ()) toyDecode 1 3000 () t [] None Hd Hc). unfold modulesOf. rewrite Hm. by eexists.
Defined.

Definition toyGitOptions : GitOptions :=
  MkGitOptions (str "repo") false false false [] (MkOptions 100 1 1000 (set_Name repository0 (str "repo")) None [] false) (str "refs/heads/") [str "main"].
#[local] Abbreviation toyIndex :=
  (@IndexGitRepo bool toyGit merge_sort_alg toyParse u_Host toyOpen toyDecode (λ _, None) (λ n, n) (λ _, true) (λ _ _, Some true) (λ _, None) (λ _, []) 2 10 toyGitOptions).
Lemma IndexGitRepo_documents_witness :
  match toyIndex with
  | Ok (Some (bo, docs)) => ∃ (fs : list (bytes * gmap fileKey (BlobLocation bool))) keys, fst <$> fs = [str "main"] ∧ NoDup keys ∧ (∀ k, k ∈ keys ↔ ∃ bf, bf ∈ fs ∧ is_Some (snd bf !! k)) ∧
      Forall2 (documentOf 100 fs) keys docs
  | _ => False
  end.
Proof.
  pose proof (@IndexGitRepo_documents bool toyGit merge_sort_alg toyParse u_Host toyOpen toyDecode (λ _, None) (λ n, n) (λ _, true) (λ _ _, Some true) (λ _, None)
    (λ _, []) 2 10 toyGitOptions false) as Hd.
  specialize (Hd ltac:(vm_compute; reflexivity) ltac:(intros u; eexists; reflexivity)).
  assert (match toyIndex with Ok (Some (bo, docs)) => op_SizeMax bo =? 100 | _ => false end = true) as Hok by (vm_compute; reflexivity).
  destruct toyIndex as [[[bo docs]|]| | |]; [|discriminate Hok..]. apply Z.eqb_eq in Hok. rewrite Hok in Hd.
  destruct Hd as (_ & branches & fs & keys & Hb & Hf & _ & Hnd & Hk & Hdocs & _).
  - intros b sha1 h t Hc Ht. vm_compute in Hc. injection Hc as <- <-. injection Ht as <-. apply toy_walkable.
  - exists fs, keys. split_and!; [|done..]. rewrite Hf. vm_compute in Hb. injection Hb as <-. vm_compute. reflexivity.
Defined.
