(* ===== verification/RepoIndex.v ===== *)
(** * cmd/zoekt-repo-index: repositories stitched together by a manifest

    A manifest of the tool repo names git repositories and the paths at which their trees are placed. The command reads one
    manifest per branch (package manifest of slothfs), walks the trees of all projects and adds their files to one builder,
    with a description for every sub-repository. *)

From S2P Require Import Prelude GoStd GoText Bits Api HitIter MatchIter Query Section IndexBuilder IndexData Content MatchTree Eval Decide Shard Gather Lines Ctags Build Git.

(** ** Manifests *)

(** The fields that are used. *)
Record Project := MkProject {
  pj_Path : option bytes;
  pj_Name : bytes;
  pj_GroupsString : bytes;
  pj_Groups : gmap bytes bool;
  pj_Revision : bytes }.
(** The revision is that of the default element. *)
Record Manifest := MkManifest { mf_DefaultRevision : bytes; mf_Project : list Project }.

Definition set_Project (mf : Manifest) (ps : list Project) : Manifest := MkManifest (mf_DefaultRevision mf) ps.
Definition parseProject (p : Project) : Project :=
  MkProject (pj_Path p) (pj_Name p) (pj_GroupsString p)
    (foldl (λ m s, if bool_decide (s = []) then m else <[s := true]> m) (pj_Groups p) (SplitByte 44 (pj_GroupsString p))) (pj_Revision p).
(** [unmarshal]: xml.Unmarshal into a manifest. *)
Definition ParseManifest (unmarshal : bytes → option Manifest) (contents : bytes) : res Manifest :=
  m ← orErr "xml" (unmarshal contents); Ok (set_Project m (parseProject <$> mf_Project m)).
Definition ProjectRevision (mf : Manifest) (p : Project) : bytes :=
  if bool_decide (pj_Revision p ≠ []) then pj_Revision p else mf_DefaultRevision mf.
Definition GetPath (p : Project) : bytes := default (pj_Name p) (pj_Path p).
Definition FilterManifest (mf : Manifest) : Manifest :=
  set_Project mf (filter (λ p, default false (pj_Groups p !! str "notdefault") = false) (mf_Project mf)).

(** ** Reading manifests *)

Record branchFile := MkBranchFile { bf_branch : bytes; bf_file : bytes; bf_mf : Manifest; bf_manifestPath : bytes }.
(** The flags of the command, and its arguments. *)
Record RepoFlags := MkRepoFlags {
  rf_sizeMax : Z;
  rf_shardLimit : Z;
  rf_parallelism : Z;
  rf_revPrefix : bytes;
  rf_baseURL : bytes;
  rf_repoCacheDir : bytes;
  rf_manifestRepoURL : bytes;
  rf_manifestRevPrefix : bytes;
  rf_repoName : bytes;
  rf_repoURL : bytes;
  rf_maxSubProjects : Z;
  rf_incremental : bool;
  rf_args : list bytes }.

Section RepoIndex.
Context {R : Type} `{GitRepo R} `{SortAlg}.
Context (urlParse : bytes → option URL) (urlString : URL → bytes).
Context (PlainOpen : bytes → option R) (decode : bytes → option (list ConfigSection)).
(** Repository.Reference with its target resolved; what ReadAll returns of a blob that cannot be read to its end, None when
    it cannot be opened; xml.Unmarshal; ioutil.ReadFile; SHA-1 in hexadecimal digits. *)
Context (Reference : R → bytes → option bytes) (readSome : R → bytes → option bytes) (unmarshal : bytes → option Manifest).
Context (ReadFile : bytes → option bytes) (sha1 : bytes → bytes).
(** html/template: whether a template parses; as SetDefaults of the builder and Options.IndexVersions use them. *)
Context (validTemplate : bytes → bool) (urlName : bytes → option bytes) (IndexVersions : Options → list RepositoryBranch).
Context (depth steps : nat).
#[local] Abbreviation locations := (gmap fileKey (BlobLocation R)).

(** Tree.entry and Tree.FindEntry of go-git. *)
Definition treeEntry (t : list TreeEntry) (name : bytes) : option TreeEntry := last (filter (λ e, te_Name e = name) t).
Fixpoint findEntry (repo : R) (t : list TreeEntry) (parts : list bytes) : option TreeEntry :=
  match parts with
  | [] => None
  | [p] => treeEntry t p
  | p :: parts => e ← treeEntry t p; t' ← TreeObject repo (te_Hash e); findEntry repo t' parts
  end.
(** An error of ReadAll is overlooked. *)
Definition getManifest (repo : R) (branch path : bytes) : res Manifest :=
  ref ← orErr "reference not found" (Reference repo (str "refs/heads/" ++ branch));
  treeHash ← orErr "object not found" (CommitObject repo ref);
  tree ← orErr "object not found" (TreeObject repo treeHash);
  entry ← orErr "entry not found" (findEntry repo tree (SplitByte 47 path));
  blob ← orErr "object not found" (BlobObject repo (te_Hash entry));
  content ← orErr "open" (match blob_Reader blob with Some c => Some c | None => readSome repo (te_Hash entry) end);
  ParseManifest unmarshal content.

Definition gitBranchFile (repo : R) (manifestPath revPrefix f : bytes) : res branchFile :=
  match CutByte 58 f with
  | (_, None) => Err "cannot parse as BRANCH:FILE"
  | (branch, Some file) => mf ← getManifest repo (revPrefix ++ branch) file; Ok (MkBranchFile branch file mf manifestPath)
  end.
Definition xmlBranchFile (f : bytes) : res branchFile :=
  content ← orErr "open" (ReadFile f); mf ← ParseManifest unmarshal content; Ok (MkBranchFile (str "HEAD") (PathBase f) mf f).
Definition parseBranches (manifestRepoURL revPrefix : bytes) (args : list bytes) : M (RepoCache R) (list branchFile) :=
  if bool_decide (manifestRepoURL ≠ []) then
    u ← lift (orErr "url" (urlParse manifestRepoURL));
    repo ← Open PlainOpen u;
    manifestPath ← gets (λ rc, RepoCache_Path rc u);
    lift (mapM (gitBranchFile repo manifestPath revPrefix) args)
  else if bool_decide (args = []) then lift (Err "must give XML file argument")
  else lift (mapM xmlBranchFile args).

(** ** The files of a manifest *)

Definition walkTree (r : R) (t : list TreeEntry) (url : bytes) : M (RepoCache R) (locations * gmap bytes bytes) := λ rc,
  let '(x, rc') := TreeToFiles urlParse urlString PlainOpen decode depth steps r t url (Some rc) in (x, default rc rc').
Definition projectURL (baseURL : URL) (p : Project) : URL := MkURL (u_Host baseURL) (PathJoin [u_Path baseURL; pj_Name p]) (u_rest baseURL).
Definition iterateProject (mf : Manifest) (baseURL : URL) (revPrefix : bytes) (p : Project) (acc : locations * gmap bytes bytes)
    : M (RepoCache R) (locations * gmap bytes bytes) :=
  let rev := ProjectRevision mf p in
  let projURL := projectURL baseURL p in
  topRepo ← Open PlainOpen projURL;
  commit ← lift (orErr "reference not found" (Reference topRepo (revPrefix ++ rev)));
  treeHash ← lift (orErr "object not found" (CommitObject topRepo commit));
  tree ← lift (orErr "object not found" (TreeObject topRepo treeHash));
  fv ← walkTree topRepo tree (urlString projURL);
  mret (foldl (placeFile (GetPath p)) (fst acc) (map_to_list (fst fv)),
        foldl (placeVersion (GetPath p)) (<[GetPath p := commit]> (snd acc)) (map_to_list (snd fv))).
Fixpoint iterateProjects (mf : Manifest) (baseURL : URL) (revPrefix : bytes) (ps : list Project) (acc : locations * gmap bytes bytes)
    : M (RepoCache R) (locations * gmap bytes bytes) :=
  match ps with
  | [] => mret acc
  | p :: ps => acc ← iterateProject mf baseURL revPrefix p acc; iterateProjects mf baseURL revPrefix ps acc
  end.
Definition iterateManifest (mf : Manifest) (baseURL : URL) (revPrefix : bytes) : M (RepoCache R) (locations * gmap bytes bytes) :=
  iterateProjects mf baseURL revPrefix (mf_Project mf) (∅, ∅).

(** ** The command *)

(** The first loop over the branches: files, descriptions of sub-repositories, versions. *)
Record gathered := MkGathered {
  ga_perBranch : gmap bytes locations;
  ga_subs : gmap bytes Repository;
  ga_versions : gmap bytes (gmap bytes bytes) }.
Fixpoint describeSubs (subs : gmap bytes Repository) (files : list (fileKey * BlobLocation R)) : res (gmap bytes Repository) :=
  match files with
  | [] => Ok subs
  | (key, loc) :: files =>
    match subs !! fk_SubRepoPath key with
    | Some _ => describeSubs subs files
    | None =>
      match bl_URL loc with
      | None => Panic "nil pointer dereference"
      | Some u =>
        match SetTemplatesFromOrigin urlString u repository0 with
        | (Ok _, desc) => describeSubs (<[fk_SubRepoPath key := desc]> subs) files
        | (Err e, _) => Err e
        | (Panic w, _) => Panic w
        | (OutOfFuel, _) => OutOfFuel
        end
      end
    end
  end.
Definition gatherBranch (baseURL : URL) (revPrefix : bytes) (br : branchFile) (g : gathered) : M (RepoCache R) gathered :=
  fv ← iterateManifest (FilterManifest (bf_mf br)) baseURL revPrefix;
  subs ← lift (describeSubs (ga_subs g) (map_to_list (fst fv)));
  mret (MkGathered (<[bf_branch br := fst fv]> (ga_perBranch g)) subs (<[bf_branch br := snd fv]> (ga_versions g))).
Fixpoint gatherAll (baseURL : URL) (revPrefix : bytes) (brs : list branchFile) (g : gathered) : M (RepoCache R) gathered :=
  match brs with
  | [] => mret g
  | br :: brs => g ← gatherBranch baseURL revPrefix br g; gatherAll baseURL revPrefix brs g
  end.

(** The second loop: the version of every sub-repository in the branch, and one for the branch. *)
Definition versionIn (versions : gmap bytes (gmap bytes bytes)) (branch path : bytes) : bytes :=
  default zeroHash (default ∅ (versions !! branch) !! path).
Definition addVersion (versions : gmap bytes (gmap bytes bytes)) (acc : gmap bytes Repository * list RepositoryBranch) (branch : bytes)
    : gmap bytes Repository * list RepositoryBranch :=
  let '(subs, branches) := acc in
  let paths := go_sort string_less (fst <$> map_to_list subs) in
  (map_imap (λ p repo, Some (set_Branches repo (r_Branches repo ++ [MkBranch branch (versionIn versions branch p)]))) subs,
   branches ++ [MkBranch branch (sha1 (mjoin ((λ p, p ++ versionIn versions branch p) <$> paths)))]).

(** The branches of every file. *)
Definition keyBranches (perBranch : gmap bytes locations) : gmap fileKey (list bytes) :=
  foldl (λ m bf, foldl (λ m kl, <[fst kl := default [] (m !! fst kl) ++ [fst bf]]> m) m (map_to_list (snd bf))) ∅ (map_to_list perBranch).
Definition repoDocument (perBranch : gmap bytes locations) (kb : fileKey * list bytes) : res Document :=
  let '(k, brs) := kb in
  br ← index brs 0;
  match default ∅ (perBranch !! br) !! k with
  | None => Panic "nil pointer dereference"
  | Some loc => data ← BlobLocation_Blob loc (fk_ID k); Ok (MkDocument (FullPath k) data brs (fk_SubRepoPath k) [] [] [])
  end.

Definition trimProjects (max : Z) (br : branchFile) : branchFile :=
  if (0 <? max) && (max <? lenZ (mf_Project (bf_mf br))) then
    MkBranchFile (bf_branch br) (bf_file br) (set_Project (bf_mf br) (take (Z.to_nat max) (mf_Project (bf_mf br)))) (bf_manifestPath br)
  else br.
(** None when the index is up to date. Otherwise the options of the builder, and the documents that are added to it, in an order
    that is not specified. A call of log.Fatal is an error. *)
Definition repoIndex (f : RepoFlags) : res (option (Options * list Document)) :=
  if bool_decide (rf_repoCacheDir f = []) then Err "must set --repo_cache"
  else
    baseURL ← orErr "url" (urlParse (rf_baseURL f));
    let name := if bool_decide (rf_repoName f = []) then PathJoin [u_Host baseURL; u_Path baseURL] else rf_repoName f in
    let opts := Build.SetDefaults urlName
      (MkOptions (rf_sizeMax f) (rf_parallelism f) (rf_shardLimit f) (set_URL (set_Name repository0 name) (rf_repoURL f)) None [] false) in
    let '(rbs, rc) := parseBranches (rf_manifestRepoURL f) (rf_manifestRevPrefix f) (rf_args f) (NewRepoCache (rf_repoCacheDir f)) in
    branches ← rbs;
    if bool_decide (branches = []) then Err "must specify at least one branch"
    else
      let branches := trimProjects (rf_maxSubProjects f) <$> branches in
      g ← fst (gatherAll baseURL (rf_revPrefix f) branches (MkGathered ∅ ∅ ∅) rc);
      let '(subs, versions) := foldl (addVersion (ga_versions g)) (ga_subs g, []) (bf_branch <$> branches) in
      let opts := set_Description opts (set_Branches (op_RepositoryDescription opts) versions) (Some subs) in
      if rf_incremental f && bool_decide (IndexVersions opts = versions) then Ok None
      else
        _ ← NewBuilder validTemplate urlName opts;
        docs ← mapM (repoDocument (ga_perBranch g)) (map_to_list (keyBranches (ga_perBranch g)));
        Ok (Some (opts, docs)).
End RepoIndex.

(** ** What a manifest holds *)

Section ManifestFiles.
Context {R : Type} `{GitRepo R} `{SortAlg}.
Context (urlParse : bytes → option URL) (urlString : URL → bytes).
Context (PlainOpen : bytes → option R) (decode : bytes → option (list ConfigSection)).
Context (Reference : R → bytes → option bytes) (depth steps : nat).
Context (base : bytes) (baseURL : URL) (revPrefix : bytes).
#[local] Abbreviation locations := (gmap fileKey (BlobLocation R)).
#[local] Abbreviation iterateProjects := (iterateProjects urlParse urlString PlainOpen decode Reference depth steps).
#[local] Abbreviation iterateManifest := (iterateManifest urlParse urlString PlainOpen decode Reference depth steps).

(** The tree of a project: of the commit that its revision names, in the repository at its URL. *)
Definition projectTree (mf : Manifest) (p : Project) (r : R) (t : list TreeEntry) : Prop :=
  ∃ commit h, PlainOpen (PathJoin [base; repoKey (projectURL baseURL p)]) = Some r ∧
    Reference r (revPrefix ++ ProjectRevision mf p) = Some commit ∧ CommitObject r commit = Some h ∧ TreeObject r h = Some t.
(** The files of the projects, each below the path of its project. *)
Definition placed (mf : Manifest) (ps : list Project) (k : fileKey) (loc : BlobLocation R) : Prop :=
  ∃ p r t k', p ∈ ps ∧ projectTree mf p r t ∧
    provides urlParse urlString PlainOpen decode base r t (urlString (projectURL baseURL p)) k' loc ∧
    k = MkFileKey (PathJoin [GetPath p; fk_SubRepoPath k']) (fk_Path k') (fk_ID k').
Definition manifestFiles (mf : Manifest) (files : locations) : Prop :=
  (∀ k loc, files !! k = Some loc → placed mf (mf_Project mf) k loc) ∧
  (∀ k loc, placed mf (mf_Project mf) k loc → is_Some (files !! k)).
Definition treesWalkable (mf : Manifest) : Prop := ∀ p r t, p ∈ mf_Project mf → projectTree mf p r t →
  walkable urlParse urlString PlainOpen decode base steps depth r t (urlString (projectURL baseURL p)).

Lemma projectTree_unique mf p r t r' t' : projectTree mf p r t → projectTree mf p r' t' → r = r' ∧ t = t'.
Proof. intros (c & h & H1 & H2 & H3 & H4) (c' & h' & H1' & H2' & H3' & H4'). assert (r = r') as -> by congruence. assert (c = c') as -> by congruence. assert (h = h') as -> by congruence. split; congruence. Qed.

Lemma iterateProjects_ok mf ps files vs rc done : rcOK PlainOpen base rc → (∀ p, p ∈ ps → p ∈ mf_Project mf) → treesWalkable mf →
  (∀ k loc, files !! k = Some loc → placed mf done k loc) → (∀ k loc, placed mf done k loc → is_Some (files !! k)) →
  ∃ x rc', iterateProjects mf baseURL revPrefix ps (files, vs) rc = (x, rc') ∧ rcOK PlainOpen base rc' ∧
    match x with
    | Ok (files', _) => (∀ k loc, files' !! k = Some loc → placed mf (done ++ ps) k loc) ∧
        (∀ k loc, placed mf (done ++ ps) k loc → is_Some (files' !! k))
    | Err _ => True
    | _ => False
    end.
Proof.
  intros Hrc Hps Hwalk. revert files vs rc done Hrc. induction ps as [|p ps IH]; intros files vs rc done Hrc H1 H2.
  { exists (Ok (files, vs)), rc. rewrite app_nil_r. by split_and!. }
  cbn [RepoIndex.iterateProjects]. unfold iterateProject, mbind, M_bind, lift.
  destruct (Open_ok PlainOpen base (projectURL baseURL p) rc Hrc) as (rc1 & Hrc1 & ->).
  destruct (PlainOpen (PathJoin [base; repoKey (projectURL baseURL p)])) as [r|] eqn:Er; cbn [orErr]; [|by eexists _, _].
  destruct (Reference r (revPrefix ++ ProjectRevision mf p)) as [commit|] eqn:Ec; cbn [orErr]; [|by eexists _, _].
  destruct (CommitObject r commit) as [h|] eqn:Eh; cbn [orErr]; [|by eexists _, _].
  destruct (TreeObject r h) as [t|] eqn:Et; cbn [orErr]; [|by eexists _, _].
  assert (projectTree mf p r t) as Htree by (by exists commit, h).
  unfold walkTree. destruct (TreeToFiles_ok urlParse urlString PlainOpen decode base steps depth r t (urlString (projectURL baseURL p)) rc1)
    as (x & rc2 & -> & Hrc2 & Hx); [apply Hwalk; [apply Hps; left|done]|done|]. cbn [default].
  destruct x as [[fs' vs']|e| |]; [|by eexists _, _|done|done]. destruct Hx as (_ & Hx1 & Hx2). unfold mret, M_ret. cbn [fst snd].
  replace (done ++ p :: ps) with ((done ++ [p]) ++ ps) by (by rewrite <- app_assoc).
  assert (∀ k loc l, placed mf l k loc → ∀ l', (∀ q, q ∈ l → q ∈ l') → placed mf l' k loc) as Hmono.
  { intros k loc l (q & r' & t' & k' & Hq & Hrest) l' Hl. exists q, r', t', k'. split; [auto|done]. }
  apply IH; [intros q Hq; apply Hps; by right|done| |].
  - intros k loc [Hk|(k' & Hk' & ->)]%placeFiles_elem.
    + eapply Hmono; [by apply H1|]. intros q Hq. apply elem_of_app. by left.
    + exists p, r, t, k'. apply elem_of_map_to_list in Hk'. split_and!; [apply elem_of_app; right; left|done|by apply Hx1|done].
  - intros k loc (q & r' & t' & k' & [Hq|Hq]%elem_of_app & Hqt & Hp & ->).
    + apply placeFiles_keeps, (H2 _ loc). by exists q, r', t', k'.
    + apply list_elem_of_singleton in Hq as ->. destruct (projectTree_unique _ _ _ _ _ _ Htree Hqt) as [<- <-].
      destruct (Hx2 _ _ Hp) as [loc' Hloc]. eapply placeFiles_all. by apply elem_of_map_to_list.
Qed.
Lemma iterateManifest_ok mf rc : rcOK PlainOpen base rc → treesWalkable mf →
  ∃ x rc', iterateManifest mf baseURL revPrefix rc = (x, rc') ∧ rcOK PlainOpen base rc' ∧
    match x with Ok (files, _) => manifestFiles mf files | Err _ => True | _ => False end.
Proof.
  intros Hrc Hw. destruct (iterateProjects_ok mf (mf_Project mf) ∅ ∅ rc [] Hrc) as (x & rc' & E & Hrc' & Hx); try done.
  - intros k loc (p & r & t & k' & ?%elem_of_nil & _). done.
  - exists x, rc'. split; [exact E|]. split; [done|]. by destruct x as [[]| | |].
Qed.

(** ** Collecting the branches *)

Context (Hurl : ∀ u, is_Some (urlParse (urlString u))).
#[local] Abbreviation gatherAll := (gatherAll urlParse urlString PlainOpen decode Reference depth steps).

Lemma placed_url mf ps k loc : placed mf ps k loc → is_Some (bl_URL loc).
Proof. intros (p & r & t & k' & _ & _ & Hp & _). eapply (provides_url urlParse urlString PlainOpen decode Hurl); [exact Hp|]. left. apply Hurl. Qed.

Lemma SetTemplatesFromOrigin_branches u desc : settled (fst (SetTemplatesFromOrigin urlString u desc)) ∧
  r_Branches (snd (SetTemplatesFromOrigin urlString u desc)) = r_Branches desc.
Proof. unfold SetTemplatesFromOrigin, setTemplates. by repeat case_match. Qed.

Definition unversioned (subs : gmap bytes Repository) : Prop := map_Forall (λ _ r, r_Branches r = []) subs.
Lemma describeSubs_ok (files : list (fileKey * BlobLocation R)) subs : unversioned subs → (∀ k loc, (k, loc) ∈ files → is_Some (bl_URL loc)) →
  match describeSubs urlString subs files with
  | Ok subs' => unversioned subs' ∧ ∀ p, is_Some (subs' !! p) ↔ is_Some (subs !! p) ∨ ∃ k loc, (k, loc) ∈ files ∧ fk_SubRepoPath k = p
  | Err _ => True
  | _ => False
  end.
Proof.
  revert subs. induction files as [|[key loc] files IH]; intros subs Hs Hf; cbn [describeSubs].
  { split; [done|]. intros p. split; [by left|]. intros [?|(k & l & ?%elem_of_nil & _)]; done. }
  assert (∀ k l, (k, l) ∈ files → is_Some (bl_URL l)) as Hf' by (intros k l Hl; apply (Hf k); by right).
  assert (∀ p, (∃ k l, (k, l) ∈ (key, loc) :: files ∧ fk_SubRepoPath k = p) ↔ fk_SubRepoPath key = p ∨ ∃ k l, (k, l) ∈ files ∧ fk_SubRepoPath k = p) as Hcons.
  { intros p. setoid_rewrite elem_of_cons. naive_solver. }
  destruct (subs !! fk_SubRepoPath key) as [d|] eqn:Ed.
  - specialize (IH subs Hs Hf'). destruct (describeSubs _ _ _); try done. destruct IH as [IH1 IH2]. split; [done|].
    intros p. rewrite IH2, Hcons. assert (fk_SubRepoPath key = p → is_Some (subs !! p)) by (intros <-; by rewrite Ed). naive_solver.
  - destruct (Hf key loc) as [u ->]; [left|]. destruct (SetTemplatesFromOrigin_branches u repository0) as [Hset Hbr].
    destruct (SetTemplatesFromOrigin _ _ _) as [[[]|e| |] desc]; try done. simpl in Hbr.
    specialize (IH (<[fk_SubRepoPath key := desc]> subs)). destruct (describeSubs _ _ _); try (apply IH; [by apply map_Forall_insert_2|done]).
    destruct IH as [IH1 IH2]; [by apply map_Forall_insert_2|done|]. split; [done|]. intros p. rewrite IH2, Hcons, lookup_insert_is_Some'. naive_solver.
Qed.

(** What is known after some manifests. *)
Record gatheredOK (brs : list branchFile) (g : gathered (R := R)) : Prop := {
  go_files : ∀ b files, ga_perBranch g !! b = Some files → ∃ br, br ∈ brs ∧ bf_branch br = b ∧ manifestFiles (FilterManifest (bf_mf br)) files;
  go_branches : ∀ br, br ∈ brs → is_Some (ga_perBranch g !! bf_branch br);
  go_unversioned : unversioned (ga_subs g);
  go_described : ∀ b files k, ga_perBranch g !! b = Some files → is_Some (files !! k) → is_Some (ga_subs g !! fk_SubRepoPath k) }.

Lemma gatherAll_ok brs done g rc : rcOK PlainOpen base rc → Forall (λ br, treesWalkable (FilterManifest (bf_mf br))) brs → gatheredOK done g →
  match fst (gatherAll baseURL revPrefix brs g rc) with Ok g' => gatheredOK (done ++ brs) g' | Err _ => True | _ => False end.
Proof.
  intros Hrc Hw. revert done g rc Hrc. induction Hw as [|br brs Hbr _ IH]; intros done g rc Hrc Hg; [simpl; by rewrite app_nil_r|].
  cbn [RepoIndex.gatherAll]. unfold gatherBranch, mbind, M_bind, lift.
  destruct (iterateManifest_ok (FilterManifest (bf_mf br)) rc Hrc Hbr) as (x & rc' & -> & Hrc' & Hx).
  destruct x as [[files vs]|e| |]; try done. cbn [fst snd].
  pose proof (describeSubs_ok (map_to_list files) (ga_subs g) (go_unversioned _ _ Hg)) as Hsubs.
  destruct (describeSubs _ _ _) as [subs|e| |]; try done.
  2, 3: apply Hsubs; intros k loc Hk%elem_of_map_to_list; eapply placed_url, Hx; exact Hk.
  destruct Hsubs as [Hs1 Hs2]; [intros k loc Hk%elem_of_map_to_list; eapply placed_url, Hx; exact Hk|].
  unfold mret, M_ret. replace (done ++ br :: brs) with ((done ++ [br]) ++ brs) by (by rewrite <- app_assoc). apply IH; [done|].
  destruct Hg as [G1 G2 G3 G4]. split; simpl.
  - intros b fs [[<- <-]|[_ Hb]]%lookup_insert_Some.
    + exists br. split_and!; [apply elem_of_app; right; left|done|done].
    + destruct (G1 b fs Hb) as (br' & ? & ?). exists br'. split; [apply elem_of_app; by left|done].
  - intros br' [Hb|Hb]%elem_of_app; rewrite lookup_insert_is_Some'; [right; by apply G2|left]. by apply list_elem_of_singleton in Hb as ->.
  - done.
  - intros b fs k [[_ <-]|[_ Hb]]%lookup_insert_Some Hk; apply Hs2.
    + right. destruct Hk as [loc Hk]. exists k, loc. split; [by apply elem_of_map_to_list|done].
    + left. by eapply G4.
Qed.
End ManifestFiles.

(** ** Versions and documents *)

Section Documents.
Context {R : Type} `{GitRepo R} `{SortAlg}.
#[local] Abbreviation locations := (gmap fileKey (BlobLocation R)).

(** Every sub-repository gets one version for each branch. *)
Lemma addVersions_ok (sha1 : bytes → bytes) versions brs subs bs : let r := foldl (addVersion sha1 versions) (subs, bs) brs in
  (∀ p, fst r !! p = (λ repo, set_Branches repo (r_Branches repo ++ ((λ b, MkBranch b (versionIn versions b p)) <$> brs))) <$> subs !! p) ∧
  br_Name <$> snd r = (br_Name <$> bs) ++ brs.
Proof.
  revert subs bs. induction brs as [|b brs IH]; intros subs bs; cbn [foldl].
  { split; [|by rewrite app_nil_r]. intros p. simpl. destruct (subs !! p) as [[]|]; simpl; [|done]. unfold set_Branches. simpl. by rewrite app_nil_r. }
  unfold addVersion at 2 4. destruct (IH (map_imap (λ p repo, Some (set_Branches repo (r_Branches repo ++ [MkBranch b (versionIn versions b p)]))) subs)
    (bs ++ [MkBranch b (sha1 (mjoin ((λ p, p ++ versionIn versions b p) <$> go_sort string_less (fst <$> map_to_list subs))))])) as [E1 E2]. split.
  - intros p. rewrite E1, map_lookup_imap. destruct (subs !! p) as [[]|]; simpl; [|done]. unfold set_Branches. simpl. by rewrite <- app_assoc.
  - rewrite E2, fmap_app, <- app_assoc. done.
Qed.

Lemma keyBranches_inner b (files : list (fileKey * BlobLocation R)) (m : gmap fileKey (list bytes)) k : NoDup (fst <$> files) →
  default [] (foldl (λ m kl, <[fst kl := default [] (m !! fst kl) ++ [b]]> m) m files !! k)
  = default [] (m !! k) ++ (if decide (k ∈ fst <$> files) then [b] else []).
Proof.
  revert m. induction files as [|[k' l] files IH]; intros m Hnd; [simpl; by rewrite app_nil_r|].
  apply NoDup_cons in Hnd as [Hk' Hnd]. cbn [foldl fst]. rewrite IH by done. destruct (decide (k = k')) as [->|Hne].
  - rewrite lookup_insert_eq, (decide_False (P := k' ∈ fst <$> files)), app_nil_r by done. rewrite decide_True by (rewrite fmap_cons; by left). done.
  - rewrite lookup_insert_ne by done. f_equal. apply decide_ext. rewrite fmap_cons, elem_of_cons. naive_solver.
Qed.
Lemma inner_keys `{Countable K} {A} (m : gmap K A) k : k ∈ fst <$> map_to_list m ↔ is_Some (m !! k).
Proof.
  rewrite list_elem_of_fmap. split.
  - intros ([k' l] & -> & Hk%elem_of_map_to_list). by exists l.
  - intros [l Hk]. exists (k, l). split; [done|]. by apply elem_of_map_to_list.
Qed.
Lemma keyBranches_ok (perBranch : gmap bytes locations) k :
  default [] (keyBranches perBranch !! k) = fst <$> filter (λ bf, is_Some (snd bf !! k)) (map_to_list perBranch).
Proof.
  unfold keyBranches. assert (∀ l (m : gmap fileKey (list bytes)), default [] (foldl (λ m (bf : bytes * locations),
      foldl (λ m kl, <[fst kl := default [] (m !! fst kl) ++ [fst bf]]> m) m (map_to_list (snd bf))) m l !! k)
    = default [] (m !! k) ++ (fst <$> filter (λ bf, is_Some (snd bf !! k)) l)) as Hgo; [|by rewrite Hgo, lookup_empty].
  induction l as [|[b files] l IH]; intros m; [simpl; by rewrite app_nil_r|]. cbn [foldl]. rewrite IH, keyBranches_inner by apply NoDup_fst_map_to_list.
  rewrite <- app_assoc, filter_cons. cbn [fst snd]. f_equal. destruct (decide (is_Some (files !! k))) as [Hk|Hk].
  - by rewrite decide_True by (by apply inner_keys).
  - by rewrite decide_False by (by rewrite inner_keys).
Qed.
Lemma keyBranches_Some (perBranch : gmap bytes locations) k brs : keyBranches perBranch !! k = Some brs →
  brs = fst <$> filter (λ bf, is_Some (snd bf !! k)) (map_to_list perBranch) ∧ brs ≠ [].
Proof.
  intros E. pose proof (keyBranches_ok perBranch k) as Hk. rewrite E in Hk. simpl in Hk. split; [done|]. clear Hk. revert E. unfold keyBranches.
  assert (∀ (l : list (bytes * locations)) (m : gmap fileKey (list bytes)), (∀ k brs, m !! k = Some brs → brs ≠ []) → ∀ k brs,
    foldl (λ m (bf : bytes * locations), foldl (λ m kl, <[fst kl := default [] (m !! fst kl) ++ [fst bf]]> m) m (map_to_list (snd bf))) m l !! k = Some brs → brs ≠ [])
    as Hgo; [|apply Hgo; intros ? ? Hm; by rewrite lookup_empty in Hm].
  induction l as [|[b files] l IH]; intros m Hm; [done|]. cbn [foldl]. apply IH. clear IH. revert m Hm. cbn [snd fst].
  induction (map_to_list files) as [|[k' loc] fs IH]; intros m Hm; [done|]. cbn [foldl]. apply IH. cbn [fst snd].
  intros k2 bs [[_ <-]|[_ E2]]%lookup_insert_Some; [|by eapply Hm]. by intros [_ ?]%app_nil.
Qed.

(** A document for a file in the trees of the branches: under its full path, with the branches that have it, and its contents. *)
Definition repoDocumentOf (fs : list (bytes * locations)) (k : fileKey) (doc : Document) : Prop :=
  doc_Name doc = FullPath k ∧ doc_SubRepositoryPath doc = fk_SubRepoPath k ∧
  doc_Branches doc = fst <$> filter (λ bf, is_Some (snd bf !! k)) fs ∧ doc_Branches doc ≠ [] ∧ doc_SkipReason doc = [] ∧
  ∃ bf loc blob, bf ∈ fs ∧ snd bf !! k = Some loc ∧ BlobObject (bl_Repo loc) (fk_ID k) = Some blob ∧ blob_Reader blob = Some (doc_Content doc).

Lemma repoDocument_ok (perBranch : gmap bytes locations) k brs : keyBranches perBranch !! k = Some brs →
  match repoDocument perBranch (k, brs) with Ok doc => repoDocumentOf (map_to_list perBranch) k doc | Err _ => True | _ => False end.
Proof.
  intros Hk. destruct (keyBranches_Some _ _ _ Hk) as [Hb Hne]. unfold repoDocument. destruct brs as [|br brs']; [done|].
  change (index (br :: brs') 0) with (Ok br). cbn [mbind res_bind].
  assert (br ∈ fst <$> filter (λ bf, is_Some (snd bf !! k)) (map_to_list perBranch)) as ([b files] & -> & [[loc Hloc] Hin]%list_elem_of_filter)%list_elem_of_fmap
    by (rewrite <- Hb; left).
  apply elem_of_map_to_list in Hin as Hin'. cbn [fst snd] in *. rewrite Hin'. cbn [default]. unfold Datatypes.id. rewrite Hloc. unfold BlobLocation_Blob.
  destruct (BlobObject _ _) as [blob|] eqn:Eb; cbn [orErr mbind res_bind]; [|done]. unfold blobContents.
  destruct (blob_Reader blob) as [c|] eqn:Ec; cbn [orErr mbind res_bind]; [|done]. split_and!; try done. by exists (b, files), loc, blob.
Qed.

(** All documents. *)
Lemma repoDocuments_ok (perBranch : gmap bytes locations) : let keys := map_to_list (keyBranches perBranch) in
  match mapM (repoDocument perBranch) keys with
  | Ok docs => Forall2 (repoDocumentOf (map_to_list perBranch)) (fst <$> keys) docs
  | Err _ => True
  | _ => False
  end.
Proof.
  intros keys. assert (settled (mapM (repoDocument perBranch) keys)) as Hset.
  { apply mapM_settled. intros [k bs] Hk%elem_of_map_to_list. pose proof (repoDocument_ok _ _ _ Hk) as Hd. by destruct (repoDocument _ _). }
  destruct (mapM _ keys) as [docs| | |] eqn:Ed; try done. clear Hset. apply mapM_Ok in Ed. apply Forall2_fmap_l.
  assert (Forall (λ kb, keyBranches perBranch !! fst kb = Some (snd kb)) keys) as Hall by (apply Forall_forall; by intros [k bs] Hk%elem_of_map_to_list).
  induction Ed as [|[k bs] doc ks docs Hd _ IH]; [constructor|]. apply Forall_cons in Hall as [Hk Hall]. constructor; [|auto].
  cbn [fst snd] in Hk. pose proof (repoDocument_ok _ _ _ Hk) as Hok. by rewrite Hd in Hok.
Qed.
Lemma repoKeys_ok (perBranch : gmap bytes locations) k :
  k ∈ fst <$> map_to_list (keyBranches perBranch) ↔ ∃ bf, bf ∈ map_to_list perBranch ∧ is_Some (snd bf !! k).
Proof.
  rewrite list_elem_of_fmap. split.
  - intros ([k' bs] & -> & Hk%elem_of_map_to_list). destruct (keyBranches_Some _ _ _ Hk) as [Hb Hne]. cbn [fst].
    destruct (filter (λ bf, is_Some (snd bf !! k')) (map_to_list perBranch)) as [|bf l] eqn:E; [by subst|].
    assert (bf ∈ filter (λ bf, is_Some (snd bf !! k')) (map_to_list perBranch)) as [? ?]%list_elem_of_filter by (rewrite E; left). by exists bf.
  - intros (bf & Hin & Hk). pose proof (keyBranches_ok perBranch k) as E.
    destruct (keyBranches perBranch !! k) as [bs|] eqn:Ek; [exists (k, bs); split; [done|by apply elem_of_map_to_list]|]. simpl in E.
    assert (bf ∈ filter (λ bf, is_Some (snd bf !! k)) (map_to_list perBranch)) as Hf by (by apply list_elem_of_filter).
    destruct (filter _ _); [by apply elem_of_nil in Hf|done].
Qed.
End Documents.

(** ** Properties *)

Section Command.
Context {R : Type} `{GitRepo R} `{SortAlg}.
Context (urlParse : bytes → option URL) (urlString : URL → bytes).
Context (PlainOpen : bytes → option R) (decode : bytes → option (list ConfigSection)).
Context (Reference : R → bytes → option bytes) (readSome : R → bytes → option bytes) (unmarshal : bytes → option Manifest).
Context (ReadFile : bytes → option bytes) (sha1 : bytes → bytes).
Context (validTemplate : bytes → bool) (urlName : bytes → option bytes) (IndexVersions : Options → list RepositoryBranch) (depth steps : nat).

Lemma ParseManifest_settled c : settled (ParseManifest unmarshal c).
Proof. unfold ParseManifest. by destruct (unmarshal c). Qed.
Lemma getManifest_settled (repo : R) branch path : settled (getManifest Reference readSome unmarshal repo branch path).
Proof.
  unfold getManifest. do 6 (apply settled_bind; [by match goal with |- settled (orErr _ ?x) => destruct x end|intros ? _]). apply ParseManifest_settled.
Qed.
(** The branches are read without a panic, and leave the cache as it would be. *)
Lemma parseBranches_ok base url revPrefix args rc : rcOK PlainOpen base rc →
  ∃ x rc', parseBranches urlParse PlainOpen Reference readSome unmarshal ReadFile url revPrefix args rc = (x, rc') ∧ rcOK PlainOpen base rc' ∧ settled x.
Proof.
  intros Hrc. unfold parseBranches, mbind, M_bind, lift, gets. case_bool_decide.
  - destruct (urlParse url) as [u|]; cbn [orErr]; [|by eexists _, _]. destruct (Open_ok PlainOpen base u rc Hrc) as (rc1 & Hrc1 & ->).
    destruct (PlainOpen _) as [repo|]; cbn [orErr]; [|by eexists _, _]. eexists _, rc1. split_and!; [done|done|]. apply mapM_settled.
    intros f _. unfold gitBranchFile. destruct (CutByte 58 f) as [br [file|]]; [|done]. apply settled_bind; [apply getManifest_settled|done].
  - case_bool_decide; [by eexists _, _|]. eexists _, rc. split_and!; [done|done|]. apply mapM_settled. intros f _. unfold xmlBranchFile.
    apply settled_bind; [by destruct (ReadFile f)|]. intros c _. apply settled_bind; [apply ParseManifest_settled|done].
Qed.

(** The branches with their manifests, cut to the number of projects that was asked for. *)
Definition manifestsOf (f : RepoFlags) (brs : list branchFile) : Prop :=
  ∃ parsed rc, parseBranches urlParse PlainOpen Reference readSome unmarshal ReadFile (rf_manifestRepoURL f) (rf_manifestRevPrefix f) (rf_args f)
    (NewRepoCache (rf_repoCacheDir f)) = (Ok parsed, rc) ∧ brs = trimProjects (rf_maxSubProjects f) <$> parsed.

(** C8: the documents of a manifest. When the trees of the projects can be walked, the command does not loop, and it panics only when a negative
    number of goroutines is asked for. Unless it fails or finds the index up to date, it makes a builder and adds to it one document for each file (a path, a hash, and the
    sub-repository it comes from) in the trees of the branches: under its full path, with its contents and exactly the
    branches that have it. The files of a branch are those of the projects of its manifest that are not marked notdefault,
    each below the path of its project. Every document's sub-repository is described, and every sub-repository has the same branches
    as the repository, in the same order, as the search needs. *)
Theorem repoIndex_documents (f : RepoFlags) (Hurl : ∀ u, is_Some (urlParse (urlString u)))
    (Hwalk : ∀ baseURL brs, urlParse (rf_baseURL f) = Some baseURL → manifestsOf f brs → Forall (λ br,
       treesWalkable urlParse urlString PlainOpen decode Reference depth steps (rf_repoCacheDir f) baseURL (rf_revPrefix f) (FilterManifest (bf_mf br))) brs) :
  match repoIndex urlParse urlString PlainOpen decode Reference readSome unmarshal ReadFile sha1 validTemplate urlName IndexVersions depth steps f with
  | Ok (Some (bo, docs)) => is_Ok (NewBuilder validTemplate urlName bo) ∧ ∃ baseURL brs fs keys subs, urlParse (rf_baseURL f) = Some baseURL ∧ manifestsOf f brs ∧
      NoDup (fst <$> fs) ∧ (∀ br, br ∈ brs → bf_branch br ∈ fst <$> fs) ∧
      (∀ b files, (b, files) ∈ fs → ∃ br, br ∈ brs ∧ bf_branch br = b ∧
         manifestFiles urlParse urlString PlainOpen decode Reference (rf_repoCacheDir f) baseURL (rf_revPrefix f) (FilterManifest (bf_mf br)) files) ∧
      NoDup keys ∧ (∀ k, k ∈ keys ↔ ∃ bf, bf ∈ fs ∧ is_Some (snd bf !! k)) ∧ Forall2 (repoDocumentOf fs) keys docs ∧
      op_SubRepositories bo = Some subs ∧ Forall (λ doc, is_Some (subs !! doc_SubRepositoryPath doc)) docs ∧
      br_Name <$> r_Branches (op_RepositoryDescription bo) = bf_branch <$> brs ∧
      map_Forall (λ _ r, br_Name <$> r_Branches r = bf_branch <$> brs) subs
  | Ok None => rf_incremental f = true
  | Err _ => True
  | Panic _ => rf_parallelism f < 0
  | OutOfFuel => False
  end.
Proof.
  unfold repoIndex. case_bool_decide; [done|]. destruct (urlParse (rf_baseURL f)) as [baseURL|] eqn:Eurl; cbn [orErr mbind res_bind]; [|done].
  destruct (parseBranches_ok (rf_repoCacheDir f) (rf_manifestRepoURL f) (rf_manifestRevPrefix f) (rf_args f) (NewRepoCache (rf_repoCacheDir f)))
    as (x & rc & E & Hrc & Hx); [split; [done|apply map_Forall_empty]|]. rewrite E. destruct x as [brs0|e| |]; cbn [mbind res_bind]; try done.
  case_bool_decide; [done|]. set (brs := trimProjects (rf_maxSubProjects f) <$> brs0). assert (manifestsOf f brs) as Hbrs by (by exists brs0, rc).
  pose proof (gatherAll_ok urlParse urlString PlainOpen decode Reference depth steps (rf_repoCacheDir f) baseURL (rf_revPrefix f) Hurl brs [] (MkGathered ∅ ∅ ∅) rc Hrc
    (Hwalk _ _ eq_refl Hbrs)) as Hg.
  match type of Hg with ?A → _ => assert A as HA by (split; simpl; try done; by intros br ?%elem_of_nil); specialize (Hg HA); clear HA end.
  destruct (gatherAll _ _ _ _ _ _ _ _ _ _ _ _) as [[g|e| |] rc']; cbn [fst mbind res_bind] in *; [|done..]. destruct Hg as [G1 G2 G3 G4].
  destruct (addVersions_ok sha1 (ga_versions g) (bf_branch <$> brs) (ga_subs g) []) as [Hsubs Hnames].
  destruct (foldl _ _ _) as [subs versions]. cbn [fst snd] in Hsubs, Hnames.
  destruct (rf_incremental f && _) eqn:Ei; [by apply andb_true_iff in Ei as [-> _]|].
  match goal with |- context [NewBuilder ?vt ?un ?bo] => pose proof (NewBuilder_returns vt un bo) as Hnew; destruct (NewBuilder vt un bo) as [bld| | |] eqn:Ebld end;
    cbn [mbind res_bind]; [|done|by unfold set_Description, Build.SetDefaults in Hnew; cbn [op_Parallelism] in Hnew; destruct (Z.eqb_spec (rf_parallelism f) 0); lia|done].
  pose proof (repoDocuments_ok (ga_perBranch g)) as Hdocs. cbv zeta in Hdocs.
  destruct (mapM _ _) as [docs|e| |]; cbn [mbind res_bind]; [|done..].
  split; [by exists bld|]. exists baseURL, brs, (map_to_list (ga_perBranch g)), (fst <$> map_to_list (keyBranches (ga_perBranch g))), subs. split_and!; try done.
  - apply NoDup_fst_map_to_list.
  - intros br Hbr%G2. by apply inner_keys.
  - intros b files Hin%elem_of_map_to_list. by apply G1.
  - apply NoDup_fst_map_to_list.
  - apply repoKeys_ok.
  - clear -Hdocs Hsubs G4. induction Hdocs as [|k doc ks docs (_ & Hp & _ & _ & _ & [b files] & loc & _ & Hin%elem_of_map_to_list & Hk & _) _ IH]; [constructor|].
    constructor; [|done]. rewrite Hp, Hsubs, fmap_is_Some. eapply G4; [exact Hin|by exists loc].
  - intros p r Hr. rewrite Hsubs in Hr. apply fmap_Some in Hr as (r0 & Hr0 & ->). cbn [set_Branches r_Branches]. rewrite (G3 _ _ Hr0).
    simpl. rewrite <- list_fmap_compose. by apply list_fmap_id.
Qed.
End Command.

(** Witness: a manifest of two projects, one of them not indexed by default. *)
Definition toyManifest (path : bytes) : Manifest :=
  MkManifest (str "main") [MkProject (Some path) (str "proj") [] ∅ []; MkProject None (str "other") (str "x,notdefault") ∅ (str "dev")].
Definition toyFlags : RepoFlags := MkRepoFlags 0 0 0 (str "refs/") (str "github.com") (str "cache") [] [] (str "all") [] 0 true [str "m.xml"].
Definition toyRepoIndex (path commit : bytes) : res (option (Options * list Document)) :=
  @repoIndex bool toyGit merge_sort_alg toyParse u_Host toyOpen (λ _, Some []) (λ _ _, Some commit) (λ _ _, None) (λ _, Some (toyManifest path))
    (λ _, Some []) (λ x, x) (λ _, true) (λ _, None) (λ _, []) 2 10 toyFlags.

Lemma repoIndex_documents_witness :
  match toyRepoIndex (str "sub/dir") [5] with
  | Ok (Some (bo, docs)) => doc_Name <$> docs = [str "sub/dir/s.c"] ∧
      ∃ subs, op_SubRepositories bo = Some subs ∧ Forall (λ doc, is_Some (subs !! doc_SubRepositoryPath doc)) docs ∧
      map_Forall (λ _ r, br_Name <$> r_Branches r = [str "HEAD"]) subs
  | _ => False
  end.
Proof.
  assert (match toyRepoIndex (str "sub/dir") [5] with Ok (Some (bo, docs)) => doc_Name <$> docs = [str "sub/dir/s.c"] ∧
    br_Name <$> r_Branches (op_RepositoryDescription bo) = [str "HEAD"] | _ => False end) as Hcomp by (vm_compute; split; reflexivity).
  pose proof (@repoIndex_documents bool toyGit merge_sort_alg toyParse u_Host toyOpen (λ _, Some []) (λ _ _, Some [5]) (λ _ _, None) (λ _, Some (toyManifest (str "sub/dir")))
    (λ _, Some []) (λ x, x) (λ _, true) (λ _, None) (λ _, []) 2 10 toyFlags) as Hdocs.
  match type of Hdocs with ?A → ?B → _ => assert A as HA by (intros u; by eexists); assert B as HB; [|specialize (Hdocs HA HB)] end.
  { intros baseURL brs [= <-] (parsed & rc & Ep & ->). injection Ep as <- _. apply Forall_cons. split; [|by apply Forall_nil].
    intros p r t Hp (commit & h & _ & Hc & Hh & Ht). injection Hc as <-. injection Hh as <-.
    assert (t = [MkTreeEntry (str "s.c") mode_Regular [11]]) as -> by (symmetry; injection Ht; done). clear Ht.
    eapply (walk_tree _ _ _ _ _ _ _ _ _ _ 0); [eapply ls_leaf; [apply toy_names|done|apply ls_nil]|done|simpl; lia|].
    intros p' e u r' t' Hin Hm _. exfalso. clear -Hin Hm. apply elem_of_cons in Hin as [E|Hin]; [|by apply not_elem_of_nil in Hin]. apply (f_equal snd) in E. cbn [snd] in E. subst e. discriminate Hm. }
  fold (toyRepoIndex (str "sub/dir") [5]) in Hdocs. destruct (toyRepoIndex _ _) as [[[bo docs]|]| | |]; try done.
  destruct Hcomp as [Hn Hb]. split; [exact Hn|]. destruct Hdocs as (_ & baseURL & brs & fs & keys & subs & _ & _ & _ & _ & _ & _ & _ & _ & Hs & Hd & Hbr & Hsub).
  exists subs. split; [exact Hs|]. split; [exact Hd|]. rewrite <- Hb, Hbr. exact Hsub.
Defined.

(** The version of a project is stored under its path as the manifest has it, and looked up under the cleaned path that its
    files have. With a path like "dir/" the versions of the repository and of the project do not depend on the commit,
    so that with -incremental a new commit is not indexed. *)
Example unclean_path_version : match toyRepoIndex (str "dir/") [3], toyRepoIndex (str "dir/") [5] with
  | Ok (Some (bo, docs)), Ok (Some (bo', docs')) => docs ≠ docs' ∧ r_Branches (op_RepositoryDescription bo) = r_Branches (op_RepositoryDescription bo')
  | _, _ => False
  end.
Proof. vm_compute. split; [discriminate|reflexivity]. Qed.
