(* ===== verification/Files.v ===== *)
(** * Walks of the file system

    A model of directories and of filepath.Walk, and the code that walks them: cmd/zoekt-index (the files of a directory become documents),
    FindGitRepos and RepoModTime of gitindex/git.go, ListRepos of gitindex/cache.go. *)

From S2P Require Import Prelude GoStd GoText Bits Api HitIter MatchIter Query Section IndexBuilder IndexData Content MatchTree Eval Decide Shard Gather Lines Ctags Build Git.

(** ** Directories *)

(** os.FileInfo; the time is zero or later. *)
Record FileInfo := MkFileInfo { fi_IsDir : bool; fi_IsRegular : bool; fi_Size : Z; fi_ModTime : Z }.
(** A name in a directory: a file with its contents (None when it cannot be read), a directory with the entries it has,
    sorted by name, and whether its names can be read; or an entry for which Lstat fails, as when it was deleted meanwhile. *)
Inductive fsNode :=
| FFile (fi : FileInfo) (content : option bytes)
| FDir (fi : FileInfo) (readable : bool) (entries : list (bytes * fsNode))
| FGone.

Section Induction.
Context (P : fsNode → Prop) (Hfile : ∀ fi c, P (FFile fi c)) (Hdir : ∀ fi rd es, Forall (λ e, P (snd e)) es → P (FDir fi rd es)) (Hgone : P FGone).
Fixpoint fsNode_ind' (t : fsNode) : P t :=
  match t with
  | FFile fi c => Hfile fi c
  | FDir fi rd es => Hdir fi rd es ((fix go es := match es return Forall (λ e, P (snd e)) es with [] => Forall_nil_2 _ | e :: es => Forall_cons_2 _ _ _ (fsNode_ind' (snd e)) (go es) end) es)
  | FGone => Hgone
  end.
End Induction.

(** os.Lstat of a node, and of a name in it. *)
Definition lstat (t : fsNode) : option FileInfo := match t with FFile fi _ | FDir fi _ _ => Some fi | FGone => None end.
Definition entry (t : fsNode) (name : bytes) : fsNode :=
  match t with FDir _ _ es => default FGone (snd <$> head (filter (λ e, fst e = name) es)) | _ => FGone end.
(** The node at a path below [t]. *)
Definition nodeAt (t : fsNode) (path : list bytes) : fsNode := foldl entry t path.
(** The infos agree with what the nodes are, and entries have names. *)
Fixpoint wfNode (t : fsNode) : bool :=
  match t with
  | FFile fi _ => negb (fi_IsDir fi)
  | FDir fi _ es => fi_IsDir fi && negb (fi_IsRegular fi) && forallb (λ e, bool_decide (isName (fst e)) && wfNode (snd e)) es
  | FGone => true
  end.

(** ** filepath.Walk *)

(** What a WalkFunc returns. *)
Inductive verdict := VNil | VSkipDir | VErr (e : string).

Section Walk.
Context {S : Type}.
(** A WalkFunc: the path, the info unless Lstat failed, whether there is an error; it may look at the file system below the path, which it is
    given as well. *)
Context (walkFn : bytes → fsNode → option FileInfo → option string → M S verdict).

(** The loop over the names of a directory; [walk] is that of the entries. *)
Fixpoint walkEntries (walk : bytes → fsNode → M S verdict) (path : bytes) (es : list (bytes * fsNode)) : M S verdict :=
  match es with
  | [] => mret VNil
  | (name, t) :: es =>
    let filename := PathJoin [path; name] in
    match lstat t with
    | None =>
      v ← walkFn filename t None (Some "lstat"%string);
      match v with VErr e => mret (VErr e) | _ => walkEntries walk path es end
    | Some fi =>
      v ← walk filename t;
      match v with
      | VNil => walkEntries walk path es
      | VSkipDir => if fi_IsDir fi then walkEntries walk path es else mret VSkipDir
      | VErr e => mret (VErr e)
      end
    end
  end.
Fixpoint walk (path : bytes) (t : fsNode) : M S verdict :=
  match t with
  | FFile fi _ => walkFn path t (Some fi) None
  | FDir fi rd es =>
    v ← walkFn path t (Some fi) (if rd then None else Some "readdirnames"%string);
    match v with
    | VNil => if rd then walkEntries (λ p t, walk p t) path es else mret VNil
    | v => mret v
    end
  | FGone => mret VNil
  end.
Definition Walk (root : bytes) (t : fsNode) : M S () :=
  v ← match lstat t with
      | None => walkFn root t None (Some "lstat"%string)
      | Some _ => walk root t
      end;
  match v with VErr e => lift (Err e) | _ => mret () end.
End Walk.

(** ** cmd/zoekt-index *)

(** The sink receives a path; with it goes what ReadFile will find there. *)
Record fileAggregator := MkAggregator { fa_ignoreDirs : gset bytes; fa_sizeMax : Z }.
Definition add (a : fileAggregator) (path : bytes) (t : fsNode) (info : option FileInfo) (err : option string) : M (list (bytes * fsNode)) verdict :=
  match err with
  | Some e => mret (VErr e)
  | None =>
    match info with
    | None => lift (Panic "nil pointer dereference")
    | Some fi =>
      if fi_IsDir fi && bool_decide (PathBase path ∈ fa_ignoreDirs a) then mret VSkipDir
      else if (fa_sizeMax a <? fi_Size fi) || negb (fi_IsRegular fi) then mret VNil
      else _ ← modify (λ sink, sink ++ [(path, t)]); mret VNil
    end
  end.

Definition ignoreDirMap (ignoreDirs : bytes) : gset bytes :=
  if bool_decide (ignoreDirs = []) then ∅
  else foldl (λ m d, let d := TrimSpace d in if bool_decide (d = []) then m else {[d]} ∪ m) ∅ (SplitByte 44 ignoreDirs).

Definition set_RepoName (o : Options) (name : bytes) : Options :=
  MkOptions (op_SizeMax o) (op_Parallelism o) (op_ShardMax o) (set_Name (op_RepositoryDescription o) name) (op_SubRepositories o) (op_CTags o)
    (op_CTagsMustSucceed o).
Definition fileDocument (dir : bytes) (pt : bytes * fsNode) : res Document :=
  match snd pt with
  | FFile _ (Some content) => Ok (MkDocument (TrimPrefix (fst pt) (dir ++ [47])) content [] [] [] [] [])
  | _ => Err "read"
  end.
(** [Abs]: filepath.Abs. [fs]: what is at an absolute path. The options of the builder and the files that are added to it before Finish; the walk
    runs in a goroutine of its own, and an error of it ends the program. The error of AddFile is overlooked. *)
Definition indexArg `{SortAlg} (validTemplate : bytes → bool) (urlName : bytes → option bytes) (Abs : bytes → option bytes) (fs : bytes → fsNode) (arg : bytes)
    (opts : Options) (ignore : gset bytes) : res (Options * list Document) :=
  dir ← orErr "abs" (Abs (Clean arg));
  let opts := set_RepoName opts (PathBase dir) in
  _ ← NewBuilder validTemplate urlName opts;
  let '(r, sink) := Walk (add (MkAggregator ignore (op_SizeMax opts))) dir (fs dir) [] in
  _ ← r;
  docs ← mapM (fileDocument dir) sink;
  Ok (opts, docs).

(** ** gitindex: finding repositories *)

(** The info of a name below a path, if it is a directory. *)
Definition isDirAt (t : fsNode) (name : bytes) : bool := match lstat (entry t name) with Some fi => fi_IsDir fi | None => false end.
Definition findGitRepo (name : bytes) (t : fsNode) (fi : option FileInfo) (err : option string) : M (list bytes) verdict :=
  if isDirAt t (str ".git") then _ ← modify (λ dirs, dirs ++ [PathJoin [name; str ".git"]]); mret VSkipDir
  else if negb (HasSuffix name (str ".git")) then mret VNil
  else match fi with
       | None => lift (Panic "nil pointer dereference")
       | Some fi =>
         if negb (fi_IsDir fi) || negb (isDirAt t (str "objects")) then mret VNil
         else _ ← modify (λ dirs, dirs ++ [name]); mret VSkipDir
       end.
Definition FindGitRepos (Abs : bytes → option bytes) (fs : bytes → fsNode) (dir : bytes) : res (list bytes) :=
  arg ← orErr "abs" (Abs dir);
  let '(r, dirs) := Walk findGitRepo arg (fs arg) [] in
  _ ← r; Ok dirs.

(** The time of the last change of a file, 0 when there is none. *)
Definition newer (last : Z) (fi : FileInfo) : Z := if negb (fi_IsDir fi) && (last <? fi_ModTime fi) then fi_ModTime fi else last.
Definition modTime (name : bytes) (t : fsNode) (fi : option FileInfo) (err : option string) : M Z verdict :=
  match fi with
  | None => lift (Panic "nil pointer dereference")
  | Some fi => _ ← modify (λ last, newer last fi); mret VNil
  end.
Definition RepoModTime (dir : bytes) (t : fsNode) : res Z :=
  let refs := entry t (str "refs") in
  '(_, last) ← match lstat refs with
               | Some _ => let '(r, last) := Walk modTime (PathJoin [dir; str "refs"]) refs 0 in _ ← r; Ok ((), last)
               | None => Ok ((), 0)
               end;
  Ok (foldl (λ last t, match lstat t with Some fi => newer last fi | None => last end) last
        [nodeAt t [str "info"; str "refs"]; entry t (str "packed-refs")]).

(** [PlainOpen]: whether git.PlainOpen succeeds; [Rel]: filepath.Rel. *)
Definition listRepo (PlainOpen : bytes → bool) (Rel : bytes → bytes → option bytes) (baseDir path : bytes) (t : fsNode) (info : option FileInfo) (err : option string)
    : M (list bytes) verdict :=
  match err, info with
  | Some e, _ => mret (VErr e)
  | None, None => lift (Panic "nil pointer dereference")
  | None, Some fi =>
    if negb (fi_IsDir fi) then mret VNil
    else if HasSuffix path (str ".git") && negb (HasSuffix path (str "/.git")) then
      _ ← modify (λ paths, if PlainOpen path then match Rel baseDir path with Some p => paths ++ [p] | None => paths end else paths);
      mret VSkipDir
    else mret VNil
  end.
Definition ListRepos (PlainOpen : bytes → bool) (Rel : bytes → bytes → option bytes) (fs : bytes → fsNode) (baseDir : bytes) (u : URL) : res (list bytes) :=
  let key := PathJoin [u_Host u; u_Path u] in
  let root := PathJoin [baseDir; key] in
  let '(r, paths) := Walk (listRepo PlainOpen Rel baseDir) root (fs root) [] in
  _ ← r; Ok paths.

(** ** What a walk visits *)

Lemma wf_dir fi rd es : wfNode (FDir fi rd es) = true →
  fi_IsDir fi = true ∧ fi_IsRegular fi = false ∧ Forall (λ e, isName (fst e)) es ∧ Forall (λ e, wfNode (snd e) = true) es.
Proof.
  cbn [wfNode]. rewrite !andb_true_iff, forallb_elem, negb_true_iff. intros [[? ?] Hes]. split_and!; [done|done|..]; apply Forall_forall; intros e He;
    apply Hes, andb_true_iff in He as [Hn ?]; [by apply bool_decide_eq_true in Hn|done].
Qed.

Definition errOf (t : fsNode) : option string :=
  match t with FDir _ false _ => Some "readdirnames"%string | FGone => Some "lstat"%string | _ => None end.
Definition isDirNode (t : fsNode) : bool := match t with FDir _ _ _ => true | _ => false end.

Section Visit.
(** Directories that are not entered. *)
Context (stop : bytes → fsNode → bool).
Fixpoint visited (path : bytes) (t : fsNode) : list (bytes * fsNode) :=
  (path, t) ::
  match t with
  | FDir _ true es => if stop path t then [] else mjoin (map (λ e, visited (PathJoin [path; fst e]) (snd e)) es)
  | _ => []
  end.
(** A node below another one, with no stop on the way. *)
Inductive below : bytes → fsNode → bytes → fsNode → Prop :=
| below_here path t : below path t path t
| below_entry path fi es name t p' t' : stop path (FDir fi true es) = false → (name, t) ∈ es → below (PathJoin [path; name]) t p' t' →
    below path (FDir fi true es) p' t'.

Lemma elem_of_visited path t p' t' : (p', t') ∈ visited path t ↔ below path t p' t'.
Proof.
  split.
  - revert path. induction t as [fi c|fi rd es IH|] using fsNode_ind'; intros path Hin; apply elem_of_cons in Hin as [[= -> ->]|Hin]; try apply below_here;
      try by apply elem_of_nil in Hin.
    destruct rd; [|by apply elem_of_nil in Hin]. destruct (stop path _) eqn:Es; [by apply elem_of_nil in Hin|].
    apply list_elem_of_join in Hin as (l & Hin & Hl). change (map ?g es) with (g <$> es) in Hl. apply list_elem_of_fmap in Hl as ([name t] & -> & He).
    rewrite Forall_forall in IH. eapply below_entry; [exact Es|exact He|]. by apply (IH (name, t) He).
  - induction 1 as [path t|path fi es name t p' t' Es He _ IH]; [destruct t; left|]. cbn [visited]. rewrite Es. right.
    apply list_elem_of_join. eexists. split; [exact IH|]. change (map ?g es) with (g <$> es). apply list_elem_of_fmap. by exists (name, t).
Qed.

Context {S : Type} (walkFn : bytes → fsNode → option FileInfo → option string → M S verdict) (act : bytes → fsNode → S → S).
(** The callback goes on with a changed state, and stops where [stop] says. *)
Definition callsBack (p : bytes) (t : fsNode) : Prop :=
  (∀ s, walkFn p t (lstat t) (errOf t) s = (Ok (if stop p t then VSkipDir else VNil), act p t s)) ∧ (stop p t = true → isDirNode t = true).
Definition acts (s : S) (l : list (bytes * fsNode)) : S := foldl (λ s pt, act (fst pt) (snd pt) s) s l.


Definition visitedEntries (path : bytes) (es : list (bytes * fsNode)) : list (bytes * fsNode) :=
  mjoin (map (λ e, visited (PathJoin [path; fst e]) (snd e)) es).
Definition fine (l : list (bytes * fsNode)) : Prop := Forall (λ pt, callsBack (fst pt) (snd pt)) l.
(** The walk of a node leaves the state of its visits. *)
Definition walks (t : fsNode) : Prop := ∀ path s, lstat t ≠ None → wfNode t = true → fine (visited path t) →
  ∃ v, walk walkFn path t s = (Ok v, acts s (visited path t)) ∧ (v = VNil ∨ v = VSkipDir ∧ isDirNode t = true).

Lemma walkEntries_visited path es s : Forall (λ e, walks (snd e)) es → Forall (λ e, wfNode (snd e) = true) es → fine (visitedEntries path es) →
  walkEntries walkFn (λ p t, walk walkFn p t) path es s = (Ok VNil, acts s (visitedEntries path es)).
Proof.
  unfold visitedEntries. revert s. induction es as [|[name t] es IHes]; intros s IH Hwf Hv; [done|].
  apply Forall_cons in IH as [IHt IH]. apply Forall_cons in Hwf as [Hwt Hwf]. cbn [map snd fst] in *. rewrite mjoin_cons in Hv |- *. apply Forall_app in Hv as [Hv1 Hv2].
  unfold acts. rewrite foldl_app. fold (acts s (visited (PathJoin [path; name]) t)).
  specialize (IHt (PathJoin [path; name]) s). cbn [walkEntries]. unfold mbind, M_bind. destruct t as [fi c|fi rd es'|]; cbn [lstat] in *.
  - destruct IHt as (v & -> & Hvv); [done..|]. destruct Hvv as [->|[_ Hd]]; [by apply IHes|done].
  - destruct IHt as (v & -> & Hvv); [done..|]. apply wf_dir in Hwt as [-> _]. destruct Hvv as [->|[-> _]]; by apply IHes.
  - apply Forall_cons in Hv1 as [[Hc Hs] _]. cbn [fst snd lstat errOf] in *. rewrite Hc. unfold acts at 1. cbn [visited foldl fst snd].
    destruct (stop _ FGone); [by specialize (Hs eq_refl)|]. by apply IHes.
Qed.
Lemma walk_visited t : walks t.
Proof.
  induction t as [fi c|fi rd es IH|] using fsNode_ind'; intros path s Hl Hwf Hv; [| |done].
  - apply Forall_cons in Hv as [[Hc Hs] _]. cbn [fst snd lstat errOf] in *. cbn [walk]. rewrite Hc. eexists. split; [done|].
    destruct (stop _ _); [by specialize (Hs eq_refl)|by left].
  - change (visited path (FDir fi rd es)) with ((path, FDir fi rd es) :: if rd then if stop path (FDir fi rd es) then [] else visitedEntries path es else []) in *.
    apply Forall_cons in Hv as [[Hc Hs] Hv]. cbn [fst snd lstat errOf] in Hc, Hs. cbn [walk]. unfold mbind, M_bind.
    apply wf_dir in Hwf as (Hdir & _ & _ & Hwf). destruct rd; rewrite Hc; destruct (stop path _); try (eexists; split; [done|by (left + right)]).
    rewrite walkEntries_visited by done. eexists. split; [done|by left].
Qed.
Lemma Walk_visited path t s : wfNode t = true → Forall (λ pt, callsBack (fst pt) (snd pt)) (visited path t) →
  Walk walkFn path t s = (Ok (), acts s (visited path t)).
Proof.
  intros Hwf Hv. unfold Walk, mbind, M_bind. destruct (lstat t) as [fi|] eqn:El.
  - destruct (walk_visited t path s) as (v & -> & Hvv); [by rewrite El|done|done|]. by destruct Hvv as [->|[-> _]].
  - destruct t; try done. apply Forall_cons in Hv as [[Hc Hs] _]. cbn [fst snd lstat errOf] in *. rewrite Hc. unfold acts. cbn [visited foldl fst snd].
    destruct (stop path FGone); [by specialize (Hs eq_refl)|done].
Qed.
End Visit.

(** What holds of the state at first, and is kept by the callback on every node below the root, holds at the end. *)
Section Invariant.
Context {S : Type} (walkFn : bytes → fsNode → option FileInfo → option string → M S verdict) (I : S → Prop).
#[local] Abbreviation under := (below (λ _ _, false)).
Definition keeps (root : bytes) (t : fsNode) : Prop := ∀ p t' fi err s v s', under root t p t' → I s → walkFn p t' fi err s = (v, s') → I s'.
Lemma walkEntries_inv path es s v s' : Forall (λ e, ∀ path s v s', keeps path (snd e) → I s → walk walkFn path (snd e) s = (v, s') → I s') es →
  (∀ name t, (name, t) ∈ es → keeps (PathJoin [path; name]) t) → I s → walkEntries walkFn (λ p t, walk walkFn p t) path es s = (v, s') → I s'.
Proof.
  revert s. induction es as [|[name t] es IHes]; intros s IH Hk Hs E; [by injection E as _ <-|]. apply Forall_cons in IH as [IHt IH]. cbn [snd] in IHt.
  assert (keeps (PathJoin [path; name]) t) as Ht by (apply Hk; left). assert (∀ name t, (name, t) ∈ es → keeps (PathJoin [path; name]) t) as Hk' by (intros; apply Hk; by right).
  cbn [walkEntries] in E. unfold mbind, M_bind in E. destruct (lstat t) as [fi|].
  - destruct (walk walkFn _ t s) as [v1 s1] eqn:E1. specialize (IHt _ _ _ _ Ht Hs E1). destruct v1 as [[| |]| | |]; try (by injection E as _ <-); [exact (IHes _ IH Hk' IHt E)|].
    destruct (fi_IsDir fi); [exact (IHes _ IH Hk' IHt E)|by injection E as _ <-].
  - destruct (walkFn _ t None _ s) as [v1 s1] eqn:E1. assert (I s1) as Hs1 by (eapply Ht; [apply below_here|exact Hs|exact E1]).
    destruct v1 as [[| |]| | |]; try (by injection E as _ <-); exact (IHes _ IH Hk' Hs1 E).
Qed.
Lemma walk_inv t : ∀ path s v s', keeps path t → I s → walk walkFn path t s = (v, s') → I s'.
Proof.
  induction t as [fi c|fi rd es IH|] using fsNode_ind'; intros path s v s' Hk Hs E; cbn [walk] in E; [| |by injection E as _ <-].
  - eapply Hk; [apply below_here|exact Hs|exact E].
  - unfold mbind, M_bind in E. destruct (walkFn _ _ _ _ s) as [v1 s1] eqn:E1. assert (I s1) as Hs1 by (eapply Hk; [apply below_here|exact Hs|exact E1]).
    destruct v1 as [[| |]| | |]; try (by injection E as _ <-). destruct rd; [|by injection E as _ <-].
    eapply walkEntries_inv; [exact IH| |exact Hs1|exact E]. intros name t Ht p t' fi' err s2 v2 s2' Hb. eapply Hk. by eapply below_entry.
Qed.
Lemma Walk_inv root t s r s' : keeps root t → I s → Walk walkFn root t s = (r, s') → I s'.
Proof.
  intros Hk Hs. unfold Walk, mbind, M_bind. destruct (lstat t) as [fi|].
  - destruct (walk walkFn root t s) as [v s1] eqn:E1. pose proof (walk_inv t _ _ _ _ Hk Hs E1). destruct v as [[| |]| | |]; by intros [= _ <-].
  - destruct (walkFn root t None _ s) as [v s1] eqn:E1. assert (I s1) by (eapply Hk; [apply below_here|exact Hs|exact E1]). destruct v as [[| |]| | |]; by intros [= _ <-].
Qed.
End Invariant.
(** The paths of a walk extend that of its root. *)
Lemma below_path stop rs t p t' : rs ≠ [] → Forall isName rs → wfNode t = true → below stop (47 :: Join [47] rs) t p t' →
  ∃ cs, Forall isName cs ∧ p = 47 :: Join [47] (rs ++ cs).
Proof.
  intros Hne Hrs Hw Hb. remember (47 :: Join [47] rs) as root eqn:Er. revert rs Er Hne Hrs Hw.
  induction Hb as [path t|path fi es name t p' t' _ He _ IH]; intros rs -> Hne Hrs Hw; [exists []; by rewrite app_nil_r|].
  apply wf_dir in Hw as (_ & _ & Hn & Hw). rewrite Forall_forall in Hn, Hw. specialize (Hn _ He). specialize (Hw _ He). cbn [fst snd] in *.
  rewrite PathJoin_rooted in IH by done. destruct (IH (rs ++ [name])) as (cs & Hcs & ->); [done|by intros [_ ?]%app_nil|apply Forall_app; split; [done|by constructor]|done|].
  exists (name :: cs). split; [by constructor|]. by rewrite <- app_assoc.
Qed.

(** ** The documents of a directory *)

Section IndexDir.
Context (a : fileAggregator).

Definition accepted (t : fsNode) : bool :=
  match lstat t with Some fi => negb ((fa_sizeMax a <? fi_Size fi) || negb (fi_IsRegular fi)) | None => false end.
Definition ignored (path : bytes) (t : fsNode) : bool := isDirNode t && bool_decide (PathBase path ∈ fa_ignoreDirs a).

(** The files below a directory, in the order of their names, without those in ignored directories: their paths from the directory, and
    their contents. *)
Fixpoint heldFiles (cs : list bytes) (t : fsNode) : list (list bytes * option bytes) :=
  match t with
  | FFile _ c => if accepted t then [(cs, c)] else []
  | FDir _ _ es => mjoin (map (λ e, if isDirNode (snd e) && bool_decide (fst e ∈ fa_ignoreDirs a) then [] else heldFiles (cs ++ [fst e]) (snd e)) es)
  | FGone => []
  end.

Lemma add_calls p t : wfNode t = true → errOf t = None →
  callsBack ignored (add a) (λ p t sink, if ignored p t then sink else if accepted t then sink ++ [(p, t)] else sink) p t.
Proof.
  intros Hwf He. split; [|unfold ignored; by intros [? _]%andb_true_iff]. intros s. unfold add, ignored, accepted. rewrite He.
  destruct t as [fi c|fi rd es|]; cbn [lstat isDirNode]; [| |done].
  - assert (fi_IsDir fi = false) as -> by (by apply negb_true_iff). cbn [andb]. by destruct ((_ <? _) || _).
  - apply wf_dir in Hwf as (-> & _). cbn [andb]. case_bool_decide; [done|]. by destruct ((_ <? _) || _).
Qed.

(** The document of a file. *)
Definition heldDocument (f : list bytes * option bytes) : res Document :=
  content ← orErr "read" (snd f); Ok (MkDocument (Join [47] (fst f)) content [] [] [] [] []).

(** Directories and entries that can be read. *)
Fixpoint readable (t : fsNode) : bool :=
  match t with FFile _ _ => true | FDir _ rd es => rd && forallb (λ e, readable (snd e)) es | FGone => false end.

Lemma below_readable stop p t p' t' : below stop p t p' t' → readable t = true → wfNode t = true → errOf t' = None ∧ wfNode t' = true.
Proof.
  induction 1 as [path t|path fi es name t p' t' _ He _ IH]; intros Hr Hw; [split; [|done]; destruct t as [| ? [] ?|]; done|].
  cbn [readable andb] in Hr. rewrite forallb_elem in Hr. apply wf_dir in Hw as (_ & _ & _ & Hw). rewrite Forall_forall in Hw.
  apply IH; [by apply (Hr (name, t))|by apply (Hw (name, t))].
Qed.

Context (ds : list bytes) (Hds : Forall isName ds) (Hne : ds ≠ []).
#[local] Abbreviation dir := (47 :: Join [47] ds).
#[local] Abbreviation collect := (λ sink pt, if ignored (fst pt) (snd pt) then sink else if accepted (snd pt) then sink ++ [pt] else sink).

Lemma collect_app l sink : foldl collect sink l = sink ++ foldl collect [] l.
Proof.
  revert sink. induction l as [|pt l IH]; intros sink; [by rewrite app_nil_r|]. cbn [foldl].
  destruct (ignored _ _); [apply IH|]. destruct (accepted _); [|apply IH]. rewrite (IH (sink ++ [pt])), (IH ([] ++ [pt])). by rewrite <- app_assoc.
Qed.
Lemma fileDocument_at cs t : cs ≠ [] → fileDocument dir (47 :: Join [47] (ds ++ cs), t)
  = content ← orErr "read" (match t with FFile _ c => c | _ => None end); Ok (MkDocument (Join [47] cs) content [] [] [] [] []).
Proof.
  intros Hcs. unfold fileDocument. cbn [fst snd].
  assert (TrimPrefix (47 :: Join [47] (ds ++ cs)) (dir ++ [47]) = Join [47] cs) as ->; [|by destruct t as [fi [c|]| |]].
  rewrite Join_app by done. unfold TrimPrefix.
  replace (47 :: Join [47] ds ++ [47] ++ Join [47] cs) with ((dir ++ [47]) ++ Join [47] cs) by (by rewrite <- app_assoc).
  assert (HasPrefix ((dir ++ [47]) ++ Join [47] cs) (dir ++ [47]) = true) as -> by (apply HasPrefix_spec; by eexists). by rewrite drop_app_length.
Qed.

(** What the walk sends, as documents. *)
Lemma visited_documents t cs : readable t = true → wfNode t = true → Forall isName cs → cs ≠ [] ∨ isDirNode t = true →
  ignored (47 :: Join [47] (ds ++ cs)) t = false →
  mapM (fileDocument dir) (foldl collect [] (visited ignored (47 :: Join [47] (ds ++ cs)) t)) = mapM heldDocument (heldFiles cs t).
Proof.
  revert cs. induction t as [fi c|fi rd es IH|] using fsNode_ind'; intros cs Hr Hw Hcs Hroot Hig; [| |done].
  - destruct Hroot as [Hcs0|?]; [|done]. cbn [visited heldFiles foldl fst snd]. rewrite Hig. destruct (accepted _); [|done]. simpl app.
    cbn [mapM]. by rewrite fileDocument_at.
  - cbn [readable] in Hr. apply andb_true_iff in Hr as [-> Hr]. rewrite forallb_elem in Hr. apply wf_dir in Hw as (Hd & Hreg & Hn & Hw).
    change (visited ignored ?p (FDir fi true es)) with ((p, FDir fi true es) :: if ignored p (FDir fi true es) then [] else visitedEntries ignored p es).
    cbn [foldl fst snd heldFiles]. rewrite Hig.
    assert (accepted (FDir fi true es) = false) as -> by (unfold accepted; cbn [lstat]; by rewrite Hreg, orb_true_r). unfold visitedEntries. clear Hroot Hig Hd. induction es as [|[name t] es IHes]; [done|].
    apply Forall_cons in IH as [IHt IH]. apply Forall_cons in Hn as [Hn1 Hn]. apply Forall_cons in Hw as [Hw1 Hw]. cbn [map fst snd] in *. rewrite !mjoin_cons, foldl_app, collect_app.
    rewrite !mapM_app.
    rewrite IHes by (try done; intros e He; apply Hr; by right).
    assert (Forall isName (ds ++ cs)) as Hall by (by apply Forall_app). rewrite PathJoin_rooted, <- app_assoc by done.
    assert (isDirNode t && bool_decide (name ∈ fa_ignoreDirs a) = ignored (47 :: Join [47] (ds ++ cs ++ [name])) t) as ->.
    { unfold ignored. rewrite app_assoc, Join_snoc by (by intros [? _]%app_nil). change (47 :: Join [47] (ds ++ cs) ++ [47] ++ name) with ((47 :: Join [47] (ds ++ cs)) ++ 47 :: name).
      by rewrite PathBase_name. }
    destruct (ignored _ t) eqn:Ei.
    + destruct t as [| |]; try done. cbn [visited]. rewrite Ei. cbn [foldl fst snd]. rewrite Ei. by destruct readable0.
    + rewrite IHt; [done|apply (Hr (name, t)); left|done|apply Forall_app; split; [done|by constructor]|left; by intros [_ ?]%app_nil|done].
Qed.

Lemma Walk_add t : readable t = true → wfNode t = true →
  Walk (add a) dir t [] = (Ok (), foldl collect [] (visited ignored dir t)).
Proof.
  intros Hr Hw. rewrite (Walk_visited ignored (add a) (λ p t sink, if ignored p t then sink else if accepted t then sink ++ [(p, t)] else sink)).
  - f_equal. unfold acts. assert (∀ l s, foldl (λ s pt, if ignored (fst pt) (snd pt) then s else if accepted (snd pt) then s ++ [(fst pt, snd pt)] else s) s l = foldl collect s l)
      as Hgo by (induction l as [|[p u] l IH]; intros s; [done|apply IH]). apply Hgo.
  - done.
  - apply Forall_forall. intros [p u] Hin%elem_of_visited. destruct (below_readable _ _ _ _ _ Hin Hr Hw). by apply add_calls.
Qed.
End IndexDir.

(** *** Finding repositories *)

(** The repositories below a path: a directory with a directory .git, or one named *.git with a directory objects, and none below those. *)
Definition bareRepo (path : bytes) (t : fsNode) : bool := HasSuffix path (str ".git") && isDirNode t && isDirAt t (str "objects").
Definition repoStop (path : bytes) (t : fsNode) : bool := isDirAt t (str ".git") || bareRepo path t.
Fixpoint gitRepos (path : bytes) (t : fsNode) : list bytes :=
  if isDirAt t (str ".git") then [PathJoin [path; str ".git"]]
  else if bareRepo path t then [path]
  else match t with FDir _ true es => mjoin (map (λ e, gitRepos (PathJoin [path; fst e]) (snd e)) es) | _ => [] end.
(** No entry with such a name vanishes before Lstat. *)
Definition repoSeen (path : bytes) (t : fsNode) : Prop := t = FGone → HasSuffix path (str ".git") = false.

Lemma findGitRepo_calls p t : wfNode t = true → repoSeen p t →
  callsBack repoStop findGitRepo (λ p t dirs, dirs ++ if isDirAt t (str ".git") then [PathJoin [p; str ".git"]] else if bareRepo p t then [p] else []) p t.
Proof.
  intros Hw Hseen. split.
  - intros s. unfold findGitRepo, repoStop, bareRepo. destruct (isDirAt t (str ".git")) eqn:Eg; [done|]. cbn [orb].
    destruct (HasSuffix p (str ".git")) eqn:Es; cbn [negb andb]; [|by rewrite app_nil_r]. destruct t as [fi c|fi rd es|]; cbn [lstat isDirNode andb].
    + cbn [wfNode] in Hw. rewrite Hw. cbn [orb]. by rewrite app_nil_r.
    + apply wf_dir in Hw as (-> & _). cbn [negb orb]. by destruct (isDirAt (FDir fi rd es) (str "objects")); cbn [negb]; rewrite ?app_nil_r.
    + rewrite Hseen in Es; done.
  - unfold repoStop, bareRepo, isDirAt, entry. destruct t; cbn [lstat isDirNode]; rewrite ?andb_false_r; done.
Qed.
Lemma visited_repos path t s : foldl (λ dirs pt, dirs ++ if isDirAt (snd pt) (str ".git") then [PathJoin [fst pt; str ".git"]] else if bareRepo (fst pt) (snd pt) then [fst pt] else [])
  s (visited repoStop path t) = s ++ gitRepos path t.
Proof.
  revert path s. induction t as [fi c|fi rd es IH|] using fsNode_ind'; intros path s.
  - cbn [visited foldl fst snd gitRepos]. by repeat case_match.
  - change (visited repoStop path (FDir fi rd es)) with ((path, FDir fi rd es) :: if rd then if repoStop path (FDir fi rd es) then [] else visitedEntries repoStop path es else []).
    cbn [foldl fst snd gitRepos]. unfold repoStop. destruct (isDirAt (FDir fi rd es) (str ".git")); [by destruct rd|]. cbn [orb].
    destruct (bareRepo path (FDir fi rd es)); [by destruct rd|]. rewrite app_nil_r. destruct rd; [|by rewrite app_nil_r]. unfold visitedEntries.
    revert s. induction es as [|[name t] es IHes]; intros s; [simpl; by rewrite app_nil_r|]. apply Forall_cons in IH as [IHt IH].
    cbn [map fst snd] in *. rewrite !mjoin_cons, foldl_app. change (isDirAt ?x ?y || bareRepo ?p ?x) with (repoStop p x) in *. rewrite IHt. rewrite (IHes IH). by rewrite app_assoc.
  - cbn [visited foldl fst snd gitRepos]. by repeat case_match.
Qed.

(** *** Times *)

Definition isFileAt (fi : FileInfo) (t : fsNode) : Prop := lstat t = Some fi ∧ fi_IsDir fi = false.
(** The latest time of a list of nodes: not before [s] nor the time of any file, and one of these. *)
Lemma newest (l : list fsNode) s : let last := foldl (λ last t, match lstat t with Some fi => newer last fi | None => last end) s l in
  s <= last ∧ (∀ t fi, t ∈ l → isFileAt fi t → fi_ModTime fi <= last) ∧ (last = s ∨ ∃ t fi, t ∈ l ∧ isFileAt fi t ∧ fi_ModTime fi = last).
Proof.
  revert s. induction l as [|t l IH]; intros s; cbn [foldl]; [split_and!; [lia|by intros ? ? ?%elem_of_nil|by left]|].
  destruct (IH (match lstat t with Some fi => newer s fi | None => s end)) as (H1 & H2 & H3).
  assert (∀ fi, isFileAt fi t → s <= newer s fi ∧ fi_ModTime fi <= newer s fi ∧ (newer s fi = s ∨ newer s fi = fi_ModTime fi)) as Hn.
  { intros fi [_ Hd]. unfold newer. rewrite Hd. cbn [negb andb]. destruct (Z.ltb_spec s (fi_ModTime fi)); lia. }
  assert (s <= match lstat t with Some fi => newer s fi | None => s end) as Hs.
  { destruct (lstat t) as [fi|]; [|lia]. unfold newer. destruct (negb _); cbn [andb]; [|lia]. destruct (Z.ltb_spec s (fi_ModTime fi)); lia. }
  split_and!; [lia| |].
  - intros u fi [->|Hu]%elem_of_cons Hf; [|by eapply H2]. destruct (Hn fi Hf) as (_ & Hle & _). destruct Hf as [El _]. rewrite El in H1 |- *. lia.
  - destruct H3 as [E|(u & fi & Hu & Hf & E)]; [|right; exists u, fi; split_and!; [by right|done..]]. destruct (lstat t) as [fi|] eqn:El; [|by left].
    unfold newer in E |- *. destruct (negb (fi_IsDir fi) && (s <? fi_ModTime fi)) eqn:Eb; [|by left]. right. exists t, fi.
    apply andb_true_iff in Eb as [Eb _]. apply negb_true_iff in Eb. rewrite E. split_and!; [left|by split|done].
Qed.
Lemma Walk_modTime path t : wfNode t = true → (∀ p' t', below (λ _ _, false) path t p' t' → t' ≠ FGone) →
  Walk modTime path t 0 = (Ok (), foldl (λ last t, match lstat t with Some fi => newer last fi | None => last end) 0 (snd <$> visited (λ _ _, false) path t)).
Proof.
  intros Hw Hg. rewrite (Walk_visited (λ _ _, false) modTime (λ _ t last, match lstat t with Some fi => newer last fi | None => last end)).
  - f_equal. unfold acts. by rewrite foldl_fmap.
  - done.
  - apply Forall_forall. intros [p' t'] Hin%elem_of_visited. split; [|done]. intros s. cbn [fst snd]. unfold modTime.
    specialize (Hg _ _ Hin). by destruct t'.
Qed.

(** ** Properties *)

(** C9: the documents of a directory. When its directories can be read and a builder can be made for its name, zoekt-index adds to the builder exactly the
    regular files in it that are not larger than the limit, in directories at any depth but not below one with an
    ignored name, each under its path relative to the directory and with its contents, in lexical order; it fails when
    one of these cannot be read. *)
Theorem indexArg_documents `{SortAlg} (validTemplate : bytes → bool) (urlName : bytes → option bytes) (Abs : bytes → option bytes) (fs : bytes → fsNode)
    (arg : bytes) (ds : list bytes) (opts : Options) (ignore : gset bytes) :
  let dir := 47 :: Join [47] ds in
  let bo := set_RepoName opts (PathBase dir) in
  let a := MkAggregator ignore (op_SizeMax opts) in
  ds ≠ [] → Forall isName ds → Abs (Clean arg) = Some dir →
  isDirNode (fs dir) = true → readable (fs dir) = true → wfNode (fs dir) = true → PathBase dir ∉ ignore →
  indexArg validTemplate urlName Abs fs arg opts ignore = _ ← NewBuilder validTemplate urlName bo; docs ← mapM heldDocument (heldFiles a [] (fs dir)); Ok (bo, docs).
Proof.
  intros dir bo a Hne Hds Habs Hd Hr Hw Hig. unfold indexArg. rewrite Habs. cbn [orErr mbind res_bind]. fold dir bo.
  destruct (NewBuilder validTemplate urlName bo) as [b| | |]; cbn [mbind res_bind]; try done. change (op_SizeMax bo) with (op_SizeMax opts). fold a.
  unfold dir. rewrite (Walk_add a ds) by done. cbn [mbind res_bind]. fold dir.
  pose proof (visited_documents a ds Hds Hne (fs dir) [] Hr Hw ltac:(constructor) ltac:(by right)) as E. rewrite app_nil_r in E. fold dir in E. rewrite E; [done|].
  unfold ignored. rewrite Hd. by apply bool_decide_false.
Qed.

(** The git repositories below a directory. FindGitRepos returns the directories .git and, outside of these and of each other, the directories
    with a name that ends in .git and with a directory objects, unless an entry with such a name vanishes while it walks. *)
Theorem FindGitRepos_spec (Abs : bytes → option bytes) (fs : bytes → fsNode) (dir arg : bytes) (Habs : Abs dir = Some arg) (Hw : wfNode (fs arg) = true)
    (Hseen : ∀ p t, below repoStop arg (fs arg) p t → repoSeen p t) :
  FindGitRepos Abs fs dir = Ok (gitRepos arg (fs arg)).
Proof.
  unfold FindGitRepos. rewrite Habs. cbn [orErr mbind res_bind].
  rewrite (Walk_visited repoStop findGitRepo (λ p t dirs, dirs ++ if isDirAt t (str ".git") then [PathJoin [p; str ".git"]] else if bareRepo p t then [p] else [])); [|done|].
  - cbn [mbind res_bind]. f_equal. unfold acts. apply (visited_repos arg (fs arg) []).
  - apply Forall_forall. intros [p t] Hin%elem_of_visited. apply findGitRepo_calls; [|by apply Hseen]. clear -Hin Hw.
    induction Hin as [path t|path fi es name t p' t' _ He _ IH]; [done|]. apply IH. apply wf_dir in Hw as (_ & _ & _ & Hw). rewrite Forall_forall in Hw. by apply (Hw (name, t)).
Qed.

(** The time of a repository: no file below refs, nor info/refs nor packed-refs, is newer, and one of them has this time unless there is none
    with a time after 0. *)
Theorem RepoModTime_spec (dir : bytes) (t : fsNode) (Hw : wfNode (entry t (str "refs")) = true)
    (Hseen : ∀ p t', below (λ _ _, false) (PathJoin [dir; str "refs"]) (entry t (str "refs")) p t' → t' ≠ FGone ∨ entry t (str "refs") = FGone) :
  let looked u := (∃ p, below (λ _ _, false) (PathJoin [dir; str "refs"]) (entry t (str "refs")) p u) ∨
    u = nodeAt t [str "info"; str "refs"] ∨ u = entry t (str "packed-refs") in
  ∃ last, RepoModTime dir t = Ok last ∧ (∀ u fi, looked u → isFileAt fi u → fi_ModTime fi <= last) ∧
    (last = 0 ∨ ∃ u fi, looked u ∧ isFileAt fi u ∧ fi_ModTime fi = last).
Proof.
  intros looked. unfold RepoModTime. set (refs := entry t (str "refs")) in *. set (packed := [nodeAt t [str "info"; str "refs"]; entry t (str "packed-refs")]).
  set (ls := if lstat refs then snd <$> visited (λ _ _, false) (PathJoin [dir; str "refs"]) refs else []).
  assert (∀ u fi, isFileAt fi u → looked u ↔ u ∈ ls ++ packed) as Hlook.
  { intros u fi [Hl _]. unfold looked, packed, ls. rewrite elem_of_app, !elem_of_cons, elem_of_nil. destruct (lstat refs) eqn:El.
    - rewrite list_elem_of_fmap. split; (intros [Hu|Hu]; [left|naive_solver]).
      + destruct Hu as [p Hu]. exists (p, u). split; [done|]. by apply elem_of_visited.
      + destruct Hu as ([p u'] & -> & Hu%elem_of_visited). by exists p.
    - rewrite elem_of_nil. split; [|naive_solver]. intros [[p Hu]|?]; [|naive_solver]. inversion Hu; subst; [congruence|]. by rewrite <- H in El. }
  destruct (newest (ls ++ packed) 0) as (_ & H2 & H3). rewrite foldl_app in H2, H3.
  set (last := foldl _ (foldl _ 0 ls) packed) in H2, H3. exists last. split_and!.
  - unfold last, ls. destruct (lstat refs) eqn:El; [|done]. rewrite Walk_modTime; [done|done|]. intros p' t' Hb. destruct (Hseen p' t' Hb) as [?|Eg]; [done|]. by rewrite Eg in El.
  - intros u fi Hu Hf. apply (H2 u fi); [by eapply Hlook|done].
  - destruct H3 as [?|(u & fi & Hu & Hf & E)]; [by left|]. right. exists u, fi. split_and!; [by eapply Hlook|done..].
Qed.

(** Witnesses. *)
Definition regular (size : Z) (c : bytes) : fsNode := FFile (MkFileInfo false true size 7) (Some c).
Definition directory_ (es : list (bytes * fsNode)) : fsNode := FDir (MkFileInfo true false 4096 7) true es.
Definition toyDir : fsNode :=
  directory_ [(str ".git", directory_ [(str "HEAD", regular 4 (str "main")); (str "objects", directory_ [])]);
              (str "a.c", regular 3 (str "int"));
              (str "lib", directory_ [(str "b.go", regular 2 (str "go")); (str "big", regular 200 [])])].
Definition toyFs (p : bytes) : fsNode := if decide (p = str "/src/zoekt") then toyDir else FGone.
Definition toyDirOptions : Options := MkOptions 100 1 1000 repository0 None [] false.

Lemma indexArg_documents_witness :
  match @indexArg merge_sort_alg (λ _, true) (λ _, None) Some toyFs (str "/src/zoekt/") toyDirOptions {[str ".git"]} with
  | Ok (bo, docs) => r_Name (op_RepositoryDescription bo) = str "zoekt" ∧
      ((λ d, (doc_Name d, doc_Content d)) <$> docs) = [(str "a.c", str "int"); (str "lib/b.go", str "go")]
  | _ => False
  end.
Proof.
  rewrite (@indexArg_documents merge_sort_alg (λ _, true) (λ _, None) Some toyFs (str "/src/zoekt/") [str "src"; str "zoekt"] toyDirOptions {[str ".git"]}).
  - vm_compute. split; reflexivity.
  - discriminate.
  - repeat (apply Forall_cons_2; [apply (@bool_decide_unpack _ (isName_dec _)); vm_compute; reflexivity|]). apply Forall_nil_2.
  - reflexivity.
  - reflexivity.
  - reflexivity.
  - vm_compute. reflexivity.
  - apply (bool_decide_unpack _). vm_compute. reflexivity.
Defined.

Lemma FindGitRepos_spec_witness : FindGitRepos Some toyFs (str "/src/zoekt") = Ok [str "/src/zoekt/.git"].
Proof.
  rewrite (FindGitRepos_spec Some toyFs (str "/src/zoekt") (str "/src/zoekt")).
  - vm_compute. reflexivity.
  - reflexivity.
  - vm_compute. reflexivity.
  - intros p t Hb ->. apply elem_of_visited in Hb. vm_compute in Hb. repeat (apply elem_of_cons in Hb as [Hb|Hb]; [discriminate Hb|]). by apply elem_of_nil in Hb.
Defined.

(** A repository that is deleted while FindGitRepos looks at its parent makes the program crash: the callback uses the info although it is
    nil when there is an error. *)
Example vanished_repository_panics :
  FindGitRepos Some (λ _, directory_ [(str "old.git", FGone)]) (str "/repos") = Panic "nil pointer dereference".
Proof. vm_compute. reflexivity. Qed.
