(* ===== verification/Mirror.v ===== *)
(** * Mirroring repositories

    The commands that find the repositories of a host and clone them: gitindex/clone.go, cmd/zoekt-mirror-github, cmd/zoekt-mirror-gitiles
    (with cgit) and cmd/zoekt-mirror-gerrit. Answers of web servers and the git command are parameters; what is kept is the
    set of repositories that exist, the commands that were run and the options that were set in the repositories' configurations. *)

From S2P Require Import Prelude GoStd GoText Bits Api HitIter MatchIter Query Section IndexBuilder IndexData Content MatchTree Eval Decide Shard Gather Lines Ctags Build Git Files.

(** ** gitindex/clone.go *)

Record mirror := MkMirror { mi_dirs : gset bytes; mi_log : list (list bytes); mi_options : gmap bytes (gmap bytes bytes) }.
Definition PathDir (p : bytes) : bytes := Clean (SplitDir p).

Section Clone.
Context `{SortAlg}.
(** Whether MkdirAll fails for a directory, and whether a command succeeds. *)
Context (mkdirFails : bytes → bool) (succeeds : list bytes → bool).

Definition cloneDest (destDir name : bytes) : bytes := PathJoin [PathJoin [destDir; PathDir name]; PathBase name ++ str ".git"].
Definition cloneCommand (repoDest cloneURL : bytes) (settings : gmap bytes bytes) : list bytes :=
  let keys := go_sort string_less (fst <$> map_to_list settings) in
  [str "git"; str "clone"; str "--bare"; str "--verbose"; str "--progress"; str "--config"; str "remote.origin.fetch=+refs/heads/*:refs/heads/*"] ++
  mjoin ((λ k, [str "--config"; k ++ 61 :: default [] (settings !! k)]) <$> keys) ++ [cloneURL; repoDest].
(** A command that succeeds leaves the repository at its last argument. *)
Definition run (dest : bytes) (cmd : list bytes) : M mirror () := λ m,
  let m := MkMirror (mi_dirs m) (mi_log m ++ [cmd]) (mi_options m) in
  if succeeds cmd then (Ok (), MkMirror ({[dest]} ∪ mi_dirs m) (mi_log m) (mi_options m)) else (Err "git", m).
Definition CloneRepo (destDir name cloneURL : bytes) (settings : gmap bytes bytes) : M mirror () :=
  let parent := PathJoin [destDir; PathDir name] in
  if mkdirFails parent then lift (Err "mkdir")
  else
    let repoDest := cloneDest destDir name in
    there ← gets (λ m, bool_decide (repoDest ∈ mi_dirs m));
    if (there : bool) then mret () else run repoDest (cloneCommand repoDest cloneURL settings).
End Clone.

(** ** cmd/zoekt-mirror-github *)

(** github.Repository; pointers may be nil. *)
Record ghRepository := MkGh {
  gh_Name : option bytes;
  gh_FullName : option bytes;
  gh_HTMLURL : option bytes;
  gh_CloneURL : option bytes;
  gh_Fork : option bool;
  gh_Stars : option Z;
  gh_Watchers : option Z;
  gh_Subscribers : option Z;
  gh_Forks : option Z }.
Definition deref {A} (p : option A) : res A := match p with Some a => Ok a | None => Panic "nil pointer dereference" end.

Section GitHub.
Context `{SortAlg}.
Context (mkdirFails : bytes → bool) (succeeds : list bytes → bool) (removeFails : bytes → bool).
Context (urlParse : bytes → option URL) (PlainOpen : bytes → bool) (Rel : bytes → bytes → option bytes).
(** Opening the repository at a path, or writing its configuration, fails. *)
Context (updateFails : bytes → bool).

(** getOrgRepos and getUserRepos: [list] answers a page with repositories and the next page. *)
Fixpoint getRepos (list : Z → option (list ghRepository * Z)) (fuel : nat) (page : Z) : res (Datatypes.list ghRepository) :=
  match fuel with
  | O => OutOfFuel
  | S fuel =>
    '(repos, next) ← orErr "github" (list page);
    if bool_decide (repos = []) then Ok []
    else
      _ ← mapM (λ r, deref (gh_Name r)) repos;
      if next =? 0 then Ok repos else rest ← getRepos list fuel next; Ok (repos ++ rest)
  end.

Definition updateOptions (r : ghRepository) : list (bytes * bytes) :=
  omap (λ kv, (λ n, (fst kv, Itoa n)) <$> snd kv)
    [(str "github-stars", gh_Stars r); (str "github-watchers", gh_Watchers r); (str "github-subscribers", gh_Subscribers r); (str "github-forks", gh_Forks r)].
Definition updateConfig (destDir : bytes) (r : ghRepository) : M mirror () :=
  fullName ← lift (deref (gh_FullName r));
  let p := PathJoin [destDir; fullName ++ str ".git"] in
  if updateFails p then lift (Err "updateConfig")
  else modify (λ m, MkMirror (mi_dirs m) (mi_log m) (<[p := list_to_map (updateOptions r) ∪ default ∅ (mi_options m !! p)]> (mi_options m))).

Fixpoint cloneRepos (destDir : bytes) (repos : list ghRepository) : M mirror () :=
  match repos with
  | [] => mret ()
  | r :: repos =>
    htmlURL ← lift (deref (gh_HTMLURL r));
    fullName ← lift (deref (gh_FullName r));
    cloneURL ← lift (deref (gh_CloneURL r));
    let config := <[str "zoekt.web-url-type" := str "github"]> (<[str "zoekt.web-url" := htmlURL]>
      {[str "zoekt.name" := PathJoin [str "github.com"; fullName]]}) in
    _ ← CloneRepo mkdirFails succeeds destDir fullName cloneURL config;
    _ ← updateConfig destDir r;
    cloneRepos destDir repos
  end.

(** The places of the repositories that are mirrored. *)
Fixpoint repoNames (repos : list ghRepository) : res (gset bytes) :=
  match repos with
  | [] => Ok ∅
  | r :: repos =>
    htmlURL ← deref (gh_HTMLURL r);
    u ← orErr "url" (urlParse htmlURL);
    names ← repoNames repos;
    Ok ({[PathJoin [u_Host u; u_Path u ++ str ".git"]]} ∪ names)
  end.
(** os.RemoveAll removes a directory and what is below it; one that fails is taken to leave the repositories there. *)
Definition inside (p d : bytes) : bool := bool_decide (d = p) || HasPrefix d (p ++ [47]).
Definition removeAll (destDir : bytes) (acc : gset bytes * bool) (d : bytes) : gset bytes * bool :=
  let p := PathJoin [destDir; d] in
  if removeFails p then (fst acc, true) else (filter (λ d, inside p d = false) (fst acc), snd acc).
Definition deleteStaleRepos (fs : bytes → fsNode) (destDir : bytes) (filter_ : Filter) (repos : list ghRepository) (user : bytes) : M mirror () := λ m,
  match (u ← orErr "url" (urlParse (str "https://github.com/" ++ user));
         paths ← ListRepos PlainOpen Rel fs destDir u;
         names ← repoNames repos;
         Ok (filter (λ p, Include filter_ p = true ∧ p ∉ names) paths)) with
  | Ok toDelete =>
    let '(dirs, failed) := foldl (removeAll destDir) (mi_dirs m, false) toDelete in
    (if (failed : bool) then Err "errors" else Ok (), MkMirror dirs (mi_log m) (mi_options m))
  | Err e => (Err e, m)
  | Panic w => (Panic w, m)
  | OutOfFuel => (OutOfFuel, m)
  end.

Record githubFlags := MkGithubFlags {
  gf_dest : bytes;
  gf_org : bytes;
  gf_user : bytes;
  gf_forks : bool;
  gf_delete : bool;
  gf_namePattern : bytes;
  gf_excludePattern : bytes }.
Definition included (f : Filter) (r : ghRepository) : res bool := name ← deref (gh_Name r); Ok (Include f name).
Fixpoint trimRepos (f : Filter) (repos : list ghRepository) : res (list ghRepository) :=
  match repos with
  | [] => Ok []
  | r :: repos => inc ← included f r; rest ← trimRepos f repos; Ok (if (inc : bool) then r :: rest else rest)
  end.
(** [byOrg], [byUser]: the pages of an organisation and of a user. [fs]: the file system after cloning. *)
Definition mirrorGithub (compile : bytes → res (bytes → bool)) (byOrg byUser : bytes → Z → option (list ghRepository * Z)) (fuel : nat)
    (fs : mirror → bytes → fsNode) (f : githubFlags) : M mirror () :=
  if bool_decide (gf_dest f = []) then lift (Err "must set --dest")
  else if Bool.eqb (bool_decide (gf_org f = [])) (bool_decide (gf_user f = [])) then lift (Err "must set either --org or --user")
  else
    let destDir := PathJoin [gf_dest f; str "github.com"] in
    if mkdirFails destDir then lift (Err "mkdir")
    else
      repos ← lift (if bool_decide (gf_org f = []) then getRepos (byUser (gf_user f)) fuel 0 else getRepos (byOrg (gf_org f)) fuel 0);
      let repos := if gf_forks f then repos else filter (λ r, gh_Fork r ≠ Some true) repos in
      flt ← lift (NewFilter compile (gf_namePattern f) (gf_excludePattern f));
      repos ← lift (trimRepos flt repos);
      _ ← cloneRepos destDir repos;
      if gf_delete f then
        fsNow ← gets fs;
        deleteStaleRepos fsNow (gf_dest f) flt repos (gf_org f ++ gf_user f)
      else mret ().
End GitHub.

(** ** cmd/zoekt-mirror-gitiles *)

Record crawlTarget := MkCrawlTarget { ct_cloneURL : bytes; ct_webURL : bytes; ct_webURLType : bytes }.
(** A project of the listing of gitiles. *)
Record gitilesProject := MkGitilesProject { gp_Name : bytes; gp_CloneURL : bytes }.

Section Gitiles.
Context `{SortAlg}.
Context (mkdirFails : bytes → bool) (succeeds : list bytes → bool).
Context (urlParse : bytes → option URL) (urlString : URL → bytes) (urlRel : URL → bytes → option URL).
(** http.Get with the contents of the answer; None after an error. The second is the status. *)
Context (httpGet : bytes → option (bytes * Z)).
(** A URL with another query; encoding/json; FindAllSubmatch and FindSubmatch of the two regular expressions. *)
Context (withQuery : URL → bytes → URL) (unmarshal : bytes → option (gmap bytes (option gitilesProject))).
Context (repoEntries : bytes → list (bytes * bytes)) (cloneLink : bytes → option bytes).

Definition getGitilesRepos (root : URL) (filter_ : bytes → bool) : res (gmap bytes crawlTarget) :=
  '(content, _) ← orErr "http" (httpGet (urlString (withQuery root (str "format=JSON"))));
  let content := TrimPrefix content (str ")]}'" ++ [10]) in
  m ← orErr "json" (unmarshal content);
  let kept := filter (λ kv, fst kv ≠ str "All-Users" ∧ fst kv ≠ str "All-Projects" ∧ filter_ (fst kv) = true) (map_to_list m) in
  l ← mapM (λ kv, v ← deref (snd kv);
     Ok (fst kv, MkCrawlTarget (gp_CloneURL v) (urlString (MkURL (u_Host root) (PathJoin [u_Path root; gp_Name v]) (u_rest root))) (str "gitiles"))) kept;
  Ok (list_to_map l).

Definition normalizedGet (u : URL) : res bytes :=
  '(c, status) ← orErr "http" (httpGet (urlString u));
  if negb (status =? 200) then Err "status" else Ok (map (λ x, if x =? 10 then 32 else x) c).
(** The submatch of an expression that does not match is taken from a nil slice. *)
Definition cgitCloneURL (u : URL) : res URL :=
  c ← normalizedGet u;
  link ← match cloneLink c with Some l => Ok l | None => Panic "index out of range" end;
  orErr "url" (urlParse link).
Definition cgitPage (u : URL) (filter_ : bytes → bool) (pages : gmap bytes crawlTarget) (m : bytes * bytes) : gmap bytes crawlTarget :=
  let nm := TrimSuffix (fst m) (str ".git") in
  if negb (filter_ nm) then pages
  else match urlRel u (snd m) with
       | None => pages
       | Some u => <[nm := MkCrawlTarget [] (urlString u) (str "cgit")]> pages
       end.
(** A target whose page cannot be read keeps an empty URL. *)
Definition cgitTarget (t : crawlTarget) : res crawlTarget :=
  match urlParse (ct_webURL t) with
  | None => Panic "nil pointer dereference"
  | Some u =>
    match cgitCloneURL u with
    | Ok c => Ok (MkCrawlTarget (urlString c) (ct_webURL t) (ct_webURLType t))
    | Err _ => Ok t
    | Panic w => Panic w
    | OutOfFuel => OutOfFuel
    end
  end.
Definition getCGitRepos (u : URL) (filter_ : bytes → bool) : res (gmap bytes crawlTarget) :=
  c ← normalizedGet u;
  let pages := foldl (cgitPage u filter_) ∅ (repoEntries c) in
  l ← mapM (λ kt, t ← cgitTarget (snd kt); Ok (fst kt, t)) (map_to_list pages);
  Ok (list_to_map l).

Record gitilesFlags := MkGitilesFlags { gl_dest : bytes; gl_namePattern : bytes; gl_excludePattern : bytes; gl_hostType : bytes; gl_args : list bytes }.
Fixpoint cloneTargets (destDir : bytes) (rootURL : URL) (l : list (bytes * crawlTarget)) : M mirror () :=
  match l with
  | [] => mret ()
  | (nm, target) :: l =>
    let config := <[str "zoekt.web-url" := ct_webURL target]> (<[str "zoekt.web-url-type" := ct_webURLType target]>
      {[str "zoekt.name" := PathJoin [u_Host rootURL; u_Path rootURL; nm]]}) in
    _ ← CloneRepo mkdirFails succeeds destDir nm (ct_cloneURL target) config;
    cloneTargets destDir rootURL l
  end.
Definition mirrorGitiles (compile : bytes → res (bytes → bool)) (f : gitilesFlags) : M mirror () :=
  match gl_args f with
  | [] => lift (Err "must provide URL argument.")
  | arg :: _ =>
    crawler ← lift (if bool_decide (gl_hostType f = str "gitiles") then Ok getGitilesRepos
                    else if bool_decide (gl_hostType f = str "cgit") then Ok getCGitRepos else Err "unknown host type");
    rootURL ← lift (orErr "url" (urlParse arg));
    if bool_decide (gl_dest f = []) then lift (Err "must set --dest")
    else
      let destDir := PathJoin [gl_dest f; u_Host rootURL] in
      if mkdirFails destDir then lift (Err "mkdir")
      else
        flt ← lift (NewFilter compile (gl_namePattern f) (gl_excludePattern f));
        repos ← lift (crawler rootURL (Include flt));
        cloneTargets destDir rootURL (map_to_list repos)
  end.
End Gitiles.

(** ** cmd/zoekt-mirror-gerrit *)

(** strings.Replace of all occurrences of a text that is not empty; what is left of an occurrence is skipped. *)
Fixpoint replaceFrom (old new : bytes) (skip : nat) (s : bytes) : bytes :=
  match s, skip with
  | [], _ => []
  | _ :: s, S skip => replaceFrom old new skip s
  | c :: s', O => if HasPrefix s old then new ++ replaceFrom old new (length old - 1) s' else c :: replaceFrom old new 0 s'
  end.
Definition Replace (s old new : bytes) : bytes := replaceFrom old new 0 s.

Section Gerrit.
Context `{SortAlg}.
Context (mkdirFails : bytes → bool) (succeeds : list bytes → bool).
Context (urlParse : bytes → option URL) (urlString : URL → bytes).
(** Every scheme overwrites the one before, also with the empty URL of a scheme that the server does not offer. *)
Definition projectURL (schemes : gmap bytes bytes) : bytes :=
  foldl (λ _ s, default [] (schemes !! s)) [] [str "http"; str "anonymous http"].
(** A web link: its URL and its name. *)
Fixpoint cloneProjects (dest : bytes) (rootURL : URL) (flt : Filter) (url : bytes) (projects : list (bytes * list (bytes * bytes))) : M mirror () :=
  match projects with
  | [] => mret ()
  | (k, webLinks) :: projects =>
    if negb (Include flt k) then cloneProjects dest rootURL flt url projects
    else
      cloneURL ← lift (orErr "url" (urlParse (Replace url (str "${project}") k)));
      let name := PathJoin [u_Host cloneURL; u_Path cloneURL] in
      let config := <[str "zoekt.name" := name]> (<[str "zoekt.gerrit-project" := k]> {[str "zoekt.gerrit-host" := urlString rootURL]}) in
      let config := foldl (λ c wl, <[str "zoekt.web-url-type" := snd wl]> (<[str "zoekt.web-url" := fst wl]> c)) config webLinks in
      _ ← CloneRepo mkdirFails succeeds dest name (urlString cloneURL) config;
      cloneProjects dest rootURL flt url projects
  end.
(** [serverInfo]: the download schemes; [listProjects]: the projects with their links. *)
Definition mirrorGerrit (compile : bytes → res (bytes → bool)) (serverInfo : bytes → option (gmap bytes bytes))
    (listProjects : bytes → option (gmap bytes (list (bytes * bytes)))) (dest namePattern excludePattern : bytes) (args : list bytes) : M mirror () :=
  match args with
  | [] => lift (Err "must provide URL argument.")
  | arg :: _ =>
    rootURL ← lift (orErr "url" (urlParse arg));
    if bool_decide (dest = []) then lift (Err "must set --dest")
    else
      flt ← lift (NewFilter compile namePattern excludePattern);
      schemes ← lift (orErr "GetServerInfo" (serverInfo (urlString rootURL)));
      let url := projectURL schemes in
      if bool_decide (url = []) then lift (Err "project URL is empty")
      else
        projects ← lift (orErr "ListProjects" (listProjects (urlString rootURL)));
        cloneProjects dest rootURL flt url (map_to_list projects)
  end.
End Gerrit.

(** ** What cloning and deleting leave *)

Section Clones.
Context `{SortAlg}.
Context (mkdirFails : bytes → bool) (succeeds : list bytes → bool) (updateFails : bytes → bool).

Lemma CloneRepo_ok destDir name url settings m m' : CloneRepo mkdirFails succeeds destDir name url settings m = (Ok (), m') →
  cloneDest destDir name ∈ mi_dirs m' ∧ mi_dirs m' = {[cloneDest destDir name]} ∪ mi_dirs m ∧ (cloneDest destDir name ∈ mi_dirs m → m' = m) ∧ mkdirFails (PathJoin [destDir; PathDir name]) = false.
Proof.
  unfold CloneRepo, mbind, M_bind, gets, lift, mret, M_ret. destruct (mkdirFails _); [done|]. case_bool_decide as Hin; intros E.
  - injection E as <-. split_and!; try done. set_solver.
  - unfold run in E. destruct (succeeds _); [|done]. injection E as <-. cbn [mi_dirs]. split_and!; try done; set_solver.
Qed.
Lemma CloneRepo_options destDir name url settings m m' : CloneRepo mkdirFails succeeds destDir name url settings m = (Ok (), m') → mi_options m' = mi_options m.
Proof.
  unfold CloneRepo, mbind, M_bind, gets, lift, mret, M_ret, run. destruct (mkdirFails _); [done|]. case_bool_decide; [by intros [= <-]|]. destruct (succeeds _); [by intros [= <-]|done].
Qed.
Lemma CloneRepo_again destDir name url settings m : cloneDest destDir name ∈ mi_dirs m → mkdirFails (PathJoin [destDir; PathDir name]) = false →
  CloneRepo mkdirFails succeeds destDir name url settings m = (Ok (), m).
Proof. intros Hin Hm. unfold CloneRepo, mbind, M_bind, gets, mret, M_ret. by rewrite Hm, bool_decide_true. Qed.
(** The configuration of a repository. *)
Definition configAt (destDir : bytes) (r : ghRepository) : option bytes := (λ full, PathJoin [destDir; full ++ str ".git"]) <$> gh_FullName r.
Definition option_ (m : mirror) (p k : bytes) : option bytes := mi_options m !! p ≫= λ o, o !! k.
Lemma updateOptions_lookup r k v : (k, v) ∈ updateOptions r → (list_to_map (updateOptions r) : gmap bytes bytes) !! k = Some v.
Proof.
  apply elem_of_list_to_map_1. unfold updateOptions. destruct (gh_Stars r), (gh_Watchers r), (gh_Subscribers r), (gh_Forks r); cbn [omap list_omap snd fst fmap option_fmap option_map list_fmap map];
    apply (bool_decide_unpack _); vm_compute; reflexivity.
Qed.
Lemma updateConfig_ok destDir r m m' : updateConfig updateFails destDir r m = (Ok (), m') →
  ∃ p, configAt destDir r = Some p ∧ mi_dirs m' = mi_dirs m ∧ mi_log m' = mi_log m ∧ (∀ q k, q ≠ p → option_ m' q k = option_ m q k) ∧
    (∀ k v, (k, v) ∈ updateOptions r → option_ m' p k = Some v) ∧ (∀ m2, ∃ m3, updateConfig updateFails destDir r m2 = (Ok (), m3) ∧ mi_dirs m3 = mi_dirs m2 ∧ mi_log m3 = mi_log m2).
Proof.
  unfold updateConfig, configAt, mbind, M_bind, lift, modify. destruct (gh_FullName r) as [full|]; cbn [deref]; [|done]. cbn [fmap option_fmap option_map].
  set (p := PathJoin [destDir; full ++ str ".git"]). destruct (updateFails p); [done|]. intros [= <-]. exists p. unfold option_. cbn [mi_dirs mi_log mi_options].
  split_and!; try done; [by intros q k Hq; rewrite lookup_insert_ne| |by eauto]. intros k v Hkv. rewrite lookup_insert_eq. cbn [mbind option_bind].
  apply lookup_union_Some_l. by apply updateOptions_lookup.
Qed.

#[local] Abbreviation cloneRepos := (cloneRepos mkdirFails succeeds updateFails).
(** Where the repositories are cloned to. *)
Definition clonedAt (destDir : bytes) (r : ghRepository) (dirs : gset bytes) : Prop := ∃ fullName, gh_FullName r = Some fullName ∧ cloneDest destDir fullName ∈ dirs.

Lemma cloneRepos_cons destDir r repos m m' : cloneRepos destDir (r :: repos) m = (Ok (), m') →
  ∃ html full url m1 m2, gh_HTMLURL r = Some html ∧ gh_FullName r = Some full ∧ gh_CloneURL r = Some url ∧
    CloneRepo mkdirFails succeeds destDir full url (<[str "zoekt.web-url-type" := str "github"]> (<[str "zoekt.web-url" := html]>
      {[str "zoekt.name" := PathJoin [str "github.com"; full]]})) m = (Ok (), m1) ∧ updateConfig updateFails destDir r m1 = (Ok (), m2) ∧ cloneRepos destDir repos m2 = (Ok (), m').
Proof.
  cbn [Mirror.cloneRepos]. unfold mbind, M_bind, lift. destruct (gh_HTMLURL r) as [html|]; [|done]. destruct (gh_FullName r) as [full|]; [|done].
  destruct (gh_CloneURL r) as [url|]; [|done]. cbn [deref]. destruct (CloneRepo _ _ _ _ _ _ m) as [[[]| | |] m1] eqn:E1; try done.
  destruct (updateConfig updateFails destDir r m1) as [[[]| | |] m2] eqn:E2; try done. intros E3. by exists html, full, url, m1, m2.
Qed.

(** Cloning is idempotent: when it succeeds, every repository is there, and running it again runs no command. *)
Lemma cloneRepos_ok destDir repos m m' : cloneRepos destDir repos m = (Ok (), m') →
  mi_dirs m ⊆ mi_dirs m' ∧ Forall (λ r, clonedAt destDir r (mi_dirs m')) repos ∧
  (∀ m2, mi_dirs m' ⊆ mi_dirs m2 → ∃ m3, cloneRepos destDir repos m2 = (Ok (), m3) ∧ mi_dirs m3 = mi_dirs m2 ∧ mi_log m3 = mi_log m2).
Proof.
  revert m. induction repos as [|r repos IH]; intros m E.
  { injection E as <-. split_and!; [done|constructor|by eauto]. }
  destruct (cloneRepos_cons _ _ _ _ _ E) as (html & full & url & m1 & m2 & Eh & Ef & Eu & Ec & Eup & Er). destruct (updateConfig_ok _ _ _ _ Eup) as (p & _ & Ed & _ & _ & _ & Hup).
  destruct (CloneRepo_ok _ _ _ _ _ _ Ec) as (Hin & Hdirs & _ & Hmk). destruct (IH _ Er) as (Hsub & Hall & Hagain). rewrite Ed in Hsub. split_and!.
  - set_solver.
  - constructor; [|done]. exists full. split; [done|set_solver].
  - intros n Hn. cbn [Mirror.cloneRepos]. unfold mbind, M_bind, lift. rewrite Eh, Ef, Eu. cbn [deref]. rewrite CloneRepo_again by (set_solver || done).
    destruct (Hup n) as (n1 & -> & Hd1 & Hl1). rewrite <- Hd1, <- Hl1. apply Hagain. by rewrite Hd1.
Qed.
(** The counts of a repository are in its configuration, unless another one is at the same place. *)
Lemma cloneRepos_options destDir repos m m' r p k v : cloneRepos destDir repos m = (Ok (), m') → configAt destDir r = Some p →
  (∀ r', r' ∈ repos → configAt destDir r' = Some p → r' = r) → (k, v) ∈ updateOptions r → r ∈ repos ∨ option_ m p k = Some v → option_ m' p k = Some v.
Proof.
  intros E Hp Honly Hkv. revert m E. induction repos as [|r0 repos IH]; intros m E Hr.
  { injection E as <-. destruct Hr as [?%elem_of_nil|?]; done. }
  destruct (cloneRepos_cons _ _ _ _ _ E) as (html & full & url & m1 & m2 & _ & _ & _ & Ec & Eup & Er). destruct (updateConfig_ok _ _ _ _ Eup) as (p0 & Ep0 & _ & _ & Hne & Hset & _).
  assert (option_ m1 p k = option_ m p k) as E1 by (unfold option_; by rewrite (CloneRepo_options _ _ _ _ _ _ Ec)).
  apply (IH (λ r' Hr', Honly r' (list_elem_of_further _ _ _ Hr')) _ Er). destruct (decide (p = p0)) as [->|Hpp].
  - right. assert (r0 = r) as -> by (apply Honly; [left|done]). by apply Hset.
  - destruct Hr as [[->|Hr]%elem_of_cons|Hr]; [congruence|by left|right]. by rewrite Hne, E1.
Qed.
End Clones.

Section Delete.
Context (removeFails : bytes → bool) (urlParse : bytes → option URL) (PlainOpen : bytes → bool) (Rel : bytes → bytes → option bytes).

Lemma removeAll_failed destDir l dirs : snd (foldl (removeAll removeFails destDir) (dirs, true) l) = true.
Proof. revert dirs. induction l as [|p l IH]; intros dirs; [done|]. cbn [foldl]. unfold removeAll at 2. cbn [fst snd]. destruct (removeFails _); apply IH. Qed.
Lemma removeAll_ok destDir l dirs : let r := foldl (removeAll removeFails destDir) (dirs, false) l in
  snd r = false → ∀ d, d ∈ fst r ↔ d ∈ dirs ∧ ∀ p, p ∈ l → inside (PathJoin [destDir; p]) d = false.
Proof.
  revert dirs. induction l as [|p l IH]; intros dirs; cbn [foldl].
  { intros _ d. split; [|by intros [? _]]. intros Hd. split; [done|]. by intros p ?%elem_of_nil. }
  unfold removeAll at 2 4. cbn [fst snd]. destruct (removeFails _); [by rewrite removeAll_failed|]. intros E d. rewrite (IH _ E), elem_of_filter.
  setoid_rewrite elem_of_cons. naive_solver.
Qed.

(** A path that is listed, matches the filter and is not the place of a repository. *)
Definition stale (flt : Filter) (paths : list bytes) (names : gset bytes) (p : bytes) : Prop := p ∈ paths ∧ Include flt p = true ∧ p ∉ names.
Lemma deleteStaleRepos_ok fs destDir flt repos user m m' :
  deleteStaleRepos removeFails urlParse PlainOpen Rel fs destDir flt repos user m = (Ok (), m') →
  ∃ u paths names, urlParse (str "https://github.com/" ++ user) = Some u ∧ ListRepos PlainOpen Rel fs destDir u = Ok paths ∧ repoNames urlParse repos = Ok names ∧
    ∀ d, d ∈ mi_dirs m' ↔ d ∈ mi_dirs m ∧ ∀ p, stale flt paths names p → inside (PathJoin [destDir; p]) d = false.
Proof.
  unfold deleteStaleRepos. destruct (urlParse (str "https://github.com/" ++ user)) as [u|]; cbn [orErr mbind res_bind]; [|done].
  destruct (ListRepos PlainOpen Rel fs destDir u) as [paths| | |] eqn:El; cbn [mbind res_bind]; try done.
  destruct (repoNames urlParse repos) as [names| | |] eqn:En; cbn [mbind res_bind]; try done.
  pose proof (removeAll_ok destDir (filter (λ p, Include flt p = true ∧ p ∉ names) paths) (mi_dirs m)) as Hrm.
  destruct (foldl _ _ _) as [dirs failed]. cbn [fst snd] in *. destruct failed; [done|]. intros [= <-].
  exists u, paths, names. split_and!; [done..|]. cbn [mi_dirs]. intros d. rewrite (Hrm eq_refl). unfold stale. setoid_rewrite list_elem_of_filter. naive_solver.
Qed.
Lemma repoNames_ok repos names : repoNames urlParse repos = Ok names →
  ∀ p, p ∈ names ↔ ∃ r html u, r ∈ repos ∧ gh_HTMLURL r = Some html ∧ urlParse html = Some u ∧ p = PathJoin [u_Host u; u_Path u ++ str ".git"].
Proof.
  revert names. induction repos as [|r repos IH]; intros names E; cbn [repoNames] in E.
  { injection E as <-. intros p. rewrite elem_of_empty. split; [done|]. by intros (r & html & u & ?%elem_of_nil & _). }
  destruct (gh_HTMLURL r) as [html|] eqn:Eh; cbn [deref mbind res_bind] in E; [|done]. destruct (urlParse html) as [u|] eqn:Eu; cbn [orErr mbind res_bind] in E; [|done].
  destruct (repoNames _ _) as [names'| | |]; cbn [mbind res_bind] in E; try done. injection E as <-. intros p. rewrite elem_of_union, elem_of_singleton, (IH _ eq_refl).
  setoid_rewrite elem_of_cons. split.
  - intros [->|(r' & html' & u' & ? & ?)]; [exists r, html, u|exists r', html', u']; auto.
  - intros (r' & html' & u' & [->|Hr] & H1 & H2 & ->); [left; congruence|right]. by exists r', html', u'.
Qed.
Lemma trimRepos_ok flt repos l : trimRepos flt repos = Ok l →
  ∀ r, r ∈ l ↔ r ∈ repos ∧ ∃ name, gh_Name r = Some name ∧ Include flt name = true.
Proof.
  revert l. induction repos as [|r repos IH]; intros l E; cbn [trimRepos] in E; [injection E as <-; intros r; rewrite elem_of_nil; naive_solver|].
  unfold included in E. destruct (gh_Name r) as [name|] eqn:En; cbn [deref mbind res_bind] in E; [|done].
  destruct (trimRepos flt repos) as [rest| | |]; cbn [mbind res_bind] in E; try done. injection E as <-. intros r'. specialize (IH _ eq_refl r').
  assert (r' = r → (∃ name', gh_Name r' = Some name' ∧ Include flt name' = true) ↔ Include flt name = true) as Hr.
  { intros ->. rewrite En. split; [by intros (? & [= <-] & ?)|]. intros ?. by exists name. }
  rewrite elem_of_cons. destruct (Include flt name); [rewrite elem_of_cons|]; rewrite IH; clear IH; split.
  - intros [Hx|[Hx Hy]]; [split; [by left|by apply Hr]|split; [by right|done]].
  - intros [[Hx|Hx] Hy]; [by left|right; by split].
  - intros [Hx Hy]. split; [by right|done].
  - intros [[Hx|Hx] Hy]; [by apply Hr in Hy|by split].
Qed.
End Delete.

(** *** Where a repository of GitHub is *)

Lemma isName_git n : isName n → isName (n ++ str ".git").
Proof.
  intros (H1 & H2 & H3 & H4). split_and!.
  - by intros [? _]%app_nil.
  - intros E. apply (f_equal length) in E. rewrite length_app in E. simpl in E. lia.
  - intros E. apply (f_equal length) in E. rewrite length_app in E. simpl in E. lia.
  - rewrite elem_of_app. intros [?|Hin]; [done|]. revert Hin. apply (bool_decide_unpack _). vm_compute. reflexivity.
Qed.
Lemma isName_github : isName (str "github.com").
Proof. apply (@bool_decide_unpack _ (isName_dec _)). vm_compute. reflexivity. Qed.

Section Place.
Context (ds : list bytes) (Hne : ds ≠ []) (Hds : Forall isName ds) (o n : bytes) (Ho : isName o) (Hn : isName n).
#[local] Abbreviation place := (47 :: Join [47] (ds ++ [str "github.com"; o; n ++ str ".git"])).
Lemma cloneDest_place : cloneDest (PathJoin [47 :: Join [47] ds; str "github.com"]) (o ++ 47 :: n) = place.
Proof.
  unfold cloneDest, PathDir. rewrite PathBase_name, PathJoin_rooted by (done || apply isName_github).
  assert (o ++ 47 :: n = Join [47] ([o] ++ [n])) as -> by done. rewrite Clean_SplitDir by (done || by constructor). rewrite decide_False by done. cbn [Join].
  assert (Forall isName (ds ++ [str "github.com"])) as Hg by (apply Forall_app; split; [done|]; apply Forall_cons_2; [apply isName_github|apply Forall_nil_2]).
  rewrite (PathJoin_rooted _ o), (PathJoin_rooted _ (n ++ str ".git")), <- !app_assoc; [done| |by apply isName_git|done|done].
  apply Forall_app. split; [done|]. by apply Forall_cons_2; [|apply Forall_nil_2].
Qed.
Lemma repoName_place : PathJoin [str "github.com"; (47 :: o ++ 47 :: n) ++ str ".git"] = Join [47] [str "github.com"; o; n ++ str ".git"].
Proof.
  unfold PathJoin. rewrite !filter_cons, decide_True, decide_True, filter_nil by done. cbn [Join]. rewrite (Clean_components _ [str "github.com"; []; o; n ++ str ".git"]).
  - rewrite !filter_cons. rewrite decide_True by apply isName_github. rewrite decide_False by (by intros [? _]). rewrite !decide_True by (done || by apply isName_git). done.
  - replace (str "github.com" ++ [47] ++ (47 :: o ++ 47 :: n) ++ str ".git") with (Join [47] [str "github.com"; []; o; n ++ str ".git"])
      by (cbn [Join app]; by rewrite <- app_assoc). apply SplitFunc_Join; [done|done|].
    repeat constructor; intros c Hc; apply Z.eqb_neq; intros ->; [by destruct isName_github as (_ & _ & _ & ?)|by apply elem_of_nil in Hc|by destruct Ho as (_ & _ & _ & ?)|by destruct (isName_git n Hn) as (_ & _ & _ & ?)].
  - intros c s [= <- _]. done.
  - done.
  - rewrite filter_cons, decide_True by apply isName_github. done.
  - repeat apply Forall_cons_2; auto using isName_github, isName_git.
Qed.
End Place.

(** *** Which repositories are listed *)

Lemma Split_prefix cs x : Forall isName cs → cs ≠ [] → SplitByte 47 (Join [47] cs ++ 47 :: x) = cs ++ SplitByte 47 x.
Proof.
  induction 1 as [|c cs (_ & _ & _ & Hc) Hcs IH]; intros Hne; [done|]. destruct cs as [|c' cs]; [by rewrite SplitByte_app|].
  rewrite Join_cons by done. rewrite <- !app_assoc. cbn [app]. rewrite SplitByte_app by done. by rewrite IH.
Qed.
Lemma inside_components cs ws : cs ≠ [] → ws ≠ [] → Forall isName cs → Forall isName ws → inside (47 :: Join [47] cs) (47 :: Join [47] ws) = true → ∃ x, ws = cs ++ x.
Proof.
  intros Hc Hw Hcs Hws. unfold inside. rewrite orb_true_iff, bool_decide_eq_true. intros [[= E]|[t E]%HasPrefix_spec].
  - exists []. rewrite app_nil_r. symmetry. by apply Join_inj.
  - injection E as E. exists (SplitByte 47 t). rewrite <- Split_prefix by done. rewrite <- (Split_normal ws) at 1 by done. by rewrite E, <- app_assoc.
Qed.
Lemma HasSuffix_name p n suf : 47 ∉ suf → HasSuffix (p ++ 47 :: n) suf = true → HasSuffix n suf = true.
Proof.
  unfold HasSuffix. intros Hs. rewrite reverse_app, reverse_cons, <- app_assoc. cbn [app]. assert (47 ∉ reverse suf) as Hr by (by rewrite elem_of_reverse). revert Hr.
  generalize (reverse suf) (reverse n). clear. induction l as [|x l IH]; intros [|y r] Hn E; [done|done| |]; apply not_elem_of_cons in Hn as [Hx Hl]; cbn [app HasPrefix] in *.
  - apply andb_true_iff in E as [Ex%Z.eqb_eq _]. by destruct Hx.
  - apply andb_true_iff in E as [-> E]. by apply IH.
Qed.

Section Listed.
Context (PlainOpen : bytes → bool) (Rel : bytes → bytes → option bytes) (ds : list bytes) (Hne : ds ≠ []) (Hds : Forall isName ds) (user : bytes) (Huser : isName user).
Context (HRel : ∀ cs p, Forall isName cs → Rel (47 :: Join [47] ds) (47 :: Join [47] (ds ++ cs)) = Some p → cs ≠ [] → p = Join [47] cs).
Lemma key_rooted : PathJoin [47 :: Join [47] ds; PathJoin [str "github.com"; 47 :: user]] = 47 :: Join [47] (ds ++ [str "github.com"; user]).
Proof.
  assert (PathJoin [str "github.com"; 47 :: user] = Join [47] [str "github.com"; user]) as ->; [|apply PathJoin_absolute; try done; repeat apply Forall_cons_2; auto using isName_github].
  unfold PathJoin. rewrite !filter_cons, decide_True, decide_True, filter_nil by done. cbn [Join]. rewrite (Clean_components _ [str "github.com"; []; user]).
  - rewrite !filter_cons. rewrite decide_True by apply isName_github. rewrite decide_False by (by intros [? _]). by rewrite decide_True.
  - change (str "github.com" ++ [47] ++ 47 :: user) with (Join [47] [str "github.com"; []; user]). apply SplitFunc_Join; [done|done|].
    repeat constructor; intros c Hc; apply Z.eqb_neq; intros ->; [by destruct isName_github as (_ & _ & _ & ?)|by apply elem_of_nil in Hc|by destruct Huser as (_ & _ & _ & ?)].
  - intros c s [= <- _]. done.
  - done.
  - rewrite filter_cons, decide_True by apply isName_github. done.
  - repeat apply Forall_cons_2; auto using isName_github.
Qed.
(** A path that is listed is below the user's directory and ends in .git. *)
Definition listed (p : bytes) : Prop := ∃ cs, Forall isName cs ∧ p = Join [47] ([str "github.com"; user] ++ cs) ∧ HasSuffix (47 :: Join [47] (ds ++ [str "github.com"; user] ++ cs)) (str ".git") = true.
Lemma ListRepos_listed fs u paths : (∀ p, wfNode (fs p) = true) → u_Host u = str "github.com" → u_Path u = 47 :: user →
  ListRepos PlainOpen Rel fs (47 :: Join [47] ds) u = Ok paths → Forall listed paths.
Proof.
  intros Hw Eh Ep. unfold ListRepos. rewrite Eh, Ep, key_rooted. destruct (Walk _ _ _ []) as [r paths'] eqn:E. destruct r as [[]| | |]; cbn [mbind res_bind]; try done.
  intros [= <-]. refine (Walk_inv _ (Forall listed) _ _ _ _ _ _ (Forall_nil_2 _) E). intros p t fi err s v s' Hb Hs. unfold listRepo.
  apply below_path in Hb as (cs & Hcs & ->); [|by intros [_ ?]%app_nil|apply Forall_app; split; [done|]; repeat apply Forall_cons_2; auto using isName_github|done].
  destruct err as [e|]; [by intros [= _ <-]|]. destruct fi as [fi|]; [|by intros [= _ <-]]. destruct (negb (fi_IsDir fi)); [by intros [= _ <-]|].
  destruct (HasSuffix _ (str ".git")) eqn:Esuf; [|by intros [= _ <-]]. destruct (negb _); [|by intros [= _ <-]]. cbn [andb]. unfold mbind, M_bind, modify, mret, M_ret.
  intros [= _ <-]. destruct (PlainOpen _); [|done]. rewrite <- app_assoc in *. destruct (Rel _ _) as [p|] eqn:Er; [|done]. apply Forall_app. split; [done|]. apply Forall_singleton.
  exists cs. split_and!; [done| |done]. apply HRel in Er; [done| |done]. repeat apply Forall_cons_2; auto using isName_github.
Qed.
(** No place of a repository lies inside of a listed path, but for its own. *)
Lemma listed_place p o n : HasSuffix user (str ".git") = false → isName o → isName n → listed p →
  inside (PathJoin [47 :: Join [47] ds; p]) (47 :: Join [47] (ds ++ [str "github.com"; o; n ++ str ".git"])) = true → p = Join [47] [str "github.com"; o; n ++ str ".git"].
Proof.
  intros Hu Ho Hn (cs & Hcs & -> & Hsuf). assert (Forall isName ([str "github.com"; user] ++ cs)) as Hall by (repeat apply Forall_cons_2; auto using isName_github).
  rewrite PathJoin_absolute by done. intros [x E]%inside_components; [|by intros [_ ?]%app_nil|by intros [_ ?]%app_nil|by apply Forall_app|].
  2:{ apply Forall_app; split; [done|]. repeat apply Forall_cons_2; auto using isName_github, isName_git. }
  rewrite <- app_assoc in E. apply app_inv_head in E. injection E as -> E. destruct cs as [|c cs].
  - exfalso. revert Hsuf. cbn [app]. rewrite Join_app by done. change (Join [47] [str "github.com"; user]) with (str "github.com" ++ [47] ++ user).
    rewrite app_comm_cons, !app_assoc. rewrite <- app_assoc. change ([47] ++ user) with (47 :: user). intros Hsuf%HasSuffix_name; [congruence|].
    apply (bool_decide_unpack _). vm_compute. reflexivity.
  - injection E as -> E. symmetry in E. by apply app_nil in E as [-> _].
Qed.
End Listed.

(** ** Properties *)

(** The repositories that a run mirrors: those of the organisation or user that are not forks, unless these were asked for, with names that
    match the filter. *)
Definition selected (f : githubFlags) (flt : Filter) (all : list ghRepository) (r : ghRepository) : Prop :=
  r ∈ all ∧ (gf_forks f = true ∨ gh_Fork r ≠ Some true) ∧ ∃ name, gh_Name r = Some name ∧ Include flt name = true.
(** What GitHub answers: owner and name, with a web page at this path. *)
Definition hosted (urlParse : bytes → option URL) (r : ghRepository) : Prop := ∀ full html u,
  gh_FullName r = Some full → gh_HTMLURL r = Some html → urlParse html = Some u →
  ∃ o n, isName o ∧ isName n ∧ full = o ++ 47 :: n ∧ u_Host u = str "github.com" ∧ u_Path u = 47 :: full.

(** The answers from a page on, up to the first one that is empty or the last, and how many there are. *)
Inductive answersFrom (g : Z → option (list ghRepository * Z)) : Z → list ghRepository → nat → Prop :=
| answer_empty page next : g page = Some ([], next) → answersFrom g page [] 1
| answer_last page repos : g page = Some (repos, 0) → repos ≠ [] → Forall (λ r, is_Some (gh_Name r)) repos → answersFrom g page repos 1
| answer_more page repos next rest n : g page = Some (repos, next) → repos ≠ [] → next ≠ 0 → Forall (λ r, is_Some (gh_Name r)) repos →
    answersFrom g next rest n → answersFrom g page (repos ++ rest) (S n).
Lemma names_ok repos : (∃ l, mapM (λ r, deref (gh_Name r)) repos = Ok l) ↔ Forall (λ r, is_Some (gh_Name r)) repos.
Proof.
  induction repos as [|r repos IH]; [split; [constructor|by exists []]|]. rewrite Forall_cons, <- IH. cbn [mapM]. destruct (gh_Name r) as [name|]; cbn [deref mbind res_bind].
  - destruct (mapM _ repos) as [l| | |]; cbn [mbind res_bind]; split; try (by intros [? ?]); try (by intros [_ [? ?]]); intros _; [split; [done|by exists l]|by eexists].
  - split; [by intros [? ?]|by intros [[? ?] _]].
Qed.
(** Listing ends with the answers to all pages, and asks for as many. *)
Lemma getRepos_answers g fuel page all : getRepos g fuel page = Ok all ↔ ∃ n, (n <= fuel)%nat ∧ answersFrom g page all n.
Proof.
  revert page all. induction fuel as [|fuel IH]; intros page all; cbn [getRepos]; [split; [done|]; intros (n & Hn & Ha); destruct Ha; lia|].
  destruct (g page) as [[repos next]|] eqn:Eg; cbn [orErr mbind res_bind]; [|split; [done|]; intros (n & _ & Ha); destruct Ha; congruence].
  case_bool_decide as Hr; [subst repos|].
  { split; [intros [= <-]; exists 1%nat; split; [lia|by eapply answer_empty]|]. intros (n & _ & Ha). destruct Ha; congruence. }
  pose proof (names_ok repos) as Hnames. destruct (mapM _ repos) as [l| | |]; cbn [mbind res_bind];
    [|by split; [done|]; intros (n & _ & Ha); destruct Ha as [? ? E|? ? E ? Hf|? ? ? ? ? E ? ? Hf ?]; rewrite Eg in E; injection E; try congruence; intros; subst; apply Hnames in Hf as [? ?]..].
  assert (Forall (λ r, is_Some (gh_Name r)) repos) as Hf by (apply Hnames; by eexists). clear Hnames. destruct (next =? 0) eqn:En; [apply Z.eqb_eq in En as ->|apply Z.eqb_neq in En].
  - split; [intros [= <-]; exists 1%nat; split; [lia|by apply answer_last]|]. intros (n & _ & Ha). destruct Ha; congruence.
  - split.
    + destruct (getRepos g fuel next) as [rest| | |] eqn:E; cbn [mbind res_bind]; try done. intros [= <-]. destruct (proj1 (IH next rest) E) as (n & Hn & Ha).
      exists (S n). split; [lia|by eapply answer_more].
    + intros (n & Hn & Ha). destruct Ha as [? ? E|? ? E ? _|page repos' next' rest n E ? ? _ Ha]; rewrite Eg in E; injection E; try congruence. intros -> ->.
      rewrite (proj2 (IH next' rest)); [done|]. exists n. split; [lia|done].
Qed.
Lemma getRepos_elem g fuel page all r : getRepos g fuel page = Ok all → r ∈ all → ∃ page repos next, g page = Some (repos, next) ∧ r ∈ repos.
Proof.
  revert page all. induction fuel as [|fuel IH]; intros page all E Hr; cbn [getRepos] in E; [done|].
  destruct (g page) as [[repos next]|] eqn:Eg; cbn [orErr mbind res_bind] in E; [|done]. case_bool_decide; [injection E as <-; by apply elem_of_nil in Hr|].
  destruct (mapM _ repos); cbn [mbind res_bind] in E; try done. destruct (next =? 0); [injection E as <-; by exists page, repos, next|].
  destruct (getRepos g fuel next) as [rest| | |] eqn:En; cbn [mbind res_bind] in E; try done. injection E as <-.
  apply elem_of_app in Hr as [Hr|Hr]; [by exists page, repos, next|by eapply IH].
Qed.

Lemma repoNames_parse urlParse repos names r : repoNames urlParse repos = Ok names → r ∈ repos → ∃ html u, gh_HTMLURL r = Some html ∧ urlParse html = Some u.
Proof.
  revert names. induction repos as [|r' repos IH]; intros names Hn Hr; [by apply elem_of_nil in Hr|]. cbn [repoNames] in Hn.
  destruct (gh_HTMLURL r') as [html|] eqn:Eh; cbn [deref mbind res_bind] in Hn; [|done]. destruct (urlParse html) as [v|] eqn:Ev; cbn [orErr mbind res_bind] in Hn; [|done].
  destruct (repoNames urlParse repos) as [ns| | |]; cbn [mbind res_bind] in Hn; try done. apply elem_of_cons in Hr as [->|Hr]; [by exists html, v|by eapply IH].
Qed.

Section Github.
Context `{SortAlg} (mkdirFails : bytes → bool) (succeeds : list bytes → bool) (removeFails : bytes → bool).
Context (urlParse : bytes → option URL) (PlainOpen : bytes → bool) (Rel : bytes → bytes → option bytes) (updateFails : bytes → bool).
#[local] Abbreviation destOf f := (PathJoin [gf_dest f; str "github.com"]).
(** filepath.Rel of a path below another one. *)
Definition relative : Prop := ∀ ds cs p, ds ≠ [] → cs ≠ [] → Forall isName ds → Forall isName cs →
  Rel (47 :: Join [47] ds) (47 :: Join [47] (ds ++ cs)) = Some p → p = Join [47] cs.
(** The name of a user or organisation is one of GitHub's, without a dot, and url.Parse finds it. *)
Definition login (user : bytes) : Prop := isName user ∧ HasSuffix user (str ".git") = false ∧
  ∀ u, urlParse (str "https://github.com/" ++ user) = Some u → u_Host u = str "github.com" ∧ u_Path u = 47 :: user.

(** Deleting keeps the clones of the repositories that are mirrored. *)
Lemma delete_keeps ds f flt repos user fs m m' : gf_dest f = 47 :: Join [47] ds → ds ≠ [] → Forall isName ds → relative → login user → (∀ p, wfNode (fs p) = true) →
  Forall (hosted urlParse) repos → Forall (λ r, clonedAt (destOf f) r (mi_dirs m)) repos →
  deleteStaleRepos removeFails urlParse PlainOpen Rel fs (gf_dest f) flt repos user m = (Ok (), m') →
  Forall (λ r, clonedAt (destOf f) r (mi_dirs m')) repos.
Proof.
  intros -> Hne Hds Hrel (Hu & Hsuf & Hurl) Hw Hhost Hcl Hdel. apply deleteStaleRepos_ok in Hdel as (u & paths & names & Eu & Hl & Hn & Hdirs).
  pose proof (repoNames_ok _ _ _ Hn) as Hnames. apply Forall_forall. intros r Hr. rewrite Forall_forall in Hhost, Hcl. destruct (Hurl u Eu) as [Eh Ep].
  destruct (Hcl r Hr) as (full & Ef & Hin). exists full. split; [done|]. apply Hdirs. split; [done|]. intros p (Hp & _ & Hnp).
  destruct (repoNames_parse _ _ _ _ Hn Hr) as (html & v & Eh' & Ev). destruct (Hhost r Hr full html v Ef Eh' Ev) as (o & n & Ho & Hn' & -> & Ehost & Epath).
  rewrite cloneDest_place by done. apply not_true_is_false. intros Hins.
  assert (Forall (listed ds user) paths) as Hlist by (eapply ListRepos_listed; [done..| |done|exact Eh|exact Ep|exact Hl]; intros cs q Hcs Hq Hc0; by apply (Hrel ds cs q)).
  rewrite Forall_forall in Hlist. apply Hlist in Hp. eapply (listed_place ds) with (user := user) in Hins; [|done..]. apply Hnp, Hnames. exists r, html, v. split_and!; try done. rewrite Ehost, Epath, repoName_place by done. exact Hins.
Qed.

(** C20: mirroring a user or an organisation of GitHub. When zoekt-mirror-github succeeds, every repository of the answers that it selects is cloned, stays so
    when stale repositories are deleted, and has its counts of stars, watchers, subscribers and forks in its configuration. Cloning again runs no
    command. A repository that is removed was asked to be deleted, and is inside a directory that is listed for the user, matches the filter and
    is not the place of a selected repository. *)
Theorem mirrorGithub_mirrors (compile : bytes → res (bytes → bool)) (byOrg byUser : bytes → Z → option (list ghRepository * Z)) (fuel : nat)
    (fs : mirror → bytes → fsNode) (ds : list bytes) (f : githubFlags) (m m' : mirror)
    (Hdest : gf_dest f = 47 :: Join [47] ds) (Hne : ds ≠ []) (Hds : Forall isName ds) (Hrel : relative) (Hlogin : login (gf_org f ++ gf_user f))
    (Hw : ∀ m p, wfNode (fs m p) = true)
    (Hhosted : ∀ page repos next, byOrg (gf_org f) page = Some (repos, next) ∨ byUser (gf_user f) page = Some (repos, next) → Forall (hosted urlParse) repos)
    (Hrun : mirrorGithub mkdirFails succeeds removeFails urlParse PlainOpen Rel updateFails compile byOrg byUser fuel fs f m = (Ok (), m')) :
  ∃ all flt repos m1, (if bool_decide (gf_org f = []) then getRepos (byUser (gf_user f)) fuel 0 else getRepos (byOrg (gf_org f)) fuel 0) = Ok all ∧
    NewFilter compile (gf_namePattern f) (gf_excludePattern f) = Ok flt ∧ (∀ r, r ∈ repos ↔ selected f flt all r) ∧ mi_dirs m ⊆ mi_dirs m1 ∧
    cloneRepos mkdirFails succeeds updateFails (destOf f) repos m = (Ok (), m1) ∧
    (∃ m2, cloneRepos mkdirFails succeeds updateFails (destOf f) repos m1 = (Ok (), m2) ∧ mi_dirs m2 = mi_dirs m1 ∧ mi_log m2 = mi_log m1) ∧
    Forall (λ r, clonedAt (destOf f) r (mi_dirs m')) repos ∧
    (∀ r p k v, r ∈ repos → configAt (destOf f) r = Some p → (∀ r', r' ∈ repos → configAt (destOf f) r' = Some p → r' = r) → (k, v) ∈ updateOptions r →
       option_ m1 p k = Some v) ∧
    ∀ d, d ∈ mi_dirs m1 → d ∉ mi_dirs m' → gf_delete f = true ∧ ∃ u paths names p, ListRepos PlainOpen Rel (fs m1) (gf_dest f) u = Ok paths ∧
      repoNames urlParse repos = Ok names ∧ stale flt paths names p ∧ inside (PathJoin [gf_dest f; p]) d = true.
Proof.
  unfold mirrorGithub in Hrun. case_bool_decide; [done|]. destruct (Bool.eqb _ _); [done|]. destruct (mkdirFails _); [done|].
  unfold mbind, M_bind, lift, gets in Hrun.
  destruct (if bool_decide (gf_org f = []) then getRepos (byUser (gf_user f)) fuel 0 else getRepos (byOrg (gf_org f)) fuel 0) as [all| | |] eqn:Eall; try done.
  destruct (NewFilter _ _ _) as [flt| | |] eqn:Eflt; try done. destruct (trimRepos flt _) as [repos| | |] eqn:Etrim; try done.
  destruct (cloneRepos _ _ _ _ repos m) as [[[]| | |] m1] eqn:Ecl; try done. destruct (cloneRepos_ok _ _ _ _ _ _ _ Ecl) as (Hsub & Hcl & Hagain).
  assert (Forall (hosted urlParse) all) as Hall.
  { apply Forall_forall. intros r Hr. assert (∃ page rs next, (byOrg (gf_org f) page = Some (rs, next) ∨ byUser (gf_user f) page = Some (rs, next)) ∧ r ∈ rs) as (page & rs & next & Hp & Hin).
    { destruct (bool_decide (gf_org f = [])); destruct (getRepos_elem _ _ _ _ _ Eall Hr) as (page & rs & next & ? & ?); exists page, rs, next; auto. }
    specialize (Hhosted _ _ _ Hp). rewrite Forall_forall in Hhosted. by apply Hhosted. }
  assert (∀ r, r ∈ repos ↔ selected f flt all r) as Hsel.
  { intros r. rewrite (trimRepos_ok _ _ _ Etrim). unfold selected. destruct (gf_forks f); [naive_solver|]. rewrite list_elem_of_filter. naive_solver. }
  exists all, flt, repos, m1. split_and!; try done; [by apply Hagain| | |].
  - destruct (gf_delete f); [|by injection Hrun as <-]. eapply delete_keeps; [exact Hdest|done..|by intros| |exact Hcl|exact Hrun].
    apply Forall_forall. intros r [Hr _]%Hsel. rewrite Forall_forall in Hall. by apply Hall.
  - intros r p k v Hr Hp Honly Hkv. eapply cloneRepos_options; eauto.
  - intros d Hd Hnd. destruct (gf_delete f); [|by injection Hrun as <-]. split; [done|].
    apply deleteStaleRepos_ok in Hrun as (u & paths & names & _ & Hl & Hn & Hdirs).
    destruct (decide (Forall (λ p, Include flt p = true ∧ p ∉ names → inside (PathJoin [gf_dest f; p]) d = false) paths)) as [Hno|Hex].
    + exfalso. apply Hnd, Hdirs. split; [done|]. intros p (Hp & Hi). rewrite Forall_forall in Hno. by apply Hno.
    + apply not_Forall_Exists, Exists_exists in Hex as (p & Hp & Hi); [|apply _]. exists u, paths, names, p.
      destruct (decide (Include flt p = true ∧ p ∉ names)) as [Hin|Hin]; [|exfalso; apply Hi; by intros ?%Hin].
      split_and!; try done. apply not_false_is_true. intros Hf. by apply Hi.
Qed.
End Github.

(** *** An organisation with one repository, and a stale clone *)

Definition toyRel (base path : bytes) : option bytes := if HasPrefix path (base ++ [47]) then Some (drop (S (length base)) path) else None.
Lemma toyRel_relative : relative toyRel.
Proof.
  intros ds cs p Hd Hc _ _. unfold toyRel. rewrite Join_app by done. cbn [app]. destruct (HasPrefix _ _); [|done]. intros [= <-].
  cbn [length drop]. change (47 :: Join [47] cs) with ([47] ++ Join [47] cs). rewrite app_assoc, drop_app_length'; [done|]. rewrite length_app. cbn [length]. lia.
Qed.
Definition toyRepo : ghRepository :=
  MkGh (Some (str "zoekt")) (Some (str "ann/zoekt")) (Some (str "https://github.com/ann/zoekt")) (Some (str "https://github.com/ann/zoekt.git")) (Some false) (Some 12) None None (Some 3).
Definition toyParse (s : bytes) : option URL :=
  if HasPrefix s (str "https://github.com/") then Some (MkURL (str "github.com") (drop 18 s) []) else None.
Definition toyUser (_ : bytes) (page : Z) : option (list ghRepository * Z) := if page =? 0 then Some ([toyRepo], 0) else None.
Definition toyDisk (m : mirror) (p : bytes) : fsNode :=
  if decide (p = str "/repos/github.com/ann") then directory_ [(str "old.git", directory_ []); (str "zoekt.git", directory_ [])] else FGone.
Definition toyFlags : githubFlags := MkGithubFlags (str "/repos") [] (str "ann") false true [] [].
Definition toyMirrored : res () * mirror :=
  mirrorGithub (H := merge_sort_alg) (λ _, false) (λ _, true) (λ _, false) toyParse (λ _, true) toyRel (λ _, false) (λ _, Err "regexp") (λ _ _, None) toyUser 2 toyDisk toyFlags
    (MkMirror {[str "/repos/github.com/ann/old.git"]} [] ∅).

(** The clone of the user's repository is made, the stale one is removed, and the theorem applies. *)
Lemma mirrorGithub_mirrors_witness : elements (mi_dirs (snd toyMirrored)) = [str "/repos/github.com/ann/zoekt.git"] ∧ length (mi_log (snd toyMirrored)) = 1%nat ∧
  ∃ all flt repos, getRepos (toyUser (str "ann")) 2 0 = Ok all ∧ NewFilter (λ _, Err "regexp") [] [] = Ok flt ∧ (∀ r, r ∈ repos ↔ selected toyFlags flt all r) ∧
    Forall (λ r, clonedAt (PathJoin [gf_dest toyFlags; str "github.com"]) r (mi_dirs (snd toyMirrored))) repos.
Proof.
  split; [vm_compute; reflexivity|split; [vm_compute; reflexivity|]].
  destruct (mirrorGithub_mirrors (H := merge_sort_alg) (λ _, false) (λ _, true) (λ _, false) toyParse (λ _, true) toyRel (λ _, false) (λ _, Err "regexp") (λ _ _, None) toyUser 2 toyDisk
    [str "repos"] toyFlags (MkMirror {[str "/repos/github.com/ann/old.git"]} [] ∅) (snd toyMirrored)) as (all & flt & repos & m1 & Hall & Hflt & Hsel & _ & _ & _ & Hcl & _).
  - reflexivity.
  - done.
  - apply Forall_singleton. apply (@bool_decide_unpack _ (isName_dec _)). vm_compute. reflexivity.
  - apply toyRel_relative.
  - split_and!; [apply (@bool_decide_unpack _ (isName_dec _)); vm_compute; reflexivity|vm_compute; reflexivity|]. intros u E. vm_compute in E. injection E as <-. split; reflexivity.
  - intros m p. unfold toyDisk. destruct (decide _); vm_compute; reflexivity.
  - intros page repos next [?|E]; [done|]. unfold toyUser in E. destruct (page =? 0); [|done]. injection E as <- <-. apply Forall_singleton.
    intros full html u Ef Eh Eu. cbn in Ef, Eh. injection Ef as <-. injection Eh as <-. vm_compute in Eu. injection Eu as <-. exists (str "ann"), (str "zoekt").
    split_and!; try reflexivity; apply (@bool_decide_unpack _ (isName_dec _)); vm_compute; reflexivity.
  - change (toyMirrored = (Ok (), snd toyMirrored)). rewrite (surjective_pairing toyMirrored) at 1. apply (f_equal2 pair); [vm_compute; reflexivity|reflexivity].
  - exists all, flt, repos. exact (conj Hall (conj Hflt (conj Hsel Hcl))).
Defined.

(** *** What the commands do on the edges *)

(** A Gerrit server that offers http alone: the URL is lost, since the scheme that comes last is not offered. *)
Example gerrit_http_lost : projectURL {[str "http" := str "https://host/a/${project}"]} = [].
Proof. vm_compute. reflexivity. Qed.
Example gerrit_project_url : Replace (str "https://host/${project}/x${project") (str "${project}") (str "a/b") = str "https://host/a/b/x${project".
Proof. vm_compute. reflexivity. Qed.
(** A page of cgit without a link to clone from: the submatch is indexed although there is none. *)
Example cgit_without_link : cgitCloneURL toyParse (λ _, []) (λ _, Some (str "<html>", 200)) (λ _, None) (MkURL (str "host") (str "/repo/") []) = Panic "index out of range".
Proof. vm_compute. reflexivity. Qed.
(** A page of cgit that cannot be read: the repository stays in the list, with no URL to clone from. *)
Example cgit_page_fails : cgitTarget toyParse (λ _, []) (λ _, Some ([], 500)) (λ _, None) (MkCrawlTarget [] (str "https://github.com/ann") (str "cgit")) =
  Ok (MkCrawlTarget [] (str "https://github.com/ann") (str "cgit")).
Proof. vm_compute. reflexivity. Qed.
(** The filter is applied to names when cloning, and to paths when deleting: with a pattern that is anchored, the clone is not deleted when the
    repository is gone. *)
Definition anchored (name : bytes) : bool := HasPrefix name (str "zo").
Example anchored_never_deleted :
  Include (MkFilter (Some anchored) None) (str "zoekt") = true ∧ Include (MkFilter (Some anchored) None) (str "github.com/ann/zoekt.git") = false.
Proof. split; vm_compute; reflexivity. Qed.
