(* ===== verification/IndexServer.v ===== *)
(** * cmd/: the index servers and the archive indexer

    The sync loop of zoekt-sourcegraph-indexserver (main.go) as steps over the queue, the deletion of stale
    shards by both index servers, and the documents of an archive (zoekt-archive-index). The processes that are started are in
    Commands. *)

From S2P Require Import Prelude GoStd GoText Bits Api HitIter MatchIter Query Section IndexBuilder IndexData Content MatchTree Eval Decide Shard Gather Lines Ctags Build Git Queue.

(** ** Stale shards *)

Section Stale.
Context {F : Type} `{IndexFile F}.
(** os.Open with NewIndexFile for a file of given contents; encoding/json; files that cannot be removed. *)
Context (open : bytes → option F) (unmarshalMetadata : bytes → option IndexMetadata) (unmarshalRepository : bytes → option Repository).
Context (removeFails : bytes → bool).

(** deleteIfStale of either server: [exists_] tells whether the repository of that name is still there. What cannot be opened or read is kept. *)
Definition deleteIfStale (exists_ : bytes → bool) (fn : bytes) (dir : directory) : res directory :=
  match dir !! fn ≫= open with
  | None => Ok dir
  | Some f =>
    match ReadMetadata unmarshalMetadata unmarshalRepository f with
    | Ok (repo, _) => Ok (if exists_ (r_Name repo) || removeFails fn then dir else delete fn dir)
    | Err _ => Ok dir
    | Panic w => Panic w
    | OutOfFuel => OutOfFuel
    end
  end.
Fixpoint deleteLoop (exists_ : bytes → bool) (fs : list bytes) (dir : directory) : res directory :=
  match fs with
  | [] => Ok dir
  | f :: fs => dir ← deleteIfStale exists_ f dir; deleteLoop exists_ fs dir
  end.
(** All files of the directory, as filepath.Glob lists them. *)
Definition deleteStaleIndexes (exists_ : bytes → bool) (dir : directory) : res directory :=
  deleteLoop exists_ (fst <$> map_to_list dir) dir.
End Stale.

(** zoekt-sourcegraph-indexserver: the names in the list. zoekt-indexserver: the repository is in the directory of repositories;
    [missing] is os.Stat with os.IsNotExist. *)
Definition listed (names : list bytes) (name : bytes) : bool := bool_decide (name ∈ names).
Definition cloned (missing : bytes → bool) (repoDir name : bytes) : bool := negb (missing (Git.Path repoDir name)).

Section StaleGit.
Context {F : Type} `{IndexFile F}.
Context (open : bytes → option F) (unmarshalMetadata : bytes → option IndexMetadata) (unmarshalRepository : bytes → option Repository).
Context (removeFails missing : bytes → bool) (repoDir : bytes).
(** Of zoekt-indexserver. *)
Definition deleteIfStale_git (fn : bytes) (dir : directory) : res directory :=
  deleteIfStale open unmarshalMetadata unmarshalRepository removeFails (cloned missing repoDir) fn dir.
Definition deleteStaleIndexes_git (dir : directory) : res directory :=
  deleteStaleIndexes open unmarshalMetadata unmarshalRepository removeFails (cloned missing repoDir) dir.
End StaleGit.

(** ** The sync loop *)

(** The shards, the queue, the round of the updating goroutine (the names Sourcegraph listed, and those still to be
    resolved), and the job of the indexing loop. *)
Record syncState := MkSync {
  sy_queue : Queue;
  sy_round : option (list bytes * list bytes);
  sy_job : option (bytes * bytes);
  sy_dir : directory }.
Definition sync0 (dir : directory) : syncState := MkSync queue0 None None dir.

(** What a step does that can be seen from outside. *)
Inductive label := LTau | LResolved (name commit : bytes) | LIndex (name commit : bytes).

Section Sync.
Context {F : Type} `{IndexFile F}.
Context (open : bytes → option F) (unmarshalMetadata : bytes → option IndexMetadata) (unmarshalRepository : bytes → option Repository).
Context (removeFails : bytes → bool).

(** Steps of Run: the list arrives; a HEAD is resolved (in any order: up to 32 goroutines are at it; a repository that does not exist has
    the empty commit) or cannot be; the round ends with the deletion of stale shards; the other goroutine takes a job, and the job ends, with an index that has
    written files to the directory, or fails. *)
Inductive syncStep : syncState → label → syncState → Prop :=
| sync_list s names : sy_round s = None → syncStep s LTau (MkSync (sy_queue s) (Some (names, names)) (sy_job s) (sy_dir s))
| sync_resolved s names l1 l2 name commit : sy_round s = Some (names, l1 ++ name :: l2) →
    syncStep s (LResolved name commit) (MkSync (AddOrUpdate (sy_queue s) name commit) (Some (names, l1 ++ l2)) (sy_job s) (sy_dir s))
| sync_unresolved s names l1 l2 name : sy_round s = Some (names, l1 ++ name :: l2) →
    syncStep s LTau (MkSync (sy_queue s) (Some (names, l1 ++ l2)) (sy_job s) (sy_dir s))
| sync_round s names dir : sy_round s = Some (names, []) →
    (if bool_decide (names = []) then Ok (sy_dir s)
     else deleteStaleIndexes open unmarshalMetadata unmarshalRepository removeFails (listed names) (sy_dir s)) = Ok dir →
    syncStep s LTau (MkSync (sy_queue s) None (sy_job s) dir)
| sync_pop s name commit q : sy_job s = None → Pop (sy_queue s) = (Some (name, commit), q) →
    syncStep s (LIndex name commit) (MkSync q (sy_round s) (Some (name, commit)) (sy_dir s))
| sync_indexed s name commit dir : sy_job s = Some (name, commit) →
    syncStep s LTau (MkSync (SetIndexed (sy_queue s) name commit) (sy_round s) None dir)
| sync_failed s name commit dir : sy_job s = Some (name, commit) →
    syncStep s LTau (MkSync (sy_queue s) (sy_round s) None dir).

(** A run, with its labels, the last one first. *)
Inductive syncRun (dir0 : directory) : list label → syncState → Prop :=
| run_init : syncRun dir0 [] (sync0 dir0)
| run_step tr s l s' : syncRun dir0 tr s → syncStep s l s' → syncRun dir0 (l :: tr) s'.
End Sync.

(** What a run has seen of a repository: its latest commit, and whether an index job for that
    commit has been started since it was resolved. *)
Fixpoint status (tr : list label) (name : bytes) : option (bytes * bool) :=
  match tr with
  | [] => None
  | LTau :: tr => status tr name
  | LResolved n c :: tr => if bool_decide (n = name) then Some (c, false) else status tr name
  | LIndex n c :: tr =>
    if bool_decide (n = name) then (λ cs, (fst cs, bool_decide (c = fst cs))) <$> status tr name else status tr name
  end.

(** ** Archives *)

(** The loop of stripComponents. *)
Fixpoint stripLoop (count : nat) (path : bytes) : bytes :=
  match count, path with
  | O, _ | _, [] => path
  | S count, _ =>
    match CutByte 47 path with
    | (_, None) => []
    | (_, Some rest) => stripLoop count rest
    end
  end.
Definition stripComponents (path : bytes) (count : Z) : bytes := stripLoop (Z.to_nat count) path.

Definition isGitOID (s : bytes) : bool :=
  (lenZ s =? 40) && forallb (λ r, ((48 <=? r) && (r <=? 57)) || ((97 <=? r) && (r <=? 102)) || ((65 <=? r) && (r <=? 70))) s.

Record ArchiveOptions := MkArchiveOptions {
  ao_Incremental : bool;
  ao_Archive : bytes;
  ao_Name : bytes;
  ao_RepoURL : bytes;
  ao_Branch : bytes;
  ao_Commit : bytes;
  ao_Strip : Z }.
Definition set_ref (ref : bytes) (o : ArchiveOptions) : ArchiveOptions :=
  if isGitOID ref
  then MkArchiveOptions (ao_Incremental o) (ao_Archive o) (ao_Name o) (ao_RepoURL o) (ao_Branch o) (if bool_decide (ao_Commit o = []) then ref else ao_Commit o) (ao_Strip o)
  else MkArchiveOptions (ao_Incremental o) (ao_Archive o) (ao_Name o) (ao_RepoURL o) (if bool_decide (ao_Branch o = []) then ref else ao_Branch o) (ao_Commit o) (ao_Strip o).
Definition set_repo (owner repo : bytes) (o : ArchiveOptions) : ArchiveOptions :=
  MkArchiveOptions (ao_Incremental o) (ao_Archive o) (str "github.com/" ++ owner ++ str "/" ++ repo) (str "https://github.com/" ++ owner ++ str "/" ++ repo)
    (ao_Branch o) (ao_Commit o) (ao_Strip o).
Definition set_Archive (a : bytes) (o : ArchiveOptions) : ArchiveOptions :=
  MkArchiveOptions (ao_Incremental o) a (ao_Name o) (ao_RepoURL o) (ao_Branch o) (ao_Commit o) (ao_Strip o).
Definition set_Strip (n : Z) (o : ArchiveOptions) : ArchiveOptions :=
  MkArchiveOptions (ao_Incremental o) (ao_Archive o) (ao_Name o) (ao_RepoURL o) (ao_Branch o) (ao_Commit o) n.

(** The parts of the path of a URL of GitHub; the reference is in part [refAt]. *)
Definition fromParts (parts : list bytes) (refAt : nat) (codeload : bool) (o : ArchiveOptions) : ArchiveOptions :=
  let part i := default [] (parts !! i) in
  let o := if (2 <? lenZ parts) && bool_decide (ao_Name o = []) then set_repo (part 1%nat) (part 2%nat) o else o in
  let o := if Z.of_nat refAt <? lenZ parts then
             let o := set_ref (part refAt) o in
             if codeload then set_Archive (str "https://codeload.github.com/" ++ part 1%nat ++ str "/" ++ part 2%nat ++ str "/legacy.tar.gz/" ++ part refAt) o else o
           else o in
  set_Strip 1 o.
Definition ArchiveOptions_SetDefaults (urlParse : bytes → option URL) (o : ArchiveOptions) : ArchiveOptions :=
  match urlParse (ao_Archive o) with
  | None => o
  | Some u =>
    let parts := SplitByte 47 (u_Path u) in
    if bool_decide (u_Host u = str "github.com" ∨ u_Host u = str "codeload.github.com")
    then fromParts parts 4 (bool_decide (u_Host u = str "github.com")) o
    else if bool_decide (u_Host u = str "api.github.com") then fromParts parts 5 false o
    else o
  end.

(** What a tar reader gives, until its end or an error. *)
Inductive tarItem := TarEntry (regular : bool) (name : bytes) (size : Z) (content : option bytes) | TarError.
Fixpoint archiveDocs (sizeMax strip : Z) (brs : list bytes) (a : list tarItem) : res (list Document) :=
  match a with
  | [] => Ok []
  | TarError :: _ => Err "archive"
  | TarEntry regular name size content :: a =>
    if negb regular || (sizeMax <? size) then archiveDocs sizeMax strip brs a
    else
      contents ← orErr "archive" content;
      let name := stripComponents name strip in
      docs ← archiveDocs sizeMax strip brs a;
      Ok (if bool_decide (name = []) then docs else MkDocument name contents brs [] [] [] [] :: docs)
  end.

(** As for IndexGitRepo: None when the index is up to date, or the options and the documents of the builder. *)
Definition do_archive `{SortAlg} (validTemplate : bytes → bool) (urlParse : bytes → option URL) (urlName : bytes → option bytes) (IndexVersions : Options → list RepositoryBranch)
    (openArchive : bytes → option (list tarItem)) (o : ArchiveOptions) (bo : Options) : res (option (Options * list Document)) :=
  let o := ArchiveOptions_SetDefaults urlParse o in
  if bool_decide (ao_Name o = [] ∧ ao_RepoURL o = []) then Err "-name or -url required"
  else if bool_decide (ao_Branch o = []) then Err "-branch required"
  else
    let desc := op_RepositoryDescription bo in
    let bo := set_Description bo (if bool_decide (ao_Name o = []) then desc else set_Name desc (ao_Name o)) (op_SubRepositories bo) in
    let bo := Build.SetDefaults urlName bo in
    let bo := set_Description bo (set_Branches (op_RepositoryDescription bo) [MkBranch (ao_Branch o) (ao_Commit o)]) (op_SubRepositories bo) in
    if ao_Incremental o && bool_decide (IndexVersions bo = r_Branches (op_RepositoryDescription bo)) then Ok None
    else
      a ← orErr "open" (openArchive (ao_Archive o));
      _ ← NewBuilder validTemplate urlName bo;
      docs ← archiveDocs (op_SizeMax bo) (ao_Strip o) [ao_Branch o] a;
      Ok (Some (bo, docs)).

(** *** Commits are not lost *)

Section SyncFacts.
Context {F : Type} `{IndexFile F}.
Context (open : bytes → option F) (unmarshalMetadata : bytes → option IndexMetadata) (unmarshalRepository : bytes → option Repository).
Context (removeFails : bytes → bool).
#[local] Abbreviation step := (syncStep open unmarshalMetadata unmarshalRepository removeFails).
#[local] Abbreviation run := (syncRun open unmarshalMetadata unmarshalRepository removeFails).

(** The queue knows the latest commit, and has the repository unless its job was started. *)
Definition tracks (tr : list label) (q : Queue) : Prop := ∀ name,
  match status tr name with
  | Some (c, started) => ∃ e, view q !! name = Some e ∧ e_latest e = c ∧ (started = true ∨ is_Some (e_queued e))
  | None => ∀ e, view q !! name = Some e → e_queued e = None
  end.

Lemma spec_add m seq name commit out m' seq' : spec (m, seq) (OpAdd name commit) out (m', seq') →
  ∃ s, m' = <[name := Entry (e_indexed (default entry0 (m !! name))) commit (Some s)]> m.
Proof. inversion 1 as [| | |? ? ? ? e s Hm Hs|]; subst; [by eexists|]. exists s. by rewrite Hm. Qed.
Lemma spec_popped m seq name commit m' seq' : spec (m, seq) OpPop (Some (name, commit)) (m', seq') →
  ∃ e, m !! name = Some e ∧ e_latest e = commit ∧ is_Some (e_queued e) ∧ m' = <[name := Entry (e_indexed e) commit None]> m.
Proof. inversion 1 as [|? ? ? e s Hm Hs _| | |]; subst. exists e. by split_and!. Qed.
Lemma spec_indexed m seq name indexed out m' seq' : spec (m, seq) (OpSetIndexed name indexed) out (m', seq') →
  m' = <[name := Entry indexed (e_latest (default entry0 (m !! name))) (e_queued (default entry0 (m !! name)))]> m.
Proof. by inversion 1. Qed.

Lemma tracks_add tr q name commit : queue_ok q → tracks tr q →
  queue_ok (AddOrUpdate q name commit) ∧ tracks (LResolved name commit :: tr) (AddOrUpdate q name commit).
Proof.
  intros Hq Ht. pose proof (exec_refines q (OpAdd name commit) Hq) as [Hq' [s Hv]%spec_add]. split; [done|]. intros n. simpl in Hv |- *. rewrite Hv.
  case_bool_decide as En; [subst; rewrite lookup_insert_eq; eexists; split; [done|]; simpl; split; [done|by right]|].
  rewrite lookup_insert_ne by done. apply Ht.
Qed.
Lemma tracks_pop tr q name commit q' : queue_ok q → tracks tr q → Pop q = (Some (name, commit), q') →
  queue_ok q' ∧ tracks (LIndex name commit :: tr) q' ∧ ∃ started, status tr name = Some (commit, started).
Proof.
  intros Hq Ht Hp. pose proof (exec_refines q OpPop Hq) as He. simpl in He. rewrite Hp in He. destruct He as [Hq' (e & He & El & Hqu & Hv)%spec_popped].
  split; [done|]. assert (∃ started, status tr name = Some (commit, started)) as [st Est].
  { specialize (Ht name). destruct (status tr name) as [[c st]|].
    - destruct Ht as (e' & He' & Hl & _). exists st. f_equal. congruence.
    - rewrite (Ht e He) in Hqu. by destruct Hqu. }
  split; [|by exists st]. intros n. simpl. rewrite Hv. case_bool_decide as En.
  - subst n. rewrite Est, lookup_insert_eq. simpl. eexists. split; [done|]. split; [done|]. left. by apply bool_decide_true.
  - rewrite lookup_insert_ne by done. apply Ht.
Qed.
Lemma tracks_indexed tr q name commit : queue_ok q → tracks tr q → is_Some (status tr name) →
  queue_ok (SetIndexed q name commit) ∧ tracks (LTau :: tr) (SetIndexed q name commit).
Proof.
  intros Hq Ht [[c st] Hs]. pose proof (exec_refines q (OpSetIndexed name commit) Hq) as [Hq' Hv%spec_indexed]. split; [done|]. intros n. simpl in Hv |- *. rewrite Hv.
  pose proof (Ht n) as Htn. destruct (decide (n = name)) as [->|Hne]; [|by rewrite lookup_insert_ne].
  rewrite Hs in Htn |- *. destruct Htn as (e & He & Hl & Hst). rewrite He, lookup_insert_eq. simpl. eexists. split; [done|]. by split.
Qed.

(** The job in work was once handed out, so its repository is known. *)
Record syncOK (tr : list label) (s : syncState) : Prop := {
  so_queue : queue_ok (sy_queue s);
  so_tracks : tracks tr (sy_queue s);
  so_job : ∀ name commit, sy_job s = Some (name, commit) → is_Some (status tr name) }.
Lemma status_known tr l name : is_Some (status tr name) → is_Some (status (l :: tr) name).
Proof. intros Hs. destruct l as [|n c|n c]; simpl; [done| |]; case_bool_decide; [by eexists|done| |done]. by apply fmap_is_Some. Qed.

Lemma syncOK_step tr s l s' : syncOK tr s → step s l s' → syncOK (l :: tr) s'.
Proof.
  intros [Hq Ht Hj]. destruct 1 as [s names Hr|s names l1 l2 name commit Hr|s names l1 l2 name Hr|s names dir Hr Hd|s name commit q Hjob Hp|s name commit dir Hjob|s name commit dir Hjob].
  - by split.
  - destruct (tracks_add tr (sy_queue s) name commit Hq Ht) as [? ?]. split; [done|done|]. intros n c Hn. by eapply status_known, Hj.
  - by split.
  - by split.
  - destruct (tracks_pop tr (sy_queue s) name commit q Hq Ht Hp) as (? & ? & st & Est). split; [done|done|]. simpl. intros n c [= <- <-].
    rewrite bool_decide_true by done. by rewrite Est.
  - destruct (tracks_indexed tr (sy_queue s) name commit Hq Ht (Hj _ _ Hjob)) as [? ?]. by split.
  - by split.
Qed.
Lemma queue0_ok : queue_ok queue0.
Proof.
  split; [split; [by intros i name|by intros name it]|intros i Hi; simpl in Hi; lia|split; by intros].
Qed.
Lemma syncOK_run dir0 tr s : run dir0 tr s → syncOK tr s.
Proof.
  induction 1 as [|tr s l s' _ IH Hs]; [|by eapply syncOK_step]. split; [apply queue0_ok| |done]. intros name. simpl. intros e He. unfold view in He. by rewrite lookup_fmap in He.
Qed.
End SyncFacts.

(** ** Deleting stale shards *)

Section StaleFacts.
Context {F : Type} `{IndexFile F}.
Context (open : bytes → option F) (unmarshalMetadata : bytes → option IndexMetadata) (unmarshalRepository : bytes → option Repository).
Context (removeFails : bytes → bool).
#[local] Abbreviation metadata := (ReadMetadata unmarshalMetadata unmarshalRepository).

(** The file is a shard of a repository that is gone. *)
Definition stale (exists_ : bytes → bool) (content : bytes) : bool :=
  match open content with
  | Some f => match metadata f with Ok (repo, _) => negb (exists_ (r_Name repo)) | _ => false end
  | None => false
  end.
(** Reading the metadata of a file of the directory returns. *)
Definition readable (dir : directory) : Prop := map_Forall (λ _ c, ∀ f, open c = Some f → settled (metadata f)) dir.

Lemma deleteIfStale_ok exists_ fn dir : readable dir →
  ∃ dir', deleteIfStale open unmarshalMetadata unmarshalRepository removeFails exists_ fn dir = Ok dir' ∧ readable dir' ∧
    ∀ g, dir' !! g = if bool_decide (g = fn) && negb (removeFails fn) && default false (stale exists_ <$> dir !! g) then None else dir !! g.
Proof.
  intros Hr. unfold deleteIfStale.
  assert (∀ (keep : bool), (default false (stale exists_ <$> dir !! fn) && negb (removeFails fn)) = negb keep → ∃ dir', Ok (if keep then dir else delete fn dir) = Ok dir' ∧ readable dir' ∧
    ∀ g, dir' !! g = if bool_decide (g = fn) && negb (removeFails fn) && default false (stale exists_ <$> dir !! g) then None else dir !! g) as Hgo.
  { intros keep Hk. eexists. split; [done|]. split; [destruct keep; [done|by apply map_Forall_delete]|]. intros g. case_bool_decide as Eg; simpl.
    - subst. rewrite andb_comm, Hk. destruct keep; [done|]. simpl. apply lookup_delete_eq.
    - destruct keep; [done|]. by apply lookup_delete_ne. }
  destruct (dir !! fn) as [c|] eqn:Ec; simpl in *; [|by apply (Hgo true)]. unfold stale in Hgo.
  destruct (open c) as [f|] eqn:Eo; simpl in *; [|by apply (Hgo true)]. pose proof (Hr _ _ Ec f Eo) as Hset.
  destruct (metadata f) as [[repo md]| | |]; try done; [|by apply (Hgo true)].
  destruct (exists_ (r_Name repo)), (removeFails fn); simpl in *; [by apply (Hgo true)..|by apply (Hgo false)].
Qed.
Lemma deleteLoop_ok exists_ fs dir : readable dir →
  ∃ dir', deleteLoop open unmarshalMetadata unmarshalRepository removeFails exists_ fs dir = Ok dir' ∧
    ∀ g, dir' !! g = if bool_decide (g ∈ fs) && negb (removeFails g) && default false (stale exists_ <$> dir !! g) then None else dir !! g.
Proof.
  revert dir. induction fs as [|f fs IH]; intros dir Hr; cbn [deleteLoop]; [by exists dir|].
  destruct (deleteIfStale_ok exists_ f dir Hr) as (d1 & -> & Hr1 & H1). cbn [mbind res_bind]. destruct (IH d1 Hr1) as (d2 & -> & H2).
  exists d2. split; [done|]. intros g. rewrite H2, H1. destruct (decide (g = f)) as [->|Hne].
  - rewrite (bool_decide_true (f = f)), (bool_decide_true (f ∈ f :: fs)) by (done || constructor). simpl.
    destruct (removeFails f), (default false (stale exists_ <$> dir !! f)) eqn:Es; simpl; rewrite ?andb_false_r; simpl; rewrite ?Es, ?andb_false_r; done.
  - rewrite (bool_decide_false (g = f)) by done. simpl. rewrite (bool_decide_ext (g ∈ f :: fs) (g ∈ fs)); [done|]. rewrite elem_of_cons. tauto.
Qed.
End StaleFacts.

(** *** Files that are too short *)

(** os.Open with NewIndexFile, on Linux. *)
Definition openMapped (c : bytes) : option mmapedIndexFile := match NewIndexFile c with Ok f => Some f | _ => None end.

Lemma openMapped_short c : 4 <= lenZ c < 8 → ∃ data : bytes, openMapped c = Some (Mmaped (lenZ c) data) ∧ lenZ data = 4096.
Proof. intros (data & E & Hd)%NewIndexFile_short. exists data. split; [|done]. unfold openMapped. by rewrite E. Qed.

(** ** Names in archives *)

Lemma stripLoop_ok n cs : Forall (λ c, 47 ∉ c) cs → stripLoop n (Join [47] cs) = Join [47] (drop n cs).
Proof.
  intros Hcs. revert n. induction Hcs as [|c cs Hc Hcs IH]; intros n; [by destruct n|]. destruct n as [|n]; [done|]. simpl drop.
  destruct cs as [|c' cs].
  - rewrite drop_nil. cbn [Join stripLoop]. destruct c as [|x c]; [done|]. by rewrite CutByte_none.
  - rewrite Join_cons by done. change ([47] ++ ?x) with (47 :: x). cbn [stripLoop]. destruct (c ++ 47 :: Join [47] (c' :: cs)) as [|x y] eqn:E; [by destruct c|].
    rewrite <- E, CutByte_app by done. apply IH.
Qed.

(** The document of an entry of an archive, if it gets one. *)
Definition entryDoc (sizeMax strip : Z) (brs : list bytes) (i : tarItem) : option Document :=
  match i with
  | TarEntry true name size (Some c) =>
    if (size <=? sizeMax) && negb (bool_decide (stripComponents name strip = [])) then Some (MkDocument (stripComponents name strip) c brs [] [] [] []) else None
  | _ => None
  end.
Lemma archiveDocs_ok sizeMax strip brs a docs : archiveDocs sizeMax strip brs a = Ok docs → docs = omap (entryDoc sizeMax strip brs) a.
Proof.
  revert docs. induction a as [|[regular name size content|] a IH]; intros docs Hd; [by injection Hd as <-| |done].
  cbn [archiveDocs] in Hd. cbn [omap list_omap entryDoc]. destruct regular; simpl in Hd; [|by apply IH].
  destruct (Z.ltb_spec sizeMax size).
  - rewrite (proj2 (Z.leb_gt _ _)) by lia. destruct content; by apply IH.
  - destruct content as [c|]; [|done]. simpl in Hd. apply bind_Ok in Hd as (docs' & Hd' & [= <-]). rewrite (proj2 (Z.leb_le _ _)) by lia. simpl.
    case_bool_decide; simpl; [by apply IH|]. f_equal. by apply IH.
Qed.

(** ** Properties *)

(** C19: no commit is lost. In every run of the sync loop, with its two goroutines interleaved in any way, jobs failing or not: an index job is only ever started
    for the latest commit that was resolved for the repository; and a repository whose latest commit has not been handed to a job
    since it was resolved is in the queue with that commit, so that the next job can be taken from it. *)
Theorem no_commit_lost {F} `{IndexFile F} (open : bytes → option F) (unmarshalMetadata : bytes → option IndexMetadata)
    (unmarshalRepository : bytes → option Repository) (removeFails : bytes → bool) (dir0 : directory) (tr : list label) (s : syncState)
    (Hrun : syncRun open unmarshalMetadata unmarshalRepository removeFails dir0 tr s) :
  (∀ name commit, status tr name = Some (commit, false) →
     ∃ e, view (sy_queue s) !! name = Some e ∧ e_latest e = commit ∧ is_Some (e_queued e) ∧ is_Some (fst (Pop (sy_queue s)))) ∧
  (∀ name commit s', syncStep open unmarshalMetadata unmarshalRepository removeFails s (LIndex name commit) s' →
     ∃ started, status tr name = Some (commit, started)).
Proof.
  apply syncOK_run in Hrun as [Hq Ht Hj]. split.
  - intros name commit Hs. pose proof (Ht name) as Hn. rewrite Hs in Hn. destruct Hn as (e & He & Hl & [?|Hqu]); [done|].
    exists e. split_and!; try done. pose proof (exec_refines (sy_queue s) OpPop Hq) as Hp. simpl in Hp. destruct (Pop (sy_queue s)) as [[nc|] q]; [done|].
    destruct Hp as [_ Hp]. inversion Hp as [? ? Hnone| | | |]; subst. rewrite (Hnone _ _ He) in Hqu. by destruct Hqu.
  - intros name commit s' Hst. inversion Hst as [| | | |? ? ? q Hjob Hp| |]; subst. by apply (tracks_pop tr (sy_queue s) name commit q).
Qed.

(** C38: deleting stale indexes removes exactly the shards of repositories that are gone. When the metadata of every file can be read or fails to be,
    deleteStaleIndexes returns; a file is gone afterwards exactly when it is a shard whose repository is not
    among the existing ones and it could be removed; every other file, shard or not, is as it was. *)
Theorem deleteStaleIndexes_spec {F} `{IndexFile F} (open : bytes → option F) (unmarshalMetadata : bytes → option IndexMetadata)
    (unmarshalRepository : bytes → option Repository) (removeFails : bytes → bool) (exists_ : bytes → bool) (dir : directory)
    (Hread : readable open unmarshalMetadata unmarshalRepository dir) :
  ∃ dir', deleteStaleIndexes open unmarshalMetadata unmarshalRepository removeFails exists_ dir = Ok dir' ∧
    ∀ g, dir' !! g = match dir !! g with
                     | Some c => if stale open unmarshalMetadata unmarshalRepository exists_ c && negb (removeFails g) then None else Some c
                     | None => None
                     end.
Proof.
  destruct (deleteLoop_ok open unmarshalMetadata unmarshalRepository removeFails exists_ (fst <$> map_to_list dir) dir Hread) as (dir' & E & Hd).
  exists dir'. split; [done|]. intros g. rewrite Hd. destruct (dir !! g) as [c|] eqn:Eg; simpl; [|by rewrite andb_false_r].
  rewrite (bool_decide_true (g ∈ _)); [by rewrite andb_comm|]. apply list_elem_of_fmap. exists (g, c). split; [done|]. by apply elem_of_map_to_list.
Qed.

(** A file of four to seven bytes in the index directory, whatever it is, brings the server down: the offset of the table of contents is
    computed in 32 bits, wraps, passes the bounds check of the mapped file and panics; deleteStaleIndexes does not
    return. *)
Theorem short_file_panics (unmarshalMetadata : bytes → option IndexMetadata) (unmarshalRepository : bytes → option Repository)
    (removeFails exists_ : bytes → bool) (dir : directory) (fn c : bytes) (Hc : dir !! fn = Some c) (Hlen : 4 <= lenZ c < 8) :
  ∃ w, deleteIfStale openMapped unmarshalMetadata unmarshalRepository removeFails exists_ fn dir = Panic w.
Proof.
  destruct (openMapped_short c Hlen) as (data & Eo & Hd). destruct (readTOC_short c data Hlen Hd) as (w & Ew). exists w.
  unfold deleteIfStale. rewrite Hc. cbn [mbind option_bind]. rewrite Eo. unfold ReadMetadata. by rewrite Ew.
Qed.

(** An archive becomes documents. When do_archive indexes, the branch is the one given or guessed, and the documents are, in the order of the archive, the
    regular files that are not larger than the limit, under their path without its first components (as many as
    asked for); entries with fewer components are left out. *)
Theorem do_archive_documents `{SortAlg} (validTemplate : bytes → bool) (urlParse : bytes → option URL) (urlName : bytes → option bytes) (IndexVersions : Options → list RepositoryBranch)
    (openArchive : bytes → option (list tarItem)) (o : ArchiveOptions) (bo bo' : Options) (docs : list Document)
    (Hdo : do_archive validTemplate urlParse urlName IndexVersions openArchive o bo = Ok (Some (bo', docs))) :
  let o' := ArchiveOptions_SetDefaults urlParse o in
  ao_Branch o' ≠ [] ∧ r_Branches (op_RepositoryDescription bo') = [MkBranch (ao_Branch o') (ao_Commit o')] ∧
  ∃ a, openArchive (ao_Archive o') = Some a ∧ docs = omap (entryDoc (op_SizeMax bo') (ao_Strip o') [ao_Branch o']) a ∧
  ∀ cs, Forall (λ c, 47 ∉ c) cs → stripComponents (Join [47] cs) (ao_Strip o') = Join [47] (drop (Z.to_nat (ao_Strip o')) cs).
Proof.
  intros o'. unfold do_archive in Hdo. fold o' in Hdo. case_bool_decide; [done|]. case_bool_decide as Hb; [done|]. cbv zeta in Hdo.
  destruct (_ && _) in Hdo; [done|]. apply bind_Ok in Hdo as (a & Ha & Hdo). apply bind_Ok in Hdo as (b & _ & Hdo). apply bind_Ok in Hdo as (docs' & Hd & [= <- <-]).
  split; [done|]. split; [done|]. exists a. split_and!.
  - by destruct (openArchive (ao_Archive o')); simplify_eq/=.
  - by apply archiveDocs_ok in Hd.
  - intros cs Hcs. by apply stripLoop_ok.
Qed.

(** For a tarball of the GitHub API the guessed repository is wrong: its path begins with repos/, and the name is made of that and the owner, where
    the name for the same repository under codeload.github.com has owner and repository. *)
Theorem api_github_misnamed (owner repo ref : bytes) (inc : bool) (archive rest : bytes)
    (Ho : 47 ∉ owner) (Hr : 47 ∉ repo) (Href : 47 ∉ ref) :
  let o := MkArchiveOptions inc archive [] [] [] [] 0 in
  let api := MkURL (str "api.github.com") (Join [47] [[]; str "repos"; owner; repo; str "tarball"; ref]) rest in
  let codeload := MkURL (str "codeload.github.com") (Join [47] [[]; owner; repo; str "legacy.tar.gz"; ref]) rest in
  ao_Name (ArchiveOptions_SetDefaults (λ _, Some api) o) = str "github.com/repos/" ++ owner ∧
  ao_Name (ArchiveOptions_SetDefaults (λ _, Some codeload) o) = str "github.com/" ++ owner ++ str "/" ++ repo.
Proof.
  intros o api codeload. assert (∀ s, bool_decide (47 ∉ str s) = true → 47 ∉ str s) as Hstr by (intros s; apply bool_decide_eq_true).
  assert (∀ cs, cs ≠ [] → Forall (λ c, 47 ∉ c) cs → SplitByte 47 (Join [47] cs) = cs) as Hsplit.
  { intros cs Hne Hcs. apply SplitFunc_Join; [done|done|]. eapply Forall_impl; [exact Hcs|]. intros c Hc d Hd. apply Z.eqb_neq. by intros ->. }
  unfold ArchiveOptions_SetDefaults, api, codeload. cbn [ao_Archive u_Path u_Host]. rewrite !Hsplit; [|done| |done|].
  - rewrite (bool_decide_false (str "api.github.com" = str "github.com" ∨ _)) by (vm_compute; intuition discriminate).
    rewrite (bool_decide_true (str "api.github.com" = _)) by done. rewrite (bool_decide_true (str "codeload.github.com" = _ ∨ _)) by (by right).
    rewrite (bool_decide_false (str "codeload.github.com" = _)) by (vm_compute; discriminate). unfold fromParts, set_ref. by destruct (isGitOID _).
  - repeat constructor; try done; [by apply not_elem_of_nil|by apply Hstr].
  - repeat constructor; try done; [by apply not_elem_of_nil|by apply Hstr..].
Qed.

(** Witnesses. *)

Definition toyOpenFile : bytes → option mmapedIndexFile := openMapped.
Definition toyMeta (_ : bytes) : option IndexMetadata := Some (MkIndexMetadata 0 0 0 false ∅ []).
Definition toyGone (_ : bytes) : option Repository := Some (set_Name repository0 (str "gone")).
#[local] Abbreviation toyStep := (syncStep toyOpenFile toyMeta toyGone (λ _, false)).
#[local] Abbreviation toySync := (syncRun toyOpenFile toyMeta toyGone (λ _, false) ∅).

(** The list arrives, a HEAD is resolved and its job taken; meanwhile a newer commit is resolved in the next round. *)
Definition toyQ1 : Queue := AddOrUpdate queue0 (str "r") [1].
Definition toyQ2 : Queue := snd (Pop toyQ1).
Definition toyTrace : list label := [LResolved (str "r") [2]; LTau; LTau; LIndex (str "r") [1]; LResolved (str "r") [1]; LTau].
Definition toyState : syncState := MkSync (AddOrUpdate toyQ2 (str "r") [2]) (Some ([str "r"], [])) (Some (str "r", [1])) ∅.
Lemma toy_pop : Pop toyQ1 = (Some (str "r", [1]), toyQ2).
Proof. vm_cast_no_check (@eq_refl (option (bytes * bytes) * Queue) (Some (str "r", [1]), toyQ2)). Qed.
Lemma toy_run : toySync toyTrace toyState.
Proof.
  set (r := str "r").
  assert (toySync [LTau] (MkSync queue0 (Some ([r], [r])) None ∅)) as R1.
  { eapply run_step; [apply run_init|]. by apply (sync_list toyOpenFile toyMeta toyGone (λ _, false) (sync0 ∅) [r]). }
  assert (toySync [LResolved r [1]; LTau] (MkSync toyQ1 (Some ([r], [])) None ∅)) as R2.
  { eapply run_step; [exact R1|]. by apply (sync_resolved toyOpenFile toyMeta toyGone (λ _, false) (MkSync queue0 (Some ([r], [r])) None ∅) [r] [] [] r [1]). }
  assert (toySync [LIndex r [1]; LResolved r [1]; LTau] (MkSync toyQ2 (Some ([r], [])) (Some (r, [1])) ∅)) as R3.
  { eapply run_step; [exact R2|]. by apply (sync_pop toyOpenFile toyMeta toyGone (λ _, false) (MkSync toyQ1 (Some ([r], [])) None ∅) r [1] toyQ2 eq_refl toy_pop). }
  assert (toySync [LTau; LIndex r [1]; LResolved r [1]; LTau] (MkSync toyQ2 None (Some (r, [1])) ∅)) as R4.
  { eapply run_step; [exact R3|]. by apply (sync_round toyOpenFile toyMeta toyGone (λ _, false) (MkSync toyQ2 (Some ([r], [])) (Some (r, [1])) ∅) [r] ∅). }
  assert (toySync [LTau; LTau; LIndex r [1]; LResolved r [1]; LTau] (MkSync toyQ2 (Some ([r], [r])) (Some (r, [1])) ∅)) as R5.
  { eapply run_step; [exact R4|]. by apply (sync_list toyOpenFile toyMeta toyGone (λ _, false) (MkSync toyQ2 None (Some (r, [1])) ∅) [r]). }
  eapply run_step; [exact R5|]. by apply (sync_resolved toyOpenFile toyMeta toyGone (λ _, false) (MkSync toyQ2 (Some ([r], [r])) (Some (r, [1])) ∅) [r] [] [] r [2]).
Qed.
Lemma no_commit_lost_witness : ∃ e, view (sy_queue toyState) !! str "r" = Some e ∧ e_latest e = [2] ∧ is_Some (e_queued e).
Proof.
  destruct (no_commit_lost toyOpenFile toyMeta toyGone (λ _, false) ∅ toyTrace toyState toy_run) as [Hq _].
  destruct (Hq (str "r") [2]) as (e & He & Hl & Hqu & _); [vm_compute; reflexivity|]. exists e. auto.
Defined.

Definition toyFiles : directory := {[ str "a" := toyOut; str "b" := str "not an index" ]}.
Definition settles (c : bytes) : bool :=
  match toyOpenFile c with
  | Some f => match ReadMetadata toyMeta toyGone f with Ok _ | Err _ => true | _ => false end
  | None => true
  end.
Lemma settles_ok c : settles c = true → ∀ f, toyOpenFile c = Some f → settled (ReadMetadata toyMeta toyGone f).
Proof. unfold settles. intros Hs f E. rewrite E in Hs. by destruct (ReadMetadata _ _ f). Qed.
Lemma deleteStaleIndexes_spec_witness :
  ∃ dir', deleteStaleIndexes toyOpenFile toyMeta toyGone (λ _, false) (λ _, false) toyFiles = Ok dir' ∧ dir' !! str "a" = None ∧ dir' !! str "b" = Some (str "not an index").
Proof.
  destruct (deleteStaleIndexes_spec toyOpenFile toyMeta toyGone (λ _, false) (λ _, false) toyFiles) as (dir' & E & Hd).
  - unfold toyFiles. apply map_Forall_insert_2; [|apply map_Forall_singleton]; apply settles_ok; vm_cast_no_check (eq_refl true).
  - exists dir'. split; [exact E|]. rewrite !Hd. split.
    + vm_cast_no_check (@eq_refl (option bytes) None).
    + vm_cast_no_check (@eq_refl (option bytes) (Some (str "not an index"))).
Defined.

Definition toyArchive : list tarItem := [TarEntry true (str "top/a.c") 3 (Some (str "abc")); TarEntry false (str "top/d") 0 None; TarEntry true (str "top") 1 (Some [97])].
Definition toyArchiveOptions : ArchiveOptions := MkArchiveOptions false (str "-") (str "r") [] (str "HEAD") [] 1.
Lemma do_archive_documents_witness : ∃ bo' docs,
  @do_archive merge_sort_alg (λ _, true) (λ _, None) (λ _, None) (λ _, []) (λ _, Some toyArchive) toyArchiveOptions (MkOptions 100 1 1000 repository0 None [] false) = Ok (Some (bo', docs)) ∧
  docs = [MkDocument (str "a.c") (str "abc") [str "HEAD"] [] [] [] []].
Proof.
  eexists _, _. split; [vm_compute; reflexivity|].
  edestruct (@do_archive_documents merge_sort_alg (λ _, true) (λ _, None) (λ _, None) (λ _, []) (λ _, Some toyArchive) toyArchiveOptions (MkOptions 100 1 1000 repository0 None [] false))
    as (_ & _ & a & Ha & Hd & _); [vm_compute; reflexivity|]. etransitivity; [exact Hd|]. injection Ha as <-. vm_compute. reflexivity.
Defined.

Lemma api_github_misnamed_witness :
  let o := MkArchiveOptions false [] [] [] [] [] 0 in
  ao_Name (ArchiveOptions_SetDefaults (λ _, Some (MkURL (str "api.github.com") (str "/repos/octokit/octokit.rb/tarball/master") [])) o) = str "github.com/repos/octokit" ∧
  ao_Name (ArchiveOptions_SetDefaults (λ _, Some (MkURL (str "codeload.github.com") (str "/octokit/octokit.rb/legacy.tar.gz/master") [])) o) = str "github.com/octokit/octokit.rb".
Proof.
  apply (api_github_misnamed (str "octokit") (str "octokit.rb") (str "master") false [] []);
    apply (@bool_decide_eq_true_1 (¬ _) _); vm_compute; reflexivity.
Defined.

Lemma short_file_panics_witness :
  ∃ w, deleteIfStale openMapped toyMeta toyGone (λ _, false) (λ _, true) (str "x") {[ str "x" := str "junk" ]} = Panic w.
Proof.
  apply (short_file_panics toyMeta toyGone (λ _, false) (λ _, true) {[ str "x" := str "junk" ]} (str "x") (str "junk")).
  - reflexivity.
  - split; [discriminate|reflexivity].
Defined.
