(* ===== verification/Commands.v ===== *)
(** * Command lines: how the processes start each other

    The index servers do their work by starting other commands of the repository. This file has package flag, the flags of the commands, and the
    command lines that cmd/zoekt-indexserver (main.go, config.go) and cmd/zoekt-sourcegraph-indexserver (main.go) build, so that what a server asks
    for can be compared with what the command is told. Commands that are run are kept in a list; what they print is left out. *)

From S2P Require Import Prelude GoStd GoText Bits Api HitIter MatchIter Query Section IndexBuilder IndexData Content MatchTree Eval Decide Shard Gather Lines Ctags Build Git RepoIndex Files Mirror Queue IndexServer.

(** ** Package flag *)

Inductive flagKind := FBool | FString | FInt.

(** strconv.ParseInt(s, 0, 64), before underscores and the prefixes 0b and 0o. *)
Fixpoint digitsIn (base acc : Z) (s : bytes) : option Z :=
  match s with
  | [] => Some acc
  | c :: s => match unhex c with Some d => if d <? base then digitsIn base (acc * base + d) s else None | None => None end
  end.
Definition baseOf (ds : bytes) : Z * bytes :=
  match ds with
  | (48 :: c :: _ :: _) as ds' => if (c =? 120) || (c =? 88) then (16, drop 2 ds') else (8, drop 1 ds')
  | 48 :: ds => (8, ds)
  | _ => (10, ds)
  end.
Example baseOf_hex : baseOf (str "0x1f") = (16, str "1f") ∧ baseOf (str "017") = (8, str "17") ∧ baseOf (str "10") = (10, str "10").
Proof. vm_compute. done. Qed.
Definition ParseInt0 (s : bytes) : res Z :=
  let '(neg, ds) := match s with 43 :: ds => (false, ds) | 45 :: ds => (true, ds) | _ => (false, s) end in
  if bool_decide (ds = []) then Err "invalid syntax"
  else
    let '(base, ds) := baseOf ds in
    match digitsIn base 0 ds with
    | None => Err "invalid syntax"
    | Some un =>
      if (negb neg && (2 ^ 63 <=? un)) || (neg && (2 ^ 63 <? un)) then Err "value out of range"
      else Ok (if (neg : bool) then - un else un)
    end.
(** strconv.ParseBool *)
Definition ParseBool (s : bytes) : res bool :=
  if bool_decide (s ∈ [str "1"; str "t"; str "T"; str "TRUE"; str "true"; str "True"]) then Ok true
  else if bool_decide (s ∈ [str "0"; str "f"; str "F"; str "FALSE"; str "false"; str "False"]) then Ok false
  else Err "invalid syntax".

(** An argument: not a flag, the end of the flags, a syntax error, or a flag with the value behind its equal sign. *)
Inductive argument := NotFlag | EndOfFlags | BadFlag | IsFlag (name : bytes) (value : option bytes).
Definition flagOf (s : bytes) : argument :=
  match s with
  | 45 :: c :: t =>
    if (c =? 45) && bool_decide (t = []) then EndOfFlags
    else match (if c =? 45 then t else c :: t) with
         | [] => BadFlag
         | (c :: t) as name => if (c =? 45) || (c =? 61) then BadFlag else let '(name, value) := CutByte 61 name in IsFlag name value
         end
  | _ => NotFlag
  end.
(** Whether Set accepts a value. *)
Definition accepts (k : flagKind) (v : bytes) : bool :=
  match k with
  | FString => true
  | FBool => match ParseBool v with Ok _ => true | _ => false end
  | FInt => match ParseInt0 v with Ok _ => true | _ => false end
  end.
(** FlagSet.Parse: the flags that are set, and the arguments behind them. *)
Fixpoint parseFlags (kinds : gmap bytes flagKind) (args : list bytes) (set : gmap bytes bytes) : res (gmap bytes bytes * list bytes) :=
  match args with
  | [] => Ok (set, [])
  | s :: rest =>
    match flagOf s with
    | NotFlag => Ok (set, args)
    | EndOfFlags => Ok (set, rest)
    | BadFlag => Err "bad flag syntax"
    | IsFlag name value =>
      match kinds !! name with
      | None => Err "flag provided but not defined"
      | Some k =>
        match value, k with
        | Some v, _ => if accepts k v then parseFlags kinds rest (<[name := v]> set) else Err "invalid value"
        | None, FBool => parseFlags kinds rest (<[name := str "true"]> set)
        | None, _ =>
          match rest with
          | [] => Err "flag needs an argument"
          | v :: rest => if accepts k v then parseFlags kinds rest (<[name := v]> set) else Err "invalid value"
          end
        end
      end
    end
  end.
Definition stringFlag (set : gmap bytes bytes) (name : string) (value : bytes) : bytes := default value (set !! str name).
Definition boolFlag (set : gmap bytes bytes) (name : string) (value : bool) : bool :=
  match set !! str name with Some v => match ParseBool v with Ok b => b | _ => value end | None => value end.
Definition intFlag (set : gmap bytes bytes) (name : string) (value : Z) : Z :=
  match set !! str name with Some v => match ParseInt0 v with Ok n => n | _ => value end | None => value end.
Definition kindsOf (l : list (string * flagKind)) : gmap bytes flagKind := list_to_map ((λ p, (str (fst p), snd p)) <$> l).

(** ** The flags of the commands *)

(** build.DefaultDir; $HOME/.github-token is only the place of a token. *)
Section Flags.
Context (DefaultDir : bytes).

Definition githubKinds : gmap bytes flagKind := kindsOf [("dest", FString); ("org", FString); ("user", FString); ("token", FString); ("forks", FBool); ("delete", FBool);
  ("name", FString); ("exclude", FString)]%string.
Definition githubArgs (args : list bytes) : res githubFlags :=
  '(s, _) ← parseFlags githubKinds args ∅;
  Ok (MkGithubFlags (stringFlag s "dest" []) (stringFlag s "org" []) (stringFlag s "user" []) (boolFlag s "forks" false) (boolFlag s "delete" false)
        (stringFlag s "name" []) (stringFlag s "exclude" [])).

Definition gitilesKinds : gmap bytes flagKind := kindsOf [("dest", FString); ("name", FString); ("exclude", FString); ("type", FString)]%string.
Definition gitilesArgs (args : list bytes) : res gitilesFlags :=
  '(s, rest) ← parseFlags gitilesKinds args ∅;
  Ok (MkGitilesFlags (stringFlag s "dest" []) (stringFlag s "name" []) (stringFlag s "exclude" []) (stringFlag s "type" (str "gitiles")) rest).

Definition repoKinds : gmap bytes flagKind := kindsOf [("file_limit", FInt); ("shard_limit", FInt); ("parallelism", FInt); ("rev_prefix", FString); ("base_url", FString);
  ("repo_cache", FString); ("index", FString); ("manifest_repo_url", FString); ("manifest_rev_prefix", FString); ("name", FString); ("url", FString);
  ("max_sub_projects", FInt); ("incremental", FBool)]%string.
(** The index directory comes first. *)
Definition repoArgs (args : list bytes) : res (bytes * RepoFlags) :=
  '(s, rest) ← parseFlags repoKinds args ∅;
  Ok (stringFlag s "index" DefaultDir,
      MkRepoFlags (intFlag s "file_limit" 131072) (intFlag s "shard_limit" 104857600) (intFlag s "parallelism" 1) (stringFlag s "rev_prefix" (str "refs/remotes/origin/"))
        (stringFlag s "base_url" []) (stringFlag s "repo_cache" []) (stringFlag s "manifest_repo_url" []) (stringFlag s "manifest_rev_prefix" (str "refs/remotes/origin/"))
        (stringFlag s "name" []) (stringFlag s "url" []) (intFlag s "max_sub_projects" 0) (boolFlag s "incremental" true) rest).

Definition archiveKinds : gmap bytes flagKind := kindsOf [("file_limit", FInt); ("shard_limit", FInt); ("parallelism", FInt); ("index", FString); ("incremental", FBool);
  ("require_ctags", FBool); ("name", FString); ("url", FString); ("branch", FString); ("commit", FString); ("strip_components", FInt)]%string.
Definition archiveArgs (args : list bytes) : res (bytes * ArchiveOptions * Options) :=
  '(s, rest) ← parseFlags archiveKinds args ∅;
  match rest with
  | [archive] =>
    Ok (stringFlag s "index" DefaultDir,
        MkArchiveOptions (boolFlag s "incremental" true) archive (stringFlag s "name" []) (stringFlag s "url" []) (stringFlag s "branch" []) (stringFlag s "commit" [])
          (intFlag s "strip_components" 0),
        MkOptions (intFlag s "file_limit" 131072) (intFlag s "parallelism" 4) (intFlag s "shard_limit" 104857600) repository0 None [] (boolFlag s "require_ctags" false))
  | _ => Err "expected argument for archive location"
  end.

(** ** cmd/zoekt-git-index *)

Definition gitKinds : gmap bytes flagKind := kindsOf [("file_limit", FInt); ("shard_limit", FInt); ("parallelism", FInt); ("allow_missing_branches", FBool); ("submodules", FBool);
  ("branches", FString); ("prefix", FString); ("index", FString); ("incremental", FBool); ("repo_cache", FString); ("require_ctags", FBool); ("version", FBool)]%string.
(** The name of the repository at [repoDir]. *)
Definition gitRepoName (repoCacheDir repoDir : bytes) : bytes :=
  let name := TrimSuffix repoDir (str "/.git") in
  if bool_decide (repoCacheDir ≠ []) && HasPrefix name repoCacheDir then TrimSuffix (TrimPrefix name (repoCacheDir ++ [47])) (str ".git")
  else TrimSuffix (PathBase name) (str ".git").
(** [Abs]: filepath.Abs. The options with which IndexGitRepo is called, in the order of the map from directories to names; none with -version. *)
Definition gitIndexArgs (Abs : bytes → option bytes) (urlName : bytes → option bytes) (args : list bytes) : res (bytes * list GitOptions) :=
  '(s, rest) ← parseFlags gitKinds args ∅;
  let indexDir := stringFlag s "index" DefaultDir in
  if boolFlag s "version" false then Ok (indexDir, [])
  else
    let cache := stringFlag s "repo_cache" [] in
    repoCacheDir ← (if bool_decide (cache = []) then Ok [] else orErr "abs" (Abs cache));
    let opts := Build.SetDefaults urlName (MkOptions (intFlag s "file_limit" 131072) (intFlag s "parallelism" 4) (intFlag s "shard_limit" 104857600) repository0 None []
      (boolFlag s "require_ctags" false)) in
    let branchesStr := stringFlag s "branches" (str "HEAD") in
    let branches := if bool_decide (branchesStr = []) then [] else SplitByte 44 branchesStr in
    dirs ← mapM (λ d, d ← orErr "abs" (Abs d); Ok (Clean d)) rest;
    let gitRepos : gmap bytes bytes := list_to_map (reverse ((λ d, (d, gitRepoName repoCacheDir d)) <$> dirs)) in
    Ok (indexDir, (λ dn, MkGitOptions (fst dn) (boolFlag s "submodules" true) (boolFlag s "incremental" true) (boolFlag s "allow_missing_branches" false) repoCacheDir
                     (set_RepoName opts (snd dn)) (stringFlag s "prefix" (str "refs/heads/")) branches) <$> map_to_list gitRepos).
End Flags.

(** ** cmd/zoekt-indexserver *)

(** The commands that were run, in order. *)
Definition loggedRun (cmd : list bytes) : M (list (list bytes)) () := modify (λ l, l ++ [cmd]).
Fixpoint forEach {S A} (f : A → M S ()) (l : list A) : M S () :=
  match l with [] => mret () | a :: l => _ ← f a; forEach f l end.

Record configEntry := MkConfigEntry { ce_GithubUser : bytes; ce_GitilesURL : bytes; ce_CGitURL : bytes; ce_Name : bytes; ce_Exclude : bytes }.
Record RepoHostConfig := MkRepoHost { rh_BaseURL : bytes; rh_ManifestRepoURL : bytes; rh_ManifestRevPrefix : bytes; rh_RevPrefix : bytes; rh_BranchXMLs : list bytes }.

(** [perm]: rand.Perm. *)
Definition randomize (perm : list Z) (entries : list configEntry) : res (list configEntry) := mapM (index entries) perm.
Definition excludeArgs (c : configEntry) : list bytes := if bool_decide (ce_Exclude c = []) then [] else [str "-exclude"; ce_Exclude c].
Definition mirrorCommand (repoDir : bytes) (c : configEntry) : option (list bytes) :=
  if bool_decide (ce_GithubUser c ≠ []) then
    Some ([str "zoekt-mirror-github"; str "-dest"; repoDir] ++ [str "-user"; ce_GithubUser c] ++ (if bool_decide (ce_Name c = []) then [] else [str "-name"; ce_Name c]) ++ excludeArgs c)
  else if bool_decide (ce_GitilesURL c ≠ []) then
    Some ([str "zoekt-mirror-gitiles"; str "-dest"; repoDir; str "-name"; ce_Name c] ++ excludeArgs c ++ [ce_GitilesURL c])
  else if bool_decide (ce_CGitURL c ≠ []) then
    Some ([str "zoekt-mirror-gitiles"; str "-type"; str "cgit"; str "-dest"; repoDir; str "-name"; ce_Name c] ++ excludeArgs c ++ [ce_CGitURL c])
  else None.
Definition executeMirror (perm : list Z) (cfg : list configEntry) (repoDir : bytes) : M (list (list bytes)) () :=
  cfg ← lift (randomize perm cfg);
  forEach (λ c, match mirrorCommand repoDir c with Some cmd => loggedRun cmd | None => mret () end) cfg.

Section GitServer.
(** ioutil.ReadFile, http.Get with the body, encoding/json, url.Parse, filepath.Abs. *)
Context (ReadFile : bytes → option bytes) (getBody : bytes → option bytes).
Context (unmarshalEntries : bytes → option (list configEntry)) (unmarshalConfig : bytes → option (list RepoHostConfig)).
Context (urlParse : bytes → option URL) (Abs : bytes → option bytes).

Definition readConfigFile (filename : bytes) : res (list configEntry) :=
  if bool_decide (filename = []) then Ok []
  else content ← orErr "read" (ReadFile filename); orErr "json" (unmarshalEntries content).
(** The status of the answer is not looked at. *)
Definition readConfigURL (u : bytes) : res (list configEntry) := body ← orErr "http" (getBody u); orErr "json" (unmarshalEntries body).

(** The loops of periodicMirrorFile and periodicMirrorURL: [rounds] has what is read in each round, and the permutation. *)
Fixpoint periodicMirror (repoDir : bytes) (lastCfg : list configEntry) (rounds : list (res (list configEntry) * list Z)) : M (list (list bytes)) () :=
  match rounds with
  | [] => mret ()
  | (cfg, perm) :: rounds =>
    let lastCfg := match cfg with Ok cfg => cfg | _ => lastCfg end in
    _ ← executeMirror perm lastCfg repoDir;
    periodicMirror repoDir lastCfg rounds
  end.

Definition validHost (h : RepoHostConfig) : bool :=
  match urlParse (rh_BaseURL h) with Some _ => forallb (λ x, lenZ (SplitByte 58 x) =? 2) (rh_BranchXMLs h) | None => false end.
Definition readIndexConfig (fn : bytes) : res (list RepoHostConfig) :=
  c ← orErr "read" (ReadFile fn);
  cfg ← orErr "json" (unmarshalConfig c);
  if forallb validHost cfg then Ok cfg else Err "config".

Definition repoCommand (indexDir repoDir : bytes) (cfg : RepoHostConfig) : list bytes :=
  [str "zoekt-repo-index"; str "-parallelism=1"; str "-repo_cache"; repoDir; str "-index"; indexDir; str "-base_url"; rh_BaseURL cfg; str "-rev_prefix"; rh_RevPrefix cfg;
   str "-max_sub_projects=5"; str "-manifest_repo_url"; rh_ManifestRepoURL cfg; str "-manifest_rev_prefix"; rh_ManifestRevPrefix cfg] ++ rh_BranchXMLs cfg.
Definition repoIndexCommand (indexDir repoDir : bytes) (configs : list RepoHostConfig) : M (list (list bytes)) () :=
  forEach (λ cfg, loggedRun (repoCommand indexDir repoDir cfg)) configs.
(** The error of url.Parse is overlooked. *)
Fixpoint repositoryOnRepoHost (repoBaseDir dir : bytes) (repoHosts : list RepoHostConfig) : res bool :=
  match repoHosts with
  | [] => Ok false
  | rh :: repoHosts =>
    match urlParse (rh_BaseURL rh) with
    | None => Panic "nil pointer dereference"
    | Some u => if HasPrefix dir (PathJoin [repoBaseDir; u_Host u]) then Ok true else repositoryOnRepoHost repoBaseDir dir repoHosts
    end
  end.
Definition gitCommand (indexDir repoDir : bytes) (cpuCount : Z) (indexFlags : list bytes) (dir : bytes) : list bytes :=
  [str "zoekt-git-index"; str "-require_ctags"; str "-parallelism=" ++ Itoa cpuCount; str "-repo_cache"; repoDir; str "-index"; indexDir; str "-incremental"] ++ indexFlags ++ [dir].

Section Round.
(** What is on disk, and the number of processors times the fraction to use, rounded. *)
Context (fs : bytes → fsNode) (cpus : Z).
Definition runIndexCommand (indexDir repoDir indexConfigFile : bytes) (indexFlags : list bytes) : M (list (list bytes)) () :=
  indexConfig ← (if bool_decide (indexConfigFile = []) then mret None
                 else match readIndexConfig indexConfigFile with
                      | Ok cfg => _ ← repoIndexCommand indexDir repoDir cfg; mret (Some cfg)
                      | Err _ => lift (Panic "nil pointer dereference")
                      | Panic w => lift (Panic w)
                      | OutOfFuel => lift OutOfFuel
                      end);
  match FindGitRepos Abs fs repoDir with
  | Ok repos =>
    let cpuCount := if cpus <? 1 then 1 else cpus in
    forEach (λ dir,
      skip ← lift (match indexConfig with Some cfg => repositoryOnRepoHost repoDir dir cfg | None => Ok false end);
      if (skip : bool) then mret () else loggedRun (gitCommand indexDir repoDir cpuCount indexFlags dir)) repos
  | Err _ => mret ()
  | Panic w => lift (Panic w)
  | OutOfFuel => lift OutOfFuel
  end.
Definition fetchCommand (dir : bytes) : list bytes := [str "git"; str "--git-dir"; dir; str "fetch"; str "origin"].
(** A round of refresh; after an error it goes on with the next at once, without waiting for the ticker. *)
Definition refreshRound (indexDir repoDir indexConfigFile : bytes) (indexFlags : list bytes) : M (list (list bytes)) () :=
  match FindGitRepos Abs fs repoDir with
  | Ok repos => _ ← forEach (λ dir, loggedRun (fetchCommand dir)) repos; runIndexCommand indexDir repoDir indexConfigFile indexFlags
  | Err _ => mret ()
  | Panic w => lift (Panic w)
  | OutOfFuel => lift OutOfFuel
  end.
End Round.
(** [first] and [rounds]: the file system in each round. *)
Definition refresh (cpus : Z) (repoDir indexDir indexConfigFile : bytes) (indexFlags : list bytes) (first : bytes → fsNode) (rounds : list (bytes → fsNode)) : M (list (list bytes)) () :=
  _ ← runIndexCommand first cpus indexDir repoDir indexConfigFile indexFlags;
  forEach (λ fs, refreshRound fs cpus indexDir repoDir indexConfigFile indexFlags) rounds.

(** A round of deleteLogs: the logs with their times, [fails] for those that cannot be removed. *)
Definition deleteLogs (now maxAge : Z) (fails : bytes → bool) (logs : gmap bytes Z) : gmap bytes Z :=
  filter (λ fm, ¬ (snd fm < now - maxAge ∧ fails (fst fm) = false)) logs.

(** main: the directories and flags with which the loops are started; [mkdirFails] for a directory that is not there and cannot be made. *)
Record serverDirs := MkServerDirs { sd_logDir : bytes; sd_indexDir : bytes; sd_repoDir : bytes; sd_indexFlags : list bytes }.
Definition gitServerMain (goodFraction : bool) (mkdirFails : bytes → bool) (dataDir indexDir mirrorConfig indexFlagsStr : bytes) : res serverDirs :=
  if negb goodFraction then Err "cpu_fraction must be between 0.0 and 1.0"
  else if bool_decide (dataDir = []) then Err "must set --data_dir"
  else
    let d := MkServerDirs (PathJoin [dataDir; str "logs"]) (if bool_decide (indexDir = []) then PathJoin [dataDir; str "index"] else indexDir) (PathJoin [dataDir; str "repos"])
      (if bool_decide (indexFlagsStr = []) then [] else SplitByte 32 indexFlagsStr) in
    if existsb mkdirFails [sd_logDir d; sd_indexDir d; sd_repoDir d] then Err "MkdirAll"
    else
      _ ← (if HasPrefix mirrorConfig (str "https://") || HasPrefix mirrorConfig (str "http://") then readConfigURL mirrorConfig else readConfigFile mirrorConfig);
      Ok d.
End GitServer.

(** ** cmd/zoekt-sourcegraph-indexserver *)

Record Server := MkServer { sv_IndexDir : bytes; sv_CPUCount : Z }.
(** os.ErrNotExist, or another error. *)
Inductive revision := Revision (commit : bytes) | NotExist | Failed.

Section SourcegraphServer.
(** A path resolved against the root URL; http.Get and http.Post with the status and the body, None where reading it fails; the names in the answer; whether a command
    succeeds. *)
Context (resolve : bytes → bytes) (httpGet : bytes → option (Z * option bytes)) (httpPost : bytes → bytes → option (Z * bytes)).
Context (decodeRepos : bytes → option (list bytes)) (succeeds : list bytes → bool).

Definition runCommand (cmd : list bytes) : M (list (list bytes)) () := _ ← loggedRun cmd; if succeeds cmd then mret () else lift (Err "command failed").
Definition tarballURL (repo commit : bytes) : bytes := resolve (str "/.internal/git/" ++ repo ++ str "/tar/" ++ commit).
Definition emptyShardCommand (s : Server) (name : bytes) : list bytes :=
  [str "zoekt-archive-index"; str "-index"; sv_IndexDir s; str "-incremental"; str "-branch"; str "HEAD"; str "-commit"; str "404aaaaaaaaaaaaaaaaaaaaaaaaaaaaaaaaaaaaa";
   str "-name"; name; str "-"].
Definition createEmptyShard (s : Server) (name : bytes) : M (list (list bytes)) () := runCommand (emptyShardCommand s name).
Definition indexCommand (s : Server) (name commit : bytes) : list bytes :=
  [str "zoekt-archive-index"; str "-parallelism=" ++ Itoa (sv_CPUCount s); str "-index"; sv_IndexDir s; str "-file_limit"; Itoa 1048576; str "-incremental"; str "-branch"; str "HEAD";
   str "-commit"; commit; str "-name"; name; tarballURL name commit].
Definition Server_Index (s : Server) (name commit : bytes) : M (list (list bytes)) () :=
  if bool_decide (commit = []) then createEmptyShard s name else runCommand (indexCommand s name commit).

Definition listRepos : res (list bytes) :=
  '(status, body) ← orErr "http" (httpPost (resolve (str "/.internal/repos/list")) ([123; 34] ++ str "Enabled" ++ [34] ++ str ": true}"));
  if negb (status =? 200) then Err "failed to list repositories" else orErr "json" (decodeRepos body).
Definition resolveRevision (repo spec : bytes) : revision :=
  match httpGet (resolve (str "/.internal/git/" ++ repo ++ str "/resolve-revision/" ++ spec)) with
  | None => Failed
  | Some (status, body) =>
    if status =? 404 then NotExist
    else if negb (status =? 200) then Failed
    else match body with Some b => Revision b | None => Failed end
  end.
(** What a goroutine of Run hands to the queue. *)
Definition resolveHead (name : bytes) : option bytes :=
  match resolveRevision name (str "HEAD") with Revision c => Some c | NotExist => Some [] | Failed => None end.
(** The debug page: the message after a re-index, and the names to choose from. *)
Definition ServeDebug (s : Server) (post : option bytes) : M (list (list bytes)) (bytes * list bytes) :=
  msg ← match post with
        | None => mret []
        | Some name => λ l,
          match resolveHead name with
          | None => (Ok (str "Indexing " ++ name ++ str " failed"), l)
          | Some commit =>
            match Server_Index s name commit l with
            | (Ok _, l) => (Ok (str "Indexed " ++ name), l)
            | (Err _, l) => (Ok (str "Indexing " ++ name ++ str " failed"), l)
            | (Panic w, l) => (Panic w, l)
            | (OutOfFuel, l) => (OutOfFuel, l)
            end
          end
        end;
  repos ← lift listRepos;
  mret (msg, repos).
(** main: [cpus] is the number of processors times the fraction, rounded. *)
Definition sourcegraphMain (goodFraction rootParses mkdirFails : bool) (cpus : Z) (root index : bytes) : res Server :=
  if negb goodFraction then Err "cpu_fraction must be between 0.0 and 1.0"
  else if bool_decide (index = []) then Err "must set -index"
  else if bool_decide (root = []) then Err "must set -sourcegraph_url"
  else if negb rootParses then Err "url.Parse"
  else if mkdirFails then Err "MkdirAll"
  else Ok (MkServer index (if cpus <? 1 then 1 else cpus)).
End SourcegraphServer.

(** ** What the commands are told *)

Lemma digitsIn_10 acc s : digitsIn 10 acc s = digits acc s.
Proof.
  revert acc. induction s as [|c s IH]; intros acc; [done|]. cbn [digitsIn digits]. unfold unhex. destruct ((48 <=? c) && (c <=? 57)) eqn:E.
  - apply andb_true_iff in E as [H1%Z.leb_le H2%Z.leb_le]. rewrite (proj2 (Z.ltb_lt _ _)) by lia. apply IH.
  - destruct ((97 <=? c) && (c <=? 102)) eqn:E1; [|destruct ((65 <=? c) && (c <=? 70)) eqn:E2; [|done]].
    + apply andb_true_iff in E1 as [H1%Z.leb_le _]. by rewrite (proj2 (Z.ltb_ge _ _)) by lia.
    + apply andb_true_iff in E2 as [H1%Z.leb_le _]. by rewrite (proj2 (Z.ltb_ge _ _)) by lia.
Qed.
Lemma decimal_head n : 0 < n → ∃ d t, decimal n = d :: t ∧ 49 <= d <= 57.
Proof.
  intros Hn. unfold decimal. assert (∀ fuel n, 0 < n → n < 2 ^ Z.of_nat fuel → ∃ d t, decimal_loop fuel n = d :: t ∧ 49 <= d <= 57) as Hd.
  { induction fuel as [|fuel IH]; intros m Hm Hf; [change (2 ^ Z.of_nat 0) with 1 in Hf; lia|]. cbn [decimal_loop]. destruct (Z.ltb_spec m 10); [exists (48 + m), []; split; [done|lia]|].
    pose proof (Z.div_mod m 10 ltac:(lia)). pose proof (Z.mod_pos_bound m 10 ltac:(lia)).
    destruct (IH (m / 10)) as (d & t & -> & Hr); [lia|rewrite Nat2Z.inj_succ, Z.pow_succ_r in Hf by lia; lia|]. by exists d, (t ++ [48 + m mod 10]). }
  apply Hd; [done|]. rewrite Nat2Z.inj_succ, Z2Nat.id by apply Z.log2_nonneg. by apply Z.log2_spec.
Qed.
Lemma ParseInt0_Itoa n : 0 < n < 2 ^ 63 → ParseInt0 (Itoa n) = Ok n.
Proof.
  intros [Hn Hm]. unfold Itoa. rewrite (proj2 (Z.ltb_ge _ _)) by lia. destruct (decimal_head n Hn) as (d & t & E & Hd). unfold ParseInt0.
  assert (match decimal n with 43 :: ds => (false, ds) | 45 :: ds => (true, ds) | _ => (false, decimal n) end = (false, decimal n)) as ->.
  { rewrite E. destruct d as [|p|p]; try done. do 7 (destruct p; try done; try lia). }
  rewrite bool_decide_false by (by rewrite E). assert (baseOf (decimal n) = (10, decimal n)) as ->.
  { rewrite E. unfold baseOf. destruct d as [|p|p]; try done. do 7 (destruct p; try done; try lia). }
  rewrite digitsIn_10, decimal_digits by lia. cbn [negb andb orb]. by rewrite (proj2 (Z.leb_gt _ _)) by lia.
Qed.

(** *** Mirroring *)

Lemma forEach_logged {A} (f : A → option (list bytes)) l log :
  forEach (λ a, match f a with Some cmd => loggedRun cmd | None => mret () end) l log = (Ok (), log ++ omap f l).
Proof.
  revert log. induction l as [|a l IH]; intros log; cbn [forEach omap list_omap]; [by rewrite app_nil_r|]. unfold mbind, M_bind.
  destruct (f a) as [cmd|]; unfold loggedRun, modify, mret, M_ret; fold (forEach (S := list (list bytes)) (A := A)).
  - rewrite IH. by rewrite <- app_assoc.
  - apply IH.
Qed.
Lemma randomize_perm perm cfg : perm ≡ₚ Z.of_nat <$> seq 0 (length cfg) → ∃ cfg', randomize perm cfg = Ok cfg' ∧ cfg' ≡ₚ cfg.
Proof.
  intros Hp. set (at_ := λ i : Z, default (MkConfigEntry [] [] [] [] []) (cfg !! Z.to_nat i)). exists (at_ <$> perm). split.
  - assert (Forall (λ i, index cfg i = Ok (at_ i)) perm) as Hall.
    { rewrite Hp. apply Forall_fmap, Forall_seq. intros i Hi. unfold compose, index, at_. rewrite Nat2Z.id. destruct (lookup_lt_is_Some_2 cfg i) as [x Ex]; [lia|].
      rewrite decide_True, Ex by lia. done. }
    clear Hp. unfold randomize. induction Hall as [|i perm Hi _ IH]; [done|]. cbn [mapM]. rewrite Hi. cbn [mbind res_bind]. by rewrite IH.
  - rewrite Hp, <- list_fmap_compose. clear. assert (∀ k, (at_ ∘ Z.of_nat) <$> seq k (length cfg - k) = drop k cfg) as H.
    { intros k. apply list_eq. intros i. rewrite list_lookup_fmap, lookup_drop. unfold at_, compose. destruct (decide (i < length cfg - k)%nat).
      - rewrite lookup_seq_lt by done. cbn [fmap option_fmap option_map]. rewrite Nat2Z.id. destruct (lookup_lt_is_Some_2 cfg (k + i)) as [x Ex]; [lia|]. by rewrite Ex.
      - rewrite lookup_seq_ge by lia. cbn. symmetry. apply lookup_ge_None. lia. }
    specialize (H 0%nat). rewrite Nat.sub_0_r, drop_0 in H. by rewrite H.
Qed.

(** What the command for an entry finds in its flags: the user or the URL, the patterns, and the directory. *)
Definition told (repoDir : bytes) (c : configEntry) : Prop :=
  if decide (ce_GithubUser c ≠ []) then
    ∃ args, mirrorCommand repoDir c = Some (str "zoekt-mirror-github" :: args) ∧ githubArgs args = Ok (MkGithubFlags repoDir [] (ce_GithubUser c) false false (ce_Name c) (ce_Exclude c))
  else if decide (ce_GitilesURL c ≠ []) then
    ∃ args, mirrorCommand repoDir c = Some (str "zoekt-mirror-gitiles" :: args) ∧ (flagOf (ce_GitilesURL c) = NotFlag →
      gitilesArgs args = Ok (MkGitilesFlags repoDir (ce_Name c) (ce_Exclude c) (str "gitiles") [ce_GitilesURL c]))
  else if decide (ce_CGitURL c ≠ []) then
    ∃ args, mirrorCommand repoDir c = Some (str "zoekt-mirror-gitiles" :: args) ∧ (flagOf (ce_CGitURL c) = NotFlag →
      gitilesArgs args = Ok (MkGitilesFlags repoDir (ce_Name c) (ce_Exclude c) (str "cgit") [ce_CGitURL c]))
  else mirrorCommand repoDir c = None.
Lemma parse_end kinds set u : flagOf u = NotFlag → parseFlags kinds [u] set = Ok (set, [u]).
Proof. intros E. cbn [parseFlags]. by rewrite E. Qed.
Lemma parse_string kinds f n v rest set : flagOf f = IsFlag n None → kinds !! n = Some FString → parseFlags kinds (f :: v :: rest) set = parseFlags kinds rest (<[n := v]> set).
Proof. intros E Ek. cbn [parseFlags]. by rewrite E, Ek. Qed.
Lemma parse_bool kinds f n rest set : flagOf f = IsFlag n None → kinds !! n = Some FBool → parseFlags kinds (f :: rest) set = parseFlags kinds rest (<[n := str "true"]> set).
Proof. intros E Ek. cbn [parseFlags]. by rewrite E, Ek. Qed.
Lemma parse_int kinds f n v z rest set : flagOf f = IsFlag n (Some v) → kinds !! n = Some FInt → ParseInt0 v = Ok z → parseFlags kinds (f :: rest) set = parseFlags kinds rest (<[n := v]> set).
Proof. intros E Ek Ev. cbn [parseFlags]. rewrite E, Ek. cbn [accepts]. by rewrite Ev. Qed.
Lemma parse_int_next kinds f n v z rest set : flagOf f = IsFlag n None → kinds !! n = Some FInt → ParseInt0 v = Ok z → parseFlags kinds (f :: v :: rest) set = parseFlags kinds rest (<[n := v]> set).
Proof. intros E Ek Ev. cbn [parseFlags]. rewrite E, Ek. cbn [accepts]. by rewrite Ev. Qed.
Ltac parse_flags := repeat first [erewrite parse_string by (vm_compute; reflexivity) | erewrite parse_bool by (vm_compute; reflexivity) | rewrite parse_end by assumption].
Lemma mirrorCommand_told repoDir c : told repoDir c.
Proof.
  unfold told, mirrorCommand, excludeArgs. destruct c as [user gitiles cgit name exclude]. cbn [ce_GithubUser ce_GitilesURL ce_CGitURL ce_Name ce_Exclude].
  repeat case_decide; repeat case_bool_decide; try done; eexists; (split; [cbn [app]; reflexivity|]); subst;
    lazymatch goal with |- _ → _ => intros E; unfold gitilesArgs; parse_flags; cbn [mbind res_bind] | _ => idtac end; vm_compute; reflexivity.
Qed.
Lemma executeMirror_log perm cfg repoDir log : perm ≡ₚ Z.of_nat <$> seq 0 (length cfg) →
  ∃ cmds, executeMirror perm cfg repoDir log = (Ok (), log ++ cmds) ∧ cmds ≡ₚ omap (mirrorCommand repoDir) cfg.
Proof.
  intros Hp. destruct (randomize_perm perm cfg Hp) as (cfg' & Er & Hc). exists (omap (mirrorCommand repoDir) cfg'). unfold executeMirror, mbind, M_bind, lift. rewrite Er, forEach_logged.
  split; [done|]. by rewrite Hc.
Qed.
(** The configuration of each round: the one read last without an error. *)
Fixpoint configs (lastCfg : list configEntry) (reads : list (res (list configEntry))) : list (list configEntry) :=
  match reads with
  | [] => []
  | Ok cfg :: reads => cfg :: configs cfg reads
  | _ :: reads => lastCfg :: configs lastCfg reads
  end.

(** *** Indexing git repositories *)

(** A repository that is found below the directory of a host of a manifest. *)
Definition onHost (urlParse : bytes → option URL) (repoDir : bytes) (hosts : list RepoHostConfig) (dir : bytes) : bool :=
  existsb (λ h, match urlParse (rh_BaseURL h) with Some u => HasPrefix dir (PathJoin [repoDir; u_Host u]) | None => false end) hosts.
Lemma repositoryOnRepoHost_ok urlParse repoDir dir hosts : Forall (λ h, is_Some (urlParse (rh_BaseURL h))) hosts →
  repositoryOnRepoHost urlParse repoDir dir hosts = Ok (onHost urlParse repoDir hosts dir).
Proof.
  induction 1 as [|h hosts [u Hu] _ IH]; [done|]. cbn [repositoryOnRepoHost onHost existsb]. rewrite Hu. destruct (HasPrefix _ _); [done|]. exact IH.
Qed.
Lemma forEach_filter {A} (skip : A → res bool) (b : A → bool) (cmd : A → list bytes) l log : Forall (λ a, skip a = Ok (b a)) l →
  forEach (λ a, s ← lift (skip a); if (s : bool) then mret () else loggedRun (cmd a)) l log = (Ok (), log ++ (cmd <$> filter (λ a, b a = false) l)).
Proof.
  intros Hall. revert log. induction Hall as [|a l Ha _ IH]; intros log; [by rewrite app_nil_r|]. cbn [forEach]. rewrite filter_cons.
  unfold mbind at 1, M_bind at 1. unfold mbind at 1, M_bind at 1. unfold lift at 1. rewrite Ha. destruct (b a); unfold mret at 1, M_ret at 1.
  - rewrite decide_False by done. apply IH.
  - rewrite decide_True by done. unfold loggedRun at 1, modify at 1. rewrite IH, fmap_cons. by rewrite <- app_assoc.
Qed.
Lemma forEach_all {A} (cmd : A → list bytes) l log : forEach (λ a, loggedRun (cmd a)) l log = (Ok (), log ++ (cmd <$> l)).
Proof.
  revert log. induction l as [|a l IH]; intros log; [by rewrite app_nil_r|]. cbn [forEach]. unfold mbind, M_bind, loggedRun at 1, modify. rewrite IH, fmap_cons. by rewrite <- app_assoc.
Qed.
Lemma readIndexConfig_hosts ReadFile unmarshalConfig urlParse fn cfg : readIndexConfig ReadFile unmarshalConfig urlParse fn = Ok cfg →
  Forall (λ h, is_Some (urlParse (rh_BaseURL h))) cfg.
Proof.
  unfold readIndexConfig. destruct (ReadFile fn) as [c|]; cbn [orErr mbind res_bind]; [|done]. destruct (unmarshalConfig c) as [cfg'|]; cbn [orErr mbind res_bind]; [|done].
  destruct (forallb _ _) eqn:E; [|done]. intros [= <-]. apply Forall_forall. intros h Hh. apply forallb_elem with (x := h) in E; [|done]. unfold validHost in E. by destruct (urlParse _).
Qed.

(** The options that zoekt-git-index reads from the command line of the server. *)
Definition gitOptions (cpuCount : Z) (cache dir : bytes) : GitOptions :=
  MkGitOptions dir true true false cache (MkOptions 131072 cpuCount 104857600 (set_Name repository0 (gitRepoName cache dir)) None [] true) (str "refs/heads/") [str "HEAD"].
Lemma gitCommand_told DefaultDir Abs urlName indexDir repoDir cpuCount dir cache dir' : 0 < cpuCount < 2 ^ 63 → flagOf dir = NotFlag → repoDir ≠ [] →
  Abs repoDir = Some cache → Abs dir = Some dir' →
  gitIndexArgs DefaultDir Abs urlName (tail (gitCommand indexDir repoDir cpuCount [] dir)) = Ok (indexDir, [gitOptions cpuCount cache (Clean dir')]).
Proof.
  intros Hcpu Hdir Hne Hc Hd. unfold gitIndexArgs, gitCommand. cbn [app tail]. pose proof (ParseInt0_Itoa cpuCount Hcpu) as Hv. revert Hv. generalize (Itoa cpuCount) as v. intros v Hv.
  erewrite parse_bool by (vm_compute; reflexivity). erewrite (parse_int _ _ (str "parallelism") v cpuCount); [|vm_compute; reflexivity|vm_compute; reflexivity|exact Hv]. parse_flags.
  cbn [mbind res_bind]. set (S := <[_ := _]> _).
  assert (S !! str "repo_cache" = Some repoDir ∧ S !! str "index" = Some indexDir ∧ S !! str "version" = None ∧ S !! str "file_limit" = None ∧ S !! str "parallelism" = Some v ∧
    S !! str "shard_limit" = None ∧ S !! str "require_ctags" = Some (str "true") ∧ S !! str "branches" = None ∧ S !! str "submodules" = None ∧
    S !! str "incremental" = Some (str "true") ∧ S !! str "allow_missing_branches" = None ∧ S !! str "prefix" = None) as
    (E1 & E2 & E3 & E4 & E5 & E6 & E7 & E8 & E9 & E10 & E11 & E12) by (split_and!; vm_compute; reflexivity).
  clearbody S. unfold stringFlag, boolFlag, intFlag. rewrite E1, E2, E3, E4, E5, E6, E7, E8, E9, E10, E11, E12. cbn [default from_option id]. rewrite bool_decide_false, Hc by done.
  cbn [orErr mbind res_bind mapM]. rewrite Hd, Hv. cbn [orErr mbind res_bind]. rewrite bool_decide_false by (by vm_compute).
  change (Ok ?x ≫= ?f) with (f x). cbv beta. change ((mret [] ≫= ?f) ≫= ?g) with (g [Clean dir']). cbv beta.
  change (reverse (?f <$> [?x])) with [f x]. cbn [list_to_map foldr fst snd]. rewrite insert_empty, map_to_list_singleton. unfold gitOptions. cbn [fmap list_fmap map fst snd].
  unfold Build.SetDefaults, set_RepoName. cbn [op_SizeMax op_Parallelism op_ShardMax op_RepositoryDescription op_SubRepositories op_CTags op_CTagsMustSucceed].
  rewrite (proj2 (Z.eqb_neq cpuCount 0)) by lia. rewrite decide_False by (by intros [_ ?]). done.
Qed.

(** Those that zoekt-repo-index reads: its other arguments are the branches with their manifests. *)
Definition repoOptions (repoDir : bytes) (cfg : RepoHostConfig) : RepoFlags :=
  MkRepoFlags 131072 104857600 1 (rh_RevPrefix cfg) (rh_BaseURL cfg) repoDir (rh_ManifestRepoURL cfg) (rh_ManifestRevPrefix cfg) [] [] 5 true (rh_BranchXMLs cfg).
Definition plainArgs (args : list bytes) : Prop := match args with [] => True | a :: _ => flagOf a = NotFlag end.
Lemma parse_rest kinds set args : plainArgs args → parseFlags kinds args set = Ok (set, args).
Proof. destruct args as [|a args]; [done|]. intros E. cbn [parseFlags]. by rewrite E. Qed.
Lemma repoCommand_told DefaultDir indexDir repoDir cfg : plainArgs (rh_BranchXMLs cfg) →
  repoArgs DefaultDir (tail (repoCommand indexDir repoDir cfg)) = Ok (indexDir, repoOptions repoDir cfg).
Proof.
  intros Hx. unfold repoArgs, repoCommand, repoOptions. destruct cfg as [base manifest mprefix prefix xmls]. cbn [rh_BaseURL rh_ManifestRepoURL rh_ManifestRevPrefix rh_RevPrefix rh_BranchXMLs] in *. cbn [app tail].
  erewrite (parse_int _ _ (str "parallelism") (str "1") 1) by (vm_compute; reflexivity). parse_flags.
  erewrite (parse_int _ _ (str "max_sub_projects") (str "5") 5) by (vm_compute; reflexivity). parse_flags. rewrite parse_rest by done. cbn [mbind res_bind]. vm_compute. reflexivity.
Qed.

(** *** Names and places of git repositories *)

Lemma HasSuffix_spec s suf : HasSuffix s suf = true ↔ ∃ a, s = a ++ suf.
Proof.
  unfold HasSuffix. rewrite HasPrefix_spec. split; intros [t E].
  - exists (reverse t). apply (f_equal reverse) in E. by rewrite reverse_involutive, reverse_app, reverse_involutive in E.
  - exists (reverse t). by rewrite E, reverse_app.
Qed.
Lemma TrimSuffix_app a suf : TrimSuffix (a ++ suf) suf = a.
Proof. unfold TrimSuffix. rewrite (proj2 (HasSuffix_spec _ _)) by eauto. rewrite length_app, Nat.add_sub. by rewrite take_app_length. Qed.
Lemma TrimPrefix_app a s : TrimPrefix (a ++ s) a = s.
Proof. unfold TrimPrefix. rewrite (proj2 (HasPrefix_spec _ _)) by eauto. by rewrite drop_app_length. Qed.

Section Names.
Context (ds : list bytes) (Hne : ds ≠ []) (Hds : Forall isName ds) (cs : list bytes) (Hcs : Forall isName cs) (n : bytes) (Hn : isName n).
#[local] Abbreviation root := (47 :: Join [47] ds).
#[local] Abbreviation place := (47 :: Join [47] (ds ++ cs ++ [n ++ str ".git"])).
Lemma place_parts : place = root ++ 47 :: Join [47] (cs ++ [n]) ++ str ".git".
Proof.
  rewrite Join_app by (done || by intros [_ ?]%app_nil). cbn [app]. do 3 f_equal. destruct (decide (cs = [])) as [->|Hc]; [done|].
  rewrite !Join_app by done. cbn [Join]. by rewrite <- !app_assoc.
Qed.
Lemma not_dot_git : HasSuffix place (str "/.git") = false.
Proof.
  apply not_true_is_false. intros [a E]%HasSuffix_spec. rewrite place_parts in E. change (str "/.git") with ([47] ++ str ".git") in E.
  change (47 :: Join [47] (cs ++ [n]) ++ str ".git") with ((47 :: Join [47] (cs ++ [n])) ++ str ".git") in E. rewrite !app_assoc in E. apply app_inv_tail in E.
  destruct Hn as (Hn0 & _ & _ & Hs). destruct (exists_last Hn0) as (n' & c & ->).
  assert (∃ b, (root ++ 47 :: Join [47] (cs ++ [n' ++ [c]])) = b ++ [c]) as [b Eb].
  { destruct (decide (cs = [])) as [->|Hc]; [exists (root ++ 47 :: n'); cbn [app Join]; by rewrite <- app_assoc|].
    rewrite Join_app by done. cbn [Join]. exists (root ++ 47 :: Join [47] cs ++ [47] ++ n'). by rewrite <- !app_assoc, <- !app_comm_cons, <- !app_assoc. }
  rewrite Eb in E. apply app_inj_2 in E as [_ [= ->]]; [|done]. apply Hs. rewrite elem_of_app, elem_of_cons. auto.
Qed.
Lemma gitRepoName_place : gitRepoName root place = Join [47] (cs ++ [n]).
Proof.
  unfold gitRepoName. assert (TrimSuffix place (str "/.git") = place) as -> by (unfold TrimSuffix; by rewrite not_dot_git). rewrite bool_decide_true by done. rewrite (proj2 (HasPrefix_spec _ _)) by (rewrite place_parts; eauto). cbn [andb].
  replace place with ((root ++ [47]) ++ Join [47] (cs ++ [n]) ++ str ".git") by (by rewrite place_parts, <- app_assoc). rewrite TrimPrefix_app. apply TrimSuffix_app.
Qed.
(** The name of a bare repository leads back to its place. *)
Lemma Path_place : HasSuffix n (str ".git") = false → Git.Path root (gitRepoName root place) = place.
Proof.
  intros Hsuf. rewrite gitRepoName_place. unfold Git.Path, repoKeyStr.
  assert (HasSuffix (Join [47] (cs ++ [n])) (str ".git") = false) as ->.
  { destruct (decide (cs = [])) as [->|Hc]; [done|]. rewrite Join_app by done. apply not_true_is_false. intros E%HasSuffix_name; [cbn [Join] in E; congruence|].
    apply (bool_decide_unpack _). vm_compute. reflexivity. }
  assert (Join [47] (cs ++ [n]) ++ str ".git" = Join [47] (cs ++ [n ++ str ".git"])) as ->.
  { destruct (decide (cs = [])) as [->|Hc]; [done|]. rewrite !Join_app by done. cbn [Join]. by rewrite <- !app_assoc. }
  apply PathJoin_absolute; [done| |done|by intros [_ ?]%app_nil]. apply Forall_app. split; [done|]. apply Forall_singleton. by apply isName_git.
Qed.
End Names.

(** The repositories that are found are at clean paths below the directory. *)
Lemma FindGitRepos_below Abs fs ds repos : ds ≠ [] → Forall isName ds → Abs (47 :: Join [47] ds) = Some (47 :: Join [47] ds) → wfNode (fs (47 :: Join [47] ds)) = true →
  FindGitRepos Abs fs (47 :: Join [47] ds) = Ok repos → Forall (λ d, ∃ cs, Forall isName cs ∧ d = 47 :: Join [47] (ds ++ cs)) repos.
Proof.
  intros Hne Hds Ha Hw. unfold FindGitRepos. rewrite Ha. cbn [orErr mbind res_bind]. destruct (Walk _ _ _ []) as [r dirs] eqn:E. destruct r as [[]| | |]; cbn [mbind res_bind]; try done.
  intros [= <-]. refine (Walk_inv _ (Forall _) _ _ _ _ _ _ (Forall_nil_2 _) E). intros p t fi err s v s' Hb Hs.
  apply below_path in Hb as (cs & Hcs & ->); [|done..]. assert (isName (str ".git")) as Hgit by (apply (@bool_decide_unpack _ (isName_dec _)); vm_compute; reflexivity).
  unfold findGitRepo, mbind, M_bind, modify, mret, M_ret, lift. destruct (isDirAt t (str ".git")).
  { intros [= _ <-]. apply Forall_app. split; [done|]. apply Forall_singleton. exists (cs ++ [str ".git"]). split; [apply Forall_app; split; [done|]; by apply Forall_singleton|].
    rewrite PathJoin_rooted, <- app_assoc; [done|by apply Forall_app|done]. }
  destruct (negb _); [by intros [= _ <-]|]. destruct fi as [fi|]; [|by intros [= _ <-]]. destruct (_ || _); [by intros [= _ <-]|]. intros [= _ <-].
  apply Forall_app. split; [done|]. apply Forall_singleton. by exists cs.
Qed.

(** *** Archives of other servers than GitHub *)

Definition elsewhere (urlParse : bytes → option URL) (archive : bytes) : Prop :=
  ∀ u, urlParse archive = Some u → u_Host u ∉ [str "github.com"; str "codeload.github.com"; str "api.github.com"].
Lemma SetDefaults_elsewhere urlParse o : elsewhere urlParse (ao_Archive o) → ArchiveOptions_SetDefaults urlParse o = o.
Proof.
  intros Hhost. unfold ArchiveOptions_SetDefaults. destruct (urlParse _) as [u|] eqn:E; [|done]. specialize (Hhost u E). rewrite !elem_of_cons in Hhost. cbv zeta.
  rewrite !bool_decide_false by naive_solver. done.
Qed.
Lemma do_archive_elsewhere `{SortAlg} validTemplate urlParse urlName IndexVersions openArchive o bo : elsewhere urlParse (ao_Archive o) → ao_Name o ≠ [] → ao_Branch o ≠ [] → ao_Incremental o = true →
  op_SizeMax bo ≠ 0 ∧ op_Parallelism bo ≠ 0 ∧ op_ShardMax bo ≠ 0 →
  let bo' := MkOptions (op_SizeMax bo) (op_Parallelism bo) (op_ShardMax bo) (set_Branches (set_Name (op_RepositoryDescription bo) (ao_Name o)) [MkBranch (ao_Branch o) (ao_Commit o)])
    (op_SubRepositories bo) [] (op_CTagsMustSucceed bo) in
  do_archive validTemplate urlParse urlName IndexVersions openArchive o bo =
    if bool_decide (IndexVersions bo' = [MkBranch (ao_Branch o) (ao_Commit o)]) then Ok None
    else a ← orErr "open" (openArchive (ao_Archive o)); _ ← NewBuilder validTemplate urlName bo'; docs ← archiveDocs (op_SizeMax bo) (ao_Strip o) [ao_Branch o] a; Ok (Some (bo', docs)).
Proof.
  intros He Hname Hbranch Hinc (H1 & H2 & H3) bo'. unfold do_archive. rewrite SetDefaults_elsewhere by done.
  rewrite bool_decide_false by (by intros [? _]). rewrite bool_decide_false by done. rewrite (bool_decide_false (ao_Name o = [])) by done.
  unfold Build.SetDefaults, set_Description. cbn [op_SizeMax op_Parallelism op_ShardMax op_RepositoryDescription op_SubRepositories op_CTags op_CTagsMustSucceed].
  rewrite (proj2 (Z.eqb_neq _ _) H1), (proj2 (Z.eqb_neq _ _) H2), (proj2 (Z.eqb_neq _ _) H3), Hinc.
  rewrite decide_False by (intros [E _]; by apply Hname). done.
Qed.

(** ** Properties *)

(** The options that are read for a repository that was found. *)
Lemma found_told Abs (fs : bytes → fsNode) (cpus : Z) (DefaultDir indexDir : bytes) (ds : list bytes) (repos : list bytes) (dir : bytes) urlName :
  ds ≠ [] → Forall isName ds → (∀ cs, cs ≠ [] → Forall isName cs → Abs (47 :: Join [47] cs) = Some (47 :: Join [47] cs)) → wfNode (fs (47 :: Join [47] ds)) = true →
  FindGitRepos Abs fs (47 :: Join [47] ds) = Ok repos → cpus < 2 ^ 63 → dir ∈ repos →
  gitIndexArgs DefaultDir Abs urlName (tail (gitCommand indexDir (47 :: Join [47] ds) (Z.max 1 cpus) [] dir)) = Ok (indexDir, [gitOptions (Z.max 1 cpus) (47 :: Join [47] ds) dir]).
Proof.
  intros Hne Hds HAbs Hw Hrepos Hcpu Hdir. pose proof (FindGitRepos_below Abs fs ds repos Hne Hds (HAbs ds Hne Hds) Hw Hrepos) as Hall. rewrite Forall_forall in Hall.
  destruct (Hall dir Hdir) as (cs & Hcs & ->). assert (Forall isName (ds ++ cs)) as Hdc by (by apply Forall_app). assert (ds ++ cs ≠ []) as Hdc0 by (by intros [? _]%app_nil).
  rewrite (gitCommand_told DefaultDir Abs urlName indexDir (47 :: Join [47] ds) (Z.max 1 cpus) _ (47 :: Join [47] ds) (47 :: Join [47] (ds ++ cs))); [|lia|done|done|by apply HAbs|by apply HAbs].
  by rewrite Clean_rooted.
Qed.

Section Servers.
Context (ReadFile : bytes → option bytes) (unmarshalConfig : bytes → option (list RepoHostConfig)) (urlParse : bytes → option URL) (Abs : bytes → option bytes).


(** The rounds of mirroring. In every round, the commands that are run are one for each entry, in some order, of the configuration that was last read without
    an error; and each command finds in its flags what the entry says: the user, or the URL (unless it looks like a flag), the patterns for names, and the
    directory of repositories. *)
Theorem periodicMirror_runs (repoDir : bytes) (rounds : list (res (list configEntry) * list Z)) (log : list (list bytes))
    (Hperm : Forall2 (λ perm cfg, perm ≡ₚ Z.of_nat <$> seq 0 (length cfg)) (snd <$> rounds) (configs [] (fst <$> rounds))) :
  (∃ cmdss, periodicMirror repoDir [] rounds log = (Ok (), log ++ concat cmdss) ∧
     Forall2 (λ cmds cfg, cmds ≡ₚ omap (mirrorCommand repoDir) cfg) cmdss (configs [] (fst <$> rounds))) ∧ ∀ c, told repoDir c.
Proof.
  split; [|apply mirrorCommand_told]. revert log Hperm. generalize (@nil configEntry) as lastCfg. induction rounds as [|[cfg perm] rounds IH]; intros lastCfg log Hperm.
  { exists []. split; [by rewrite app_nil_r|constructor]. }
  set (now := match cfg with Ok cfg => cfg | _ => lastCfg end).
  assert (configs lastCfg (cfg :: (fst <$> rounds)) = now :: configs now (fst <$> rounds)) as E by (unfold now; by destruct cfg).
  rewrite !fmap_cons in Hperm |- *. cbn [fst snd] in *. rewrite E in Hperm |- *. apply Forall2_cons in Hperm as [Hp Hperm].
  destruct (executeMirror_log perm now repoDir log Hp) as (cmds & Ex & Hc). destruct (IH now (log ++ cmds) Hperm) as (cmdss & Er & Hr).
  exists (cmds :: cmdss). split; [|by constructor]. cbn [periodicMirror concat]. fold now. unfold mbind, M_bind. rewrite Ex, Er. by rewrite app_assoc.
Qed.

(** C32: the commands of zoekt-indexserver. With a directory of repositories at an absolute path, and an index configuration that can be read or none, a round of
    indexing starts zoekt-repo-index for every host of the configuration, and then zoekt-git-index, with the flags that are passed through, for every repository that is found and is
    not below a host's directory, in this order. The former command reads its host's options; the latter, without further flags, the options for this repository, its name and
    the server's directories, with -incremental and -require_ctags. The name of a bare repository is its path below the directory without .git. (What comes of
    -require_ctags is the next theorem.) *)
Theorem runIndexCommand_runs (fs : bytes → fsNode) (cpus : Z) (DefaultDir indexDir file : bytes) (ds : list bytes) (hosts : list RepoHostConfig) (repos : list bytes) (flags : list bytes) (log : list (list bytes))
    (Hcfg : file ≠ [] ∧ readIndexConfig ReadFile unmarshalConfig urlParse file = Ok hosts ∨ file = [] ∧ hosts = [])
    (Hne : ds ≠ []) (Hds : Forall isName ds) (HAbs : ∀ cs, cs ≠ [] → Forall isName cs → Abs (47 :: Join [47] cs) = Some (47 :: Join [47] cs))
    (Hw : wfNode (fs (47 :: Join [47] ds)) = true) (Hrepos : FindGitRepos Abs fs (47 :: Join [47] ds) = Ok repos) (Hcpu : cpus < 2 ^ 63) :
  let repoDir := 47 :: Join [47] ds in
  let cpuCount := Z.max 1 cpus in
  runIndexCommand ReadFile unmarshalConfig urlParse Abs fs cpus indexDir repoDir file flags log =
    (Ok (), log ++ (repoCommand indexDir repoDir <$> hosts) ++ (gitCommand indexDir repoDir cpuCount flags <$> filter (λ dir, onHost urlParse repoDir hosts dir = false) repos)) ∧
  (∀ host, host ∈ hosts → plainArgs (rh_BranchXMLs host) → repoArgs DefaultDir (tail (repoCommand indexDir repoDir host)) = Ok (indexDir, repoOptions repoDir host)) ∧
  (∀ dir urlName, dir ∈ repos → gitIndexArgs DefaultDir Abs urlName (tail (gitCommand indexDir repoDir cpuCount [] dir)) = Ok (indexDir, [gitOptions cpuCount repoDir dir])) ∧
  (∀ cs n, Forall isName cs → isName n → gitRepoName repoDir (47 :: Join [47] (ds ++ cs ++ [n ++ str ".git"])) = Join [47] (cs ++ [n])).
Proof.
  intros repoDir cpuCount. assert ((if cpus <? 1 then 1 else cpus) = cpuCount) as Ecpu by (unfold cpuCount; destruct (Z.ltb_spec cpus 1); lia). split_and!.
  - assert (∀ log, forEach (λ dir, skip ← lift (repositoryOnRepoHost urlParse repoDir dir hosts); if (skip : bool) then mret () else loggedRun (gitCommand indexDir repoDir cpuCount flags dir)) repos log =
      (Ok (), log ++ (gitCommand indexDir repoDir cpuCount flags <$> filter (λ dir, onHost urlParse repoDir hosts dir = false) repos))) as Hgit.
    { intros log'. apply forEach_filter, Forall_forall. intros dir _. apply repositoryOnRepoHost_ok.
      destruct Hcfg as [[_ Hc]|[_ ->]]; [by eapply readIndexConfig_hosts|constructor]. }
    unfold runIndexCommand. fold repoDir in Hrepos. rewrite Hrepos, Ecpu. unfold mbind at 1, M_bind at 1. destruct Hcfg as [[Hf Hc]|[-> ->]].
    + rewrite bool_decide_false, Hc by done. unfold mbind at 1, M_bind at 1, repoIndexCommand. rewrite forEach_all. unfold mret at 1, M_ret at 1. rewrite Hgit. by rewrite <- app_assoc.
    + rewrite bool_decide_true by done. unfold mret at 1, M_ret at 1. cbn [repositoryOnRepoHost] in Hgit. apply Hgit.
  - intros host _. apply repoCommand_told.
  - intros dir urlName Hdir. by apply (found_told Abs fs cpus _ _ ds repos).
  - intros cs n Hcs Hn. by apply gitRepoName_place.
Qed.

End Servers.

(** C40: zoekt-indexserver indexes no git repository. The command it starts for a repository, without further flags, reads options with
    CTagsMustSucceed. SetDefaults of the builder throws away the ctags it finds, so NewBuilder refuses these options: unless IndexGitRepo finds an index that is up to date, it ends with an error
    before any document is added, whatever the repository holds. *)
Theorem indexserver_never_indexes {R} `{GitRepo R} `{SortAlg} (urlParse : bytes → option URL) (Abs : bytes → option bytes) (fs : bytes → fsNode) (cpus : Z) (DefaultDir indexDir : bytes) (ds : list bytes) (repos : list bytes) (dir : bytes)
    (Hne : ds ≠ []) (Hds : Forall isName ds) (HAbs : ∀ cs, cs ≠ [] → Forall isName cs → Abs (47 :: Join [47] cs) = Some (47 :: Join [47] cs))
    (Hw : wfNode (fs (47 :: Join [47] ds)) = true) (Hrepos : FindGitRepos Abs fs (47 :: Join [47] ds) = Ok repos) (Hcpu : cpus < 2 ^ 63) (Hdir : dir ∈ repos)
    (urlString : URL → bytes) (PlainOpen : bytes → option R) (decode : bytes → option (list ConfigSection)) (config : bytes → option GitConfig) (rankOf : Z → Z)
    (validTemplate : bytes → bool) (Match : bytes → bytes → option bool) (urlName : bytes → option bytes) (IndexVersions : Options → list RepositoryBranch) (depth steps : nat) :
  ∃ o, gitIndexArgs DefaultDir Abs urlName (tail (gitCommand indexDir (47 :: Join [47] ds) (Z.max 1 cpus) [] dir)) = Ok (indexDir, [o]) ∧ go_RepoDir o = dir ∧
    match IndexGitRepo urlParse urlString PlainOpen decode config rankOf validTemplate Match urlName IndexVersions depth steps o with
    | Ok (Some _) => False
    | _ => True
    end.
Proof.
  exists (gitOptions (Z.max 1 cpus) (47 :: Join [47] ds) dir). split; [by apply (found_told Abs fs cpus _ _ ds repos)|]. split; [done|].
  apply IndexGitRepo_requires_ctags; [done|]. cbn [gitOptions go_BuildOptions op_Parallelism]. lia.
Qed.

(** C33: what zoekt-sourcegraph-indexserver has indexed. The job for a commit starts zoekt-archive-index once; its flags say to index, incrementally and under the name of the
    repository, the branch HEAD at this commit from the tarball of the commit, with files of up to 1 MB; without a commit, an empty archive at a commit that stands for none. With a
    server that is not one of GitHub's, the command then does nothing when the index has this commit of HEAD already, and otherwise adds the files of the archive under their
    full names. *)
Theorem Server_Index_archives `{SortAlg} (resolve : bytes → bytes) (succeeds : list bytes → bool) (DefaultDir : bytes) (s : Server) (name commit : bytes) (log : list (list bytes))
    (Hcpu : 0 < sv_CPUCount s < 2 ^ 63) (Hurl : flagOf (tarballURL resolve name commit) = NotFlag) (Hname : name ≠ []) :
  let none := bool_decide (commit = []) in
  let archive := if none then str "-" else tarballURL resolve name commit in
  let version := if none then str "404aaaaaaaaaaaaaaaaaaaaaaaaaaaaaaaaaaaaa" else commit in
  let bo := MkOptions (if none then 131072 else 1048576) (if none then 4 else sv_CPUCount s) 104857600 repository0 None [] false in
  ∃ cmd o, Server_Index resolve succeeds s name commit log = (if succeeds cmd then Ok () else Err "command failed", log ++ [cmd]) ∧
    archiveArgs DefaultDir (tail cmd) = Ok (sv_IndexDir s, o, bo) ∧
    ∀ validTemplate urlParse urlName IndexVersions openArchive, elsewhere urlParse archive → validTemplate [] = true →
      let desc := set_Branches (set_Name repository0 name) [MkBranch (str "HEAD") version] in
      let bo' := set_Description bo desc None in
      do_archive validTemplate urlParse urlName IndexVersions openArchive o bo =
        if bool_decide (IndexVersions bo' = [MkBranch (str "HEAD") version]) then Ok None
        else a ← orErr "open" (openArchive archive); docs ← archiveDocs (op_SizeMax bo) 0 [str "HEAD"] a; Ok (Some (bo', docs)).
Proof.
  intros none archive version bo. exists (if none then emptyShardCommand s name else indexCommand resolve s name commit), (MkArchiveOptions true archive name [] (str "HEAD") version 0). split_and!.
  - unfold Server_Index, createEmptyShard, runCommand, loggedRun, mbind, M_bind, modify, lift, mret, M_ret. fold none. destruct none; by destruct (succeeds _).
  - unfold archiveArgs, bo, archive, version. destruct none; [unfold emptyShardCommand|unfold indexCommand]; cbn [tail]; [vm_compute; reflexivity|].
    pose proof (ParseInt0_Itoa _ Hcpu) as Hv. revert Hv. generalize (Itoa (sv_CPUCount s)) as v. intros v Hv.
    erewrite (parse_int _ _ (str "parallelism") v); [|vm_compute; reflexivity|vm_compute; reflexivity|exact Hv]. parse_flags.
    erewrite (parse_int_next _ _ (str "file_limit") _ 1048576) by (vm_compute; reflexivity). parse_flags. cbn [mbind res_bind]. set (S := <[_ := _]> _).
    assert (S !! str "index" = Some (sv_IndexDir s) ∧ S !! str "incremental" = Some (str "true") ∧ S !! str "name" = Some name ∧ S !! str "url" = None ∧ S !! str "branch" = Some (str "HEAD") ∧
      S !! str "commit" = Some commit ∧ S !! str "strip_components" = None ∧ S !! str "file_limit" = Some (Itoa 1048576) ∧ S !! str "parallelism" = Some v ∧ S !! str "shard_limit" = None ∧
      S !! str "require_ctags" = None) as (E1 & E2 & E3 & E4 & E5 & E6 & E7 & E8 & E9 & E10 & E11) by (split_and!; vm_compute; reflexivity).
    clearbody S. unfold stringFlag, boolFlag, intFlag. rewrite E1, E2, E3, E4, E5, E6, E7, E8, E9, E10, E11, Hv. reflexivity.
  - intros validTemplate urlParse urlName IndexVersions openArchive Hhost Htmpl desc bo'. rewrite do_archive_elsewhere; [|done|done|by vm_compute|done|].
    + assert (is_Ok (NewBuilder validTemplate urlName bo')) as [b Hb].
      { apply NewBuilder_plain; unfold bo', bo, desc; cbn; [done|destruct none; lia|done|by rewrite Htmpl|unfold lenZ; simpl; lia]. }
      match goal with |- context [NewBuilder validTemplate urlName ?x] => change x with bo' end. by rewrite Hb.
    + unfold bo. destruct none; cbn [op_SizeMax op_Parallelism op_ShardMax]; lia.
Qed.

(** *** A server with a host of a manifest and two repositories *)

Definition toyEntries : list configEntry := [MkConfigEntry (str "ann") [] [] [] (str "^old"); MkConfigEntry [] [] (str "https://git.host/") (str "lib") []].
(** The configuration cannot be read at first, and not again after it was read once. *)
Lemma periodicMirror_runs_witness :
  (∃ cmdss, periodicMirror (str "/data/repos") [] [(Err "json", []); (Ok toyEntries, [1; 0]); (Err "json", [0; 1])] [] = (Ok (), [] ++ concat cmdss) ∧
     Forall2 (λ cmds cfg, cmds ≡ₚ omap (mirrorCommand (str "/data/repos")) cfg) cmdss [[]; toyEntries; toyEntries]) ∧ ∀ c, told (str "/data/repos") c.
Proof.
  apply (periodicMirror_runs (str "/data/repos") [(Err "json", []); (Ok toyEntries, [1; 0]); (Err "json", [0; 1])] []).
  apply Forall2_cons. split; [reflexivity|]. apply Forall2_cons. split; [apply perm_swap|]. apply Forall2_cons. split; [reflexivity|]. apply Forall2_nil_2.
Defined.

Definition toyHost : RepoHostConfig := MkRepoHost (str "https://android.host") (str "https://android.host/manifest") [] (str "refs/heads/") [str "master:default.xml"].
Definition toyHostParse (s : bytes) : option URL := Some (MkURL (drop 8 s) [] []).
Definition bareRepo_ : fsNode := directory_ [(str "objects", directory_ [])].
Definition toyRepos (p : bytes) : fsNode :=
  if decide (p = str "/data/repos") then
    directory_ [(str "android.host", directory_ [(str "tools.git", bareRepo_)]); (str "github.com", directory_ [(str "ann", directory_ [(str "zoekt.git", bareRepo_)])])]
  else FGone.
Lemma toy_segments : Forall isName [str "data"; str "repos"].
Proof. repeat apply Forall_cons_2; [apply (@bool_decide_unpack _ (isName_dec _)); vm_compute; reflexivity..|apply Forall_nil_2]. Qed.
Lemma runIndexCommand_runs_witness :
  runIndexCommand (λ _, Some []) (λ _, Some [toyHost]) toyHostParse Some toyRepos 0 (str "/data/index") (str "/data/repos") (str "cfg.json") [str "-submodules=false"] [] =
    (Ok (), [] ++ [repoCommand (str "/data/index") (str "/data/repos") toyHost] ++
       [gitCommand (str "/data/index") (str "/data/repos") 1 [str "-submodules=false"] (str "/data/repos/github.com/ann/zoekt.git")]) ∧
  repoArgs [] (tail (repoCommand (str "/data/index") (str "/data/repos") toyHost)) = Ok (str "/data/index", repoOptions (str "/data/repos") toyHost).
Proof.
  destruct (runIndexCommand_runs (λ _, Some []) (λ _, Some [toyHost]) toyHostParse Some toyRepos 0 [] (str "/data/index") (str "cfg.json") [str "data"; str "repos"] [toyHost]
    [str "/data/repos/android.host/tools.git"; str "/data/repos/github.com/ann/zoekt.git"] [str "-submodules=false"] []) as (H1 & H2 & _).
  - left. split; [discriminate|vm_compute; reflexivity].
  - discriminate.
  - exact toy_segments.
  - reflexivity.
  - vm_compute. reflexivity.
  - vm_compute. reflexivity.
  - lia.
  - split; [exact H1|]. apply (H2 toyHost); [left|reflexivity].
Defined.

Lemma indexserver_never_indexes_witness : ∃ o,
  gitIndexArgs [] Some (λ _, None) (tail (gitCommand (str "/data/index") (str "/data/repos") 1 [] (str "/data/repos/github.com/ann/zoekt.git"))) = Ok (str "/data/index", [o]) ∧
  go_RepoDir o = str "/data/repos/github.com/ann/zoekt.git" ∧
  match @IndexGitRepo bool toyGit merge_sort_alg toyHostParse u_Host toyOpen toyDecode (λ _, None) (λ n, n) (λ _, true) (λ _ _, Some true) (λ _, None) (λ _, []) 2 10 o with
  | Ok (Some _) => False
  | _ => True
  end.
Proof.
  apply (@indexserver_never_indexes bool toyGit merge_sort_alg toyHostParse Some toyRepos 0 [] (str "/data/index") [str "data"; str "repos"]
    [str "/data/repos/android.host/tools.git"; str "/data/repos/github.com/ann/zoekt.git"] (str "/data/repos/github.com/ann/zoekt.git")).
  - discriminate.
  - exact toy_segments.
  - reflexivity.
  - vm_compute. reflexivity.
  - vm_compute. reflexivity.
  - lia.
  - right. left.
Defined.

Definition toyServer : Server := MkServer (str "/data/index") 2.
Lemma Server_Index_archives_witness : ∃ cmd o,
  Server_Index (λ p, str "http://frontend" ++ p) (λ _, true) toyServer (str "github.com/ann/zoekt") (str "abc") [] = (Ok (), [] ++ [cmd]) ∧
  archiveArgs [] (tail cmd) = Ok (str "/data/index", o, MkOptions 1048576 2 104857600 repository0 None [] false) ∧
  @do_archive merge_sort_alg (λ _, true) toyHostParse (λ _, None) (λ _, [MkBranch (str "HEAD") (str "abc")]) (λ _, None) o (MkOptions 1048576 2 104857600 repository0 None [] false) = Ok None.
Proof.
  destruct (@Server_Index_archives merge_sort_alg (λ p, str "http://frontend" ++ p) (λ _, true) [] toyServer (str "github.com/ann/zoekt") (str "abc") []) as (cmd & o & H1 & H2 & H3).
  - split; [reflexivity|vm_compute; reflexivity].
  - vm_compute. reflexivity.
  - discriminate.
  - exists cmd, o. split; [exact H1|]. split; [exact H2|]. exact (H3 (λ _, true) toyHostParse (λ _, None) (λ _, [MkBranch (str "HEAD") (str "abc")]) (λ _, None)
      ltac:(intros u E; vm_compute in E; injection E as <-; apply (bool_decide_unpack _); vm_compute; reflexivity) eq_refl).
Defined.

(** *** What the servers do on the edges *)

(** The server has zoekt-repo-index look at five projects of a manifest, with a flag that is meant for debugging. *)
Example five_projects : ∃ f, repoArgs [] (tail (repoCommand (str "/data/index") (str "/data/repos") toyHost)) = Ok (str "/data/index", f) ∧ rf_maxSubProjects f = 5.
Proof. eexists. split; vm_compute; reflexivity. Qed.
(** A host's directory is compared as a prefix of the text: repositories of another host, whose name begins with the name of the first, are left out. *)
Example host_prefix : onHost toyHostParse (str "/data/repos") [MkRepoHost (str "https://git.io") [] [] [] []] (str "/data/repos/git.io.example.com/a.git") = true.
Proof. vm_compute. reflexivity. Qed.
(** The shards that zoekt-repo-index writes are named after the base URL. There is no repository at that place, so the server deletes them as stale. *)
Example manifest_shards_stale : let missing p := negb (bool_decide (p ∈ [str "/data/repos/android.host/tools.git"; str "/data/repos/android.host"])) in
  cloned missing (str "/data/repos") (PathJoin [str "android.host"; []]) = false.
Proof. vm_compute. reflexivity. Qed.
(** So are those of a repository with a working tree: FindGitRepos finds x/.git, the name is x, and the place that is looked for is x.git. *)
Example worktree_shards_stale : gitRepoName (str "/data/repos") (str "/data/repos/x/.git") = str "x" ∧ Git.Path (str "/data/repos") (str "x") = str "/data/repos/x.git".
Proof. split; vm_compute; reflexivity. Qed.
(** The cache directory is compared as a prefix of the text as well: for a repository in another directory, the name is the whole path. *)
Example cache_prefix : gitRepoName (str "/data/repos") (str "/data/repos2/x.git") = str "/data/repos2/x".
Proof. vm_compute. reflexivity. Qed.
(** An index configuration that cannot be read. *)
Example config_panics : fst (runIndexCommand (λ _, None) (λ _, None) toyHostParse Some toyRepos 1 (str "/data/index") (str "/data/repos") (str "cfg.json") [] []) = Panic "nil pointer dereference".
Proof. vm_compute. reflexivity. Qed.
