(* ===== verification/Frontends.v ===== *)
(** * The commands for searching, and the semaphore of the index server

    cmd/zoekt (main.go), the parts of cmd/zoekt-webserver (main.go) around the handlers of package web: templates on disk, customised hosts, routes and the
    watchdog; and cmd/zoekt-sourcegraph-indexserver/sem.go as a step relation. *)

From S2P Require Import Prelude GoStd GoText Bits Api HitIter MatchIter Query Parse Section IndexBuilder IndexData Content MatchTree Eval Decide Shard Gather Lines Ctags Build Web Git RepoIndex Files Mirror Commands.

(** ** cmd/zoekt *)

Definition displayMatches (files : list Api.FileMatch) : bytes :=
  mjoin ((λ f, mjoin ((λ m, fm_FileName f ++ [58] ++ Itoa (lm_LineNumber m) ++ [58] ++ lm_Line m ++ [10]) <$> fm_LineMatches f)) <$> files).
Definition noOptions : SearchOptions := MkSearchOptions false false 0 0 0 0 0 0.
(** What is printed for the arguments behind the flags, without profiling. *)
Definition zoektMain {S} `{Searcher S} (syntaxParse : bytes → option Regexp) (reString : Regexp → bytes) (args : list bytes) : M S bytes :=
  match args with
  | [] => lift (Err "Pattern is missing.")
  | pat :: _ =>
    q ← lift (Parse.Parse syntaxParse reString pat);
    sres ← ((λ s, Searcher_Search s q noOptions) : M S SearchResult);
    mret (displayMatches (sr_Files sres))
  end.

(** ** cmd/zoekt-webserver *)

Definition templateExtension : bytes := str ".html.tpl".
Section Templates.
(** Whether html/template parses a text; whether a file can be written. *)
Context (parses : bytes → bool) (writeFails : bytes → bool).

(** filepath.Glob of a directory with a star before the extension, over the files there are; None for a file that cannot be read. *)
Definition isTemplate (dir fn : bytes) : bool :=
  HasPrefix fn (dir ++ [47]) && (let rest := TrimPrefix fn (dir ++ [47]) in HasSuffix rest templateExtension && bool_decide (47 ∉ TrimSuffix rest templateExtension)).
Definition globTemplates (dir : bytes) (files : gmap bytes (option bytes)) : list (bytes * option bytes) :=
  filter (λ f, isTemplate dir (fst f) = true) (map_to_list files).
Definition templateBase (fn : bytes) : bytes := TrimSuffix (PathBase fn) templateExtension.
Fixpoint loadFiles (fs : list (bytes * option bytes)) (tpl : gmap bytes bytes) : res (gmap bytes bytes) :=
  match fs with
  | [] => Ok tpl
  | (fn, content) :: fs =>
    content ← orErr "read" content;
    if parses content then loadFiles fs (<[templateBase fn := content]> tpl) else Err "Parse"
  end.
Definition loadTemplates (dir : bytes) (files : gmap bytes (option bytes)) (tpl : gmap bytes bytes) : res (gmap bytes bytes) := loadFiles (globTemplates dir files) tpl.
Fixpoint writeFiles (dir : bytes) (texts : list (bytes * bytes)) (files : gmap bytes (option bytes)) : res () * gmap bytes (option bytes) :=
  match texts with
  | [] => (Ok (), files)
  | (k, v) :: texts =>
    let nm := PathJoin [dir; k ++ templateExtension] in
    if writeFails nm then (Err "write", files) else writeFiles dir texts (<[nm := Some v]> files)
  end.
Definition writeTemplates (dir : bytes) (TemplateText : gmap bytes bytes) (files : gmap bytes (option bytes)) : res () * gmap bytes (option bytes) :=
  if bool_decide (dir = []) then (Err "must set --template_dir", files) else writeFiles dir (map_to_list TemplateText) files.
End Templates.

(** -host_customization: a query for every host. *)
Fixpoint hostQueries (hs : list bytes) (m : gmap bytes bytes) : res (gmap bytes bytes) :=
  match hs with
  | [] => Ok m
  | h :: hs =>
    if bool_decide (h = []) then hostQueries hs m
    else match CutByte 61 h with (_, None) => Err "invalid host_customization" | (host, Some q) => hostQueries hs (<[host := q]> m) end
  end.
Definition hostCustomization (s : bytes) : res (gmap bytes bytes) := if bool_decide (s = []) then Ok ∅ else hostQueries (SplitByte 44 s) ∅.

(** The patterns that are registered: those of NewMux, profiling, and the health check. *)
Definition webRoutes (mux : list bytes) (pprof : bool) : list bytes :=
  mux ++ (if pprof then [str "/debug/pprof/"; str "/debug/pprof/cmdline"; str "/debug/pprof/profile"; str "/debug/pprof/symbol"; str "/debug/pprof/trace"; str "/debug/requests/"; str "/debug/events/"]
          else []) ++ [str "/healthz"].
(** http.ServeMux: a pattern that ends in a slash matches what is below it. *)
Definition matchesPattern (pattern path : bytes) : bool := bool_decide (pattern = path) || HasSuffix pattern [47] && HasPrefix path pattern.
Definition routed (patterns : list bytes) (path : bytes) : bool := existsb (λ p, matchesPattern p path) patterns.
(** [get]: the status of an answer, None for an error. *)
Definition watchdogOnce (get : option Z) : res () :=
  status ← orErr "http" get; if negb (status =? 200) then Err "watchdog" else Ok ().
Fixpoint watchdog (ticks : list (option Z)) : res () :=
  match ticks with
  | [] => Ok ()
  | get :: ticks => match watchdogOnce get with Ok _ => watchdog ticks | _ => Panic "watchdog" end
  end.

(** ** The semaphore of zoekt-sourcegraph-indexserver *)

(** A buffered channel, and the counter of the WaitGroup. *)
Record semaphore := MkSemaphore { se_size : nat; se_sema : nat; se_wg : nat }.
Definition newSemaphore (size : nat) : semaphore := MkSemaphore size 0 0.
(** Sending blocks while the channel is full, receiving while it is empty, and waiting while the counter is not 0. *)
Definition send (s : semaphore) : option semaphore := if decide (se_sema s < se_size s)%nat then Some (MkSemaphore (se_size s) (S (se_sema s)) (se_wg s)) else None.
Definition receive (s : semaphore) : option semaphore := match se_sema s with S n => Some (MkSemaphore (se_size s) n (se_wg s)) | O => None end.
Definition wgAdd (s : semaphore) : semaphore := MkSemaphore (se_size s) (se_sema s) (S (se_wg s)).
(** A negative counter panics. *)
Definition wgDone (s : semaphore) : res semaphore := match se_wg s with S n => Ok (MkSemaphore (se_size s) (se_sema s) n) | O => Panic "sync: negative WaitGroup counter" end.

(** The loop that resolves the commits: how many names are left, whether it is between the two halves of Acquire, waits, or is past the wait. *)
Inductive phase := Looping (left : nat) | Sent (left : nat) | Waiting | Past.
(** [running]: requests in flight; [releasing]: between the two halves of Release; [finished]: done. *)
Record resolving := MkResolving { rv_phase : phase; rv_sem : semaphore; rv_running : nat; rv_releasing : nat; rv_finished : nat }.
Inductive resolveStep : resolving → resolving → Prop :=
| r_send n s s' a b d : send s = Some s' → resolveStep (MkResolving (Looping (S n)) s a b d) (MkResolving (Sent n) s' a b d)
| r_start n s a b d : resolveStep (MkResolving (Sent n) s a b d) (MkResolving (Looping n) (wgAdd s) (S a) b d)
| r_receive p s s' a b d : receive s = Some s' → resolveStep (MkResolving p s (S a) b d) (MkResolving p s' a (S b) d)
| r_done p s s' a b d : wgDone s = Ok s' → resolveStep (MkResolving p s a (S b) d) (MkResolving p s' a b (S d))
| r_wait s a b d : resolveStep (MkResolving (Looping 0) s a b d) (MkResolving Waiting s a b d)
| r_past s a b d : se_wg s = 0%nat → resolveStep (MkResolving Waiting s a b d) (MkResolving Past s a b d).

(** ** Facts *)

(** *** Requests in flight *)

Definition remaining (p : phase) : nat := match p with Looping n => n | Sent n => S n | Waiting | Past => 0 end.
Definition half (p : phase) : nat := match p with Sent _ => 1 | _ => 0 end.
Definition resolveInv (n size : nat) (r : resolving) : Prop :=
  let s := rv_sem r in
  se_size s = size ∧ se_sema s = (rv_running r + half (rv_phase r))%nat ∧ (se_sema s <= size)%nat ∧ se_wg s = (rv_running r + rv_releasing r)%nat ∧
  (remaining (rv_phase r) + rv_running r + rv_releasing r + rv_finished r = n)%nat ∧ (rv_phase r = Past → se_wg s = 0%nat).
Lemma resolveInv_step n size r r' : resolveInv n size r → resolveStep r r' → resolveInv n size r'.
Proof.
  intros Hinv Hst. destruct Hst as [m s s' a b d E|m s a b d|p s s' a b d E|p s s' a b d E|s a b d|s a b d E];
    destruct Hinv as (H1 & H2 & H3 & H4 & H5 & H6); cbn [rv_phase rv_sem rv_running rv_releasing rv_finished remaining half] in *.
  - unfold send in E. destruct (decide _); [|done]. injection E as <-. split_and!; cbn; try done; lia.
  - split_and!; cbn; try done; lia.
  - unfold receive in E. destruct (se_sema s) eqn:Es; [done|]. injection E as <-. split_and!; cbn; try done; try lia; intros Hp; specialize (H6 Hp); lia.
  - unfold wgDone in E. destruct (se_wg s) eqn:Es; [done|]. injection E as <-. split_and!; cbn; try done; try lia; intros Hp; specialize (H6 Hp); lia.
  - split_and!; cbn; try done; lia.
  - split_and!; cbn; try done; lia.
Qed.
Lemma resolveInv_run n size r r' : rtc resolveStep r r' → resolveInv n size r → resolveInv n size r'.
Proof. induction 1; eauto using resolveInv_step. Qed.

(** *** Templates on disk *)

Section TemplateFacts.
Context (ds : list bytes) (Hne : ds ≠ []) (Hds : Forall isName ds).
#[local] Abbreviation dir := (47 :: Join [47] ds).
#[local] Abbreviation fileOf k := (dir ++ [47] ++ k ++ templateExtension).
Lemma isName_template k : 47 ∉ k → isName (k ++ templateExtension).
Proof.
  intros Hk. split_and!.
  - by intros [_ ?]%app_nil.
  - intros E. apply (f_equal length) in E. rewrite length_app in E. simpl in E. lia.
  - intros E. apply (f_equal length) in E. rewrite length_app in E. simpl in E. lia.
  - rewrite elem_of_app. intros [?|Hin]; [done|]. revert Hin. apply (bool_decide_unpack _). vm_compute. reflexivity.
Qed.
Lemma template_path k : 47 ∉ k → PathJoin [dir; k ++ templateExtension] = fileOf k.
Proof. intros Hk. rewrite PathJoin_rooted by (done || by apply isName_template). by rewrite Join_snoc. Qed.
Lemma templateBase_path k : 47 ∉ k → templateBase (fileOf k) = k.
Proof. intros Hk. unfold templateBase. cbn [app]. rewrite app_comm_cons, PathBase_name by (by apply isName_template). apply TrimSuffix_app. Qed.
Lemma isTemplate_path k : 47 ∉ k → isTemplate dir (fileOf k) = true.
Proof.
  intros Hk. unfold isTemplate. rewrite (proj2 (HasPrefix_spec _ _)) by (exists (k ++ templateExtension); by rewrite <- app_assoc). cbn [andb].
  replace (fileOf k) with ((dir ++ [47]) ++ k ++ templateExtension) by (by rewrite <- app_assoc). rewrite TrimPrefix_app, TrimSuffix_app, bool_decide_true by done.
  rewrite (proj2 (HasSuffix_spec _ _)) by eauto. done.
Qed.
Lemma isTemplate_base fn : isTemplate dir fn = true → ∃ base, fn = fileOf base ∧ 47 ∉ base.
Proof.
  unfold isTemplate. rewrite andb_true_iff. intros [[t ->]%HasPrefix_spec H]. rewrite TrimPrefix_app, andb_true_iff, bool_decide_eq_true in H. destruct H as [[b ->]%HasSuffix_spec Hb].
  rewrite TrimSuffix_app in Hb. exists b. by rewrite <- app_assoc.
Qed.
Lemma templateBase_inj fn fn' : isTemplate dir fn = true → isTemplate dir fn' = true → templateBase fn = templateBase fn' → fn = fn'.
Proof. intros (b & -> & Hb)%isTemplate_base (b' & -> & Hb')%isTemplate_base. rewrite !templateBase_path by done. by intros ->. Qed.

Lemma loadFiles_ok parses fs tpl : Forall (λ f, ∃ v, snd f = Some v ∧ parses v = true) fs → NoDup (fst <$> fs) → Forall (λ f, isTemplate dir (fst f) = true) fs →
  ∃ tpl', loadFiles parses fs tpl = Ok tpl' ∧ ∀ fn v, isTemplate dir fn = true → (fn, Some v) ∈ fs ∨ fn ∉ fs.*1 ∧ tpl !! templateBase fn = Some v → tpl' !! templateBase fn = Some v.
Proof.
  intros Hall. revert tpl. induction Hall as [|[fn c] fs (w & Ec & Hp) _ IH]; intros tpl Hnd Ht.
  { exists tpl. split; [done|]. intros fn v _ [?%elem_of_nil|[_ ?]]; done. }
  cbn [fst snd] in *. subst c. rewrite fmap_cons in Hnd. apply NoDup_cons in Hnd as [Hni Hnd]. apply Forall_cons in Ht as [Htf Ht]. cbn [fst] in *.
  destruct (IH (<[templateBase fn := w]> tpl) Hnd Ht) as (tpl' & E & Hl). exists tpl'. cbn [loadFiles orErr mbind res_bind]. rewrite Hp. split; [done|].
  intros fn' v Htf' [[[= -> ->]|Hin]%elem_of_cons|[Hnot Hv]].
  - apply Hl; [done|]. right. split; [done|]. apply lookup_insert_eq.
  - apply Hl; [done|by left].
  - rewrite fmap_cons, not_elem_of_cons in Hnot. destruct Hnot as [Hfn Hnot]. apply Hl; [done|]. right. split; [done|]. rewrite lookup_insert_ne; [done|].
    intros E'. apply Hfn. symmetry. by apply templateBase_inj.
Qed.
Lemma writeFiles_ok writeFails texts files files' : NoDup (fst <$> texts) → Forall (λ t, 47 ∉ fst t) texts → writeFiles writeFails dir texts files = (Ok (), files') →
  (∀ k v, (k, v) ∈ texts → files' !! fileOf k = Some (Some v)) ∧ (∀ fn, (∀ k, k ∈ texts.*1 → fn ≠ fileOf k) → files' !! fn = files !! fn).
Proof.
  revert files. induction texts as [|[k v] texts IH]; intros files Hnd Hs E; cbn [writeFiles] in E.
  { injection E as <-. split; [by intros ? ? ?%elem_of_nil|done]. }
  rewrite fmap_cons in Hnd. apply NoDup_cons in Hnd as [Hni Hnd]. apply Forall_cons in Hs as [Hk Hs]. cbn [fst] in *. rewrite template_path in E by done.
  destruct (writeFails _); [done|]. destruct (IH _ Hnd Hs E) as [H1 H2].
  assert (∀ a b, a ≠ b → fileOf a ≠ fileOf b) as Hinj by (intros a b Hab [= Eab]; apply app_inv_head in Eab; injection Eab as Eab; by apply app_inv_tail in Eab).
  split.
  - intros k' v' [[= -> ->]|Hin]%elem_of_cons; [|by apply H1]. rewrite H2; [apply lookup_insert_eq|]. intros k' Hk'. apply Hinj. by intros ->.
  - intros fn Hfn. rewrite H2; [|intros k' Hk'; apply Hfn; rewrite fmap_cons; by right]. rewrite lookup_insert_ne; [done|]. intros E'. destruct (Hfn k); [rewrite fmap_cons; left|done].
Qed.
End TemplateFacts.

(** ** Properties *)

(** Resolving the commits of many repositories: there are never more requests in flight than the semaphore allows; the wait ends only when every request is finished; the
    counter of the WaitGroup does not become negative; and the loop is not stuck before it is past the wait. *)
Theorem resolve_bounded (n size : nat) (r : resolving) (Hsize : (0 < size)%nat) (Hreach : rtc resolveStep (MkResolving (Looping n) (newSemaphore size) 0 0 0) r) :
  (rv_running r <= size)%nat ∧ (rv_phase r = Past → rv_running r = 0%nat ∧ rv_releasing r = 0%nat ∧ rv_finished r = n) ∧
  (rv_releasing r ≠ 0%nat → ∃ s, wgDone (rv_sem r) = Ok s) ∧ (rv_phase r ≠ Past → ∃ r', resolveStep r r').
Proof.
  assert (resolveInv n size r) as (H1 & H2 & H3 & H4 & H5 & H6).
  { apply (resolveInv_run _ _ _ _ Hreach). split_and!; cbn; try done; lia. }
  split_and!.
  - lia.
  - intros Hp. specialize (H6 Hp). rewrite Hp in H5. cbn [remaining] in H5. lia.
  - intros Hr. unfold wgDone. destruct (se_wg (rv_sem r)) eqn:E; [lia|by eexists].
  - intros Hp. destruct r as [p s a b d]. cbn [rv_phase rv_sem rv_running rv_releasing rv_finished] in *. destruct b as [|b].
    2:{ destruct (se_wg s) eqn:E; [lia|]. eexists. apply r_done. unfold wgDone. by rewrite E. }
    destruct a as [|a].
    2:{ destruct (se_sema s) eqn:E; [lia|]. eexists. apply r_receive. unfold receive. by rewrite E. }
    destruct p as [[|m]|m| |]; [eexists; apply r_wait| |eexists; apply r_start|eexists; apply r_past; lia|done].
    eexists. apply r_send. unfold send. cbn [half] in H2. rewrite decide_True by lia. done.
Qed.
Lemma resolve_bounded_witness : ∃ r', resolveStep (MkResolving (Looping 1) (MkSemaphore 1 1 1) 1 0 0) r'.
Proof.
  refine (proj2 (proj2 (proj2 (resolve_bounded 2 1 (MkResolving (Looping 1) (MkSemaphore 1 1 1) 1 0 0) _ _))) _); [lia| |discriminate].
  eapply rtc_l; [apply r_send; reflexivity|]. eapply rtc_l; [apply r_start|]. apply rtc_refl.
Defined.

(** The templates that -dump_templates writes are those that -template_dir loads, under the same names, whatever else is in the directory, as long as the other templates there can
    be read and parsed. *)
Theorem templates_roundtrip (parses writeFails : bytes → bool) (ds : list bytes) (TemplateText : gmap bytes bytes) (files files' : gmap bytes (option bytes)) (tpl : gmap bytes bytes)
    (Hne : ds ≠ []) (Hds : Forall isName ds) (Htexts : ∀ k v, TemplateText !! k = Some v → 47 ∉ k ∧ parses v = true)
    (Hfiles : ∀ fn c, files !! fn = Some c → isTemplate (47 :: Join [47] ds) fn = true → ∃ v, c = Some v ∧ parses v = true)
    (Hwrite : writeTemplates writeFails (47 :: Join [47] ds) TemplateText files = (Ok (), files')) :
  ∃ tpl', loadTemplates parses (47 :: Join [47] ds) files' tpl = Ok tpl' ∧ ∀ k v, TemplateText !! k = Some v → tpl' !! k = Some v.
Proof.
  set (dir := 47 :: Join [47] ds) in *. unfold writeTemplates in Hwrite. rewrite bool_decide_false in Hwrite by done.
  destruct (writeFiles_ok ds Hne Hds writeFails (map_to_list TemplateText) files files') as [H1 H2]; [apply NoDup_fst_map_to_list| |done|].
  { apply Forall_forall. intros [k v] Hkv%elem_of_map_to_list. by apply (Htexts k v). }
  destruct (loadFiles_ok ds parses (globTemplates dir files') tpl) as (tpl' & E & Hl).
  - apply Forall_forall. intros [fn c] [Ht Hf]%list_elem_of_filter. cbn [fst snd] in *. apply elem_of_map_to_list in Hf.
    destruct (decide (Exists (λ k, fn = dir ++ [47] ++ k ++ templateExtension) (map_to_list TemplateText).*1)) as [(k & Hk & ->)%Exists_exists|Hno].
    + apply list_elem_of_fmap in Hk as ([k' v] & -> & Hkv). cbn [fst] in *. pose proof (H1 k' v Hkv) as Hf'. fold dir in Hf'. rewrite Hf' in Hf. injection Hf as <-. exists v. split; [done|].
      apply elem_of_map_to_list in Hkv. by apply (Htexts k' v).
    + rewrite H2 in Hf; [by apply (Hfiles fn c)|]. intros k Hk ->. apply Hno, Exists_exists. by exists k.
  - unfold globTemplates. apply (sublist_NoDup _ (map_to_list files').*1); [apply NoDup_fst_map_to_list|apply fmap_sublist, sublist_filter].
  - apply Forall_forall. intros f [Ht _]%list_elem_of_filter. done.
  - exists tpl'. split; [done|]. intros k v Hkv. destruct (Htexts k v Hkv) as [Hk _]. rewrite <- (templateBase_path ds k Hk). apply Hl; [by apply isTemplate_path|]. left.
    apply list_elem_of_filter. split; [by apply isTemplate_path|]. apply elem_of_map_to_list, H1, elem_of_map_to_list. done.
Qed.
Lemma templates_roundtrip_witness : ∃ tpl', loadTemplates (λ _, true) (str "/etc/tpl") {[str "/etc/tpl/about.html.tpl" := Some (str "hi")]} ∅ = Ok tpl' ∧
  ∀ k v, ({[str "about" := str "hi"]} : gmap bytes bytes) !! k = Some v → tpl' !! k = Some v.
Proof.
  apply (templates_roundtrip (λ _, true) (λ _, false) [str "etc"; str "tpl"] {[str "about" := str "hi"]} ∅ {[str "/etc/tpl/about.html.tpl" := Some (str "hi")]} ∅).
  - discriminate.
  - repeat apply Forall_cons_2; [apply (@bool_decide_unpack _ (isName_dec _)); vm_compute; reflexivity..|apply Forall_nil_2].
  - intros k v [<- _]%lookup_singleton_Some. split; [|reflexivity]. apply (bool_decide_unpack _). vm_compute. reflexivity.
  - intros fn c Hf. by rewrite lookup_empty in Hf.
  - vm_compute. reflexivity.
Defined.

(** A server without the HTML interface: its watchdog asks for the page at the root, for which there is no handler, and ends the program. *)
Theorem watchdog_needs_html {S T} `{Searcher S} (lookup : bytes → bool) (rpc pprof : bool) (now : Z) (s s' : Web.Server S T) (handlers : list (bytes * Handler))
    (Hmux : NewMux lookup false rpc now s = Ok (handlers, s')) :
  routed (webRoutes (fst <$> handlers) pprof) (str "/") = false ∧ ∀ ticks, watchdog (Some 404 :: ticks) = Panic "watchdog".
Proof.
  split; [|done]. unfold NewMux in Hmux. destruct (negb _); [done|]. destruct (forallb _ _); [|done]. injection Hmux as <- _.
  destruct rpc, pprof, (s_Print s); vm_compute; reflexivity.
Qed.

(** Customised hosts are read back from the text that lists them. *)
Lemma hostQueries_ok (l : list (bytes * bytes)) m : Forall (λ hq, 61 ∉ fst hq) l →
  hostQueries ((λ hq, fst hq ++ 61 :: snd hq) <$> l) m = Ok (foldl (λ m hq, <[fst hq := snd hq]> m) m l).
Proof.
  intros Hall. revert m. induction Hall as [|[h q] l Hh _ IH]; intros m; [done|]. rewrite fmap_cons. cbn [hostQueries fst snd] in *.
  rewrite bool_decide_false by (by intros [_ ?]%app_nil). rewrite CutByte_app by done. cbn [foldl fst snd]. apply IH.
Qed.
Theorem hostCustomization_roundtrip (l : list (bytes * bytes)) (Hl : l ≠ []) (Hall : Forall (λ hq, 61 ∉ fst hq ∧ 44 ∉ fst hq ∧ 44 ∉ snd hq) l) :
  hostCustomization (Join [44] ((λ hq, fst hq ++ 61 :: snd hq) <$> l)) = Ok (foldl (λ m hq, <[fst hq := snd hq]> m) ∅ l).
Proof.
  unfold hostCustomization, SplitByte. rewrite SplitFunc_Join.
  - case_bool_decide as E; [|apply hostQueries_ok; eapply Forall_impl; [exact Hall|]; naive_solver].
    exfalso. destruct l as [|[h q] [|hq l]]; [done| |]; destruct h; simpl in E; discriminate E.
  - by destruct l.
  - done.
  - apply Forall_fmap. eapply Forall_impl; [exact Hall|]. intros [h q] (_ & Hh & Hq) c Hc. cbn [fst snd compose] in *. apply Z.eqb_neq. intros ->.
    apply elem_of_app in Hc as [?|[?|?]%elem_of_cons]; done.
Qed.
